(* ===== verification/_CoqProject ===== *)
-Q . S2P
Prelude.v
IntMath.v
RingBuf.v
Atomic.v
TsQueue.v
TsQueueSpec.v
Locks.v
WaitQueue.v
CondVar.v
LockedChannel.v
RefCount.v
Links.v
TimerWheel.v
TimerRace.v
TimerRaceSpec.v
TimerRaceInv.v
TaskRing.v
Processor.v
ProcInv.v
ProcSpec.v
ProcSleep.v
Scheduler.v
SchedSpec.v
SchedLife.v
SchedLifeSpec.v
LocalStorage.v
LocalStorageSpec.v
SmallHeap.v
HeapBlocks.v
HeapNodes.v
HeapRun.v
SmallHeapSpec.v
Signal.v
SignalWait.v
SignalSpec.v
SignalWaitSpec.v
SignalRace.v
HardQueue.v
HardQueueSpec.v
StreamPool.v
StreamPoolSpec.v
SharedPool.v
SharedPoolSpec.v
SharedOwner.v
SharedOwnerSpec.v
AsyncEvents.v
AsyncEventsSpec.v
OsEvent.v
OsEventSpec.v
KernelLocks.v
KernelLocksSpec.v
ConnectionPool.v
ConnectionPoolSpec.v
Anys.v
AnysSpec.v
CasChannel.v
CasChannelSpec.v
CoroutinePool.v
CoroutinePoolSpec.v
QueueIndex.v
Packed.v
Options.v
OptionsSpec.v
