(* ===== verification/Prelude.v ===== *)
(** * costream: a verification library of its core

    costream is a coroutine runtime with a stream layer.  Coroutines (tasks) run on processors, one
    thread each; a scheduler places them and moves them between processors; they meet in channels
    and condition variables, sleep on a timer, and are handed to processors through packet queues.
    The stream layer adds signals, hardware and software queues, and handlers of asynchronous
    signals.  This library models these parts as they are written and proves what makes them
    correct, or shows where they are not.

    ** Parts, files and code

    Every definition has the name of the function or type it models; operations are pure functions
    on an explicit state (or computations in the error monad [res] below), so that they evaluate.
    Paths are under [src/].

    - Foundations.  [Prelude.v]: machine integers, the error monad, sums, reachability, exploration of
      finite state spaces.  [IntMath.v]: [include/util/intmath.h].  [Atomic.v]:
      [include/util/atomic_helpers.h].  [RingBuf.v]: [include/co/sync/ringbuffer.h].
    - Queues of objects.  [TsQueue.v]: [SList] and [TSQueue] of [src/common/inc/TsQueue.h] over a store
      of hooks; [TsQueueSpec.v]: they are lists.  [Links.v]: the same as membership of elements in
      queues, which the timer and the processors build on.
    - Locks and waiting.  [Locks.v]: [src/common/inc/SpinLock.h], [include/util/locks.h] and the reader
      writer lock.  [WaitQueue.v], [CondVar.v]: [include/co/sync/wait_queue.h] and
      [co_condition_variable.h], the handshake of waiter, notifier and timer access by access and the
      queue of waiters.  [LockedChannel.v]: [locked_channel_impl.h] and [channel.h] over both.
      [CasChannel.v], [CasChannelSpec.v]: the other channel, [cas_channel_impl.h], access by access over
      the promise of the condition variable.  [OsEvent.v], [OsEventSpec.v]: events and threads of
      [src/core/util/lnx/os_linux.cpp].  [KernelLocks.v], [KernelLocksSpec.v]: [KernelMutex], [KernelEvent],
      the joining of threads and [include/util/lazy_coptr.h].
    - Ownership.  [RefCount.v]: the reference counts and smart pointers of
      [src/common/inc/LangSupport.h].
    - Time.  [TimerWheel.v]: [src/common/inc/Timer.h] over [RefCount.v]'s counts and [Links.v].
      [TimerRace.v], [TimerRaceSpec.v], [TimerRaceInv.v]: its callers interleaved with its thread.
    - Tasks.  [TaskRing.v]: the packets and the queue by which tasks reach a processor.  [Processor.v]:
      [src/processor/Processor.cpp] and [src/task/Task.cpp] on the state of a whole scheduler;
      [ProcInv.v]: its worlds and their steps; [ProcSpec.v]: the theorems; [ProcSleep.v]: the sleep of a
      processor access by access.  [Scheduler.v], [SchedSpec.v]: [src/scheduler/Scheduler.cpp] on those
      worlds.  [SchedLife.v], [SchedLifeSpec.v]: the life of schedulers, their threads and timers, from
      creation to the exit list, with the calls interleaved.
    - Memory.  [SmallHeap.v]: [include/util/small_heap.cpp]; [HeapBlocks.v], [HeapNodes.v], [HeapRun.v],
      [SmallHeapSpec.v]: its refinement of a list of blocks.  [SharedPool.v], [SharedPoolSpec.v]: the pool
      of shared signals of [src/core/ISignal.cpp].  [SharedOwner.v], [SharedOwnerSpec.v]: the owners of
      [include/Shared.h].  [Anys.v], [AnysSpec.v]: the storage
      of the values of a task, [src/common/inc/Anys.h].  [LocalStorage.v], [LocalStorageSpec.v]: variables of
      any type, [src/common/inc/any.h], and over them the storage local to coroutines,
      [src/processor/CoLocalStorage.h].
    - Signals and queues of the stream layer.  [Signal.v], [SignalWait.v], [SignalSpec.v],
      [SignalWaitSpec.v], [SignalRace.v]: [src/core/ISignal.cpp], [DefaultSignal.cpp],
      [InterruptSignal.cpp] and the waits of [Stream.cpp].  [HardQueue.v], [HardQueueSpec.v]:
      [src/core/HardQueue.cpp].  [QueueIndex.v]: the indices of [include/SoftQueue.h], handles, and
      [src/core/IQueue.cpp].  [StreamPool.v], [StreamPoolSpec.v]: the queues of [src/core/Stream.cpp].
      [AsyncEvents.v], [AsyncEventsSpec.v]: [src/core/EventPool.cpp] on the worlds of the signals.
    - Pools.  [ConnectionPool.v], [ConnectionPoolSpec.v]: [src/pool/ConnectionPool.h] over the
      specification of the channel.  [CoroutinePool.v], [CoroutinePoolSpec.v]:
      the callback points of [src/pool/AsyncCoroutinePool.cpp].

    - Words and text.  [Packed.v]: the bit fields of [include/util/utils.h] and the packets of
      [include/stream_api.h].  [Options.v], [OptionsSpec.v]: the options of [include/util/flag.h], and the
      text of [utils.h], [os_linux.cpp] and [src/common/OsSupport.cpp].

    ** What the theorems show

    - Refinement: [TSQueue], [WaitQueue], [RingBuffer], [LockedChannelImpl], [SmallHeap] and [any] answer
      every legal sequence of calls as the list, line, list of blocks or variables that they promise.
    - Invariants in every reachable state: no task, connection, timer element, handle or signal is lost
      or doubled; reference counts are exact; exclusion of the locks; the window of a doorbell.
    - Safety and absence of failures: every call of the processors, signals and handlers returns, no
      assertion fails and nothing is used after its release.
    - Progress: no lost wake-up in the locks, the channel, the condition variable, the signals and the
      thread of asynchronous handlers, in every interleaving; waits end when their time is over.
    - Bounds, round trips and errors: the widths of the counters, the exact time limits, the release
      that undoes an allocation; and the theorems on faults, each of which exhibits the run that
      goes wrong or shows that something can never happen.

    ** Assumptions

    Interleavings are sequentially consistent, except where [SignalRace.v] gives the stores of a
    signal a buffer.  Each operation that holds a lock from its first to its last access is one step;
    in the processors the code between two switches and [Steal] are one step each.  The build is the
    one of the repository: assertions on, [LIBGO_DEBUG], [ENABLE_DEBUGGER], [CO_LARGE_MODEL] and
    [LARGE_MODEL] not set, x86-64.  Times are integers (nanoseconds unless said).  The calls of
    POSIX and of the standard library behave as documented; [OsEvent.v] says what it uses.  The device,
    its allocator and its events, agents and the memory allocator are parameters or sequences of
    answers.

    ** Fuel and bounds

    The walks of [SmallHeap] have as much fuel as there are nodes, those of the wait queue more than
    it has entries, [RunOnce] as many iterations as ticks have passed; clearing a list and the
    destructors take their fuel as an argument.  The theorems about these operations show that they
    return with it.  [grow] of [OsEvent.v] has 16 rounds, by [create_thread_returns] enough for every
    size.  A wait takes a bound on the rounds, and
    [wait_returns] gives the round by which it has ended.  The finite protocols ([CondVar.Protocol],
    [RefCount.Protocol], [SignalRace.v]) are explored completely by [explore], whose result is proved to
    be closed under steps.

    ** Not modelled

    - Code of the system: fcontext and the switching of contexts (assembly), clocks that calibrate
      the cycle counter in floating point ([Clock.h], [util/timer.cpp]), libraries.
    - Interfaces without bodies ([IAgent.h], [IDevice.h], [IRuntime.h], [ICoStream.h]), and classes of
      which only declarations are in the repository ([CoStream.h], [co_mutex.h], [co_rwmutex.h],
      [src/timer/Timer.h], [TimerSuspend.h]).
    - Code that does not compile as it is: [scheduler/Pipe.cpp] (a missing semicolon, calls without
      their argument), [scheduler/StreamProcessor.cpp], [defer/Defer.cpp] (headers that do not exist).
    - Dead code under [attic/], and tests.
    - Printing: [DebugPrint], [CoDebugger], [DbgTimer].
    - In the compare and swap channel, the timer of a suspended coroutine that comes between the lock
      and the wake-up of a notifier ([CondVar.Protocol.cv_phantom_notification] shows what it does to the
      condition variable alone). *)
From stdpp Require Export base numbers list gmap option relations.
From Stdlib Require Export ZArith Lia.

(** * Machine integers

    A [w]-bit unsigned integer is a [Z] in [[0, 2^w)]; every arithmetic result
    the C++ code stores in such a variable goes through [wrap w]. *)

Declare Scope mach_scope.
Delimit Scope mach_scope with mach.

Local Open Scope Z_scope.

Definition wrap (w z : Z) : Z := z mod 2 ^ w.
Definition u64 (z : Z) : Z := wrap 64 z.
Definition u32 (z : Z) : Z := wrap 32 z.

(** Reading a [w]-bit pattern as a two's complement number. *)
Definition sgn (w z : Z) : Z :=
  let r := wrap w z in if r <? 2 ^ (w - 1) then r else r - 2 ^ w.
Definition i64 (z : Z) : Z := sgn 64 z.

Notation "a +64 b" := (u64 (a + b)) (at level 50, left associativity) : mach_scope.
Notation "a -64 b" := (u64 (a - b)) (at level 50, left associativity) : mach_scope.

(** [x] fits in [w] bits. *)
Definition fits (w x : Z) : Prop := 0 <= x < 2 ^ w.

Lemma pow2_pos (w : Z) : 0 <= w -> 0 < 2 ^ w.
Proof. intros. apply Z.pow_pos_nonneg; lia. Qed.

Lemma wrap_range (w z : Z) : 0 <= w -> fits w (wrap w z).
Proof. intros. apply Z.mod_pos_bound, pow2_pos; lia. Qed.

Lemma wrap_small (w z : Z) : fits w z -> wrap w z = z.
Proof. apply Z.mod_small. Qed.

Lemma wrap_wrap (w z : Z) : wrap w (wrap w z) = wrap w z.
Proof. apply Zmod_mod. Qed.

Lemma wrap_add_l (w a b : Z) : wrap w (wrap w a + b) = wrap w (a + b).
Proof. apply Zplus_mod_idemp_l. Qed.

Lemma wrap_add_r (w a b : Z) : wrap w (a + wrap w b) = wrap w (a + b).
Proof. apply Zplus_mod_idemp_r. Qed.

Lemma wrap_sub_l (w a b : Z) : wrap w (wrap w a - b) = wrap w (a - b).
Proof. apply Zminus_mod_idemp_l. Qed.

Lemma wrap_sub_r (w a b : Z) : wrap w (a - wrap w b) = wrap w (a - b).
Proof. apply Zminus_mod_idemp_r. Qed.

Lemma wrap_mul_l (w a b : Z) : wrap w (wrap w a * b) = wrap w (a * b).
Proof. apply Zmult_mod_idemp_l. Qed.

Lemma wrap_mul_r (w a b : Z) : wrap w (a * wrap w b) = wrap w (a * b).
Proof. apply Zmult_mod_idemp_r. Qed.

Lemma wrap_land_ones (w z : Z) : 0 <= w -> wrap w z = Z.land z (Z.ones w).
Proof. intros. unfold wrap. by rewrite Z.land_ones. Qed.

Lemma wrap_add_pow (w z k : Z) : wrap w (z + k * 2 ^ w) = wrap w z.
Proof. apply Z_mod_plus_full. Qed.

Lemma sgn_range (w z : Z) : 0 < w -> - 2 ^ (w - 1) <= sgn w z < 2 ^ (w - 1).
Proof.
  intros Hw. unfold sgn. pose proof (wrap_range w z ltac:(lia)) as [H0 H1].
  assert (2 ^ w = 2 * 2 ^ (w - 1)) as E.
  { rewrite <- Z.pow_succ_r by lia. f_equal. lia. }
  pose proof (pow2_pos (w - 1) ltac:(lia)).
  destruct (Z.ltb_spec (wrap w z) (2 ^ (w - 1))); lia.
Qed.

Lemma sgn_wrap (w z : Z) : 0 < w -> wrap w (sgn w z) = wrap w z.
Proof.
  intros Hw. unfold sgn. destruct (_ <? _); [apply wrap_wrap|].
  rewrite <- (wrap_add_pow w (wrap w z - 2 ^ w) 1).
  replace (wrap w z - 2 ^ w + 1 * 2 ^ w) with (wrap w z) by lia. apply wrap_wrap.
Qed.

Create HintDb mach.
Create Rewrite HintDb mach.
#[export] Hint Rewrite wrap_wrap wrap_add_l wrap_add_r wrap_sub_l wrap_sub_r
  wrap_mul_l wrap_mul_r : mach.
#[export] Hint Resolve wrap_range wrap_small pow2_pos : mach.

(** [mach_solve] settles a goal on 64/32-bit values whose results stay in range. *)
Ltac mach_unfold := unfold u64, u32, i64, fits in *.
Ltac mach_solve :=
  mach_unfold; rewrite ?wrap_small by (unfold fits; lia); try lia.

(** * Outcomes

    C++ code either returns, fails an [assert] (the build is a debug build, so
    asserts are active), throws, or waits.  [res] keeps those apart. *)

Inductive res (A : Type) : Type :=
| Ret (a : A)
| AssertFail
| Throw (what : nat).
Arguments Ret {A} a.
Arguments AssertFail {A}.
Arguments Throw {A} what.

#[export] Instance res_ret : MRet res := fun A => @Ret A.
#[export] Instance res_bind : MBind res := fun A B f r =>
  match r with Ret a => f a | AssertFail => AssertFail | Throw e => Throw e end.

Definition assert_ (b : bool) : res unit := if b then Ret tt else AssertFail.
(** Dereferencing a null pointer is not a behaviour of the program: it is
    reported as [AssertFail] too. *)
Definition deref {A} (o : option A) : res A :=
  match o with Some a => Ret a | None => AssertFail end.

Lemma res_bind_ret {A B} (a : A) (f : A -> res B) : (Ret a ≫= f) = f a.
Proof. reflexivity. Qed.

Lemma res_bind_inv {A B} (x : res A) (f : A -> res B) (y : B) :
  (x ≫= f) = Ret y -> exists a, x = Ret a /\ f a = Ret y.
Proof. destruct x; simpl; intros; [eauto|done..]. Qed.

Lemma assert_true (b : bool) : b = true -> assert_ b = Ret tt.
Proof. by intros ->. Qed.

Lemma deref_some {A} (o : option A) (a : A) : o = Some a -> deref o = Ret a.
Proof. by intros ->. Qed.

(** * A state and error monad

    The methods of an object change its state and return a value, or fail. *)
Definition st (S A : Type) : Type := S -> res (S * A).
Definition ret {S A} (a : A) : st S A := fun s => Ret (s, a).
Definition bind {S A B} (m : st S A) (f : A -> st S B) : st S B :=
  fun s => '(s, a) ← m s; f a s.
Definition modify {S} (f : S -> S) : st S unit := fun s => Ret (f s, tt).
Definition gets {S A} (f : S -> A) : st S A := fun s => Ret (s, f s).
Definition failed {S A} : st S A := fun _ => AssertFail.
Notation "'let*' x := m 'in' k" := (bind m (fun x => k)) (at level 200, x name, right associativity).
Notation "m ;;; k" := (bind m (fun _ => k)) (at level 199, right associativity).

Lemma bind_ret {S A B} (m : st S A) (f : A -> st S B) s s' a :
  m s = Ret (s', a) -> bind m f s = f a s'.
Proof. unfold bind. by intros ->. Qed.

Lemma bind_inv_st {S A B} (m : st S A) (f : A -> st S B) s r :
  bind m f s = Ret r -> exists s' a, m s = Ret (s', a) /\ f a s' = Ret r.
Proof. unfold bind. destruct (m s) as [[s' a]| |]; simpl; [eauto|done..]. Qed.

Lemma bind_assoc {S A B C} (m : st S A) (f : A -> st S B) (g : B -> st S C) s :
  bind m (fun a => bind (f a) g) s = bind (bind m f) g s.
Proof. unfold bind. by destruct (m s) as [[]| |]. Qed.

(** Run [f] on every element in turn. *)
Fixpoint for_each {S A} (f : A -> st S unit) (l : list A) : st S unit :=
  match l with [] => ret tt | x :: l => f x ;;; for_each f l end.

(** * Step relations *)

Section reach.
Context {S : Type} (step : S -> S -> Prop) (init : S -> Prop).

Definition reachable (s : S) : Prop := exists s0, init s0 /\ rtc step s0 s.

(** The invariant rule: what holds initially and is kept by each step holds
    of every reachable state. *)
Lemma reachable_inv (I : S -> Prop) :
  (forall s, init s -> I s) ->
  (forall s s', I s -> step s s' -> I s') ->
  forall s, reachable s -> I s.
Proof.
  intros Hi Hs s (s0 & H0 & Hr). apply Hi in H0. clear Hi.
  induction Hr as [|x y z Hxy Hyz IH]; eauto.
Qed.
End reach.

(** Finite state machines.  [explore] collects the states reachable through [succs]; a
    list of states closed under [succs] contains every reachable one, so a decidable
    property of all of them is checked by evaluation. *)
Section explore.
Context {S : Type} `{EqDecision S} (succs : S -> list S).

Fixpoint explore (fuel : nat) (seen todo : list S) : list S :=
  match fuel, todo with
  | Datatypes.S fuel, x :: todo =>
      if decide (x ∈ seen) then explore fuel seen todo
      else explore fuel (x :: seen) (succs x ++ todo)
  | _, _ => seen
  end.

Definition closed_under (seen : list S) : bool :=
  forallb (fun x => forallb (fun y => bool_decide (y ∈ seen)) (succs x)) seen.

Lemma explored (init seen : list S) (P : S -> bool) :
  forallb (fun x => bool_decide (x ∈ seen)) init = true ->
  closed_under seen = true -> forallb P seen = true ->
  forall s, reachable (fun x y => y ∈ succs x) (fun x => x ∈ init) s -> P s = true.
Proof.
  intros Hi Hc HP s Hs. rewrite forallb_forall in Hi, HP. unfold closed_under in Hc.
  rewrite forallb_forall in Hc. apply HP, list_elem_of_In. revert s Hs. apply reachable_inv.
  - intros x Hx%list_elem_of_In%Hi. by apply bool_decide_eq_true in Hx.
  - intros x y Hx%list_elem_of_In%Hc Hy. rewrite forallb_forall in Hx.
    apply list_elem_of_In, Hx in Hy. by apply bool_decide_eq_true in Hy.
Qed.

(** Everything [explore] finds can be reached. *)
Lemma explore_sound (x : S) fuel seen todo :
  (forall y, y ∈ seen ++ todo -> rtc (fun x y => y ∈ succs x) x y) ->
  forall y, y ∈ explore fuel seen todo -> rtc (fun x y => y ∈ succs x) x y.
Proof.
  revert seen todo. induction fuel as [|fuel IH]; intros seen todo Hr y Hy; simpl in Hy.
  { apply Hr. set_solver. }
  destruct todo as [|z todo]; [apply Hr; set_solver|]. destruct (decide (z ∈ seen)).
  - apply (IH seen todo); [|done]. intros ? ?. apply Hr. set_solver.
  - apply (IH (z :: seen) (succs z ++ todo)); [|done]. intros w Hw.
    assert (w ∈ succs z \/ w ∈ seen ++ z :: todo) as [Hs|Hs] by set_solver; [|by apply Hr].
    eapply rtc_r; [|exact Hs]. apply Hr. set_solver.
Qed.
End explore.

(** * Lists *)

Definition last_opt {A} (l : list A) : option A := last l.

Lemma snoc_split {A} (l : list A) : l <> [] -> exists l' x, l = l' ++ [x].
Proof.
  intros. destruct (exists_last H) as (l' & x & ->). eauto.
Qed.

Lemma list_split_at {A} (l : list A) (n : nat) :
  (n <= length l)%nat -> exists l1 l2, l = l1 ++ l2 /\ length l1 = n.
Proof.
  intros. exists (take n l), (drop n l). rewrite take_drop, length_take. split; [done|lia].
Qed.

(** Counting the elements of a list that satisfy a boolean predicate, and how an update
    of one element changes the count. *)
Definition count {A} (f : A -> bool) (l : list A) : nat := length (List.filter f l).

Lemma count_nil {A} (f : A -> bool) : count f [] = 0%nat.
Proof. done. Qed.
Lemma count_cons {A} (f : A -> bool) (x : A) l : count f (x :: l) = ((if f x then 1 else 0) + count f l)%nat.
Proof. unfold count. simpl. by destruct (f x). Qed.
Lemma count_app {A} (f : A -> bool) l1 l2 : count f (l1 ++ l2) = (count f l1 + count f l2)%nat.
Proof. unfold count. by rewrite List.filter_app, length_app. Qed.
Lemma count_le_length {A} (f : A -> bool) l : (count f l <= length l)%nat.
Proof. induction l; [done|]. rewrite count_cons. simpl. destruct (f a); lia. Qed.

Lemma count_insert {A} (f : A -> bool) l i x y :
  l !! i = Some x ->
  (count f (<[i:=y]> l) + (if f x then 1 else 0) = count f l + (if f y then 1 else 0))%nat.
Proof.
  revert i. induction l as [|z l IH]; intros [|i] Hi; simplify_eq/=; rewrite !count_cons; [lia|].
  specialize (IH _ Hi). lia.
Qed.

Lemma count_pos {A} (f : A -> bool) l : (0 < count f l)%nat <-> exists i x, l !! i = Some x /\ f x = true.
Proof.
  induction l as [|z l IH]; [split; [rewrite count_nil; lia|intros (i & x & ? & _); done]|].
  rewrite count_cons. destruct (f z) eqn:E; (split; [|]).
  - intros _. by exists 0%nat, z.
  - lia.
  - intros (i & x & ? & ?)%IH. by exists (S i), x.
  - intros ([|i] & x & ? & ?); simplify_eq/=; [congruence|]. apply IH. eauto.
Qed.

Lemma count_replicate {A} (f : A -> bool) n x : count f (replicate n x) = if f x then n else 0%nat.
Proof. induction n; simpl; [by destruct (f x)|]. rewrite count_cons, IHn. by destruct (f x). Qed.

Lemma count_map {A B} (f : B -> bool) (g : A -> B) l : count f (map g l) = count (fun x => f (g x)) l.
Proof. induction l; [done|]. simpl. by rewrite !count_cons, IHl. Qed.

Lemma count_ext {A} (f g : A -> bool) l : (forall x, x ∈ l -> f x = g x) -> count f l = count g l.
Proof.
  induction l; intros H; [done|]. rewrite !count_cons, H by set_solver. f_equal. apply IHl.
  intros. apply H. set_solver.
Qed.

(** Sums over a list, and how an update of one element changes the sum. *)
Definition sumZ {A} (f : A -> Z) (l : list A) : Z := foldr (fun x n => f x + n) 0 l.

Lemma sumZ_insert {A} (f : A -> Z) l i x y :
  l !! i = Some x -> sumZ f (<[i:=y]> l) = sumZ f l - f x + f y.
Proof.
  revert i. induction l as [|z l IH]; intros [|i] Hi; simplify_eq/=; [unfold sumZ; simpl; lia|].
  specialize (IH _ Hi). unfold sumZ in *. simpl. lia.
Qed.

Lemma sumZ_lower {A} (f : A -> Z) l i x :
  (forall y, 0 <= f y) -> l !! i = Some x -> f x <= sumZ f l.
Proof.
  intros Hf. revert i. induction l as [|z l IH]; intros [|i] Hi; simplify_eq/=; unfold sumZ in *; simpl.
  - assert (0 <= foldr (fun x n => f x + n) 0 l); [|lia]. clear IH. induction l as [|w l IH]; simpl; [lia|]. pose proof (Hf w). lia.
  - pose proof (Hf z). specialize (IH _ Hi). lia.
Qed.

Lemma sumZ_nonneg {A} (f : A -> Z) l : (forall y, 0 <= f y) -> 0 <= sumZ f l.
Proof. intros Hf. induction l as [|z l IH]; unfold sumZ in *; simpl; [lia|]. pose proof (Hf z). lia. Qed.

Lemma sumZ_zero {A} (f : A -> Z) l : (forall x, x ∈ l -> f x = 0) -> sumZ f l = 0.
Proof. unfold sumZ. induction l as [|z l IH]; intros H; simpl; [done|]. rewrite H, IH; [done|set_solver|set_solver]. Qed.

(** * Tactics of the development *)

(** Destruct the scrutinee of the first [if] or [match] on a boolean or option. *)
Ltac case_if :=
  match goal with
  | |- context [if ?b then _ else _] => destruct b eqn:?
  | H : context [if ?b then _ else _] |- _ => destruct b eqn:?
  end.

(** Take apart a hypothesis that a sequence of bindings returned. *)
Ltac bind_inv :=
  repeat match goal with
  | H : (_ ≫= _) = Ret _ |- _ => apply res_bind_inv in H as (? & ? & H)
  | H : Ret _ = Ret _ |- _ => apply (f_equal (fun r => match r with Ret a => Some a | _ => None end)) in H; simplify_eq
  end.

Ltac zb :=
  repeat match goal with
  | H : (_ <? _) = true |- _ => apply Z.ltb_lt in H
  | H : (_ <? _) = false |- _ => apply Z.ltb_ge in H
  | H : (_ <=? _) = true |- _ => apply Z.leb_le in H
  | H : (_ <=? _) = false |- _ => apply Z.leb_gt in H
  | H : (_ =? _) = true |- _ => apply Z.eqb_eq in H
  | H : (_ =? _) = false |- _ => apply Z.eqb_neq in H
  | H : negb _ = true |- _ => apply negb_true_iff in H
  | H : negb _ = false |- _ => apply negb_false_iff in H
  | H : (_ && _)%bool = true |- _ => apply andb_true_iff in H; destruct H
  | H : (_ || _)%bool = false |- _ => apply orb_false_iff in H; destruct H
  end.
