(* ===== verification/IntMath.v ===== *)
(** Integer helpers of [include/util/intmath.h]: alignment, powers of two,
    logarithms, bit slices.  Templates over an integer type [T] take the width
    [w] of [T] in bits; the types are the unsigned ones, as in every call of the
    repository. *)
From S2P Require Import Prelude.
Local Open Scope Z_scope.

(** ** Definitions *)

Definition Min (a b : Z) : Z := if b <? a then b else a.
Definition Max (a b : Z) : Z := if a <? b then b else a.

(** The variadic overloads fold the binary one from the right. *)
Fixpoint MinN (a : Z) (args : list Z) : Z :=
  match args with [] => a | b :: args' => Min a (MinN b args') end.
Fixpoint MaxN (a : Z) (args : list Z) : Z :=
  match args with [] => a | b :: args' => Max a (MaxN b args') end.

Definition isPowerOf2 (w val : Z) : bool := Z.land val (wrap w (val - 1)) =? 0.

(** [value & ~(alignment - 1)] in [size_t] arithmetic, cast back to [T]. *)
Definition alignDown (w value alignment : Z) : res Z :=
  assert_ (isPowerOf2 64 alignment) ≫= fun _ =>
  Ret (wrap w (Z.land value (u64 (Z.lnot (u64 (alignment - 1)))))).

Definition alignUp (w value alignment : Z) : res Z :=
  alignDown w (wrap w (u64 (value + alignment - 1))) alignment.

Definition isMultipleOf (w value alignment : Z) : res bool :=
  a ← alignUp w value alignment; Ret (a =? value).

(** [v |= v >> s] for each [s] of the list. *)
Fixpoint smear (v : Z) (shifts : list Z) : Z :=
  match shifts with
  | [] => v
  | s :: shifts' => smear (Z.lor v (Z.shiftr v s)) shifts'
  end.

Definition NextPow2_32 (value : Z) : Z :=
  if value =? 0 then 1
  else u32 (smear (value - 1) [1; 2; 4; 8; 16] + 1).

Definition NextPow2_64 (value : Z) : Z :=
  if value =? 0 then 1
  else u64 (smear (value - 1) [1; 2; 4; 8; 16; 32] + 1).

(** [BitSelect<lowBit, highBit>(p)] on 64-bit pointers. *)
Definition BitSelect (lowBit highBit p : Z) : Z :=
  if negb (highBit =? 63)
  then u32 (Z.shiftr (Z.land p (u64 (Z.shiftl 1 (highBit + 1) - 1))) lowBit)
  else u32 (Z.shiftr p lowBit).

Definition PtrLow16Shift8 (ptr : Z) : Z := u32 (Z.shiftr (Z.land ptr 0xFFFF) 8).
Definition PtrHigh64Shift16 (ptr : Z) : Z := u32 (Z.shiftr (Z.land ptr 0xFFFFFFFFFFFF0000) 16).
Definition PtrLow40Shift8 (ptr : Z) : Z := u32 (Z.shiftr (Z.land ptr 0xFFFFFFFFFF) 8).
Definition PtrHigh64Shift40 (ptr : Z) : Z := u32 (Z.shiftr (Z.land ptr 0xFFFFFF0000000000) 40).
Definition PtrLow32 (ptr : Z) : Z := u32 ptr.
(** [HSA_LARGE_MODEL] selects the 64-bit machine model. *)
Definition PtrHigh32 (large_model : bool) (ptr : Z) : Z :=
  if large_model then u32 (Z.shiftr ptr 32) else 0.

(** The square-and-multiply loop of [power]; [e] has at most [fuel] bits. *)
Fixpoint power_loop (fuel : nat) (result component e : Z) : Z :=
  match fuel with
  | O => result
  | S fuel =>
      if e =? 0 then result
      else
        let result := if Z.testbit e 0 then u64 (result * component) else result in
        power_loop fuel result (u64 (component * component)) (Z.shiftr e 1)
  end.
(** [e] is a [uint32_t]: 32 iterations always exhaust it. *)
Definition power (n e : Z) : Z := power_loop 32 1 n e.

(** One line of [floorLog2]: if a bit of [mask] is set, count [s] and shift. *)
Definition log2_step (mask s : Z) (st : Z * Z) : Z * Z :=
  let '(y, ux) := st in
  if negb (Z.land ux mask =? 0) then (y + s, Z.shiftr ux s) else (y, ux).

(** [ts] is [sizeof(T)] in bytes. *)
Definition floorLog2 (ts x : Z) : res Z :=
  assert_ (0 <? x) ≫= fun _ =>
  let st := (0, x) in
  let st := if 8 <=? ts then log2_step 0xffffffff00000000 32 st else st in
  let st := if 4 <=? ts then log2_step 0x00000000ffff0000 16 st else st in
  let st := if 2 <=? ts then log2_step 0x000000000000ff00 8 st else st in
  let st := log2_step 0xf0 4 st in
  let st := log2_step 0xc 2 st in
  let '(y, ux) := st in
  Ret (if negb (Z.land ux 2 =? 0) then y + 1 else y).

Definition ceilLog2 (ts n : Z) : res Z :=
  assert_ (0 <? n) ≫= fun _ =>
  if n =? 1 then Ret 0 else y ← floorLog2 ts (n - 1); Ret (y + 1).

Definition divCeil (w a b : Z) : Z := wrap w (wrap w (a + b - 1) `div` b).

Definition roundUp (w val align : Z) : res Z :=
  assert_ (isPowerOf2 w align) ≫= fun _ =>
  let mask := wrap w (align - 1) in
  Ret (Z.land (wrap w (val + mask)) (wrap w (Z.lnot mask))).

Definition roundDown (w val align : Z) : res Z :=
  assert_ (isPowerOf2 w align) ≫= fun _ =>
  let mask := wrap w (align - 1) in
  Ret (Z.land val (wrap w (Z.lnot mask))).

(** ** Lemmas *)

Lemma Min_spec a b : Min a b = Z.min a b.
Proof. unfold Min. destruct (Z.ltb_spec b a); lia. Qed.
Lemma Max_spec a b : Max a b = Z.max a b.
Proof. unfold Max. destruct (Z.ltb_spec a b); lia. Qed.

Lemma isPowerOf2_iff w v :
  0 <= w -> 0 < v < 2 ^ w -> isPowerOf2 w v = true <-> v = 2 ^ Z.log2 v.
Proof.
  intros Hw Hv. unfold isPowerOf2. rewrite wrap_small by (unfold fits; lia).
  rewrite Z.eqb_eq. pose proof (Z.log2_spec v ltac:(lia)) as [Hlo Hhi].
  split; intros H.
  - destruct (Z.eq_dec v (2 ^ Z.log2 v)) as [|Hne]; [done|exfalso].
    assert (Z.log2 (v - 1) = Z.log2 v) as Hl.
    { apply Z.log2_unique; [apply Z.log2_nonneg|lia]. }
    apply (f_equal (fun z => Z.testbit z (Z.log2 v))) in H.
    rewrite Z.land_spec, Z.bits_0 in H.
    rewrite Z.bit_log2 in H by lia. rewrite <- Hl in H.
    rewrite Z.bit_log2 in H; [done|].
    assert (1 <= 2 ^ Z.log2 v) by (apply Z.pow_le_mono_r with (b := 0); [lia|apply Z.log2_nonneg]).
    lia.
  - rewrite H at 1 2.
    replace (2 ^ Z.log2 v - 1) with (Z.ones (Z.log2 v)) by (rewrite Z.ones_equiv; lia).
    rewrite Z.land_ones by apply Z.log2_nonneg. apply Z_mod_same_full.
Qed.

Lemma isPowerOf2_pow w k : 0 <= k < w -> isPowerOf2 w (2 ^ k) = true.
Proof.
  intros. apply isPowerOf2_iff; [lia| |].
  - split; [apply pow2_pos; lia|apply Z.pow_lt_mono_r; lia].
  - by rewrite Z.log2_pow2 by lia.
Qed.

(** Masking with the complement of a low mask rounds down. *)
Lemma land_lnot_mask w v k :
  0 <= k -> 0 <= w -> fits w v ->
  Z.land v (wrap w (Z.lnot (2 ^ k - 1))) = v / 2 ^ k * 2 ^ k.
Proof.
  intros Hk Hw Hv.
  replace (2 ^ k - 1) with (Z.ones k) by (rewrite Z.ones_equiv; lia).
  rewrite <- Z.shiftl_mul_pow2, <- Z.shiftr_div_pow2, <- Z.ldiff_ones_r by lia.
  apply Z.bits_inj'. intros i Hi.
  rewrite Z.land_spec, Z.ldiff_spec. unfold wrap. rewrite Z.testbit_mod_pow2 by lia.
  rewrite Z.lnot_spec by lia.
  destruct (Z.ltb_spec i w); [by rewrite andb_true_l|].
  destruct (Z.eq_dec v 0) as [->|]; [by rewrite Z.bits_0|].
  rewrite (Z.bits_above_log2 v); [done|destruct Hv; lia|].
  assert (Z.log2 v < w) by (apply Z.log2_lt_pow2; destruct Hv; lia). lia.
Qed.

Lemma round_down_bounds v k :
  0 <= k -> 0 <= v -> 0 <= v / 2 ^ k * 2 ^ k <= v /\ v < v / 2 ^ k * 2 ^ k + 2 ^ k.
Proof.
  intros. pose proof (pow2_pos k ltac:(lia)).
  pose proof (Z.div_mod v (2 ^ k) ltac:(lia)). pose proof (Z.mod_pos_bound v (2 ^ k) ltac:(lia)).
  pose proof (Z.div_pos v (2 ^ k)). nia.
Qed.

Lemma fits_mono w w' v : 0 <= w <= w' -> fits w v -> fits w' v.
Proof.
  intros ? [? ?]. split; [done|]. pose proof (Z.pow_le_mono_r 2 w w'). lia.
Qed.

Lemma alignDown_pow2 w v k :
  0 <= k < 64 -> 0 <= w <= 64 -> fits w v ->
  alignDown w v (2 ^ k) = Ret (v / 2 ^ k * 2 ^ k).
Proof.
  intros Hk Hw Hv. unfold alignDown.
  rewrite isPowerOf2_pow by lia. simpl. f_equal.
  assert (fits 64 (2 ^ k - 1)) as Hf.
  { split; [pose proof (pow2_pos k); lia|]. pose proof (Z.pow_lt_mono_r 2 k 64). lia. }
  unfold u64. rewrite (wrap_small 64 (2 ^ k - 1)) by done.
  rewrite land_lnot_mask by (try lia; eapply fits_mono; eauto; lia).
  apply wrap_small. pose proof (round_down_bounds v k). destruct Hv. split; lia.
Qed.

Lemma roundUp_char v k :
  0 <= k -> 0 <= v ->
  let r := (v + 2 ^ k - 1) / 2 ^ k * 2 ^ k in
  (2 ^ k | r) /\ v <= r < v + 2 ^ k.
Proof.
  intros Hk Hv r. split; [apply Z.divide_factor_r|].
  pose proof (pow2_pos k Hk).
  pose proof (round_down_bounds (v + 2 ^ k - 1) k Hk ltac:(lia)). subst r. lia.
Qed.

(** *** Filling the bits below the leading one *)

Definition filled (n v0 v : Z) : Prop :=
  forall i, 0 <= i -> Z.testbit v i = true <-> exists j, 0 <= j < n /\ Z.testbit v0 (i + j) = true.

Lemma filled_start v : filled 1 v v.
Proof.
  intros i Hi. split.
  - intros H. exists 0. by rewrite Z.add_0_r.
  - intros (j & Hj & H). replace j with 0 in H by lia. by rewrite Z.add_0_r in H.
Qed.

Lemma filled_step n s v0 v :
  0 < s <= n -> filled n v0 v -> filled (n + s) v0 (Z.lor v (Z.shiftr v s)).
Proof.
  intros Hs Hf i Hi. rewrite Z.lor_spec, orb_true_iff, Z.shiftr_spec by lia.
  rewrite (Hf i), (Hf (i + s)) by lia. split.
  - intros [(j & Hj & H)|(j & Hj & H)]; [exists j|exists (s + j)]; (split; [lia|]); [done|].
    by rewrite Z.add_assoc.
  - intros (j & Hj & H). destruct (Z_lt_ge_dec j n); [left; exists j; auto with lia|].
    right. exists (j - s). split; [lia|]. by replace (i + s + (j - s)) with (i + j) by lia.
Qed.

Lemma filled_ones n v0 v :
  0 < v0 -> Z.log2 v0 < n -> 0 <= v -> filled n v0 v -> v = 2 ^ (Z.log2 v0 + 1) - 1.
Proof.
  intros H0 Hn Hv Hf. pose proof (Z.log2_nonneg v0).
  replace (2 ^ (Z.log2 v0 + 1) - 1) with (Z.ones (Z.log2 v0 + 1)) by (rewrite Z.ones_equiv; lia).
  apply Z.bits_inj'. intros i Hi. rewrite Z.testbit_ones_nonneg by lia.
  apply eq_true_iff_eq. rewrite (Hf i Hi), Z.ltb_lt. split.
  - intros (j & Hj & H'). destruct (Z_lt_ge_dec i (Z.log2 v0 + 1)); [done|].
    rewrite Z.bits_above_log2 in H' by lia. done.
  - intros. exists (Z.log2 v0 - i). split; [lia|].
    replace (i + (Z.log2 v0 - i)) with (Z.log2 v0) by lia. by apply Z.bit_log2.
Qed.

(** Every shift list whose entries double the window fills it. *)
Lemma smear_filled shifts : forall n v0 v,
  0 < n -> filled n v0 v -> 0 <= v ->
  Forall (fun s => 0 < s) shifts ->
  (forall i s, shifts !! i = Some s -> s <= n + foldr Z.add 0 (take i shifts)) ->
  filled (n + foldr Z.add 0 shifts) v0 (smear v shifts) /\ 0 <= smear v shifts.
Proof.
  induction shifts as [|s shifts IH]; intros n v0 v Hn Hf Hv Hpos Hle; simpl.
  { by rewrite Z.add_0_r. }
  inversion Hpos; subst. pose proof (Hle 0%nat s eq_refl) as Hs. simpl in Hs.
  rewrite Z.add_assoc. apply IH; [lia| |..].
  - apply filled_step; [lia|done].
  - apply Z.lor_nonneg. split; [done|]. by apply Z.shiftr_nonneg.
  - done.
  - intros i s' Hi. specialize (Hle (S i) s' Hi). simpl in Hle. lia.
Qed.

Lemma smear_pow2_minus1 v shifts w :
  0 < v < 2 ^ w -> Forall (fun s => 0 < s) shifts ->
  (forall i s, shifts !! i = Some s -> s <= 1 + foldr Z.add 0 (take i shifts)) ->
  w <= 1 + foldr Z.add 0 shifts ->
  smear v shifts + 1 = 2 ^ (Z.log2 v + 1).
Proof.
  intros Hv Hpos Hle Hw.
  destruct (smear_filled shifts 1 v v) as [Hf Hn]; [lia|apply filled_start|lia|done|done|].
  assert (0 <= w). { destruct (Z_lt_ge_dec w 0); [|lia]. rewrite Z.pow_neg_r in Hv by lia. lia. }
  assert (Z.log2 v < w) by (apply Z.log2_lt_pow2; lia).
  rewrite (filled_ones (1 + foldr Z.add 0 shifts) v (smear v shifts)) by (done || lia). lia.
Qed.

Ltac shift_list :=
  first
    [ repeat (apply Forall_cons; split; [lia|]); by apply Forall_nil
    | intros [|[|[|[|[|[|i]]]]]] s Hs; simpl in Hs; simplify_eq; simpl; lia ].

Lemma log2_up_pred v : 1 < v -> Z.log2_up v = Z.log2 (v - 1) + 1.
Proof. intros. rewrite Z.log2_up_eqn, <- Z.sub_1_r by lia. lia. Qed.

Lemma NextPow2_64_spec v :
  fits 64 v ->
  NextPow2_64 v = if v <=? 2 ^ 63 then 2 ^ Z.log2_up v else 0.
Proof.
  intros [H0 H1]. unfold NextPow2_64.
  destruct (Z.eqb_spec v 0) as [->|]; [done|].
  destruct (Z.eq_dec v 1) as [->|]; [done|].
  rewrite (smear_pow2_minus1 (v - 1) _ 64); [|lia|shift_list|shift_list|simpl; lia].
  rewrite <- log2_up_pred by lia.
  destruct (Z.leb_spec v (2 ^ 63)).
  - apply wrap_small. split; [apply Z.pow_nonneg; lia|].
    apply Z.pow_lt_mono_r; [lia|lia|].
    apply Z.le_lt_trans with 63; [|lia]. by apply Z.log2_up_le_pow2; lia.
  - replace (Z.log2_up v) with 64; [done|]. symmetry.
    apply Z.log2_up_unique; lia.
Qed.

Lemma NextPow2_32_spec v :
  fits 32 v ->
  NextPow2_32 v = if v <=? 2 ^ 31 then 2 ^ Z.log2_up v else 0.
Proof.
  intros [H0 H1]. unfold NextPow2_32.
  destruct (Z.eqb_spec v 0) as [->|]; [done|].
  destruct (Z.eq_dec v 1) as [->|]; [done|].
  rewrite (smear_pow2_minus1 (v - 1) _ 32); [|lia|shift_list|shift_list|simpl; lia].
  rewrite <- log2_up_pred by lia.
  destruct (Z.leb_spec v (2 ^ 31)).
  - apply wrap_small. split; [apply Z.pow_nonneg; lia|].
    apply Z.pow_lt_mono_r; [lia|lia|].
    apply Z.le_lt_trans with 31; [|lia]. by apply Z.log2_up_le_pow2; lia.
  - replace (Z.log2_up v) with 32; [done|]. symmetry.
    apply Z.log2_up_unique; lia.
Qed.

(** *** Binary search of the leading one *)

Lemma log2_step_spec mask s y ux :
  0 < s -> mask = Z.shiftl (Z.ones s) s -> 0 < ux < 2 ^ (2 * s) ->
  let '(y', ux') := log2_step mask s (y, ux) in
  0 < ux' < 2 ^ s /\ y' + Z.log2 ux' = y + Z.log2 ux.
Proof.
  intros Hs -> Hux. unfold log2_step. pose proof (pow2_pos s ltac:(lia)).
  assert (2 ^ (2 * s) = 2 ^ s * 2 ^ s) as E by (rewrite <- Z.pow_add_r by lia; f_equal; lia).
  assert (Z.land ux (Z.shiftl (Z.ones s) s) = ux / 2 ^ s * 2 ^ s) as ->.
  { rewrite <- Z.shiftl_mul_pow2, <- Z.shiftr_div_pow2 by lia.
    apply Z.bits_inj'. intros i Hi. rewrite Z.land_spec.
    destruct (Z_lt_ge_dec i s).
    { by rewrite !(Z.shiftl_spec_low _ _ i), andb_false_r by lia. }
    rewrite !Z.shiftl_spec, Z.shiftr_spec by lia.
    rewrite Z.testbit_ones_nonneg by lia. replace (i - s + s) with i by lia.
    destruct (Z.ltb_spec (i - s) s); [by rewrite andb_true_r|].
    rewrite Z.bits_above_log2; [done|lia|].
    apply Z.lt_le_trans with (2 * s); [|lia]. apply Z.log2_lt_pow2; lia. }
  pose proof (round_down_bounds ux s ltac:(lia) ltac:(lia)).
  rewrite Z.shiftr_div_pow2 by lia.
  destruct (Z.eqb_spec (ux / 2 ^ s * 2 ^ s) 0) as [Hz|Hz]; simpl; [split; [lia|done]|].
  assert (0 < ux / 2 ^ s) by (pose proof (Z.div_pos ux (2 ^ s)); nia).
  split; [split; [done|]; apply Z.div_lt_upper_bound; lia|].
  rewrite <- (Z.shiftr_div_pow2 ux) by lia. rewrite Z.log2_shiftr by lia.
  assert (s <= Z.log2 ux) by (apply Z.log2_le_pow2; nia). lia.
Qed.

(** Run one line of [floorLog2] on the state in the goal, whose second component
    is bounded by [H]. *)
Ltac log2_phase s H :=
  match goal with
  | |- context [log2_step ?m s (?y, ?u)] =>
      let E := fresh "E" in let y' := fresh "y" in let u' := fresh "u" in
      let H' := fresh "H" in
      pose proof (log2_step_spec m s y u ltac:(lia) eq_refl ltac:(simpl; lia)) as E;
      destruct (log2_step m s (y, u)) as [y' u']; destruct E as [H' E];
      simpl in H'; clear H; rename H' into H
  end.

Lemma floorLog2_last y ux :
  0 < ux < 4 -> (if negb (Z.land ux 2 =? 0) then y + 1 else y) = y + Z.log2 ux.
Proof.
  intros. assert (ux = 1 \/ ux = 2 \/ ux = 3) as [-> | [-> | ->]] by lia; simpl; lia.
Qed.

Lemma floorLog2_value ts x :
  ts = 1 \/ ts = 2 \/ ts = 4 \/ ts = 8 -> 0 < x < 2 ^ (8 * ts) ->
  floorLog2 ts x = Ret (Z.log2 x).
Proof.
  intros Hts Hx. unfold floorLog2.
  rewrite (proj2 (Z.ltb_lt 0 x)) by lia. simpl assert_. rewrite res_bind_ret.
  assert (0 < x < 2 ^ (8 * ts)) as H by done.
  destruct Hts as [-> | [-> | [-> | ->]]]; cbv zeta;
    cbn [Z.leb Z.compare Pos.compare Pos.compare_cont]; simpl in H;
    [| log2_phase 8 H | log2_phase 16 H; log2_phase 8 H
     | log2_phase 32 H; log2_phase 16 H; log2_phase 8 H];
    log2_phase 4 H; log2_phase 2 H; rewrite floorLog2_last by lia; f_equal; lia.
Qed.

(** C22: [floorLog2] computes the position of the leading one for every unsigned
    type of 1, 2, 4 or 8 bytes and every positive value of that type. *)
Theorem floorLog2_correct ts x :
  ts = 1 \/ ts = 2 \/ ts = 4 \/ ts = 8 -> 0 < x < 2 ^ (8 * ts) ->
  floorLog2 ts x = Ret (Z.log2 x).
Proof. apply floorLog2_value. Qed.

Lemma floorLog2_correct_witness :
  (4 = 1 \/ 4 = 2 \/ 4 = 4 \/ 4 = 8) /\ floorLog2 4 1000 = Ret (Z.log2 1000).
Proof. split; [lia|]. apply (floorLog2_correct 4 1000); [lia|]. vm_compute. split; reflexivity. Defined.


Lemma ceilLog2_correct ts x :
  ts = 1 \/ ts = 2 \/ ts = 4 \/ ts = 8 -> 0 < x < 2 ^ (8 * ts) ->
  ceilLog2 ts x = Ret (Z.log2_up x).
Proof.
  intros Hts Hx. unfold ceilLog2. rewrite (proj2 (Z.ltb_lt 0 x)) by lia. simpl assert_.
  rewrite res_bind_ret. destruct (Z.eqb_spec x 1) as [->|]; [done|].
  rewrite floorLog2_value by (done || lia).
  rewrite res_bind_ret, <- log2_up_pred by lia. done.
Qed.

Lemma Zmod_odd_true e : Z.odd e = true -> e mod 2 = 1.
Proof. intros H. by rewrite Zmod_odd, H. Qed.
Lemma Zmod_odd_false e : Z.odd e = false -> e mod 2 = 0.
Proof. intros H. by rewrite Zmod_odd, H. Qed.

(** *** Power *)

Lemma power_loop_spec fuel : forall r c e,
  fits 64 r -> 0 <= e < 2 ^ Z.of_nat fuel ->
  power_loop fuel r c e = u64 (r * c ^ e).
Proof.
  induction fuel as [|fuel IH]; intros r c e Hr He; cbn [power_loop].
  { replace e with 0 by (simpl in He; lia). rewrite Z.pow_0_r, Z.mul_1_r. symmetry. by apply wrap_small. }
  destruct (Z.eqb_spec e 0) as [->|].
  { rewrite Z.pow_0_r, Z.mul_1_r. symmetry. by apply wrap_small. }
  rewrite Nat2Z.inj_succ, Z.pow_succ_r in He by lia.
  rewrite Z.shiftr_div_pow2, Z.pow_1_r by lia.
  assert (0 <= e / 2 < 2 ^ Z.of_nat fuel) as He' by (split; [apply Z.div_pos|apply Z.div_lt_upper_bound]; lia).
  assert (forall a, u64 (a * u64 (c * c) ^ (e / 2)) = u64 (a * (c ^ 2) ^ (e / 2))) as Hp.
  { intros a. unfold u64, wrap. rewrite <- Zmult_mod_idemp_r, Z.mod_pow_l, Zmult_mod_idemp_r.
    by rewrite Z.pow_2_r. }
  pose proof (Z.div_mod e 2 ltac:(lia)).
  pose proof (Z.mod_pos_bound e 2 ltac:(lia)).
  rewrite Z.bit0_odd. destruct (Z.odd e) eqn:Ho.
  - apply Zmod_odd_true in Ho. rewrite IH by (try apply wrap_range; lia).
    rewrite Hp. unfold u64. rewrite wrap_mul_l. f_equal.
    rewrite <- Z.pow_mul_r by lia. rewrite <- Z.mul_assoc, <- Z.pow_succ_r by lia.
    do 2 f_equal. lia.
  - apply Zmod_odd_false in Ho. rewrite IH, Hp by done. f_equal.
    rewrite <- Z.pow_mul_r by lia. do 2 f_equal. lia.
Qed.

(** [power(n, e)] is [n]{^e} modulo 2{^64} for every 32-bit exponent: the loop
    ends within 32 rounds and every intermediate product wraps consistently. *)
Theorem power_correct n e :
  fits 32 e -> power n e = u64 (n ^ e).
Proof.
  intros He. unfold power. rewrite power_loop_spec.
  - by rewrite Z.mul_1_l.
  - split; [lia|done].
  - exact He.
Qed.

Lemma power_correct_witness : fits 32 41 /\ power 3 41 = u64 (3 ^ 41).
Proof. split; [split; [discriminate|reflexivity]|]. apply (power_correct 3 41). split; [discriminate|reflexivity]. Defined.

(** *** Slices of addresses *)

Lemma BitSelect_spec low high p :
  0 <= low <= high -> high < 64 -> fits 64 p ->
  BitSelect low high p = u32 ((p / 2 ^ low) mod 2 ^ (high + 1 - low)).
Proof.
  intros Hl Hh Hp. unfold BitSelect.
  destruct (Z.eqb_spec high 63) as [->|]; simpl negb; cbv iota.
  - rewrite Z.shiftr_div_pow2 by lia. f_equal. symmetry. apply Z.mod_small.
    destruct Hp. split; [apply Z.div_pos; [lia|apply pow2_pos; lia]|].
    apply Z.div_lt_upper_bound; [apply pow2_pos; lia|].
    rewrite <- Z.pow_add_r by lia. replace (low + (63 + 1 - low)) with 64 by lia. done.
  - f_equal. rewrite Z.shiftl_1_l. unfold u64. rewrite wrap_small.
    2: { pose proof (pow2_pos (high + 1)). pose proof (Z.pow_lt_mono_r 2 (high + 1) 64).
         unfold fits. lia. }
    replace (2 ^ (high + 1) - 1) with (Z.ones (high + 1)) by (rewrite Z.ones_equiv; lia).
    rewrite Z.land_ones, Z.shiftr_div_pow2 by lia.
    replace (high + 1) with (low + (high + 1 - low)) at 1 by lia.
    rewrite Z.pow_add_r by lia. pose proof (pow2_pos low). pose proof (pow2_pos (high + 1 - low)).
    rewrite Z.rem_mul_r by lia. rewrite Z.mul_comm, Z.div_add by lia.
    rewrite Z.div_small by (apply Z.mod_pos_bound; lia). done.
Qed.

(** *** Alignment *)

(** [alignUp(value, alignment)] is the least multiple of a power-of-two
    alignment that is not below [value], whenever that multiple is representable
    without wrapping; no assertion fails. *)
Theorem alignUp_least w v k :
  0 <= k < 64 -> 0 <= w <= 64 -> fits w v -> v + 2 ^ k - 1 < 2 ^ w ->
  exists r, alignUp w v (2 ^ k) = Ret r /\ (2 ^ k | r) /\ v <= r < v + 2 ^ k /\
    (forall m, (2 ^ k | m) -> v <= m -> r <= m).
Proof.
  intros Hk Hw Hv Hs. pose proof (pow2_pos k ltac:(lia)).
  exists ((v + 2 ^ k - 1) / 2 ^ k * 2 ^ k). unfold alignUp.
  assert (fits w (v + 2 ^ k - 1)) by (destruct Hv; split; lia).
  unfold u64. rewrite (wrap_small 64) by (eapply fits_mono; [|done]; lia).
  rewrite wrap_small, alignDown_pow2 by done. split; [done|].
  destruct (roundUp_char v k ltac:(lia) (proj1 Hv)) as [Hd Hb]. split; [done|]. split; [done|].
  intros m [q ->] Hm. apply Z.mul_le_mono_nonneg_r; [lia|].
  apply Z.lt_succ_r, Z.div_lt_upper_bound; lia.
Qed.

Lemma alignUp_least_witness :
  (0 <= 12 < 64) /\ exists r, alignUp 64 5000 (2 ^ 12) = Ret r /\ (2 ^ 12 | r) /\
    5000 <= r < 5000 + 2 ^ 12 /\ (forall m, (2 ^ 12 | m) -> 5000 <= m -> r <= m).
Proof.
  split; [lia|]. apply (alignUp_least 64 5000 12); [lia|lia| |reflexivity].
  split; [discriminate|reflexivity].
Defined.

Lemma roundDown_spec w v k :
  0 <= k < w -> fits w v -> roundDown w v (2 ^ k) = Ret (v / 2 ^ k * 2 ^ k).
Proof.
  intros Hk Hv. unfold roundDown. rewrite isPowerOf2_pow by lia. simpl. f_equal.
  rewrite (wrap_small w (2 ^ k - 1)).
  - apply land_lnot_mask; [lia|lia|done].
  - pose proof (pow2_pos k). pose proof (Z.pow_lt_mono_r 2 k w). split; lia.
Qed.

Lemma roundUp_spec w v k :
  0 <= k < w -> fits w v -> v + 2 ^ k - 1 < 2 ^ w ->
  roundUp w v (2 ^ k) = Ret ((v + 2 ^ k - 1) / 2 ^ k * 2 ^ k).
Proof.
  intros Hk Hv Hs. unfold roundUp. rewrite isPowerOf2_pow by lia. simpl. f_equal.
  pose proof (pow2_pos k). pose proof (Z.pow_lt_mono_r 2 k w).
  rewrite (wrap_small w (2 ^ k - 1)) by (split; lia).
  rewrite Z.add_sub_assoc. rewrite (wrap_small w (v + 2 ^ k - 1)) by (destruct Hv; split; lia).
  apply land_lnot_mask; [lia|lia|]. destruct Hv; split; lia.
Qed.

(** [NextPow2] (64-bit overload) returns the least power of two not below its
    argument up to 2{^63}, and 0 beyond: there the final increment wraps. *)
Theorem NextPow2_64_least v :
  fits 64 v ->
  (v <= 2 ^ 63 -> isPowerOf2 64 (NextPow2_64 v) = true /\ v <= NextPow2_64 v /\
     forall k, 0 <= k -> v <= 2 ^ k -> NextPow2_64 v <= 2 ^ k) /\
  (2 ^ 63 < v -> NextPow2_64 v = 0).
Proof.
  intros Hv. rewrite (NextPow2_64_spec v Hv). pose proof (Z.log2_up_nonneg v).
  split; intros Hb; [|by rewrite (proj2 (Z.leb_gt v (2 ^ 63)))].
  rewrite (proj2 (Z.leb_le v (2 ^ 63))) by done.
  assert (v <= 2 ^ Z.log2_up v) as Hle.
  { destruct (Z.eq_dec v 0) as [->|]; [done|].
    apply Z.log2_log2_up_spec; destruct Hv; lia. }
  split; [|split; [done|]].
  - apply isPowerOf2_pow. split; [done|].
    destruct (Z.eq_dec v 0) as [->|]; [done|].
    apply Z.le_lt_trans with 63; [|lia]. apply Z.log2_up_le_pow2; [destruct Hv; lia|done].
  - intros k Hk Hvk. apply Z.pow_le_mono_r; [lia|].
    destruct (Z.eq_dec v 0) as [->|]; [done|].
    apply Z.log2_up_le_pow2; [destruct Hv; lia|done].
Qed.

Lemma NextPow2_64_least_witness :
  fits 64 1000 /\
  ((1000 <= 2 ^ 63 -> isPowerOf2 64 (NextPow2_64 1000) = true /\ 1000 <= NextPow2_64 1000 /\
     forall k, 0 <= k -> 1000 <= 2 ^ k -> NextPow2_64 1000 <= 2 ^ k) /\
  (2 ^ 63 < 1000 -> NextPow2_64 1000 = 0)).
Proof.
  split; [split; [discriminate|reflexivity]|].
  apply (NextPow2_64_least 1000). split; [discriminate|reflexivity].
Defined.
