(* ===== verification/RingBuf.v ===== *)
(** [RingBuffer<T>] of [include/co/sync/ringbuffer.h]: a bounded FIFO over an array
    of [capacity_ + 1] cells with 64-bit read and write counters that only grow.
    A cell of [buf_] is present in the map while it holds a constructed object. *)
From S2P Require Import Prelude.
Local Open Scope Z_scope.

Section ringbuffer.
Context {T : Type}.

Record RingBuffer := mkRing {
  buf_ : gmap Z T;
  capacity_ : Z;
  write_ : Z;
  read_ : Z }.

Definition ring_new (cap : Z) : RingBuffer := mkRing ∅ cap 0 0.

Definition ring_cells (rb : RingBuffer) : Z := u64 (capacity_ rb + 1).
Definition ring_size (rb : RingBuffer) : Z := u64 (write_ rb - read_ rb).
Definition ring_empty (rb : RingBuffer) : bool := ring_size rb =? 0.
Definition ring_full (rb : RingBuffer) : bool := ring_size rb =? capacity_ rb.
Definition pwrite (rb : RingBuffer) : Z := write_ rb mod ring_cells rb.
Definition pread (rb : RingBuffer) : Z := read_ rb mod ring_cells rb.

Definition ring_push (rb : RingBuffer) (arg : T) : bool * RingBuffer :=
  if ring_full rb then (false, rb)
  else
    let buf := <[pwrite rb := arg]> (buf_ rb) in
    let w := u64 (write_ rb + 1) in
    if w =? 0
    then (true, mkRing buf (capacity_ rb) (ring_cells rb)
                       (u64 (read_ rb + ring_cells rb)))
    else (true, mkRing buf (capacity_ rb) w (read_ rb)).

(** [pop] moves the object out of its cell and destroys it; reading a cell that
    holds no object is a failure. *)
Definition ring_pop (rb : RingBuffer) : res (option T * RingBuffer) :=
  if ring_empty rb then Ret (None, rb)
  else
    v ← deref (buf_ rb !! pread rb);
    Ret (Some v, mkRing (delete (pread rb) (buf_ rb)) (capacity_ rb) (write_ rb)
                        (u64 (read_ rb + 1))).

(** The destructor pops until the ring is empty. *)
Fixpoint ring_destroy (fuel : nat) (rb : RingBuffer) : res RingBuffer :=
  match fuel with
  | O => Ret rb
  | S fuel =>
      '(o, rb') ← ring_pop rb;
      match o with Some _ => ring_destroy fuel rb' | None => Ret rb' end
  end.

(** ** Specification: a FIFO of at most [cap] elements *)

Definition fifo_push (cap : Z) (l : list T) (x : T) : bool * list T :=
  if Z.of_nat (length l) =? cap then (false, l) else (true, l ++ [x]).
Definition fifo_pop (l : list T) : option T * list T :=
  match l with [] => (None, []) | x :: l' => (Some x, l') end.

(** The cells from [read_] on hold [l], in order, and no other cell holds an object. *)
Record ring_inv (rb : RingBuffer) (l : list T) : Prop := {
  rr_cap : 0 <= capacity_ rb /\ capacity_ rb + 1 < 2 ^ 64;
  rr_order : 0 <= read_ rb;
  rr_size : write_ rb = read_ rb + Z.of_nat (length l);
  rr_fits : Z.of_nat (length l) <= capacity_ rb;
  rr_cells : forall i x, l !! i = Some x ->
    buf_ rb !! ((read_ rb + Z.of_nat i) mod (capacity_ rb + 1)) = Some x;
  rr_only : forall j, is_Some (buf_ rb !! j) ->
    exists i, (i < length l)%nat /\ j = (read_ rb + Z.of_nat i) mod (capacity_ rb + 1) }.

(** ... and the write counter is a 64-bit value. *)
Definition ring_repr (rb : RingBuffer) (l : list T) : Prop :=
  ring_inv rb l /\ write_ rb < 2 ^ 64.

Lemma ring_repr_new cap : 0 <= cap -> cap + 1 < 2 ^ 64 -> ring_repr (ring_new cap) [].
Proof.
  intros. split; [|done]. constructor; simpl; [lia|lia|lia|lia|..].
  - intros i x Hi. by rewrite lookup_nil in Hi.
  - intros j [x Hx]. by rewrite lookup_empty in Hx.
Qed.

Lemma ring_size_repr rb l : ring_repr rb l -> ring_size rb = Z.of_nat (length l).
Proof.
  intros [[] ?]. unfold ring_size. rewrite rr_size0. replace (_ + _ - _) with (Z.of_nat (length l)) by lia.
  apply wrap_small. unfold fits. lia.
Qed.

Lemma ring_cells_repr rb l : ring_repr rb l -> ring_cells rb = capacity_ rb + 1.
Proof. intros [[] ?]. apply wrap_small. unfold fits. lia. Qed.

(** Two positions less than a lap apart use different cells. *)
Lemma mod_distinct a i j n : 0 < n -> 0 <= i < n -> 0 <= j < n -> i <> j -> (a + i) mod n <> (a + j) mod n.
Proof.
  intros Hn Hi Hj Hne E.
  assert ((i - j) mod n = 0) as Hd.
  { replace (i - j) with ((a + i) - (a + j)) by lia. rewrite Zminus_mod, E, Z.sub_diag. apply Zmod_0_l. }
  pose proof (Z.div_mod (i - j) n ltac:(lia)) as Hq. rewrite Hd in Hq.
  assert ((i - j) / n <= -1 \/ (i - j) / n = 0 \/ 1 <= (i - j) / n) as [?|[E0|?]] by lia; [nia| |nia].
  rewrite E0 in Hq. lia.
Qed.

(** Moving both counters by [d], a multiple of the number of cells, changes nothing. *)
Lemma ring_inv_shift buf cap w r l d :
  ring_inv (mkRing buf cap w r) l -> (cap + 1 | d) -> 0 <= r + d ->
  ring_inv (mkRing buf cap (w + d) (r + d)) l.
Proof.
  intros [] [q Hq] Hr. simpl in *.
  assert (forall i, (r + d + Z.of_nat i) mod (cap + 1) = (r + Z.of_nat i) mod (cap + 1)) as E.
  { intros i. subst d. replace (r + q * (cap + 1) + Z.of_nat i)
      with (r + Z.of_nat i + q * (cap + 1)) by lia. apply Z_mod_plus_full. }
  constructor; simpl; [done|lia|lia|done|..].
  - intros i x Hi. rewrite E. by apply rr_cells0.
  - intros j Hj. destruct (rr_only0 j Hj) as (i & Hi & ->). exists i. by rewrite E.
Qed.

(** Writing at [write_] appends. *)
Lemma ring_inv_snoc buf cap w r l x :
  ring_inv (mkRing buf cap w r) l -> Z.of_nat (length l) < cap ->
  buf !! (w mod (cap + 1)) = None /\
  ring_inv (mkRing (<[w mod (cap + 1) := x]> buf) cap (w + 1) r) (l ++ [x]).
Proof.
  intros [] Hlen. simpl in *. subst w.
  assert (forall i, (i < length l)%nat ->
    (r + Z.of_nat (length l)) mod (cap + 1) <> (r + Z.of_nat i) mod (cap + 1)) as Hd.
  { intros i Hi. apply mod_distinct; lia. }
  split.
  { destruct (buf !! _) eqn:E; [|done].
    destruct (rr_only0 _ (mk_is_Some _ _ E)) as (i & Hi & E'). by destruct (Hd i Hi). }
  constructor; simpl; rewrite ?length_app; simpl; [lia|lia|lia|lia|..].
  - intros i y [Hi|[Hi Hy]]%lookup_app_Some.
    + rewrite lookup_insert_ne by (apply Hd; by eapply lookup_lt_Some). by apply rr_cells0.
    + apply list_lookup_singleton_Some in Hy as [Hz ->].
      replace i with (length l) by lia. apply lookup_insert_eq.
  - intros j Hj. destruct (decide (j = (r + Z.of_nat (length l)) mod (cap + 1))) as [->|Hne].
    + exists (length l). split; [lia|done].
    + rewrite lookup_insert_ne in Hj by done. destruct (rr_only0 j Hj) as (i & ? & ->).
      exists i. split; [lia|done].
Qed.

(** Reading at [read_] takes the head. *)
Lemma ring_inv_tail buf cap w r x l :
  ring_inv (mkRing buf cap w r) (x :: l) ->
  buf !! (r mod (cap + 1)) = Some x /\
  ring_inv (mkRing (delete (r mod (cap + 1)) buf) cap w (r + 1)) l.
Proof.
  intros []. simpl in *.
  assert (forall i, (i < length l)%nat ->
    r mod (cap + 1) <> (r + 1 + Z.of_nat i) mod (cap + 1)) as Hd.
  { intros i Hi. rewrite <- (Z.add_0_r r) at 1. rewrite <- Z.add_assoc.
    apply mod_distinct; lia. }
  split. { specialize (rr_cells0 0%nat x eq_refl). by rewrite Z.add_0_r in rr_cells0. }
  constructor; simpl; [lia|lia|lia|lia|..].
  - intros i y Hi. rewrite lookup_delete_ne by (apply Hd; by eapply lookup_lt_Some).
    rewrite <- (rr_cells0 (S i) y) by done. do 2 f_equal. lia.
  - intros j [y Hy]. apply lookup_delete_Some in Hy as [Hne Hy].
    destruct (rr_only0 j (mk_is_Some _ _ Hy)) as ([|i] & Hi & ->).
    + by rewrite Z.add_0_r in Hne.
    + exists i. split; [lia|]. f_equal. lia.
Qed.

(** The reset at the end of the 64-bit range keeps the contents when the number
    of cells divides 2{^64}. *)
Definition wrap_ok (rb : RingBuffer) : Prop :=
  write_ rb + 1 < 2 ^ 64 \/ (capacity_ rb + 1 | 2 ^ 64).

Lemma ring_push_repr rb l x :
  ring_repr rb l -> wrap_ok rb ->
  let '(ok, rb') := ring_push rb x in
  let '(ok', l') := fifo_push (capacity_ rb) l x in
  ok = ok' /\ ring_repr rb' l' /\ capacity_ rb' = capacity_ rb /\
  (write_ rb + 1 < 2 ^ 64 -> write_ rb' <= write_ rb + 1).
Proof.
  intros Hr Hok. unfold ring_push, fifo_push, ring_full. rewrite (ring_size_repr _ _ Hr).
  destruct (Z.eqb_spec (Z.of_nat (length l)) (capacity_ rb)) as [|Hne]; [repeat split; try apply Hr; lia|].
  pose proof (ring_cells_repr _ _ Hr) as Hc. unfold pwrite. rewrite Hc.
  destruct Hr as [Hi Hw]. destruct rb as [buf cap w r]; simpl in *.
  pose proof (rr_fits _ _ Hi) as Hf; simpl in Hf. pose proof (rr_size _ _ Hi) as Hs; simpl in Hs.
  pose proof (rr_cap _ _ Hi) as Hcap; pose proof (rr_order _ _ Hi) as Ho; simpl in *.
  destruct (ring_inv_snoc _ _ _ _ _ x Hi ltac:(lia)) as [_ Hi'].
  destruct (Z.eqb_spec (u64 (w + 1)) 0) as [Hz|Hz]; simpl.
  - assert (w + 1 = 2 ^ 64) as Hw1.
    { destruct (Z.eq_dec (w + 1) (2 ^ 64)); [done|].
      unfold u64 in Hz. rewrite wrap_small in Hz by (split; lia). lia. }
    destruct Hok as [|Hdiv]; [simpl in *; lia|].
    apply (ring_inv_shift _ _ _ _ _ (cap + 1 - 2 ^ 64)) in Hi';
      [|by apply Z.divide_sub_r; [apply Z.divide_refl|]|lia].
    replace (u64 (r + (cap + 1))) with (r + (cap + 1 - 2 ^ 64)).
    2: { unfold u64. rewrite <- (wrap_add_pow 64 (r + (cap + 1)) (-1)).
         rewrite wrap_small by (split; lia). lia. }
    replace (w + 1 + (cap + 1 - 2 ^ 64)) with (cap + 1) in Hi' by lia.
    split; [done|]. split; [split; [done|simpl; lia]|]. split; [done|lia].
  - assert (u64 (w + 1) = w + 1) as E.
    { apply wrap_small. split; [lia|]. destruct (Z.eq_dec (w + 1) (2 ^ 64)) as [E|]; [|lia].
      rewrite E in Hz. by destruct Hz. }
    rewrite E in *. split; [done|]. split; [split; [done|simpl]|split; [done|lia]].
    destruct (Z.eq_dec (w + 1) (2 ^ 64)) as [E'|]; [|lia]. rewrite E' in E. done.
Qed.

Lemma ring_pop_repr rb l :
  ring_repr rb l ->
  exists rb', ring_pop rb = Ret (fst (fifo_pop l), rb') /\ ring_repr rb' (snd (fifo_pop l)) /\
    capacity_ rb' = capacity_ rb /\ write_ rb' = write_ rb.
Proof.
  intros Hr. unfold ring_pop, ring_empty. rewrite (ring_size_repr _ _ Hr).
  destruct l as [|x l]; simpl; [eauto|].
  pose proof (ring_cells_repr _ _ Hr) as Hc. unfold pread. rewrite Hc.
  destruct Hr as [Hi Hw]. destruct rb as [buf cap w r]; simpl in *.
  destruct (ring_inv_tail _ _ _ _ _ _ Hi) as [E Hi']. rewrite E. simpl.
  pose proof (rr_size _ _ Hi) as Hs. pose proof (rr_order _ _ Hi) as Ho. simpl in *.
  eexists. split; [done|]. unfold u64. rewrite (wrap_small 64 (r + 1)) by (split; lia).
  by split; [split|].
Qed.

(** ** Runs *)

Inductive ring_op := OpPush (x : T) | OpPop.
Inductive ring_out := OutPush (ok : bool) | OutPop (v : option T).

Fixpoint run_ring (ops : list ring_op) (rb : RingBuffer) : res (list ring_out) :=
  match ops with
  | [] => Ret []
  | OpPush x :: ops =>
      let '(ok, rb) := ring_push rb x in
      outs ← run_ring ops rb; Ret (OutPush ok :: outs)
  | OpPop :: ops =>
      '(v, rb) ← ring_pop rb;
      outs ← run_ring ops rb; Ret (OutPop v :: outs)
  end.

Fixpoint run_fifo (cap : Z) (ops : list ring_op) (l : list T) : list ring_out :=
  match ops with
  | [] => []
  | OpPush x :: ops => let '(ok, l) := fifo_push cap l x in OutPush ok :: run_fifo cap ops l
  | OpPop :: ops => let '(v, l) := fifo_pop l in OutPop v :: run_fifo cap ops l
  end.

Lemma run_ring_repr ops : forall rb l,
  ring_repr rb l ->
  write_ rb + Z.of_nat (length ops) < 2 ^ 64 \/ (capacity_ rb + 1 | 2 ^ 64) ->
  run_ring ops rb = Ret (run_fifo (capacity_ rb) ops l).
Proof.
  induction ops as [|[x|] ops IH]; intros rb l Hr Hb; simpl; [done|..].
  - pose proof (ring_push_repr rb l x Hr) as Hp.
    simpl in Hb. destruct (ring_push rb x) as [ok rb'].
    destruct (fifo_push (capacity_ rb) l x) as [ok' l'].
    destruct Hp as (<- & Hr' & Hc & Hw); [destruct Hb; [left; lia|by right]|].
    rewrite <- Hc, (IH rb' l'); [done|done|].
    rewrite Hc. destruct Hb; [left; lia|by right].
  - destruct (ring_pop_repr rb l Hr) as (rb' & -> & Hr' & Hc & Hw).
    simpl. simpl in Hb. destruct (fifo_pop l) as [v l']. simpl in *.
    rewrite <- Hc, (IH rb' l'); [done|done|].
    rewrite Hc, Hw. destruct Hb; [left; lia|by right].
Qed.

Lemma ring_destroy_repr l : forall rb fuel,
  ring_repr rb l -> (length l < fuel)%nat ->
  exists rb', ring_destroy fuel rb = Ret rb' /\ buf_ rb' = ∅.
Proof.
  induction l as [|x l IH]; intros rb fuel Hr Hf; (destruct fuel as [|fuel]; [lia|]); simpl;
    destruct (ring_pop_repr rb _ Hr) as (rb' & -> & Hr' & Hc & Hw); simpl in *.
  - exists rb'. split; [done|]. destruct Hr' as [Hi _]. apply map_eq. intros j.
    rewrite lookup_empty. destruct (buf_ rb' !! j) eqn:E; [|done].
    destruct (rr_only _ _ Hi _ (mk_is_Some _ _ E)) as (i & Hlt & _). simpl in Hlt. lia.
  - apply IH; [done|lia].
Qed.

End ringbuffer.
Arguments RingBuffer : clear implicits.
Arguments ring_op : clear implicits.
Arguments ring_out : clear implicits.

(** ** Properties *)

(** C16: from construction on, a [RingBuffer] answers every sequence of pushes and
    pops exactly as a FIFO of at most [cap] elements does, without ever reading a cell
    that holds no object: for fewer than 2{^64} operations with any capacity, and for
    sequences of any length when the number of cells divides 2{^64}. *)
Theorem ring_refines_fifo {T} cap (ops : list (ring_op T)) :
  0 <= cap -> cap + 1 < 2 ^ 64 ->
  Z.of_nat (length ops) < 2 ^ 64 \/ (cap + 1 | 2 ^ 64) ->
  run_ring ops (ring_new cap) = Ret (run_fifo cap ops []).
Proof.
  intros. apply (run_ring_repr ops (ring_new cap) []); [by apply ring_repr_new|].
  simpl. by rewrite Z.add_0_l.
Qed.

Lemma ring_refines_fifo_witness :
  run_ring [OpPush 7; OpPush 8; OpPush 9; OpPop; OpPush 9; OpPop] (ring_new 2)
    = Ret (run_fifo 2 [OpPush 7; OpPush 8; OpPush 9; OpPop; OpPush 9; OpPop] [])
  /\ run_fifo 2 [OpPush 7; OpPush 8; OpPush 9; OpPop; OpPush 9; OpPop] []
     = [OutPush true; OutPush true; OutPush false; OutPop (Some 7); OutPush true; OutPop (Some 8)].
Proof.
  split; [|reflexivity].
  apply (ring_refines_fifo 2 [OpPush 7; OpPush 8; OpPush 9; OpPop; OpPush 9; OpPop]);
    [lia|lia|left; reflexivity].
Defined.

(** The destructor of a ring that holds [l] ends after [length l + 1] pops and
    leaves no constructed object in the buffer. *)
Theorem ring_destroy_no_leak {T} (rb : RingBuffer T) (l : list T) :
  ring_repr rb l ->
  exists rb', ring_destroy (S (length l)) rb = Ret rb' /\ buf_ rb' = ∅.
Proof. intros Hr. apply (ring_destroy_repr l); [done|lia]. Qed.

Lemma ring_destroy_no_leak_witness :
  ring_repr (ring_new 4) ([] : list Z) /\
  exists rb', ring_destroy 1 (ring_new (T := Z) 4) = Ret rb' /\ buf_ rb' = ∅.
Proof.
  split; [apply ring_repr_new; lia|].
  apply (ring_destroy_no_leak (ring_new 4) []). apply ring_repr_new; lia.
Defined.

(** The reset of the counters at the end of the 64-bit range is wrong when the
    number of cells does not divide 2{^64}.  A well-formed empty ring of capacity 2 whose
    counters stand at 2{^64} - 1 accepts a push and then reads a cell that holds nothing. *)
Theorem ring_reset_breaks :
  exists rb : RingBuffer Z, ring_repr rb [] /\ capacity_ rb = 2 /\
    fst (ring_push rb 7) = true /\ ring_pop (snd (ring_push rb 7)) = AssertFail.
Proof.
  exists (mkRing ∅ 2 (2 ^ 64 - 1) (2 ^ 64 - 1)). split; [|repeat split; vm_compute; reflexivity].
  split; [|simpl; lia]. constructor; simpl; [lia|lia|lia|lia|..].
  - intros i x Hi. by rewrite lookup_nil in Hi.
  - intros j [x Hx]. by rewrite lookup_empty in Hx.
Qed.
