(* ===== verification/Atomic.v ===== *)
(** Atomic operations of [include/util/atomic_helpers.h], in the configuration the
    build selects on x86-64 ([X64_ORDER_WC] set, [ALWAYS_CONSERVATIVE] clear): every
    built-in is issued relaxed and the ordering comes from explicit fences.  A memory
    cell carries its current [w]-bit value and the sequence of accesses and fences
    issued on it, latest last.  Each operation returns its result and the new cell. *)
From S2P Require Import Prelude.
Local Open Scope Z_scope.

Inductive memory_order :=
  relaxed | consume | acquire | release | acq_rel | seq_cst.

#[export] Instance memory_order_eq_dec : EqDecision memory_order.
Proof. solve_decision. Defined.

Inductive event :=
| EvSfence | EvLfence | EvMfence
| EvLoad (v : Z)
| EvStore (v : Z)
| EvRmw (old new : Z).

Record cell := mkCell { val : Z; log : list event }.

Definition emit (evs : list event) (c : cell) : cell := mkCell (val c) (log c ++ evs).

(** ** Fences *)

Definition PreFence (order : memory_order) : list event :=
  match order with release | seq_cst | acq_rel => [EvSfence] | _ => [] end.

Definition PostFence (order : memory_order) : list event :=
  match order with
  | seq_cst => [EvMfence]
  | acq_rel | acquire => [EvLfence]
  | _ => []
  end.

Definition Fence (order : memory_order) : list event :=
  match order with
  | seq_cst | acq_rel => [EvMfence]
  | acquire => [EvLfence]
  | release => [EvSfence]
  | _ => []
  end.

(** ** Accesses *)

Definition access (order : memory_order) (ev : event) (new : Z) (c : cell) : cell :=
  mkCell new (log c ++ PreFence order ++ [ev] ++ PostFence order).

Section ops.
(** [w] is the width in bits of the template argument [T]. *)
Context (w : Z).

Definition Load (order : memory_order) (c : cell) : Z * cell :=
  (val c, access order (EvLoad (val c)) (val c) c).

Definition Store (v : Z) (order : memory_order) (c : cell) : cell :=
  access order (EvStore (wrap w v)) (wrap w v) c.

(** [__atomic_compare_exchange] writes the observed value back to [expected], which
    is what [Cas] returns. *)
Definition Cas (v expected : Z) (order : memory_order) (c : cell) : Z * cell :=
  let new := if val c =? wrap w expected then wrap w v else val c in
  (val c, access order (EvRmw (val c) new) new c).

Definition Exchange (v : Z) (order : memory_order) (c : cell) : Z * cell :=
  (val c, access order (EvRmw (val c) (wrap w v)) (wrap w v) c).

Definition fetch (f : Z -> Z) (order : memory_order) (c : cell) : Z * cell :=
  (val c, access order (EvRmw (val c) (wrap w (f (val c)))) (wrap w (f (val c))) c).

Definition Add (v : Z) := fetch (fun x => x + v).
Definition Sub (v : Z) := fetch (fun x => x - v).
Definition And (v : Z) := fetch (fun x => Z.land x v).
Definition Or (v : Z) := fetch (fun x => Z.lor x v).
Definition Xor (v : Z) := fetch (fun x => Z.lxor x v).
Definition Increment := fetch (fun x => x + 1).
Definition Decrement := fetch (fun x => x - 1).

(** The overloads on [volatile T*] have the same bodies. *)
Definition Load_volatile := Load.
Definition Store_volatile := Store.
Definition Cas_volatile := Cas.
Definition Exchange_volatile := Exchange.
Definition Add_volatile (v : Z) := fetch (fun x => x + v).
Definition Sub_volatile (v : Z) := fetch (fun x => x - v).
Definition And_volatile (v : Z) := fetch (fun x => Z.land x v).
Definition Or_volatile (v : Z) := fetch (fun x => Z.lor x v).
Definition Xor_volatile (v : Z) := fetch (fun x => Z.lxor x v).
Definition Increment_volatile := fetch (fun x => x + 1).
Definition Decrement_volatile := fetch (fun x => x - 1).

(** ** The operations as data *)

Inductive atomic_op :=
| ALoad | AStore (v : Z) | ACas (v expected : Z) | AExchange (v : Z)
| AAdd (v : Z) | ASub (v : Z) | AAnd (v : Z) | AOr (v : Z) | AXor (v : Z)
| AIncrement | ADecrement.

Definition run_op (op : atomic_op) (order : memory_order) (c : cell) : option Z * cell :=
  let ret (p : Z * cell) := (Some p.1, p.2) in
  match op with
  | ALoad => ret (Load order c)
  | AStore v => (None, Store v order c)
  | ACas v e => ret (Cas v e order c)
  | AExchange v => ret (Exchange v order c)
  | AAdd v => ret (Add v order c)
  | ASub v => ret (Sub v order c)
  | AAnd v => ret (And v order c)
  | AOr v => ret (Or v order c)
  | AXor v => ret (Xor v order c)
  | AIncrement => ret (Increment order c)
  | ADecrement => ret (Decrement order c)
  end.

(** The value an operation leaves, as a function of the one it finds. *)
Definition op_new (op : atomic_op) (x : Z) : Z :=
  match op with
  | ALoad => x
  | AStore v | AExchange v => wrap w v
  | ACas v e => if x =? wrap w e then wrap w v else x
  | AAdd v => wrap w (x + v)
  | ASub v => wrap w (x - v)
  | AAnd v => wrap w (Z.land x v)
  | AOr v => wrap w (Z.lor x v)
  | AXor v => wrap w (Z.lxor x v)
  | AIncrement => wrap w (x + 1)
  | ADecrement => wrap w (x - 1)
  end.

Lemma run_op_val op order c : val (run_op op order c).2 = op_new op (val c).
Proof. by destruct op. Qed.

Lemma run_op_fits op order c : 0 <= w -> fits w (val c) -> fits w (val (run_op op order c).2).
Proof.
  intros Hw Hc. rewrite run_op_val.
  destruct op; simpl; try (apply wrap_range; exact Hw); [done|].
  destruct (_ =? _); [by apply wrap_range|done].
Qed.

(** What a fence orders. *)
Definition orders_stores_before (ev : event) : bool :=
  match ev with EvSfence | EvMfence => true | _ => false end.
Definition orders_loads_after (ev : event) : bool :=
  match ev with EvLfence | EvMfence => true | _ => false end.
Definition is_access (ev : event) : bool :=
  match ev with EvLoad _ | EvStore _ | EvRmw _ _ => true | _ => false end.

Definition releases (o : memory_order) : bool :=
  bool_decide (o = release \/ o = acq_rel \/ o = seq_cst).
Definition acquires (o : memory_order) : bool :=
  bool_decide (o = acquire \/ o = acq_rel \/ o = seq_cst).

End ops.

(** Every atomic operation performs exactly one access, which finds the old value
    and leaves the new one; an order with release semantics puts a store fence before
    the access, and an order with acquire semantics puts a load fence (or a full fence)
    after it; no other order pays for a fence on that side. *)
Theorem atomic_op_ordered w op order c :
  exists pre ev post,
    log (run_op w op order c).2 = log c ++ pre ++ [ev] ++ post /\
    is_access ev = true /\
    existsb is_access pre = false /\ existsb is_access post = false /\
    existsb orders_stores_before pre = releases order /\
    existsb orders_loads_after post = acquires order /\
    val (run_op w op order c).2 = op_new w op (val c) /\
    match (run_op w op order c).1 with Some r => r = val c | None => exists v, op = AStore v end.
Proof.
  exists (PreFence order).
  destruct op; eexists; exists (PostFence order); (split; [reflexivity|]);
    destruct order; repeat split; vm_compute; eauto.
Qed.
