(* ===== verification/TsQueue.v ===== *)
(** The intrusive doubly linked lists of [src/common/inc/TsQueue.h]: [SList<T>] and
    [TSQueue<T>] over [TSQueueHook].

    The hooks live in a store indexed by address.  A hook carries the reference count
    of the object it is a base of; an object whose count drops to zero is handed to its
    deleter, which [freed] records in order.  [TSQueue] operations hold the queue's lock
    from end to end, so each is one step; the unlocked test of [head_ == tail_] before
    the lock is repeated under it.  [LIBGO_DEBUG] is not defined by the build. *)
From S2P Require Import Prelude.
Local Open Scope Z_scope.

Abbreviation loc := positive.

Record TSQueueHook := mkHook {
  prev : option loc;
  next : option loc;
  check_ : option loc;
  refs : Z }.

Record mem := mkMem { hooks : gmap loc TSQueueHook; freed : list loc }.

(** ** Field access *)

Definition get_hook (m : mem) (p : loc) : res TSQueueHook := deref (hooks m !! p).

Definition upd (f : TSQueueHook -> TSQueueHook) (p : loc) (m : mem) : mem :=
  mkMem (alter f p (hooks m)) (freed m).
Definition set_prev (v : option loc) := upd (fun h => mkHook v (next h) (check_ h) (refs h)).
Definition set_next (v : option loc) := upd (fun h => mkHook (prev h) v (check_ h) (refs h)).
Definition set_check (v : option loc) := upd (fun h => mkHook (prev h) (next h) v (refs h)).
Definition set_refs (v : Z) := upd (fun h => mkHook (prev h) (next h) (check_ h) v).

(** [q->field = v] when [q] may be null: guarded by [if (q)]. *)
Definition if_ptr (q : option loc) (f : loc -> mem -> mem) (m : mem) : mem :=
  match q with Some p => f p m | None => m end.

Definition IncrementRef (p : loc) (m : mem) : mem :=
  upd (fun h => mkHook (prev h) (next h) (check_ h) (refs h + 1)) p m.

Definition DecrementRef (p : loc) (m : mem) : mem :=
  match hooks m !! p with
  | None => m
  | Some h =>
      let m' := set_refs (refs h - 1) p m in
      if refs h - 1 =? 0 then mkMem (hooks m') (freed m' ++ [p]) else m'
  end.

Definition link (p theNext : loc) (m : mem) : res mem :=
  h ← get_hook m p;
  n ← get_hook m theNext;
  _ ← assert_ (bool_decide (next h = None));
  _ ← assert_ (bool_decide (prev n = None));
  Ret (set_prev (Some p) theNext (set_next (Some theNext) p m)).

Definition unlink (p theNext : loc) (m : mem) : res mem :=
  h ← get_hook m p;
  n ← get_hook m theNext;
  _ ← assert_ (bool_decide (next h = Some theNext));
  _ ← assert_ (bool_decide (prev n = Some p));
  Ret (set_prev None theNext (set_next None p m)).

(** ** SList *)

Record SList := mkSList { shead : option loc; stail : option loc; scount : Z }.

Definition slist_nil : SList := mkSList None None 0.
Definition SList_empty (s : SList) : bool := bool_decide (shead s = None).
Definition SList_size (s : SList) : Z := scount s.
Definition stealed (s : SList) : SList := slist_nil.

(** [this->append(std::move(other))]: both lists after the call. *)
Definition SList_append (s other : SList) (m : mem) : res (SList * SList * mem) :=
  if SList_empty other then Ret (s, other, m)
  else if SList_empty s then Ret (other, stealed other, m)
  else
    t ← deref (stail s);
    oh ← deref (shead other);
    m ← link t oh m;
    Ret (mkSList (shead s) (stail other) (u64 (scount s + scount other)), stealed other, m).

(** [pos = pos->next], [n] times. *)
Fixpoint advance (n : nat) (pos : loc) (m : mem) : res loc :=
  match n with
  | O => Ret pos
  | S n => h ← get_hook m pos; q ← deref (next h); advance n q m
  end.

(** [this->cut(n)]: the list cut off, the rest and the store. *)
Definition SList_cut (s : SList) (n : nat) (m : mem) : res (SList * SList * mem) :=
  if SList_empty s then Ret (slist_nil, s, m)
  else if scount s <=? Z.of_nat n then Ret (s, stealed s, m)
  else if (n =? 0)%nat then Ret (slist_nil, s, m)
  else
    hd ← deref (shead s);
    pos ← advance (n - 1) hd m;
    h ← get_hook m pos;
    newhead ← deref (next h);
    m ← unlink pos newhead m;
    Ret (mkSList (shead s) (Some pos) (Z.of_nat n),
         mkSList (Some newhead) (stail s) (u64 (scount s - Z.of_nat n)), m).

(** [void erase(T* ptr)]. *)
Definition SList_erase (s : SList) (p : loc) (m : mem) : res (SList * mem) :=
  h ← get_hook m p;
  '(hd, m1) ← (match prev h with
    | Some q => Ret (shead s, set_next (next h) q m)
    | None => hd ← deref (shead s); hh ← get_hook m hd; Ret (next hh, m)
    end);
  '(tl, m2) ← (match next h with
    | Some q => Ret (stail s, set_prev (prev h) q m1)
    | None => tl ← deref (stail s); th ← get_hook m1 tl; Ret (prev th, m1)
    end);
  let m3 := set_prev None p (set_next None p m2) in
  Ret (mkSList hd tl (u64 (scount s - 1)), DecrementRef p m3).

(** [bool erase(T* ptr, void* check)]. *)
Definition SList_erase_check (s : SList) (p : loc) (check : option loc) (m : mem)
    : res (bool * SList * mem) :=
  h ← get_hook m p;
  if negb (bool_decide (check_ h = check)) then Ret (false, s, m)
  else '(s, m) ← SList_erase s p m; Ret (true, s, m).

(** [clear()]: the iterator saves the successor before each erasure.  At most
    [fuel] elements are visited. *)
Fixpoint SList_clear_loop (fuel : nat) (it : option loc) (s : SList) (m : mem) : res (SList * mem) :=
  match fuel, it with
  | S fuel, Some p =>
      h ← get_hook m p;
      '(s, m) ← SList_erase s p m;
      SList_clear_loop fuel (next h) s m
  | _, _ => Ret (s, m)
  end.
Definition SList_clear (fuel : nat) (s : SList) (m : mem) : res (SList * mem) :=
  '(s, m) ← SList_clear_loop fuel (shead s) s m; Ret (stealed s, m).

(** ** TSQueue *)

Record TSQueue := mkTSQueue {
  qhead : loc;
  qtail : loc;
  qcount : Z;
  qcheck : option loc }.

(** [head_ = tail_ = new TSQueueHook; count_ = 0; check_ = this]. *)
Definition TSQueue_new (dummy this : loc) (m : mem) : TSQueue * mem :=
  (mkTSQueue dummy dummy 0 (Some this),
   mkMem (<[dummy := mkHook None None None 1]> (hooks m)) (freed m)).

Definition with_tail (t : loc) (c : Z) (q : TSQueue) : TSQueue :=
  mkTSQueue (qhead q) t c (qcheck q).

Definition TSQueue_next (q : TSQueue) (p : loc) (m : mem) : res (option loc * mem) :=
  h ← get_hook m p;
  Ret (next h, if_ptr (next h) (set_check (qcheck q)) m).
Definition TSQueue_front (q : TSQueue) (m : mem) : res (option loc * mem) :=
  TSQueue_next q (qhead q) m.

Definition TSQueue_empty (q : TSQueue) : bool := qcount q =? 0.
Definition TSQueue_size (q : TSQueue) : Z := qcount q.

Definition TSQueue_pop (q : TSQueue) (m : mem) : res (option loc * TSQueue * mem) :=
  if decide (qhead q = qtail q) then Ret (None, q, m)
  else
    hh ← get_hook m (qhead q);
    p ← deref (next hh);
    h ← get_hook m p;
    let t := if decide (p = qtail q) then qhead q else qtail q in
    let m := set_next (next h) (qhead q) m in
    let m := if_ptr (next h) (set_prev (Some (qhead q))) m in
    let m := set_check None p (set_prev None p (set_next None p m)) in
    Ret (Some p, with_tail t (u64 (qcount q - 1)) q, DecrementRef p m).

(** [push(SList&&)] and [pushWithoutLock(SList&&)]. *)
Definition TSQueue_push_list (q : TSQueue) (s : SList) (m : mem) : res (TSQueue * SList * mem) :=
  if SList_empty s then Ret (q, s, m)
  else
    sh ← deref (shead s);
    st ← deref (stail s);
    hh ← get_hook m sh;
    ht ← get_hook m st;
    _ ← assert_ (bool_decide (prev hh = None));
    _ ← assert_ (bool_decide (next ht = None));
    m ← link (qtail q) sh m;
    Ret (with_tail st (u64 (qcount q + SList_size s)) q, stealed s, m).

(** The loop of [pop_front]: up to [n] further nodes after [last]; returns the last
    node reached and how many nodes were added. *)
Fixpoint walk_next (n : nat) (lst : loc) (m : mem) : res (loc * nat) :=
  match n with
  | O => Ret (lst, O)
  | S n =>
      h ← get_hook m lst;
      match next h with
      | None => Ret (lst, O)
      | Some q => '(r, c) ← walk_next n q m; Ret (r, S c)
      end
  end.

Definition TSQueue_pop_front (q : TSQueue) (n : nat) (m : mem) : res (SList * TSQueue * mem) :=
  if decide (qhead q = qtail q) then Ret (slist_nil, q, m)
  else
    hh ← get_hook m (qhead q);
    first ← deref (next hh);
    '(lst, k) ← walk_next (n - 1) first m;
    lh ← get_hook m lst;
    let c := Z.of_nat (S k) in
    let t := if decide (lst = qtail q) then qhead q else qtail q in
    let m := set_next (next lh) (qhead q) m in
    let m := if_ptr (next lh) (set_prev (Some (qhead q))) m in
    let m := set_prev None first (set_next None lst m) in
    Ret (mkSList (Some first) (Some lst) c, with_tail t (u64 (qcount q - c)) q, m).

(** The loop of [pop_back], towards the head; the dummy is never taken. *)
Fixpoint walk_prev (n : nat) (hd first : loc) (m : mem) : res (loc * nat) :=
  match n with
  | O => Ret (first, O)
  | S n =>
      h ← get_hook m first;
      if decide (prev h = Some hd) then Ret (first, O)
      else q ← deref (prev h); '(r, c) ← walk_prev n hd q m; Ret (r, S c)
  end.

Definition TSQueue_pop_back (q : TSQueue) (n : nat) (m : mem) : res (SList * TSQueue * mem) :=
  if decide (qhead q = qtail q) then Ret (slist_nil, q, m)
  else
    let lst := qtail q in
    '(first, k) ← walk_prev (n - 1) (qhead q) lst m;
    fh ← get_hook m first;
    t ← deref (prev fh);
    let c := Z.of_nat (S k) in
    let m := set_prev None first (set_next None t m) in
    Ret (mkSList (Some first) (Some lst) c, with_tail t (u64 (qcount q - c)) q, m).

Definition TSQueue_pop_all (q : TSQueue) (m : mem) : res (SList * TSQueue * mem) :=
  if decide (qhead q = qtail q) then Ret (slist_nil, q, m)
  else
    hh ← get_hook m (qhead q);
    first ← deref (next hh);
    let lst := qtail q in
    let m := set_next None (qhead q) m in
    let m := set_prev None first (set_next None lst m) in
    Ret (mkSList (Some first) (Some lst) (qcount q), with_tail (qhead q) 0 q, m).

Definition TSQueue_erase (q : TSQueue) (p : loc) (check refCount : bool) (m : mem)
    : res (bool * TSQueue * mem) :=
  h ← get_hook m p;
  if check && negb (bool_decide (check_ h = qcheck q)) then Ret (false, q, m)
  else
    _ ← assert_ (bool_decide (is_Some (prev h)));
    _ ← assert_ (bool_decide (p = qtail q \/ is_Some (next h)));
    let m := if_ptr (prev h) (set_next (next h)) m in
    let m := if_ptr (next h) (set_prev (prev h)) m in
    t ← (match next h with
         | Some _ => Ret (qtail q)
         | None => if decide (p = qtail q)
                   then th ← get_hook m (qtail q); deref (prev th)
                   else Ret (qtail q)
         end);
    let m := set_check None p (set_prev None p (set_next None p m)) in
    _ ← assert_ (0 <? qcount q);
    Ret (true, with_tail t (qcount q - 1) q, if refCount then DecrementRef p m else m).

Definition TSQueue_push (q : TSQueue) (p : loc) (refCount : bool) (m : mem)
    : res (Z * TSQueue * mem) :=
  h ← get_hook m p;
  _ ← assert_ (bool_decide (next h = None));
  _ ← assert_ (bool_decide (prev h = None));
  m ← link (qtail q) p m;
  let m := set_check (qcheck q) p (set_next None p m) in
  let c := u64 (qcount q + 1) in
  Ret (c, with_tail p c q, if refCount then IncrementRef p m else m).

(** The destructor drops the references from the tail to the head. *)
Fixpoint TSQueue_destroy_loop (fuel : nat) (hd tl : loc) (m : mem) : res mem :=
  if decide (hd = tl) then Ret m
  else match fuel with
  | O => Ret m
  | S fuel =>
      h ← get_hook m tl;
      p ← deref (prev h);
      TSQueue_destroy_loop fuel hd p (DecrementRef tl m)
  end.
Definition TSQueue_destroy (fuel : nat) (q : TSQueue) (m : mem) : res mem :=
  m ← TSQueue_destroy_loop fuel (qhead q) (qtail q) m;
  Ret (mkMem (delete (qhead q) (hooks m)) (freed m)).

(** ** Representation *)

(** The two link fields of a hook; the specification ignores the others. *)
Definition links (m : mem) (p : loc) : option (option loc * option loc) :=
  (fun h => (prev h, next h)) <$> hooks m !! p.

Definition first_or (d : option loc) (l : list loc) : option loc :=
  match l with [] => d | x :: _ => Some x end.
Definition last_or (d : option loc) (l : list loc) : option loc :=
  match last l with Some x => Some x | None => d end.

(** [l] is a chain of hooks entered from [p] and left to [n]. *)
Fixpoint seg (m : mem) (p : option loc) (l : list loc) (n : option loc) : Prop :=
  match l with
  | [] => True
  | x :: l' => links m x = Some (p, first_or n l') /\ seg m (Some x) l' n
  end.

Definition SList_repr (m : mem) (s : SList) (l : list loc) : Prop :=
  seg m None l None /\ NoDup l /\ shead s = head l /\ stail s = last l /\
  scount s = Z.of_nat (length l) /\ Z.of_nat (length l) < 2 ^ 64.

Definition TSQueue_repr (m : mem) (q : TSQueue) (l : list loc) : Prop :=
  seg m None (qhead q :: l) None /\ NoDup (qhead q :: l) /\
  last (qhead q :: l) = Some (qtail q) /\
  qcount q = Z.of_nat (length l) /\ Z.of_nat (length l) < 2 ^ 64.

(** Nothing outside [l] changes. *)
Definition frame (l : list loc) (m m' : mem) : Prop :=
  forall y, y ∉ l -> hooks m' !! y = hooks m !! y.

Lemma links_upd f p m y :
  links (upd f p m) y =
    if decide (p = y) then (fun h => (prev (f h), next (f h))) <$> hooks m !! y else links m y.
Proof.
  unfold links, upd. simpl. rewrite lookup_alter. case_decide; [|done].
  subst. by rewrite <- option_fmap_compose.
Qed.

Lemma links_set_prev v p m y :
  links (set_prev v p m) y = if decide (p = y) then (fun l => (v, l.2)) <$> links m y else links m y.
Proof.
  unfold set_prev. rewrite links_upd. case_decide; [|done].
  unfold links. by rewrite <- option_fmap_compose.
Qed.
Lemma links_set_next v p m y :
  links (set_next v p m) y = if decide (p = y) then (fun l => (l.1, v)) <$> links m y else links m y.
Proof.
  unfold set_next. rewrite links_upd. case_decide; [|done].
  unfold links. by rewrite <- option_fmap_compose.
Qed.
Lemma links_set_check v p m y : links (set_check v p m) y = links m y.
Proof. unfold set_check. rewrite links_upd. by case_decide. Qed.
Lemma links_set_refs v p m y : links (set_refs v p m) y = links m y.
Proof. unfold set_refs. rewrite links_upd. by case_decide. Qed.
Lemma links_IncrementRef p m y : links (IncrementRef p m) y = links m y.
Proof. unfold IncrementRef. rewrite links_upd. by case_decide. Qed.
Lemma links_DecrementRef p m y : links (DecrementRef p m) y = links m y.
Proof.
  unfold DecrementRef. destruct (hooks m !! p); [|done].
  destruct (_ =? 0); [|apply links_set_refs].
  change (links (set_refs (refs t - 1) p m) y = links m y). apply links_set_refs.
Qed.
Create Rewrite HintDb links.
#[export] Hint Rewrite links_set_prev links_set_next links_set_check links_set_refs
  links_IncrementRef links_DecrementRef : links.

Lemma links_hook m p x : links m p = Some x -> exists h, hooks m !! p = Some h /\ prev h = x.1 /\ next h = x.2.
Proof. unfold links. destruct (hooks m !! p) as [h|]; simpl; intros; simplify_eq. eauto. Qed.

Lemma hooks_upd f p m : hooks (upd f p m) = alter f p (hooks m).
Proof. done. Qed.

(** *** Frames *)

Lemma frame_refl l m : frame l m m.
Proof. done. Qed.
Lemma frame_upd f p m m' l : p ∈ l -> frame l m m' -> frame l m (upd f p m').
Proof. intros Hp Hf y Hy. simpl. rewrite lookup_alter_ne by set_solver. by apply Hf. Qed.
Lemma frame_set_prev v p m m' l : p ∈ l -> frame l m m' -> frame l m (set_prev v p m').
Proof. apply frame_upd. Qed.
Lemma frame_set_next v p m m' l : p ∈ l -> frame l m m' -> frame l m (set_next v p m').
Proof. apply frame_upd. Qed.
Lemma frame_set_check v p m m' l : p ∈ l -> frame l m m' -> frame l m (set_check v p m').
Proof. apply frame_upd. Qed.
Lemma frame_IncrementRef p m m' l : p ∈ l -> frame l m m' -> frame l m (IncrementRef p m').
Proof. apply frame_upd. Qed.
Lemma frame_DecrementRef p m m' l : p ∈ l -> frame l m m' -> frame l m (DecrementRef p m').
Proof.
  intros Hp Hf. unfold DecrementRef. destruct (hooks m' !! p); [|done].
  pose proof (frame_upd (fun h => mkHook (prev h) (next h) (check_ h) (refs t - 1)) p m m' l Hp Hf).
  by destruct (_ =? 0).
Qed.
Lemma frame_mono l l' m m' : l ⊆ l' -> frame l m m' -> frame l' m m'.
Proof. intros Hs Hf y Hy. apply Hf. set_solver. Qed.
Lemma frame_links l m m' y : frame l m m' -> y ∉ l -> links m' y = links m y.
Proof. intros Hf Hy. unfold links. by rewrite Hf. Qed.
Create HintDb frames.
#[export] Hint Resolve frame_refl frame_set_prev frame_set_next frame_set_check
  frame_IncrementRef frame_DecrementRef : frames.

(** *** Chains *)

Lemma seg_frame m m' p l n :
  (forall x, x ∈ l -> links m' x = links m x) -> seg m p l n -> seg m' p l n.
Proof.
  revert p. induction l as [|x l IH]; intros p Hl; simpl; [done|].
  intros [Hx Hs]. split; [rewrite Hl by set_solver; done|].
  apply IH; [|done]. intros y Hy. apply Hl. set_solver.
Qed.

Lemma first_or_app d l1 l2 : first_or d (l1 ++ l2) = first_or (first_or d l2) l1.
Proof. by destruct l1. Qed.
Lemma last_or_cons d x l : last_or d (x :: l) = last_or (Some x) l.
Proof. unfold last_or. rewrite last_cons. by destruct (last l). Qed.
Lemma last_or_snoc d l x : last_or d (l ++ [x]) = Some x.
Proof. unfold last_or. by rewrite last_snoc. Qed.

Lemma seg_app m p l1 l2 n :
  seg m p (l1 ++ l2) n <-> seg m p l1 (first_or n l2) /\ seg m (last_or p l1) l2 n.
Proof.
  revert p. induction l1 as [|x l1 IH]; intros p; simpl.
  { tauto. }
  rewrite IH, first_or_app, last_or_cons. tauto.
Qed.

(** The last hook of a chain may be relinked. *)
Lemma seg_snoc m p l x n : seg m p (l ++ [x]) n <-> seg m p l (Some x) /\ links m x = Some (last_or p l, n).
Proof. rewrite seg_app. simpl. tauto. Qed.

Lemma seg_links m p l n x : seg m p l n -> x ∈ l -> is_Some (links m x).
Proof.
  revert p. induction l as [|y l IH]; intros p Hs Hx; [set_solver|].
  destruct Hs as [Hy Hs]. apply elem_of_cons in Hx as [->|Hx]; eauto.
Qed.

Lemma seg_cons m p x l n : seg m p (x :: l) n <-> links m x = Some (p, first_or n l) /\ seg m (Some x) l n.
Proof. done. Qed.
Lemma seg_nil m p n : seg m p [] n <-> True.
Proof. done. Qed.
#[global] Arguments seg : simpl never.

(** Compute the links of a hook after a sequence of updates. *)
Ltac links_simp :=
  autorewrite with links;
  repeat (first [ rewrite decide_True by done | rewrite decide_False by (set_solver || congruence || done) ]);
  simpl.

Lemma link_spec m p n a b :
  links m p = Some (a, None) -> links m n = Some (None, b) ->
  link p n m = Ret (set_prev (Some p) n (set_next (Some n) p m)).
Proof.
  intros (h & Hh & _ & Hn)%links_hook (h' & Hh' & Hp & _)%links_hook. simpl in *.
  unfold link, get_hook. rewrite Hh, Hh'. simpl.
  by rewrite !bool_decide_eq_true_2.
Qed.

Lemma get_hook_links m p x :
  links m p = Some x -> exists h, get_hook m p = Ret h /\ prev h = x.1 /\ next h = x.2.
Proof. intros (h & Hh & ?)%links_hook. exists h. unfold get_hook. by rewrite Hh. Qed.

Lemma tail_split {A} (L : list A) t : last L = Some t -> exists L', L = L' ++ [t].
Proof. intros [L' ->]%last_Some. eauto. Qed.

(** Joining two chains at their ends. *)
Lemma seg_join m L t y l2 :
  seg m None (L ++ [t]) None -> seg m None (y :: l2) None -> NoDup ((L ++ [t]) ++ y :: l2) ->
  let m' := set_prev (Some t) y (set_next (Some y) t m) in
  link t y m = Ret m' /\ seg m' None ((L ++ [t]) ++ y :: l2) None /\ frame [t; y] m m'.
Proof.
  intros [HL Ht]%seg_snoc [Hy Hl2]%seg_cons Hnd m'.
  apply NoDup_app in Hnd as (Hnd1 & Hdis & Hnd2).
  apply NoDup_app in Hnd1 as (HndL & HdL & _). apply NoDup_cons in Hnd2 as [Hny HndI].
  assert (t <> y) by (intros ->; apply (Hdis y); set_solver).
  split; [by eapply link_spec|]. split.
  - rewrite seg_app, seg_snoc. simpl first_or. rewrite last_or_snoc. split; [split|].
    + eapply seg_frame; [|exact HL]. intros x Hx. unfold m'.
      assert (x <> t) by set_solver. assert (x <> y) by set_solver. by links_simp.
    + unfold m'. links_simp. by rewrite Ht.
    + apply seg_cons. unfold m'. split; [links_simp; by rewrite Hy|].
      eapply seg_frame; [|exact Hl2]. intros x Hx.
      assert (x <> t) by (intros ->; apply (Hdis t); set_solver).
      assert (x <> y) by set_solver. by links_simp.
  - unfold m'. apply frame_set_prev; [set_solver|]. apply frame_set_next; [set_solver|done].
Qed.

Lemma seg_links_eq m m' p l n : (forall x, links m' x = links m x) -> seg m p l n -> seg m' p l n.
Proof. intros E. apply seg_frame. intros. apply E. Qed.

Lemma TSQueue_push_spec m q l p rc :
  TSQueue_repr m q l -> links m p = Some (None, None) -> p ∉ qhead q :: l ->
  Z.of_nat (length l) + 1 < 2 ^ 64 ->
  exists m', TSQueue_push q p rc m =
      Ret (Z.of_nat (S (length l)), with_tail p (Z.of_nat (S (length l))) q, m') /\
    TSQueue_repr m' (with_tail p (Z.of_nat (S (length l))) q) (l ++ [p]) /\
    frame [qtail q; p] m m'.
Proof.
  intros (Hseg & Hnd & Ht & Hc & Hlen) Hp Hnp Hmax.
  destruct (get_hook_links _ _ _ Hp) as (h & Hh & Hpr & Hnx). simpl in Hpr, Hnx.
  destruct (tail_split _ _ Ht) as [L HL].
  assert (NoDup ((L ++ [qtail q]) ++ p :: [])) as Hnd'.
  { rewrite <- HL. apply NoDup_app. split; [done|]. split; [set_solver|]. apply NoDup_singleton. }
  rewrite HL in Hseg.
  destruct (seg_join m L (qtail q) p [] Hseg (conj Hp I) Hnd') as (El & Hs & Hf).
  set (m1 := set_prev _ _ _) in *. clearbody m1.
  unfold TSQueue_push. rewrite Hh. simpl. rewrite Hpr, Hnx. simpl. rewrite El. simpl.
  unfold u64. rewrite (wrap_small 64 (qcount q + 1)) by (split; lia).
  replace (qcount q + 1) with (Z.of_nat (S (length l))) by lia.
  eexists. split; [reflexivity|]. split.
  - unfold TSQueue_repr. simpl. rewrite length_app. simpl. rewrite app_comm_cons, HL.
    split; [|split; [done|split; [by rewrite last_snoc|lia]]].
    apply seg_snoc in Hs as Hs'. destruct Hs' as [_ Hlp].
    eapply seg_links_eq; [|exact Hs]. intros x.
    destruct rc; autorewrite with links; (case_decide; [subst; by rewrite Hlp|done]).
  - assert (p ∈ [qtail q; p]) by (apply elem_of_cons; right; by apply list_elem_of_singleton).
    destruct rc; auto 10 with frames.
Qed.

(** *** Local updates of a chain *)

Lemma seg_set_next_other v x m p l n : x ∉ l -> seg m p l n -> seg (set_next v x m) p l n.
Proof.
  intros Hx. apply seg_frame. intros y Hy. rewrite links_set_next, decide_False; [done|].
  by intros ->.
Qed.
Lemma seg_set_prev_other v x m p l n : x ∉ l -> seg m p l n -> seg (set_prev v x m) p l n.
Proof.
  intros Hx. apply seg_frame. intros y Hy. rewrite links_set_prev, decide_False; [done|].
  by intros ->.
Qed.
Lemma seg_set_check v x m p l n : seg m p l n -> seg (set_check v x m) p l n.
Proof. apply seg_links_eq. intros. apply links_set_check. Qed.
Lemma seg_DecrementRef x m p l n : seg m p l n -> seg (DecrementRef x m) p l n.
Proof. apply seg_links_eq. intros. apply links_DecrementRef. Qed.
Lemma seg_IncrementRef x m p l n : seg m p l n -> seg (IncrementRef x m) p l n.
Proof. apply seg_links_eq. intros. apply links_IncrementRef. Qed.

Lemma seg_set_next_last v m p l z n :
  z ∉ l -> seg m p (l ++ [z]) n -> seg (set_next v z m) p (l ++ [z]) v.
Proof.
  intros Hz [Hl Hlz]%seg_snoc. apply seg_snoc. split; [by apply seg_set_next_other|].
  rewrite links_set_next, decide_True, Hlz by done. done.
Qed.
Lemma seg_set_prev_first v m p x l n :
  x ∉ l -> seg m p (x :: l) n -> seg (set_prev v x m) v (x :: l) n.
Proof.
  intros Hx [Hlx Hl]%seg_cons. apply seg_cons. split; [|by apply seg_set_prev_other].
  rewrite links_set_prev, decide_True, Hlx by done. done.
Qed.
Lemma seg_if_prev_first v m p l n :
  NoDup l -> seg m p l n -> seg (if_ptr (first_or None l) (set_prev v) m) v l n.
Proof.
  destruct l as [|x l]; simpl; [done|]. intros [? _]%NoDup_cons. by apply seg_set_prev_first.
Qed.
Lemma seg_if_prev_other v m p l l2 n :
  (forall x, x ∈ l2 -> x ∉ l) -> seg m p l n -> seg (if_ptr (first_or None l2) (set_prev v) m) p l n.
Proof.
  destruct l2 as [|x l2]; simpl; [done|]. intros H. apply seg_set_prev_other, H, elem_of_cons. by left.
Qed.

Ltac nodup_simp :=
  repeat match goal with
  | H : NoDup (_ :: _) |- _ => apply NoDup_cons in H as [? ?]
  | H : NoDup (_ ++ _) |- _ => apply NoDup_app in H as (? & ? & ?)
  end.

(** Not in a list, from the disjointness facts at hand. *)
Ltac notin :=
  repeat (rewrite ?not_elem_of_cons, ?not_elem_of_app in *); destruct_and?;
  repeat split; try done; try set_solver.

(** Taking the block [blk] out of a chain. *)
Lemma seg_unsplice m l1 a blk l2 :
  seg m None ((l1 ++ [a]) ++ blk ++ l2) None -> NoDup ((l1 ++ [a]) ++ blk ++ l2) ->
  let m' := if_ptr (first_or None l2) (set_prev (Some a)) (set_next (first_or None l2) a m) in
  seg m' None ((l1 ++ [a]) ++ l2) None /\ seg m' (Some a) blk (first_or None l2).
Proof.
  intros Hs Hnd m'. rewrite !seg_app, last_or_snoc in Hs. destruct Hs as (Hs1 & Hsb & Hs2).
  apply NoDup_app in Hnd as (Hn1 & Hd1 & Hn2). apply NoDup_app in Hn2 as (Hnb & Hd2 & Hn2).
  apply NoDup_app in Hn1 as (Hn1 & Ha & _).
  assert (a ∉ blk /\ a ∉ l2) as [Hab Ha2] by (specialize (Hd1 a); set_solver).
  assert (a ∉ l1) as Ha1 by set_solver.
  unfold m'. rewrite seg_app, last_or_snoc. split; [split|].
  - apply seg_if_prev_other; [set_solver|]. eapply seg_set_next_last; [done|].
    by apply seg_app.
  - eapply seg_if_prev_first; [done|]. by apply seg_set_next_other; [|exact Hs2].
  - apply seg_if_prev_other; [set_solver|]. by apply seg_set_next_other.
Qed.

(** Isolating a block whose neighbours no longer refer to it. *)
Lemma seg_isolate m p x l z n :
  NoDup l -> head l = Some x -> last l = Some z -> seg m p l n ->
  seg (set_prev None x (set_next None z m)) None l None.
Proof.
  intros Hnd Hx Hz Hs. destruct l as [|x' l]; [done|]. simplify_eq/=.
  apply NoDup_cons in Hnd as Hx. destruct Hx as [Hx _].
  eapply (seg_set_prev_first None _ p); [done|].
  apply last_Some in Hz as [l' E]. rewrite E in *. apply NoDup_app in Hnd as (_ & Hz & _).
  eapply seg_set_next_last; [|done]. intros H. apply (Hz z); [done|]. by apply list_elem_of_singleton.
Qed.
