(* ===== verification/TsQueueSpec.v ===== *)
(** What the operations of [TSQueue] and [SList] promise: each one acts on the list of
    elements its links represent, keeps the representation invariant, leaves every hook
    it does not own alone and fails none of its assertions. *)
From S2P Require Import Prelude TsQueue.
Local Open Scope Z_scope.

(** ** Helpers *)

Lemma get_links m p a b :
  links m p = Some (a, b) -> exists h, get_hook m p = Ret h /\ prev h = a /\ next h = b.
Proof. intros (h & ? & ? & ?)%get_hook_links. by exists h. Qed.

Lemma repr_intro m q l t c :
  seg m None (qhead q :: l) None -> NoDup (qhead q :: l) ->
  last (qhead q :: l) = Some t -> c = Z.of_nat (length l) -> Z.of_nat (length l) < 2 ^ 64 ->
  TSQueue_repr m (with_tail t c q) l.
Proof. done. Qed.

Lemma repr_head m q l :
  TSQueue_repr m q l -> exists h, get_hook m (qhead q) = Ret h /\ next h = first_or None l.
Proof. intros ([Hh _] & _)%id. apply get_links in Hh as (h & ? & ? & ?). by exists h. Qed.

Lemma repr_nil_iff m q l : TSQueue_repr m q l -> (qhead q = qtail q <-> l = []).
Proof.
  intros (_ & Hnd & Ht & _). destruct l as [|x l]; [by simplify_eq/=|].
  split; [|done]. intros E. rewrite E in *. rewrite last_cons_cons in Ht.
  apply last_Some_elem_of in Ht. by apply NoDup_cons in Hnd as [? _].
Qed.

Lemma repr_empty m q : TSQueue_repr m q [] -> qhead q = qtail q.
Proof. intros H. by apply (repr_nil_iff _ _ _ H). Qed.

(** The tail after the elements [blk] at the front are taken. *)
Lemma tail_after_front (d z t : loc) blk l2 :
  NoDup (d :: blk ++ l2) -> last blk = Some z -> last (d :: blk ++ l2) = Some t ->
  last (d :: l2) = Some (if decide (z = t) then d else t).
Proof.
  intros Hnd Hz Ht. destruct l2 as [|y l2].
  - rewrite app_nil_r, last_cons, Hz in Ht. simplify_eq/=. by rewrite decide_True.
  - rewrite last_cons, last_app_cons in Ht. rewrite last_cons_cons.
    destruct (last (y :: l2)) as [t'|] eqn:E; [|by apply last_None in E]. simplify_eq.
    rewrite decide_False; [done|]. intros ->.
    apply last_Some_elem_of in E, Hz. nodup_simp. naive_solver.
Qed.

(** Taking a block out of the middle of a queue. *)
Lemma repr_unsplice m q l1 a blk l2 :
  TSQueue_repr m q (l1 ++ blk ++ l2) -> last (qhead q :: l1) = Some a ->
  let m' := if_ptr (first_or None l2) (set_prev (Some a)) (set_next (first_or None l2) a m) in
  seg m' None (qhead q :: l1 ++ l2) None /\ seg m' (Some a) blk (first_or None l2).
Proof.
  intros (Hs & Hnd & _) [L HL]%tail_split m'.
  rewrite !app_comm_cons, HL in *. by apply seg_unsplice.
Qed.

Lemma repr_NoDup m q l : TSQueue_repr m q l -> NoDup (qhead q :: l).
Proof. by intros (_ & ? & _). Qed.

Lemma NoDup_remove_mid (d : loc) l1 blk l2 : NoDup (d :: l1 ++ blk ++ l2) -> NoDup (d :: l1 ++ l2).
Proof.
  intros H. apply (sublist_NoDup _ _ H). apply sublist_skip, sublist_app; [done|].
  by apply sublist_inserts_l.
Qed.

Lemma last_or_Some (d : loc) l : last_or (Some d) l = last (d :: l).
Proof. unfold last_or. rewrite last_cons. by destruct (last l). Qed.

Lemma last_tail_ne (d t : loc) l : last (d :: l) = Some t -> l <> [] -> last l = Some t.
Proof. destruct l; [done|]. by rewrite last_cons_cons. Qed.

(** *** Reference counts *)

Definition refc (m : mem) (p : loc) : option Z := refs <$> hooks m !! p.

Lemma refc_upd f p m y :
  (forall h, refs (f h) = refs h) -> refc (upd f p m) y = refc m y.
Proof.
  intros Hf. unfold refc, upd. simpl. rewrite lookup_alter. case_decide; [|done].
  subst. rewrite <- option_fmap_compose. apply option_fmap_ext. naive_solver.
Qed.
Lemma refc_set_prev v p m y : refc (set_prev v p m) y = refc m y.
Proof. by apply refc_upd. Qed.
Lemma refc_set_next v p m y : refc (set_next v p m) y = refc m y.
Proof. by apply refc_upd. Qed.
Lemma refc_set_check v p m y : refc (set_check v p m) y = refc m y.
Proof. by apply refc_upd. Qed.
Lemma refc_if_set_prev q v m y : refc (if_ptr q (set_prev v) m) y = refc m y.
Proof. destruct q; [apply refc_set_prev|done]. Qed.
Lemma refc_if_set_next q v m y : refc (if_ptr q (set_next v) m) y = refc m y.
Proof. destruct q; [apply refc_set_next|done]. Qed.
Lemma refc_DecrementRef p m y :
  refc (DecrementRef p m) y = if decide (p = y) then Z.pred <$> refc m y else refc m y.
Proof.
  unfold DecrementRef, refc. destruct (hooks m !! p) as [h|] eqn:E.
  - destruct (_ =? 0); simpl; rewrite lookup_alter; case_decide; subst; try done; by rewrite E.
  - case_decide; subst; [by rewrite E|done].
Qed.
Lemma refc_IncrementRef p m y :
  refc (IncrementRef p m) y = if decide (p = y) then Z.succ <$> refc m y else refc m y.
Proof.
  unfold IncrementRef, refc, upd. simpl. rewrite lookup_alter.
  case_decide; [|done]. subst. by destruct (hooks m !! y).
Qed.
Create Rewrite HintDb refc.
#[export] Hint Rewrite refc_set_prev refc_set_next refc_set_check refc_if_set_prev refc_if_set_next
  refc_DecrementRef refc_IncrementRef : refc.

(** An object is freed exactly when its count drops from one. *)
Lemma freed_DecrementRef p m :
  freed (DecrementRef p m) = freed m ++ (if decide (refc m p = Some 1) then [p] else []).
Proof.
  unfold DecrementRef, refc. destruct (hooks m !! p) as [h|]; simpl.
  - destruct (Z.eqb_spec (refs h - 1) 0); case_decide; simplify_eq/=; try done; try lia.
    + exfalso. apply H. f_equal. lia.
    + by rewrite app_nil_r.
  - by rewrite app_nil_r.
Qed.

(** *** Frames through conditional updates *)

Lemma frame_if_set_prev q v m m' l :
  (forall p, q = Some p -> p ∈ l) -> frame l m m' -> frame l m (if_ptr q (set_prev v) m').
Proof. destruct q; simpl; auto with frames. Qed.
Lemma frame_if_set_next q v m m' l :
  (forall p, q = Some p -> p ∈ l) -> frame l m m' -> frame l m (if_ptr q (set_next v) m').
Proof. destruct q; simpl; auto with frames. Qed.
#[export] Hint Resolve frame_if_set_prev frame_if_set_next : frames.

Lemma first_or_elem l p : first_or None l = Some p -> p ∈ l.
Proof. destruct l; simpl; [done|]. intros; simplify_eq. apply elem_of_cons. by left. Qed.

(** Membership side conditions of the frame rules. *)
Ltac in_list :=
  repeat match goal with
  | H : last _ = Some _ |- _ => apply last_Some_elem_of in H
  | H : head _ = Some _ |- _ => apply head_Some_elem_of in H
  end; first [intros ? ?%first_or_elem | intros ? ?%last_Some_elem_of | idtac]; set_solver.
Ltac frames :=
  repeat first
    [ apply frame_refl
    | apply frame_set_check; [in_list|] | apply frame_set_prev; [in_list|]
    | apply frame_set_next; [in_list|] | apply frame_IncrementRef; [in_list|]
    | apply frame_DecrementRef; [in_list|] | apply frame_if_set_prev; [in_list|]
    | apply frame_if_set_next; [in_list|] ].

(** ** Pops *)

Lemma count_sub (a b : nat) :
  (b <= a)%nat -> Z.of_nat a < 2 ^ 64 -> u64 (Z.of_nat a - Z.of_nat b) = Z.of_nat (a - b).
Proof. intros. unfold u64. rewrite wrap_small; [lia|split; lia]. Qed.

Lemma count_add (a b : nat) :
  Z.of_nat (a + b) < 2 ^ 64 -> u64 (Z.of_nat a + Z.of_nat b) = Z.of_nat (a + b).
Proof. intros. unfold u64. rewrite wrap_small; [lia|split; lia]. Qed.

Lemma TSQueue_pop_spec m q x l :
  TSQueue_repr m q (x :: l) ->
  exists t m', TSQueue_pop q m = Ret (Some x, with_tail t (Z.of_nat (length l)) q, m') /\
    TSQueue_repr m' (with_tail t (Z.of_nat (length l)) q) l /\
    links m' x = Some (None, None) /\ frame (qhead q :: x :: l) m m' /\
    (forall y, refc m' y = if decide (x = y) then Z.pred <$> refc m y else refc m y) /\
    freed m' = freed m ++ (if decide (refc m x = Some 1) then [x] else []).
Proof.
  intros Hr. pose proof Hr as (Hs & Hnd & Ht & Hc & Hlen).
  destruct (repr_head _ _ _ Hr) as (h & Eh & Hn).
  destruct (repr_unsplice m q [] (qhead q) [x] l Hr eq_refl) as [Hs' Hx].
  apply seg_cons in Hs as [_ [Hx0 _]%seg_cons]. destruct (get_links _ _ _ _ Hx0) as (hx & Ehx & _ & Hxn).
  unfold TSQueue_pop. rewrite decide_False by (intros E; by apply (repr_nil_iff _ _ _ Hr) in E).
  rewrite Eh. simpl. rewrite Hn. simpl. rewrite Ehx. simpl. rewrite Hxn.
  rewrite Hc. change 1 with (Z.of_nat 1) at 1. rewrite count_sub by (simpl in *; lia).
  simpl length. replace (S (length l) - 1)%nat with (length l) by lia.
  do 2 eexists. split; [reflexivity|]. split; [|split; [|split; [|split]]].
  - apply repr_intro; simpl in Hlen; try lia.
    + apply seg_DecrementRef, seg_set_check, seg_set_prev_other, seg_set_next_other, Hs'; nodup_simp; notin.
    + apply (NoDup_remove_mid _ [] [x] l), Hnd.
    + by apply (tail_after_front _ _ _ [x]).
  - apply seg_cons in Hx as [Hx _]. autorewrite with links. rewrite !decide_True by done. by rewrite Hx.
  - frames.
  - intros y. by autorewrite with refc.
  - rewrite freed_DecrementRef. autorewrite with refc. f_equal. by destruct l.
Qed.

(** A list handed out by the queue. *)
Lemma SList_repr_block m p blk n x z :
  seg m p blk n -> NoDup blk -> head blk = Some x -> last blk = Some z ->
  Z.of_nat (length blk) < 2 ^ 64 ->
  SList_repr (set_prev None x (set_next None z m))
    (mkSList (Some x) (Some z) (Z.of_nat (length blk))) blk.
Proof.
  intros Hs Hnd Hx Hz Hlen. split; [by eapply seg_isolate|]. by repeat split.
Qed.

Lemma walk_next_spec m n : forall p x l,
  seg m p (x :: l) None ->
  exists z, walk_next n x m = Ret (z, length (take n l)) /\ last (x :: take n l) = Some z.
Proof.
  induction n as [|n IH]; intros p x l Hs; simpl; [eauto|].
  apply seg_cons in Hs as [Hx Hs]. apply get_links in Hx as (h & -> & _ & Hn). simpl. rewrite Hn.
  destruct l as [|y l]; simpl; [eauto|].
  destruct (IH _ _ _ Hs) as (z & -> & Hz). exists z. split; [done|exact Hz].
Qed.

Lemma repr_ne m q x l : TSQueue_repr m q (x :: l) -> qhead q <> qtail q.
Proof. intros Hr E. by apply (repr_nil_iff _ _ _ Hr) in E. Qed.

Lemma repr_cons_links m q x l :
  TSQueue_repr m q (x :: l) -> seg m (Some (qhead q)) (x :: l) None.
Proof. intros ([_ ?]%seg_cons & _). done. Qed.

Lemma disjoint_mid (d : loc) l1 blk l2 y :
  NoDup (d :: l1 ++ blk ++ l2) -> y ∈ blk -> y ∉ d :: l1 ++ l2.
Proof.
  intros [Hd Hn]%NoDup_cons Hy. apply NoDup_app in Hn as (_ & H1 & H2).
  apply NoDup_app in H2 as (_ & H2 & _). specialize (H1 y). specialize (H2 y). set_solver.
Qed.

Lemma TSQueue_pop_front_spec m q x l n :
  TSQueue_repr m q (x :: l) ->
  let blk := x :: take (n - 1) l in
  let rest := drop (n - 1) l in
  exists t s m', TSQueue_pop_front q n m =
      Ret (s, with_tail t (Z.of_nat (length rest)) q, m') /\
    TSQueue_repr m' (with_tail t (Z.of_nat (length rest)) q) rest /\
    SList_repr m' s blk /\ frame (qhead q :: x :: l) m m' /\
    (forall y, refc m' y = refc m y) /\ freed m' = freed m.
Proof.
  intros Hr blk rest. pose proof Hr as (Hs & Hnd & Ht & Hc & Hlen).
  destruct (repr_head _ _ _ Hr) as (h & Eh & Hn).
  assert (x :: l = blk ++ rest) as E by (unfold blk, rest; rewrite <- app_comm_cons; f_equal; symmetry; apply take_drop).
  destruct (walk_next_spec _ (n - 1) _ _ _ (repr_cons_links _ _ _ _ Hr)) as (z & Ew & Hz).
  fold blk in Hz. pose proof (repr_ne _ _ _ _ Hr). rewrite E in Hr, Hnd, Ht.
  destruct (repr_unsplice m q [] (qhead q) blk rest Hr eq_refl) as [Hs' Hb].
  assert (exists lh, get_hook m z = Ret lh /\ next lh = first_or None rest) as (lh & Ez & Hzn).
  { apply last_Some in Hz as [b' Hb']. pose proof Hs as [_ Hs2]%seg_cons.
    rewrite E, seg_app in Hs2. destruct Hs2 as [Hs2 _]. rewrite Hb', seg_snoc in Hs2.
    destruct Hs2 as [_ Hs2]. apply get_links in Hs2 as (lh & ? & ? & ?). eauto. }
  unfold TSQueue_pop_front. rewrite decide_False by done.
  rewrite Eh. simpl. rewrite Hn. simpl. rewrite Ew. simpl. rewrite Ez. simpl. rewrite Hzn.
  assert (length (x :: l) = length (blk ++ rest)) as El by by rewrite E.
  rewrite length_app in El. simpl in El, Hlen. rewrite Hc. rewrite count_sub by (simpl; lia).
  simpl length. replace (S (length l) - S (length (take (n - 1) l)))%nat with (length rest) by lia.
  exists (if decide (z = qtail q) then qhead q else qtail q). do 2 eexists. split; [reflexivity|].
  pose proof (NoDup_remove_mid _ [] _ _ Hnd) as Hnd'.
  pose proof (disjoint_mid _ [] _ _ z Hnd) as Hz'. pose proof (disjoint_mid _ [] _ _ x Hnd) as Hx'.
  assert (z ∈ blk) as Hzb by by apply last_Some_elem_of.
  assert (x ∈ blk) as Hxb by (apply elem_of_cons; by left).
  split; [|split; [|split; [|split]]].
  - apply repr_intro; try done; [|by apply (tail_after_front _ _ _ blk)|lia].
    apply seg_set_prev_other, seg_set_next_other, Hs'; auto.
  - eapply (SList_repr_block _ _ blk); try done; [|change (length blk) with (S (length (take (n - 1) l))); lia].
    apply NoDup_cons in Hnd as [_ Hnd]. by apply NoDup_app in Hnd as (? & _).
  - rewrite E. frames.
  - intros y. by autorewrite with refc.
  - by destruct rest.
Qed.

Lemma walk_prev_spec m d n : forall l y q,
  seg m None (d :: l ++ [y]) q -> NoDup (d :: l ++ [y]) ->
  exists rest z b, l ++ [y] = rest ++ z :: b /\ walk_prev n d y m = Ret (z, length b) /\
    length b = (Nat.min n (length l))%nat.
Proof.
  induction n as [|n IH]; intros l y q Hs Hnd.
  { exists l, y, []. by split_and!. }
  rewrite app_comm_cons in Hs. apply seg_snoc in Hs as [Hs Hy]. rewrite last_or_cons in Hy.
  apply get_links in Hy as (h & Eh & Hp & _). simpl. rewrite Eh. simpl. rewrite Hp.
  destruct (decide (l = [])) as [->|Hl].
  { simpl. rewrite decide_True by done. exists [], y, []. by split_and!. }
  apply snoc_split in Hl as (l' & y' & ->). rewrite last_or_snoc.
  rewrite decide_False.
  2: { intros [= ->]. apply NoDup_cons in Hnd as [Hnd _]. apply Hnd. set_solver. }
  simpl. destruct (IH l' y' (Some y)) as (rest & z & b & E & Ew & Hb); [done| |].
  { rewrite app_comm_cons in Hnd. by apply NoDup_app in Hnd as (? & _). }
  rewrite Ew. exists rest, z, (b ++ [y]). split; [by rewrite E, <- app_assoc|].
  rewrite !length_app. cbn [length]. rewrite !Nat.add_1_r. split; [done|lia].
Qed.

Lemma TSQueue_pop_back_spec m q l n :
  TSQueue_repr m q l -> l <> [] ->
  exists rest blk t s m', l = rest ++ blk /\ length blk = Nat.max 1 (Nat.min n (length l)) /\
    TSQueue_pop_back q n m = Ret (s, with_tail t (Z.of_nat (length rest)) q, m') /\
    TSQueue_repr m' (with_tail t (Z.of_nat (length rest)) q) rest /\
    SList_repr m' s blk /\ frame (qhead q :: l) m m' /\
    (forall y, refc m' y = refc m y) /\ freed m' = freed m.
Proof.
  intros Hr Hl. pose proof Hr as (Hs & Hnd & Ht & Hc & Hlen).
  destruct (snoc_split l Hl) as (l' & y & ->). rewrite app_comm_cons, last_snoc in Ht.
  apply (inj Some) in Ht. subst y.
  destruct (walk_prev_spec m (qhead q) (n - 1) l' (qtail q) None Hs Hnd) as (rest & z & b & E & Ew & Hb).
  destruct (last (qhead q :: rest)) as [t|] eqn:Hlast; [|by apply last_None in Hlast].
  assert (last (z :: b) = Some (qtail q)) as Hzb.
  { rewrite <- (last_app_cons rest), <- E. by rewrite last_snoc. }
  assert (length (rest ++ z :: b) = S (length l')) as El by (rewrite <- E, length_app; simpl; lia).
  rewrite length_app in El. simpl in El.
  rewrite E in Hr, Hs, Hnd, Hc, Hlen |- *.
  exists rest, (z :: b), t, (mkSList (Some z) (Some (qtail q)) (Z.of_nat (S (length b)))).
  eexists. split; [done|]. split; [rewrite length_app; simpl; lia|].
  assert (exists fh, get_hook m z = Ret fh /\ prev fh = Some t) as (fh & Ez & Hzp).
  { apply seg_cons in Hs as [_ Hs]. rewrite seg_app in Hs. destruct Hs as [_ [Hs _]%seg_cons].
    apply get_links in Hs as (fh & ? & Hp & ?). exists fh. split; [done|]. rewrite Hp.
    by rewrite last_or_Some. }
  rewrite <- (app_nil_r (z :: b)) in Hr.
  destruct (repr_unsplice m q rest t (z :: b) [] Hr Hlast) as [Hs' Hb'].
  simpl in Hs', Hb'. rewrite app_nil_r in Hs'.
  unfold TSQueue_pop_back. rewrite decide_False.
  2: { intros Eq. apply (repr_nil_iff _ _ _ Hr) in Eq. by destruct rest. }
  rewrite Ew. simpl. rewrite Ez. simpl. rewrite Hzp. simpl. rewrite Hc.
  rewrite length_app in Hlen |- *. rewrite count_sub by (simpl in *; lia). simpl length.
  replace (length rest + S (length b) - S (length b))%nat with (length rest) by lia.
  split; [reflexivity|].
  assert (z ∉ qhead q :: rest) as Hz.
  { rewrite <- (app_nil_r rest). apply (disjoint_mid _ _ (z :: b)); [by rewrite app_nil_r|set_solver]. }
  split; [|split; [|split; [|split]]].
  - apply repr_intro; try done; [by apply seg_set_prev_other| |lia].
    rewrite <- (app_nil_r rest). eapply (NoDup_remove_mid _ _ (z :: b)). by rewrite app_nil_r.
  - pose proof Hnd as [_ Hnd']%NoDup_cons. apply NoDup_app in Hnd' as (_ & _ & Hnd').
    split; [|by repeat split; simpl in *; try lia].
    apply NoDup_cons in Hnd' as [? ?]. by eapply seg_set_prev_first.
  - frames.
  - intros y. by autorewrite with refc.
  - done.
Qed.

Lemma TSQueue_pop_all_spec m q x l :
  TSQueue_repr m q (x :: l) ->
  exists s m', TSQueue_pop_all q m = Ret (s, with_tail (qhead q) 0 q, m') /\
    TSQueue_repr m' (with_tail (qhead q) 0 q) [] /\ SList_repr m' s (x :: l) /\
    frame (qhead q :: x :: l) m m' /\ (forall y, refc m' y = refc m y) /\ freed m' = freed m.
Proof.
  intros Hr. pose proof (repr_ne _ _ _ _ Hr). pose proof Hr as (Hs & Hnd & Ht & Hc & Hlen).
  destruct (repr_head _ _ _ Hr) as (h & Eh & Hn).
  rewrite <- (app_nil_r (x :: l)) in Hr.
  destruct (repr_unsplice m q [] (qhead q) (x :: l) [] Hr eq_refl) as [Hs' Hb].
  rewrite <- (app_nil_r (x :: l)) in Hnd.
  pose proof (disjoint_mid _ [] _ _ (qtail q) Hnd) as Hz.
  pose proof (disjoint_mid _ [] _ _ x Hnd) as Hx.
  rewrite (app_nil_r (x :: l)) in Hnd.
  assert (qtail q ∈ x :: l) as Hq by (rewrite last_cons_cons in Ht; by apply last_Some_elem_of).
  assert (x ∈ x :: l) as Hxx by (apply elem_of_cons; by left).
  unfold TSQueue_pop_all. rewrite decide_False by done. rewrite Eh. simpl. rewrite Hn. simpl.
  do 2 eexists. split; [reflexivity|]. split; [|split; [|split; [|split]]].
  - apply repr_intro; try done; [|apply NoDup_singleton].
    apply seg_set_prev_other, seg_set_next_other, Hs'; auto.
  - rewrite Hc. eapply (SList_repr_block _ _ (x :: l)); try done. by apply NoDup_cons in Hnd as [_ ?].
  - frames.
  - intros y. by autorewrite with refc.
  - done.
Qed.

(** [erase] of a member: the other elements keep their order. *)
Lemma TSQueue_erase_spec m q l1 p l2 check rc h :
  TSQueue_repr m q (l1 ++ p :: l2) -> hooks m !! p = Some h ->
  (check = true -> check_ h = qcheck q) ->
  exists t m', TSQueue_erase q p check rc m =
      Ret (true, with_tail t (Z.of_nat (length (l1 ++ l2))) q, m') /\
    TSQueue_repr m' (with_tail t (Z.of_nat (length (l1 ++ l2))) q) (l1 ++ l2) /\
    links m' p = Some (None, None) /\ frame (qhead q :: l1 ++ p :: l2) m m' /\
    (forall y, refc m' y = if decide (rc = true /\ p = y) then Z.pred <$> refc m y else refc m y).
Proof.
  intros Hr Hh Hck. pose proof Hr as (Hs & Hnd & Ht & Hc & Hlen).
  destruct (last (qhead q :: l1)) as [a|] eqn:Ha; [|by apply last_None in Ha].
  destruct (repr_unsplice m q l1 a [p] l2 Hr Ha) as [Hs' Hb].
  rewrite app_comm_cons, seg_app in Hs. destruct Hs as [_ [Hp _]%seg_cons].
  rewrite <- last_or_Some in Ha. rewrite last_or_cons, Ha in Hp. rewrite last_or_Some in Ha.
  assert (Hp' := Hp). apply get_links in Hp' as (h' & Eh & Hpp & Hpn).
  assert (get_hook m p = Ret h) as Eg by (unfold get_hook; by rewrite Hh).
  rewrite Eg in Eh. injection Eh as <-. unfold TSQueue_erase. rewrite Eg. cbn [mbind res_bind].
  replace (check && negb (bool_decide (check_ h = qcheck q)))%bool with false.
  2: { symmetry. destruct check; [|done]. rewrite (bool_decide_eq_true_2 _ (Hck eq_refl)). done. }
  rewrite Hpp, Hpn. rewrite (bool_decide_eq_true_2 (is_Some (Some a))) by by eexists.
  assert (l2 = [] -> p = qtail q) as Htail.
  { intros ->. rewrite app_comm_cons, last_snoc in Ht. congruence. }
  assert (p = qtail q \/ is_Some (first_or None l2)) as Hor by (destruct l2; [auto|right; by eexists]).
  rewrite (bool_decide_eq_true_2 _ Hor).
  assert (last (qhead q :: l1 ++ l2) = Some (match l2 with [] => a | _ => qtail q end)) as Ht'.
  { destruct l2 as [|y l2]; [by rewrite app_nil_r|].
    rewrite !app_comm_cons, last_app_cons, <- Ht. rewrite app_comm_cons, last_app_cons.
    by rewrite last_cons_cons. }
  apply seg_cons in Hb as [Hb _].
  set (m1 := if_ptr (first_or None l2) _ _) in *.
  change (if_ptr (Some a) (set_next (first_or None l2)) m) with (set_next (first_or None l2) a m).
  fold m1. cbn [assert_ mbind res_bind].
  rewrite length_app in Hc, Hlen. cbn [length] in Hc, Hlen.
  rewrite (proj2 (Z.ltb_lt 0 (qcount q))) by lia.
  replace (qcount q - 1) with (Z.of_nat (length (l1 ++ l2))) by (rewrite length_app; lia).
  pose proof (disjoint_mid _ _ [p] _ p Hnd ltac:(set_solver)) as Hpo.
  exists (match l2 with [] => a | _ => qtail q end), 
    (if rc then DecrementRef p (set_check None p (set_prev None p (set_next None p m1)))
     else set_check None p (set_prev None p (set_next None p m1))).
  split; [|split; [|split; [|split]]].
  - destruct l2 as [|y l2]; [|done]. cbn [first_or]. rewrite decide_True by auto.
    apply get_links in Hb as (hp & Ehp & Ehpp & _). rewrite <- Htail, Ehp by done.
    cbn [mbind res_bind]. by rewrite Ehpp.
  - apply repr_intro; [|by eapply (NoDup_remove_mid _ _ [p])|done|done|rewrite length_app; lia].
    destruct rc; [apply seg_DecrementRef|]; by apply seg_set_check, seg_set_prev_other, seg_set_next_other.
  - destruct rc; autorewrite with links; rewrite !decide_True by done; by rewrite Hb.
  - assert (a ∈ qhead q :: l1) by by apply last_Some_elem_of.
    destruct rc; unfold m1; frames.
  - intros y. unfold m1. destruct rc; autorewrite with refc.
    + repeat case_decide; naive_solver.
    + rewrite decide_False by naive_solver. done.
Qed.

(** A hook whose [check_] is not the queue's is left alone when the caller asks. *)
Lemma TSQueue_erase_check_fail m q p rc h :
  hooks m !! p = Some h -> check_ h <> qcheck q -> TSQueue_erase q p true rc m = Ret (false, q, m).
Proof.
  intros Hh Hck. unfold TSQueue_erase, get_hook. rewrite Hh. simpl.
  by rewrite bool_decide_eq_false_2.
Qed.

(** ** Pushing a list *)

Lemma TSQueue_push_list_spec m q l s l2 :
  TSQueue_repr m q l -> SList_repr m s l2 -> NoDup (qhead q :: l ++ l2) ->
  Z.of_nat (length l + length l2) < 2 ^ 64 ->
  exists t m', TSQueue_push_list q s m =
      Ret (with_tail t (Z.of_nat (length (l ++ l2))) q, slist_nil, m') /\
    TSQueue_repr m' (with_tail t (Z.of_nat (length (l ++ l2))) q) (l ++ l2) /\
    frame (qhead q :: l ++ l2) m m' /\ (forall y, refc m' y = refc m y).
Proof.
  intros Hr Hs2 Hnd Hlen. pose proof Hr as (Hs & _ & Ht & Hc & _).
  destruct s as [sh st sc]. destruct Hs2 as (Hs2 & Hnd2 & Esh & Est & Esc & _). simpl in Esh, Est, Esc.
  subst sh st sc. destruct l2 as [|y l2].
  { rewrite app_nil_r in *. exists (qtail q), m. rewrite <- Hc. destruct q. by split_and!. }
  destruct (last (y :: l2)) as [z|] eqn:Hz; [|by apply last_None in Hz].
  destruct (tail_split _ _ Ht) as [L HL]. rewrite app_comm_cons, HL in Hnd.
  pose proof Hs as Hs1. rewrite HL in Hs1.
  destruct (seg_join m L (qtail q) y l2 Hs1 Hs2 Hnd) as (El & Hj & Hf).
  rewrite <- HL, <- app_comm_cons in Hj, Hnd.
  assert (exists hy, get_hook m y = Ret hy /\ prev hy = None) as (hy & Ey & Hy).
  { apply seg_cons in Hs2 as [Hy _]. apply get_links in Hy as (hy & ? & ? & ?). eauto. }
  assert (exists hz, get_hook m z = Ret hz /\ next hz = None) as (hz & Ez & Hzn).
  { apply last_Some in Hz as [b Hb]. rewrite Hb, seg_snoc in Hs2. destruct Hs2 as [_ Hz].
    apply get_links in Hz as (hz & ? & ? & ?). eauto. }
  unfold TSQueue_push_list. cbn [SList_empty shead head stail scount SList_size].
  change (SList_empty _) with false. cbn [deref mbind res_bind].
  rewrite Ey. cbn [mbind res_bind]. rewrite Ez. cbn [mbind res_bind]. rewrite Hy, Hzn, !bool_decide_eq_true_2 by done.
  cbn [assert_ mbind res_bind]. rewrite El. cbn [mbind res_bind]. rewrite Hc, count_add, <- length_app by done.
  do 2 eexists. split; [reflexivity|]. split; [|split].
  - apply repr_intro; try done; [|rewrite length_app; done].
    by rewrite app_comm_cons, last_app_cons.
  - eapply frame_mono; [|exact Hf]. apply last_Some_elem_of in Ht. set_solver.
  - intros x. by autorewrite with refc.
Qed.

(** ** [SList] *)

Lemma SList_NoDup m s l : SList_repr m s l -> NoDup l.
Proof. by intros (_ & ? & _). Qed.

Lemma SList_append_spec m s o l l2 :
  SList_repr m s l -> SList_repr m o l2 -> NoDup (l ++ l2) ->
  Z.of_nat (length l + length l2) < 2 ^ 64 ->
  exists s' m', SList_append s o m = Ret (s', slist_nil, m') /\ SList_repr m' s' (l ++ l2) /\
    frame (l ++ l2) m m' /\ (forall y, refc m' y = refc m y).
Proof.
  intros (Hs & Hnd1 & Eh & Et & Ec & Hl) (Hs2 & Hnd2 & Eh2 & Et2 & Ec2 & Hl2) Hnd Hlen.
  destruct s as [h t c], o as [h2 t2 c2]. simpl in *. subst. unfold SList_append.
  destruct l2 as [|y l2].
  { rewrite app_nil_r. eexists _, m. split; [reflexivity|]. by split_and!. }
  change (SList_empty (mkSList (head (y :: l2)) _ _)) with false. cbn [mbind res_bind].
  destruct l as [|x l]; [eexists _, m; split; [reflexivity|]; by split_and!|].
  change (SList_empty (mkSList (head (x :: l)) _ _)) with false.
  destruct (last (x :: l)) as [t|] eqn:Ht; [|by apply last_None in Ht].
  destruct (tail_split _ _ Ht) as [L HL]. pose proof Hs as Hs1. rewrite HL in Hs1. rewrite HL in Hnd.
  destruct (seg_join m L t y l2 Hs1 Hs2 Hnd) as (El & Hj & Hf).
  cbn [shead stail scount deref mbind res_bind head]. rewrite El. cbn [mbind res_bind].
  rewrite <- HL in Hj, Hnd. rewrite count_add by done.
  do 2 eexists. split; [reflexivity|]. split; [|split].
  - split_and!; try done; simpl; rewrite ?length_app; try done.
    by rewrite app_comm_cons, last_app_cons.
  - eapply frame_mono; [|exact Hf]. apply last_Some_elem_of in Ht. set_solver.
  - intros z. by autorewrite with refc.
Qed.

Lemma advance_spec m k : forall p l1 x l2 n,
  seg m p (l1 ++ x :: l2) n -> length l1 = k ->
  forall y, head (l1 ++ [x]) = Some y -> advance k y m = Ret x.
Proof.
  induction k as [|k IH]; intros p l1 x l2 n Hs Hk y Hy.
  - destruct l1; [|done]. by simplify_eq/=.
  - destruct l1 as [|z l1]; [done|]. simplify_eq/=.
    apply seg_cons in Hs as [Hy Hs]. apply get_links in Hy as (h & -> & _ & Hn). simpl. rewrite Hn.
    destruct l1 as [|z l1]; simpl; by eapply IH.
Qed.

(** [cut(n)] splits the list after its [n] first elements. *)
Lemma SList_cut_spec m s l n :
  SList_repr m s l ->
  exists o s' m', SList_cut s n m = Ret (o, s', m') /\
    SList_repr m' o (take n l) /\ SList_repr m' s' (drop n l) /\
    frame l m m' /\ (forall y, refc m' y = refc m y).
Proof.
  intros Hr. pose proof Hr as (Hs & Hnd & Eh & Et & Ec & Hl).
  assert (SList_repr m slist_nil []) as Hnil by (split_and!; try done; constructor).
  unfold SList_cut, SList_empty. destruct l as [|x0 l0] eqn:El.
  { simpl in Eh. rewrite Eh, bool_decide_eq_true_2 by done. rewrite take_nil, drop_nil.
    exists slist_nil, s, m. by split_and!. }
  rewrite <- El in *. assert (head l = Some x0) as Hx0 by by rewrite El. clear El.
  rewrite Eh, Hx0, bool_decide_eq_false_2 by done. rewrite Ec.
  destruct (Z.leb_spec (Z.of_nat (length l)) (Z.of_nat n)).
  { rewrite take_ge, drop_ge by lia. exists s, slist_nil, m. by split_and!. }
  destruct (Nat.eqb_spec n 0) as [->|Hn].
  { rewrite take_0, drop_0. exists slist_nil, s, m. by split_and!. }
  destruct (list_split_at l n) as (l1 & l2 & E & Hl1); [lia|].
  destruct (snoc_split l1) as (L & z & ->); [by intros ->|].
  destruct l2 as [|y l2]; [rewrite app_nil_r in E; subst; lia|].
  assert (take n l = L ++ [z] /\ drop n l = y :: l2) as [-> ->].
  { rewrite E, <- Hl1. by rewrite take_app_length, drop_app_length. }
  pose proof Hs as Hs0. rewrite E, seg_app, seg_snoc in Hs0. destruct Hs0 as ([_ Hz] & Hs2).
  rewrite last_or_snoc in Hs2. pose proof Hs2 as [Hy _]%seg_cons. simpl in Hz.
  cbn [deref mbind res_bind]. rewrite (advance_spec m (n - 1) None L z (y :: l2) None).
  2: by rewrite <- (app_assoc L [z]) in E; simpl in E; rewrite <- E.
  2: rewrite length_app in Hl1; simpl in Hl1; lia.
  2: { rewrite E in Hx0. by destruct L. }
  apply get_links in Hz as Hz'. destruct Hz' as (hz & Ehz & _ & Hzn).
  apply get_links in Hy as Hy'. destruct Hy' as (hy & Ehy & Hyp & _).
  cbn [mbind res_bind]. rewrite Ehz. cbn [mbind res_bind]. rewrite Hzn. cbn [deref mbind res_bind].
  unfold unlink. rewrite Ehz, Ehy. cbn [mbind res_bind]. rewrite Hzn, Hyp, !bool_decide_eq_true_2 by done.
  cbn [assert_ mbind res_bind]. do 3 eexists. split; [reflexivity|].
  rewrite E in Hnd, Hl. apply NoDup_app in Hnd as Hnd'. destruct Hnd' as (Hn1 & Hd & Hn2).
  assert (y ∉ L ++ [z]) as HyL by (intros Hi; apply (Hd _ Hi); set_solver).
  assert (z ∉ y :: l2) as Hzl by (apply Hd; set_solver).
  split; [|split; [|split]].
  - split_and!; try done; simpl; [| |by rewrite last_snoc|by rewrite Hl1|rewrite length_app in Hl; lia].
    + apply seg_set_prev_other; [done|]. rewrite E, seg_app in Hs. destruct Hs as [Hs _].
      eapply seg_set_next_last; [|exact Hs]. by apply NoDup_app in Hn1 as (_ & H1 & _); set_solver.
    + rewrite <- Hx0, E. by destruct L.
  - rewrite <- Hl1. rewrite E, (length_app (L ++ [z])), count_sub by (rewrite ?length_app in *; lia).
    rewrite Nat.add_comm, Nat.add_sub. split_and!; try done; simpl.
    + eapply seg_set_prev_first; [by apply NoDup_cons in Hn2 as [? _]|]. by apply seg_set_next_other.
    + by rewrite Et, E, last_app_cons.
    + rewrite length_app in Hl. simpl in *. lia.
  - rewrite E. frames.
  - intros x. by autorewrite with refc.
Qed.

(** Removing one hook from a chain with null ends. *)
Lemma seg_remove m l1 p l2 :
  seg m None (l1 ++ p :: l2) None -> NoDup (l1 ++ p :: l2) ->
  let m1 := if_ptr (last l1) (set_next (first_or None l2)) m in
  let m2 := if_ptr (first_or None l2) (set_prev (last l1)) m1 in
  seg m2 None (l1 ++ l2) None /\ links m p = Some (last l1, first_or None l2) /\
  links m1 p = links m p /\ links m2 p = links m p.
Proof.
  intros Hs Hnd m1 m2. pose proof Hs as Hs0. rewrite seg_app in Hs0. destruct Hs0 as [_ [Hp Hl2]%seg_cons].
  assert (links m p = Some (last l1, first_or None l2)) as Hlp.
  { rewrite Hp. unfold last_or. by destruct (last l1). }
  apply NoDup_app in Hnd as Hnd'. destruct Hnd' as (Hn1 & Hd & [Hp2 Hn2]%NoDup_cons).
  destruct (decide (l1 = [])) as [->|Hl1].
  - unfold m2, m1. cbn [app last if_ptr]. split; [by eapply seg_if_prev_first|].
    split; [done|]. split; [done|]. destruct l2 as [|y l2]; [done|].
    cbn [first_or if_ptr]. rewrite links_set_prev, decide_False; set_solver.
  - destruct (snoc_split l1 Hl1) as (L & a & ->). unfold m2, m1. rewrite last_snoc in *. cbn [if_ptr].
    split; [by apply (seg_unsplice m L a [p] l2)|]. split; [done|].
    assert (a <> p) as Hap by (specialize (Hd a); set_solver).
    rewrite links_set_next, decide_False by done. split; [done|].
    destruct l2 as [|y l2]; cbn [first_or if_ptr]; autorewrite with links;
      rewrite !decide_False; set_solver.
Qed.

Lemma head_first_or (l : list loc) : head l = first_or None l.
Proof. by destruct l. Qed.

Lemma SList_erase_spec m s l1 p l2 :
  SList_repr m s (l1 ++ p :: l2) ->
  exists s' m', SList_erase s p m = Ret (s', m') /\ SList_repr m' s' (l1 ++ l2) /\
    links m' p = Some (None, None) /\ frame (l1 ++ p :: l2) m m' /\
    (forall y, refc m' y = if decide (p = y) then Z.pred <$> refc m y else refc m y).
Proof.
  intros (Hs & Hnd & Eh & Et & Ec & Hl).
  destruct (seg_remove _ _ _ _ Hs Hnd) as (Hs2 & Hlp & Hlp1 & Hlp2).
  assert (p ∉ l1 ++ l2) as Hp.
  { apply NoDup_app in Hnd as (_ & Hd & [? _]%NoDup_cons). specialize (Hd p). set_solver. }
  rewrite Hlp in Hlp1, Hlp2. apply get_links in Hlp as (h & Eg & Hpv & Hnx).
  apply get_links in Hlp1 as (h1 & Eg1 & Hpv1 & Hnx1).
  set (m1 := if_ptr (last l1) _ _) in *. set (m2 := if_ptr (first_or None l2) _ _) in *.
  rewrite length_app in Ec, Hl. cbn [length] in Ec, Hl.
  assert (u64 (scount s - 1) = Z.of_nat (length (l1 ++ l2))) as Ec'.
  { rewrite Ec. change 1 with (Z.of_nat 1). rewrite count_sub, length_app by lia. f_equal. lia. }
  unfold SList_erase. rewrite Eg. cbn [mbind res_bind]. rewrite Hpv, Hnx.
  exists (mkSList (head (l1 ++ l2)) (last (l1 ++ l2)) (Z.of_nat (length (l1 ++ l2)))).
  exists (DecrementRef p (set_prev None p (set_next None p m2))).
  split; [|split; [|split; [|split]]].
  - assert ((match last l1 with
       | Some q => Ret (shead s, set_next (first_or None l2) q m)
       | None => hd ← deref (shead s); hh ← get_hook m hd; Ret (next hh, m) end)
       = Ret (head (l1 ++ l2), m1)) as ->.
    { unfold m1. destruct l1 as [|x l1]; [|rewrite last_cons, Eh; by destruct (last l1)].
      rewrite Eh. simpl. rewrite Eg. simpl. by rewrite Hnx, head_first_or. }
    cbn [mbind res_bind].
    assert ((match first_or None l2 with
       | Some q => Ret (stail s, set_prev (last l1) q m1)
       | None => tl ← deref (stail s); th ← get_hook m1 tl; Ret (prev th, m1) end)
       = Ret (last (l1 ++ l2), m2)) as ->.
    { unfold m2. destruct l2 as [|y l2]; simpl.
      - rewrite Et, last_snoc, app_nil_r. simpl. rewrite Eg1. simpl. by rewrite Hpv1.
      - rewrite Et. rewrite !last_app_cons. by rewrite last_cons_cons. }
    cbn [mbind res_bind]. by rewrite Ec'.
  - split_and!; try done; [|apply (sublist_NoDup _ _ Hnd), sublist_app; [done|by apply sublist_cons]|
      rewrite length_app; lia].
    by apply seg_DecrementRef, seg_set_prev_other, seg_set_next_other.
  - autorewrite with links. rewrite !decide_True by done. by rewrite Hlp2.
  - unfold m2, m1. frames.
  - intros y. unfold m2, m1. by autorewrite with refc.
Qed.

(** [clear] erases from the front, following the successor saved before each erasure. *)
Lemma SList_clear_loop_spec fuel : forall m s l,
  SList_repr m s l -> (length l <= fuel)%nat ->
  exists s' m', SList_clear_loop fuel (shead s) s m = Ret (s', m') /\ frame l m m' /\
    (forall y, refc m' y = if decide (y ∈ l) then Z.pred <$> refc m y else refc m y) /\
    (forall y, y ∈ l -> links m' y = Some (None, None)).
Proof.
  induction fuel as [|fuel IH]; intros m s l Hr Hf.
  - destruct l as [|p l]; [|simpl in Hf; lia].
    exists s, m. simpl. split_and!; try done; intros y; rewrite ?decide_False by set_solver; set_solver.
  - pose proof Hr as (Hs & Hnd & Eh & _). destruct l as [|p l].
    { exists s, m. simpl in Eh. simpl. rewrite Eh.
      split_and!; try done; intros y; rewrite ?decide_False by set_solver; set_solver. }
    destruct (SList_erase_spec m s [] p l Hr) as (s1 & m1 & Ee & Hr1 & Hp & Hf1 & Hc1).
    simpl in Eh. simpl. rewrite Eh.
    apply seg_cons in Hs as [Hlp _]. apply get_links in Hlp as (h & -> & _ & Hn). cbn [mbind res_bind].
    rewrite Ee. cbn [mbind res_bind]. simpl in Hr1, Hf.
    assert (next h = shead s1) as -> by (rewrite Hn; destruct Hr1 as (_ & _ & -> & _); by destruct l).
    destruct (IH m1 s1 l Hr1) as (s' & m' & -> & Hf' & Hc' & Hl'); [lia|].
    apply NoDup_cons in Hnd as [Hpl Hnd]. exists s', m'. split; [done|]. split; [|split].
    + intros y Hy. rewrite Hf' by set_solver. apply Hf1. set_solver.
    + intros y. rewrite Hc', Hc1. destruct (decide (y ∈ l)).
      * rewrite (decide_True (P := y ∈ p :: l)) by set_solver. by rewrite decide_False by naive_solver.
      * destruct (decide (p = y)); [rewrite decide_True by set_solver|rewrite decide_False by set_solver]; done.
    + intros y Hy. apply elem_of_cons in Hy as [->|Hy]; [|by apply Hl'].
      by rewrite (frame_links _ _ _ _ Hf' Hpl).
Qed.

(** ** Destruction *)

Lemma TSQueue_destroy_loop_spec fuel : forall m hd tl l n,
  seg m None (hd :: l) n -> NoDup (hd :: l) -> last (hd :: l) = Some tl -> (length l <= fuel)%nat ->
  exists m', TSQueue_destroy_loop fuel hd tl m = Ret m' /\ frame l m m' /\
    (forall y, links m' y = links m y) /\
    (forall y, refc m' y = if decide (y ∈ l) then Z.pred <$> refc m y else refc m y).
Proof.
  induction fuel as [|fuel IH]; intros m hd tl l n Hs Hnd Ht Hf.
  - destruct l; [|simpl in Hf; lia]. simplify_eq/=. destruct (decide _) as [_|]; [|done].
    exists m. by split_and!.
  - destruct (decide (l = [])) as [->|Hl].
    { simplify_eq/=. destruct (decide _) as [_|]; [|done].
      exists m. by split_and!. }
    destruct (snoc_split l Hl) as (l' & z & ->). rewrite app_comm_cons, last_snoc in Ht. simplify_eq.
    rewrite app_comm_cons in Hs. pose proof Hs as [Hs' Hz]%seg_snoc.
    rewrite last_or_cons, last_or_Some in Hz.
    destruct (last (hd :: l')) as [a|] eqn:Ha; [|by apply last_None in Ha].
    apply get_links in Hz as (hz & Ez & Hzp & _).
    rewrite app_comm_cons in Hnd. apply NoDup_app in Hnd as (Hnd' & Hd & _).
    assert (tl ∉ hd :: l') as Htl by (intros Hi; apply (Hd tl Hi); set_solver).
    simpl. rewrite decide_False by (intros ->; set_solver). rewrite Ez. simpl. rewrite Hzp. simpl.
    rewrite length_app in Hf. simpl in Hf.
    destruct (IH (DecrementRef tl m) hd a l' (Some tl)) as (m' & -> & Hf' & Hl' & Hc');
      [by apply seg_DecrementRef|done|done|lia|].
    exists m'. split; [done|]. split; [|split].
    + intros y Hy. rewrite Hf' by set_solver. apply (frame_DecrementRef tl m m [tl]); [set_solver|apply frame_refl|set_solver].
    + intros y. by rewrite Hl', links_DecrementRef.
    + intros y. rewrite Hc', refc_DecrementRef. destruct (decide (tl = y)) as [->|].
      * rewrite decide_False by set_solver. by rewrite decide_True by set_solver.
      * destruct (decide (y ∈ l')); [rewrite decide_True by set_solver|rewrite decide_False by set_solver]; done.
Qed.

(** ** Refinement: sequences of calls

    The abstract queue is the list of its elements and the set of objects that are in no
    list, which are the ones a client may push. *)

Inductive qcall :=
| CPush (p : loc) | CPop | CPopFront (n : nat) | CPopBack (n : nat) | CPopAll
| CErase (p : loc).

(** The elements of a list handed to the client, read through its links. *)
Fixpoint chain (n : nat) (p : option loc) (m : mem) : list loc :=
  match n, p with
  | S n, Some x => x :: match hooks m !! x with Some h => chain n (next h) m | None => [] end
  | _, _ => []
  end.
Definition elems (s : SList) (m : mem) : list loc := chain (Z.to_nat (scount s)) (shead s) m.

Definition run_call (c : qcall) (q : TSQueue) (m : mem) : res (list loc * TSQueue * mem) :=
  match c with
  | CPush p => '(_, q, m) ← TSQueue_push q p true m; Ret ([], q, m)
  | CPop => '(o, q, m) ← TSQueue_pop q m; Ret (option_list o, q, m)
  | CPopFront n => '(s, q, m) ← TSQueue_pop_front q n m; Ret (elems s m, q, m)
  | CPopBack n => '(s, q, m) ← TSQueue_pop_back q n m; Ret (elems s m, q, m)
  | CPopAll => '(s, q, m) ← TSQueue_pop_all q m; Ret (elems s m, q, m)
  | CErase p => '(b, q, m) ← TSQueue_erase q p false true m; Ret (if b : bool then [p] else [], q, m)
  end.

Fixpoint run_calls (cs : list qcall) (q : TSQueue) (m : mem) : res (list (list loc) * TSQueue * mem) :=
  match cs with
  | [] => Ret ([], q, m)
  | c :: cs =>
      '(o, q, m) ← run_call c q m;
      '(os, q, m) ← run_calls cs q m;
      Ret (o :: os, q, m)
  end.

(** What a call takes out, and the elements and loose objects after it. *)
Definition spec_call (c : qcall) (st : list loc * list loc) : option (list loc * (list loc * list loc)) :=
  let '(l, loose) := st in
  match c with
  | CPush p =>
      if decide (p ∈ loose /\ Z.of_nat (length l) + 1 < 2 ^ 64)
      then Some ([], (l ++ [p], filter (.≠ p) loose)) else None
  | CPop => Some (take 1 l, (drop 1 l, take 1 l ++ loose))
  | CPopFront n => let k := Nat.max 1 n in Some (take k l, (drop k l, loose))
  | CPopBack n => let k := (length l - Nat.max 1 n)%nat in Some (drop k l, (take k l, loose))
  | CPopAll => Some (l, ([], loose))
  | CErase p =>
      if decide (p ∈ l) then Some ([p], (filter (.≠ p) l, p :: loose)) else None
  end.

Fixpoint spec_calls (cs : list qcall) (st : list loc * list loc)
    : option (list (list loc) * (list loc * list loc)) :=
  match cs with
  | [] => Some ([], st)
  | c :: cs =>
      '(o, st) ← spec_call c st;
      '(os, st) ← spec_calls cs st;
      Some (o :: os, st)
  end.

(** The concrete queue represents the abstract one. *)
Definition queue_rel (q : TSQueue) (m : mem) (st : list loc * list loc) : Prop :=
  TSQueue_repr m q st.1 /\ (forall p, p ∈ st.2 -> links m p = Some (None, None) /\ p ∉ qhead q :: st.1).

Lemma chain_seg m : forall l p, seg m p l None -> chain (length l) (first_or None l) m = l.
Proof.
  induction l as [|x l IH]; intros p Hs; [done|]. simpl.
  apply seg_cons in Hs as [Hx Hs]. apply links_hook in Hx as (h & -> & _ & Hn). simpl in Hn.
  rewrite Hn. f_equal. by eapply IH.
Qed.

Lemma elems_repr m s l : SList_repr m s l -> elems s m = l.
Proof.
  intros (Hs & _ & Hh & _ & Hc & _). unfold elems. rewrite Hc, Hh, Nat2Z.id, head_first_or.
  by eapply chain_seg.
Qed.

Lemma loose_frame q m m' (l loose L : list loc) :
  (forall p, p ∈ loose -> links m p = Some (None, None) /\ p ∉ qhead q :: l) ->
  frame L m m' -> L ⊆ qhead q :: l ->
  forall p, p ∈ loose -> links m' p = Some (None, None) /\ p ∉ qhead q :: l.
Proof.
  intros H Hf HL p Hp. destruct (H p Hp) as [Hl Hn]. split; [|done].
  rewrite (frame_links _ _ _ _ Hf); [done|]. set_solver.
Qed.

Lemma filter_mid (p : loc) l1 l2 :
  NoDup (l1 ++ p :: l2) -> filter (.≠ p) (l1 ++ p :: l2) = l1 ++ l2.
Proof.
  intros (Hn1 & Hd & [Hp Hn2]%NoDup_cons)%NoDup_app.
  rewrite filter_app, filter_cons_False by auto.
  assert (p ∉ l1) as Hp1 by (intros Hi; apply (Hd p Hi); set_solver).
  assert (forall l : list loc, p ∉ l -> filter (.≠ p) l = l) as Hf.
  { induction l as [|y l IH]; intros Hl; [done|].
    rewrite filter_cons_True by set_solver. f_equal. apply IH. set_solver. }
  by rewrite !Hf.
Qed.

(** Elements that stay in the queue or leave it are not loose before the call. *)
Lemma loose_sub q m m' (l l' loose : list loc) t c :
  (forall p, p ∈ loose -> links m p = Some (None, None) /\ p ∉ qhead q :: l) ->
  frame (qhead q :: l) m m' -> l' ⊆ l ->
  forall p, p ∈ loose -> links m' p = Some (None, None) /\ p ∉ qhead (with_tail t c q) :: l'.
Proof.
  intros H Hf Hl p Hp. destruct (loose_frame _ _ _ _ _ _ H Hf ltac:(done) p Hp) as [? ?].
  split; [done|]. simpl. set_solver.
Qed.

Lemma run_call_refines c q m st o st' :
  queue_rel q m st -> spec_call c st = Some (o, st') ->
  exists q' m', run_call c q m = Ret (o, q', m') /\ queue_rel q' m' st'.
Proof.
  destruct st as [l loose]. intros [Hr Hloose] Hc. simpl in Hr, Hloose.
  destruct c as [p| |n|n| |p]; simpl in Hc; unfold run_call.
  - case_decide as Hd; simplify_eq. destruct Hd as [Hp Hlen]. destruct (Hloose p Hp) as [Hlp Hnp].
    destruct (TSQueue_push_spec m q l p true Hr Hlp Hnp Hlen) as (m' & -> & Hr' & Hf).
    cbn [mbind res_bind]. do 2 eexists. split; [reflexivity|]. split; [done|].
    intros y [Hyp Hy]%list_elem_of_filter. destruct (Hloose y Hy) as [Hly Hny]. split.
    + rewrite (frame_links _ _ _ _ Hf); [done|]. pose proof Hr as (_ & _ & Ht & _).
      apply last_Some_elem_of in Ht. set_solver.
    + simpl. set_solver.
  - simplify_eq. destruct l as [|x l].
    { unfold TSQueue_pop. rewrite decide_True by by eapply repr_empty. simpl. by exists q, m. }
    destruct (TSQueue_pop_spec m q x l Hr) as (t & m' & -> & Hr' & Hx & Hf & _).
    cbn [mbind res_bind]. do 2 eexists. split; [reflexivity|]. split; [done|].
    intros p Hp. apply elem_of_cons in Hp as [->|Hp].
    + split; [done|]. pose proof (repr_NoDup _ _ _ Hr) as Hnd. apply (disjoint_mid _ [] [x] l); [done|set_solver].
    + eapply loose_sub; [done|done| |done]. set_solver.
  - destruct l as [|x l]; simplify_eq.
    { unfold TSQueue_pop_front. rewrite decide_True by by eapply repr_empty. simpl.
      rewrite take_nil, drop_nil. by exists q, m. }
    destruct (TSQueue_pop_front_spec m q x l n Hr) as (t & s & m' & -> & Hr' & Hs & Hf & _).
    cbn [mbind res_bind]. rewrite (elems_repr _ _ _ Hs).
    replace (Nat.max 1 n) with (S (n - 1)) by lia. do 2 eexists. split; [reflexivity|]. split; [done|].
    intros p Hp. eapply loose_sub; [done|done| |done]. simpl.
    intros y Hy. apply elem_of_cons. right. rewrite <- (take_drop (n - 1) l), elem_of_app. by right.
  - destruct (decide (l = [])) as [->|Hl]; simplify_eq.
    { unfold TSQueue_pop_back. rewrite decide_True by by eapply repr_empty. simpl. by exists q, m. }
    destruct (TSQueue_pop_back_spec m q l n Hr Hl) as (r & b & t & s & m' & E & Hb & -> & Hr' & Hs & Hf & _).
    cbn [mbind res_bind]. rewrite (elems_repr _ _ _ Hs).
    assert (length l - Nat.max 1 n = length r)%nat as ->.
    { subst l. rewrite length_app in *. lia. }
    rewrite E, take_app_length, drop_app_length. do 2 eexists. split; [reflexivity|]. split; [done|].
    intros p Hp. eapply loose_sub; [done|done| |done]. set_solver.
  - simplify_eq. destruct o as [|x l].
    { unfold TSQueue_pop_all. rewrite decide_True by by eapply repr_empty. simpl. by exists q, m. }
    destruct (TSQueue_pop_all_spec m q x l Hr) as (s & m' & -> & Hr' & Hs & Hf & _).
    cbn [mbind res_bind]. rewrite (elems_repr _ _ _ Hs). do 2 eexists. split; [reflexivity|]. split; [done|].
    intros p Hp. eapply loose_sub; [done|done| |done]. set_solver.
  - case_decide as Hp; simplify_eq. apply list_elem_of_split in Hp as (l1 & l2 & ->).
    pose proof Hr as (Hs & Hnd & _).
    destruct (seg_links _ _ _ _ p Hs) as [x Hx]; [set_solver|].
    apply links_hook in Hx as (h & Hh & _ & _).
    destruct (TSQueue_erase_spec m q l1 p l2 false true h Hr Hh) as (t & m' & -> & Hr' & Hp & Hf & _); [done|].
    cbn [mbind res_bind]. rewrite filter_mid by by apply NoDup_cons in Hnd as [_ ?].
    do 2 eexists. split; [reflexivity|]. split; [done|].
    intros y Hy. apply elem_of_cons in Hy as [->|Hy].
    + split; [done|]. apply (disjoint_mid _ l1 [p] l2); [done|set_solver].
    + eapply loose_sub; [done|done| |done]. set_solver.
Qed.

(** ** The properties *)

(** A fresh store with [n] unlinked objects [2 .. n+1], each with one reference, and the
    queue whose dummy hook is [1]. *)
Definition fresh_mem (n : nat) : mem :=
  mkMem (list_to_map ((fun i => (Pos.of_nat (i + 2), mkHook None None None 1)) <$> seq 0 n)) [].
Definition fresh_queue (n : nat) : TSQueue * mem := TSQueue_new 1 1 (fresh_mem n).

(** C1: TSQueue implements a sequence.  For every sequence of pushes, pops from
    either end, whole-queue pops and random erasures that respects the calling convention
    (only objects that are in no list are pushed, only members are erased), starting from
    a queue whose links represent [st], no assertion fails, each call returns the elements
    the list specification returns, in order, and the final links represent the final list
    again; objects given back by [pop] and [erase] have null links and can be pushed again. *)
Theorem TSQueue_calls_refine (cs : list qcall) (q : TSQueue) (m : mem) st os st' :
  queue_rel q m st -> spec_calls cs st = Some (os, st') ->
  exists q' m', run_calls cs q m = Ret (os, q', m') /\ queue_rel q' m' st'.
Proof.
  revert q m st os st'. induction cs as [|c cs IH]; intros q m st os st' Hr Hc; simpl in *.
  { simplify_eq. by exists q, m. }
  destruct (spec_call c st) as [[o st1]|] eqn:E; [|done]. simpl in Hc.
  destruct (run_call_refines _ _ _ _ _ _ Hr E) as (q1 & m1 & -> & Hr1).
  destruct (spec_calls cs st1) as [[os1 st2]|] eqn:E2; [|done]. simplify_eq/=.
  destruct (IH _ _ _ _ _ Hr1 E2) as (q' & m' & -> & ?). by exists q', m'.
Qed.

Lemma TSQueue_calls_refine_witness :
  exists q' m', run_calls [CPush 2; CPush 3; CPush 4; CErase 3; CPush 5; CPopBack 1; CPop; CPush 2; CPopAll]
      (fresh_queue 4).1 (fresh_queue 4).2
    = Ret ([[]; []; []; [3%positive]; []; [5%positive]; [2%positive]; []; [4%positive; 2%positive]], q', m')
    /\ queue_rel q' m' ([], [3%positive]).
Proof.
  apply (TSQueue_calls_refine _ _ _ ([], [2%positive; 3%positive; 4%positive; 5%positive])).
  - split.
    + split_and!; [by apply seg_cons|apply NoDup_singleton|done|done|done].
    + intros p Hp. simpl in Hp.
      repeat (apply elem_of_cons in Hp as [->|Hp]; [split; [reflexivity|by intros [|]%elem_of_cons]|]).
      set_solver.
  - vm_compute. reflexivity.
Defined.

(** Reference counts.  Destroying a queue that represents [l] drops exactly one
    reference of each element and of nothing else, deletes the dummy hook, and (with fuel
    for each element) terminates without dereferencing null. *)
Theorem TSQueue_destroy_drops_refs (fuel : nat) (q : TSQueue) (m : mem) (l : list loc) :
  TSQueue_repr m q l -> (length l <= fuel)%nat ->
  exists m', TSQueue_destroy fuel q m = Ret m' /\ hooks m' !! qhead q = None /\
    (forall y, y <> qhead q ->
      refc m' y = if decide (y ∈ l) then Z.pred <$> refc m y else refc m y).
Proof.
  intros (Hs & Hnd & Ht & _) Hf.
  destruct (TSQueue_destroy_loop_spec fuel _ _ _ _ _ Hs Hnd Ht Hf) as (m' & E & _ & _ & Hc).
  unfold TSQueue_destroy. rewrite E. eexists. split; [reflexivity|].
  split; [apply lookup_delete_eq|]. intros y Hy. rewrite <- Hc.
  unfold refc. simpl. by rewrite lookup_delete_ne.
Qed.

Definition two_queue : res (list (list loc) * TSQueue * mem) :=
  run_calls [CPush 2; CPush 3] (fresh_queue 3).1 (fresh_queue 3).2.

Lemma TSQueue_destroy_drops_refs_witness :
  exists os q m m', two_queue = Ret (os, q, m) /\ refc m 2%positive = Some 2 /\
    TSQueue_destroy 2 q m = Ret m' /\
    refc m' 2%positive = Some 1 /\ refc m' 4%positive = Some 1.
Proof.
  eexists _, _, _. eassert (TSQueue_repr _ _ [2%positive; 3%positive]) as Hr; cycle 1.
  - destruct (TSQueue_destroy_drops_refs 2 _ _ _ Hr) as (m' & Em & _ & Hc); [simpl; lia|].
    exists m'. split; [reflexivity|]. split; [reflexivity|]. split; [exact Em|].
    split; (rewrite Hc; [reflexivity|done]).
  - split_and!; [repeat (apply seg_cons; split; [reflexivity|]); apply seg_nil; exact I
      |apply (bool_decide_unpack _); vm_compute; exact I|reflexivity|reflexivity|reflexivity].
Defined.

(** C23: [cut] splits a list after its first [n] elements, and appending the
    rest to the part cut off gives a list of the same elements in the same order; no
    assertion fails, reference counts do not change and hooks outside the list are not
    touched. *)
Theorem SList_cut_append (m : mem) (s : SList) (l : list loc) (n : nat) :
  SList_repr m s l ->
  exists o s1 m1 s2 m2, SList_cut s n m = Ret (o, s1, m1) /\
    SList_repr m1 o (take n l) /\ SList_repr m1 s1 (drop n l) /\
    SList_append o s1 m1 = Ret (s2, slist_nil, m2) /\ SList_repr m2 s2 l /\
    (forall y, refc m2 y = refc m y) /\ frame l m m2.
Proof.
  intros Hr. destruct (SList_cut_spec m s l n Hr) as (o & s1 & m1 & E1 & Ho & Hs1 & Hf & Hc).
  pose proof Hr as (_ & Hnd & _ & _ & _ & Hl).
  destruct (SList_append_spec m1 o s1 _ _ Ho Hs1) as (s2 & m2 & E2 & Hs2 & Hf2 & Hc2).
  { by rewrite take_drop. }
  { rewrite <- length_app, take_drop. done. }
  rewrite take_drop in Hs2, Hf2. exists o, s1, m1, s2, m2. split_and!; try done.
  - intros y. by rewrite Hc2.
  - intros y Hy. by rewrite Hf2, Hf.
Qed.

Definition three_list : SList * mem :=
  (mkSList (Some 2%positive) (Some 4%positive) 3,
   mkMem (list_to_map [(2%positive, mkHook None (Some 3%positive) None 2);
                       (3%positive, mkHook (Some 2%positive) (Some 4%positive) None 2);
                       (4%positive, mkHook (Some 3%positive) None None 1)]) []).

Lemma three_list_repr : SList_repr three_list.2 three_list.1 [2%positive; 3%positive; 4%positive].
Proof.
  split_and!; try reflexivity; [|apply (bool_decide_unpack _); vm_compute; exact I].
  repeat (apply seg_cons; split; [reflexivity|]). by apply seg_nil.
Qed.

Lemma SList_cut_append_witness :
  exists o s1 m1 s2 m2, SList_cut three_list.1 2 three_list.2 = Ret (o, s1, m1) /\
    SList_repr m1 o [2%positive; 3%positive] /\ SList_repr m1 s1 [4%positive] /\
    SList_append o s1 m1 = Ret (s2, slist_nil, m2) /\
    SList_repr m2 s2 [2%positive; 3%positive; 4%positive].
Proof.
  destruct (SList_cut_append _ _ _ 2 three_list_repr) as (o & s1 & m1 & s2 & m2 & ? & ? & ? & ? & ? & _).
  by exists o, s1, m1, s2, m2.
Defined.

(** [clear] visits every element (the successor is saved before the
    element is unlinked), drops one reference of each and of nothing else, leaves all of
    them unlinked, and ends with the empty list. *)
Theorem SList_clear_drops_refs (fuel : nat) (m : mem) (s : SList) (l : list loc) :
  SList_repr m s l -> (length l <= fuel)%nat ->
  exists m', SList_clear fuel s m = Ret (slist_nil, m') /\ frame l m m' /\
    (forall y, y ∈ l -> links m' y = Some (None, None)) /\
    (forall y, refc m' y = if decide (y ∈ l) then Z.pred <$> refc m y else refc m y).
Proof.
  intros Hr Hf. destruct (SList_clear_loop_spec fuel m s l Hr Hf) as (s' & m' & E & ? & ? & ?).
  unfold SList_clear. rewrite E. exists m'. by split_and!.
Qed.

Lemma SList_clear_drops_refs_witness :
  exists m', SList_clear 3 three_list.1 three_list.2 = Ret (slist_nil, m') /\
    refc m' 3%positive = Some 1 /\ refc m' 4%positive = Some 0.
Proof.
  destruct (SList_clear_drops_refs 3 _ _ _ three_list_repr) as (m' & E & _ & _ & Hc); [simpl; lia|].
  exists m'. split; [exact E|]. split; (rewrite Hc; [reflexivity|done..]).
Defined.
