(* ===== verification/Locks.v ===== *)
(** The locks: the spin locks of [common/inc/SpinLock.h], [SpinMutex], [ScopedAcquire] and
    the lock guards of [include/util/locks.h], and the [ReaderWriterLock] of
    [core/util/locks.cpp] as a step relation over any number of threads. *)
From S2P Require Import Prelude.
Local Open Scope Z_scope.

(** ** Spin locks

    The state of a lock is its flag; one atomic operation on the flag is one function.
    A spinning [lock()] is the repetition of the attempt until it succeeds. *)

Definition BooleanFakeLock_lock (locked_ : bool) : bool := if negb locked_ then true else locked_.
Definition BooleanFakeLock_is_lock (locked_ : bool) : bool := locked_.
Definition BooleanFakeLock_try_lock (locked_ : bool) : bool * bool :=
  let ret := negb locked_ in (ret, if ret then true else locked_).
Definition BooleanFakeLock_unlock (locked_ : bool) : res bool :=
  _ ← assert_ locked_; Ret false.

(** [flag.test_and_set()]: the old value and the new one. *)
Definition test_and_set (flag : bool) : bool * bool := (flag, true).
Definition LFLock_lock (flag : bool) : option bool :=
  let '(old, flag) := test_and_set flag in if old then None else Some flag.
Definition LFLock_try_lock (flag : bool) : bool * bool :=
  let '(old, flag) := test_and_set flag in (negb old, flag).
Definition LFLock_unlock (flag : bool) : res bool := Ret false.

Definition FakeLock_lock (u : unit) : unit := tt.
Definition FakeLock_is_lock (u : unit) : bool := false.
Definition FakeLock_try_lock (u : unit) : bool * unit := (true, tt).
Definition FakeLock_unlock (u : unit) : unit := tt.

Definition LFLock2_lock (state : bool) : option bool := if state then None else Some true.
Definition LFLock2_try_lock (state : bool) : bool * bool := (negb state, true).
(** [logic_error] is exception 1. *)
Definition LFLock2_unlock (state : bool) : res bool := if negb state then Throw 1 else Ret false.
Definition LFLock2_is_lock (state : bool) : bool := state.

(** [SpinMutex]: the integer cell; [compare_exchange_strong(old, 1)] from [old = 0]. *)
Definition SpinMutex_Try (lock_ : Z) : bool * Z := if lock_ =? 0 then (true, 1) else (false, lock_).
Definition SpinMutex_Acquire (lock_ : Z) : option Z := if lock_ =? 0 then Some 1 else None.
Definition SpinMutex_Release (lock_ : Z) : Z := 0.

(** What a lock promises to its users. *)
Class Lockable (L : Type) := {
  lk_held : L -> bool;
  lk_acquire : L -> option L;       (** one attempt of [lock()]; [None]: still spinning *)
  lk_try : L -> bool * L;
  lk_release : L -> res L }.

Class LockLaws (L : Type) `{Lockable L} := {
  law_acquire_free : forall l, lk_held l = false -> exists l', lk_acquire l = Some l' /\ lk_held l' = true;
  law_acquire_held : forall l, lk_held l = true -> lk_acquire l = None;
  law_try : forall l, (lk_try l).1 = negb (lk_held l) /\ lk_held (lk_try l).2 = true;
  law_release : forall l, lk_held l = true -> exists l', lk_release l = Ret l' /\ lk_held l' = false }.

#[export] Instance LFLock_lockable : Lockable bool :=
  {| lk_held := fun b => b; lk_acquire := LFLock_lock; lk_try := LFLock_try_lock; lk_release := LFLock_unlock |}.
#[export] Instance LFLock_laws : LockLaws bool.
Proof. split; intros []; simpl; try done; eauto. Qed.

(** The other spin locks, under names of their own. *)
Record LFLock2 := mkLFLock2 { lf2_state : bool }.
#[export] Instance LFLock2_lockable : Lockable LFLock2 :=
  {| lk_held := fun l => LFLock2_is_lock (lf2_state l);
     lk_acquire := fun l => mkLFLock2 <$> LFLock2_lock (lf2_state l);
     lk_try := fun l => let '(b, s) := LFLock2_try_lock (lf2_state l) in (b, mkLFLock2 s);
     lk_release := fun l => s ← LFLock2_unlock (lf2_state l); Ret (mkLFLock2 s) |}.
#[export] Instance LFLock2_laws : LockLaws LFLock2.
Proof. split; intros [[]]; simpl; try done; eauto. Qed.

Record SpinMutex := mkSpinMutex { spin_lock : Z }.
#[export] Instance SpinMutex_lockable : Lockable SpinMutex :=
  {| lk_held := fun l => negb (spin_lock l =? 0);
     lk_acquire := fun l => mkSpinMutex <$> SpinMutex_Acquire (spin_lock l);
     lk_try := fun l => let '(b, s) := SpinMutex_Try (spin_lock l) in (b, mkSpinMutex s);
     lk_release := fun l => Ret (mkSpinMutex (SpinMutex_Release (spin_lock l))) |}.
#[export] Instance SpinMutex_laws : LockLaws SpinMutex.
Proof.
  split; intros [z]; simpl; unfold SpinMutex_Acquire, SpinMutex_Try, SpinMutex_Release;
    destruct (Z.eqb_spec z 0); simpl; try done; eauto.
  split; [done|]. by destruct (Z.eqb_spec z 0).
Qed.

(** ** ScopedAcquire *)

Section scoped.
Context {L : Type} `{LockLaws L} {S A : Type}.

Record ScopedAcquire := mkScoped { sa_lock : L; doRelease : bool }.

Definition ScopedAcquire_new (l : L) : option ScopedAcquire :=
  l ← lk_acquire l; Some (mkScoped l true).
Definition ScopedAcquire_Release (g : ScopedAcquire) : res ScopedAcquire :=
  l ← lk_release (sa_lock g); Ret (mkScoped l false).
Definition ScopedAcquire_destroy (g : ScopedAcquire) : res L :=
  if doRelease g then lk_release (sa_lock g) else Ret (sa_lock g).

(** A scope: the guard is constructed, the body runs (releasing early or not), and the
    guard is destroyed. *)
Definition scope (early : bool) (l : L) : option (res L) :=
  g ← ScopedAcquire_new l;
  Some (g ← (if early then ScopedAcquire_Release g else Ret g); ScopedAcquire_destroy g).

Lemma scope_free (early : bool) (l : L) :
  lk_held l = false -> exists l', scope early l = Some (Ret l') /\ lk_held l' = false.
Proof.
  intros Hl. destruct (law_acquire_free l Hl) as (l1 & E & Hh).
  destruct (law_release l1 Hh) as (l2 & E2 & Hh2).
  exists l2. unfold scope, ScopedAcquire_new. rewrite E. simpl.
  destruct early; unfold ScopedAcquire_Release, ScopedAcquire_destroy; simpl; rewrite E2; done.
Qed.

Lemma scope_held (early : bool) (l : L) : lk_held l = true -> scope early l = None.
Proof. intros Hl. unfold scope, ScopedAcquire_new. by rewrite law_acquire_held. Qed.
End scoped.

(** ** ReaderWriterLock

    [internal_lock_] is held from the start of each member function to its end, except
    inside [wait]: so a member function runs in one step up to its first [wait], and from
    a wake-up to the next [wait] or its end in one step.  [RWait] and [WWait] are the
    threads blocked on the two condition variables, [RReady] and [WReady] those that were
    notified and have to test their condition again. *)

Inductive pc := Idle | RWait | RReady | Reading | WWait | WReady | Writing.
#[export] Instance pc_eq_dec : EqDecision pc.
Proof. solve_decision. Defined.

Record ReaderWriterLock := mkRW {
  readers_count_ : Z;
  writers_count_ : Z;
  writers_waiting_ : Z;
  threads : list pc }.

Definition RW_new (n : nat) : ReaderWriterLock := mkRW 0 0 0 (replicate n Idle).

Definition set_pc (i : nat) (p : pc) (s : ReaderWriterLock) : ReaderWriterLock :=
  mkRW (readers_count_ s) (writers_count_ s) (writers_waiting_ s) (<[i:=p]> (threads s)).

(** [notify_one] on the writers' condition wakes the blocked thread [j], if there is one. *)
Definition notify_one_writer (j : option nat) (s : ReaderWriterLock) : ReaderWriterLock :=
  match j with Some j => set_pc j WReady s | None => s end.
Definition notify_choice (j : option nat) (s : ReaderWriterLock) : bool :=
  match j with
  | Some j => bool_decide (threads s !! j = Some WWait)
  | None => negb (existsb (fun p => bool_decide (p = WWait)) (threads s))
  end.
Definition notify_all_readers (s : ReaderWriterLock) : ReaderWriterLock :=
  mkRW (readers_count_ s) (writers_count_ s) (writers_waiting_ s)
    (map (fun p => if decide (p = RWait) then RReady else p) (threads s)).

(** The loop test of [ReaderLock] and what follows it. *)
Definition ReaderLock_test (i : nat) (s : ReaderWriterLock) : ReaderWriterLock :=
  if 0 <? writers_count_ s then set_pc i RWait s
  else set_pc i Reading (mkRW (u64 (readers_count_ s + 1)) (writers_count_ s) (writers_waiting_ s) (threads s)).
Definition ReaderLock (i : nat) (s : ReaderWriterLock) : ReaderWriterLock := ReaderLock_test i s.

Definition ReaderUnlock (i : nat) (j : option nat) (s : ReaderWriterLock) : ReaderWriterLock :=
  let s := set_pc i Idle (mkRW (u64 (readers_count_ s - 1)) (writers_count_ s) (writers_waiting_ s) (threads s)) in
  if (0 =? readers_count_ s) && (0 <? writers_waiting_ s) then notify_one_writer j s else s.

Definition WriterLock_test (i : nat) (s : ReaderWriterLock) : ReaderWriterLock :=
  if (0 <? readers_count_ s) || (0 <? writers_count_ s) then set_pc i WWait s
  else set_pc i Writing (mkRW (readers_count_ s) (u64 (writers_count_ s + 1)) (u64 (writers_waiting_ s - 1)) (threads s)).
Definition WriterLock (i : nat) (s : ReaderWriterLock) : ReaderWriterLock :=
  WriterLock_test i (mkRW (readers_count_ s) (writers_count_ s) (u64 (writers_waiting_ s + 1)) (threads s)).

Definition WriterUnlock (i : nat) (j : option nat) (s : ReaderWriterLock) : ReaderWriterLock :=
  let s := set_pc i Idle (mkRW (readers_count_ s) (u64 (writers_count_ s - 1)) (writers_waiting_ s) (threads s)) in
  let s := if 0 <? writers_waiting_ s then notify_one_writer j s else s in
  notify_all_readers s.

(** The wake-ups of [notify_one] and [notify_all], and spurious ones ([rw_spurious]), put a
    thread back at its loop test. *)
Inductive rw_step : ReaderWriterLock -> ReaderWriterLock -> Prop :=
| rw_ReaderLock s i : threads s !! i = Some Idle -> rw_step s (ReaderLock i s)
| rw_reader_retry s i : threads s !! i = Some RReady -> rw_step s (ReaderLock_test i s)
| rw_ReaderUnlock s i j : threads s !! i = Some Reading ->
    notify_choice j (set_pc i Idle s) = true -> rw_step s (ReaderUnlock i j s)
| rw_WriterLock s i : threads s !! i = Some Idle -> rw_step s (WriterLock i s)
| rw_writer_retry s i : threads s !! i = Some WReady -> rw_step s (WriterLock_test i s)
| rw_WriterUnlock s i j : threads s !! i = Some Writing ->
    notify_choice j (set_pc i Idle s) = true -> rw_step s (WriterUnlock i j s)
| rw_spurious s i p q : threads s !! i = Some p -> (p, q) = (RWait, RReady) \/ (p, q) = (WWait, WReady) ->
    rw_step s (set_pc i q s).

Definition rw_init (s : ReaderWriterLock) : Prop := exists n, Z.of_nat n < 2 ^ 64 /\ s = RW_new n.

Definition is_pc (p q : pc) : bool :=
  match p, q with
  | Idle, Idle | RWait, RWait | RReady, RReady | Reading, Reading | WWait, WWait
  | WReady, WReady | Writing, Writing => true
  | _, _ => false
  end.
Definition num (p : pc) (s : ReaderWriterLock) : nat := count (is_pc p) (threads s).

(** The counters are the numbers of threads inside, at most one of them writing and then
    none reading; and a thread that waits although the lock is free, or that waits to read
    although no one writes, has a wake-up under way. *)
Record rw_inv (s : ReaderWriterLock) : Prop := {
  inv_len : Z.of_nat (length (threads s)) < 2 ^ 64;
  inv_readers : readers_count_ s = Z.of_nat (num Reading s);
  inv_writers : writers_count_ s = Z.of_nat (num Writing s);
  inv_waiting : writers_waiting_ s = Z.of_nat (num WWait s + num WReady s);
  inv_excl : (num Writing s <= 1)%nat /\ (num Writing s = 1%nat -> num Reading s = 0%nat);
  inv_rwait : (0 < num RWait s -> num Writing s = 1)%nat;
  inv_wwait : (0 < num WWait s -> num Writing s = 0 -> num Reading s = 0 -> 0 < num WReady s)%nat }.

Lemma num_set_pc s i p q r :
  threads s !! i = Some p ->
  (num r (set_pc i q s) + (if is_pc r p then 1 else 0) = num r s + (if is_pc r q then 1 else 0))%nat.
Proof. apply count_insert. Qed.

Lemma num_le p s : (num p s <= length (threads s))%nat.
Proof. apply count_le_length. Qed.

Lemma num_sum s :
  (num Idle s + num RWait s + num RReady s + num Reading s + num WWait s + num WReady s + num Writing s
   = length (threads s))%nat.
Proof.
  unfold num. induction (threads s) as [|p l IH]; [done|].
  rewrite !count_cons. simpl length. destruct p; simpl; lia.
Qed.

Lemma num_pos s i p : threads s !! i = Some p -> (0 < num p s)%nat.
Proof. intros Hi. apply count_pos. exists i, p. split; [done|by destruct p]. Qed.

Lemma num_notify_all r s :
  num r (notify_all_readers s) =
    match r with RWait => 0 | RReady => num RReady s + num RWait s | _ => num r s end%nat.
Proof.
  unfold num, notify_all_readers. simpl.
  induction (threads s) as [|p l IH]; [by destruct r|]. simpl. rewrite !count_cons, IH.
  destruct p, r; simpl; lia.
Qed.

Lemma choice_none s : notify_choice None s = true -> num WWait s = 0%nat.
Proof.
  simpl. intros Hc. destruct (Nat.eq_dec (num WWait s) 0) as [|Hn]; [done|].
  assert (0 < num WWait s)%nat as (i & x & Hi & Hx)%count_pos by lia.
  assert (existsb (fun p => bool_decide (p = WWait)) (threads s) = true) as E.
  { apply existsb_exists. exists WWait. destruct x; try done. split; [|done].
    apply list_elem_of_In. by eapply list_elem_of_lookup_2. }
  by rewrite E in Hc.
Qed.

(** How many threads are where after waking a writer. *)
Lemma num_notify_one j s :
  notify_choice j s = true ->
  let s' := notify_one_writer j s in
  (num WWait s = 0 /\ s' = s \/
   num WWait s = S (num WWait s') /\ num WReady s' = S (num WReady s))%nat /\
  (num Reading s' = num Reading s /\ num Writing s' = num Writing s /\ num RWait s' = num RWait s)%nat /\
  readers_count_ s' = readers_count_ s /\ writers_count_ s' = writers_count_ s /\
  writers_waiting_ s' = writers_waiting_ s /\ length (threads s') = length (threads s).
Proof.
  destruct j as [j|]; intros Hc.
  - apply bool_decide_eq_true in Hc. intros s'. simpl in s'.
    pose proof (fun r => num_set_pc s j WWait WReady r Hc) as N.
    pose proof (N WWait). pose proof (N WReady). pose proof (N Reading). pose proof (N Writing).
    pose proof (N RWait). simpl in *. subst s'. split_and!; try done; try lia; apply length_insert.
  - apply choice_none in Hc. simpl. repeat split; auto.
Qed.

Lemma rw_inv_init s : rw_init s -> rw_inv s.
Proof.
  intros (n & Hn & ->). unfold RW_new.
  assert (forall p, p <> Idle -> num p (mkRW 0 0 0 (replicate n Idle)) = 0%nat) as N.
  { intros p Hp. unfold num. simpl. rewrite count_replicate. by destruct p. }
  split; simpl; rewrite ?length_replicate, ?N by done; lia.
Qed.

(** The counts after a thread moves from [p] to [q]. *)
Ltac move_facts s i p q H :=
  let N := fresh "N" in
  pose proof (fun r => num_set_pc s i p q r H) as N;
  pose proof (N Reading); pose proof (N Writing); pose proof (N RWait);
  pose proof (N WWait); pose proof (N WReady); pose proof (num_pos s i p H);
  pose proof (num_sum s); cbn [is_pc] in *; clear N.

(** [lia] on the counts, with every 64-bit result in range. *)
Ltac rw_arith :=
  unfold u64 in *; rewrite ?wrap_small in * by (unfold fits; lia); lia.

(** A state after a move, by its fields and counts. *)
Lemma set_pc_fields s i q :
  readers_count_ (set_pc i q s) = readers_count_ s /\ writers_count_ (set_pc i q s) = writers_count_ s /\
  writers_waiting_ (set_pc i q s) = writers_waiting_ s /\ length (threads (set_pc i q s)) = length (threads s).
Proof. split_and!; try done. apply length_insert. Qed.

(** Move thread [i] of [s0] from [p] to [q], where the counters of [s0] were just changed. *)
Ltac mv_pc s0 i p q H :=
  move_facts s0 i p q H; pose proof (set_pc_fields s0 i q); destruct_and?;
  generalize dependent (set_pc i q s0); intros.

Lemma ReaderLock_test_inv s i p :
  rw_inv s -> threads s !! i = Some p -> p = Idle \/ p = RReady -> rw_inv (ReaderLock_test i s).
Proof.
  intros [Hlen Hr Hw Hk He Hrw Hww] Hi Hp. unfold ReaderLock_test. destruct (Z.ltb_spec 0 (writers_count_ s)).
  - destruct Hp as [-> | ->]; [mv_pc s i Idle RWait Hi|mv_pc s i RReady RWait Hi]; split; lia.
  - set (s0 := mkRW _ _ _ _). assert (threads s0 !! i = Some p) as Hi0 by done.
    assert (forall p, num p s0 = num p s) as N0 by done.
    assert (readers_count_ s0 = u64 (readers_count_ s + 1) /\ writers_count_ s0 = writers_count_ s /\
      writers_waiting_ s0 = writers_waiting_ s /\ threads s0 = threads s) as (? & ? & ? & Ht) by done.
    destruct Hp as [-> | ->]; [mv_pc s0 i Idle Reading Hi0|mv_pc s0 i RReady Reading Hi0];
      rewrite Ht, !N0 in *; clearbody s0; split; rw_arith.
Qed.

(** The writer's retry: it is counted among the waiting writers already. *)
Lemma WriterLock_test_inv s i :
  rw_inv s -> threads s !! i = Some WReady -> rw_inv (WriterLock_test i s).
Proof.
  intros [Hlen Hr Hw Hk He Hrw Hww] Hi. unfold WriterLock_test.
  destruct (Z.ltb_spec 0 (readers_count_ s)); [|destruct (Z.ltb_spec 0 (writers_count_ s))]; simpl orb; cbv iota.
  1,2: mv_pc s i WReady WWait Hi; split; lia.
  set (s0 := mkRW _ _ _ _). assert (threads s0 !! i = Some WReady) as Hi0 by done.
  assert (forall p, num p s0 = num p s) as N0 by done.
  assert (readers_count_ s0 = readers_count_ s /\ writers_count_ s0 = u64 (writers_count_ s + 1) /\
    writers_waiting_ s0 = u64 (writers_waiting_ s - 1) /\ threads s0 = threads s) as (? & ? & ? & Ht) by done.
  mv_pc s0 i WReady Writing Hi0. rewrite Ht, !N0 in *; clearbody s0; split; rw_arith.
Qed.

Lemma WriterLock_inv s i :
  rw_inv s -> threads s !! i = Some Idle -> rw_inv (WriterLock i s).
Proof.
  intros [Hlen Hr Hw Hk He Hrw Hww] Hi. unfold WriterLock, WriterLock_test.
  set (s0 := mkRW _ _ _ _). assert (threads s0 !! i = Some Idle) as Hi0 by done.
  assert (forall p, num p s0 = num p s) as N0 by done.
  assert (writers_waiting_ s0 = Z.of_nat (S (num WWait s + num WReady s))) as Hw0.
  { simpl. pose proof (num_sum s). pose proof (num_pos s i Idle Hi). rw_arith. }
  assert (readers_count_ s0 = readers_count_ s /\ writers_count_ s0 = writers_count_ s /\
    threads s0 = threads s) as (? & ? & Ht) by done.
  destruct (Z.ltb_spec 0 (readers_count_ s0)); [|destruct (Z.ltb_spec 0 (writers_count_ s0))]; simpl orb; cbv iota.
  1,2: mv_pc s0 i Idle WWait Hi0; rewrite Ht, !N0 in *; clearbody s0; split; lia.
  set (s1 := mkRW _ _ _ _). assert (threads s1 !! i = Some Idle) as Hi1 by done.
  assert (forall p, num p s1 = num p s) as N1 by done.
  assert (readers_count_ s1 = readers_count_ s /\ writers_count_ s1 = u64 (writers_count_ s + 1) /\
    writers_waiting_ s1 = u64 (writers_waiting_ s0 - 1) /\ threads s1 = threads s) as (? & ? & ? & Ht1) by done.
  mv_pc s1 i Idle Writing Hi1. rewrite Ht1, !N1 in *. clearbody s1 s0. split; rw_arith.
Qed.

Lemma ReaderUnlock_inv s i j :
  rw_inv s -> threads s !! i = Some Reading -> notify_choice j (set_pc i Idle s) = true ->
  rw_inv (ReaderUnlock i j s).
Proof.
  intros [Hlen Hr Hw Hk He Hrw Hww] Hi Hj. unfold ReaderUnlock.
  set (s1 := set_pc i Idle (mkRW _ _ _ _)).
  move_facts s i Reading Idle Hi.
  assert (forall p, num p s1 = num p (set_pc i Idle s)) as N1 by done.
  assert (readers_count_ s1 = Z.of_nat (num Reading s1)) as Hr1.
  { rewrite N1. change (u64 (readers_count_ s - 1) = Z.of_nat (num Reading (set_pc i Idle s))). rw_arith. }
  assert (writers_waiting_ s1 = writers_waiting_ s /\ writers_count_ s1 = writers_count_ s /\
    length (threads s1) = length (threads s)) as (? & ? & ?) by (split_and!; try done; apply length_insert).
  change (notify_choice j s1 = true) in Hj.
  pose proof (num_notify_one j s1 Hj) as (HW & (HR & HWr & HRw) & Er & Ew & Ek & El).
  rewrite <- !N1 in *. clear N1. generalize dependent (notify_one_writer j s1). intros s2 **. clearbody s1.
  destruct (Z.eqb_spec 0 (readers_count_ s1)); [destruct (Z.ltb_spec 0 (writers_waiting_ s1))|]; simpl andb; cbv iota;
    [destruct HW as [[HW0 ->]|[HW1 HW2]]|..]; split; lia.
Qed.

Lemma notify_all_fields s :
  readers_count_ (notify_all_readers s) = readers_count_ s /\ writers_count_ (notify_all_readers s) = writers_count_ s /\
  writers_waiting_ (notify_all_readers s) = writers_waiting_ s /\
  length (threads (notify_all_readers s)) = length (threads s).
Proof. split_and!; try done. apply length_map. Qed.

Lemma WriterUnlock_inv s i j :
  rw_inv s -> threads s !! i = Some Writing -> notify_choice j (set_pc i Idle s) = true ->
  rw_inv (WriterUnlock i j s).
Proof.
  intros [Hlen Hr Hw Hk He Hrw Hww] Hi Hj. unfold WriterUnlock.
  set (s1 := set_pc i Idle (mkRW _ _ _ _)).
  move_facts s i Writing Idle Hi.
  assert (forall p, num p s1 = num p (set_pc i Idle s)) as N1 by done.
  assert (writers_count_ s1 = Z.of_nat (num Writing s1)) as Hr1.
  { rewrite N1. change (u64 (writers_count_ s - 1) = Z.of_nat (num Writing (set_pc i Idle s))). rw_arith. }
  assert (writers_waiting_ s1 = writers_waiting_ s /\ readers_count_ s1 = readers_count_ s /\
    length (threads s1) = length (threads s)) as (? & ? & ?) by (split_and!; try done; apply length_insert).
  change (notify_choice j s1 = true) in Hj.
  pose proof (num_notify_one j s1 Hj) as (HW & (HR & HWr & HRw) & Er & Ew & Ek & El).
  rewrite <- !N1 in *. clear N1. generalize dependent (notify_one_writer j s1). intros s2 **. clearbody s1.
  set (s3 := if 0 <? writers_waiting_ s1 then s2 else s1).
  assert ((num WWait s3 = 0 \/ 0 < num WReady s3)%nat /\ num Reading s3 = num Reading s1 /\
    num Writing s3 = num Writing s1 /\ (num WWait s3 + num WReady s3 = num WWait s1 + num WReady s1)%nat /\
    readers_count_ s3 = readers_count_ s1 /\ writers_count_ s3 = writers_count_ s1 /\
    writers_waiting_ s3 = writers_waiting_ s1 /\ length (threads s3) = length (threads s1)) as HH.
  { subst s3. destruct (Z.ltb_spec 0 (writers_waiting_ s1)); [destruct HW as [[HW0 ->]|[HW1 HW2]]|]; lia. }
  clearbody s3. destruct HH as (K0 & K1 & K2 & K3 & K4 & K5 & K6 & K7).
  pose proof (notify_all_fields s3) as (F1 & F2 & F3 & F4).
  pose proof (fun r => num_notify_all r s3) as N3.
  pose proof (N3 Reading). pose proof (N3 Writing). pose proof (N3 RWait). pose proof (N3 WWait).
  pose proof (N3 WReady). clear N3. cbv iota beta in *.
  generalize dependent (notify_all_readers s3). intros s4 **. split; lia.
Qed.

Lemma rw_inv_step s s' : rw_inv s -> rw_step s s' -> rw_inv s'.
Proof.
  intros HI Hs. destruct Hs as [s i Hi|s i Hi|s i j Hi Hj|s i Hi|s i Hi|s i j Hi Hj|s i p q Hi Hpq].
  - eapply ReaderLock_test_inv; eauto.
  - eapply ReaderLock_test_inv; eauto.
  - by apply ReaderUnlock_inv.
  - by apply WriterLock_inv.
  - by apply WriterLock_test_inv.
  - by apply WriterUnlock_inv.
  - destruct HI as [Hlen Hr Hw Hk He Hrw Hww].
    destruct Hpq as [[= -> ->]|[= -> ->]]; [mv_pc s i RWait RReady Hi|mv_pc s i WWait WReady Hi]; split; lia.
Qed.

Lemma rw_reachable_inv s : reachable rw_step rw_init s -> rw_inv s.
Proof. apply reachable_inv; [exact rw_inv_init|exact rw_inv_step]. Qed.

(** A run in which thread 0 reads, thread 1 waits to write and is let in. *)
Definition rw_example : ReaderWriterLock :=
  WriterLock_test 1 (ReaderUnlock 0 (Some 1%nat) (WriterLock 1 (ReaderLock 0 (RW_new 2)))).

Lemma rw_example_reachable : reachable rw_step rw_init rw_example.
Proof.
  exists (RW_new 2). split; [by exists 2%nat|]. unfold rw_example.
  eapply rtc_l; [by apply (rw_ReaderLock _ 0)|]. eapply rtc_l; [by apply (rw_WriterLock _ 1)|].
  eapply rtc_l; [by apply (rw_ReaderUnlock _ 0 (Some 1%nat))|].
  eapply rtc_l; [by apply (rw_writer_retry _ 1)|]. apply rtc_refl.
Qed.

(** C11: mutual exclusion of ReaderWriterLock.  In every interleaving of lock and
    unlock calls and wake-ups (spurious ones included) of any number of threads, at most one
    thread is between [WriterLock] and [WriterUnlock], no thread reads while one writes, and
    the three counters are exactly the numbers of readers, writers and waiting writers. *)
Theorem rw_exclusion (s : ReaderWriterLock) :
  reachable rw_step rw_init s ->
  (forall i j, threads s !! i = Some Writing -> threads s !! j = Some Writing -> i = j) /\
  (forall i j, threads s !! i = Some Writing -> threads s !! j <> Some Reading) /\
  readers_count_ s = Z.of_nat (num Reading s) /\ writers_count_ s = Z.of_nat (num Writing s) /\
  writers_waiting_ s = Z.of_nat (num WWait s + num WReady s).
Proof.
  intros [_ Hr Hw Hk [H1 H2] _ _]%rw_reachable_inv. split_and!; try done.
  - intros i j Hi Hj. destruct (decide (i = j)) as [|Hne]; [done|].
    pose proof (num_set_pc s i Writing Idle Writing Hi) as N. simpl in N.
    assert (0 < num Writing (set_pc i Idle s))%nat; [|lia].
    apply (num_pos _ j). simpl. by rewrite list_lookup_insert_ne.
  - intros i j Hi Hj. pose proof (num_pos _ _ _ Hi). pose proof (num_pos _ _ _ Hj). lia.
Qed.

Lemma rw_exclusion_witness :
  threads rw_example = [Idle; Writing] /\ readers_count_ rw_example = Z.of_nat (num Reading rw_example).
Proof.
  split; [reflexivity|]. pose proof (rw_exclusion rw_example rw_example_reachable) as (_ & _ & H & _).
  exact H.
Defined.

(** C21: no lost wake-up in ReaderWriterLock.  Whenever the lock is free (no
    thread reads or writes) and some thread is blocked on a condition variable, a notified
    writer is on its way to test its condition again; a thread is blocked in [ReaderLock]
    only while another one holds the lock for writing. *)
Theorem rw_no_lost_wakeup (s : ReaderWriterLock) :
  reachable rw_step rw_init s ->
  (forall i, threads s !! i = Some RWait -> exists j, threads s !! j = Some Writing) /\
  (num Reading s = 0%nat -> num Writing s = 0%nat ->
   forall i, threads s !! i = Some WWait -> exists j, threads s !! j = Some WReady).
Proof.
  intros [_ _ _ _ _ Hrw Hww]%rw_reachable_inv.
  assert (forall p, (0 < num p s)%nat -> exists j, threads s !! j = Some p) as Hp.
  { intros p (j & x & Hj & Hx)%count_pos. exists j. rewrite Hj. by destruct p, x. }
  split.
  - intros i Hi%num_pos. apply Hp. lia.
  - intros ? ? i Hi%num_pos. apply Hp. lia.
Qed.

Lemma rw_no_lost_wakeup_witness :
  let s := ReaderUnlock 0 (Some 1%nat) (WriterLock 2 (WriterLock 1 (ReaderLock 0 (RW_new 3)))) in
  threads s !! 2%nat = Some WWait /\ exists j, threads s !! j = Some WReady.
Proof.
  intros s. split; [reflexivity|].
  assert (reachable rw_step rw_init s) as Hr.
  { exists (RW_new 3). split; [by exists 3%nat|].
    eapply rtc_l; [by apply (rw_ReaderLock _ 0)|]. eapply rtc_l; [by apply (rw_WriterLock _ 1)|].
    eapply rtc_l; [by apply (rw_WriterLock _ 2)|].
    eapply rtc_l; [by apply (rw_ReaderUnlock _ 0 (Some 1%nat))|]. apply rtc_refl. }
  destruct (rw_no_lost_wakeup s Hr) as [_ H].
  apply (H eq_refl eq_refl 2%nat). reflexivity.
Defined.

(** A ScopedAcquire scope entered on a free lock leaves it free, released
    exactly once whether or not the body calls [Release] early ([LFLock2::unlock] would throw
    on a second release), and a scope on a held lock does not start.  Proved for every lock
    that satisfies the [LockLaws]. *)
Theorem scope_releases {L : Type} `{LockLaws L} (early : bool) (l : L) :
  (lk_held l = false -> exists l', scope early l = Some (Ret l') /\ lk_held l' = false) /\
  (lk_held l = true -> scope early l = None).
Proof. split; [apply scope_free|apply scope_held]. Qed.

Lemma scope_releases_witness :
  exists l', scope true (mkLFLock2 false) = Some (Ret l') /\ lk_held l' = false.
Proof. apply (scope_releases true (mkLFLock2 false)). reflexivity. Defined.
