(* ===== verification/WaitQueue.v ===== *)
(** [WaitQueue<T>] of [include/co/sync/wait_queue.h]: the singly linked queue of waiting
    entries under the condition variable.

    The links of the entries live in a store indexed by address; [dummy_] is the address of
    the queue's own hook.  The two functors act on an environment [E] (the entries' own
    state); [decref] is [DecrementRef] on an entry.  Every member function holds [lock_] from
    end to end, so each is one step. *)
From S2P Require Import Prelude.
Local Open Scope Z_scope.

Section wait_queue.
Context {E : Type}.
Context (checkFunctor_ : option (E -> positive -> bool)).
Context (posFunctor_ : option (E -> positive -> bool * E)).
Context (decref : E -> positive -> E).

Record WaitQueue := mkWQ {
  nexts : gmap positive (option positive);
  dummy_ : positive;
  tail_ : positive;
  check_ : option positive;
  pos_ : option positive;
  posDistance_ : Z;
  count_ : Z }.

Record CondRet := mkCondRet { canQueue : bool; needWait : bool }.

(** [head_] is [&dummy_] throughout. *)
Definition WQ_new (dummy : positive) (posD : Z) : WaitQueue :=
  mkWQ {[ dummy := None ]} dummy dummy (Some dummy) None posD 0.

Definition WQ_empty (q : WaitQueue) : bool := count_ q =? 0.
Definition WQ_size (q : WaitQueue) : Z := count_ q.

Definition nxt (q : WaitQueue) (p : positive) : res (option positive) := deref (nexts q !! p).

Definition with_links (f : gmap positive (option positive) -> gmap positive (option positive)) (q : WaitQueue) :=
  mkWQ (f (nexts q)) (dummy_ q) (tail_ q) (check_ q) (pos_ q) (posDistance_ q) (count_ q).
Definition with_tail (t : positive) (q : WaitQueue) :=
  mkWQ (nexts q) (dummy_ q) t (check_ q) (pos_ q) (posDistance_ q) (count_ q).
Definition with_check (c : option positive) (q : WaitQueue) :=
  mkWQ (nexts q) (dummy_ q) (tail_ q) c (pos_ q) (posDistance_ q) (count_ q).
Definition with_pos (p : option positive) (q : WaitQueue) :=
  mkWQ (nexts q) (dummy_ q) (tail_ q) (check_ q) p (posDistance_ q) (count_ q).
Definition with_count (c : Z) (q : WaitQueue) :=
  mkWQ (nexts q) (dummy_ q) (tail_ q) (check_ q) (pos_ q) (posDistance_ q) c.

(** The sweep at the end of [push]: up to [i] entries after [check_] are examined. *)
Fixpoint check_loop (i : nat) (cf : E -> positive -> bool) (q : WaitQueue) (e : E) : res (WaitQueue * E) :=
  match i with
  | O => Ret (q, e)
  | S i =>
      match check_ q with
      | None => Ret (q, e)
      | Some c =>
          n ← nxt q c;
          match n with
          | None => Ret (q, e)
          | Some x =>
              if negb (cf e x) then
                xn ← nxt q x;
                let q := if decide (pos_ q = Some x) then with_pos xn q else q in
                let q := if decide (tail_ q = x) then with_tail c q else q in
                let q := with_links (fun m => <[x := None]> (<[c := xn]> m)) q in
                check_loop i cf q (decref e x)
              else check_loop i cf (with_check (Some x) q) e
          end
      end
  end.

(** The part of [push] after the entry was accepted. *)
Definition push_queue (ptr : positive) (q : WaitQueue) (e : E) : res (WaitQueue * E) :=
  let q := with_links (fun m => <[ptr := None]> (<[tail_ q := Some ptr]> m)) q in
  let q := with_tail ptr q in
  let q := with_count (u64 (count_ q + 1)) q in
  let q := if count_ q =? posDistance_ q then with_pos (Some ptr) q else q in
  if count_ q <? Z.max (posDistance_ q) (u64 (posDistance_ q + 16)) then Ret (q, e)
  else match checkFunctor_ with
  | None => Ret (q, e)
  | Some cf =>
      reset ← (match check_ q with
               | None => Ret true
               | Some c => n ← nxt q c; Ret (bool_decide (n = None))
               end);
      let q := if (reset : bool) then with_check (pos_ q) q else q in
      check_loop 2 cf q e
  end.

Definition WQ_push (ptr : positive) (cond : option (E -> Z -> CondRet * E)) (q : WaitQueue) (e : E)
    : res (CondRet * WaitQueue * E) :=
  let '(ret, e) := match cond with
    | Some c => c e (count_ q)
    | None => (mkCondRet true true, e)
    end in
  if negb (canQueue ret) then Ret (ret, q, e)
  else '(q, e) ← push_queue ptr q e; Ret (ret, q, e).

(** The loop of [pop] over [pos_]; [fuel] bounds the entries it passes. *)
Fixpoint pos_loop (fuel : nat) (q : WaitQueue) (e : E) : res (WaitQueue * E) :=
  match fuel with
  | O => Ret (q, e)
  | S fuel =>
      match pos_ q, posFunctor_ with
      | Some p, Some pf =>
          let '(ok, e) := pf e p in
          n ← nxt q p;
          let q := with_pos n q in
          if ok : bool then Ret (q, e) else pos_loop fuel q e
      | _, _ => Ret (q, e)
      end
  end.

Definition WQ_pop (q : WaitQueue) (e : E) : res (option positive * WaitQueue * E) :=
  if decide (dummy_ q = tail_ q) then Ret (None, q, e)
  else
    hn ← nxt q (dummy_ q);
    ptr ← deref hn;
    pn ← nxt q ptr;
    let q := if decide (tail_ q = ptr) then with_tail (dummy_ q) q else q in
    let q := if decide (check_ q = Some ptr) then with_check pn q else q in
    let q := with_links (fun m => <[ptr := None]> (<[dummy_ q := pn]> m)) q in
    '(q, e) ← pos_loop (S (size (nexts q))) q e;
    Ret (Some ptr, with_count (u64 (count_ q - 1)) q, e).

Definition WQ_tryPop (q : WaitQueue) (e : E) : res (option positive * WaitQueue * E) :=
  if count_ q =? 0 then Ret (None, q, e) else WQ_pop q e.

(** The destructor pops and deletes every entry; [deleted] is [delete] on an entry. *)
Fixpoint WQ_destroy_loop (fuel : nat) (deleted : E -> positive -> E) (q : WaitQueue) (e : E) : res (WaitQueue * E) :=
  match fuel with
  | O => Ret (q, e)
  | S fuel =>
      '(p, q, e) ← WQ_pop q e;
      match p with
      | None => Ret (q, e)
      | Some p => WQ_destroy_loop fuel deleted q (deleted e p)
      end
  end.
Definition WQ_destroy (fuel : nat) (deleted : E -> positive -> E) (q : WaitQueue) (e : E) : res (WaitQueue * E) :=
  WQ_destroy_loop fuel deleted (with_count 0 (with_pos None (with_check None q))) e.

(** ** Representation *)

(** [l] follows the hook [p]: each hook points to the next, the last one to [n]. *)
Fixpoint linked (m : gmap positive (option positive)) (p : positive) (l : list positive) (n : option positive) : Prop :=
  match l with
  | [] => m !! p = Some n
  | x :: l => m !! p = Some (Some x) /\ linked m x l n
  end.

Record wq_repr (q : WaitQueue) (l : list positive) : Prop := {
  wq_nodup : NoDup (dummy_ q :: l);
  wq_linked : linked (nexts q) (dummy_ q) l None;
  wq_tail : last (dummy_ q :: l) = Some (tail_ q);
  wq_check : forall c, check_ q = Some c -> c ∈ dummy_ q :: l;
  wq_pos : forall p, pos_ q = Some p -> p ∈ l;
  wq_count : Z.of_nat (length l) <= count_ q < 2 ^ 64;
  wq_dist : fits 64 (posDistance_ q) }.

Lemma linked_frame m m' p l n :
  (forall x, x ∈ p :: l -> m' !! x = m !! x) -> linked m p l n -> linked m' p l n.
Proof.
  revert p. induction l as [|x l IH]; intros p H; simpl.
  - rewrite H by set_solver. done.
  - intros [Hp Hl]. rewrite H by set_solver. split; [done|]. apply IH; [|done].
    intros y Hy. apply H. set_solver.
Qed.

Lemma linked_insert m p l n x v :
  x ∉ p :: l -> linked m p l n -> linked (<[x := v]> m) p l n.
Proof.
  intros Hx. apply linked_frame. intros y Hy. rewrite lookup_insert_ne; [done|]. by intros ->.
Qed.

Lemma linked_app m p l1 x l2 n :
  linked m p (l1 ++ x :: l2) n <-> linked m p l1 (Some x) /\ linked m x l2 n.
Proof. revert p. induction l1 as [|y l1 IH]; intros p; simpl; [done|]. rewrite IH. tauto. Qed.

(** The link out of the last hook of a chain may be changed. *)
Lemma linked_end m p l n c v :
  NoDup (p :: l) -> last (p :: l) = Some c -> linked m p l n -> linked (<[c := v]> m) p l v.
Proof.
  revert p. induction l as [|x l IH]; intros p Hnd Hc Hl; simpl in Hl.
  - simplify_eq/=. apply lookup_insert_eq.
  - destruct Hl as [Hp Hl]. apply NoDup_cons in Hnd as [Hpl Hnd].
    rewrite last_cons_cons in Hc. simpl. split; [|by apply IH].
    rewrite lookup_insert_ne; [done|]. intros ->. by apply Hpl, last_Some_elem_of.
Qed.

Lemma linked_lookup_end m p l n c : linked m p l n -> last (p :: l) = Some c -> m !! c = Some n.
Proof.
  revert p. induction l as [|x l IH]; intros p Hl Hc; simpl in Hl; [by simplify_eq/=|].
  rewrite last_cons_cons in Hc. destruct Hl as [_ Hl]. by eapply IH.
Qed.

Lemma linked_lookup_first m p x l n : linked m p (x :: l) n -> m !! p = Some (Some x) /\ linked m x l n.
Proof. done. Qed.

(** The link out of a member of the chain. *)
Lemma linked_first m x l : linked m x l None -> m !! x = Some (head l).
Proof. destruct l; simpl; [done|]. by intros [? _]. Qed.

(** Unlinking [x], which follows [c]. *)
Lemma linked_remove m p l1 c x l2 :
  linked m p (l1 ++ x :: l2) None -> NoDup (p :: l1 ++ x :: l2) -> last (p :: l1) = Some c ->
  linked (<[x := None]> (<[c := head l2]> m)) p (l1 ++ l2) None.
Proof.
  intros [H1 H2]%linked_app Hnd Hc. rewrite app_comm_cons in Hnd.
  apply NoDup_app in Hnd as (Hn1 & Hd & [Hx Hn2]%NoDup_cons).
  assert (x ∉ p :: l1) as Hx1 by (intros Hi; apply (Hd x Hi); set_solver).
  assert (c ∈ p :: l1) as Hcl by by apply last_Some_elem_of.
  assert (c ∉ l2) as Hc2 by (specialize (Hd c Hcl); set_solver).
  destruct l2 as [|y l2]; simpl in H2 |- *.
  - rewrite app_nil_r. apply linked_insert; [done|]. by eapply linked_end.
  - destruct H2 as [_ H2]. apply linked_app. split.
    + apply linked_insert; [done|]. by eapply linked_end.
    + apply linked_insert; [done|]. apply linked_insert; [|done]. done.
Qed.

Lemma split_at_check (d c : positive) l :
  c ∈ d :: l -> exists l1 l2, l = l1 ++ l2 /\ last (d :: l1) = Some c.
Proof.
  intros [->|Hc]%elem_of_cons; [by exists [], l|].
  apply list_elem_of_split in Hc as (l1 & l2 & ->). exists (l1 ++ [c]), l2.
  split; [by rewrite <- app_assoc|]. by rewrite app_comm_cons, last_snoc.
Qed.

Lemma nxt_at q l1 l2 c :
  wq_repr q (l1 ++ l2) -> last (dummy_ q :: l1) = Some c -> nxt q c = Ret (head l2).
Proof.
  intros Hr Hc. unfold nxt. pose proof (wq_linked _ _ Hr) as Hl.
  destruct l2 as [|x l2]; [rewrite app_nil_r in Hl|apply linked_app in Hl as [Hl _]];
    by rewrite (linked_lookup_end _ _ _ _ _ Hl Hc).
Qed.

(** ** push *)

Lemma append_repr q l ptr :
  wq_repr q l -> ptr ∉ dummy_ q :: l -> count_ q + 1 < 2 ^ 64 ->
  wq_repr (with_count (u64 (count_ q + 1)) (with_tail ptr
    (with_links (fun m => <[ptr := None]> (<[tail_ q := Some ptr]> m)) q))) (l ++ [ptr]).
Proof.
  intros [Hnd Hl Ht Hc Hp [Hn1 Hn2] Hd] Hptr Hn. split; simpl.
  - rewrite app_comm_cons. apply NoDup_app. split; [done|]. split; [|apply NoDup_singleton].
    intros x Hx Hx'. apply list_elem_of_singleton in Hx' as ->. done.
  - apply linked_app. split; [|apply lookup_insert_eq].
    apply linked_insert; [done|]. by eapply linked_end.
  - by rewrite app_comm_cons, last_snoc.
  - intros c Hc'%Hc. set_solver.
  - intros p Hp'%Hp. set_solver.
  - rewrite length_app. simpl. unfold u64. rewrite wrap_small; [lia|split; lia].
  - done.
Qed.

Lemma with_pos_repr q l p : wq_repr q l -> (forall x, p = Some x -> x ∈ l) -> wq_repr (with_pos p q) l.
Proof. intros [? ? ? ? ? ? ?] Hp. by split. Qed.
Lemma with_check_repr q l c :
  wq_repr q l -> (forall x, c = Some x -> x ∈ dummy_ q :: l) -> wq_repr (with_check c q) l.
Proof. intros [? ? ? ? ? ? ?] Hp. by split. Qed.

(** Dropping the entry [x] after [check_]. *)
Lemma drop_repr q l1 c x l2 :
  wq_repr q (l1 ++ x :: l2) -> check_ q = Some c -> last (dummy_ q :: l1) = Some c ->
  let q1 := if decide (pos_ q = Some x) then with_pos (head l2) q else q in
  let q2 := if decide (tail_ q1 = x) then with_tail c q1 else q1 in
  wq_repr (with_links (fun m => <[x := None]> (<[c := head l2]> m)) q2) (l1 ++ l2).
Proof.
  intros Hr Hck Hc q1 q2. pose proof Hr as [Hnd Hl Ht Hc0 Hp [Hn1 Hn2] Hd].
  assert (NoDup (dummy_ q :: l1 ++ l2)) as Hnd'.
  { apply (sublist_NoDup _ _ Hnd), sublist_skip, sublist_app; [done|by apply sublist_cons]. }
  assert (x ∉ dummy_ q :: l1 ++ l2) as Hx.
  { rewrite app_comm_cons in Hnd |- *. apply NoDup_app in Hnd as (_ & Hdis & [Hx _]%NoDup_cons).
    intros [Hi|Hi]%elem_of_app; [apply (Hdis x Hi); set_solver|done]. }
  assert (dummy_ q2 = dummy_ q /\ nexts q2 = nexts q /\ count_ q2 = count_ q /\ check_ q2 = check_ q /\
    posDistance_ q2 = posDistance_ q) as (E1 & E2 & E3 & E4 & E5).
  { subst q2 q1. by repeat case_decide. }
  split; simpl; rewrite ?E1, ?E2, ?E3, ?E4, ?E5; try done.
  - by eapply linked_remove.
  - assert (tail_ q1 = tail_ q) as Et by (subst q1; by case_decide).
    rewrite app_comm_cons, last_app_cons in Ht.
    assert (x = tail_ q <-> l2 = []) as Hxt.
    { destruct l2 as [|y l2]; [by simplify_eq/=|]. rewrite last_cons_cons in Ht.
      split; [|done]. intros ->. apply last_Some_elem_of in Ht. set_solver. }
    subst q2. destruct (decide (tail_ q1 = x)) as [Hd'|Hd']; rewrite Et in Hd'; simpl.
    + assert (l2 = []) as -> by (apply Hxt; congruence). by rewrite app_nil_r.
    + rewrite Et. rewrite app_comm_cons. destruct l2 as [|y l2]; [by destruct Hd'; symmetry; apply Hxt|].
      rewrite last_cons_cons in Ht.
      by rewrite last_app_cons.
  - intros c' Hc'. rewrite Hck in Hc'. simplify_eq. apply last_Some_elem_of in Hc. set_solver.
  - assert (pos_ q2 = pos_ q1) as -> by (subst q2; by case_decide).
    intros p Hp'. subst q1. case_decide as Hpx; simpl in Hp'.
    + destruct l2; simplify_eq/=. set_solver.
    + apply Hp in Hp' as Hin. apply elem_of_app in Hin as [?|[->|?]%elem_of_cons]; [set_solver|done|set_solver].
  - rewrite !length_app in *. simpl in Hn1. lia.
Qed.

Lemma check_loop_spec cf :
  (forall e x y, x <> y -> cf (decref e y) x = cf e x) ->
  forall i q e l, wq_repr q l ->
  exists q' e' l' ds, check_loop i cf q e = Ret (q', e') /\ wq_repr q' l' /\
    sublist l' l /\ l ≡ₚ l' ++ ds /\ e' = foldl decref e ds /\ Forall (fun x => cf e x = false) ds /\
    (length ds <= i)%nat /\ count_ q' = count_ q /\ dummy_ q' = dummy_ q /\ posDistance_ q' = posDistance_ q.
Proof.
  intros Hcf. induction i as [|i IH]; intros q e l Hr; simpl.
  { exists q, e, l, []. split_and!; try done; by rewrite app_nil_r. }
  assert (exists q' e' l' ds, Ret (q, e) = Ret (q', e') /\ wq_repr q' l' /\
    sublist l' l /\ l ≡ₚ l' ++ ds /\ e' = foldl decref e ds /\ Forall (fun x => cf e x = false) ds /\
    (length ds <= S i)%nat /\ count_ q' = count_ q /\ dummy_ q' = dummy_ q /\ posDistance_ q' = posDistance_ q) as Hstop.
  { exists q, e, l, []. split_and!; try done; [by rewrite app_nil_r|simpl; lia]. }
  destruct (check_ q) as [c|] eqn:Hck; [|done].
  destruct (split_at_check _ _ _ (wq_check _ _ Hr _ Hck)) as (l1 & l2 & -> & Hc).
  rewrite (nxt_at _ _ _ _ Hr Hc). destruct l2 as [|x l2]; [done|]. cbn [mbind res_bind head].
  destruct (cf e x) eqn:Ecf; cbn [negb].
  - destruct (IH (with_check (Some x) q) e (l1 ++ x :: l2)) as (q' & e' & l' & ds & HH).
    { apply with_check_repr; [done|]. intros ? [= ->]. set_solver. }
    destruct_and! HH. exists q', e', l', ds. split_and!; try done; lia.
  - assert (nxt q x = Ret (head l2)) as ->.
    { apply (nxt_at q (l1 ++ [x]) l2); [by rewrite <- app_assoc|]. by rewrite app_comm_cons, last_snoc. }
    cbn [mbind res_bind]. pose proof (drop_repr _ _ _ _ _ Hr Hck Hc) as Hr'. cbv zeta in Hr'.
    set (q2 := with_links _ _) in *.
    destruct (IH q2 (decref e x) _ Hr') as (q' & e' & l' & ds & Eq & Hr2 & Hsub & Hperm & -> & Hds & Hlen & Hcnt & Hdm & Hpd).
    exists q', (foldl decref (decref e x) ds), l', (x :: ds). split; [done|]. split; [done|].
    assert (count_ q2 = count_ q /\ dummy_ q2 = dummy_ q /\ posDistance_ q2 = posDistance_ q) as (C1 & C2 & C3).
    { subst q2. simpl. by repeat case_decide. }
    rewrite C1, C2, C3 in *. split_and!; try done.
    + etrans; [exact Hsub|]. apply sublist_app; [done|by apply sublist_cons].
    + rewrite <- Permutation_middle, Hperm. by rewrite <- Permutation_middle.
    + constructor; [done|]. pose proof (wq_nodup _ _ Hr) as Hnd.
      rewrite Forall_forall in Hds |- *. intros y Hy. rewrite <- (Hds y Hy), Hcf; [done|]. intros ->.
      apply NoDup_cons in Hnd as [_ Hnd]. rewrite <- Permutation_middle in Hnd.
      apply NoDup_cons in Hnd as [Hx _]. apply Hx. rewrite Hperm. set_solver.
    + simpl. lia.
Qed.

(** The check functor does not look at the reference counts of other entries. *)
Definition check_stable : Prop :=
  forall cf, checkFunctor_ = Some cf -> forall e x y, x <> y -> cf (decref e y) x = cf e x.
Definition invalid (e : E) (x : positive) : Prop :=
  exists cf, checkFunctor_ = Some cf /\ cf e x = false.

Lemma push_queue_spec ptr q e l :
  check_stable -> wq_repr q l -> ptr ∉ dummy_ q :: l -> count_ q + 1 < 2 ^ 64 ->
  exists q' e' l' ds, push_queue ptr q e = Ret (q', e') /\ wq_repr q' l' /\
    sublist l' (l ++ [ptr]) /\ l ++ [ptr] ≡ₚ l' ++ ds /\ e' = foldl decref e ds /\
    Forall (invalid e) ds /\ (length ds <= 2)%nat /\
    count_ q' = count_ q + 1 /\ dummy_ q' = dummy_ q /\ posDistance_ q' = posDistance_ q.
Proof.
  intros Hst Hr Hptr Hn. pose proof (append_repr q l ptr Hr Hptr Hn) as Hr1.
  unfold push_queue. cbv zeta. set (q1 := with_count _ _) in *.
  change (with_count (u64 (count_ (with_tail ptr _) + 1)) _) with q1.
  assert (count_ q1 = count_ q + 1) as Hc1.
  { subst q1. simpl. unfold u64. apply wrap_small. destruct (wq_count _ _ Hr). split; lia. }
  assert (dummy_ q1 = dummy_ q /\ posDistance_ q1 = posDistance_ q) as [Hd1 Hp1] by done.
  clearbody q1. set (q2 := if count_ q1 =? _ then _ else q1).
  assert (wq_repr q2 (l ++ [ptr]) /\ count_ q2 = count_ q1 /\ dummy_ q2 = dummy_ q1 /\
    posDistance_ q2 = posDistance_ q1) as (Hr2 & Hc2 & Hd2 & Hp2).
  { subst q2. destruct (_ =? _); [|done]. split; [|done]. apply with_pos_repr; [done|].
    intros x [= ->]. set_solver. }
  clearbody q2. rewrite Hc1 in Hc2. rewrite Hd1 in Hd2. rewrite Hp1 in Hp2.
  assert (exists q' e' l' ds, Ret (q2, e) = Ret (q', e') /\ wq_repr q' l' /\
    sublist l' (l ++ [ptr]) /\ l ++ [ptr] ≡ₚ l' ++ ds /\ e' = foldl decref e ds /\
    Forall (invalid e) ds /\ (length ds <= 2)%nat /\
    count_ q' = count_ q + 1 /\ dummy_ q' = dummy_ q /\ posDistance_ q' = posDistance_ q) as Hstop.
  { exists q2, e, (l ++ [ptr]), []. split_and!; try done; [by rewrite app_nil_r|simpl; lia]. }
  destruct (_ <? _); [done|]. destruct checkFunctor_ as [cf|] eqn:Hcf; [|done].
  assert (exists b, (match check_ q2 with None => Ret true
    | Some c => n ← nxt q2 c; Ret (bool_decide (n = None)) end) = Ret b) as [b Hb].
  { destruct (check_ q2) as [c|] eqn:Hck; [|eauto].
    destruct (split_at_check _ _ _ (wq_check _ _ Hr2 _ Hck)) as (l1 & l2 & E2 & Hc).
    rewrite E2 in Hr2. rewrite (nxt_at _ _ _ _ Hr2 Hc). simpl. eauto. }
  rewrite Hb. cbn [mbind res_bind].
  set (q3 := if b then with_check (pos_ q2) q2 else q2).
  assert (wq_repr q3 (l ++ [ptr]) /\ count_ q3 = count_ q2 /\ dummy_ q3 = dummy_ q2 /\
    posDistance_ q3 = posDistance_ q2) as (Hr3 & Hc3 & Hd3 & Hp3).
  { subst q3. destruct b; [|done]. split; [|done]. apply with_check_repr; [done|].
    intros x Hx. apply (wq_pos _ _ Hr2) in Hx. set_solver. }
  destruct (check_loop_spec cf (Hst cf Hcf) 2 q3 e _ Hr3) as (q' & e' & l' & ds & HH).
  destruct_and! HH. exists q', e', l', ds. split_and!; try done; try congruence.
  eapply Forall_impl; [eassumption|]. intros x Hx. by exists cf.
Qed.

(** ** pop *)

(** The entries handed to [posFunctor_]: from [pos_] on, up to the first it accepts. *)
Fixpoint advance (pf : E -> positive -> bool * E) (e : E) (s : list positive) : E * list positive :=
  match s with
  | [] => (e, [])
  | p :: s => let '(ok, e) := pf e p in if ok then (e, s) else advance pf e s
  end.

Lemma advance_suffix pf e s x : x ∈ (advance pf e s).2 -> x ∈ tail s.
Proof.
  revert e. induction s as [|p s IH]; intros e; simpl; [done|].
  destruct (pf e p) as [[] e']; simpl; [done|]. intros Hx%IH. by destruct s; set_solver.
Qed.

(** [pos_loop] stops by itself: more fuel than entries is enough. *)
Lemma pos_loop_spec pf : posFunctor_ = Some pf ->
  forall fuel q e p s, linked (nexts q) p s None -> pos_ q = Some p -> (length s < fuel)%nat ->
  pos_loop fuel q e =
    Ret (with_pos (head (advance pf e (p :: s)).2) q, (advance pf e (p :: s)).1).
Proof.
  intros Hpf. induction fuel as [|fuel IH]; intros q e p s Hl Hp Hf; [lia|].
  simpl. rewrite Hp, Hpf. destruct (pf e p) as [ok e1] eqn:Epf.
  unfold nxt. rewrite (linked_first _ _ _ Hl). cbn [deref mbind res_bind].
  destruct ok; [done|]. destruct s as [|y s].
  - by destruct fuel.
  - destruct Hl as [_ Hl]. simpl in Hf. cbn [head]. rewrite (IH (with_pos (Some y) q) e1 y s); [|done|done|lia].
    simpl. by destruct (pf e1 y) as [[] e2].
Qed.

Lemma linked_size m p l n : linked m p l n -> NoDup (p :: l) -> (length l < size m)%nat.
Proof.
  intros Hl Hnd. assert (list_to_set (p :: l) ⊆@{gset positive} dom m) as Hsub.
  { intros x Hx%elem_of_list_to_set. apply elem_of_dom. clear Hnd. revert p Hl Hx.
    induction l as [|y l IH]; intros p Hl Hx; simpl in Hl.
    - apply list_elem_of_singleton in Hx as ->. eauto.
    - destruct Hl as [Hp Hl]. apply elem_of_cons in Hx as [->|Hx]; eauto. }
  apply subseteq_size in Hsub. rewrite size_list_to_set in Hsub by done.
  rewrite size_dom in Hsub. simpl in Hsub. lia.
Qed.

Lemma WQ_pop_nil q e : wq_repr q [] -> WQ_pop q e = Ret (None, q, e).
Proof.
  intros Hr. pose proof (wq_tail _ _ Hr) as Ht. simplify_eq/=.
  unfold WQ_pop. by rewrite decide_True.
Qed.

Lemma WQ_pop_spec q e x l :
  is_Some posFunctor_ -> wq_repr q (x :: l) ->
  exists q' e', WQ_pop q e = Ret (Some x, q', e') /\ wq_repr q' l /\
    count_ q' = count_ q - 1 /\ dummy_ q' = dummy_ q /\ posDistance_ q' = posDistance_ q /\
    (pos_ q = None -> e' = e /\ pos_ q' = None).
Proof.
  intros [pf Hpf] Hr. pose proof Hr as [Hnd [Hd Hl] Ht Hck Hp [Hn1 Hn2] Hdist].
  apply NoDup_cons in Hnd as Hnd2. destruct Hnd2 as [Hdx Hnd2].
  apply NoDup_cons in Hnd2 as Hnd3. destruct Hnd3 as [Hxl Hnd3].
  assert (dummy_ q <> tail_ q) as Hne.
  { intros E1. rewrite last_cons_cons, <- E1 in Ht. by apply last_Some_elem_of in Ht. }
  unfold WQ_pop. rewrite decide_False by done.
  assert (nxt q (dummy_ q) = Ret (Some x)) as -> by (unfold nxt; by rewrite Hd).
  assert (nxt q x = Ret (head l)) as Ex by (unfold nxt; by rewrite (linked_first _ _ _ Hl)).
  cbn [deref mbind res_bind]. rewrite Ex. cbn [mbind res_bind].
  set (q1 := if decide (tail_ q = x) then with_tail _ q else q).
  set (q2 := if decide (check_ q1 = Some x) then with_check (head l) q1 else q1).
  set (q3 := with_links _ q2).
  assert (dummy_ q3 = dummy_ q /\ count_ q3 = count_ q /\ posDistance_ q3 = posDistance_ q /\ pos_ q3 = pos_ q /\
    nexts q3 = <[x := None]> (<[dummy_ q := head l]> (nexts q))) as (D3 & C3 & P3 & S3 & N3).
  { subst q3 q2 q1. simpl. by repeat case_decide. }
  assert (last (dummy_ q :: l) = Some (tail_ q3)) as T3.
  { assert (tail_ q3 = tail_ q1) as -> by (subst q3 q2; simpl; by case_decide).
    subst q1. rewrite last_cons_cons in Ht. destruct l as [|y l].
    - simplify_eq/=. by rewrite decide_True.
    - rewrite last_cons_cons in Ht |- *. rewrite decide_False; [done|]. intros <-.
      by apply Hxl, last_Some_elem_of. }
  assert (forall c, check_ q3 = Some c -> c ∈ dummy_ q :: l) as K3.
  { intros c. assert (check_ q1 = check_ q) as E1 by (subst q1; by case_decide).
    assert (check_ q3 = check_ q2) as -> by done. subst q2. rewrite E1. case_decide as Hc; simpl.
    - destruct l; intros; simplify_eq/=. set_solver.
    - rewrite E1. intros Hc'. apply Hck in Hc' as Hin. set_solver. }
  assert (linked (nexts q3) (dummy_ q) l None) as L3.
  { rewrite N3. apply (linked_remove _ _ [] _ x l); [done|done|done]. }
  clearbody q3. clear q1 q2.
  assert (forall p', (forall y, p' = Some y -> y ∈ l) ->
    wq_repr (with_count (u64 (count_ q3 - 1)) (with_pos p' q3)) l) as Hfin.
  { intros p' Hp'. simpl in Hn1. split; simpl; rewrite ?D3, ?C3, ?P3; try done.
    - by apply NoDup_cons in Hnd as [_ ?]; apply NoDup_cons; set_solver.
    - unfold u64. rewrite wrap_small; [lia|split; lia]. }
  assert (u64 (count_ q3 - 1) = count_ q - 1) as Hcnt.
  { rewrite C3. simpl in Hn1. unfold u64. rewrite wrap_small; [lia|split; lia]. }
  destruct (pos_ q) as [p|] eqn:Hpos.
  - assert (exists s, linked (nexts q3) p s None /\ (length s < S (size (nexts q3)))%nat /\
      (forall y, y ∈ s -> y ∈ l)) as (s & Hls & Hlen & Hsub).
    { destruct (decide (p = x)) as [->|Hpx].
      - exists []. split; [|simpl; split; [lia|set_solver]]. simpl. rewrite N3. apply lookup_insert_eq.
      - assert (p ∈ l) as Hin by (specialize (Hp p eq_refl); set_solver).
        apply list_elem_of_split in Hin as (l1 & l2 & ->).
        pose proof L3 as [_ L3']%linked_app. exists l2. split; [done|]. split; [|set_solver].
        assert (NoDup (p :: l2)) by (by apply NoDup_app in Hnd3 as (_ & _ & ?)).
        pose proof (linked_size _ _ _ _ L3' ltac:(done)). lia. }
    rewrite (pos_loop_spec pf Hpf _ _ e p s Hls S3 Hlen). cbn [mbind res_bind].
    do 2 eexists. split; [reflexivity|]. split; [|split_and!; done].
    apply Hfin. intros y Hy. apply Hsub, (advance_suffix pf e (p :: s)).
    destruct (advance pf e (p :: s)).2; simplify_eq/=. set_solver.
  - simpl pos_loop. rewrite S3. cbn [mbind res_bind].
    do 2 eexists. split; [reflexivity|]. split; [|split_and!; try done].
    assert (q3 = with_pos None q3) as -> by (destruct q3; simpl in *; by subst). by apply Hfin.
Qed.

Lemma WQ_new_repr dummy posD : fits 64 posD -> wq_repr (WQ_new dummy posD) [].
Proof.
  intros Hp. split; simpl; try done.
  - apply NoDup_singleton.
  - apply lookup_insert_eq.
  - intros c [= <-]. set_solver.
Qed.

(** ** Runs *)

Inductive wq_op := WPush (p : positive) | WPop.

(** A run answers each pop; a pop of the empty queue changes nothing. *)
Fixpoint run_wq (ops : list wq_op) (q : WaitQueue) (e : E) : res (list positive * WaitQueue * E) :=
  match ops with
  | [] => Ret ([], q, e)
  | WPush p :: ops => '(_, q, e) ← WQ_push p None q e; run_wq ops q e
  | WPop :: ops =>
      '(o, q, e) ← WQ_pop q e;
      '(os, q, e) ← run_wq ops q e;
      Ret (option_list o ++ os, q, e)
  end.

Definition pushed (ops : list wq_op) : list positive :=
  omap (fun o => match o with WPush p => Some p | WPop => None end) ops.

Lemma run_wq_spec ops : forall q e l,
  check_stable -> is_Some posFunctor_ -> wq_repr q l ->
  NoDup (dummy_ q :: l ++ pushed ops) -> count_ q + Z.of_nat (length ops) < 2 ^ 64 ->
  exists out q' e' l' ds, run_wq ops q e = Ret (out, q', e') /\ wq_repr q' l' /\
    sublist (out ++ l') (l ++ pushed ops) /\ l ++ pushed ops ≡ₚ out ++ l' ++ ds.
Proof.
  induction ops as [|[p|] ops IH]; intros q e l Hst Hpf Hr Hnd Hn.
  - exists [], q, e, l, []. simpl. rewrite !app_nil_r. by split_and!.
  - change (pushed (WPush p :: ops)) with (p :: pushed ops) in *. simpl in Hn.
    assert (p ∉ dummy_ q :: l) as Hp.
    { rewrite app_comm_cons in Hnd. apply NoDup_app in Hnd as (_ & Hd & _).
      intros Hi. apply (Hd p Hi). set_solver. }
    destruct (push_queue_spec p q e l Hst Hr Hp ltac:(lia)) as (q1 & e1 & l1 & ds1 & E1 & Hr1 & Hs1 & Hp1 & HH).
    destruct HH as (_ & _ & _ & Hc1 & Hd1 & _).
    destruct (IH q1 e1 l1 Hst Hpf Hr1) as (out & q' & e' & l' & ds & E2 & Hr' & Hs & Hpm).
    { rewrite Hd1. eapply sublist_NoDup; [exact Hnd|]. apply sublist_skip.
      replace (l ++ p :: pushed ops) with ((l ++ [p]) ++ pushed ops) by by rewrite <- app_assoc.
      by apply sublist_app. }
    { lia. }
    exists out, q', e', l', (ds ++ ds1). simpl. unfold WQ_push. cbn [canQueue negb].
    rewrite E1. cbn [mbind res_bind]. rewrite E2. split; [done|]. split; [done|].
    replace (l ++ p :: pushed ops) with ((l ++ [p]) ++ pushed ops) by by rewrite <- app_assoc.
    split.
    + etrans; [exact Hs|]. by apply sublist_app.
    + rewrite Hp1, <- app_assoc, (Permutation_app_comm ds1), app_assoc, Hpm. by rewrite <- !app_assoc.
  - change (pushed (WPop :: ops)) with (pushed ops) in *. simpl in Hn. destruct l as [|x l].
    + destruct (IH q e [] Hst Hpf Hr Hnd ltac:(lia)) as (out & q' & e' & l' & ds & E2 & HH).
      exists out, q', e', l', ds. simpl. rewrite WQ_pop_nil by done. cbn [mbind res_bind]. by rewrite E2.
    + destruct (WQ_pop_spec q e x l Hpf Hr) as (q1 & e1 & E1 & Hr1 & Hc1 & Hd1 & _).
      destruct (IH q1 e1 l Hst Hpf Hr1) as (out & q' & e' & l' & ds & E2 & Hr' & Hs & Hpm).
      { rewrite Hd1. eapply sublist_NoDup; [exact Hnd|]. apply sublist_skip. by apply sublist_cons. }
      { lia. }
      exists (x :: out), q', e', l', ds. simpl. rewrite E1. cbn [mbind res_bind]. rewrite E2.
      split; [done|]. split; [done|]. split; [by apply sublist_skip|]. by rewrite Hpm.
Qed.
End wait_queue.

Arguments WaitQueue : clear implicits.

(** ** The properties *)


(** The environment of the examples: the entries that are invalid. *)
Definition ex_check (bad : list positive) (x : positive) : bool := bool_decide (x ∉ bad).
Definition ex_pos (bad : list positive) (x : positive) : bool * list positive := (true, bad).
Definition ex_decref (bad : list positive) (x : positive) : list positive := bad.
Definition ex_ops : list wq_op := (WPush <$> (Pos.of_nat <$> seq 2 16)) ++ [WPop; WPop].


(** C22: [push] accepts exactly when its condition does, appends the entry, and
    its sweep drops at most two entries, each of them invalid and released once; the queue
    stays well formed.  [count_] grows by one whatever the sweep drops. *)
Theorem WQ_push_sweeps {E : Type} (cf : option (E -> positive -> bool)) (decref : E -> positive -> E)
    (ptr : positive) (cond : E -> Z -> CondRet * E) (q : WaitQueue) (e e1 : E) (ret : CondRet) (l : list positive) :
  check_stable cf decref -> wq_repr q l -> ptr ∉ dummy_ q :: l -> count_ q + 1 < 2 ^ 64 ->
  cond e (count_ q) = (ret, e1) ->
  (canQueue ret = false /\ WQ_push cf decref ptr (Some cond) q e = Ret (ret, q, e1)) \/
  (canQueue ret = true /\ exists q' l' ds,
    WQ_push cf decref ptr (Some cond) q e = Ret (ret, q', foldl decref e1 ds) /\ wq_repr q' l' /\
    sublist l' (l ++ [ptr]) /\ l ++ [ptr] ≡ₚ l' ++ ds /\ Forall (invalid cf e1) ds /\
    (length ds <= 2)%nat /\ count_ q' = count_ q + 1).
Proof.
  intros Hst Hr Hp Hn Hc. unfold WQ_push. rewrite Hc.
  destruct (canQueue ret); [right|by left]. split; [done|].
  destruct (push_queue_spec cf decref ptr q e1 l Hst Hr Hp Hn) as (q' & ? & l' & ds & E1 & HH).
  destruct_and! HH. subst. exists q', l', ds. cbn [negb]. rewrite E1. by split_and!.
Qed.

Lemma WQ_push_sweeps_witness :
  exists q' l' ds,
    WQ_push (Some ex_check) ex_decref 2 (Some (fun e _ => (mkCondRet true false, e))) (WQ_new 1 0) [] =
      Ret (mkCondRet true false, q', foldl ex_decref [] ds) /\ wq_repr q' l' /\ [2%positive] ≡ₚ l' ++ ds.
Proof.
  destruct (WQ_push_sweeps (Some ex_check) ex_decref 2 (fun e _ => (mkCondRet true false, e))
    (WQ_new 1 0) [] [] (mkCondRet true false) []) as [[? _]|(_ & q' & l' & ds & H1 & H2 & _ & H3 & _)].
  - intros ? [= <-] e x y _. reflexivity.
  - apply WQ_new_repr. split; [discriminate|reflexivity].
  - simpl. rewrite list_elem_of_singleton. discriminate.
  - reflexivity.
  - reflexivity.
  - discriminate.
  - exists q', l', ds. split; [exact H1|]. split; [exact H2|exact H3].
Defined.

(** The count drifts.  The validity sweep unlinks an entry without counting
    it down: after 16 pushes of which two entries are invalid, and pops until the queue is
    empty ([head_ == tail_]), [count_] is still 2 and [empty()] is false. *)
Theorem WaitQueue_count_drift :
  let ops := (WPush <$> (Pos.of_nat <$> seq 2 16)) ++ replicate 14 WPop in
  exists out q, run_wq (Some ex_check) (Some ex_pos) ex_decref ops (WQ_new 1 0) [2%positive; 3%positive]
      = Ret (out, q, [2%positive; 3%positive]) /\
    length out = 14%nat /\ dummy_ q = tail_ q /\ count_ q = 2 /\ WQ_empty q = false.
Proof. eexists _, _. split; [vm_compute; reflexivity|]. by split_and!. Qed.
