(* ===== verification/CondVar.v ===== *)
(** [ConditionVariableAnyT] of [include/co/sync/co_condition_variable.h].

    [Module Protocol] is the handshake on one [Entry] between the waiting coroutine or
    native thread, the notifier and the suspension timer: the flag word [suspendFlags], the
    lock [noTimeoutLock] and the suspension of the coroutine, one atomic access per step.
    [Section notify] is [notify_one] and [notify_all] over the [WaitQueue] of entries. *)
From S2P Require Import Prelude WaitQueue.
Local Open Scope Z_scope.

(** [enum eSuspendFlag]. *)
Definition suspend_begin : Z := 1.
Definition suspend_end : Z := 2.
Definition wakeup_begin : Z := 4.
Definition wakeup_end : Z := 8.
Definition has (flag bit : Z) : bool := negb (Z.land flag bit =? 0).

(** [enum class cv_status]. *)
Inductive cv_status := no_timeout | timeout | no_queued.
#[export] Instance cv_status_eq_dec : EqDecision cv_status.
Proof. solve_decision. Defined.

Module Protocol.

(** Where the waiter is in [do_wait], from its loop on ([W_loop]: about to load the flags,
    spinning included; [W_loaded]: about to compare-and-exchange). *)
Inductive wpc :=
| W_loop | W_loaded (flag : Z) | W_wakeup_end
| W_suspend (flag : Z) | W_publish (flag : Z) | W_prewait | W_blocked | W_resumed
| W_return (r : cv_status).

(** Where the notifier is in [Entry::notify]. *)
Inductive npc :=
| N_loop | N_loaded (flag : Z) | N_lock (flag : Z) | N_func (flag : Z) | N_store (flag : Z)
| N_suspend_end | N_mtx | N_try | N_wakeup | N_native_func
| N_return (b : bool) | N_assert.

(** The coroutine's suspension: [Processor::Wakeup] succeeds once per suspension. *)
Inductive suspension := not_suspended | suspended | woken.
Inductive owner := nobody | waiter | notifier.

#[global] Instance wpc_eq_dec : EqDecision wpc.
Proof. solve_decision. Defined.
#[global] Instance npc_eq_dec : EqDecision npc.
Proof. solve_decision. Defined.
#[global] Instance suspension_eq_dec : EqDecision suspension.
Proof. solve_decision. Defined.
#[global] Instance owner_eq_dec : EqDecision owner.
Proof. solve_decision. Defined.

Record Entry := mkEntry {
  native : bool;            (* the waiter is a native thread *)
  timed : bool;             (* [time] is not null *)
  suspendFlags : Z;
  noTimeoutLock : bool;
  coroEntry : suspension;
  mtx : owner;              (* [nativeThreadEntry->mtx] *)
  applied : nat;            (* how often [func(value)] ran *)
  wat : wpc;
  nat_ : npc }.
#[global] Instance Entry_eq_dec : EqDecision Entry.
Proof. solve_decision. Defined.

Definition init_entry (native timed : bool) : Entry :=
  mkEntry native timed 0 false not_suspended nobody 0 W_loop N_loop.

(** Field updates. *)
Definition w_at (w : wpc) (s : Entry) :=
  mkEntry (native s) (timed s) (suspendFlags s) (noTimeoutLock s) (coroEntry s) (mtx s) (applied s) w (nat_ s).
Definition n_at (n : npc) (s : Entry) :=
  mkEntry (native s) (timed s) (suspendFlags s) (noTimeoutLock s) (coroEntry s) (mtx s) (applied s) (wat s) n.
Definition set_flags (f : Z) (s : Entry) :=
  mkEntry (native s) (timed s) f (noTimeoutLock s) (coroEntry s) (mtx s) (applied s) (wat s) (nat_ s).
Definition set_lock (s : Entry) :=
  mkEntry (native s) (timed s) (suspendFlags s) true (coroEntry s) (mtx s) (applied s) (wat s) (nat_ s).
Definition set_coro (c : suspension) (s : Entry) :=
  mkEntry (native s) (timed s) (suspendFlags s) (noTimeoutLock s) c (mtx s) (applied s) (wat s) (nat_ s).
Definition set_mtx (o : owner) (s : Entry) :=
  mkEntry (native s) (timed s) (suspendFlags s) (noTimeoutLock s) (coroEntry s) o (applied s) (wat s) (nat_ s).
Definition apply_func (s : Entry) :=
  mkEntry (native s) (timed s) (suspendFlags s) (noTimeoutLock s) (coroEntry s) (mtx s) (S (applied s)) (wat s) (nat_ s).

(** One step of [do_wait]. *)
Definition wait_step (s : Entry) : list Entry :=
  match wat s with
  | W_loop =>
      if has (suspendFlags s) wakeup_begin then [w_at W_wakeup_end s]
      else [w_at (W_loaded (suspendFlags s)) s]
  | W_loaded flag =>
      w_at W_loop s ::          (* the weak exchange may fail *)
      (if suspendFlags s =? flag
       then [w_at (W_suspend flag) (set_flags (Z.lor flag suspend_begin) s)] else [])
  | W_wakeup_end => if has (suspendFlags s) wakeup_end then [w_at (W_return no_timeout) s] else []
  | W_suspend flag =>
      let flag := Z.lor flag (Z.lor suspend_begin suspend_end) in
      if native s then [w_at (W_publish flag) (set_mtx waiter s)]
      else [w_at (W_publish flag) (set_coro suspended s)]
  | W_publish flag => [w_at (if native s then W_prewait else W_blocked) (set_flags flag s)]
  | W_prewait => [w_at W_blocked (set_mtx nobody s)]
  | W_blocked =>
      if native s then                      (* notified, timed out or spuriously woken *)
        (if decide (mtx s = nobody) then [w_at W_resumed (set_mtx waiter s)] else [])
      else if decide (coroEntry s = woken) then [w_at W_resumed s] else []
  | W_resumed =>
      let r := if noTimeoutLock s then no_timeout else timeout in
      let s := set_lock s in
      [w_at (W_return r) (if native s then set_mtx nobody s else s)]
  | W_return _ => []
  end.

(** One step of [Entry::notify]. *)
Definition notify_step (s : Entry) : list Entry :=
  match nat_ s with
  | N_loop =>
      if has (suspendFlags s) suspend_begin then [n_at N_suspend_end s]
      else [n_at (N_loaded (suspendFlags s)) s]
  | N_loaded flag =>
      n_at N_loop s ::
      (if suspendFlags s =? flag
       then [n_at (N_lock flag) (set_flags (Z.lor flag wakeup_begin) s)] else [])
  | N_lock flag =>
      let flag := Z.lor flag (Z.lor wakeup_begin wakeup_end) in
      if noTimeoutLock s then [n_at N_assert s] else [n_at (N_func flag) (set_lock s)]
  | N_func flag => [n_at (N_store flag) (apply_func s)]
  | N_store flag => [n_at (N_return true) (set_flags flag s)]
  | N_suspend_end =>
      if has (suspendFlags s) suspend_end then [n_at (if native s then N_mtx else N_try) s] else []
  | N_mtx => if decide (mtx s = nobody) then [n_at N_try (set_mtx notifier s)] else []
  | N_try =>
      if noTimeoutLock s
      then [n_at (N_return false) (if native s then set_mtx nobody s else s)]
      else [n_at (if native s then N_native_func else N_wakeup) (set_lock s)]
  | N_wakeup =>
      if decide (coroEntry s = suspended)
      then [n_at (N_return true) (apply_func (set_coro woken s))]
      else [n_at (N_return false) s]
  | N_native_func => [n_at (N_return true) (set_mtx nobody (apply_func s))]
  | N_return _ | N_assert => []
  end.

(** The timer started by [Processor::Suspend(time)] calls [Processor::Wakeup]. *)
Definition timer_step (s : Entry) : list Entry :=
  if timed s && bool_decide (coroEntry s = suspended) then [set_coro woken s] else [].

Definition succs (s : Entry) : list Entry := wait_step s ++ notify_step s ++ timer_step s.

Definition inits : list Entry :=
  [init_entry false false; init_entry false true; init_entry true false; init_entry true true].

Definition step (s s' : Entry) : Prop := s' ∈ succs s.
Definition reach : Entry -> Prop := reachable step (fun s => s ∈ inits).

Definition states : list Entry := Eval vm_compute in explore succs 2000 [] inits.

Lemma states_init : forallb (fun x => bool_decide (x ∈ states)) inits = true.
Proof. vm_compute. reflexivity. Qed.
Lemma states_closed : closed_under succs states = true.
Proof. vm_compute. reflexivity. Qed.

Lemma reach_check (P : Entry -> bool) : forallb P states = true -> forall s, reach s -> P s = true.
Proof. intros HP. exact (explored succs inits states P states_init states_closed HP). Qed.

(** A run given by the index of the successor taken at each step. *)
Fixpoint follow (path : list nat) (s : Entry) : option Entry :=
  match path with
  | [] => Some s
  | i :: path => s ← succs s !! i; follow path s
  end.

Lemma follow_reach path s s' : reach s -> follow path s = Some s' -> reach s'.
Proof.
  revert s. induction path as [|i path IH]; intros s Hs Hf; simpl in Hf; [by simplify_eq|].
  destruct (succs s !! i) as [s1|] eqn:E; [|done]. apply (IH s1); [|done].
  destruct Hs as (s0 & H0 & Hr). exists s0. split; [done|]. eapply rtc_r; [exact Hr|].
  by eapply list_elem_of_lookup_2.
Qed.

Definition returned (s : Entry) : bool :=
  match wat s, nat_ s with W_return _, N_return _ => true | _, _ => false end.

(** What the two sides may conclude, as a check on one state. *)
Definition agreement (s : Entry) : bool :=
  (applied s <=? 1)%nat && negb (bool_decide (nat_ s = N_assert)) &&
  implb (bool_decide (wat s = W_return timeout))
        ((applied s =? 0)%nat && negb (bool_decide (nat_ s = N_return true))) &&
  implb (bool_decide (nat_ s = N_return true)) (applied s =? 1)%nat &&
  implb (native s && bool_decide (wat s = W_return no_timeout) && returned s)
        ((applied s =? 1)%nat && bool_decide (nat_ s = N_return true)).

Lemma agreement_all : forallb agreement states = true.
Proof. vm_compute. reflexivity. Qed.

Lemma can_return_all : forallb (fun s => existsb returned (explore succs 2000 [] [s])) states = true.
Proof. vm_compute. reflexivity. Qed.


(** A timed coroutine that is suspended and then notified. *)
Definition notified_run : list nat := [0; 1; 0; 0; 0; 0; 0; 0; 0; 0]%nat.

Definition notified_entry : Entry :=
  Eval vm_compute in default (init_entry false true) (follow notified_run (init_entry false true)).

Lemma init_reach native timed : reach (init_entry native timed).
Proof. exists (init_entry native timed). split; [destruct native, timed; set_solver|apply rtc_refl]. Qed.

Lemma notified_reach : reach notified_entry.
Proof. apply (follow_reach notified_run _ _ (init_reach false true)). vm_compute. reflexivity. Qed.


(** The handshake cannot deadlock.  From every reachable state the steps
    of the waiter, the notifier and the timer lead to a state in which both calls have
    returned. *)
Theorem cv_can_return (s : Entry) :
  reach s -> exists s', rtc step s s' /\ returned s' = true.
Proof.
  intros Hs%(reach_check _ can_return_all). apply existsb_exists in Hs as (s' & Hin & Hr).
  exists s'. split; [|done]. apply list_elem_of_In in Hin.
  eapply explore_sound; [|exact Hin]. intros y Hy. apply list_elem_of_singleton in Hy as ->. apply rtc_refl.
Qed.

Lemma cv_can_return_witness :
  exists s', rtc step (init_entry true false) s' /\ returned s' = true.
Proof.
  apply cv_can_return, init_reach.
Defined.

(** A state that evaluation finds from a start state. *)
Lemma find_reach (P : Entry -> bool) (n t : bool) :
  existsb P (explore succs 2000 [] [init_entry n t]) = true -> exists s, reach s /\ P s = true.
Proof.
  intros (s & Hin & H)%existsb_exists. exists s. split; [|done].
  destruct (init_reach n t) as (s0 & H0 & Hr). exists s0. split; [done|]. etrans; [exact Hr|].
  apply list_elem_of_In in Hin. eapply explore_sound; [|exact Hin].
  intros y Hy. apply list_elem_of_singleton in Hy as ->. apply rtc_refl.
Qed.

Definition phantom (s : Entry) : bool :=
  negb (native s) && bool_decide (wat s = W_return no_timeout) &&
  bool_decide (nat_ s = N_return false) && (applied s =? 0)%nat.

(** A notification can be lost.  When the timer wakes a suspended coroutine
    between the notifier's [try_lock] of [noTimeoutLock] and its [Processor::Wakeup], the
    [Wakeup] fails and [notify] returns false without running the function, but the waiter
    finds the lock taken and reports [no_timeout]: it takes itself to be notified and reads
    a value nobody wrote. *)
Theorem cv_phantom_notification :
  exists s, reach s /\ native s = false /\ wat s = W_return no_timeout /\
    nat_ s = N_return false /\ applied s = 0%nat.
Proof.
  destruct (find_reach phantom false true) as (s & Hr & H); [vm_compute; reflexivity|].
  exists s. unfold phantom in H.
  rewrite !andb_true_iff, negb_true_iff, !bool_decide_eq_true, Nat.eqb_eq in H.
  destruct H as [[[? ?] ?] ?]. done.
Qed.

Definition spurious (s : Entry) : bool :=
  native s && negb (timed s) && bool_decide (wat s = W_return timeout).

(** A native thread that waits without a deadline can report [timeout]: the
    wait has no predicate loop, so a spurious wake-up of the condition variable ends it. *)
Theorem cv_spurious_timeout :
  exists s, reach s /\ native s = true /\ timed s = false /\ wat s = W_return timeout.
Proof.
  destruct (find_reach spurious true false) as (s & Hr & H); [vm_compute; reflexivity|].
  exists s. unfold spurious in H. rewrite !andb_true_iff, negb_true_iff, bool_decide_eq_true in H.
  destruct H as [[? ?] ?]. done.
Qed.
End Protocol.

(** ** The queue of entries *)

Section notify.
Context {V : Type}.

Record CvEntry := mkCv {
  proto : Protocol.Entry;
  isWaiting : bool;
  notified : bool;          (* [nativeThreadEntry->notified], which no code locks *)
  value : V;
  refs : Z }.

Local Abbreviation env := (gmap positive CvEntry).

Definition upd_entry (p : positive) (f : CvEntry -> CvEntry) (e : env) : env := alter f p e.
Definition set_proto (s : Protocol.Entry) (c : CvEntry) := mkCv s (isWaiting c) (notified c) (value c) (refs c).
Definition set_isWaiting (b : bool) (c : CvEntry) := mkCv (proto c) b (notified c) (value c) (refs c).
Definition set_value (v : V) (c : CvEntry) := mkCv (proto c) (isWaiting c) (notified c) v (refs c).
Definition DecrementRef (e : env) (p : positive) : env :=
  upd_entry p (fun c => mkCv (proto c) (isWaiting c) (notified c) (value c) (refs c - 1)) e.
Definition IncrementRef (e : env) (p : positive) : env :=
  upd_entry p (fun c => mkCv (proto c) (isWaiting c) (notified c) (value c) (refs c + 1)) e.

(** [Entry::notify] while the other sides rest: the notifier's own steps, in order, with
    the compare-and-exchange succeeding.  [None]: it spins or its assertion fails. *)
Fixpoint run_notify (fuel : nat) (s : Protocol.Entry) : option (bool * Protocol.Entry) :=
  match Protocol.nat_ s with
  | Protocol.N_return b => Some (b, s)
  | _ =>
      match fuel with
      | O => None
      | S fuel => s' ← last (Protocol.notify_step s); run_notify fuel s'
      end
  end.
Definition Entry_notify (s : Protocol.Entry) : option (bool * Protocol.Entry) :=
  run_notify 6 (Protocol.n_at Protocol.N_loop s).

(** The sweep's test.  [IsExpire] of a [coroEntry] that is not assigned yet, or whose
    suspension is over, is true. *)
Definition isValid (c : CvEntry) : bool :=
  if negb (isWaiting c) then true
  else if negb (has (Protocol.suspendFlags (proto c)) suspend_begin) then true
  else if negb (Protocol.native (proto c)) then bool_decide (Protocol.coroEntry (proto c) = Protocol.suspended)
  else notified c.

Definition checkFunctor (e : env) (p : positive) : bool :=
  match e !! p with Some c => isValid c | None => true end.

(** [entry->notify(func)]: the flag protocol, with [func] applied to the value on success. *)
Definition notify_entry (func : V -> V) (e : env) (p : positive) : res (bool * env) :=
  c ← deref (e !! p);
  '(b, s) ← deref (Entry_notify (proto c));
  Ret (b, upd_entry p (fun c => set_value (if b : bool then func (value c) else value c) (set_proto s c)) e).

(** [convertToNonblockingFunctor]: what [posFunctor_] does to the entry at [pos_]. *)
Definition posFunctor (convert : V -> V) (e : env) (p : positive) : bool * env :=
  match notify_entry convert e p with
  | Ret (true, e) => (true, upd_entry p (set_isWaiting false) e)
  | Ret (false, e) => (false, e)
  | _ => (false, e)
  end.

Fixpoint notify_one (fuel : nat) (convert func : V -> V) (q : WaitQueue) (e : env) : res (bool * WaitQueue * env) :=
  match fuel with
  | O => Ret (false, q, e)
  | S fuel =>
      '(o, q, e) ← WQ_pop (Some (posFunctor convert)) q e;
      match o with
      | None => Ret (false, q, e)
      | Some p =>
          c ← deref (e !! p);
          if negb (isWaiting c)
          then Ret (true, q, DecrementRef (upd_entry p (fun c => set_value (func (value c)) c) e) p)
          else
            '(b, e) ← notify_entry func e p;
            let e := DecrementRef e p in
            if b : bool then Ret (true, q, e) else notify_one fuel convert func q e
      end
  end.

Fixpoint notify_all (fuel : nat) (convert func : V -> V) (q : WaitQueue) (e : env) : res (nat * WaitQueue * env) :=
  match fuel with
  | O => Ret (O, q, e)
  | S fuel' =>
      '(b, q, e) ← notify_one fuel convert func q e;
      if b : bool then '(n, q, e) ← notify_all fuel' convert func q e; Ret (S n, q, e)
      else Ret (O, q, e)
  end.

(** The condition [do_wait] hands to [push], around the caller's [cond]. *)
Definition wait_cond (p : positive) (cond : option (Z -> CondRet)) (e : env) (queueSize : Z) : CondRet * env :=
  let ret := match cond with Some c => c queueSize | None => mkCondRet true true end in
  if negb (canQueue ret) then (ret, e)
  else
    let e := IncrementRef e p in
    if negb (needWait ret) then (ret, upd_entry p (set_isWaiting false) e) else (ret, e).

(** [do_wait] up to the release of the caller's lock: [Some status] when it returns without
    waiting.  The new entry [p] has one reference, which [AutoRelease] drops on return. *)
Definition do_wait_enqueue (p : positive) (native timed : bool) (v : V) (cond : option (Z -> CondRet))
    (q : WaitQueue) (e : env) : res (option cv_status * WaitQueue * env) :=
  let e := <[p := mkCv (Protocol.init_entry native timed) true false v 1]> e in
  '(ret, q, e) ← WQ_push (Some checkFunctor) DecrementRef p (Some (wait_cond p cond)) q e;
  if negb (canQueue ret) then Ret (Some no_queued, q, DecrementRef e p)
  else if negb (needWait ret) then Ret (Some no_timeout, q, DecrementRef e p)
  else Ret (None, q, e).

Definition cv_empty (q : WaitQueue) : bool := WQ_empty q.
(** [bool size()]: the count converted to a truth value. *)
Definition cv_size (q : WaitQueue) : bool := negb (WQ_size q =? 0).

(** ** What [notify_one] and [notify_all] do to a queue of resting entries *)

(** The notification of [p] would succeed, or would find the wait over. *)
Definition deliverable (e : env) (p : positive) : Prop :=
  exists c, e !! p = Some c /\ (isWaiting c = false \/ exists s, Entry_notify (proto c) = Some (true, s)).
Definition dead (e : env) (p : positive) : Prop :=
  exists c s, e !! p = Some c /\ isWaiting c = true /\ Entry_notify (proto c) = Some (false, s).

Lemma deliverable_ext e e' p : e' !! p = e !! p -> deliverable e p -> deliverable e' p.
Proof. intros E. unfold deliverable. rewrite E. exact id. Qed.
Lemma dead_ext e e' p : e' !! p = e !! p -> dead e p -> dead e' p.
Proof. intros E. unfold dead. rewrite E. exact id. Qed.

Lemma lookup_upd_entry p f e y :
  upd_entry p f e !! y = if decide (p = y) then f <$> e !! y else e !! y.
Proof. unfold upd_entry. rewrite lookup_alter. case_decide; congruence. Qed.
Lemma lookup_DecrementRef p e y :
  DecrementRef e p !! y =
    if decide (p = y) then (fun c => mkCv (proto c) (isWaiting c) (notified c) (value c) (refs c - 1)) <$> e !! y
    else e !! y.
Proof. apply lookup_upd_entry. Qed.

(** [notify_one] drops the entries whose wait is over and serves the first other one. *)
Lemma notify_one_spec convert func fuel : forall q e l,
  wq_repr q l -> pos_ q = None -> Forall (fun p => deliverable e p \/ dead e p) l ->
  (length l < fuel)%nat ->
  exists ds b rest q' e', notify_one fuel convert func q e = Ret (b, q', e') /\
    wq_repr q' rest /\ pos_ q' = None /\ Forall (dead e) ds /\
    (b = false /\ l = ds /\ rest = [] /\ (forall y, y ∉ l -> e' !! y = e !! y) \/
     b = true /\ exists p c, l = ds ++ p :: rest /\ deliverable e p /\ e !! p = Some c /\
       (exists c', e' !! p = Some c' /\ value c' = func (value c) /\ refs c' = refs c - 1) /\
       (forall y, y ∉ ds ++ [p] -> e' !! y = e !! y)).
Proof.
  induction fuel as [|fuel IH]; intros q e l Hr Hpos Hl Hf; [lia|]. simpl.
  destruct l as [|p l].
  { rewrite WQ_pop_nil by done. exists [], false, [], q, e. split_and!; try done. by left. }
  destruct (WQ_pop_spec (Some (posFunctor convert)) DecrementRef q e p l (mk_is_Some _ _ eq_refl) Hr)
    as (q1 & e1 & -> & Hr1 & _ & _ & _ & He1).
  destruct (He1 Hpos) as [-> Hpos1]. cbn [mbind res_bind].
  pose proof (wq_nodup _ _ Hr) as [_ Hnd]%NoDup_cons. apply NoDup_cons in Hnd as [Hpl Hnd].
  apply Forall_cons in Hl as [Hp Hl].
  destruct Hp as [(c & Hc & Hd)|(c & s & Hc & Hw & Hs)]; rewrite Hc; cbn [deref mbind res_bind].
  - destruct (isWaiting c) eqn:Ew; cbn [negb].
    + destruct Hd as [?|[s Hs]]; [done|]. unfold notify_entry. rewrite Hc. cbn [deref mbind res_bind].
      rewrite Hs. cbn [deref mbind res_bind].
      exists [], true, l. do 2 eexists. split; [reflexivity|]. split; [done|]. split; [done|]. split; [done|].
      right. split; [done|]. exists p, c. split; [done|]. split; [exists c; eauto|]. split; [done|]. split.
      * rewrite lookup_DecrementRef, lookup_upd_entry, !decide_True by done. rewrite Hc. simpl. eauto.
      * intros y Hy. rewrite lookup_DecrementRef, lookup_upd_entry, !decide_False by set_solver. done.
    + exists [], true, l. do 2 eexists. split; [reflexivity|]. split; [done|]. split; [done|]. split; [done|].
      right. split; [done|]. exists p, c. split; [done|]. split; [exists c; eauto|]. split; [done|]. split.
      * rewrite lookup_DecrementRef, lookup_upd_entry, !decide_True by done. rewrite Hc. simpl. eauto.
      * intros y Hy. rewrite lookup_DecrementRef, lookup_upd_entry, !decide_False by set_solver. done.
  - rewrite Hw. cbn [negb]. unfold notify_entry. rewrite Hc. cbn [deref mbind res_bind].
    rewrite Hs. cbn [deref mbind res_bind].
    set (e2 := DecrementRef _ p).
    assert (forall y, y <> p -> e2 !! y = e !! y) as He2.
    { intros y Hy. unfold e2. rewrite lookup_DecrementRef, lookup_upd_entry, !decide_False by done. done. }
    destruct (IH q1 e2 l Hr1 Hpos1) as (ds & b & rest & q' & e' & E & Hr' & Hpos' & Hds & Hcase).
    { apply Forall_forall. intros y Hy. rewrite Forall_forall in Hl.
      assert (e2 !! y = e !! y) as Ey by (apply He2; by intros ->).
      destruct (Hl y Hy); [left; by eapply deliverable_ext|right; by eapply dead_ext]. }
    { simpl in Hf. lia. }
    rewrite E. exists (p :: ds), b, rest, q', e'. split; [done|]. split; [done|]. split; [done|].
    assert (forall y, y ∈ ds -> y ∈ l) as Hsub.
    { destruct Hcase as [(_ & -> & _)|(_ & p' & c' & -> & _)]; set_solver. }
    split.
    { constructor; [by exists c, s|]. apply Forall_forall. intros y Hy. rewrite Forall_forall in Hds.
      eapply dead_ext; [|exact (Hds y Hy)]. symmetry. apply He2. intros ->. by apply Hpl, Hsub. }
    destruct Hcase as [(-> & -> & -> & Hy)|(-> & p' & c' & -> & Hd & Hc' & Hv & Hy)]; [left|right].
    + split_and!; try done. intros y Hyy. rewrite Hy, He2 by set_solver. done.
    + assert (p' <> p) by set_solver. split; [done|]. exists p', c'. split; [done|].
      rewrite He2 in Hc' by done. split; [eapply deliverable_ext; [|exact Hd]; by rewrite He2|].
      split; [done|]. split; [done|]. intros y Hyy. rewrite Hy, He2 by set_solver. done.
Qed.

Definition deliverable_b (e : env) (p : positive) : bool :=
  match e !! p with
  | Some c => negb (isWaiting c) || match Entry_notify (proto c) with Some (b, _) => b | None => false end
  | None => false
  end.

Lemma deliverable_true e p : deliverable e p -> deliverable_b e p = true.
Proof.
  unfold deliverable_b. intros (c & -> & [->|[s ->]]); [done|]. by rewrite orb_true_r.
Qed.
Lemma dead_false e p : dead e p -> deliverable_b e p = false.
Proof. unfold deliverable_b. by intros (c & s & -> & -> & ->). Qed.

Lemma count_dead e ds : Forall (dead e) ds -> count (deliverable_b e) ds = 0%nat.
Proof. induction 1 as [|p ds Hp _ IH]; [done|]. by rewrite count_cons, IH, dead_false. Qed.

(** [notify_all] serves every entry still waiting and empties the queue. *)
Lemma notify_all_spec convert func fuel : forall q e l,
  wq_repr q l -> pos_ q = None -> Forall (fun p => deliverable e p \/ dead e p) l ->
  (length l < fuel)%nat ->
  exists q' e', notify_all fuel convert func q e = Ret (count (deliverable_b e) l, q', e') /\ wq_repr q' [].
Proof.
  induction fuel as [|fuel IH]; intros q e l Hr Hpos Hl Hf; [lia|].
  destruct (notify_one_spec convert func (S fuel) q e l Hr Hpos Hl Hf)
    as (ds & b & rest & q1 & e1 & E1 & Hr1 & Hpos1 & Hds & Hcase).
  cbn [notify_all]. rewrite E1. cbn [mbind res_bind].
  destruct Hcase as [(-> & -> & -> & _)|(-> & p & c & -> & Hd & _ & _ & Hy)].
  - exists q1, e1. by rewrite count_dead.
  - pose proof (wq_nodup _ _ Hr) as [_ Hnd]%NoDup_cons.
    apply NoDup_app in Hnd as (_ & Hdis & [Hp Hnd]%NoDup_cons).
    assert (forall y, y ∈ rest -> e1 !! y = e !! y) as He1.
    { intros y Hyr. apply Hy. rewrite not_elem_of_app, list_elem_of_singleton.
      split; [intros Hyd; apply (Hdis y Hyd); set_solver|by intros ->]. }
    destruct (IH q1 e1 rest Hr1 Hpos1) as (q' & e' & E2 & Hr').
    { apply Forall_forall. intros y Hyr. rewrite Forall_forall in Hl.
      destruct (Hl y ltac:(set_solver)) as [H|H]; [left|right].
      - eapply deliverable_ext; [|exact H]. by apply He1.
      - eapply dead_ext; [|exact H]. by apply He1. }
    { rewrite length_app in Hf. simpl in Hf. lia. }
    rewrite E2. cbn [mbind res_bind]. exists q', e'. split; [|done].
    rewrite count_app, (count_dead e ds), count_cons, (deliverable_true e p) by done. simpl.
    do 4 f_equal. apply count_ext. intros y Hyr. unfold deliverable_b. by rewrite He1.
Qed.
End notify.

Arguments CvEntry : clear implicits.

(** ** The properties of the queue *)

(** C22: [notify_one] serves the waiters in FIFO order and skips only those whose
    wait is over: it drops a prefix of entries whose [notify] fails (timed out, or already
    notified), and then either serves the first other entry - applying the function to
    its value once and dropping its reference - and returns true, or, the queue being
    exhausted, returns false.  No later entry is touched. *)
Theorem cv_notify_one_fifo {V : Type} (convert func : V -> V) (fuel : nat) (q : WaitQueue)
    (e : gmap positive (CvEntry V)) (l : list positive) :
  wq_repr q l -> pos_ q = None -> Forall (fun p => deliverable e p \/ dead e p) l -> (length l < fuel)%nat ->
  exists ds b rest q' e', notify_one fuel convert func q e = Ret (b, q', e') /\ wq_repr q' rest /\
    Forall (dead e) ds /\
    (b = false /\ l = ds /\ rest = [] \/
     b = true /\ exists p c, l = ds ++ p :: rest /\ deliverable e p /\ e !! p = Some c /\
       (exists c', e' !! p = Some c' /\ value c' = func (value c) /\ refs c' = refs c - 1) /\
       (forall y, y ∈ rest -> e' !! y = e !! y)).
Proof.
  intros Hr Hpos Hl Hf.
  destruct (notify_one_spec convert func fuel q e l Hr Hpos Hl Hf)
    as (ds & b & rest & q' & e' & E & Hr' & _ & Hds & Hcase).
  exists ds, b, rest, q', e'. split_and!; try done.
  destruct Hcase as [(? & ? & ? & _)|(? & p & c & -> & ? & ? & ? & Hy)]; [by left|right].
  split; [done|]. exists p, c. split_and!; try done. intros y Hyr. apply Hy.
  pose proof (wq_nodup _ _ Hr) as [_ Hnd]%NoDup_cons.
  apply NoDup_app in Hnd as (_ & Hdis & [Hp _]%NoDup_cons).
  rewrite not_elem_of_app, list_elem_of_singleton.
  split; [intros Hyd; apply (Hdis y Hyd); set_solver|by intros ->].
Qed.

(** Two entries: a coroutine whose timer has fired, and one that is suspended. *)
Definition timed_out_entry : Protocol.Entry :=
  Protocol.mkEntry false true 3 false Protocol.woken Protocol.nobody 0 Protocol.W_blocked Protocol.N_loop.
Definition suspended_entry : Protocol.Entry :=
  Protocol.mkEntry false true 3 false Protocol.suspended Protocol.nobody 0 Protocol.W_blocked Protocol.N_loop.
Definition two_waiters : gmap positive (CvEntry Z) :=
  <[2%positive := mkCv timed_out_entry true false 7 1]>
    (<[3%positive := mkCv suspended_entry true false 8 2]> ∅).
Definition two_queue : WaitQueue :=
  mkWQ (<[1%positive := Some 2%positive]> (<[2%positive := Some 3%positive]> {[ 3%positive := None ]}))
    1 3 (Some 1%positive) None 0 2.

Lemma two_queue_repr : wq_repr two_queue [2%positive; 3%positive].
Proof.
  split; simpl; try done.
  - apply (bool_decide_unpack _). vm_compute. exact I.
  - intros c [= <-]. set_solver.
Qed.

Lemma two_waiters_rest :
  Forall (fun p => deliverable two_waiters p \/ dead two_waiters p) [2%positive; 3%positive].
Proof.
  apply Forall_cons. split; [right|apply Forall_cons; split; [left|by apply Forall_nil]].
  - do 2 eexists. split; [reflexivity|]. split; reflexivity.
  - eexists. split; [reflexivity|]. right. eexists. reflexivity.
Qed.

Lemma cv_notify_one_fifo_witness :
  exists q' e', notify_one 3 (fun v => v) (fun v => v + 100) two_queue two_waiters = Ret (true, q', e') /\
    wq_repr q' [].
Proof.
  destruct (cv_notify_one_fifo (fun v => v) (fun v => v + 100) 3 two_queue two_waiters
    [2%positive; 3%positive] two_queue_repr eq_refl) as (ds & b & rest & q' & e' & E & Hr & Hds & Hc).
  - exact two_waiters_rest.
  - simpl. lia.
  - exists q', e'. assert (b = true) as ->.
    { apply (f_equal (fun r => match r with Ret (b, _, _) => b | _ => false end)) in E.
      vm_compute in E. symmetry. exact E. }
    split; [exact E|]. destruct Hc as [[? _]|(_ & p & c & El & Hd & _)]; [discriminate|].
    destruct ds as [|x ds]; simplify_eq/=.
    + apply deliverable_true in Hd. discriminate.
    + destruct ds as [|y ds]; simplify_eq/=; [exact Hr|]. destruct ds; discriminate.
Defined.

(** [notify_all] returns the number of entries that were still waiting and
    leaves the queue empty. *)
Theorem cv_notify_all_counts {V : Type} (convert func : V -> V) (fuel : nat) (q : WaitQueue)
    (e : gmap positive (CvEntry V)) (l : list positive) :
  wq_repr q l -> pos_ q = None -> Forall (fun p => deliverable e p \/ dead e p) l -> (length l < fuel)%nat ->
  exists q' e', notify_all fuel convert func q e = Ret (count (deliverable_b e) l, q', e') /\ wq_repr q' [].
Proof. apply notify_all_spec. Qed.

Lemma cv_notify_all_counts_witness :
  exists q' e', notify_all 3 (fun v => v) (fun v => v + 100) two_queue two_waiters = Ret (1%nat, q', e') /\
    wq_repr q' [].
Proof.
  apply (cv_notify_all_counts (fun v => v) (fun v => v + 100) 3 two_queue two_waiters
    [2%positive; 3%positive] two_queue_repr eq_refl).
  - exact two_waiters_rest.
  - simpl. lia.
Defined.

(** The validity sweep drops live waiters.  A native thread that is blocked
    and not notified fails [isValid] ([notified] is never locked), and so does a coroutine
    between setting [suspend_begin] and storing [coroEntry]; their [notify] would have
    succeeded or waited, but the sweep of a queue of 16 entries unlinks them, and nothing
    wakes them again. *)
Theorem cv_sweep_drops_live :
  (exists s, Protocol.reach s /\ Protocol.native s = true /\ Protocol.wat s = Protocol.W_blocked /\
     Protocol.applied s = 0%nat /\ isValid (mkCv s true false tt 2) = false /\
     exists s', Entry_notify s = Some (true, s')) /\
  (exists s, Protocol.reach s /\ Protocol.native s = false /\ Protocol.timed s = false /\
     Protocol.wat s = Protocol.W_suspend 0 /\ Protocol.applied s = 0%nat /\
     isValid (mkCv s true false tt 2) = false).
Proof.
  split.
  - set (path := [0; 1; 0; 0; 0]%nat).
    assert (exists s, Protocol.follow path (Protocol.init_entry true false) = Some s /\
      Protocol.native s = true /\ Protocol.wat s = Protocol.W_blocked /\ Protocol.applied s = 0%nat /\
      isValid (mkCv s true false tt 2) = false /\ exists s', Entry_notify s = Some (true, s')) as (s & Hf & H).
    { eexists. split; [vm_compute; reflexivity|]. split_and!; try reflexivity. eexists. vm_compute. reflexivity. }
    exists s. split; [|exact H]. eapply Protocol.follow_reach; [apply Protocol.init_reach|exact Hf].
  - set (path := [0; 1]%nat).
    assert (exists s, Protocol.follow path (Protocol.init_entry false false) = Some s /\
      Protocol.native s = false /\ Protocol.timed s = false /\ Protocol.wat s = Protocol.W_suspend 0 /\
      Protocol.applied s = 0%nat /\ isValid (mkCv s true false tt 2) = false) as (s & Hf & H).
    { eexists. split; [vm_compute; reflexivity|]. by split_and!. }
    exists s. split; [|exact H]. eapply Protocol.follow_reach; [apply Protocol.init_reach|exact Hf].
Qed.
