(* ===== verification/LockedChannel.v ===== *)
(** [LockedChannelImpl] of [include/co/sync/locked_channel_impl.h] and the [Channel]
    interface of [include/co/sync/channel.h].

    Every call holds [lock_] until it returns or waits, so [Push] and [Pop] are one step
    each; a call that waits is kept in [calls] and ends by [resume].  The two condition
    variables are used by their contract ([CondVar.cv_notify_one_fifo]): a FIFO of calls of
    which [notify_one] serves the first whose wait is not over. *)
From S2P Require Import Prelude RingBuf.
Local Open Scope Z_scope.

(** ** The buffer interface *)

(** A bounded FIFO buffer.  [buf_rel n b l]: [b] holds [l] after at most [n] pushes. *)
Class Buffer (B T : Type) := {
  b_push : B -> T -> bool * B;
  b_pop : B -> res (option T * B);
  b_size : B -> Z;
  b_cap : B -> Z;
  buf_rel : Z -> B -> list T -> Prop }.

Class BufferLaws (B T : Type) `{Buffer B T} := {
  law_size : forall n b l, buf_rel n b l -> b_size b = Z.of_nat (length l);
  law_bound : forall n b l, buf_rel n b l -> Z.of_nat (length l) <= b_cap b;
  law_push : forall n b l x, buf_rel n b l -> n + 1 < 2 ^ 64 ->
    (b_push b x).1 = (fifo_push (b_cap b) l x).1 /\
    buf_rel (n + 1) (b_push b x).2 (fifo_push (b_cap b) l x).2 /\ b_cap (b_push b x).2 = b_cap b;
  law_pop : forall n b l, buf_rel n b l ->
    exists b', b_pop b = Ret ((fifo_pop l).1, b') /\ buf_rel n b' (fifo_pop l).2 /\ b_cap b' = b_cap b;
  law_mono : forall n n' b l, n <= n' -> buf_rel n b l -> buf_rel n' b l }.

Section buffers.
Context {T : Type}.

#[export] Instance ring_buffer : Buffer (RingBuffer T) T :=
  {| b_push := ring_push; b_pop := ring_pop; b_size := ring_size; b_cap := capacity_;
     buf_rel := fun n rb l => ring_repr rb l /\ write_ rb <= n |}.

#[export] Instance ring_buffer_laws : BufferLaws (RingBuffer T) T.
Proof.
  split; simpl.
  - intros n b l [Hr _]. by apply ring_size_repr.
  - intros n b l [[[] _] _]. done.
  - intros n b l x [Hr Hw] Hn.
    assert (wrap_ok b) as Hok by (left; lia).
    pose proof (ring_push_repr b l x Hr Hok) as H.
    destruct (ring_push b x) as [ok b']. destruct (fifo_push (capacity_ b) l x) as [ok' l'].
    destruct H as (-> & Hr' & Hc & Hw'). split; [done|]. split; [|done]. split; [done|].
    simpl. etrans; [apply Hw'; lia|lia].
  - intros n b l [Hr Hw]. destruct (ring_pop_repr b l Hr) as (b' & E & Hr' & Hc & Hw').
    exists b'. rewrite E, Hw'. done.
  - intros n n' b l Hn [Hr Hw]. split; [done|lia].
Qed.

(** [std::list] with the capacity test of [LockedChannelImpl::push]. *)
Record ListBuffer := mkListBuffer { lq_ : list T; lq_cap : Z }.
Definition list_push (b : ListBuffer) (t : T) : bool * ListBuffer :=
  if lq_cap b <=? Z.of_nat (length (lq_ b)) then (false, b)
  else (true, mkListBuffer (lq_ b ++ [t]) (lq_cap b)).
Definition list_pop (b : ListBuffer) : res (option T * ListBuffer) :=
  match lq_ b with
  | [] => Ret (None, b)
  | x :: l => Ret (Some x, mkListBuffer l (lq_cap b))
  end.

#[export] Instance list_buffer : Buffer ListBuffer T :=
  {| b_push := list_push; b_pop := list_pop; b_size := fun b => Z.of_nat (length (lq_ b));
     b_cap := lq_cap; buf_rel := fun _ b l => lq_ b = l /\ Z.of_nat (length l) <= lq_cap b |}.

#[export] Instance list_buffer_laws : BufferLaws ListBuffer T.
Proof.
  split; simpl.
  - by intros n b l [<- _].
  - by intros n b l [_ ?].
  - intros n [l0 cap] l x [<- Hl] _. simpl in *. unfold list_push, fifo_push. simpl.
    destruct (Z.leb_spec cap (Z.of_nat (length l0))), (Z.eqb_spec (Z.of_nat (length l0)) cap); simpl; try lia.
    + done.
    + rewrite length_app. simpl. split_and!; try done. lia.
  - intros n [l0 cap] l [<- Hl]. destruct l0 as [|x l0]; [by exists (mkListBuffer [] cap)|].
    exists (mkListBuffer l0 cap). split; [done|]. split; [|done]. split; [done|].
    cbn [length lq_cap lq_ snd fifo_pop] in *. lia.
  - done.
Qed.

(** [push], [pop] and [Size] of the channel choose by [useRingBuffer_]. *)
Record ChanBuffer := mkChanBuffer { useRingBuffer_ : bool; q_ : RingBuffer T; lq : ListBuffer }.

Definition push (b : ChanBuffer) (t : T) : bool * ChanBuffer :=
  if useRingBuffer_ b
  then let '(ok, q) := ring_push (q_ b) t in (ok, mkChanBuffer true q (lq b))
  else let '(ok, l) := list_push (lq b) t in (ok, mkChanBuffer false (q_ b) l).
Definition pop (b : ChanBuffer) : res (option T * ChanBuffer) :=
  if useRingBuffer_ b
  then '(o, q) ← ring_pop (q_ b); Ret (o, mkChanBuffer true q (lq b))
  else '(o, l) ← list_pop (lq b); Ret (o, mkChanBuffer false (q_ b) l).
Definition Size (b : ChanBuffer) : Z :=
  if useRingBuffer_ b then ring_size (q_ b) else Z.of_nat (length (lq_ (lq b))).

#[export] Instance chan_buffer : Buffer ChanBuffer T :=
  {| b_push := push; b_pop := pop; b_size := Size;
     b_cap := fun b => if useRingBuffer_ b then capacity_ (q_ b) else lq_cap (lq b);
     buf_rel := fun n b l =>
       if useRingBuffer_ b then buf_rel n (q_ b) l else buf_rel n (lq b) l |}.

#[export] Instance chan_buffer_laws : BufferLaws ChanBuffer T.
Proof.
  split.
  - intros n [[] q l] ls Hr; simpl in *; [exact (@law_size _ T ring_buffer ring_buffer_laws n q ls Hr)|exact (@law_size _ T list_buffer list_buffer_laws n l ls Hr)].
  - intros n [[] q l] ls Hr; simpl in *; [exact (@law_bound _ T ring_buffer ring_buffer_laws n q ls Hr)|exact (@law_bound _ T list_buffer list_buffer_laws n l ls Hr)].
  - intros n [[] q l] ls x Hr Hn; simpl in *; unfold push; simpl.
    + pose proof (@law_push _ T ring_buffer ring_buffer_laws n q ls x Hr Hn) as H. simpl in H. by destruct (ring_push q x).
    + pose proof (@law_push _ T list_buffer list_buffer_laws n l ls x Hr Hn) as H. simpl in H. by destruct (list_push l x).
  - intros n [[] q l] ls Hr; simpl in *; unfold pop; simpl.
    + destruct (@law_pop _ T ring_buffer ring_buffer_laws n q ls Hr) as (q' & E & Hr' & Hc). simpl in *. rewrite E. simpl.
      eexists. split; [reflexivity|]. done.
    + destruct (@law_pop _ T list_buffer list_buffer_laws n l ls Hr) as (q' & E & Hr' & Hc). simpl in *. rewrite E. simpl.
      eexists. split; [reflexivity|]. done.
  - intros n n' [[] q l] ls Hn Hr; simpl in *; [exact (@law_mono _ T ring_buffer ring_buffer_laws n n' q ls Hn Hr)|exact (@law_mono _ T list_buffer list_buffer_laws n n' l ls Hn Hr)].
Qed.
End buffers.
Arguments ListBuffer : clear implicits.
Arguments ChanBuffer : clear implicits.

(** ** The channel *)

Inductive call_state := Waiting | TimedOut | Notified.
#[export] Instance call_state_eq_dec : EqDecision call_state.
Proof. solve_decision. Defined.

(** The contract of [notify_one]: entries whose wait is over are dropped, the first other
    one is served. *)
Fixpoint cv_notify (live : nat -> bool) (l : list nat) : option nat * list nat :=
  match l with
  | [] => (None, [])
  | p :: l => if live p then (Some p, l) else cv_notify live l
  end.

Section channel.
Context {B T : Type} `{BufferLaws B T}.

(** A call that waits: [slot] is what its pointer [T*] designates. *)
Record call := mkCall { timed : bool; slot : option T; cst : call_state }.

Record Chan := mkChan {
  closed_ : bool;
  buf : B;
  wq_ : list nat;
  rq_ : list nat;
  calls : gmap nat call }.

Definition is_waiting (cs : gmap nat call) (p : nat) : bool :=
  match cs !! p with Some c => bool_decide (cst c = Waiting) | None => false end.

Definition set_buf (b : B) (c : Chan) := mkChan (closed_ c) b (wq_ c) (rq_ c) (calls c).
Definition set_wq (l : list nat) (c : Chan) := mkChan (closed_ c) (buf c) l (rq_ c) (calls c).
Definition set_rq (l : list nat) (c : Chan) := mkChan (closed_ c) (buf c) (wq_ c) l (calls c).
Definition set_calls (m : gmap nat call) (c : Chan) := mkChan (closed_ c) (buf c) (wq_ c) (rq_ c) m.

(** [func] runs on the slot of the served call and may change the buffer. *)
Definition serve (p : nat) (func : option T -> B -> res (option T * B)) (c : Chan) : res (option T * Chan) :=
  k ← deref (calls c !! p);
  '(v, b) ← func (slot k) (buf c);
  Ret (slot k, set_calls (<[p := mkCall (timed k) v Notified]> (calls c)) (set_buf b c)).
(** [notify_one(func)]: [Some s] when it returns true, where [s] is what the slot of the
    served call held before. *)
Definition rq_notify_one (func : option T -> B -> res (option T * B)) (c : Chan) : res (option (option T) * Chan) :=
  let '(o, rest) := cv_notify (is_waiting (calls c)) (rq_ c) in
  let c := set_rq rest c in
  match o with None => Ret (None, c) | Some p => '(s, c) ← serve p func c; Ret (Some s, c) end.
Definition wq_notify_one (func : option T -> B -> res (option T * B)) (c : Chan) : res (option (option T) * Chan) :=
  let '(o, rest) := cv_notify (is_waiting (calls c)) (wq_ c) in
  let c := set_wq rest c in
  match o with None => Ret (None, c) | Some p => '(s, c) ← serve p func c; Ret (Some s, c) end.

(** [*p = t], [pop( *p)] and [push( *p)]: the results of [pop] and [push] are ignored. *)
Definition put (t : T) (s : option T) (b : B) : res (option T * B) := Ret (Some t, b).
Definition pop_into (s : option T) (b : B) : res (option T * B) :=
  '(o, b) ← b_pop b; Ret (match o with Some x => Some x | None => s end, b).
Definition push_from (s : option T) (b : B) : res (option T * B) :=
  t ← deref s; let '(_, b) := b_push b t in Ret (s, b).

(** [Push]: [Some r] when the call returns [r], [None] when call [id] waits.  [dl] tells
    whether a deadline was given. *)
Definition Push (id : nat) (t : T) (bWait dl : bool) (c : Chan) : res (option bool * Chan) :=
  if closed_ c then Ret (Some false, c)
  else
    '(handed, c) ← (if b_cap (buf c) =? 0 then rq_notify_one (put t) c else Ret (None, c));
    if handed : option (option T) then Ret (Some true, c)
    else
      let '(queued, c) := (if 0 <? b_cap (buf c)
                           then let '(ok, b) := b_push (buf c) t in (ok, set_buf b c)
                           else (false, c)) in
      if queued : bool then
        (if b_size (buf c) =? 1
         then '(_, c) ← rq_notify_one pop_into c; Ret (Some true, c)
         else Ret (Some true, c))
      else if negb bWait then Ret (Some false, c)
      else Ret (None, set_calls (<[id := mkCall dl (Some t) Waiting]> (calls c)) (set_wq (wq_ c ++ [id]) c)).

(** [Pop]: [Some (Some v)]: returns true with [v]; [Some None]: returns false; [None]: waits. *)
Definition Pop (id : nat) (bWait dl : bool) (c : Chan) : res (option (option T) * Chan) :=
  if closed_ c then Ret (Some None, c)
  else
    '(got, c) ← (if 0 <? b_cap (buf c) then
        '(o, b) ← b_pop (buf c);
        let c := set_buf b c in
        match o with
        | None => Ret (None, c)
        | Some v =>
            if b_size b =? b_cap b - 1
            then '(_, c) ← wq_notify_one push_from c; Ret (Some v, c)
            else Ret (Some v, c)
        end
      else
        '(r, c) ← wq_notify_one (fun s b => Ret (s, b)) c;     (* [t = *p] *)
        match r with
        | Some s => v ← deref s; Ret (Some v, c)
        | None => Ret (None, c)
        end);
    match got with
    | Some v => Ret (Some (Some v), c)
    | None =>
        if negb bWait then Ret (Some None, c)
        else Ret (None, set_calls (<[id := mkCall dl None Waiting]> (calls c)) (set_rq (rq_ c ++ [id]) c))
    end.

(** The timer of a call with a deadline fires. *)
Definition expire (id : nat) (c : Chan) : option Chan :=
  k ← calls c !! id;
  if timed k && bool_decide (cst k = Waiting)
  then Some (set_calls (<[id := mkCall (timed k) (slot k) TimedOut]> (calls c)) c) else None.

(** A call that waited returns: [no_timeout] is true unless the channel was closed. *)
Definition resume (id : nat) (c : Chan) : option (bool * option T * Chan) :=
  k ← calls c !! id;
  match cst k with
  | Waiting => None
  | Notified => Some (negb (closed_ c), slot k, set_calls (delete id (calls c)) c)
  | TimedOut => Some (false, slot k, set_calls (delete id (calls c)) c)
  end.

(** [notify_all()] without a function: every call still waiting is notified. *)
Definition notify_all_calls (l : list nat) (cs : gmap nat call) : gmap nat call :=
  foldl (fun cs p => if is_waiting cs p then alter (fun k => mkCall (timed k) (slot k) Notified) p cs else cs) cs l.
Definition Close (c : Chan) : Chan :=
  if closed_ c then c
  else mkChan true (buf c) [] [] (notify_all_calls (wq_ c) (notify_all_calls (rq_ c) (calls c))).

Definition Empty (c : Chan) : bool := b_size (buf c) =? 0.

(** ** The abstract channel

    A line of values: the buffered ones, then those of the waiting writers; and the readers
    waiting for a value. *)
Record Line := mkLine {
  a_closed : bool;
  a_buf : list T;
  a_writers : list nat;
  a_readers : list nat;
  a_calls : gmap nat call }.

Definition value_of (cs : gmap nat call) (p : nat) : list T :=
  match cs !! p with Some k => option_list (slot k) | None => [] end.
(** The values in line, first to last. *)
Definition line (a : Line) : list T := a_buf a ++ (a_writers a ≫= value_of (a_calls a)).

Definition deliver (p : nat) (v : option T) (cs : gmap nat call) : gmap nat call :=
  alter (fun k => mkCall (timed k) v Notified) p cs.

Definition line_push (cap : Z) (id : nat) (t : T) (bWait dl : bool) (a : Line) : option bool * Line :=
  if a_closed a then (Some false, a)
  else match a_readers a with
  | r :: rs => (Some true, mkLine false (a_buf a) (a_writers a) rs (deliver r (Some t) (a_calls a)))
  | [] =>
      if Z.of_nat (length (a_buf a)) <? cap
      then (Some true, mkLine false (a_buf a ++ [t]) (a_writers a) [] (a_calls a))
      else if bWait
      then (None, mkLine false (a_buf a) (a_writers a ++ [id]) [] (<[id := mkCall dl (Some t) Waiting]> (a_calls a)))
      else (Some false, a)
  end.

Definition line_pop (id : nat) (bWait dl : bool) (a : Line) : option (option T) * Line :=
  if a_closed a then (Some None, a)
  else match line a with
  | [] =>
      if bWait
      then (None, mkLine false (a_buf a) (a_writers a) (a_readers a ++ [id]) (<[id := mkCall dl None Waiting]> (a_calls a)))
      else (Some None, a)
  | v :: _ =>
      (Some (Some v),
       match a_writers a with
       | [] => mkLine false (tail (a_buf a)) [] (a_readers a) (a_calls a)
       | w :: ws =>
           mkLine false (tail (a_buf a ++ value_of (a_calls a) w)) ws (a_readers a)
             (alter (fun k => mkCall (timed k) (slot k) Notified) w (a_calls a))
       end)
  end.

Definition line_expire (id : nat) (a : Line) : option Line :=
  k ← a_calls a !! id;
  if timed k && bool_decide (cst k = Waiting)
  then Some (mkLine (a_closed a) (a_buf a) (List.filter (fun p => negb (p =? id)%nat) (a_writers a))
              (List.filter (fun p => negb (p =? id)%nat) (a_readers a))
              (<[id := mkCall (timed k) (slot k) TimedOut]> (a_calls a)))
  else None.

Definition line_resume (id : nat) (a : Line) : option (bool * option T * Line) :=
  k ← a_calls a !! id;
  let a' := mkLine (a_closed a) (a_buf a) (a_writers a) (a_readers a) (delete id (a_calls a)) in
  match cst k with
  | Waiting => None
  | Notified => Some (negb (a_closed a), slot k, a')
  | TimedOut => Some (false, slot k, a')
  end.

Definition line_close (a : Line) : Line :=
  if a_closed a then a
  else mkLine true (a_buf a) [] [] (notify_all_calls (a_writers a) (notify_all_calls (a_readers a) (a_calls a))).

(** ** The refinement relation *)

Definition waiting_ids (cs : gmap nat call) (l : list nat) : list nat := List.filter (is_waiting cs) l.

Record chan_rel (n cap : Z) (c : Chan) (a : Line) : Prop := {
  cr_cap : b_cap (buf c) = cap /\ 0 <= cap;
  cr_closed : a_closed a = closed_ c;
  cr_buf : buf_rel n (buf c) (a_buf a);
  cr_calls : a_calls a = calls c;
  cr_writers : a_writers a = waiting_ids (calls c) (wq_ c);
  cr_readers : a_readers a = waiting_ids (calls c) (rq_ c);
  cr_nodup : NoDup (wq_ c ++ rq_ c);
  cr_slots : forall w, w ∈ a_writers a -> exists v, value_of (calls c) w = [v];
  cr_rwait : a_readers a <> [] -> a_buf a = [] /\ a_writers a = [];
  cr_wwait : a_writers a <> [] -> Z.of_nat (length (a_buf a)) = cap }.

(** [id] was never used. *)
Definition fresh (id : nat) (c : Chan) : Prop := calls c !! id = None /\ id ∉ wq_ c /\ id ∉ rq_ c.

Lemma cv_notify_spec live l :
  match cv_notify live l with
  | (None, rest) => List.filter live l = [] /\ rest = []
  | (Some p, rest) => live p = true /\ List.filter live l = p :: List.filter live rest /\
      exists ds, l = ds ++ p :: rest
  end.
Proof.
  induction l as [|x l IH]; simpl; [done|]. destruct (live x) eqn:E.
  - split; [done|]. split; [done|]. by exists [].
  - destruct (cv_notify live l) as [[p|] rest]; [|done].
    destruct IH as (? & ? & ds & ->). split; [done|]. split; [done|]. by exists (x :: ds).
Qed.

Lemma is_waiting_insert cs p k y :
  is_waiting (<[p := k]> cs) y = if decide (p = y) then bool_decide (cst k = Waiting) else is_waiting cs y.
Proof. unfold is_waiting. rewrite lookup_insert. by case_decide. Qed.

Lemma waiting_ids_insert cs p k l : p ∉ l -> waiting_ids (<[p := k]> cs) l = waiting_ids cs l.
Proof.
  intros Hp. unfold waiting_ids. induction l as [|x l IH]; [done|]. simpl.
  rewrite is_waiting_insert, decide_False by set_solver. rewrite IH by set_solver. done.
Qed.

Lemma waiting_ids_app cs l1 l2 : waiting_ids cs (l1 ++ l2) = waiting_ids cs l1 ++ waiting_ids cs l2.
Proof. apply List.filter_app. Qed.

Lemma elem_of_waiting cs l p : p ∈ waiting_ids cs l <-> p ∈ l /\ is_waiting cs p = true.
Proof. unfold waiting_ids. rewrite !list_elem_of_In. apply filter_In. Qed.

Lemma is_waiting_lookup cs p : is_waiting cs p = true -> exists k, cs !! p = Some k /\ cst k = Waiting.
Proof.
  unfold is_waiting. destruct (cs !! p) as [k|]; [|done]. intros Hw%bool_decide_eq_true. eauto.
Qed.

Lemma value_of_insert cs p k y :
  value_of (<[p := k]> cs) y = if decide (p = y) then option_list (slot k) else value_of cs y.
Proof. unfold value_of. rewrite lookup_insert. by case_decide. Qed.

Lemma notify_cases cs l :
  NoDup l ->
  match waiting_ids cs l with
  | [] => cv_notify (is_waiting cs) l = (None, [])
  | p :: ps => exists rest k, cv_notify (is_waiting cs) l = (Some p, rest) /\ waiting_ids cs rest = ps /\
      sublist rest l /\ p ∈ l /\ p ∉ rest /\ cs !! p = Some k /\ cst k = Waiting
  end.
Proof.
  intros Hnd. pose proof (cv_notify_spec (is_waiting cs) l) as Hs. unfold waiting_ids.
  destruct (cv_notify (is_waiting cs) l) as [[p|] rest].
  - destruct Hs as (Hp & -> & ds & ->). apply is_waiting_lookup in Hp as (k & Hk & Hw).
    apply NoDup_app in Hnd as (_ & _ & [Hpr _]%NoDup_cons). exists rest, k.
    split_and!; try done; [|set_solver]. apply sublist_inserts_l. by apply sublist_cons.
  - by destruct Hs as [-> ->].
Qed.

(** Serving the first waiting reader, and there being none. *)
Lemma rq_serve c r rs func v b :
  NoDup (rq_ c) -> waiting_ids (calls c) (rq_ c) = r :: rs ->
  (forall k, calls c !! r = Some k -> func (slot k) (buf c) = Ret (v, b)) ->
  exists rest k, rq_notify_one func c =
      Ret (Some (slot k), mkChan (closed_ c) b (wq_ c) rest (<[r := mkCall (timed k) v Notified]> (calls c))) /\
    calls c !! r = Some k /\ waiting_ids (calls c) rest = rs /\ sublist rest (rq_ c) /\ r ∈ rq_ c /\ r ∉ rest.
Proof.
  intros Hnd Ea Hf. pose proof (notify_cases (calls c) (rq_ c) Hnd) as Hc.
  rewrite Ea in Hc. destruct Hc as (rest & k & E & Hw & Hsub & Hin & Hnin & Hk & _).
  exists rest, k. unfold rq_notify_one. rewrite E. unfold serve. simpl. rewrite Hk. simpl.
  rewrite (Hf k Hk). by split_and!.
Qed.

Lemma rq_none c func :
  NoDup (rq_ c) -> waiting_ids (calls c) (rq_ c) = [] -> rq_notify_one func c = Ret (None, set_rq [] c).
Proof.
  intros Hnd Ea. pose proof (notify_cases (calls c) (rq_ c) Hnd) as Hc.
  rewrite Ea in Hc. unfold rq_notify_one. by rewrite Hc.
Qed.

Lemma wq_serve c w ws func v b :
  NoDup (wq_ c) -> waiting_ids (calls c) (wq_ c) = w :: ws ->
  (forall k, calls c !! w = Some k -> func (slot k) (buf c) = Ret (v, b)) ->
  exists rest k, wq_notify_one func c =
      Ret (Some (slot k), mkChan (closed_ c) b rest (rq_ c) (<[w := mkCall (timed k) v Notified]> (calls c))) /\
    calls c !! w = Some k /\ waiting_ids (calls c) rest = ws /\ sublist rest (wq_ c) /\ w ∈ wq_ c /\ w ∉ rest.
Proof.
  intros Hnd Ea Hf. pose proof (notify_cases (calls c) (wq_ c) Hnd) as Hc.
  rewrite Ea in Hc. destruct Hc as (rest & k & E & Hw & Hsub & Hin & Hnin & Hk & _).
  exists rest, k. unfold wq_notify_one. rewrite E. unfold serve. simpl. rewrite Hk. simpl.
  rewrite (Hf k Hk). by split_and!.
Qed.

Lemma wq_none c func :
  NoDup (wq_ c) -> waiting_ids (calls c) (wq_ c) = [] -> wq_notify_one func c = Ret (None, set_wq [] c).
Proof.
  intros Hnd Ea. pose proof (notify_cases (calls c) (wq_ c) Hnd) as Hc.
  rewrite Ea in Hc. unfold wq_notify_one. by rewrite Hc.
Qed.

Lemma chan_rel_mono n n' cap c a : n <= n' -> chan_rel n cap c a -> chan_rel n' cap c a.
Proof. intros Hn []. split; try done. by eapply law_mono. Qed.

(** Dropping the dead calls of a queue without a waiting one. *)
Lemma chan_rel_rq_nil n cap c a : chan_rel n cap c a -> a_readers a = [] -> chan_rel n cap (set_rq [] c) a.
Proof.
  intros [] E. split; simpl; try done. apply NoDup_app in cr_nodup0 as (? & _). by rewrite app_nil_r.
Qed.
Lemma chan_rel_wq_nil n cap c a : chan_rel n cap c a -> a_writers a = [] -> chan_rel n cap (set_wq [] c) a.
Proof.
  intros [] E. split; simpl; try done. by apply NoDup_app in cr_nodup0 as (_ & _ & ?).
Qed.

Lemma deliver_insert cs p k v : cs !! p = Some k -> deliver p v cs = <[p := mkCall (timed k) v Notified]> cs.
Proof.
  intros Hk. unfold deliver. apply map_eq. intros y. rewrite lookup_alter, lookup_insert.
  case_decide; [subst; by rewrite Hk|done].
Qed.

(** A reader served while no writer waits: the buffer becomes [b]. *)
Lemma chan_rel_serve_reader n cap c a r rs rest k v b l' :
  chan_rel n cap c a -> a_readers a = r :: rs -> calls c !! r = Some k ->
  waiting_ids (calls c) rest = rs -> sublist rest (rq_ c) -> r ∈ rq_ c -> r ∉ rest ->
  a_closed a = false -> l' = [] -> buf_rel n b l' -> b_cap b = cap ->
  chan_rel n cap (mkChan false b (wq_ c) rest (<[r := mkCall (timed k) v Notified]> (calls c)))
    (mkLine false l' (a_writers a) rs (deliver r v (a_calls a))).
Proof.
  intros Hr Ea Hk Hw Hsub Hin Hnin Hcl -> Hb Hcap. pose proof Hr as [].
  destruct (cr_rwait0 ltac:(by rewrite Ea)) as [_ Hws]. rewrite Hws in *.
  apply NoDup_app in cr_nodup0 as (Hn1 & Hd & Hn2).
  split; simpl; try done.
  - split; [done|apply cr_cap0].
  - by rewrite cr_calls0, (deliver_insert _ _ _ _ Hk).
  - rewrite waiting_ids_insert; [done|]. intros Hi. by apply (Hd r Hi).
  - by rewrite waiting_ids_insert.
  - apply NoDup_app. split; [done|]. split; [|by eapply sublist_NoDup].
    intros x Hx Hx'. apply (Hd x Hx). eapply elem_of_submseteq; [exact Hx'|]. by apply sublist_submseteq.
  - set_solver.
Qed.

(** A call that starts to wait. *)
Lemma chan_rel_wait_writer n cap c a id t dl :
  chan_rel n cap c a -> fresh id c -> a_closed a = false -> a_readers a = [] ->
  Z.of_nat (length (a_buf a)) = cap ->
  chan_rel n cap (set_calls (<[id := mkCall dl (Some t) Waiting]> (calls c)) (set_wq (wq_ c ++ [id]) c))
    (mkLine false (a_buf a) (a_writers a ++ [id]) [] (<[id := mkCall dl (Some t) Waiting]> (a_calls a))).
Proof.
  intros [] (Hid & Hw & Hrq) Hcl Hrd Hfull. split; simpl; try done.
  - by rewrite <- cr_closed0, Hcl.
  - by rewrite cr_calls0.
  - rewrite waiting_ids_app, waiting_ids_insert, cr_writers0 by done. f_equal. unfold waiting_ids. simpl.
    rewrite is_waiting_insert, decide_True by done. by rewrite bool_decide_eq_true_2.
  - by rewrite waiting_ids_insert, <- cr_readers0, Hrd.
  - rewrite <- app_assoc, (Permutation_app_comm [id]), app_assoc. apply NoDup_app.
    split; [done|]. split; [|apply NoDup_singleton]. intros x Hx Hx'.
    apply list_elem_of_singleton in Hx' as ->. apply elem_of_app in Hx as [?|?]; done.
  - intros w Hw'. rewrite value_of_insert. case_decide; [by exists t|].
    apply cr_slots0. set_solver.
Qed.

Lemma chan_rel_wait_reader n cap c a id dl :
  chan_rel n cap c a -> fresh id c -> a_closed a = false -> a_writers a = [] -> a_buf a = [] ->
  chan_rel n cap (set_calls (<[id := mkCall dl None Waiting]> (calls c)) (set_rq (rq_ c ++ [id]) c))
    (mkLine false (a_buf a) (a_writers a) (a_readers a ++ [id]) (<[id := mkCall dl None Waiting]> (a_calls a))).
Proof.
  intros [] (Hid & Hw & Hrq) Hcl Hws Hb. split; simpl; try done.
  - by rewrite <- cr_closed0, Hcl.
  - by rewrite cr_calls0.
  - by rewrite waiting_ids_insert.
  - rewrite waiting_ids_app, waiting_ids_insert, cr_readers0 by done. f_equal. unfold waiting_ids. simpl.
    rewrite is_waiting_insert, decide_True by done. by rewrite bool_decide_eq_true_2.
  - rewrite app_assoc. apply NoDup_app.
    split; [done|]. split; [|apply NoDup_singleton]. intros x Hx Hx'.
    apply list_elem_of_singleton in Hx' as ->. apply elem_of_app in Hx as [?|?]; done.
  - rewrite Hws. set_solver.
Qed.

Lemma chan_rel_set_buf n cap c a b l :
  chan_rel n cap c a -> buf_rel n b l -> b_cap b = cap -> a_readers a = [] -> a_writers a = [] ->
  chan_rel n cap (set_buf b c) (mkLine (a_closed a) l (a_writers a) [] (a_calls a)).
Proof.
  intros [] Hb Hcap Hrd Hws. split; simpl; try done.
  - split; [done|apply cr_cap0].
  - by rewrite <- cr_readers0.
Qed.

Lemma rel_nodups n cap c a : chan_rel n cap c a -> NoDup (wq_ c) /\ NoDup (rq_ c).
Proof. intros []. by apply NoDup_app in cr_nodup0 as (? & _ & ?). Qed.

(** [Push] on a rendezvous channel. *)
Lemma Push_refines_0 n c a id t bWait dl :
  chan_rel n 0 c a -> fresh id c -> a_closed a = false ->
  exists c', Push id t bWait dl c = Ret ((line_push 0 id t bWait dl a).1, c') /\
    chan_rel n 0 c' (line_push 0 id t bWait dl a).2.
Proof.
  intros Hr Hid Ecl. pose proof Hr as [[Hcap Hpos] Hcl Hb Hcs Hws Hrs Hnd Hsl Hrw Hww].
  pose proof (law_bound _ _ _ Hb) as Hbd. rewrite Hcap in Hbd.
  destruct (rel_nodups _ _ _ _ Hr) as [Hnw Hnr].
  assert (a_buf a = []) as Eb by (destruct (a_buf a); [done|simpl in Hbd; lia]).
  unfold Push, line_push. rewrite <- Hcl, Ecl, Hcap. change (0 =? 0) with true. cbv iota.
  destruct (a_readers a) as [|r rs] eqn:Erd.
  - rewrite (rq_none c (put t) Hnr (eq_sym Hrs)). cbn [mbind res_bind]. cbn [buf set_rq]. rewrite Hcap.
    change (0 <? 0) with false. cbv iota. rewrite Eb. change (Z.of_nat (length []) <? 0) with false. cbv iota.
    pose proof (chan_rel_rq_nil _ _ _ _ Hr Erd) as Hr'.
    destruct bWait; cbn [negb]; eexists; (split; [reflexivity|]); [|done].
    rewrite <- Eb. apply (chan_rel_wait_writer n 0 (set_rq [] c) a); try done; [|by rewrite Eb].
    destruct Hid as (? & ? & ?). split_and!; try done. simpl. set_solver.
  - destruct (rq_serve c r rs (put t) (Some t) (buf c) Hnr (eq_sym Hrs)) as (rest & k & E & Hk & Hw & Hsub & Hin & Hnin); [done|].
    rewrite E. cbn [mbind res_bind]. eexists. split; [reflexivity|]. rewrite <- Hcl, Ecl.
    eapply chan_rel_serve_reader; try done. 
Qed.

(** [Push] on a buffered channel. *)
Lemma Push_refines_buf n cap c a id t bWait dl :
  chan_rel n cap c a -> 0 < cap -> fresh id c -> n + 1 < 2 ^ 64 -> a_closed a = false ->
  exists c', Push id t bWait dl c = Ret ((line_push cap id t bWait dl a).1, c') /\
    chan_rel (n + 1) cap c' (line_push cap id t bWait dl a).2.
Proof.
  intros Hr E0 Hid Hn Ecl. pose proof Hr as [[Hcap Hpos] Hcl Hb Hcs Hws Hrs Hnd Hsl Hrw Hww].
  destruct (rel_nodups _ _ _ _ Hr) as [Hnw Hnr].
  pose proof (law_bound _ _ _ Hb) as Hbd. rewrite Hcap in Hbd.
  unfold Push, line_push. rewrite <- Hcl, Ecl, Hcap, (proj2 (Z.eqb_neq cap 0)) by lia.
  cbn [mbind res_bind]. rewrite Hcap, (proj2 (Z.ltb_lt 0 cap)) by lia.
  destruct (law_push n (buf c) (a_buf a) t Hb Hn) as (Hok & Hb' & Hcap').
  destruct (b_push (buf c) t) as [ok b']. simpl in Hok, Hb', Hcap'. subst ok. unfold fifo_push in *.
  rewrite Hcap in *. pose proof (chan_rel_mono n (n + 1) _ _ _ ltac:(lia) Hr) as Hr1.
  destruct (Z.eqb_spec (Z.of_nat (length (a_buf a))) cap) as [Ef|Ef]; cbn [fst snd] in *.
  - (* full *)
    assert (a_readers a = []) as Erd.
    { destruct (a_readers a) eqn:Erd; [done|]. destruct Hrw as [Eb _]; [done|]. rewrite Eb in Ef. simpl in Ef. lia. }
    rewrite Erd, (proj2 (Z.ltb_ge (Z.of_nat (length (a_buf a))) cap)) by lia.
    assert (chan_rel (n + 1) cap (set_buf b' c) a) as Hr' by (destruct Hr1; by split).
    destruct bWait; cbn [negb]; eexists; (split; [reflexivity|]); [|done].
    by apply (chan_rel_wait_writer (n + 1) cap (set_buf b' c) a).
  - change (buf (set_buf b' c)) with b'. rewrite (law_size _ _ _ Hb'), length_app. cbn [length].
    assert (a_writers a = []) as Ews.
    { destruct (a_writers a) eqn:Ews; [done|]. by rewrite Hww in Ef. }
    destruct (a_readers a) as [|r rs] eqn:Erd.
    + rewrite (proj2 (Z.ltb_lt (Z.of_nat (length (a_buf a))) cap)) by lia.
      pose proof (chan_rel_set_buf _ _ _ _ _ _ Hr1 Hb' ltac:(done) Erd Ews) as Hr'.
      rewrite Ecl in Hr'. destruct (_ =? 1); [|eexists; by split].
      rewrite (rq_none (set_buf b' c) pop_into Hnr (eq_sym Hrs)). cbn [mbind res_bind].
      eexists. split; [reflexivity|]. by apply chan_rel_rq_nil.
    + destruct (Hrw ltac:(done)) as [Eb _]. rewrite Eb in *. cbn [app length] in *.
      change (Z.of_nat (0 + 1) =? 1) with true. cbv iota.
      destruct (law_pop (n + 1) b' [t] Hb') as (b2 & Ep & Hb2 & Hcap2). simpl in Ep, Hb2.
      destruct (rq_serve (set_buf b' c) r rs pop_into (Some t) b2 Hnr (eq_sym Hrs))
        as (rest & k & E & Hk & Hw & Hsub & Hin & Hnin).
      { intros k Hk. unfold pop_into. cbn [buf set_buf]. by rewrite Ep. }
      rewrite E. cbn [mbind res_bind]. eexists. split; [reflexivity|]. simpl in Hk |- *. rewrite <- Hcl, Ecl.
      eapply (chan_rel_serve_reader (n + 1) cap c); try done. congruence.
Qed.

Lemma Push_refines n cap c a id t bWait dl :
  chan_rel n cap c a -> fresh id c -> n + 1 < 2 ^ 64 ->
  exists c', Push id t bWait dl c = Ret ((line_push cap id t bWait dl a).1, c') /\
    chan_rel (n + 1) cap c' (line_push cap id t bWait dl a).2.
Proof.
  intros Hr Hid Hn. pose proof (cr_cap _ _ _ _ Hr) as [_ Hpos].
  destruct (a_closed a) eqn:Ecl.
  { exists c. unfold Push, line_push. rewrite <- (cr_closed _ _ _ _ Hr), Ecl.
    split; [done|]. apply (chan_rel_mono n); [lia|done]. }
  destruct (decide (cap = 0)) as [->|]; [|apply Push_refines_buf; try done; lia].
  destruct (Push_refines_0 n c a id t bWait dl Hr Hid Ecl) as (c' & E & Hr').
  exists c'. split; [done|]. by apply (chan_rel_mono n); [lia|].
Qed.

Definition accept (w : nat) (cs : gmap nat call) : gmap nat call :=
  alter (fun k => mkCall (timed k) (slot k) Notified) w cs.

Lemma accept_insert cs p k : cs !! p = Some k -> accept p cs = <[p := mkCall (timed k) (slot k) Notified]> cs.
Proof.
  intros Hk. unfold accept. apply map_eq. intros y. rewrite lookup_alter, lookup_insert.
  case_decide; [subst; by rewrite Hk|done].
Qed.

(** A writer served: its value is taken and the buffer becomes [b]. *)
Lemma chan_rel_serve_writer n cap c a w ws rest k b l' :
  chan_rel n cap c a -> a_writers a = w :: ws -> calls c !! w = Some k ->
  waiting_ids (calls c) rest = ws -> sublist rest (wq_ c) -> w ∈ wq_ c -> w ∉ rest ->
  a_closed a = false -> Z.of_nat (length l') = cap -> buf_rel n b l' -> b_cap b = cap ->
  chan_rel n cap (mkChan false b rest (rq_ c) (<[w := mkCall (timed k) (slot k) Notified]> (calls c)))
    (mkLine false l' ws (a_readers a) (accept w (calls c))).
Proof.
  intros Hr Ea Hk Hw Hsub Hin Hnin Hcl Hlen Hb Hcap. pose proof Hr as [].
  assert (a_readers a = []) as Erd.
  { destruct (a_readers a) eqn:Er; [done|]. destruct cr_rwait0 as [_ E']; [done|]. by rewrite Ea in E'. }
  apply NoDup_app in cr_nodup0 as (Hn1 & Hd & Hn2).
  assert (forall x, x ∈ rest -> x ∈ wq_ c) as Hsub'.
  { intros x Hx. eapply elem_of_submseteq; [exact Hx|]. by apply sublist_submseteq. }
  split; simpl; try done.
  - split; [done|apply cr_cap0].
  - by rewrite (accept_insert _ _ _ Hk).
  - by rewrite waiting_ids_insert.
  - rewrite waiting_ids_insert; [done|]. by apply Hd.
  - apply NoDup_app. split; [exact (sublist_NoDup _ _ Hn1 Hsub)|]. split; [|done].
    intros x Hx. by apply Hd, Hsub'.
  - intros y Hy. rewrite value_of_insert. case_decide; [subst y|apply cr_slots0; rewrite Ea; set_solver].
    rewrite <- Hw in Hy. by apply elem_of_waiting in Hy as [? _].
Qed.

Lemma value_of_slot cs w v k : value_of cs w = [v] -> cs !! w = Some k -> slot k = Some v.
Proof. unfold value_of. intros Hv Hk. rewrite Hk in Hv. destruct (slot k); by simplify_eq/=. Qed.

Lemma Pop_refines_0 n c a id bWait dl :
  chan_rel n 0 c a -> fresh id c -> a_closed a = false ->
  exists c', Pop id bWait dl c = Ret ((line_pop id bWait dl a).1, c') /\
    chan_rel n 0 c' (line_pop id bWait dl a).2.
Proof.
  intros Hr Hid Ecl. pose proof Hr as [[Hcap Hpos] Hcl Hb Hcs Hws Hrs Hnd Hsl Hrw Hww].
  pose proof (law_bound _ _ _ Hb) as Hbd. rewrite Hcap in Hbd.
  destruct (rel_nodups _ _ _ _ Hr) as [Hnw Hnr].
  assert (a_buf a = []) as Eb by (destruct (a_buf a); [done|simpl in Hbd; lia]).
  unfold Pop, line_pop, line. rewrite <- Hcl, Ecl, Hcap. change (0 <? 0) with false. cbv iota. rewrite Eb, app_nil_l.
  destruct (a_writers a) as [|w ws] eqn:Ews.
  - rewrite (wq_none c _ Hnw (eq_sym Hws)). cbn [mbind res_bind list_bind].
    pose proof (chan_rel_wq_nil _ _ _ _ Hr Ews) as Hr'.
    destruct bWait; cbn [negb]; eexists; (split; [reflexivity|]); [|done].
    assert (fresh id (set_wq [] c)) as Hid' by (destruct Hid as (? & ? & ?); split_and!; try done; simpl; set_solver).
    pose proof (chan_rel_wait_reader n 0 (set_wq [] c) a id dl Hr' Hid' Ecl Ews Eb) as Hx.
    by rewrite Eb, Ews in Hx.
  - destruct (Hsl w ltac:(set_solver)) as [v Hv].
    destruct (calls c !! w) as [k0|] eqn:Hk0; [|unfold value_of in Hv; by rewrite Hk0 in Hv].
    pose proof (value_of_slot _ _ _ _ Hv Hk0) as Hs0.
    destruct (wq_serve c w ws (fun s b => Ret (s, b)) (Some v) (buf c) Hnw (eq_sym Hws))
      as (rest & k & E & Hk & Hw & Hsub & Hin & Hnin).
    { intros k Hk. rewrite Hk0 in Hk. simplify_eq. by rewrite Hs0. }
    rewrite Hk0 in Hk. simplify_eq. rewrite E. cbn [mbind res_bind]. rewrite Hs0. cbn [deref mbind res_bind].
    cbn [list_bind]. rewrite Hcs, Hv. cbn [app]. eexists. split; [reflexivity|]. simpl.
    rewrite <- Hs0, <- Hcl, Ecl. eapply chan_rel_serve_writer; try done. by rewrite Eb in Hb.
Qed.

Lemma Pop_refines_buf n cap c a id bWait dl :
  chan_rel n cap c a -> 0 < cap -> fresh id c -> n + 1 < 2 ^ 64 -> a_closed a = false ->
  exists c', Pop id bWait dl c = Ret ((line_pop id bWait dl a).1, c') /\
    chan_rel (n + 1) cap c' (line_pop id bWait dl a).2.
Proof.
  intros Hr E0 Hid Hn Ecl. pose proof Hr as [[Hcap Hpos] Hcl Hb Hcs Hws Hrs Hnd Hsl Hrw Hww].
  destruct (rel_nodups _ _ _ _ Hr) as [Hnw Hnr].
  pose proof (law_bound _ _ _ Hb) as Hbd. rewrite Hcap in Hbd.
  unfold Pop, line_pop, line. rewrite <- Hcl, Ecl, Hcap, (proj2 (Z.ltb_lt 0 cap)) by lia.
  destruct (law_pop n (buf c) (a_buf a) Hb) as (b' & Ep & Hb' & Hcap'). rewrite Ep. cbn [mbind res_bind].
  pose proof (chan_rel_mono n (n + 1) _ _ _ ltac:(lia) Hr) as Hr1.
  destruct (a_buf a) as [|v l] eqn:Eb; cbn [fifo_pop fst snd] in *.
  - assert (a_writers a = []) as Ews.
    { destruct (a_writers a) eqn:Ews; [done|]. simpl in Hww. specialize (Hww ltac:(done)). lia. }
    rewrite Ews. cbn [app list_bind mbind res_bind].
    assert (chan_rel (n + 1) cap (set_buf b' c) a) as Hr'.
    { destruct Hr1; split; try done; simpl; [split; congruence|].
      rewrite Eb. eapply law_mono; [|done]. lia. }
    destruct bWait; cbn [negb]; eexists; (split; [reflexivity|]); [|done].
    pose proof (chan_rel_wait_reader (n + 1) cap (set_buf b' c) a id dl Hr' Hid Ecl Ews Eb) as Hx.
    by rewrite Eb, Ews in Hx.
  - assert (a_readers a = []) as Erd.
    { destruct (a_readers a) eqn:Er; [done|]. by destruct Hrw as [? _]. }
    cbn [app]. rewrite (law_size _ _ _ Hb'). rewrite Hcap', Hcap. cbn [length] in Hbd.
    destruct (Z.eqb_spec (Z.of_nat (length l)) (cap - 1)) as [Ef|Ef].
    + destruct (a_writers a) as [|w ws] eqn:Ews.
      * rewrite (wq_none (set_buf b' c) _ Hnw (eq_sym Hws)). cbn [mbind res_bind].
        eexists. split; [reflexivity|]. cbn [tail]. rewrite Erd.
        assert (buf_rel (n + 1) b' l) as Hb1 by (eapply law_mono; [|done]; lia).
        pose proof (chan_rel_set_buf _ _ _ _ b' l Hr1 Hb1 ltac:(congruence) Erd Ews) as Hr'.
        rewrite Ecl, Ews in Hr'. by apply (chan_rel_wq_nil (n + 1) cap (set_buf b' c)).
      * destruct (Hsl w ltac:(set_solver)) as [x Hx].
        destruct (calls c !! w) as [k0|] eqn:Hk0; [|unfold value_of in Hx; by rewrite Hk0 in Hx].
        pose proof (value_of_slot _ _ _ _ Hx Hk0) as Hs0.
        destruct (law_push n b' l x Hb' Hn) as (_ & Hb2 & Hcap2). unfold fifo_push in Hb2.
        rewrite Hcap', Hcap, (proj2 (Z.eqb_neq _ _)) in Hb2 by lia. cbn [snd] in Hb2.
        destruct (wq_serve (set_buf b' c) w ws push_from (Some x) (b_push b' x).2 Hnw (eq_sym Hws))
          as (rest & k & E & Hk & Hw & Hsub & Hin & Hnin).
        { intros k Hk. simpl in Hk. rewrite Hk0 in Hk. simplify_eq. unfold push_from. rewrite Hs0.
          cbn [deref mbind res_bind buf set_buf]. by destruct (b_push b' x). }
        simpl in Hk. rewrite Hk0 in Hk. injection Hk as <-. rewrite E. cbn [mbind res_bind].
        eexists. split; [reflexivity|]. simpl. rewrite <- Hcl, Ecl, Hcs, Hx. cbn [app tail]. rewrite <- Hs0.
        eapply (chan_rel_serve_writer (n + 1) cap c); try done; [|congruence].
        rewrite length_app. simpl. lia.
    + assert (a_writers a = []) as Ews.
      { destruct (a_writers a) eqn:Ews; [done|]. specialize (Hww ltac:(done)). simpl in Hww. lia. }
      rewrite Ews. eexists. split; [reflexivity|]. cbn [tail]. rewrite Erd.
      assert (buf_rel (n + 1) b' l) as Hb1 by (eapply law_mono; [|done]; lia).
      pose proof (chan_rel_set_buf _ _ _ _ b' l Hr1 Hb1 ltac:(congruence) Erd Ews) as Hr'.
      by rewrite Ecl, Ews in Hr'.
Qed.

Lemma Pop_refines n cap c a id bWait dl :
  chan_rel n cap c a -> fresh id c -> n + 1 < 2 ^ 64 ->
  exists c', Pop id bWait dl c = Ret ((line_pop id bWait dl a).1, c') /\
    chan_rel (n + 1) cap c' (line_pop id bWait dl a).2.
Proof.
  intros Hr Hid Hn. pose proof (cr_cap _ _ _ _ Hr) as [_ Hpos].
  destruct (a_closed a) eqn:Ecl.
  { exists c. unfold Pop, line_pop. rewrite <- (cr_closed _ _ _ _ Hr), Ecl.
    split; [done|]. apply (chan_rel_mono n); [lia|done]. }
  destruct (decide (cap = 0)) as [->|]; [|apply Pop_refines_buf; try done; lia].
  destruct (Pop_refines_0 n c a id bWait dl Hr Hid Ecl) as (c' & E & Hr').
  exists c'. split; [done|]. by apply (chan_rel_mono n); [lia|].
Qed.

(** ** Timers, returns and closing *)

Lemma waiting_ids_expire cs id k l :
  cst k <> Waiting ->
  waiting_ids (<[id := k]> cs) l = List.filter (fun p => negb (p =? id)%nat) (waiting_ids cs l).
Proof.
  intros Hk. unfold waiting_ids. induction l as [|x l IH]; [done|]. simpl. rewrite is_waiting_insert, IH.
  destruct (decide (id = x)) as [<-|Hne].
  - rewrite bool_decide_eq_false_2 by done.
    destruct (is_waiting cs id); simpl; [by rewrite Nat.eqb_refl|done].
  - destruct (is_waiting cs x); simpl; [|done].
    by rewrite (proj2 (Nat.eqb_neq x id)) by congruence.
Qed.

Lemma filter_nil_iff {A} (f : A -> bool) l : List.filter f l <> [] -> l <> [].
Proof. by destruct l. Qed.

Lemma expire_refines n cap c a id :
  chan_rel n cap c a ->
  match expire id c, line_expire id a with
  | Some c', Some a' => chan_rel n cap c' a'
  | None, None => True
  | _, _ => False
  end.
Proof.
  intros []. unfold expire, line_expire. rewrite cr_calls0.
  destruct (calls c !! id) as [k|] eqn:Hk; [|done]. simpl.
  destruct (timed k && bool_decide (cst k = Waiting)); [|done].
  split; simpl; try done.
  - by rewrite waiting_ids_expire, <- cr_writers0.
  - by rewrite waiting_ids_expire, <- cr_readers0.
  - intros w Hw. rewrite list_elem_of_In, filter_In in Hw. destruct Hw as [Hw Hne].
    rewrite value_of_insert, decide_False; [by apply cr_slots0, list_elem_of_In|].
    intros ->. by rewrite Nat.eqb_refl in Hne.
  - intros Hr%filter_nil_iff. destruct (cr_rwait0 Hr) as [? ->]. done.
  - intros Hr%filter_nil_iff. auto.
Qed.

Lemma waiting_ids_delete cs id l :
  is_waiting cs id = false -> waiting_ids (delete id cs) l = waiting_ids cs l.
Proof.
  intros Hid. unfold waiting_ids. induction l as [|x l IH]; [done|]. simpl. rewrite IH.
  replace (is_waiting (delete id cs) x) with (is_waiting cs x); [done|].
  unfold is_waiting in *. rewrite lookup_delete. case_decide; [|done]. by subst.
Qed.

Lemma resume_refines n cap c a id :
  chan_rel n cap c a ->
  match resume id c, line_resume id a with
  | Some (b, v, c'), Some (b', v', a') => b = b' /\ v = v' /\ chan_rel n cap c' a'
  | None, None => True
  | _, _ => False
  end.
Proof.
  intros Hr. pose proof Hr as []. unfold resume, line_resume. rewrite cr_calls0, cr_closed0.
  destruct (calls c !! id) as [k|] eqn:Hk; [|done]. simpl.
  assert (cst k <> Waiting -> chan_rel n cap (set_calls (delete id (calls c)) c)
    (mkLine (closed_ c) (a_buf a) (a_writers a) (a_readers a) (delete id (calls c)))) as Hrel.
  { intros Hw. assert (is_waiting (calls c) id = false) as Hid.
    { unfold is_waiting. rewrite Hk. by apply bool_decide_eq_false_2. }
    split; simpl; try done.
    - by rewrite waiting_ids_delete.
    - by rewrite waiting_ids_delete.
    - intros w Hww. unfold value_of. rewrite lookup_delete_ne; [by apply cr_slots0|].
      intros ->. rewrite cr_writers0 in Hww. apply elem_of_waiting in Hww as [_ Hww]. congruence. }
  destruct (cst k) eqn:Ec; [done|..]; (split; [done|]; split; [done|]; by apply Hrel).
Qed.

Lemma lookup_notify_all l : forall cs y,
  notify_all_calls l cs !! y =
    if decide (y ∈ l /\ is_waiting cs y = true)
    then (fun k => mkCall (timed k) (slot k) Notified) <$> cs !! y else cs !! y.
Proof.
  induction l as [|x l IH]; intros cs y.
  { rewrite decide_False; [done|]. set_solver. }
  change (notify_all_calls (x :: l) cs) with (notify_all_calls l
    (if is_waiting cs x then alter (fun k => mkCall (timed k) (slot k) Notified) x cs else cs)).
  rewrite IH. clear IH.
  destruct (is_waiting cs x) eqn:Ex.
  - destruct (decide (x = y)) as [->|Hne].
    + apply is_waiting_lookup in Ex as Hk. destruct Hk as (k & Hk & Hw).
      rewrite lookup_alter_eq, (decide_True (P := y ∈ y :: l /\ _)) by set_solver.
      rewrite decide_False; [done|]. intros [_ Hw']. unfold is_waiting in Hw'.
      rewrite lookup_alter_eq, Hk in Hw'. done.
    + rewrite lookup_alter_ne by done.
      assert (is_waiting (alter (fun k => mkCall (timed k) (slot k) Notified) x cs) y = is_waiting cs y) as ->.
      { unfold is_waiting. by rewrite lookup_alter_ne. }
      destruct (decide (y ∈ l /\ is_waiting cs y = true)); [rewrite decide_True by set_solver; done|].
      rewrite decide_False by set_solver. done.
  - destruct (decide (y ∈ l /\ is_waiting cs y = true)); [rewrite decide_True by set_solver; done|].
    rewrite decide_False; [done|]. intros [[->|?]%elem_of_cons ?]; [congruence|]. naive_solver.
Qed.

Lemma is_waiting_notify_all l cs y :
  is_waiting (notify_all_calls l cs) y = is_waiting cs y && negb (bool_decide (y ∈ l)).
Proof.
  unfold is_waiting at 1. rewrite lookup_notify_all. case_decide as Hd.
  - destruct Hd as [Hy Hw]. rewrite (bool_decide_eq_true_2 _ Hy), andb_false_r.
    by destruct (cs !! y).
  - fold (is_waiting cs y). destruct (is_waiting cs y) eqn:Ew; [|done].
    rewrite bool_decide_eq_false_2; [done|]. naive_solver.
Qed.

Lemma notify_all_waiting l cs : notify_all_calls (waiting_ids cs l) cs = notify_all_calls l cs.
Proof.
  apply map_eq. intros y. rewrite !lookup_notify_all.
  destruct (decide (y ∈ l /\ is_waiting cs y = true)) as [[? ?]|Hn].
  - rewrite decide_True; [done|]. by rewrite elem_of_waiting.
  - rewrite decide_False; [done|]. rewrite elem_of_waiting. naive_solver.
Qed.

Lemma Close_refines n cap c a : chan_rel n cap c a -> chan_rel n cap (Close c) (line_close a).
Proof.
  intros Hr. pose proof Hr as []. unfold Close, line_close. rewrite cr_closed0.
  destruct (closed_ c); [done|]. split; simpl; try done; [|by apply NoDup_nil_2|by intros w Hw%elem_of_nil].
  rewrite cr_calls0, cr_writers0, cr_readers0, notify_all_waiting.
  apply NoDup_app in cr_nodup0 as (_ & Hd & _). rewrite <- (notify_all_waiting (wq_ c) (notify_all_calls _ _)).
  f_equal. unfold waiting_ids. apply List.filter_ext_in. intros p Hp%list_elem_of_In.
  rewrite is_waiting_notify_all, bool_decide_eq_false_2 by by apply Hd. by rewrite andb_true_r.
Qed.

(** ** Runs *)

Inductive chan_op :=
| OPush (id : nat) (t : T) (bWait dl : bool)
| OPop (id : nat) (bWait dl : bool)
| OExpire (id : nat) | OResume (id : nat) | OClose.

Inductive chan_out :=
| RPush (r : option bool) | RPop (r : option (option T))
| RExpire (b : bool) | RResume (r : option (bool * option T)) | RClose.

Definition chan_do (o : chan_op) (c : Chan) : res (chan_out * Chan) :=
  match o with
  | OPush id t w dl => '(r, c) ← Push id t w dl c; Ret (RPush r, c)
  | OPop id w dl => '(r, c) ← Pop id w dl c; Ret (RPop r, c)
  | OExpire id => Ret (match expire id c with Some c => (RExpire true, c) | None => (RExpire false, c) end)
  | OResume id =>
      Ret (match resume id c with Some (b, v, c) => (RResume (Some (b, v)), c) | None => (RResume None, c) end)
  | OClose => Ret (RClose, Close c)
  end.
Fixpoint chan_run (os : list chan_op) (c : Chan) : res (list chan_out * Chan) :=
  match os with
  | [] => Ret ([], c)
  | o :: os => '(r, c) ← chan_do o c; '(rs, c) ← chan_run os c; Ret (r :: rs, c)
  end.

Definition line_do (cap : Z) (o : chan_op) (a : Line) : chan_out * Line :=
  match o with
  | OPush id t w dl => let '(r, a) := line_push cap id t w dl a in (RPush r, a)
  | OPop id w dl => let '(r, a) := line_pop id w dl a in (RPop r, a)
  | OExpire id => match line_expire id a with Some a => (RExpire true, a) | None => (RExpire false, a) end
  | OResume id =>
      match line_resume id a with Some (b, v, a) => (RResume (Some (b, v)), a) | None => (RResume None, a) end
  | OClose => (RClose, line_close a)
  end.
Fixpoint line_run (cap : Z) (os : list chan_op) (a : Line) : list chan_out * Line :=
  match os with
  | [] => ([], a)
  | o :: os => let '(r, a) := line_do cap o a in let '(rs, a) := line_run cap os a in (r :: rs, a)
  end.

(** The identities of the calls a run starts. *)
Definition op_id (o : chan_op) : list nat :=
  match o with OPush id _ _ _ | OPop id _ _ => [id] | _ => [] end.
Definition op_ids (os : list chan_op) : list nat := os ≫= op_id.

Definition keeps_fresh (c c' : Chan) : Prop := forall y, fresh y c -> fresh y c'.

Lemma serve_fresh p func c s c' : serve p func c = Ret (s, c') -> keeps_fresh c c'.
Proof.
  unfold serve. intros Hs. destruct (calls c !! p) as [k|] eqn:Hk; [|done]. simpl in Hs.
  apply res_bind_inv in Hs as ([v b] & _ & Hs). simplify_eq. intros y (H1 & H2 & H3).
  split_and!; try done. simpl. rewrite lookup_insert_ne; [done|]. intros ->. congruence.
Qed.

Lemma cv_notify_incl live l x : x ∈ (cv_notify live l).2 -> x ∈ l.
Proof. induction l as [|y l IH]; simpl; [done|]. destruct (live y); set_solver. Qed.

Lemma rq_notify_fresh func c r c' : rq_notify_one func c = Ret (r, c') -> keeps_fresh c c'.
Proof.
  unfold rq_notify_one. pose proof (fun x => cv_notify_incl (is_waiting (calls c)) (rq_ c) x) as Hi.
  destruct (cv_notify _ _) as [o rest]. simpl in Hi. intros Hs y (H1 & H2 & H3).
  assert (fresh y (set_rq rest c)) as Hy by (split_and!; try done; simpl; naive_solver).
  destruct o; [|by simplify_eq]. apply res_bind_inv in Hs as ([s c1] & Hs & E). simplify_eq.
  by eapply serve_fresh.
Qed.
Lemma wq_notify_fresh func c r c' : wq_notify_one func c = Ret (r, c') -> keeps_fresh c c'.
Proof.
  unfold wq_notify_one. pose proof (fun x => cv_notify_incl (is_waiting (calls c)) (wq_ c) x) as Hi.
  destruct (cv_notify _ _) as [o rest]. simpl in Hi. intros Hs y (H1 & H2 & H3).
  assert (fresh y (set_wq rest c)) as Hy by (split_and!; try done; simpl; naive_solver).
  destruct o; [|by simplify_eq]. apply res_bind_inv in Hs as ([s c1] & Hs & E). simplify_eq.
  by eapply serve_fresh.
Qed.

Lemma fresh_wait_writer y id k c :
  fresh y c -> y <> id -> fresh y (set_calls (<[id := k]> (calls c)) (set_wq (wq_ c ++ [id]) c)).
Proof. intros (H1 & H2 & H3) Hy. split_and!; simpl; [by rewrite lookup_insert_ne|set_solver|done]. Qed.
Lemma fresh_wait_reader y id k c :
  fresh y c -> y <> id -> fresh y (set_calls (<[id := k]> (calls c)) (set_rq (rq_ c ++ [id]) c)).
Proof. intros (H1 & H2 & H3) Hy. split_and!; simpl; [by rewrite lookup_insert_ne|done|set_solver]. Qed.

Lemma Push_fresh id t w dl c r c' y :
  Push id t w dl c = Ret (r, c') -> fresh y c -> y <> id -> fresh y c'.
Proof.
  unfold Push. intros Hs Hy Hne. destruct (closed_ c); [by simplify_eq|].
  apply res_bind_inv in Hs as ([h c1] & Hs1 & Hs).
  assert (fresh y c1) as Hy1.
  { destruct (_ =? 0); [by eapply rq_notify_fresh|by simplify_eq]. }
  destruct h; [by simplify_eq|].
  destruct (0 <? _); [destruct (b_push (buf c1) t) as [ok b]|]; simpl in Hs.
  - assert (fresh y (set_buf b c1)) as Hy2 by done. destruct ok.
    + destruct (_ =? 1); [|by simplify_eq].
      apply res_bind_inv in Hs as ([h2 c2] & Hs2 & Hs). simplify_eq. by eapply rq_notify_fresh.
    + destruct w; simpl in Hs; simplify_eq; [|done]. by apply (fresh_wait_writer y id _ (set_buf b c1)).
  - destruct w; simpl in Hs; simplify_eq; [|done]. by apply fresh_wait_writer.
Qed.

Lemma Pop_fresh id w dl c r c' y :
  Pop id w dl c = Ret (r, c') -> fresh y c -> y <> id -> fresh y c'.
Proof.
  unfold Pop. intros Hs Hy Hne. destruct (closed_ c); [by simplify_eq|].
  apply res_bind_inv in Hs as ([g c1] & Hs1 & Hs).
  assert (fresh y c1) as Hy1.
  { destruct (0 <? _).
    - apply res_bind_inv in Hs1 as ([o b] & _ & Hs1). destruct o; [|by simplify_eq].
      destruct (_ =? _ - 1); [|by simplify_eq].
      apply res_bind_inv in Hs1 as ([h2 c2] & Hs2 & Hs1). simplify_eq.
      by apply (wq_notify_fresh _ _ _ _ Hs2).
    - apply res_bind_inv in Hs1 as ([h2 c2] & Hs2 & Hs1).
      assert (fresh y c2) by (by eapply wq_notify_fresh).
      destruct h2; [|by simplify_eq]. apply res_bind_inv in Hs1 as (v & _ & Hs1). by simplify_eq. }
  destruct g; [by simplify_eq|]. destruct w; simpl in Hs; simplify_eq; [|done]. by apply fresh_wait_reader.
Qed.

Lemma chan_do_fresh o c r c' y :
  chan_do o c = Ret (r, c') -> fresh y c -> y ∉ op_id o -> fresh y c'.
Proof.
  destruct o as [id t w dl|id w dl|id|id|]; simpl; intros Hs Hy Hne.
  - apply res_bind_inv in Hs as ([? ?] & Hs & E). simplify_eq. eapply Push_fresh; [exact Hs|done|set_solver].
  - apply res_bind_inv in Hs as ([? ?] & Hs & E). simplify_eq. eapply Pop_fresh; [exact Hs|done|set_solver].
  - unfold expire in Hs. destruct (calls c !! id) as [k|] eqn:Hk; simpl in Hs; [|by simplify_eq].
    destruct (timed k && _); simplify_eq; [|done]. destruct Hy as (H1 & H2 & H3). split_and!; try done.
    simpl. rewrite lookup_insert_ne; [done|]. intros ->. congruence.
  - unfold resume in Hs. destruct (calls c !! id) as [k|] eqn:Hk; simpl in Hs; [|by simplify_eq].
    destruct Hy as (H1 & H2 & H3).
    destruct (cst k); simplify_eq; split_and!; try done; simpl; rewrite lookup_delete; by case_decide.
  - simplify_eq. unfold Close. destruct (closed_ c); [done|]. destruct Hy as (H1 & H2 & H3).
    split_and!; simpl; [|set_solver..]. rewrite !lookup_notify_all, !decide_False; [done|..]; naive_solver.
Qed.

Lemma chan_do_refines n cap c a o :
  chan_rel n cap c a -> n + 1 < 2 ^ 64 -> (forall id, id ∈ op_id o -> fresh id c) ->
  exists c', chan_do o c = Ret ((line_do cap o a).1, c') /\ chan_rel (n + 1) cap c' (line_do cap o a).2.
Proof.
  intros Hr Hn Hid. assert (forall c' a', chan_rel n cap c' a' -> chan_rel (n + 1) cap c' a') as Hm.
  { intros. by apply (chan_rel_mono n); [lia|]. }
  destruct o as [id t w dl|id w dl|id|id|]; simpl.
  - destruct (Push_refines n cap c a id t w dl Hr) as (c' & E & Hr'); [apply Hid; set_solver|done|].
    rewrite E. destruct (line_push cap id t w dl a). by exists c'.
  - destruct (Pop_refines n cap c a id w dl Hr) as (c' & E & Hr'); [apply Hid; set_solver|done|].
    rewrite E. destruct (line_pop id w dl a). by exists c'.
  - pose proof (expire_refines n cap c a id Hr) as HE.
    destruct (expire id c), (line_expire id a); try done; eexists; eauto.
  - pose proof (resume_refines n cap c a id Hr) as HE.
    destruct (resume id c) as [[[b v] c']|], (line_resume id a) as [[[b' v'] a']|]; try done; [|eexists; eauto].
    destruct HE as (-> & -> & HE). eexists; eauto.
  - eexists. split; [done|]. by apply Hm, Close_refines.
Qed.

Lemma chan_run_refines os : forall n cap c a,
  chan_rel n cap c a -> n + Z.of_nat (length os) < 2 ^ 64 -> NoDup (op_ids os) ->
  (forall id, id ∈ op_ids os -> fresh id c) ->
  exists c', chan_run os c = Ret ((line_run cap os a).1, c') /\
    chan_rel (n + Z.of_nat (length os)) cap c' (line_run cap os a).2.
Proof.
  induction os as [|o os IH]; intros n cap c a Hr Hn Hnd Hid.
  { exists c. split; [done|]. by rewrite Z.add_0_r. }
  change (op_ids (o :: os)) with (op_id o ++ op_ids os) in *.
  apply NoDup_app in Hnd as (_ & Hd & Hnd). cbn [length] in Hn |- *.
  destruct (chan_do_refines n cap c a o Hr ltac:(lia)) as (c1 & E1 & Hr1).
  { intros id Hi. apply Hid. set_solver. }
  simpl. rewrite E1. destruct (line_do cap o a) as [r a1]. simpl in E1, Hr1 |- *.
  destruct (IH (n + 1) cap c1 a1 Hr1 ltac:(lia) Hnd) as (c' & E2 & Hr').
  { intros id Hi. eapply chan_do_fresh; [exact E1|apply Hid; set_solver|]. intros Ho. by apply (Hd id). }
  rewrite E2. destruct (line_run cap os a1) as [rs a2]. simpl in *. exists c'. split; [done|].
  by replace (n + Z.of_nat (S (length os))) with (n + 1 + Z.of_nat (length os)) by lia.
Qed.

Definition Chan_init (b : B) : Chan := mkChan false b [] [] ∅.
Definition Line_init : Line := mkLine false [] [] [] ∅.

Lemma init_rel cap b : buf_rel 0 b [] -> b_cap b = cap -> 0 <= cap -> chan_rel 0 cap (Chan_init b) Line_init.
Proof. intros. split; simpl; try done; [apply NoDup_nil_2|by intros w Hw%elem_of_nil]. Qed.
End channel.

Arguments Chan : clear implicits.
Arguments chan_op : clear implicits.
Arguments chan_out : clear implicits.
Arguments Line : clear implicits.

(** [LockedChannelImpl(capacity, useRingBuffer)]. *)
Definition LockedChannelImpl {T} (capacity : Z) (useRingBuffer : bool) : Chan (ChanBuffer T) T :=
  Chan_init (mkChanBuffer useRingBuffer
    (ring_new (if useRingBuffer then capacity else 1)) (mkListBuffer [] capacity)).

(** ** Channel

    The operators of [Channel<T>] on the implementation it chose. *)

Inductive ChannelImpl {T : Type} :=
| CASImpl (capacity : Z)
| LockedImpl (c : Chan (ChanBuffer T) T).
Arguments ChannelImpl : clear implicits.

Definition Channel_new {T} (capacity choose1 choose2 : Z) : ChannelImpl T :=
  if capacity <? choose1 then CASImpl capacity
  else LockedImpl (LockedChannelImpl capacity (capacity <? choose2)).

(** The default arguments: [choose1 = 0], [choose2 = 100001]. *)
Definition Channel_default {T} (capacity : Z) : ChannelImpl T := Channel_new capacity 0 100001.

Section operators.
Context {T : Type}.
Abbreviation chan := (Chan (ChanBuffer T) T).

Definition op_push (id : nat) (t : T) (c : chan) := Push id t true false c.        (* [<<] *)
Definition op_pop (id : nat) (c : chan) := Pop id true false c.                    (* [>>] *)
Definition TryPush (id : nat) (t : T) (c : chan) := Push id t false false c.
Definition TryPop (id : nat) (c : chan) := Pop id false false c.
(** A deadline equal to the clock's epoch counts as no deadline. *)
Definition TimedPush (id : nat) (t : T) (deadline : Z) (c : chan) := Push id t true (negb (deadline =? 0)) c.
Definition TimedPop (id : nat) (deadline : Z) (c : chan) := Pop id true (negb (deadline =? 0)) c.
Definition TimedPush_for (id : nat) (t : T) (dur now : Z) (c : chan) := TimedPush id t (dur + now) c.
Definition TimedPop_for (id : nat) (dur now : Z) (c : chan) := TimedPop id (dur + now) c.
Definition chan_empty (c : chan) : bool := Empty c.
Definition chan_size (c : chan) : Z := b_size (buf c).
End operators.

(** ** The properties *)

Lemma Locked_init_rel {T} (capacity : Z) (ring : bool) :
  0 <= capacity -> capacity + 1 < 2 ^ 64 ->
  chan_rel 0 capacity (LockedChannelImpl (T := T) capacity ring) Line_init.
Proof.
  intros H0 H1. apply init_rel; [|by destruct ring|done].
  destruct ring; simpl; [|split; [done|simpl; lia]].
  split; [by apply ring_repr_new|simpl; lia].
Qed.


Definition ex_chan_ops : list (chan_op Z) :=
  [OPush 1 10 true false; OPush 2 20 true false; OPush 3 30 true true; OPush 4 40 true false;
   OExpire 3; OPop 5 true false; OPop 6 true false; OPop 7 true false; OResume 4; OResume 3;
   OPop 8 true false; OPush 9 90 true false; OResume 8].


(** Values keep their order and none is lost or invented.  In every state a
    channel can be in, a [Push] that is accepted or waits with no reader waiting puts its
    value at the end of the line; one that finds a reader waiting hands it its value; a
    [Pop] that returns a value returns the first of the line and removes exactly it; a
    refused or closed call changes nothing in line. *)
Theorem channel_fifo {B T : Type} `{BufferLaws B T} (n cap : Z) (c : Chan B T) (a : Line T)
    (id : nat) (t : T) (bWait dl : bool) :
  chan_rel n cap c a -> fresh id c -> a_closed a = false ->
  (let '(r, a') := line_push cap id t bWait dl a in
   match r, a_readers a with
   | Some false, _ => line a' = line a
   | _, [] => line a' = line a ++ [t]
   | _, p :: ps => line a = [] /\ line a' = [] /\ a_readers a' = ps /\
       slot <$> a_calls a' !! p = Some (Some t)
   end) /\
  (let '(r, a') := line_pop id bWait dl a in
   match r with
   | Some (Some v) => line a = v :: line a'
   | Some None | None => line a = [] /\ line a' = []
   end).
Proof.
  intros [Hcap Hcl Hb Hcs Hws Hrs Hnd Hsl Hrw Hww] (Hid & Hidw & Hidr) Ha.
  assert (forall p k ws, p ∉ ws -> ws ≫= value_of (<[p := k]> (a_calls a)) = ws ≫= value_of (a_calls a)) as Hbind.
  { intros p k ws Hp. induction ws as [|w ws IH]; [done|]. cbn [mbind list_bind].
    rewrite value_of_insert, decide_False by set_solver. f_equal. apply IH. set_solver. }
  assert (id ∉ a_writers a) as Hidw'.
  { rewrite Hws, elem_of_waiting. naive_solver. }
  split; unfold line_push, line_pop; rewrite Ha.
  - destruct (a_readers a) as [|p ps] eqn:Erd.
    + destruct (_ <? cap) eqn:Ef.
      * assert (a_writers a = []) as Ews.
        { destruct (a_writers a) eqn:Ews; [done|]. rewrite Hww in Ef by done. apply Z.ltb_lt in Ef. lia. }
        unfold line. simpl. rewrite Ews. simpl. by rewrite !app_nil_r.
      * destruct bWait; [|done]. unfold line. simpl. rewrite bind_app, Hbind by done. simpl.
        rewrite value_of_insert, decide_True by done. simpl. by rewrite app_assoc.
    + destruct (Hrw ltac:(done)) as [Eb Ews]. unfold line. simpl. rewrite Eb, Ews. split_and!; try done.
      assert (p ∈ waiting_ids (calls c) (rq_ c)) as Hp by (rewrite <- Hrs; set_solver).
      apply elem_of_waiting in Hp as [_ (k & Hk & _)%is_waiting_lookup].
      unfold deliver. rewrite lookup_alter_eq, Hcs, Hk. done.
  - destruct (line a) as [|v vs] eqn:El.
    + destruct bWait; [|done]. split; [done|]. unfold line in *. simpl. rewrite Hbind by done. done.
    + destruct (a_writers a) as [|w ws] eqn:Ews.
      * unfold line in *. simpl in *. rewrite Ews in El. simpl in El. rewrite app_nil_r in El |- *. by rewrite El.
      * destruct (Hsl w ltac:(set_solver)) as [x Hx]. rewrite <- Hcs in Hx.
        assert (w ∉ ws) as Hwn.
        { apply NoDup_app in Hnd as (Hn & _ & _). apply (NoDup_ListNoDup _) in Hn.
          apply (List.NoDup_filter (is_waiting (calls c))) in Hn. apply NoDup_ListNoDup in Hn.
          fold (waiting_ids (calls c) (wq_ c)) in Hn. rewrite <- Hws in Hn. by apply NoDup_cons in Hn as [? _]. }
        destruct (a_calls a !! w) as [k|] eqn:Hk; [|unfold value_of in Hx; by rewrite Hk in Hx].
        unfold line in *. simpl. rewrite Ews in El. cbn [mbind list_bind] in El. rewrite Hx in El |- *.
        rewrite (accept_insert _ _ _ Hk) || fold (accept w (a_calls a)); rewrite ?(accept_insert _ _ _ Hk).
        rewrite Hbind by done. rewrite app_assoc in El.
        destruct (a_buf a ++ [x]) as [|y l] eqn:E; [by destruct (a_buf a)|]. simpl in *. by simplify_eq.
Qed.

Lemma channel_fifo_witness :
  let a := Line_init (T := Z) in
  (line (line_push 1 0 7 true false a).2 = line a ++ [7]) /\
  (line a = [] /\ line (line_pop 0 true false a).2 = []).
Proof.
  intros a.
  pose proof (Locked_init_rel (T := Z) 1 false) as Hr.
  destruct (channel_fifo 0 1 (LockedChannelImpl 1 false) a 0 7 true false) as [H1 H2];
    [apply Hr; lia|split_and!; [done|apply not_elem_of_nil..]|reflexivity|].
  split; [exact H1|exact H2].
Defined.



(** Closing loses a delivered value.  A reader that was handed a value and
    has not resumed yet when the channel is closed returns false: the [Push] of that value
    returned true, and the value is gone. *)
Theorem channel_close_drops_delivered :
  exists c, chan_run [OPop 1 true false; OPush 2 42 true false; OClose; OResume 1] (LockedChannelImpl 0 true) =
    Ret ([RPop None; RPush (Some true); RClose; RResume (Some (false, Some 42))], c).
Proof. eexists. vm_compute. reflexivity. Qed.
