(* ===== verification/RefCount.v ===== *)
(** The half-intrusive reference counting of [common/inc/LangSupport.h]: [RefObject] and
    [SharedRefObject] with their counters, deleters and control blocks, the smart pointers
    [IncursivePtr], [AutoRelease], [WeakPtr], [RefGuard] over a heap of objects, and the
    helpers of that header.

    The heap holds the live objects and the live control blocks; reading one that was
    deleted is [AssertFail].  [Section handles] shows that any sequence of operations on
    handles keeps each counter equal to the number of handles; [Module Protocol] is the race
    of [WeakPtr::lock] with the last [DecrementRef], one atomic access per step. *)
From S2P Require Import Prelude.
Local Open Scope Z_scope.

(** ** The objects *)

(** [Deleter]: a function pointer, null for plain [delete], and its argument. *)
Record Deleter := mkDeleter { func_ : option nat; arg_ : nat }.
Definition Deleter_default : Deleter := mkDeleter None 0.

(** [RefObject::reference_]: points at the object's own counter or into a control block. *)
Inductive refptr := Own | InImpl (i : nat).

(** A [RefObject]; [impl_] is the field of [SharedRefObject], [None] for a plain one. *)
Record RefObject := mkObj {
  reference_ : refptr; referenceImpl_ : Z; deleter_ : Deleter; impl_ : option nat }.
(** [RefObjectImpl]. *)
Record RefObjectImpl := mkImpl { ireference_ : Z; weak_ : Z }.

(** The heap: live objects, live control blocks, the calls made to custom deleters
    (function, object, argument) and the next fresh address. *)
Record heap := mkHeap {
  objs : gmap nat RefObject; impls : gmap nat RefObjectImpl;
  calls : list (nat * nat * nat); fresh_addr : nat }.

Definition set_obj (o : nat) (x : RefObject) (h : heap) : heap :=
  mkHeap (<[o := x]> (objs h)) (impls h) (calls h) (fresh_addr h).
Definition set_impl (i : nat) (x : RefObjectImpl) (h : heap) : heap :=
  mkHeap (objs h) (<[i := x]> (impls h)) (calls h) (fresh_addr h).
Definition delete_obj (o : nat) (h : heap) : heap :=
  mkHeap (delete o (objs h)) (impls h) (calls h) (fresh_addr h).
Definition delete_impl (i : nat) (h : heap) : heap :=
  mkHeap (objs h) (delete i (impls h)) (calls h) (fresh_addr h).

(** The methods change the heap and return a value. *)
Definition M (A : Type) : Type := st heap A.
Definition get_obj (o : nat) : M RefObject := fun h => x ← deref (objs h !! o); Ret (h, x).
Definition get_impl (i : nat) : M RefObjectImpl := fun h => x ← deref (impls h !! i); Ret (h, x).
Definition RefObject_new : M nat := fun h =>
  let o := fresh_addr h in
  Ret (mkHeap (<[o := mkObj Own 1 Deleter_default None]> (objs h)) (impls h) (calls h) (S o), o).

Definition RefObjectImpl_new : RefObjectImpl := mkImpl 1 1.

Definition SharedRefObject_new : M nat := fun h =>
  let o := fresh_addr h in
  Ret (mkHeap (<[o := mkObj (InImpl o) 1 Deleter_default (Some o)]> (objs h))
         (<[o := RefObjectImpl_new]> (impls h)) (calls h) (S o), o).

Definition IsShared (o : nat) : M bool :=
  let* x := get_obj o in
  ret (match reference_ x with Own => false | InImpl _ => true end).

(** [++*reference_], [--*reference_]: the new value. *)
Definition add_ref (o : nat) (d : Z) : M Z :=
  let* x := get_obj o in
  match reference_ x with
  | Own =>
      let n := referenceImpl_ x + d in
      modify (set_obj o (mkObj (reference_ x) n (deleter_ x) (impl_ x))) ;;; ret n
  | InImpl i =>
      let* b := get_impl i in
      let n := ireference_ b + d in
      modify (set_impl i (mkImpl n (weak_ b))) ;;; ret n
  end.

Definition IncrementRef (o : nat) : M unit := add_ref o 1 ;;; ret tt.

Definition use_count (o : nat) : M Z :=
  let* x := get_obj o in
  match reference_ x with
  | Own => ret (referenceImpl_ x)
  | InImpl i => let* b := get_impl i in ret (ireference_ b)
  end.

Definition SetDeleter (o : nat) (d : Deleter) : M unit :=
  let* x := get_obj o in
  modify (set_obj o (mkObj (reference_ x) (referenceImpl_ x) d (impl_ x))).

(** [Deleter::operator()]. *)
Definition Deleter_call (d : Deleter) (ptr : nat) : M unit :=
  match func_ d with
  | Some f => modify (fun h => mkHeap (objs h) (impls h) (calls h ++ [(f, ptr, arg_ d)]) (fresh_addr h))
  | None => modify (delete_obj ptr)
  end.

Definition RefObject_DecrementRef (o : nat) : M bool :=
  let* n := add_ref o (-1) in
  if n =? 0 then let* x := get_obj o in Deleter_call (deleter_ x) o ;;; ret true
  else ret false.

Definition IncrementWeak (i : nat) : M unit :=
  let* b := get_impl i in modify (set_impl i (mkImpl (ireference_ b) (weak_ b + 1))).

Definition DecrementWeak (i : nat) : M unit :=
  let* b := get_impl i in
  modify (set_impl i (mkImpl (ireference_ b) (weak_ b - 1))) ;;;
  if weak_ b - 1 =? 0 then modify (delete_impl i) else ret tt.

(** [RefObjectImpl::Lock], when no other thread changes the counter meanwhile ([Module
    Protocol] has the loop). *)
Definition Lock (i : nat) : M bool :=
  let* b := get_impl i in
  if ireference_ b =? 0 then ret false
  else modify (set_impl i (mkImpl (ireference_ b + 1) (weak_ b))) ;;; ret true.

(** The virtual [DecrementRef]: [SharedRefObject]'s when the object has a control block. *)
Definition DecrementRef (o : nat) : M bool :=
  let* x := get_obj o in
  match impl_ x with
  | None => RefObject_DecrementRef o
  | Some impl =>
      let* dead := RefObject_DecrementRef o in
      if dead then DecrementWeak impl ;;; ret true else ret false
  end.

(** ** [IncursivePtr]

    A handle is its field [ptr_]. *)
Definition IncursivePtr := option nat.

(** [if (ptr_) ptr_->IncrementRef()] and [if (ptr_) ptr_->DecrementRef()]. *)
Definition inc_opt (p : option nat) : M unit := match p with Some o => IncrementRef o | None => ret tt end.
Definition dec_opt (p : option nat) : M unit :=
  match p with Some o => DecrementRef o ;;; ret tt | None => ret tt end.

Definition IncursivePtr_default : IncursivePtr := None.
Definition IncursivePtr_new (ptr : option nat) : M IncursivePtr := inc_opt ptr ;;; ret ptr.
Definition IncursivePtr_destroy (p : IncursivePtr) : M unit := dec_opt p.
Definition IncursivePtr_copy (other : IncursivePtr) : M IncursivePtr := inc_opt other ;;; ret other.
(** The new handle and the emptied one. *)
Definition IncursivePtr_move (other : IncursivePtr) : IncursivePtr * IncursivePtr := (other, None).
Definition IncursivePtr_reset (p : IncursivePtr) : M IncursivePtr :=
  match p with Some o => DecrementRef o ;;; ret None | None => ret None end.
(** [operator=(IncursivePtr const&)] and [operator=(IncursivePtr&&)] of two different
    handles; the caller tests [this == &other]. *)
Definition IncursivePtr_assign (p other : IncursivePtr) : M IncursivePtr :=
  IncursivePtr_reset p ;;; inc_opt other ;;; ret other.
Definition IncursivePtr_move_assign (p other : IncursivePtr) : M (IncursivePtr * IncursivePtr) :=
  let* p := IncursivePtr_reset p in ret (other, p).
Definition IncursivePtr_use_count (p : IncursivePtr) : M Z :=
  match p with Some o => use_count o | None => ret 0 end.
Definition unique (p : IncursivePtr) : M bool :=
  let* n := IncursivePtr_use_count p in ret (n =? 1).
Definition IncursivePtr_swap (p other : IncursivePtr) : IncursivePtr * IncursivePtr := (other, p).

(** [AutoRelease]: the end of its scope, and [release]. *)
Definition AutoRelease_destroy (ptr_ : option nat) : M unit := dec_opt ptr_.
Definition AutoRelease_release (ptr_ : option nat) : option nat := None.

(** [RefGuard]: its constructor and destructor. *)
Definition RefGuard_new (ptr : nat) : M nat := IncrementRef ptr ;;; ret ptr.
Definition RefGuard_destroy (ptr_ : nat) : M unit := DecrementRef ptr_ ;;; ret tt.

(** [SharedFromThis] and [MakeShared]: a [std::shared_ptr] is one reference that its
    deleter gives back with [DecrementRef]. *)
Definition SharedFromThis (ptr : nat) : M nat := IncrementRef ptr ;;; ret ptr.
Definition MakeShared (shared : bool) : M nat := if shared then SharedRefObject_new else RefObject_new.
Definition shared_ptr_deleter (self : nat) : M unit := DecrementRef self ;;; ret tt.

(** ** [WeakPtr] *)
Record WeakPtr := mkWeak { wimpl_ : option nat; wptr_ : option nat }.
Definition WeakPtr_default : WeakPtr := mkWeak None None.

Definition WeakPtr_reset (w : WeakPtr) : M WeakPtr :=
  match wimpl_ w with Some i => DecrementWeak i ;;; ret WeakPtr_default | None => ret w end.

(** [reset] with a pointer. *)
Definition WeakPtr_reset_to (w : WeakPtr) (ptr : option nat) : M WeakPtr :=
  let* w := WeakPtr_reset w in
  match ptr with
  | None => ret w
  | Some o =>
      let* s := IsShared o in
      if negb s then ret w
      else let* x := get_obj o in
           match impl_ x with
           | Some i => IncrementWeak i ;;; ret (mkWeak (Some i) (Some o))
           | None => fun _ => AssertFail
           end
  end.

Definition WeakPtr_new (ptr : option nat) : M WeakPtr := WeakPtr_reset_to WeakPtr_default ptr.
Definition WeakPtr_from (iptr : IncursivePtr) : M WeakPtr := WeakPtr_reset_to WeakPtr_default iptr.
Definition WeakPtr_copy (other : WeakPtr) : M WeakPtr :=
  match wimpl_ other with Some i => IncrementWeak i ;;; ret other | None => ret other end.
Definition WeakPtr_swap (w other : WeakPtr) : WeakPtr * WeakPtr := (other, w).
Definition WeakPtr_move (other : WeakPtr) : WeakPtr * WeakPtr := WeakPtr_swap WeakPtr_default other.
Definition WeakPtr_move_assign (w other : WeakPtr) : WeakPtr * WeakPtr := WeakPtr_swap w other.
Definition WeakPtr_assign (w other : WeakPtr) : M WeakPtr :=
  let* w := WeakPtr_reset w in
  match wimpl_ other with Some i => IncrementWeak i ;;; ret other | None => ret w end.
Definition WeakPtr_destroy (w : WeakPtr) : M unit := WeakPtr_reset w ;;; ret tt.
Definition WeakPtr_bool (w : WeakPtr) : bool := match wimpl_ w with Some _ => true | None => false end.

(** [lock]: [Lock] took a reference, the handle takes another, and the first is given
    back. *)
Definition WeakPtr_lock (w : WeakPtr) : M IncursivePtr :=
  match wimpl_ w with
  | None => ret IncursivePtr_default
  | Some i =>
      let* ok := Lock i in
      if negb ok then ret IncursivePtr_default
      else match wptr_ w with
           | Some o => let* iptr := IncursivePtr_new (Some o) in DecrementRef o ;;; ret iptr
           | None => fun _ => AssertFail
           end
  end.

Definition WeakPtr_use_count (w : WeakPtr) : M Z :=
  match wimpl_ w with Some i => let* b := get_impl i in ret (ireference_ b) | None => ret 0 end.
Definition WeakPtr_eq (a b : WeakPtr) : bool :=
  (bool_decide (wimpl_ a = wimpl_ b) && bool_decide (wptr_ a = wptr_ b))%bool.

(** ** Counters and source locations *)

(** [ObjectCounter]: constructors and destructor move the class counter. *)
Definition ObjectCounter_new (counter : Z) : Z := counter + 1.
Definition ObjectCounter_destroy (counter : Z) : Z := counter - 1.
Definition getCount (counter : Z) : Z := counter.
(** [IdCounter]: every construction takes [++counter()]; the id and the new counter. *)
Definition IdCounter_new (counter : Z) : Z * Z := (counter + 1, counter + 1).

(** [SourceLocation]: a file name is an address of a C string; [strcmp] is the C
    library's. *)
Record SourceLocation := mkLoc { file_ : option nat; lineno_ : Z }.
Definition SourceLocation_lt (strcmp : nat -> nat -> Z) (lhs rhs : SourceLocation) : bool :=
  if negb (lineno_ lhs =? lineno_ rhs) then lineno_ lhs <? lineno_ rhs
  else if bool_decide (file_ lhs = file_ rhs) then false
  else match file_ lhs, file_ rhs with
       | None, _ => true
       | _, None => false
       | Some a, Some b => strcmp a b =? -1
       end.

(** ** Programs over handles

    Variables of three kinds: [raw] pointers that own the reference of a [new] (or stand for
    a [std::shared_ptr] or an [AutoRelease]), [IncursivePtr]s and [WeakPtr]s. *)
Record vars := mkVars { raws : list (option nat); sps : list (option nat); wps : list WeakPtr }.

Inductive cmd :=
| CNew (x : nat) (shared : bool)     (** [raw x = new T] / [MakeShared] *)
| CDrop (x : nat)                    (** [raw x] goes out of scope: [AutoRelease], [shared_ptr] *)
| CShare (x y : nat)                 (** [raw x = SharedFromThis(p_y.get())] *)
| CWrap (y x : nat)                  (** [p_y = IncursivePtr(raw x)] *)
| CCopy (y z : nat)                  (** [p_y = p_z] *)
| CMove (y z : nat)                  (** [p_y = std::move(p_z)] *)
| CReset (y : nat)                   (** [p_y.reset()] *)
| CSwap (y z : nat)                  (** [p_y.swap(p_z)] *)
| CScope (y : nat)                   (** [{ IncursivePtr t(p_y); RefGuard g(p_y.get()); }] *)
| CWeak (w y : nat)                  (** [w_w = WeakPtr(p_y)] *)
| CWCopy (w v : nat)                 (** [w_w = w_v] *)
| CWMove (w v : nat)                 (** [w_w = std::move(w_v)] *)
| CWReset (w : nat)                  (** [w_w.reset()] *)
| CLock (y w : nat).                 (** [p_y = w_w.lock()] *)

Definition geti {A} (l : list A) (i : nat) : M A := fun h => a ← deref (l !! i); Ret (h, a).

(** [p_y = temporary]: the move assignment, then the destruction of the temporary. *)
Definition assign_temp (p temp : IncursivePtr) : M IncursivePtr :=
  let* r := IncursivePtr_move_assign p temp in
  IncursivePtr_destroy r.2 ;;; ret r.1.

Definition exec (c : cmd) (v : vars) : M vars :=
  match c with
  | CNew x shared =>
      let* o := MakeShared shared in ret (mkVars (<[x := Some o]> (raws v)) (sps v) (wps v))
  | CDrop x =>
      let* p := geti (raws v) x in
      AutoRelease_destroy p ;;; ret (mkVars (<[x := None]> (raws v)) (sps v) (wps v))
  | CShare x y =>
      let* p := geti (sps v) y in
      match p with
      | None => fun _ => AssertFail
      | Some o => let* o := SharedFromThis o in ret (mkVars (<[x := Some o]> (raws v)) (sps v) (wps v))
      end
  | CWrap y x =>
      let* p := geti (raws v) x in let* old := geti (sps v) y in
      let* t := IncursivePtr_new p in let* r := assign_temp old t in
      ret (mkVars (raws v) (<[y := r]> (sps v)) (wps v))
  | CCopy y z =>
      let* old := geti (sps v) y in let* p := geti (sps v) z in
      if (y =? z)%nat then ret v
      else let* r := IncursivePtr_assign old p in
           ret (mkVars (raws v) (<[y := r]> (sps v)) (wps v))
  | CMove y z =>
      let* old := geti (sps v) y in let* p := geti (sps v) z in
      if (y =? z)%nat then ret v
      else let* r := IncursivePtr_move_assign old p in
           ret (mkVars (raws v) (<[z := r.2]> (<[y := r.1]> (sps v))) (wps v))
  | CReset y =>
      let* p := geti (sps v) y in let* r := IncursivePtr_reset p in
      ret (mkVars (raws v) (<[y := r]> (sps v)) (wps v))
  | CSwap y z =>
      let* p := geti (sps v) y in let* q := geti (sps v) z in
      let r := IncursivePtr_swap p q in
      ret (mkVars (raws v) (<[z := r.2]> (<[y := r.1]> (sps v))) (wps v))
  | CScope y =>
      let* p := geti (sps v) y in
      match p with
      | None => fun _ => AssertFail
      | Some o => let* t := IncursivePtr_copy p in let* g := RefGuard_new o in
                  RefGuard_destroy g ;;; IncursivePtr_destroy t ;;; ret v
      end
  | CWeak w y =>
      let* p := geti (sps v) y in let* old := geti (wps v) w in
      let* t := WeakPtr_from p in
      let r := WeakPtr_move_assign old t in
      WeakPtr_destroy r.2 ;;; ret (mkVars (raws v) (sps v) (<[w := r.1]> (wps v)))
  | CWCopy w u =>
      let* old := geti (wps v) w in let* p := geti (wps v) u in
      if (w =? u)%nat then ret v
      else let* r := WeakPtr_assign old p in
           ret (mkVars (raws v) (sps v) (<[w := r]> (wps v)))
  | CWMove w u =>
      let* old := geti (wps v) w in let* p := geti (wps v) u in
      let r := WeakPtr_move_assign old p in
      ret (mkVars (raws v) (sps v) (<[u := r.2]> (<[w := r.1]> (wps v))))
  | CWReset w =>
      let* p := geti (wps v) w in let* r := WeakPtr_reset p in
      ret (mkVars (raws v) (sps v) (<[w := r]> (wps v)))
  | CLock y w =>
      let* p := geti (wps v) w in let* old := geti (sps v) y in
      let* t := WeakPtr_lock p in let* r := assign_temp old t in
      ret (mkVars (raws v) (<[y := r]> (sps v)) (wps v))
  end.

Fixpoint exec_all (cs : list cmd) (v : vars) : M vars :=
  match cs with [] => ret v | c :: cs => let* v := exec c v in exec_all cs v end.

(** What a program may do: use variables that exist, not overwrite an owning raw pointer,
    not call [SharedFromThis] or guard through a null handle. *)
Definition is_null (l : list (option nat)) (i : nat) : bool :=
  match l !! i with Some None => true | _ => false end.
Definition non_null (l : list (option nat)) (i : nat) : bool :=
  match l !! i with Some (Some _) => true | _ => false end.
Definition legal (c : cmd) (v : vars) : bool :=
  let r x := (x <? length (raws v))%nat in
  let s x := (x <? length (sps v))%nat in
  let w x := (x <? length (wps v))%nat in
  match c with
  | CNew x _ => is_null (raws v) x
  | CDrop x => r x
  | CShare x y => is_null (raws v) x && non_null (sps v) y
  | CWrap y x => s y && r x
  | CCopy y z | CMove y z | CSwap y z => s y && s z
  | CReset y => s y
  | CScope y => non_null (sps v) y
  | CWeak u y => w u && s y
  | CWCopy u t | CWMove u t => w u && w t
  | CWReset u => w u
  | CLock y u => s y && w u
  end.

(** The state before the program: empty heap, null variables. *)
Definition heap0 : heap := mkHeap ∅ ∅ [] 0.
Definition vars0 (nr ns nw : nat) : vars :=
  mkVars (replicate nr None) (replicate ns None) (replicate nw WeakPtr_default).

Inductive runs : list cmd -> heap * vars -> Prop :=
| runs_nil nr ns nw : runs [] (heap0, vars0 nr ns nw)
| runs_snoc cs c h v h' v' :
    runs cs (h, v) -> legal c v = true -> exec c v h = Ret (h', v') -> runs (cs ++ [c]) (h', v').

(** ** Handles and counters *)

Definition is_some_eq (o : nat) (p : option nat) : bool := bool_decide (p = Some o).
Definition strong (v : vars) (o : nat) : Z :=
  Z.of_nat (count (is_some_eq o) (raws v)) + Z.of_nat (count (is_some_eq o) (sps v)).
Definition weaks (v : vars) (o : nat) : Z := Z.of_nat (count (fun w => is_some_eq o (wimpl_ w)) (wps v)).

(** The heap agrees with [ns] strong and [nw] weak references to each object.  The control
    block of a shared object has the object's address. *)
Definition agrees (h : heap) (ns nw : nat -> Z) (o : nat) : Prop :=
  0 <= ns o /\ 0 <= nw o /\
  match objs h !! o with
  | Some x =>
      0 < ns o /\ func_ (deleter_ x) = None /\ (o < fresh_addr h)%nat /\
      match impl_ x with
      | None => reference_ x = Own /\ referenceImpl_ x = ns o /\ nw o = 0 /\ impls h !! o = None
      | Some i => i = o /\ reference_ x = InImpl o /\ impls h !! o = Some (mkImpl (ns o) (nw o + 1))
      end
  | None =>
      ns o = 0 /\
      match impls h !! o with
      | Some b => b = mkImpl 0 (nw o) /\ 0 < nw o /\ (o < fresh_addr h)%nat
      | None => nw o = 0
      end
  end.
Definition balanced (h : heap) (ns nw : nat -> Z) : Prop := calls h = [] /\ forall o, agrees h ns nw o.

Definition shift (f : nat -> Z) (p : option nat) (d : Z) : nat -> Z :=
  fun o => if is_some_eq o p then f o + d else f o.

(** Counts matter up to pointwise equality. *)
#[export] Instance balanced_proper (h : heap) :
  Proper (pointwise_relation nat eq ==> pointwise_relation nat eq ==> iff) (balanced h).
Proof.
  intros f f' Hf g g' Hg. unfold balanced, agrees.
  split; intros [Hc H]; (split; [done|]); intros o; specialize (H o); specialize (Hf o); specialize (Hg o);
    [rewrite <- Hf, <- Hg|rewrite Hf, Hg]; exact H.
Qed.

(** [yields m ns nw Q]: on a heap that agrees with [ns] and [nw], [m] returns, and the new
    heap agrees with counts that satisfy [Q]. *)
Definition yields {A} (m : M A) (ns nw : nat -> Z) (Q : A -> (nat -> Z) -> (nat -> Z) -> Prop) : Prop :=
  forall h, balanced h ns nw ->
  exists h' a ns' nw', m h = Ret (h', a) /\ balanced h' ns' nw' /\ Q a ns' nw'.

Lemma yields_ret {A} (a : A) ns nw Q : Q a ns nw -> yields (ret a) ns nw Q.
Proof. intros HQ h Hh. by exists h, a, ns, nw. Qed.

Lemma yields_bind {A B} (m : M A) (f : A -> M B) ns nw Q R :
  yields m ns nw Q -> (forall a ns' nw', Q a ns' nw' -> yields (f a) ns' nw' R) ->
  yields (bind m f) ns nw R.
Proof.
  intros Hm Hf h Hh. destruct (Hm h Hh) as (h1 & a & ns1 & nw1 & E1 & Hh1 & HQ).
  destruct (Hf a ns1 nw1 HQ h1 Hh1) as (h2 & b & ns2 & nw2 & E2 & Hh2 & HR).
  exists h2, b, ns2, nw2. unfold bind. rewrite E1. simpl. done.
Qed.

Lemma yields_conseq {A} (m : M A) ns nw (Q R : A -> (nat -> Z) -> (nat -> Z) -> Prop) :
  yields m ns nw Q -> (forall a ns' nw', Q a ns' nw' -> R a ns' nw') -> yields m ns nw R.
Proof. intros Hm HQ h Hh. destruct (Hm h Hh) as (h1 & a & ns1 & nw1 & ? & ? & ?). eauto 10. Qed.

(** The postcondition "returns [a] and the counts are these". *)
Definition exactly {A} (a : A) (f g : nat -> Z) : A -> (nat -> Z) -> (nat -> Z) -> Prop :=
  fun a' f' g' => a' = a /\ f' = f /\ g' = g.

Lemma yields_step {A B} (m : M A) (k : A -> M B) (a : A) ns nw f g R :
  yields m ns nw (exactly a f g) -> yields (k a) f g R -> yields (bind m k) ns nw R.
Proof. intros Hm Hk. eapply yields_bind; [exact Hm|]. by intros ? ? ? (-> & -> & ->). Qed.

Lemma yields_ret_step {A B} (k : A -> M B) (a : A) ns nw R :
  yields (k a) ns nw R -> yields (bind (ret a) k) ns nw R.
Proof. intros Hk. by eapply yields_step; [apply yields_ret|]. Qed.

Lemma is_some_eq_true (o : nat) p : is_some_eq o p = true <-> p = Some o.
Proof. unfold is_some_eq. by rewrite bool_decide_eq_true. Qed.
Lemma is_some_eq_refl (o : nat) : is_some_eq o (Some o) = true.
Proof. by apply is_some_eq_true. Qed.
Lemma is_some_eq_ne (o o' : nat) : o <> o' -> is_some_eq o (Some o') = false.
Proof. intros. unfold is_some_eq. apply bool_decide_eq_false. congruence. Qed.

Lemma shift_same f (o : nat) d : shift f (Some o) d o = f o + d.
Proof. unfold shift. by rewrite is_some_eq_refl. Qed.
Lemma shift_other f (o o' : nat) d : o <> o' -> shift f (Some o') d o = f o.
Proof. intros. unfold shift. by rewrite is_some_eq_ne. Qed.
Lemma shift_none f d : shift f None d = f.
Proof. done. Qed.

(** One object changes: the others keep agreeing. *)
Lemma agrees_frame h h' ns nw ns' nw' (o : nat) :
  (fresh_addr h <= fresh_addr h')%nat ->
  calls h' = calls h ->
  (forall o', o' <> o -> objs h' !! o' = objs h !! o' /\ impls h' !! o' = impls h !! o' /\
     ns' o' = ns o' /\ nw' o' = nw o') ->
  balanced h ns nw -> agrees h' ns' nw' o -> balanced h' ns' nw'.
Proof.
  intros Hf Hc Ho [Hcs Hb] Ha. split; [congruence|]. intros o'. destruct (decide (o' = o)) as [->|Hn]; [done|].
  specialize (Ho o' Hn) as (E1 & E2 & E3 & E4). specialize (Hb o'). unfold agrees in *.
  rewrite E1, E2, E3, E4. destruct (objs h !! o') as [x|].
  - destruct (impl_ x); naive_solver lia.
  - destruct (impls h !! o'); naive_solver lia.
Qed.

Ltac frame o :=
  match goal with H : balanced ?h ?ns ?nw |- _ => apply (agrees_frame h _ ns nw _ _ o) end;
  [simpl; lia | done | intros; simpl; rewrite ?lookup_delete_ne by congruence; rewrite ?lookup_insert_ne by congruence; rewrite ?lookup_delete_ne, ?shift_other by congruence; done
  | assumption | unfold agrees; simpl; rewrite ?lookup_delete_eq, ?lookup_insert_eq, ?lookup_delete_eq, ?shift_same; simpl].

(** A live object, taken apart. *)
Lemma balanced_live h ns nw o :
  balanced h ns nw -> 0 < ns o ->
  0 <= nw o /\
  ((exists d, objs h !! o = Some (mkObj Own (ns o) d None) /\ func_ d = None /\ nw o = 0 /\
     impls h !! o = None /\ (o < fresh_addr h)%nat) \/
   (exists d c, objs h !! o = Some (mkObj (InImpl o) c d (Some o)) /\ func_ d = None /\
     impls h !! o = Some (mkImpl (ns o) (nw o + 1)) /\ (o < fresh_addr h)%nat)).
Proof.
  intros [Hc Hb] Hp. specialize (Hb o) as (H0 & H1 & Hb).
  destruct (objs h !! o) as [[r c d [i|]]|]; simpl in Hb.
  - destruct Hb as (? & ? & ? & -> & -> & ?). split; [done|right]. eauto 10.
  - destruct Hb as (? & ? & ? & -> & -> & ? & ?). split; [done|left]. eauto 10.
  - lia.
Qed.

Lemma IncrementRef_yields o ns nw :
  0 < ns o -> yields (IncrementRef o) ns nw (exactly tt (shift ns (Some o) 1) nw).
Proof.
  intros Hp h Hh. destruct (balanced_live h ns nw o Hh Hp) as (Hw & [(d & E & Hd & Hz & Ei & Hf)|(d & c & E & Hd & Ei & Hf)]);
    unfold IncrementRef, add_ref, bind, get_obj, get_impl, modify; rewrite E; simpl; [|rewrite Ei; simpl];
    (eexists _, _, _, _; split; [reflexivity|split; [|by split]]).
  - frame o. rewrite Ei. split_and!; lia || done.
  - frame o. rewrite E. simpl. split_and!; lia || done.
Qed.

Lemma DecrementRef_yields o ns nw :
  0 < ns o -> yields (DecrementRef o) ns nw (exactly (ns o =? 1) (shift ns (Some o) (-1)) nw).
Proof.
  intros Hp h Hh. destruct (balanced_live h ns nw o Hh Hp) as (Hw & [(d & E & Hd & Hz & Ei & Hf)|(d & c & E & Hd & Ei & Hf)]);
    unfold DecrementRef, RefObject_DecrementRef, add_ref, bind, get_obj, get_impl, modify, Deleter_call; rewrite E; simpl;
    [rewrite E|rewrite E; simpl; rewrite Ei]; simpl;
    replace (ns o + -1 =? 0) with (ns o =? 1) by (destruct (Z.eqb_spec (ns o) 1), (Z.eqb_spec (ns o + -1) 0); lia);
    destruct (Z.eqb_spec (ns o) 1) as [H1|H1]; simpl; rewrite ?lookup_insert_eq; simpl; rewrite ?E; simpl; rewrite ?Hd; simpl;
    rewrite ?lookup_insert_eq; simpl.
  - eexists _, _, _, _; split; [reflexivity|split; [|by split]].
    frame o. rewrite Ei. split_and!; lia || done.
  - eexists _, _, _, _; split; [reflexivity|split; [|by split]].
    frame o. rewrite Ei. split_and!; lia || done.
  - unfold DecrementWeak, bind, get_impl, modify. simpl. rewrite lookup_insert_eq. simpl.
    destruct (Z.eqb_spec (nw o + 1 - 1) 0) as [H0|H0]; simpl;
      (eexists _, _, _, _; split; [reflexivity|split; [|by split]]).
    + frame o. split_and!; lia || done.
    + frame o. split_and!; try lia. f_equal; lia.
  - eexists _, _, _, _; split; [reflexivity|split; [|by split]].
    frame o. rewrite E. simpl. split_and!; lia || done.
Qed.

(** A watched control block. *)
Lemma balanced_watched h ns nw o :
  balanced h ns nw -> 0 < nw o ->
  0 <= ns o /\ (o < fresh_addr h)%nat /\
  ((0 < ns o /\ impls h !! o = Some (mkImpl (ns o) (nw o + 1)) /\
     exists d c, objs h !! o = Some (mkObj (InImpl o) c d (Some o)) /\ func_ d = None) \/
   (ns o = 0 /\ impls h !! o = Some (mkImpl 0 (nw o)) /\ objs h !! o = None)).
Proof.
  intros Hb Hp. destruct (decide (0 < ns o)) as [Hs|Hs].
  - destruct (balanced_live h ns nw o Hb Hs) as (_ & [(d & ? & ? & ? & ? & ?)|(d & c & ? & ? & ? & ?)]); [lia|].
    split_and!; [lia|done|left]. eauto 10.
  - destruct Hb as [_ Hb]. specialize (Hb o) as (H0 & H1 & Hb).
    destruct (objs h !! o); [naive_solver lia|]. destruct (impls h !! o) as [b|]; [|lia].
    destruct Hb as (Hz & -> & ? & ?). split_and!; [lia|done|right]. done.
Qed.

Lemma IncrementWeak_yields o ns nw :
  0 < nw o -> yields (IncrementWeak o) ns nw (exactly tt ns (shift nw (Some o) 1)).
Proof.
  intros Hp h Hh. destruct (balanced_watched h ns nw o Hh Hp) as (H0 & Hf & [(Hs & Ei & d & c & E & Hd)|(Hs & Ei & E)]);
    unfold IncrementWeak, bind, get_impl, modify; rewrite Ei; simpl;
    (eexists _, _, _, _; split; [reflexivity|split; [|by split]]); frame o; rewrite E; simpl; split_and!; try lia; try done; f_equal; lia.
Qed.

Lemma DecrementWeak_yields o ns nw :
  0 < nw o -> yields (DecrementWeak o) ns nw (exactly tt ns (shift nw (Some o) (-1))).
Proof.
  intros Hp h Hh. destruct (balanced_watched h ns nw o Hh Hp) as (H0 & Hf & [(Hs & Ei & d & c & E & Hd)|(Hs & Ei & E)]);
    unfold DecrementWeak, bind, get_impl, modify; rewrite Ei; simpl.
  - destruct (Z.eqb_spec (nw o + 1 - 1) 0); [lia|]. simpl.
    eexists _, _, _, _; split; [reflexivity|split; [|by split]].
    frame o; rewrite E; simpl; split_and!; try lia; try done; repeat f_equal; lia.
  - destruct (Z.eqb_spec (nw o - 1) 0); simpl; (eexists _, _, _, _; split; [reflexivity|split; [|by split]]);
      frame o; rewrite E; split_and!; try lia; try done; repeat f_equal; lia.
Qed.

Lemma Lock_yields o ns nw :
  0 < nw o -> yields (Lock o) ns nw (exactly (0 <? ns o) (shift ns (if 0 <? ns o then Some o else None) 1) nw).
Proof.
  intros Hp h Hh. destruct (balanced_watched h ns nw o Hh Hp) as (H0 & Hf & [(Hs & Ei & d & c & E & Hd)|(Hs & Ei & E)]);
    unfold Lock, bind, get_impl, modify; rewrite Ei; simpl; destruct (Z.ltb_spec 0 (ns o)); try lia.
  - destruct (Z.eqb_spec (ns o) 0); [lia|]. simpl.
    eexists _, _, _, _; split; [reflexivity|split; [|by split]].
    frame o; rewrite E; simpl; split_and!; lia || done.
  - eexists _, _, _, _; split; [reflexivity|split; [|by split]]. done.
Qed.

Lemma inc_opt_yields p ns nw :
  (forall o, p = Some o -> 0 < ns o) -> yields (inc_opt p) ns nw (exactly tt (shift ns p 1) nw).
Proof. intros Hp. destruct p as [o|]; [by apply IncrementRef_yields, Hp|by apply yields_ret]. Qed.

Lemma dec_opt_yields p ns nw :
  (forall o, p = Some o -> 0 < ns o) -> yields (dec_opt p) ns nw (exactly tt (shift ns p (-1)) nw).
Proof.
  intros Hp. destruct p as [o|]; [|by apply yields_ret].
  eapply yields_step; [by apply DecrementRef_yields, Hp|by apply yields_ret].
Qed.

Lemma reset_yields p ns nw :
  (forall o, p = Some o -> 0 < ns o) -> yields (IncursivePtr_reset p) ns nw (exactly None (shift ns p (-1)) nw).
Proof.
  intros Hp. destruct p as [o|]; [|by apply yields_ret].
  eapply yields_step; [by apply DecrementRef_yields, Hp|by apply yields_ret].
Qed.

Lemma move_assign_yields old t ns nw :
  (forall o, old = Some o -> 0 < ns o) ->
  yields (IncursivePtr_move_assign old t) ns nw (exactly (t, None) (shift ns old (-1)) nw).
Proof. intros Hp. eapply yields_step; [by apply reset_yields|by apply yields_ret]. Qed.

Lemma assign_temp_yields old t ns nw :
  (forall o, old = Some o -> 0 < ns o) -> yields (assign_temp old t) ns nw (exactly t (shift ns old (-1)) nw).
Proof.
  intros Hp. eapply yields_step; [by apply move_assign_yields|].
  by apply yields_ret_step, yields_ret.
Qed.

(** A weak handle names the object through both fields. *)
Definition wok (w : WeakPtr) : Prop := wimpl_ w = wptr_ w.

Lemma WeakPtr_reset_yields w ns nw :
  wok w -> (forall o, wimpl_ w = Some o -> 0 < nw o) ->
  yields (WeakPtr_reset w) ns nw (exactly WeakPtr_default ns (shift nw (wimpl_ w) (-1))).
Proof.
  intros Hw Hp. unfold WeakPtr_reset. destruct w as [[o|] p]; unfold wok in Hw; simpl in *; subst p.
  - eapply yields_step; [by apply DecrementWeak_yields, Hp|by apply yields_ret].
  - by apply yields_ret.
Qed.

(** [WeakPtr(ptr)] watches a shared object; of a plain object it is null. *)
Lemma WeakPtr_new_yields p ns nw :
  (forall o, p = Some o -> 0 < ns o) ->
  yields (WeakPtr_new p) ns nw (fun w f g => wok w /\ f = ns /\ g = shift nw (wimpl_ w) 1 /\ (wimpl_ w = p \/ wimpl_ w = None)).
Proof.
  intros Hp h Hh. destruct p as [o|]; [|by exists h, WeakPtr_default, ns, nw; split_and!; auto].
  unfold WeakPtr_new, WeakPtr_reset_to, bind, WeakPtr_reset, IsShared, get_obj, IncrementWeak, get_impl, modify. simpl.
  destruct (balanced_live h ns nw o Hh (Hp o eq_refl)) as (Hw & [(d & E & Hd & Hz & Ei & Hf)|(d & c & E & Hd & Ei & Hf)]);
    unfold bind, get_obj; rewrite E; simpl.
  - exists h, WeakPtr_default, ns, nw. split_and!; auto; try done.
  - rewrite E. simpl. rewrite Ei. simpl. eexists _, _, _, _. split; [reflexivity|split; [|by split_and!; auto]].
    pose proof (Hp o eq_refl). frame o. rewrite E. simpl. split_and!; try lia; try done; f_equal; lia.
Qed.

Lemma WeakPtr_lock_yields w ns nw :
  wok w -> (forall o, wimpl_ w = Some o -> 0 < nw o) -> (forall o, 0 <= ns o) ->
  yields (WeakPtr_lock w) ns nw (fun p f g => (forall o, f o = shift ns p 1 o) /\ g = nw /\
    p = match wimpl_ w with Some o => if 0 <? ns o then Some o else None | None => None end).
Proof.
  intros Hw Hp Hn. unfold WeakPtr_lock. destruct w as [[o|] p]; unfold wok in Hw; simpl in *; subst p; [|by apply yields_ret].
  eapply yields_step; [by apply Lock_yields, Hp|].
  destruct (Z.ltb_spec 0 (ns o)) as [Hs|Hs]; simpl; [|by apply yields_ret].
  eapply yields_step; [eapply yields_step; [apply inc_opt_yields|by apply yields_ret]|].
  - intros ? [= <-]. rewrite shift_same. lia.
  - eapply yields_step; [apply DecrementRef_yields; rewrite !shift_same; lia|].
    apply yields_ret. split_and!; try done. intros o'. unfold shift. destruct (is_some_eq o' _); lia.
Qed.

(** *** The counts of a changed variable *)

Lemma strong_raw v x p q o :
  raws v !! x = Some p ->
  strong (mkVars (<[x := q]> (raws v)) (sps v) (wps v)) o = shift (shift (strong v) p (-1)) q 1 o.
Proof.
  intros Hx. unfold strong, shift. simpl. pose proof (count_insert (is_some_eq o) _ _ _ q Hx).
  destruct (is_some_eq o p), (is_some_eq o q); lia.
Qed.
Lemma strong_sp v y p q o :
  sps v !! y = Some p ->
  strong (mkVars (raws v) (<[y := q]> (sps v)) (wps v)) o = shift (shift (strong v) p (-1)) q 1 o.
Proof.
  intros Hx. unfold strong, shift. simpl. pose proof (count_insert (is_some_eq o) _ _ _ q Hx).
  destruct (is_some_eq o p), (is_some_eq o q); lia.
Qed.
Lemma weaks_wp v w p q o :
  wps v !! w = Some p ->
  weaks (mkVars (raws v) (sps v) (<[w := q]> (wps v))) o = shift (shift (weaks v) (wimpl_ p) (-1)) (wimpl_ q) 1 o.
Proof.
  intros Hx. unfold weaks, shift. simpl. pose proof (count_insert (fun w => is_some_eq o (wimpl_ w)) _ _ _ q Hx) as Hc.
  simpl in Hc. destruct (is_some_eq o (wimpl_ p)), (is_some_eq o (wimpl_ q)); lia.
Qed.

Lemma strong_nonneg v o : 0 <= strong v o.
Proof. unfold strong. lia. Qed.
Lemma strong_of_raw v x o : raws v !! x = Some (Some o) -> 0 < strong v o.
Proof.
  intros Hx. unfold strong. assert (0 < count (is_some_eq o) (raws v))%nat; [|lia].
  apply count_pos. exists x, (Some o). by rewrite is_some_eq_refl.
Qed.
Lemma strong_of_sp v y o : sps v !! y = Some (Some o) -> 0 < strong v o.
Proof.
  intros Hx. unfold strong. assert (0 < count (is_some_eq o) (sps v))%nat; [|lia].
  apply count_pos. exists y, (Some o). by rewrite is_some_eq_refl.
Qed.
Lemma weaks_of_wp v w u o : wps v !! w = Some u -> wimpl_ u = Some o -> 0 < weaks v o.
Proof.
  intros Hx Hu. unfold weaks. assert (0 < count (fun w => is_some_eq o (wimpl_ w)) (wps v))%nat; [|lia].
  apply count_pos. exists w, u. by rewrite Hu, is_some_eq_refl.
Qed.

Definition all_wok (v : vars) : Prop := Forall wok (wps v).
(** The postcondition of one command. *)
Definition settled (v : vars) (f g : nat -> Z) : Prop :=
  (forall o, f o = strong v o) /\ (forall o, g o = weaks v o) /\ all_wok v.

Lemma yields_geti {A} (l : list A) i a ns nw :
  l !! i = Some a -> yields (geti l i) ns nw (exactly a ns nw).
Proof. intros Hl h Hh. exists h, a, ns, nw. unfold geti. rewrite Hl. by split_and!. Qed.

Lemma is_null_true l i : is_null l i = true -> l !! i = Some None.
Proof. unfold is_null. by destruct (l !! i) as [[]|]. Qed.
Lemma non_null_true l i : non_null l i = true -> exists o, l !! i = Some (Some o).
Proof. unfold non_null. destruct (l !! i) as [[]|]; naive_solver. Qed.

Lemma MakeShared_yields (shared : bool) ns nw :
  yields (MakeShared shared) ns nw (fun o f g => f = shift ns (Some o) 1 /\ g = nw).
Proof.
  intros h Hh. pose proof Hh as [_ Hb]. specialize (Hb (fresh_addr h)) as (H0 & H1 & Hb).
  assert (objs h !! fresh_addr h = None /\ impls h !! fresh_addr h = None) as [E1 E2].
  { destruct (objs h !! fresh_addr h) as [x|]; [destruct Hb as (? & ? & ? & _); lia|].
    destruct (impls h !! fresh_addr h); [destruct Hb as (? & ? & ? & ?); lia|done]. }
  rewrite E1, E2 in Hb. destruct shared; (eexists _, _, _, _; split; [reflexivity|split; [|by split]]);
    frame (fresh_addr h); rewrite ?E2; split_and!; try lia; try done; unfold RefObjectImpl_new; f_equal; f_equal; lia.
Qed.

Ltac counts :=
  intros; simpl; rewrite ?shift_none; unfold shift; rewrite ?shift_none; repeat match goal with |- context [is_some_eq ?o ?p] => destruct (is_some_eq o p) end; lia.
Ltac in_range :=
  repeat match goal with
  | H : (_ && _)%bool = true |- _ => apply andb_true_iff in H; destruct H
  | H : (_ <? length _)%nat = true |- _ => apply Nat.ltb_lt, lookup_lt_is_Some_2 in H as [? ?]
  | H : is_null _ _ = true |- _ => apply is_null_true in H
  | H : non_null _ _ = true |- _ => apply non_null_true in H as [? ?]
  end.
(** Step through the reads of variables. *)
Ltac getis := repeat (eapply yields_step; [by apply yields_geti|]).
#[local] Hint Resolve strong_of_raw strong_of_sp weaks_of_wp strong_nonneg : refcount.

Lemma shift_pos f p o : 0 < f o -> 0 < shift f p 1 o.
Proof. unfold shift. destruct (is_some_eq o p); lia. Qed.

Lemma strong_of_two v y z o :
  y <> z -> sps v !! y = Some (Some o) -> sps v !! z = Some (Some o) -> 1 < strong v o.
Proof.
  intros Hn Hy Hz. pose proof (strong_of_sp (mkVars (raws v) (<[y := None]> (sps v)) (wps v)) z o) as H.
  simpl in H. rewrite list_lookup_insert_ne in H by done. specialize (H Hz).
  erewrite strong_sp, shift_none, shift_same in H by done. lia.
Qed.
Lemma weaks_of_two v y z a b o :
  y <> z -> wps v !! y = Some a -> wps v !! z = Some b -> wimpl_ a = Some o -> wimpl_ b = Some o -> 1 < weaks v o.
Proof.
  intros Hn Hy Hz Ha Hb. pose proof (weaks_of_wp (mkVars (raws v) (sps v) (<[y := WeakPtr_default]> (wps v))) z b o) as H.
  simpl in H. rewrite list_lookup_insert_ne in H by done. specialize (H Hz Hb).
  erewrite weaks_wp, Ha, shift_none, shift_same in H by done. lia.
Qed.
#[local] Hint Resolve shift_pos : refcount.

Lemma wok_of v w u : all_wok v -> wps v !! w = Some u -> wok u.
Proof. unfold all_wok. rewrite Forall_lookup. eauto. Qed.
Lemma all_wok_insert v w u : all_wok v -> wok u -> all_wok (mkVars (raws v) (sps v) (<[w := u]> (wps v))).
Proof. intros. by apply Forall_insert. Qed.
Lemma wok_default : wok WeakPtr_default.
Proof. done. Qed.
Lemma all_wok_swap v w u a b :
  all_wok v -> wps v !! w = Some a -> wps v !! u = Some b ->
  all_wok (mkVars (raws v) (sps v) (<[u := a]> (<[w := b]> (wps v)))).
Proof. unfold all_wok. intros Hv Ha Hb. rewrite Forall_lookup in Hv. apply Forall_insert; [apply Forall_insert; [by apply Forall_lookup|]|]; eauto. Qed.
#[local] Hint Resolve wok_of all_wok_insert wok_default all_wok_swap : refcount.

(** Close the end of a command: the counts of its result. *)
Ltac closes :=
  apply yields_ret; split_and!;
  [intros; first [done | erewrite strong_raw by done; counts | erewrite strong_sp by done; counts | counts]
  |intros; first [done | erewrite weaks_wp by done; counts]
  |eauto with refcount].
Ltac pos := intros; simplify_eq; eauto with refcount.

(** Two variables exchange their contents. *)
Lemma strong_swap v y z p q o :
  sps v !! y = Some p -> sps v !! z = Some q ->
  strong (mkVars (raws v) (<[z := p]> (<[y := q]> (sps v))) (wps v)) o = strong v o.
Proof.
  intros Hy Hz. set (v' := mkVars (raws v) (<[y := q]> (sps v)) (wps v)).
  assert (sps v' !! z = Some q) as Hz'.
  { simpl. destruct (decide (y = z)) as [->|Hn]; [|by rewrite list_lookup_insert_ne].
    rewrite list_lookup_insert_eq; [done|]. by eapply lookup_lt_Some. }
  pose proof (strong_sp v' z q p o Hz') as E. simpl in E. rewrite E. unfold v'.
  unfold shift at 1 2. erewrite strong_sp by done. counts.
Qed.
Lemma weaks_swap v y z p q o :
  wps v !! y = Some p -> wps v !! z = Some q ->
  weaks (mkVars (raws v) (sps v) (<[z := p]> (<[y := q]> (wps v)))) o = weaks v o.
Proof.
  intros Hy Hz. set (v' := mkVars (raws v) (sps v) (<[y := q]> (wps v))).
  assert (wps v' !! z = Some q) as Hz'.
  { simpl. destruct (decide (y = z)) as [->|Hn]; [|by rewrite list_lookup_insert_ne].
    rewrite list_lookup_insert_eq; [done|]. by eapply lookup_lt_Some. }
  pose proof (weaks_wp v' z q p o Hz') as E. simpl in E. rewrite E. unfold v'.
  unfold shift at 1 2. erewrite weaks_wp by done. counts.
Qed.

Lemma strong_move v y z p q o :
  y <> z -> sps v !! y = Some p -> sps v !! z = Some q ->
  strong (mkVars (raws v) (<[z := None]> (<[y := q]> (sps v))) (wps v)) o = shift (strong v) p (-1) o.
Proof.
  intros Hn Hy Hz. set (v' := mkVars (raws v) (<[y := q]> (sps v)) (wps v)).
  assert (sps v' !! z = Some q) as Hz' by (simpl; by rewrite list_lookup_insert_ne).
  pose proof (strong_sp v' z q None o Hz') as E. simpl in E. rewrite E. unfold v'.
  rewrite shift_none. unfold shift at 1. erewrite strong_sp by done. counts.
Qed.

Lemma WeakPtr_assign_yields a b ns nw :
  wok a -> wok b -> (forall o, wimpl_ a = Some o -> 0 < nw o) ->
  (forall o, wimpl_ b = Some o -> 0 < shift nw (wimpl_ a) (-1) o) ->
  yields (WeakPtr_assign a b) ns nw (exactly b ns (shift (shift nw (wimpl_ a) (-1)) (wimpl_ b) 1)).
Proof.
  intros Ha Hb Hpa Hpb. eapply yields_step; [by apply WeakPtr_reset_yields|].
  destruct b as [[i|] q]; unfold wok in Hb; simpl in *; subst q.
  - eapply yields_step; [by apply IncrementWeak_yields, Hpb|by apply yields_ret].
  - by apply yields_ret.
Qed.

(** Every legal command returns and leaves the counters equal to the numbers of handles. *)
Lemma exec_yields c v :
  legal c v = true -> all_wok v -> yields (exec c v) (strong v) (weaks v) settled.
Proof.
  intros Hl Hw. destruct c; simpl in *; in_range.
  - eapply yields_bind; [apply MakeShared_yields|]. intros o ? ? (-> & ->). closes.
  - getis. eapply yields_step; [apply dec_opt_yields; pos|]. closes.
  - getis. eapply yields_step; [eapply yields_step; [apply IncrementRef_yields; pos|by apply yields_ret]|]. closes.
  - getis. eapply yields_step; [eapply yields_step; [apply inc_opt_yields; pos|by apply yields_ret]|].
    eapply yields_step; [apply assign_temp_yields; pos|]. closes.
  - getis. destruct (Nat.eqb_spec y z) as [->|Hn]; [by apply yields_ret|].
    eapply yields_step; [eapply yields_step; [apply reset_yields; pos|eapply yields_step; [|by apply yields_ret]]|].
    + apply inc_opt_yields. intros o ->. unfold shift. destruct (is_some_eq o _) eqn:E; [|pos].
      apply is_some_eq_true in E as ->. pose proof (strong_of_two v y z o). enough (1 < strong v o) by lia; eauto.
    + closes.
  - getis. destruct (Nat.eqb_spec y z) as [->|Hn]; [by apply yields_ret|].
    eapply yields_step; [apply move_assign_yields; pos|]. simpl.
    apply yields_ret. split_and!; [|done..]. intros. by erewrite strong_move.
  - getis. eapply yields_step; [apply reset_yields; pos|]. closes.
  - getis. apply yields_ret. simpl. split_and!; [|done..]. intros. by erewrite strong_swap.
  - getis. eapply yields_step; [eapply yields_step; [apply inc_opt_yields; pos|by apply yields_ret]|].
    eapply yields_step; [eapply yields_step; [apply IncrementRef_yields; pos|by apply yields_ret]|].
    eapply yields_step; [eapply yields_step; [apply DecrementRef_yields; pos|by apply yields_ret]|].
    eapply yields_step; [apply dec_opt_yields|closes].
    intros o [= <-]. rewrite !shift_same. assert (0 < strong v x) by pos. lia.
  - getis. eapply yields_bind; [apply WeakPtr_new_yields; pos|]. intros t ? ? (Ht & -> & -> & _).
    eapply yields_step; [eapply yields_step; [apply WeakPtr_reset_yields; pos|by apply yields_ret]|]. closes.
  - getis. destruct (Nat.eqb_spec w v0) as [->|Hn]; [by apply yields_ret|].
    eapply yields_step; [apply WeakPtr_assign_yields; [pos|pos|pos|]|closes].
    intros o Ho. unfold shift. destruct (is_some_eq o _) eqn:E; [|by eapply weaks_of_wp].
    apply is_some_eq_true in E. enough (1 < weaks v o) by lia. by eapply (weaks_of_two v w v0).
  - getis. apply yields_ret. simpl. split_and!; [done|intros; by erewrite weaks_swap|eauto with refcount].
  - getis. eapply yields_step; [apply WeakPtr_reset_yields; pos|]. closes.
  - getis. eapply yields_bind; [apply WeakPtr_lock_yields; pos|]. intros t f ? (Hf & -> & _).
    eapply yields_step; [apply assign_temp_yields; intros; simplify_eq; rewrite Hf; pos|].
    apply yields_ret. split_and!; [|done..]. intros. erewrite strong_sp by done.
    unfold shift at 1. rewrite Hf. counts.
Qed.

Lemma runs_balanced cs s : runs cs s -> balanced s.1 (strong s.2) (weaks s.2) /\ all_wok s.2.
Proof.
  induction 1 as [nr ns nw|cs c h v h' v' _ [Hb Hw] Hl He]; simpl in *.
  - unfold vars0, all_wok. simpl. split; [|by apply Forall_replicate].
    split; [done|]. intros o. unfold agrees, strong, weaks. simpl.
    rewrite !count_replicate. simpl. rewrite !lookup_empty. split_and!; lia.
  - destruct (exec_yields c v Hl Hw h Hb) as (h1 & a & f & g & E & Hb1 & Hs & Hg & Ha).
    rewrite He in E. simplify_eq. split; [|done].
    by rewrite <- (balanced_proper h1 _ _ (Hs : pointwise_relation _ _ _ _) _ _ (Hg : pointwise_relation _ _ _ _)).
Qed.

(** Running a program with the legality of each command tested. *)
Fixpoint run_legal (cs : list cmd) (s : heap * vars) : option (heap * vars) :=
  match cs with
  | [] => Some s
  | c :: cs => if legal c s.2 then match exec c s.2 s.1 with Ret s => run_legal cs s | _ => None end else None
  end.

Lemma run_legal_runs cs0 cs s s' : runs cs0 s -> run_legal cs s = Some s' -> runs (cs0 ++ cs) s'.
Proof.
  revert cs0 s. induction cs as [|c cs IH]; intros cs0 [h v] Hr Hs; simpl in Hs.
  { rewrite app_nil_r. by simplify_eq. }
  destruct (legal c v) eqn:El; [|done]. destruct (exec c v h) as [[h1 v1]| |] eqn:Ee; try done.
  replace (cs0 ++ c :: cs) with ((cs0 ++ [c]) ++ cs) by by rewrite <- app_assoc.
  eapply IH; [|done]. by eapply runs_snoc.
Qed.

(** [o] is named by a handle that keeps it alive. *)
Definition named (v : vars) (o : nat) : Prop := Some o ∈ raws v \/ Some o ∈ sps v.

Lemma named_strong v o : named v o <-> 0 < strong v o.
Proof.
  unfold named, strong. rewrite !list_elem_of_lookup. split.
  - intros [[x Hx]|[x Hx]]; [by eapply (strong_of_raw v)|by eapply (strong_of_sp v)].
  - intros H. assert (0 < count (is_some_eq o) (raws v) \/ 0 < count (is_some_eq o) (sps v))%nat as [Hc|Hc] by lia;
      apply count_pos in Hc as (i & x & Hi & Hx%is_some_eq_true); subst; eauto.
Qed.

Lemma balanced_use_count h ns nw o :
  balanced h ns nw -> 0 < ns o -> use_count o h = Ret (h, ns o) /\ is_Some (objs h !! o).
Proof.
  intros Hb Hp. unfold use_count, bind, get_obj.
  destruct (balanced_live h ns nw o Hb Hp) as (_ & [(d & E & _)|(d & c & E & _ & Ei & _)]); rewrite E; simpl; [eauto|].
  unfold get_impl. rewrite Ei. simpl. eauto.
Qed.

Lemma balanced_dead h ns nw o : balanced h ns nw -> ns o = 0 -> objs h !! o = None /\ (nw o = 0 -> impls h !! o = None).
Proof.
  intros [_ Hb] Hz. specialize (Hb o) as (_ & _ & Hb). destruct (objs h !! o); [lia|].
  split; [done|]. intros. destruct (impls h !! o); [lia|done].
Qed.

(** C9: in every program over smart pointers an object is alive exactly as long as some handle
    names it, [use_count] is the number of those handles, its control block is gone once no
    weak handle is left either, and no legal operation reads a deleted object or block. *)
Theorem handles_counted cs h v :
  runs cs (h, v) ->
  (forall c, legal c v = true -> exists s, exec c v h = Ret s) /\
  (forall o, is_Some (objs h !! o) <-> named v o) /\
  (forall o, named v o -> use_count o h = Ret (h, strong v o)) /\
  (forall o, strong v o = 0 -> weaks v o = 0 -> impls h !! o = None).
Proof.
  intros Hr. destruct (runs_balanced _ _ Hr) as [Hb Hw]. simpl in *. split_and!.
  - intros c Hl. destruct (exec_yields c v Hl Hw h Hb) as (h1 & a & f & g & E & _). eauto.
  - intros o. rewrite named_strong. split; [|intros Hp; by apply (balanced_use_count h _ _ o Hb)].
    intros [x Hx]. pose proof (strong_nonneg v o). destruct (decide (strong v o = 0)) as [Hz|]; [|lia].
    destruct (balanced_dead _ _ _ o Hb Hz). congruence.
  - intros o Hn. by apply (balanced_use_count h _ _ o Hb), named_strong.
  - intros o Hs. by apply (balanced_dead _ _ _ o Hb).
Qed.

(** A program: two handles share an object, a weak handle watches it, all let go. *)
Definition sample : list cmd :=
  [CNew 0 true; CWrap 0 0; CDrop 0; CCopy 1 0; CWeak 0 1; CMove 2 0; CReset 1; CLock 0 0; CSwap 0 1].
Definition sample_end : option (heap * vars) := run_legal sample (heap0, vars0 1 3 1).

Lemma handles_counted_witness :
  exists h v, runs sample (h, v) /\ named v 0 /\ use_count 0 h = Ret (h, 2).
Proof.
  destruct sample_end as [[h v]|] eqn:E; [|by vm_compute in E].
  assert (runs sample (h, v)) as Hr by (eapply (run_legal_runs []); [apply runs_nil|exact E]).
  exists h, v. destruct (handles_counted sample h v Hr) as (_ & _ & H & _).
  vm_compute in E. injection E as <- <-. assert (named (mkVars [None] [None; Some 0%nat; Some 0%nat] [mkWeak (Some 0%nat) (Some 0%nat)]) 0) as Hn by (right; set_solver).
  split_and!; [exact Hr|exact Hn|]. exact (H 0%nat Hn).
Defined.

(** C26: [WeakPtr::lock] gives a handle exactly when the watched object is still alive, and then
    the object has one reference more. *)
Theorem weak_lock_alive cs h v w u o :
  runs cs (h, v) -> wps v !! w = Some u -> wimpl_ u = Some o ->
  exists h', WeakPtr_lock u h = Ret (h', if bool_decide (is_Some (objs h !! o)) then Some o else None) /\
    (is_Some (objs h !! o) -> use_count o h' = Ret (h', strong v o + 1)).
Proof.
  intros Hr Hu Ho. destruct (runs_balanced _ _ Hr) as [Hb Hw]. simpl in *.
  assert (is_Some (objs h !! o) <-> 0 < strong v o) as Ha.
  { pose proof (strong_nonneg v o). split; [|intros Hp; by apply (balanced_use_count h _ _ o Hb)].
    intros [x Hx]. destruct (decide (strong v o = 0)) as [Hz|]; [|lia].
    destruct (balanced_dead _ _ _ o Hb Hz). congruence. }
  destruct (WeakPtr_lock_yields u (strong v) (weaks v)) with (h := h) as (h' & p & f & g & E & Hb' & Hf & -> & ->);
    [eauto with refcount|eauto with refcount|eauto with refcount|done|].
  rewrite Ho in E, Hf. exists h'. rewrite E. split.
  - case_bool_decide as Hd; rewrite Ha in Hd; destruct (Z.ltb_spec 0 (strong v o)); done || lia.
  - intros Hd%Ha. specialize (Hf o). destruct (Z.ltb_spec 0 (strong v o)); [|lia]. rewrite shift_same in Hf.
    rewrite <- Hf. apply (balanced_use_count h' _ _ o Hb'). lia.
Qed.

Lemma weak_lock_alive_witness :
  exists h v u, runs sample (h, v) /\ exists h', WeakPtr_lock u h = Ret (h', Some 0%nat) /\ use_count 0 h' = Ret (h', 3).
Proof.
  destruct sample_end as [[h v]|] eqn:E; [|by vm_compute in E].
  assert (runs sample (h, v)) as Hr by (eapply (run_legal_runs []); [apply runs_nil|exact E]).
  vm_compute in E. injection E as <- <-. eexists _, _, (mkWeak (Some 0%nat) (Some 0%nat)). split; [exact Hr|].
  destruct (weak_lock_alive sample _ _ 0 (mkWeak (Some 0%nat) (Some 0%nat)) 0 Hr eq_refl eq_refl) as (h' & E & H).
  exists h'. split; [exact E|]. apply H. by eexists.
Defined.

(** ** The race between [WeakPtr::lock] and the last [DecrementRef]

    One [SharedRefObject] and its control block, and any number of threads, each with
    [IncursivePtr]s and [WeakPtr]s to it.  One atomic access, or one deletion, is one step. *)
Module Protocol.

(** Where a thread is: outside; in [Lock] with the count it loaded; after the successful
    exchange, before [IncursivePtr(ptr_)]; before the [DecrementRef] that follows it; with a
    count that reached 0, before the deleter; before [DecrementWeak]; before
    [delete this] of the control block. *)
Inductive pc := Idle | L_loop (count : Z) | L_took | L_incd | D_zero | D_deleted | W_zero.

Record thread := mkThread { sp : nat; wp : nat; at_ : pc }.
Record shared := mkShared {
  reference : Z; weak : Z; obj_alive : bool; impl_alive : bool;
  fault : bool        (* deleted memory was touched *) }.

Definition use_impl (s : shared) : shared :=
  mkShared (reference s) (weak s) (obj_alive s) (impl_alive s) (fault s || negb (impl_alive s)).
Definition use_obj (s : shared) : shared :=
  mkShared (reference s) (weak s) (obj_alive s) (impl_alive s) (fault s || negb (obj_alive s)).
Definition set_reference (n : Z) (s : shared) : shared :=
  mkShared n (weak s) (obj_alive s) (impl_alive s) (fault s).
Definition set_weak (n : Z) (s : shared) : shared :=
  mkShared (reference s) n (obj_alive s) (impl_alive s) (fault s).
Definition delete_object (s : shared) : shared :=
  mkShared (reference s) (weak s) false (impl_alive s) (fault s || negb (obj_alive s)).
Definition delete_block (s : shared) : shared :=
  mkShared (reference s) (weak s) (obj_alive s) false (fault s || negb (impl_alive s)).

(** [IncrementRef] and [--*reference_] go through the object to the counter. *)
Definition inc_ref (s : shared) : shared := set_reference (reference s + 1) (use_impl (use_obj s)).
Definition dec_ref (s : shared) : shared := set_reference (reference s - 1) (use_impl (use_obj s)).
Definition inc_weak (s : shared) : shared := set_weak (weak s + 1) (use_impl s).
Definition dec_weak (s : shared) : shared := set_weak (weak s - 1) (use_impl s).

(** What an idle thread starts: copy or drop a handle, watch the object, copy or drop a
    weak handle, lock one. *)
Inductive action := Copy | Drop | Watch | WCopy | WDrop | TryLock.

Definition start (a : action) (s : shared) (t : thread) : option (shared * thread) :=
  match a with
  | Copy => if (0 <? sp t)%nat then Some (inc_ref s, mkThread (S (sp t)) (wp t) Idle) else None
  | Drop =>
      if (0 <? sp t)%nat then
        Some (dec_ref s, mkThread (pred (sp t)) (wp t) (if reference s - 1 =? 0 then D_zero else Idle))
      else None
  | Watch => if (0 <? sp t)%nat then Some (inc_weak (use_obj s), mkThread (sp t) (S (wp t)) Idle) else None
  | WCopy => if (0 <? wp t)%nat then Some (inc_weak s, mkThread (sp t) (S (wp t)) Idle) else None
  | WDrop =>
      if (0 <? wp t)%nat then
        Some (dec_weak s, mkThread (sp t) (pred (wp t)) (if weak s - 1 =? 0 then W_zero else Idle))
      else None
  | TryLock => if (0 <? wp t)%nat then Some (use_impl s, mkThread (sp t) (wp t) (L_loop (reference s))) else None
  end.

(** The next access of a thread inside a call; [weak_fails] is a spurious failure of
    [compare_exchange_weak], which reloads the count as a failed comparison does. *)
Definition continue (weak_fails : bool) (s : shared) (t : thread) : shared * thread :=
  let goto p := mkThread (sp t) (wp t) p in
  match at_ t with
  | Idle => (s, t)
  | L_loop count =>
      if count =? 0 then (s, goto Idle)
      else if ((reference s =? count) && negb weak_fails)%bool
           then (set_reference (count + 1) (use_impl s), goto L_took)
           else (use_impl s, goto (L_loop (reference s)))
  | L_took => (inc_ref s, goto L_incd)
  | L_incd =>
      (dec_ref s, mkThread (S (sp t)) (wp t) (if reference s - 1 =? 0 then D_zero else Idle))
  | D_zero => (delete_object s, goto D_deleted)
  | D_deleted => (dec_weak s, goto (if weak s - 1 =? 0 then W_zero else Idle))
  | W_zero => (delete_block s, goto Idle)
  end.

Record state := mkState { mem : shared; threads : list thread }.

Inductive step : state -> state -> Prop :=
| step_start m ts i t a m' t' :
    ts !! i = Some t -> at_ t = Idle -> start a m t = Some (m', t') ->
    step (mkState m ts) (mkState m' (<[i := t']> ts))
| step_continue m ts i t b m' t' :
    ts !! i = Some t -> at_ t <> Idle -> continue b m t = (m', t') ->
    step (mkState m ts) (mkState m' (<[i := t']> ts)).

(** All threads idle, at least one handle, the counters as the constructors left them. *)
Definition initial (s : state) : Prop :=
  Forall (fun t => at_ t = Idle) (threads s) /\
  0 < sumZ (fun t => Z.of_nat (sp t)) (threads s) /\
  mem s = mkShared (sumZ (fun t => Z.of_nat (sp t)) (threads s)) (sumZ (fun t => Z.of_nat (wp t)) (threads s) + 1) true true false.

(** References that belong to the point a thread has reached, strong and weak, and the
    deletions it is about to make. *)
Definition held (t : thread) : Z := Z.of_nat (sp t) + match at_ t with L_took => 1 | L_incd => 2 | _ => 0 end.
Definition wheld (t : thread) : Z := Z.of_nat (wp t) + match at_ t with D_zero | D_deleted => 1 | _ => 0 end.
Definition deleting (t : thread) : Z := match at_ t with D_zero => 1 | _ => 0 end.
Definition closing (t : thread) : Z := match at_ t with D_zero | D_deleted => 1 | _ => 0 end.
Definition freeing (t : thread) : Z := match at_ t with W_zero => 1 | _ => 0 end.
Definition b2z (b : bool) : Z := if b then 1 else 0.

(** A thread keeps the weak handle it is locking. *)
Definition thread_ok (t : thread) : Prop :=
  match at_ t with L_loop _ | L_took | L_incd => (0 < wp t)%nat | _ => True end.

Definition inv (s : state) : Prop :=
  let m := mem s in let ts := threads s in
  fault m = false /\ Forall thread_ok ts /\
  reference m = sumZ held ts /\
  weak m = sumZ wheld ts + b2z (0 <? reference m) /\
  b2z (obj_alive m) = b2z (0 <? reference m) + sumZ deleting ts /\
  b2z (impl_alive m) = b2z (0 <? weak m) + sumZ freeing ts /\
  b2z (0 <? reference m) + sumZ closing ts <= 1.

Lemma sumZ_ext {A} (f g : A -> Z) l : Forall (fun x => f x = g x) l -> sumZ f l = sumZ g l.
Proof. unfold sumZ. induction 1; simpl; lia. Qed.

Lemma inv_initial s : initial s -> inv s.
Proof.
  intros (Hi & Hp & Hm). unfold inv. rewrite Hm. simpl.
  assert (forall f, (forall t, at_ t = Idle -> f t = 0) -> sumZ f (threads s) = 0) as Hz.
  { intros f Hf. apply sumZ_zero. intros t Ht. rewrite Forall_forall in Hi. eauto. }
  rewrite (Hz deleting), (Hz freeing), (Hz closing) by (intros t Ht; unfold deleting, freeing, closing; by rewrite Ht).
  assert (forall f g : thread -> Z, (forall t, at_ t = Idle -> f t = g t) -> sumZ f (threads s) = sumZ g (threads s)) as He.
  { intros f g Hf. apply sumZ_ext. eapply Forall_impl; eauto. }
  rewrite (He held (fun t => Z.of_nat (sp t))) by (intros t Ht; unfold held; rewrite Ht; simpl; lia).
  rewrite (He wheld (fun t => Z.of_nat (wp t))) by (intros t Ht; unfold wheld; rewrite Ht; simpl; lia).
  pose proof (sumZ_nonneg (fun t => Z.of_nat (wp t)) (threads s) ltac:(intros; simpl; lia)).
  split_and!; try done.
  - eapply Forall_impl; [exact Hi|]. intros t Ht. unfold thread_ok. by rewrite Ht.
  - destruct (Z.ltb_spec 0 (sumZ (fun t => Z.of_nat (sp t)) (threads s))); simpl; lia.
  - destruct (Z.ltb_spec 0 (sumZ (fun t => Z.of_nat (sp t)) (threads s))); simpl; lia.
  - destruct (Z.ltb_spec 0 (sumZ (fun t => Z.of_nat (wp t)) (threads s) + 1)); simpl; lia.
  - destruct (Z.ltb_spec 0 (sumZ (fun t => Z.of_nat (sp t)) (threads s))); simpl; lia.
Qed.

Lemma held_nonneg t : 0 <= held t.
Proof. unfold held. destruct (at_ t); lia. Qed.
Lemma wheld_nonneg t : 0 <= wheld t.
Proof. unfold wheld. destruct (at_ t); lia. Qed.
Lemma deleting_nonneg t : 0 <= deleting t.
Proof. unfold deleting. destruct (at_ t); lia. Qed.
Lemma closing_nonneg t : 0 <= closing t.
Proof. unfold closing. destruct (at_ t); lia. Qed.
Lemma freeing_nonneg t : 0 <= freeing t.
Proof. unfold freeing. destruct (at_ t); lia. Qed.
Lemma deleting_closing ts : sumZ deleting ts <= sumZ closing ts.
Proof.
  unfold sumZ. induction ts as [|t ts IH]; simpl; [lia|].
  unfold deleting at 1, closing at 1. destruct (at_ t); lia.
Qed.

(** One thread moves from [t] to [t'] and the memory from [m] to [m']: what is left to
    check is arithmetic. *)
Lemma inv_update m ts i t m' t' :
  inv (mkState m ts) -> ts !! i = Some t -> thread_ok t' ->
  (forall H W D C F : Z,
     held t <= H -> wheld t <= W -> deleting t <= D -> closing t <= C -> freeing t <= F -> D <= C ->
     fault m = false -> thread_ok t ->
     reference m = H -> weak m = W + b2z (0 <? reference m) ->
     b2z (obj_alive m) = b2z (0 <? reference m) + D -> b2z (impl_alive m) = b2z (0 <? weak m) + F ->
     b2z (0 <? reference m) + C <= 1 ->
     fault m' = false /\
     reference m' = H - held t + held t' /\ weak m' = W - wheld t + wheld t' + b2z (0 <? reference m') /\
     b2z (obj_alive m') = b2z (0 <? reference m') + (D - deleting t + deleting t') /\
     b2z (impl_alive m') = b2z (0 <? weak m') + (F - freeing t + freeing t') /\
     b2z (0 <? reference m') + (C - closing t + closing t') <= 1) ->
  inv (mkState m' (<[i := t']> ts)).
Proof.
  intros (Hf & Hok & Hr & Hw & Ho & Hb & Hc) Hi Ht' Hstep. simpl in *.
  destruct (Hstep (sumZ held ts) (sumZ wheld ts) (sumZ deleting ts) (sumZ closing ts) (sumZ freeing ts)) as (? & ? & ? & ? & ? & ?);
    try done; eauto using sumZ_lower, held_nonneg, wheld_nonneg, deleting_nonneg, closing_nonneg, freeing_nonneg, deleting_closing.
  { rewrite Forall_lookup in Hok. eauto. }
  unfold inv. simpl. rewrite !(sumZ_insert _ _ _ _ _ Hi). split_and!; try done. by apply Forall_insert.
Qed.

(** Settle the arithmetic by cases on every test. *)
Ltac bools :=
  repeat match goal with
  | |- context [?a <? ?b] => destruct (Z.ltb_spec a b)
  | H : context [?a <? ?b] |- _ => destruct (Z.ltb_spec a b)
  | H : context [obj_alive ?m] |- _ => destruct (obj_alive m)
  | H : context [impl_alive ?m] |- _ => destruct (impl_alive m)
  end; simpl in *; try lia; split_and!; done || lia.

Ltac move_thread :=
  eapply inv_update; [eassumption|eassumption| |]; unfold thread_ok; simpl;
  [try done; try lia
  |unfold held, wheld, deleting, closing, freeing; simpl; intros;
   repeat match goal with E : fault _ = false |- _ => rewrite E; clear E end].

Lemma inv_start m ts i t a m' t' :
  inv (mkState m ts) -> ts !! i = Some t -> at_ t = Idle -> start a m t = Some (m', t') ->
  inv (mkState m' (<[i := t']> ts)).
Proof.
  intros Hinv Hi Ht Hs. destruct t as [s w p]. simpl in Ht. subst p.
  destruct a; simpl in Hs; case_if; simplify_eq/=;
    match goal with E : _ = true |- _ => apply Nat.ltb_lt in E end;
    try destruct (Z.eqb_spec (reference m - 1) 0) as [Hz|Hz];
    try destruct (Z.eqb_spec (weak m - 1) 0) as [Hv|Hv]; move_thread; bools.
Qed.

Lemma inv_continue m ts i t b m' t' :
  inv (mkState m ts) -> ts !! i = Some t -> at_ t <> Idle -> continue b m t = (m', t') ->
  inv (mkState m' (<[i := t']> ts)).
Proof.
  intros Hinv Hi Ht Hs.
  assert (thread_ok t) as Hk.
  { destruct Hinv as (_ & Hk & _). simpl in Hk. rewrite Forall_lookup in Hk. eauto. }
  destruct t as [s w [| c | | | | |]]; unfold continue in Hs; simpl in Hs, Ht; unfold thread_ok in Hk; simpl in Hk; [done|..]; repeat case_if; simplify_eq/=; zb; 
    move_thread; bools.
Qed.

Lemma inv_step s s' : inv s -> step s s' -> inv s'.
Proof.
  intros Hi Hs. destruct Hs; [by eapply inv_start|by eapply inv_continue].
Qed.

(** C20: whatever the interleaving of copies, drops, weak copies and locks by any number of
    threads, no access touches the deleted object or control block and neither is deleted
    twice; while a thread holds a handle the object is alive, and when all handles are gone
    and all calls have returned, object and control block are gone too. *)
Theorem refcount_race_safe s :
  reachable step initial s ->
  fault (mem s) = false /\
  (forall t, t ∈ threads s -> (0 < sp t)%nat -> obj_alive (mem s) = true) /\
  (forall t, t ∈ threads s -> (0 < wp t)%nat -> impl_alive (mem s) = true) /\
  (Forall (fun t => at_ t = Idle /\ sp t = 0%nat) (threads s) -> obj_alive (mem s) = false /\
     (Forall (fun t => wp t = 0%nat) (threads s) -> impl_alive (mem s) = false)).
Proof.
  intros Hr. assert (inv s) as (Hf & Hok & Ho & Hw & Ha & Hb & Hc).
  { revert s Hr. apply reachable_inv; eauto using inv_initial, inv_step. }
  pose proof (sumZ_nonneg deleting (threads s) deleting_nonneg).
  pose proof (sumZ_nonneg freeing (threads s) freeing_nonneg).
  pose proof (sumZ_nonneg wheld (threads s) wheld_nonneg).
  split_and!; [done| | |].
  - intros t [i Hi]%list_elem_of_lookup Hp. pose proof (sumZ_lower held _ _ _ held_nonneg Hi).
    assert (Z.of_nat (sp t) <= held t) by (unfold held; destruct (at_ t); lia). bools.
  - intros t [i Hi]%list_elem_of_lookup Hp. pose proof (sumZ_lower wheld _ _ _ wheld_nonneg Hi).
    assert (Z.of_nat (wp t) <= wheld t) by (unfold wheld; destruct (at_ t); lia). bools.
  - intros Hq. rewrite Forall_forall in Hq.
    assert (forall f, (forall t, at_ t = Idle -> sp t = 0%nat -> f t = 0) -> sumZ f (threads s) = 0) as Hz.
    { intros f Hz. apply sumZ_zero. intros t [? ?]%Hq. by apply Hz. }
    rewrite (Hz held) in Ho by (intros t Ht Hs; unfold held; rewrite Ht; lia).
    rewrite (Hz deleting) in Ha by (intros t Ht Hs; unfold deleting; by rewrite Ht).
    split; [bools|]. intros Hn. rewrite Forall_forall in Hn.
    rewrite (sumZ_zero wheld) in Hw by (intros t Ht; destruct (Hq t Ht) as [E ?]; unfold wheld; rewrite E, (Hn t Ht); done).
    rewrite (Hz freeing) in Hb by (intros t Ht Hs; unfold freeing; by rewrite Ht). bools.
Qed.

(** One thread drops the last handle while another is inside [lock]: the loser's exchange
    fails. *)
Lemma refcount_race_safe_witness :
  let s := mkState (mkShared 0 1 false true false) [mkThread 0 0 Idle; mkThread 0 1 (L_loop 0)] in
  reachable step initial s /\ fault (mem s) = false.
Proof.
  intros s. assert (reachable step initial s) as Hr.
  { exists (mkState (mkShared 1 2 true true false) [mkThread 1 0 Idle; mkThread 0 1 Idle]).
    split; [split_and!; [repeat constructor|done|done]|].
    eapply rtc_l; [by eapply (step_start _ _ 1) with (a := TryLock)|]. simpl.
    eapply rtc_l; [by eapply (step_start _ _ 0) with (a := Drop)|]. simpl.
    eapply rtc_l; [eapply (step_continue _ _ 1) with (b := false); [reflexivity|discriminate|reflexivity]|]. simpl.
    eapply rtc_l; [eapply (step_continue _ _ 0) with (b := false); [reflexivity|discriminate|reflexivity]|]. simpl.
    eapply rtc_l; [eapply (step_continue _ _ 0) with (b := false); [reflexivity|discriminate|reflexivity]|]. simpl. apply rtc_refl. }
  split; [exact Hr|]. exact (proj1 (refcount_race_safe s Hr)).
Defined.

End Protocol.

(** ** Source locations *)


(** A C library's [strcmp] on two names, the first smaller: it promises a negative number,
    and returns here the difference of the first bytes that differ. *)
Definition bytes (f : nat) : list Z := match f with O => [97; 46; 99] | _ => [99; 46; 99] end.
Fixpoint strcmp_diff (a b : list Z) : Z :=
  match a, b with
  | [], [] => 0
  | x :: _, [] => x
  | [], y :: _ => - y
  | x :: a, y :: b => if x =? y then strcmp_diff a b else x - y
  end.

(** The order of [SourceLocation] tests [strcmp(...) == -1], but [strcmp] only promises
    a negative number; with one that returns the difference of the bytes, two locations in
    different files with the same line are each not less than the other, so a set of
    locations takes them for one. *)
Theorem SourceLocation_lt_incomplete :
  let strcmp f g := strcmp_diff (bytes f) (bytes g) in
  let a := mkLoc (Some 0%nat) 7 in let b := mkLoc (Some 1%nat) 7 in
  a <> b /\ strcmp 0%nat 1%nat < 0 /\ SourceLocation_lt strcmp a b = false /\ SourceLocation_lt strcmp b a = false.
Proof. done. Qed.
