(* ===== verification/Links.v ===== *)
(** Intrusive queues by membership: elements that have one hook are in at most one queue, so
    the queues of a component are one list of pairs (element, queue) in the order of the
    pushes, and a queue is the sub-list with its name.  That [TSQueue] answers as such a list
    of elements is [TsQueueSpec.TSQueue_calls_refine]. *)
From S2P Require Import Prelude.

(** A filter that drops nothing. *)
Lemma filter_keeps {A} (P : A -> Prop) `{forall x, Decision (P x)} (l : list A) :
  (forall x, x ∈ l -> P x) -> filter P l = l.
Proof.
  induction l as [|x l IH]; intros HP; [done|]. rewrite filter_cons_True by (apply HP; by left).
  f_equal. apply IH. intros y Hy. apply HP. by right.
Qed.

Section links.
Context {P : Type} `{EqDecision P}.
Implicit Types (l : list (nat * P)) (e : nat) (p : P).

(** The elements of the queue [p], in order; [l] without the element [e]; [l] without the
    queue [p]. *)
Definition members p l : list nat := (filter (fun x => x.2 = p) l).*1.
Definition unlink e l : list (nat * P) := filter (fun x => x.1 <> e) l.
Definition without p l : list (nat * P) := filter (fun x => x.2 <> p) l.

(** The neighbour behind [e] in its queue. *)
Fixpoint after_in (e : nat) (q : list nat) : option nat :=
  match q with
  | [] => None
  | x :: q => if (x =? e)%nat then head q else after_in e q
  end.

Lemma fst_elem l e : e ∈ l.*1 <-> exists p, (e, p) ∈ l.
Proof. rewrite list_elem_of_fmap. split; [intros ([? p] & -> & ?); eauto|intros [p ?]; by exists (e, p)]. Qed.

Lemma elem_snoc l det e p : e ∈ (l ++ [(e, p)]).*1 ++ det.
Proof. rewrite fmap_app. set_solver. Qed.

Lemma elem_members l e p : e ∈ members p l <-> (e, p) ∈ l.
Proof.
  unfold members. rewrite fst_elem. split.
  - intros [q [? ?]%list_elem_of_filter]. simpl in *. by subst.
  - intros H. exists p. by apply list_elem_of_filter.
Qed.

Lemma elem_unlink l e e' p : (e', p) ∈ unlink e l <-> (e', p) ∈ l /\ e' <> e.
Proof. unfold unlink. rewrite list_elem_of_filter. simpl. tauto. Qed.
Lemma elem_without l p e q : (e, q) ∈ without p l <-> (e, q) ∈ l /\ q <> p.
Proof. unfold without. rewrite list_elem_of_filter. simpl. tauto. Qed.

Lemma links_filter_elem l e : e ∉ (filter (fun x => x.1 <> e) l).*1.
Proof. intros [p H]%fst_elem. apply list_elem_of_filter in H as [H _]. done. Qed.
Lemma links_filter_other l e e' :
  e' <> e -> e' ∈ (filter (fun x => x.1 <> e) l).*1 <-> e' ∈ l.*1.
Proof. intros Hn. rewrite !fst_elem. setoid_rewrite list_elem_of_filter. simpl. naive_solver. Qed.

(** Dropping links keeps the elements distinct. *)
Lemma filter_nodup l (Q : nat * P -> Prop) `{forall x, Decision (Q x)} : NoDup l.*1 -> NoDup (filter Q l).*1.
Proof.
  induction l as [|[e' p] l IH]; intros Hn; [done|]. apply NoDup_cons in Hn as [Hx Hn].
  rewrite filter_cons. case_decide; [|by apply IH]. simpl. apply NoDup_cons. split; [|by apply IH].
  intros [q H']%fst_elem. apply list_elem_of_filter in H' as [_ H']. apply Hx, fst_elem. eauto.
Qed.
Lemma links_filter_nodup l e : NoDup l.*1 -> NoDup (filter (fun x => x.1 <> e) l).*1.
Proof. apply filter_nodup. Qed.

Lemma links_unique' l e p q : NoDup l.*1 -> (e, p) ∈ l -> (e, q) ∈ l -> p = q.
Proof.
  induction l as [|[e' r] l IH]; intros Hn Hp Hq; [by apply elem_of_nil in Hp|].
  apply NoDup_cons in Hn as [Hx Hn]. rewrite fst_elem in Hx.
  apply elem_of_cons in Hp as [Hp|Hp]; apply elem_of_cons in Hq as [Hq|Hq]; simplify_eq; eauto; exfalso; eauto.
Qed.

Lemma members_app p l1 l2 : members p (l1 ++ l2) = members p l1 ++ members p l2.
Proof. unfold members. by rewrite filter_app, fmap_app. Qed.
Lemma members_snoc_same p l e : members p (l ++ [(e, p)]) = members p l ++ [e].
Proof. rewrite members_app. unfold members at 2. simpl. by rewrite filter_cons_True. Qed.
Lemma members_snoc_other p q l e : q <> p -> members p (l ++ [(e, q)]) = members p l.
Proof. intros Hn. rewrite members_app. unfold members at 2. rewrite filter_cons_False by done. by rewrite app_nil_r. Qed.
Lemma members_without_same p l : members p (without p l) = [].
Proof.
  destruct (members p (without p l)) as [|e q] eqn:E; [done|].
  assert (e ∈ members p (without p l)) as H by (rewrite E; by left).
  apply elem_members, elem_without in H as [_ H]. done.
Qed.
Lemma members_without_other p q l : q <> p -> members p (without q l) = members p l.
Proof.
  intros Hn. unfold members, without. f_equal. rewrite list_filter_filter. apply list_filter_iff. intros [e r]. simpl.
  split; [tauto|]. intros ->. split; congruence.
Qed.

(** A filter that drops nothing of a queue leaves it. *)
Lemma members_filter p l (R : nat * P -> Prop) `{forall x, Decision (R x)} :
  (forall x, x ∈ l -> x.2 = p -> R x) -> members p (filter R l) = members p l.
Proof.
  unfold members. induction l as [|x l IH]; intros HR; [done|].
  rewrite (filter_cons R). case_decide as Hx.
  - rewrite !filter_cons. case_decide; [rewrite !fmap_cons; f_equal|]; apply IH; intros; apply HR; set_solver.
  - rewrite (filter_cons_False (fun x => x.2 = p)) by (intros ?; apply Hx, HR; set_solver). apply IH. intros. apply HR; set_solver.
Qed.

Lemma members_unlink p e l : members p (unlink e l) = filter (fun y => y <> e) (members p l).
Proof.
  unfold members, unlink. induction l as [|[y q] l IH]; [done|].
  destruct (decide (y = e)) as [->|], (decide (q = p)) as [->|].
  - rewrite filter_cons_False by (simpl; tauto). rewrite (filter_cons_True (fun x => x.2 = p)) by done.
    rewrite fmap_cons, filter_cons_False by (simpl; tauto). done.
  - rewrite filter_cons_False by (simpl; tauto). by rewrite (filter_cons_False (fun x => x.2 = p)).
  - rewrite filter_cons_True by done. rewrite !(filter_cons_True (fun x => x.2 = p)) by done.
    rewrite !fmap_cons, filter_cons_True by done. by rewrite IH.
  - rewrite filter_cons_True by done. by rewrite !(filter_cons_False (fun x => x.2 = p)).
Qed.

Lemma members_nodup p l : NoDup l.*1 -> NoDup (members p l).
Proof. apply filter_nodup. Qed.

Lemma split_queue p l : l.*1 ≡ₚ (without p l).*1 ++ members p l.
Proof.
  unfold members, without. rewrite <- fmap_app. apply fmap_Permutation.
  rewrite (Permutation_app_comm (filter _ _)). symmetry. apply (filter_app_complement (fun x => x.2 = p)).
Qed.

Lemma after_in_elem e e' q : after_in e q = Some e' -> e' ∈ q.
Proof.
  induction q as [|x q IH]; [done|]. simpl. destruct (x =? e)%nat; [|intros H%IH; by right].
  destruct q; [done|]. intros [= ->]. right. by left.
Qed.
Lemma after_in_ne e e' q : NoDup q -> after_in e q = Some e' -> e' <> e.
Proof.
  induction q as [|x q IH]; intros Hn; [done|]. apply NoDup_cons in Hn as [Hx Hn]. simpl.
  destruct (Nat.eqb_spec x e) as [->|?]; [|by apply IH]. destruct q; [done|]. intros [= ->] ->. set_solver.
Qed.
End links.
