(* ===== verification/TimerWheel.v ===== *)
(** The timer of [common/inc/Timer.h]: a hierarchical wheel of 8 levels with 256 slots each,
    the slot [completeSlot_] for what is already due, and the pool of elements, with the
    reference counts of the elements ([RefCount.v]) in their [reference_] field.

    Times are nanoseconds of the steady clock; what [now()] returned is an argument.  Each
    operation runs on its own; [TimerRace.v] has the interleavings with the trigger thread. *)
From S2P Require Import Prelude Links.
Local Open Scope Z_scope.

(** Where an element can be linked: a slot of the wheel, [completeSlot_] or [pool_]. *)
Inductive place := Wheel (level : nat) (idx : Z) | Complete | Pool.
#[export] Instance place_eq_dec : EqDecision place.
Proof. solve_decision. Defined.

(** [Timer::Element].  [active_] is the flag of the lock: [true] while it is locked. *)
Record Element := mkElement {
  cb_ : nat; active_ : bool; tp_ : Z; slot_ : option (nat * Z); refs : Z }.

(** The timer.  [links] are the elements of all its queues in the order they were pushed, each
    with the queue it is in: a queue is the sub-list with its name.  [elems] are the
    elements that are not deleted; [fired] the callbacks that ran. *)
Record Timer := mkTimer {
  maxPoolSize_ : Z; begin_ : Z; precision_ : Z; point_ : Z; stop_ : bool;
  links : list (nat * place); elems : gmap nat Element; fresh_elem : nat;
  fired : list (nat * nat) }.

Definition M (A : Type) : Type := st Timer A.

Definition set_point (p : Z) (t : Timer) : Timer :=
  mkTimer (maxPoolSize_ t) (begin_ t) (precision_ t) p (stop_ t) (links t) (elems t) (fresh_elem t) (fired t).
Definition set_precision (p : Z) (t : Timer) : Timer :=
  mkTimer (maxPoolSize_ t) (begin_ t) p (point_ t) (stop_ t) (links t) (elems t) (fresh_elem t) (fired t).
Definition set_max (m : Z) (t : Timer) : Timer :=
  mkTimer m (begin_ t) (precision_ t) (point_ t) (stop_ t) (links t) (elems t) (fresh_elem t) (fired t).
Definition set_links (l : list (nat * place)) (t : Timer) : Timer :=
  mkTimer (maxPoolSize_ t) (begin_ t) (precision_ t) (point_ t) (stop_ t) l (elems t) (fresh_elem t) (fired t).
Definition set_elems (m : gmap nat Element) (t : Timer) : Timer :=
  mkTimer (maxPoolSize_ t) (begin_ t) (precision_ t) (point_ t) (stop_ t) (links t) m (fresh_elem t) (fired t).
Definition log (e cb : nat) (t : Timer) : Timer :=
  mkTimer (maxPoolSize_ t) (begin_ t) (precision_ t) (point_ t) (stop_ t) (links t) (elems t) (fresh_elem t)
    (fired t ++ [(e, cb)]).

(** An access to an element: deleted memory is [AssertFail]. *)
Definition get (e : nat) : M Element := fun t => x ← deref (elems t !! e); Ret (t, x).
Definition put (e : nat) (x : Element) : M unit := modify (fun t => set_elems (<[e := x]> (elems t)) t).

Definition with_refs (x : Element) (n : Z) : Element := mkElement (cb_ x) (active_ x) (tp_ x) (slot_ x) n.

(** ** Queues *)
Definition queue (p : place) (t : Timer) : list nat := members p (links t).
Definition linked (e : nat) (t : Timer) : bool := bool_decide (e ∈ (links t).*1).
Definition pool_size (t : Timer) : Z := Z.of_nat (length (queue Pool t)).

Definition IncrementRef (e : nat) : M unit :=
  let* x := get e in put e (with_refs x (refs x + 1)).

(** [TSQueue::push]: asserts that the hook is free, links and takes a reference. *)
Definition push (p : place) (e : nat) : M unit :=
  let* l := gets (linked e) in
  if l then failed else modify (fun t => set_links (links t ++ [(e, p)]) t) ;;; IncrementRef e.

(** [DeleteElement]: back to the pool while there is room. *)
Definition DeleteElement (e : nat) : M unit :=
  let* n := gets pool_size in
  let* max := gets maxPoolSize_ in
  if n <? max then
    IncrementRef e ;;;
    let* x := get e in
    put e (mkElement 0 (active_ x) (tp_ x) (slot_ x) (refs x)) ;;;
    push Pool e
  else modify (fun t => set_elems (delete e (elems t)) t).

(** [DecrementRef] with the deleter [StaticDeleteElement]. *)
Definition DecrementRef (e : nat) : M unit :=
  let* x := get e in
  put e (with_refs x (refs x - 1)) ;;;
  if refs x - 1 =? 0 then DeleteElement e else ret tt.

(** [TSQueue::erase]: asserts that the element is linked there. *)
Definition erase (p : place) (e : nat) : M unit :=
  let* q := gets (queue p) in
  if bool_decide (e ∈ q) then
    modify (fun t => set_links (filter (fun x => x.1 <> e) (links t)) t) ;;; DecrementRef e
  else failed.

(** [pop_all]: the whole queue; the references stay with the list. *)
Definition pop_all (p : place) : M (list nat) :=
  fun t => Ret (set_links (filter (fun x => x.2 <> p) (links t)) t, queue p t).

(** [pool_.pop()]. *)
Definition pool_pop : M (option nat) :=
  let* q := gets (queue Pool) in
  match q with
  | [] => ret None
  | e :: _ => modify (fun t => set_links (filter (fun x => x.1 <> e) (links t)) t) ;;; DecrementRef e ;;; ret (Some e)
  end.

(** ** Elements *)
Definition Element_init (e : nat) (cb : nat) (tp : Z) : M unit :=
  let* x := get e in put e (mkElement cb false tp None (refs x)).

(** [call]: the callback is one entry of the log; the scope's end unlocks [active_]. *)
Definition Element_call (e : nat) : M unit :=
  let* x := get e in
  if active_ x then ret tt
  else put e (mkElement (cb_ x) true (tp_ x) None (refs x)) ;;;
       modify (log e (cb_ x)) ;;;
       let* y := get e in put e (mkElement (cb_ y) false (tp_ y) (slot_ y) (refs y)).

Definition Element_cancel (e : nat) : M bool :=
  let* x := get e in
  if active_ x then ret false
  else put e (mkElement (cb_ x) true (tp_ x) (slot_ x) (refs x)) ;;;
       match slot_ x with Some (l, i) => erase (Wheel l i) e | None => ret tt end ;;;
       DecrementRef e ;;; ret true.

(** [NewElement]: [new Element] leaves [cb_], [tp_] and [slot_] to [init]. *)
Definition new_element : M nat := fun t =>
  let e := fresh_elem t in
  Ret (mkTimer (maxPoolSize_ t) (begin_ t) (precision_ t) (point_ t) (stop_ t) (links t)
         (<[e := mkElement 0 false 0 None 1]> (elems t)) (S e) (fired t), e).
Definition NewElement : M nat :=
  let* p := pool_pop in
  match p with Some e => ret e | None => new_element end.

(** ** The wheel *)
Definition levels : nat := 8.
(** [Point::p8]. *)
Definition p8 (x : Z) (k : nat) : Z := Z.land (Z.shiftr x (8 * Z.of_nat k)) 255.

(** The highest byte of [p] that is not 0, from byte [i] down. *)
Fixpoint top_level (i : nat) (p : Z) : option nat :=
  if 0 <? p8 p i then Some i else match i with O => None | S i => top_level i p end.

(** [begin_ + last.p64 * precision_]. *)
Definition time_of (t : Timer) (last : Z) : Z := i64 (begin_ t + u64 (last * precision_ t)).

(** Level and offset of a duration of [p] ticks from the point [last]. *)
Definition place_for (p last : Z) : nat * Z :=
  match top_level 7 p with
  | Some i => (i, Z.land (p8 p i + p8 last i) 255)
  | None => (0%nat, p8 last 0)
  end.

Definition Dispatch (e : nat) (mainloop : bool) : M unit :=
  let* t := gets id in
  let last := point_ t in
  let lastTime := time_of t last in
  let* x := get e in
  if (negb mainloop && (tp_ x <=? lastTime))%bool then push Complete e
  else
    let durNanos := u64 (tp_ x - lastTime) in
    let durVal := durNanos / precision_ t in
    let '(level, offset) := place_for durVal last in
    push (Wheel level offset) e ;;;
    let* x := get e in
    put e (mkElement (cb_ x) (active_ x) (tp_ x) (Some (level, offset)) (refs x)).

(** [StartTimer(time_point, F)]: the [TimerId] is the handle of the element. *)
Definition StartTimer (tp : Z) (cb : nat) : M (option nat) :=
  let* e := NewElement in
  Element_init e cb tp ;;;
  IncrementRef e ;;;
  Dispatch e false ;;; ret (Some e).
Definition StartTimer_after (now dur : Z) (cb : nat) : M (option nat) := StartTimer (i64 (now + dur)) cb.

(** [TimerId::StopTimer] and the destructor of the handle. *)
Definition StopTimer (elem_ : option nat) : M bool :=
  match elem_ with
  | Some e => let* r := Element_cancel e in DecrementRef e ;;; ret r
  | None => ret true
  end.
Definition TimerId_destroy (elem_ : option nat) : M unit :=
  match elem_ with Some e => DecrementRef e | None => ret tt end.

(** [Trigger]: each element of the slot is unlinked, called and released. *)
Definition trigger_one (e : nat) : M unit := DecrementRef e ;;; Element_call e ;;; DecrementRef e.
Definition Trigger (p : place) : M unit := let* l := pop_all p in for_each trigger_one l.

(** [Dispatch(Slot&, now)]. *)
Definition dispatch_one (now : Z) (e : nat) : M unit :=
  DecrementRef e ;;;
  let* x := get e in
  if tp_ x <=? now then Element_call e ;;; DecrementRef e else Dispatch e true.
Definition Dispatch_all (now : Z) (l : list nat) : M unit := for_each (dispatch_one now) l.

Definition additions (lv : nat) : Z :=
  nth lv [1; Z.shiftl 1 8; Z.shiftl 1 16; Z.shiftl 1 32; Z.shiftl 1 40; Z.shiftl 1 48; Z.shiftl 1 56; 2 ^ 64 - 1] 0.

(** The upgrade: [while (pos.p64 > 0 && slotIdx == 0)]. *)
Fixpoint upgrade (fuel : nat) (pos : Z) (lv : nat) (slotIdx : Z) (dispatchers : list nat) (ts : list Z) :
    M (list nat * list Z) :=
  if ((0 <? pos) && (slotIdx =? 0))%bool then
    match fuel with
    | O => failed          (* [pos.p8[8]]: out of range *)
    | S fuel =>
        let lv := S lv in
        let slotIdx := p8 pos lv in
        let* l := pop_all (Wheel lv slotIdx) in
        upgrade fuel pos lv slotIdx (dispatchers ++ l) (alter (Z.add 1) lv ts)
    end
  else ret (dispatchers, ts).

(** One iteration: the new [triggerLevel], counters and dispatchers, and the step. *)
Definition run_step (pos : Z) (triggerLevel : nat) (ts : list Z) (dispatchers : list nat) :
    M (nat * list Z * list nat * Z) :=
  let lv := triggerLevel in
  let slotIdx := p8 pos lv in
  Trigger (Wheel lv slotIdx) ;;;
  let ts := alter (Z.add 1) lv ts in
  let triggerLevel := if nth lv ts 0 =? 256 then S triggerLevel else triggerLevel in
  let* r := upgrade (7 - lv) pos lv slotIdx dispatchers ts in
  let add := additions triggerLevel in
  let levelupSteps := u64 ((256 - p8 pos (triggerLevel - 1)) * additions (triggerLevel - 1)) in
  let add := if ((0 <? triggerLevel)%nat && (0 <? levelupSteps))%bool then Z.min levelupSteps add else add in
  ret (triggerLevel, r.2, r.1, add).

Fixpoint run_loop (fuel : nat) (last delta i : Z) (triggerLevel : nat) (ts : list Z) (dispatchers : list nat) :
    M (list nat) :=
  if i <? delta then
    match fuel with
    | O => failed
    | S fuel =>
        let* r := run_step (u64 (last + i)) triggerLevel ts dispatchers in
        run_loop fuel last delta (u64 (i + r.2)) r.1.1.1 r.1.1.2 r.1.2
    end
  else ret dispatchers.

(** [destVal]. *)
Definition dest_of (t : Timer) (now : Z) : Z := u64 (Z.quot (now - begin_ t) (precision_ t)).

(** [RunOnce]; every iteration advances by at least one tick, so [delta] is enough fuel. *)
Definition RunOnce (now : Z) : M unit :=
  Trigger Complete ;;;
  let* t := gets id in
  let dest := dest_of t now in
  if dest <=? point_ t then ret tt
  else
    let delta := dest - point_ t in
    let last := point_ t in
    modify (set_point dest) ;;;
    let* dispatchers := run_loop (Z.to_nat delta) last delta 0 0 (replicate 8 0) [] in
    Dispatch_all now dispatchers.

(** [ThreadRun]: one [RunOnce] per reading of the clock until [stop_]. *)
Fixpoint ThreadRun (nows : list Z) : M unit :=
  match nows with
  | [] => ret tt
  | now :: nows => let* s := gets stop_ in if s then ret tt else RunOnce now ;;; ThreadRun nows
  end.

(** ** Construction and settings *)
Definition microseconds (n : Z) : Z := n * 1000.
Definition minutes (n : Z) : Z := n * 60000000000.

Definition Timer_new (now : Z) : Timer :=
  mkTimer 0 now (microseconds 100) 0 false [] ∅ 0 [].

(** [SetPrecision] with a duration in nanoseconds. *)
Definition SetPrecision (p : Z) : M unit :=
  let p := if p <? microseconds 100 then microseconds 100 else p in
  let p := if minutes 1 <? p then minutes 1 else p in
  modify (set_precision p).

(** [SetPoolSize]: the reserve is pushed into a queue of its own, so each element has the
    reference of its creation and the queue's. *)
Fixpoint reserve_pool (n : nat) : M unit :=
  match n with
  | O => ret tt
  | S n =>
      let* e := new_element in
      push Pool e ;;; reserve_pool n
  end.
Definition SetPoolSize (max reserve : Z) : M unit :=
  modify (set_max max) ;;;
  let* n := gets pool_size in
  reserve_pool (Z.to_nat (reserve - n)).
Definition GetPoolSize : M Z := gets pool_size.

(** [Stop] sets the flag; [TimerRace.Quit] has the wait for the thread. *)
Definition Stop : M unit :=
  modify (fun t => mkTimer (maxPoolSize_ t) (begin_ t) (precision_ t) (point_ t) true (links t) (elems t) (fresh_elem t) (fired t)).

(** ** [NextTrigger]

    All readings of the clock in one call are the same [now]. *)
Definition set_p8 (x : Z) (k : nat) (v : Z) : Z :=
  Z.lor (Z.ldiff x (Z.shiftl 255 (8 * Z.of_nat k))) (Z.shiftl (Z.land v 255) (8 * Z.of_nat k)).
Definition slot_empty (t : Timer) (lv : nat) (idx : Z) : bool :=
  match queue (Wheel lv idx) t with [] => true | _ => false end.

(** The highest byte in which [last] is below [p]; 0 when there is none. *)
Fixpoint highest_below (i : nat) (last p : Z) : nat :=
  if p8 last i <? p8 p i then i else match i with O => 0%nat | S i => highest_below i last p end.

(** The first slot of level [i] in use, from [last]'s on, around the wheel. *)
Definition first_around (t : Timer) (i : nat) (last : Z) : option Z :=
  let slot k := Z.land (Z.of_nat k + p8 last i) 255 in
  option_map slot (List.find (fun k => negb (slot_empty t i (slot k))) (seq 0 256)).

(** The levels below [topLevel], from the lowest: level and slot. *)
Fixpoint scan_levels (t : Timer) (n i : nat) (last : Z) : option (nat * Z) :=
  match n with
  | O => None
  | S n => match first_around t i last with Some j => Some (i, j) | None => scan_levels t n (S i) last end
  end.

(** The slots [last.p8[top] .. p.p8[top]) of the top level. *)
Definition first_top (t : Timer) (top : nat) (last p : Z) : option Z :=
  List.find (fun j => negb (slot_empty t top j))
    (map (fun n => p8 last top + Z.of_nat n) (seq 0 (Z.to_nat (p8 p top - p8 last top)))).

Definition clear_above (i : nat) (x : Z) : Z := fold_left (fun x m => set_p8 x m 0) (seq (S i) (7 - i)) x.

Definition NextTrigger (t : Timer) (now max : Z) : Z :=
  if max =? 0 then now
  else if negb (match queue Complete t with [] => true | _ => false end) then now
  else
    let dest := i64 (now + max) in
    let p := u64 (Z.quot (dest - begin_ t) (precision_ t)) in
    let last := point_ t in
    let lastTime := time_of t last in
    if p <=? last then now
    else
      let topLevel := highest_below 7 last p in
      let '(p, last) :=
        match scan_levels t topLevel 0 last with
        | Some (i, j) =>
            let p := clear_above i (set_p8 p i j) in
            let last' := clear_above i last in
            (if j <? p8 last i then set_p8 p (S i) 1 else p, last')
        | None =>
            match first_top t topLevel last p with
            | Some j => (set_p8 p topLevel j, last)
            | None => (p, last)
            end
        end in
      if last <? p then i64 (u64 (u64 (p - last) * precision_ t) + lastTime) else now.

(** ** When a slot is visited

    [B k] is the width of a slot of level [k] in ticks; the loop of [RunOnce] reaches the
    slot [s] of level [k] at the ticks that are multiples of [B k] with [s] as byte [k];
    [next P k s] is the first of them from [P] on. *)
Definition B (k : nat) : Z := 2 ^ (8 * Z.of_nat k).
Definition next (P : Z) (k : nat) (s : Z) : Z :=
  let u := - ((- P) / B k) in (u + (s - u) mod 256) * B k.

Lemma B_pos k : 0 < B k.
Proof. apply pow2_pos. lia. Qed.
Lemma B_0 : B 0 = 1.
Proof. done. Qed.
Lemma B_S k : B (S k) = 256 * B k.
Proof. unfold B. rewrite Nat2Z.inj_succ, Z.mul_succ_r, Z.pow_add_r by lia. change (2 ^ 8) with 256. lia. Qed.

Lemma p8_div x k : p8 x k = (x / B k) mod 256.
Proof.
  unfold p8. rewrite Z.shiftr_div_pow2 by lia. change 255 with (Z.ones 8). by rewrite Z.land_ones by lia.
Qed.
Lemma p8_range x k : 0 <= p8 x k < 256.
Proof. rewrite p8_div. apply Z.mod_pos_bound. lia. Qed.

(** The two shapes of the rounded-up quotient. *)
Lemma ceil_cases P k :
  (P mod B k = 0 /\ - ((- P) / B k) = P / B k) \/ (P mod B k <> 0 /\ - ((- P) / B k) = P / B k + 1).
Proof.
  pose proof (B_pos k). destruct (decide (P mod B k = 0)) as [E|E]; [left|right]; (split; [done|]).
  - rewrite Z.div_opp_l_z by lia. lia.
  - rewrite Z.div_opp_l_nz by lia. lia.
Qed.

Lemma next_ge P k s : P <= next P k s.
Proof.
  unfold next. pose proof (B_pos k). pose proof (Z.mod_pos_bound (s - - (- P / B k)) 256 ltac:(lia)).
  pose proof (Z.div_mod P (B k) ltac:(lia)). pose proof (Z.mod_pos_bound P (B k) ltac:(lia)).
  destruct (ceil_cases P k) as [[? E]|[? E]]; rewrite E in *; nia.
Qed.

Lemma next_here P k s : 0 <= s < 256 -> next P k s = P -> P mod B k = 0 /\ s = p8 P k.
Proof.
  intros Hs. unfold next. pose proof (B_pos k). rewrite p8_div. intros E.
  pose proof (Z.div_mod P (B k) ltac:(lia)) as Hd. pose proof (Z.mod_pos_bound P (B k) ltac:(lia)).
  destruct (ceil_cases P k) as [[E0 Eu]|[E0 Eu]]; rewrite Eu in E.
  - split; [done|]. pose proof (Z.mod_pos_bound (s - P / B k) 256 ltac:(lia)).
    assert ((s - P / B k) mod 256 = 0) as Hz by nia.
    rewrite <- (Z.mod_small s 256) by lia. apply Z.mod_divide in Hz as [c Hc]; [|lia].
    replace s with (P / B k + c * 256) by lia. by rewrite Z_mod_plus_full.
  - pose proof (Z.mod_pos_bound (s - (P / B k + 1)) 256 ltac:(lia)). nia.
Qed.

Lemma next_at P k : P mod B k = 0 -> next P k (p8 P k) = P.
Proof.
  intros E0. unfold next. pose proof (B_pos k). pose proof (Z.div_mod P (B k) ltac:(lia)).
  destruct (ceil_cases P k) as [[_ ->]|[? _]]; [|done].
  rewrite p8_div, Zminus_mod_idemp_l, Z.sub_diag, Z.mod_0_l by lia. lia.
Qed.

Lemma next_step P k s : 0 <= s < 256 -> next P k s <> P -> next (P + 1) k s = next P k s.
Proof.
  intros Hs Hn. pose proof (B_pos k) as HB. pose proof (Z.div_mod P (B k) ltac:(lia)) as Hd.
  pose proof (Z.mod_pos_bound P (B k) ltac:(lia)) as Hm.
  assert (- (- (P + 1) / B k) = P / B k + 1) as Eu.
  { assert (- (P + 1) / B k = - (P / B k + 1)) as ->; [|lia]. symmetry. apply Z.div_unique with (r := B k - 1 - P mod B k); nia. }
  unfold next in *. rewrite Eu. destruct (ceil_cases P k) as [[E0 E1]|[E0 E1]]; rewrite E1 in *; [|done].
  assert ((s - P / B k) mod 256 <> 0) as Hz by (intros E; rewrite E in Hn; nia).
  pose proof (Z.mod_pos_bound (s - P / B k) 256 ltac:(lia)).
  assert ((s - (P / B k + 1)) mod 256 = (s - P / B k) mod 256 - 1) as ->; [|lia].
  symmetry. apply Z.mod_unique with (q := (s - P / B k) / 256); [lia|].
  pose proof (Z.div_mod (s - P / B k) 256 ltac:(lia)). lia.
Qed.

(** The place that [Dispatch] chooses for a duration of [d] ticks from [P] is visited at the
    tick of the duration on level 0, and not after it above. *)
Lemma top_level_spec i d :
  0 <= d < B (S i) ->
  match top_level i d with
  | Some k => (k <= i)%nat /\ 1 <= d / B k < 256
  | None => d = 0
  end.
Proof.
  revert d. induction i as [|i IH]; intros d Hd; cbn [top_level]; rewrite B_S in Hd;
    rewrite p8_div; match goal with |- context [B ?k] => pose proof (B_pos k); assert (0 <= d / B k < 256) as Hq by
      (split; [apply Z.div_pos; lia|apply Z.div_lt_upper_bound; lia]) end;
    rewrite Z.mod_small by lia; match goal with |- context [0 <? ?q] => destruct (Z.ltb_spec 0 q) as [H'|H'] end.
  - split; lia.
  - rewrite B_0, Z.div_1_r in *. lia.
  - split; lia.
  - assert (d < B (S i)). { pose proof (Z.div_mod d (B (S i)) ltac:(lia)). pose proof (Z.mod_pos_bound d (B (S i)) ltac:(lia)). nia. }
    specialize (IH d ltac:(lia)). destruct (top_level i d); [|done]. destruct IH. split; lia.
Qed.

Lemma B_8 : B 8 = 2 ^ 64.
Proof. reflexivity. Qed.

Lemma place_for_spec d P k s :
  0 <= d < 2 ^ 64 -> 0 <= P -> place_for d P = (k, s) ->
  (k < 8)%nat /\ 0 <= s < 256 /\ next P k s <= P + d /\ (k = 0%nat -> next P k s = P + d) /\ (k <> 0%nat -> 0 < next P k s).
Proof.
  intros Hd HP E. unfold place_for in E. pose proof (top_level_spec 7 d) as Ht. rewrite B_8 in Ht. specialize (Ht Hd).
  destruct (top_level 7 d) as [i|]; simplify_eq.
  - destruct Ht as [Hi Hq]. change 255 with (Z.ones 8). rewrite Z.land_ones by lia. change (2 ^ 8) with 256.
    rewrite !p8_div, (Z.mod_small (d / B _)), Z.add_mod_idemp_r by lia. rename k into i.
    pose proof (B_pos i) as HB. pose proof (Z.div_mod P (B i) ltac:(lia)) as HP1. pose proof (Z.mod_pos_bound P (B i) ltac:(lia)) as HP2.
    pose proof (Z.div_mod d (B i) ltac:(lia)) as Hd1. pose proof (Z.mod_pos_bound d (B i) ltac:(lia)) as Hd2.
    assert (next P i ((d / B i + P / B i) mod 256) = (P / B i + d / B i) * B i) as ->.
    { unfold next. f_equal. destruct (ceil_cases P i) as [[_ ->]|[_ ->]]; rewrite Zminus_mod_idemp_l.
      - replace (d / B i + P / B i - P / B i) with (d / B i) by lia. rewrite Z.mod_small; lia.
      - replace (d / B i + P / B i - (P / B i + 1)) with (d / B i - 1) by lia. rewrite Z.mod_small; lia. }
    assert (0 <= P / B i) by (apply Z.div_pos; lia).
    split_and!; [lia|apply Z.mod_pos_bound; lia|apply Z.mod_pos_bound; lia|nia| |nia].
    intros ->. rewrite B_0 in *. rewrite !Z.div_1_r. lia.
  - subst. pose proof (p8_range P 0). split_and!; try lia; rewrite next_at; try lia; by rewrite B_0, Z.mod_1_r.
Qed.

(** ** The state between operations

    [ids] are the elements for which a [TimerId] is alive; [det] the elements that
    [RunOnce] has taken off their queues and not handled yet. *)

(** What an element's place promises while the wheel stands at tick [P]. *)
Definition placed (b pr P : Z) (x : Element) (p : place) : Prop :=
  match p with
  | Pool => refs x = 2
  | Complete => active_ x = false /\ tp_ x < 2 ^ 63 /\ tp_ x <= b + P * pr
  | Wheel k s =>
      active_ x = false /\ tp_ x < 2 ^ 63 /\ b <= tp_ x /\ slot_ x = Some (k, s) /\ (k < 8)%nat /\ 0 <= s < 256 /\
      let T := (tp_ x - b) / pr in
      next P k s <= T /\ (k = 0%nat -> next P k s = T) /\ (k <> 0%nat -> 0 < next P k s)
  end.
Definition timed (x : Element) : Prop := active_ x = false /\ tp_ x < 2 ^ 63.

Definition handles (ids : list nat) (e : nat) : Z := Z.of_nat (count (Nat.eqb e) ids).
(** The references that a queue or the trigger loop holds. *)
Definition queued (owned : list nat) (e : nat) : Z := if bool_decide (e ∈ owned) then 2 else 0.

Record wf (P : Z) (det ids : list nat) (t : Timer) : Prop := {
  wf_prec : 0 < precision_ t;
  wf_begin : 0 <= begin_ t;
  wf_point : 0 <= P;
  wf_range : begin_ t + P * precision_ t < 2 ^ 63;
  wf_nodup : NoDup ((links t).*1 ++ det);
  wf_placed e p : (e, p) ∈ links t -> exists x, elems t !! e = Some x /\ placed (begin_ t) (precision_ t) P x p;
  wf_det e : e ∈ det -> exists x, elems t !! e = Some x /\ timed x;
  wf_refs e x : elems t !! e = Some x ->
    refs x = queued ((links t).*1 ++ det) e + handles ids e /\ 0 < refs x /\ (e < fresh_elem t)%nat;
  wf_ids e : e ∈ ids -> is_Some (elems t !! e) }.

(** Nothing but queues, elements and the log changed. *)
Definition same (t t' : Timer) : Prop :=
  maxPoolSize_ t' = maxPoolSize_ t /\ begin_ t' = begin_ t /\ precision_ t' = precision_ t /\
  point_ t' = point_ t /\ stop_ t' = stop_ t /\ fresh_elem t' = fresh_elem t.

#[export] Instance same_preorder : PreOrder same.
Proof. unfold same. split; [done|]. intros ? ? ?. naive_solver congruence. Qed.

(** *** Single accesses *)

Lemma get_ok t e x : elems t !! e = Some x -> get e t = Ret (t, x).
Proof. intros E. unfold get. by rewrite E. Qed.

Lemma IncrementRef_ok t e x :
  elems t !! e = Some x ->
  IncrementRef e t = Ret (set_elems (<[e := with_refs x (refs x + 1)]> (elems t)) t, tt).
Proof. intros E. unfold IncrementRef, bind. by rewrite (get_ok t e x E). Qed.

Lemma push_ok t p e x :
  elems t !! e = Some x -> e ∉ (links t).*1 ->
  push p e t = Ret (set_elems (<[e := with_refs x (refs x + 1)]> (elems t)) (set_links (links t ++ [(e, p)]) t), tt).
Proof.
  intros E Hl. unfold push, bind, gets, modify, linked. simpl. rewrite bool_decide_eq_false_2 by done. simpl.
  by rewrite (IncrementRef_ok (set_links (links t ++ [(e, p)]) t) e x E).
Qed.

(** Giving back a reference that is not the last. *)
Lemma DecrementRef_more t e x :
  elems t !! e = Some x -> 1 < refs x ->
  DecrementRef e t = Ret (set_elems (<[e := with_refs x (refs x - 1)]> (elems t)) t, tt).
Proof.
  intros E Hr. unfold DecrementRef, bind. rewrite (get_ok t e x E). simpl.
  by destruct (Z.eqb_spec (refs x - 1) 0); [lia|].
Qed.

(** Giving back the last one: the element is deleted or back in the pool with the two
    references of a pooled element. *)
Lemma DecrementRef_last t e x :
  elems t !! e = Some x -> refs x = 1 -> e ∉ (links t).*1 ->
  exists t', DecrementRef e t = Ret (t', tt) /\ same t t' /\ fired t' = fired t /\
    ((elems t' = delete e (elems t) /\ links t' = links t) \/
     (elems t' = <[e := mkElement 0 (active_ x) (tp_ x) (slot_ x) 2]> (elems t) /\ links t' = links t ++ [(e, Pool)])).
Proof.
  intros E Hr Hl. unfold DecrementRef, bind. rewrite (get_ok t e x E). simpl.
  destruct (Z.eqb_spec (refs x - 1) 0) as [Hz|]; [|lia].
  unfold DeleteElement, bind, gets. simpl. destruct (_ <? _).
  - erewrite IncrementRef_ok by (simpl; apply lookup_insert_eq). simpl.
    erewrite get_ok by (simpl; apply lookup_insert_eq). simpl.
    erewrite push_ok; [|simpl; apply lookup_insert_eq|done]. simpl.
    eexists. split; [reflexivity|]. split; [by repeat split|]. split; [done|]. right. simpl.
    rewrite !insert_insert_eq. split; [|done]. do 2 f_equal. unfold with_refs. simpl. lia.
  - eexists. split; [reflexivity|]. split; [by repeat split|]. split; [done|]. left. simpl.
    split; [|done]. apply delete_insert_eq.
Qed.

Lemma Element_call_ok t e x :
  elems t !! e = Some x -> active_ x = false ->
  Element_call e t =
    Ret (set_elems (<[e := mkElement (cb_ x) false (tp_ x) None (refs x)]> (elems t)) (log e (cb_ x) t), tt).
Proof.
  intros E Ha. unfold Element_call, bind. rewrite (get_ok t e x E). simpl. rewrite Ha. simpl.
  erewrite get_ok by (simpl; apply lookup_insert_eq). simpl. unfold put, modify. simpl. by rewrite insert_insert_eq.
Qed.

(** *** Ownership *)

Lemma handles_zero ids e : handles ids e = 0 <-> e ∉ ids.
Proof.
  unfold handles. split.
  - intros H [i Hi]%list_elem_of_lookup. assert (0 < count (Nat.eqb e) ids)%nat; [|lia].
    apply count_pos. exists i, e. by rewrite Nat.eqb_refl.
  - intros H. destruct (count (Nat.eqb e) ids) eqn:E; [done|].
    assert (0 < count (Nat.eqb e) ids)%nat as Hp by lia. apply count_pos in Hp as (i & x & Hi & Hx%Nat.eqb_eq).
    subst. destruct H. by eapply list_elem_of_lookup_2.
Qed.
Lemma handles_nonneg ids e : 0 <= handles ids e.
Proof. unfold handles. lia. Qed.
Lemma queued_in owned e : e ∈ owned -> queued owned e = 2.
Proof. intros. unfold queued. by rewrite bool_decide_eq_true_2. Qed.
Lemma queued_out owned e : e ∉ owned -> queued owned e = 0.
Proof. intros. unfold queued. by rewrite bool_decide_eq_false_2. Qed.
Lemma queued_ext o1 o2 e : (e ∈ o1 <-> e ∈ o2) -> queued o1 e = queued o2 e.
Proof. intros H. unfold queued. by rewrite (bool_decide_ext _ _ H). Qed.
#[local] Hint Resolve handles_nonneg : timer.

(** An element in hand is linked nowhere, live and has its two references and its
    handles. *)
Lemma wf_head P det ids t e :
  wf P (e :: det) ids t -> e ∉ (links t).*1 /\ e ∉ det /\
  exists x, elems t !! e = Some x /\ timed x /\ refs x = 2 + handles ids e.
Proof.
  intros Hw. pose proof (wf_nodup _ _ _ _ Hw) as Hn. apply NoDup_app in Hn as (_ & Hd & Hn%NoDup_cons).
  destruct (wf_det _ _ _ _ Hw e) as (x & E & Ht); [set_solver|].
  destruct (wf_refs _ _ _ _ Hw e x E) as (Hr & _). rewrite queued_in in Hr by set_solver.
  split; [intros ?; eapply Hd; set_solver|]. split; [naive_solver|]. eauto.
Qed.

Lemma wf_perm P d1 d2 ids t : d1 ≡ₚ d2 -> wf P d1 ids t -> wf P d2 ids t.
Proof.
  intros Hp []. constructor; try done.
  - by rewrite <- Hp.
  - intros e He. apply wf_det0. by rewrite Hp.
  - intros e x E. rewrite <- (queued_ext ((links t).*1 ++ d1)); [by apply wf_refs0|]. by rewrite Hp.
Qed.

(** One element changes, with its place and its handles: what is left to check is about
    that element. *)
Lemma wf_update P det det' ids ids' t t' e :
  wf P det ids t -> begin_ t' = begin_ t -> precision_ t' = precision_ t ->
  (fresh_elem t <= fresh_elem t')%nat -> (e < fresh_elem t')%nat ->
  (forall e', e' <> e -> elems t' !! e' = elems t !! e' /\ handles ids' e' = handles ids e') ->
  NoDup ((links t').*1 ++ det') ->
  (forall e' p, e' <> e -> (e', p) ∈ links t' -> (e', p) ∈ links t) ->
  (forall e', e' <> e -> (e' ∈ (links t').*1 ++ det' <-> e' ∈ (links t).*1 ++ det) /\ (e' ∈ det' -> e' ∈ det)) ->
  (forall p, (e, p) ∈ links t' -> exists x, elems t' !! e = Some x /\ placed (begin_ t) (precision_ t) P x p) ->
  (e ∈ det' -> exists x, elems t' !! e = Some x /\ timed x) ->
  match elems t' !! e with
  | Some x => refs x = queued ((links t').*1 ++ det') e + handles ids' e /\ 0 < refs x
  | None => handles ids' e = 0
  end ->
  wf P det' ids' t'.
Proof.
  intros [W1 W2 W3 W4 W5 W6 W7 W8 W9] Hb Hp Hf1 Hf2 He Hn Hl Ho Hpl Hdet Hx.
  constructor; rewrite ?Hb, ?Hp; try done.
  - intros e' p H. destruct (decide (e' = e)) as [->|Hne]; [eauto|]. destruct (He e' Hne) as [-> _]. eauto.
  - intros e' H. destruct (decide (e' = e)) as [->|Hne]; [eauto|]. destruct (He e' Hne) as [-> _]. apply W7, Ho; done.
  - intros e' x Ex. destruct (decide (e' = e)) as [->|Hne].
    + rewrite Ex in Hx. naive_solver.
    + destruct (He e' Hne) as [E ->]. rewrite E in Ex. destruct (W8 e' x Ex) as (Hr & ? & ?). split_and!; [|done|lia].
      rewrite Hr. f_equal. apply queued_ext. symmetry. by apply Ho.
  - intros e' H. destruct (decide (e' = e)) as [->|Hne].
    + destruct (elems t' !! e); [done|]. by apply handles_zero in Hx.
    + destruct (He e' Hne) as [-> E]. apply W9. destruct (decide (e' ∈ ids)) as [|Hz]; [done|].
      apply handles_zero in Hz. rewrite <- E in Hz. by apply handles_zero in Hz.
Qed.

Lemma wf_head_fresh P det ids t e : wf P (e :: det) ids t -> (e < fresh_elem t)%nat.
Proof. intros Hw. destruct (wf_head _ _ _ _ _ Hw) as (_ & _ & x & Ex & _). by destruct (wf_refs _ _ _ _ Hw e x Ex) as (_ & _ & ?). Qed.

(** The element in hand is let go, perhaps with a handle: deleted, kept by its handles,
    or put into the pool. *)
Lemma wf_retire P det ids ids' t t' e :
  wf P (e :: det) ids t -> same t t' -> (forall e', e' <> e -> elems t' !! e' = elems t !! e') ->
  (forall e', e' <> e -> handles ids' e' = handles ids e') ->
  ((links t' = links t /\ match elems t' !! e with Some y => refs y = handles ids' e /\ 0 < refs y | None => handles ids' e = 0 end) \/
   (links t' = links t ++ [(e, Pool)] /\ exists y, elems t' !! e = Some y /\ refs y = 2 /\ handles ids' e = 0)) ->
  wf P det ids' t'.
Proof.
  intros Hw (Hm & Hb & Hp & Hpt & Hs & Hf) He Hi Hc. destruct (wf_head _ _ _ _ _ Hw) as (Hl & Hd & _).
  pose proof (wf_head_fresh _ _ _ _ _ Hw) as Hfe.
  pose proof (wf_nodup _ _ _ _ Hw) as Hn. rewrite <- Permutation_middle in Hn. apply NoDup_cons in Hn as [Hne Hn].
  rewrite <- Hf in Hfe. eapply wf_update with (e := e); try done; [by rewrite Hf|by eauto|..].
  - destruct Hc as [[-> _]|[-> _]]; [done|]. rewrite fmap_app, <- app_assoc. simpl. rewrite <- Permutation_middle. by apply NoDup_cons.
  - intros e' p Hn' H. destruct Hc as [[E _]|[E _]]; rewrite E in H; [done|]. clear -Hn' H. set_solver.
  - intros e' Hn'. destruct Hc as [[E _]|[E _]]; rewrite E; clear -Hn'; set_solver.
  - intros p H. destruct Hc as [[E _]|[E (y & Ey & Hy & _)]]; rewrite E in H; [destruct Hl; apply fst_elem; eauto|].
    apply elem_of_app in H as [H|H]; [destruct Hl; apply fst_elem; eauto|]. apply list_elem_of_singleton in H. simplify_eq. by exists y.
  - destruct Hc as [[E Hy]|[E (y & Ey & Hy & Hh)]]; rewrite E.
    + revert Hy. destruct (elems t' !! e); [|done]. intros [? ?]. rewrite queued_out by done. split; lia.
    + rewrite Ey, queued_in by apply elem_snoc. split; lia.
Qed.

(** The element in hand is called and let go: [Trigger]'s body. *)
Lemma trigger_one_ok P det ids t e :
  wf P (e :: det) ids t ->
  exists x t', elems t !! e = Some x /\ trigger_one e t = Ret (t', tt) /\ same t t' /\
    fired t' = fired t ++ [(e, cb_ x)] /\ wf P det ids t' /\
    (forall e', e' <> e -> elems t' !! e' = elems t !! e') /\
    (links t' = links t \/ links t' = links t ++ [(e, Pool)]).
Proof.
  intros Hw. destruct (wf_head _ _ _ _ _ Hw) as (Hl & Hd & x & Ex & [Ha Ht] & Hr). pose proof (handles_nonneg ids e) as Hh.
  exists x. unfold trigger_one, bind. rewrite (DecrementRef_more t e x) by (done || lia). simpl.
  erewrite Element_call_ok; [|simpl; apply lookup_insert_eq|done]. simpl.
  rewrite insert_insert_eq.
  match goal with |- context [DecrementRef e ?t0] => set (t1 := t0) end.
  assert (elems t1 !! e = Some (mkElement (cb_ x) false (tp_ x) None (refs x - 1))) as E1 by (simpl; apply lookup_insert_eq).
  assert (forall e', e' <> e -> elems t1 !! e' = elems t !! e') as Ho by (intros; simpl; by rewrite lookup_insert_ne).
  destruct (decide (handles ids e = 0)) as [Hz|Hz].
  - destruct (DecrementRef_last t1 e _ E1) as (t' & E & Hs & Hf & Hc); [simpl; lia|done|].
    rewrite E. exists t'. split_and!; try done.
    + eapply wf_retire; [done|etrans; [|exact Hs]; done| |done|].
      * intros e' Hn. rewrite <- Ho by done. destruct Hc as [[-> _]|[-> _]]; [by rewrite lookup_delete_ne|by rewrite lookup_insert_ne].
      * destruct Hc as [[-> ->]|[-> ->]]; [left|right]; (split; [done|]).
        -- by rewrite lookup_delete_eq.
        -- eexists. rewrite lookup_insert_eq. by split_and!.
    + intros e' Hn. rewrite <- Ho by done. destruct Hc as [[-> _]|[-> _]]; [by rewrite lookup_delete_ne|by rewrite lookup_insert_ne].
    + destruct Hc as [[_ ->]|[_ ->]]; auto.
  - rewrite (DecrementRef_more t1 e _ E1) by (simpl; lia). eexists. split_and!; try done.
    + eapply wf_retire; [done|done| |done|].
      * intros e' Hn. simpl. by rewrite !lookup_insert_ne.
      * left. split; [done|]. simpl. rewrite lookup_insert_eq. simpl. lia.
    + intros e' Hn. simpl. by rewrite !lookup_insert_ne.
    + by left.
Qed.

(** The element in hand is linked into a queue again, perhaps with another handle. *)
Lemma wf_enqueue P det ids ids' t t' e p x :
  wf P (e :: det) ids t -> same t t' -> (forall e', e' <> e -> elems t' !! e' = elems t !! e') ->
  links t' = links t ++ [(e, p)] -> elems t' !! e = Some x ->
  placed (begin_ t) (precision_ t) P x p -> refs x = 2 + handles ids' e ->
  (forall e', e' <> e -> handles ids' e' = handles ids e') ->
  wf P det ids' t'.
Proof.
  intros Hw (Hm & Hb & Hp & Hpt & Hs & Hf) He El Ex Hx Hr Hi. destruct (wf_head _ _ _ _ _ Hw) as (Hl & Hd & _).
  pose proof (wf_head_fresh _ _ _ _ _ Hw) as Hfe. pose proof (wf_nodup _ _ _ _ Hw) as Hn. rewrite <- Hf in Hfe.
  pose proof (handles_nonneg ids' e). eapply wf_update with (e := e); try done; [by rewrite Hf|by eauto|..]; rewrite El.
  - rewrite fmap_app, <- app_assoc. done.
  - intros e' q Hn' H'. clear -Hn' H'. set_solver.
  - intros e' Hn'. clear -Hn'. set_solver.
  - intros q H'. apply elem_of_app in H' as [H'|H']; [destruct Hl; apply fst_elem; eauto|].
    apply list_elem_of_singleton in H'. simplify_eq. by exists x.
  - rewrite Ex, queued_in by apply elem_snoc. split; lia.
Qed.

(** The start of tick [P], without wrap-around. *)
Lemma time_of_small t P :
  0 <= begin_ t -> 0 <= P -> 0 < precision_ t -> begin_ t + P * precision_ t < 2 ^ 63 ->
  time_of t P = begin_ t + P * precision_ t.
Proof.
  intros Hb HP Hp Hr. assert (0 <= P * precision_ t) as Hq by nia. unfold time_of.
  generalize dependent (P * precision_ t). generalize dependent (begin_ t). intros b Hb q Hr Hq.
  assert (2 ^ 63 + 2 ^ 63 = 2 ^ 64) as E by reflexivity.
  unfold u64. rewrite (wrap_small 64 q) by (unfold fits; lia).
  unfold i64, sgn. rewrite wrap_small by (unfold fits; lia). change (64 - 1) with 63.
  destruct (Z.ltb_spec (b + q) (2 ^ 63)); lia.
Qed.

#[local] Arguments place_for : simpl never.
#[local] Arguments time_of : simpl never.
#[local] Arguments u64 : simpl never.
#[local] Arguments Z.div : simpl never.

(** [Dispatch] of an unlinked element that is due later. *)
Lemma Dispatch_later P det ids t t0 e x mainloop :
  wf P det ids t0 -> same t0 t -> P = point_ t ->
  elems t !! e = Some x -> e ∉ (links t).*1 -> active_ x = false -> tp_ x < 2 ^ 63 ->
  begin_ t + P * precision_ t < tp_ x ->
  exists k s, let x' := mkElement (cb_ x) (active_ x) (tp_ x) (Some (k, s)) (refs x + 1) in
    Dispatch e mainloop t = Ret (set_elems (<[e := x']> (elems t)) (set_links (links t ++ [(e, Wheel k s)]) t), tt) /\
    placed (begin_ t) (precision_ t) P x' (Wheel k s).
Proof.
  intros Hw (_ & Hb & Hp & _ & _ & _) -> Ex Hl Ha Ht Hlt. destruct Hw as [W1 W2 W3 W4 _ _ _ _ _]. rewrite <- Hb, <- Hp in *.
  unfold Dispatch. rewrite (bind_ret _ _ t t t) by done. rewrite (bind_ret _ _ t t x) by by apply get_ok. cbv zeta.
  rewrite (time_of_small t (point_ t)) by done.
  replace (tp_ x <=? begin_ t + point_ t * precision_ t) with false by (symmetry; apply Z.leb_gt; lia).
  rewrite andb_false_r. set (d := u64 (tp_ x - (begin_ t + point_ t * precision_ t)) / precision_ t).
  assert (0 <= point_ t * precision_ t) by nia.
  assert (d = (tp_ x - begin_ t) / precision_ t - point_ t) as Ed.
  { unfold d, u64. rewrite wrap_small by (unfold fits; lia).
    replace (tp_ x - (begin_ t + point_ t * precision_ t)) with (tp_ x - begin_ t + (- point_ t) * precision_ t) by lia.
    rewrite Z.div_add by lia. lia. }
  assert (0 <= d < 2 ^ 64) as Hd.
  { unfold d, u64. rewrite wrap_small by (unfold fits; lia). split; [apply Z.div_pos; lia|].
    apply Z.div_lt_upper_bound; nia. }
  destruct (place_for d (point_ t)) as [k s] eqn:Epl.
  destruct (place_for_spec d (point_ t) k s Hd W3 Epl) as (Hk & Hs & Hn1 & Hn2 & Hn3).
  exists k, s. rewrite (bind_ret _ _ _ _ _ (push_ok t (Wheel k s) e x Ex Hl)).
  erewrite bind_ret by (apply get_ok; apply lookup_insert_eq).
  unfold put, modify. simpl. rewrite insert_insert_eq. split; [done|].
  split_and!; try done; try lia.
Qed.

(** *** The trigger loop's own steps *)

Lemma pop_all_ok P det ids t p :
  wf P det ids t -> p <> Pool ->
  exists t', pop_all p t = Ret (t', queue p t) /\ same t t' /\ fired t' = fired t /\ elems t' = elems t /\
    links t' = filter (fun x => x.2 <> p) (links t) /\ wf P (queue p t ++ det) ids t'.
Proof.
  intros Hw Hp. eexists. split; [reflexivity|]. split_and!; try done.
  assert (forall e, e ∈ queue p t <-> (e, p) ∈ links t) as Hq.
  { intros e. apply elem_members. }
  pose proof (split_queue p (links t)) as Hperm. fold (queue p t) in Hperm. unfold without in Hperm.
  destruct Hw as [W1 W2 W3 W4 W5 W6 W7 W8 W9]. constructor; simpl; try done.
  - rewrite app_assoc. rewrite <- Hperm. done.
  - intros e q [? ?]%list_elem_of_filter. eauto.
  - intros e [H|H]%elem_of_app; [|eauto]. apply Hq, W6 in H as (x & Ex & Hx). exists x. split; [done|].
    destruct p; simpl in Hx; [|destruct Hx as (? & ? & ?)|done]; unfold timed; naive_solver.
  - intros e x Ex. destruct (W8 e x Ex) as (Hr & ? & ?). split_and!; try done. rewrite Hr. f_equal. apply queued_ext.
    rewrite app_assoc. rewrite !elem_of_app, Hperm. set_solver.
Qed.

(** *** A run of the trigger loop

    [ran t0 now lf det t]: between [t0] and [t] the elements [lf] were called, in this order,
    and [det] are in hand; every element that was queued is called, in hand or queued, and
    none was called before its time. *)
Definition queued_at (t : Timer) (e : nat) : Prop := exists p, p <> Pool /\ (e, p) ∈ links t.
Definition cb_of (t : Timer) (e : nat) : nat := match elems t !! e with Some x => cb_ x | None => 0%nat end.

Record ran (t0 : Timer) (now : Z) (lf det : list nat) (t : Timer) : Prop := {
  ran_begin : begin_ t = begin_ t0;
  ran_prec : precision_ t = precision_ t0;
  ran_fired : fired t = fired t0 ++ map (fun e => (e, cb_of t0 e)) lf;
  ran_nodup : NoDup lf;
  ran_out e : e ∈ lf -> e ∉ det /\ ~ queued_at t e;
  ran_elem e x : e ∉ lf -> elems t0 !! e = Some x ->
    exists x', elems t !! e = Some x' /\ cb_ x' = cb_ x /\ tp_ x' = tp_ x;
  ran_kept e : queued_at t0 e -> e ∈ lf \/ e ∈ det \/ queued_at t e;
  ran_from e : e ∈ lf \/ e ∈ det \/ queued_at t e -> queued_at t0 e;
  ran_due e : e ∈ lf -> exists x, elems t0 !! e = Some x /\ tp_ x <= now }.

Lemma ran_refl t now : ran t now [] [] t.
Proof. constructor; rewrite ?app_nil_r; try done; try set_solver; eauto using NoDup_nil_2. Qed.

Lemma wf_queued_elem P det ids t e : wf P det ids t -> queued_at t e -> is_Some (elems t !! e).
Proof. intros Hw (p & _ & H). destruct (wf_placed _ _ _ _ Hw e p H) as (x & E & _). by rewrite E. Qed.

(** An element in hand still has its callback and its time. *)
Lemma ran_hand P det0 ids0 t0 now lf det t e x :
  wf P det0 ids0 t0 -> ran t0 now lf det t -> e ∈ det -> elems t !! e = Some x ->
  exists x0, elems t0 !! e = Some x0 /\ cb_ x = cb_ x0 /\ tp_ x = tp_ x0.
Proof.
  intros Hw Hr Hd Ex. destruct (wf_queued_elem _ _ _ _ e Hw) as [x0 E0]; [apply (ran_from _ _ _ _ _ Hr); auto|].
  exists x0. split; [done|]. destruct (ran_elem _ _ _ _ _ Hr e x0) as (x' & E & ? & ?); [|done|].
  - intros H. by apply (ran_out _ _ _ _ _ Hr) in H as [? _].
  - rewrite Ex in E. by simplify_eq.
Qed.

Lemma queue_links t p e : e ∈ queue p t <-> (e, p) ∈ links t.
Proof. apply elem_members. Qed.

Lemma links_unique P det ids t e p q : wf P det ids t -> (e, p) ∈ links t -> (e, q) ∈ links t -> p = q.
Proof.
  intros Hw. pose proof (wf_nodup _ _ _ _ Hw) as Hn. apply NoDup_app in Hn as (Hn & _ & _). by apply links_unique'.
Qed.

Lemma hand_not_queued P det ids t e : wf P det ids t -> e ∈ det -> ~ queued_at t e.
Proof.
  intros Hw Hd (p & _ & H). pose proof (wf_nodup _ _ _ _ Hw) as Hn. apply NoDup_app in Hn as (_ & Hn & _).
  apply (Hn e); [apply fst_elem; eauto|done].
Qed.

Lemma ran_pop P det ids t0 now lf t p :
  wf P det ids t -> ran t0 now lf det t -> p <> Pool ->
  exists t', pop_all p t = Ret (t', queue p t) /\ same t t' /\ elems t' = elems t /\
    wf P (queue p t ++ det) ids t' /\ ran t0 now lf (queue p t ++ det) t' /\
    (forall e q, (e, q) ∈ links t' <-> (e, q) ∈ links t /\ q <> p).
Proof.
  intros Hw Hr Hp. destruct (pop_all_ok _ _ _ _ p Hw Hp) as (t' & E & Hs & Hf & He & Hl & Hw').
  exists t'. split_and!; try done; last first.
  { intros e q. rewrite Hl, list_elem_of_filter. simpl. tauto. }
  assert (forall e, queued_at t e <-> e ∈ queue p t \/ queued_at t' e) as Hq.
  { intros e. unfold queued_at. setoid_rewrite Hl. setoid_rewrite list_elem_of_filter. simpl. rewrite queue_links. split.
    - intros (q & ? & ?). destruct (decide (q = p)) as [->|]; [by left|right; eauto].
    - intros [?|(q & ? & ? & ?)]; eauto. }
  destruct Hs as (_ & Hb & Hpr & _). destruct Hr as [R1 R2 R3 R4 R5 R6 R7 R8 R9]. constructor; try congruence; try done.
  - intros e H. destruct (R5 e H) as [? Hn]. rewrite Hq in Hn. set_solver.
  - by rewrite He.
  - intros e H. apply R7 in H. rewrite Hq in H. set_solver.
  - intros e H. apply R8. rewrite Hq. set_solver.
Qed.

(** What [Trigger] does to one element in hand. *)
Lemma ran_fire P det ids t0 now lf t e :
  wf P (e :: det) ids t -> ran t0 now lf (e :: det) t ->
  (forall x0, elems t0 !! e = Some x0 -> tp_ x0 <= now) ->
  is_Some (elems t0 !! e) ->
  exists t', trigger_one e t = Ret (t', tt) /\ same t t' /\ wf P det ids t' /\ ran t0 now (lf ++ [e]) det t' /\
    (forall e' q, q <> Pool -> (e', q) ∈ links t' <-> (e', q) ∈ links t).
Proof.
  intros Hw Hr Hdue [x0 E0]. destruct (trigger_one_ok _ _ _ _ _ Hw) as (x & t' & Ex & E & Hs & Hf & Hw' & Ho & Hl).
  destruct (wf_head _ _ _ _ _ Hw) as (Hnl & Hnd & _). pose proof (ran_nodup _ _ _ _ _ Hr) as Hnlf.
  assert (e ∉ lf) as Helf by (intros H; apply (ran_out _ _ _ _ _ Hr) in H as [H _]; set_solver).
  assert (forall e' q, q <> Pool -> (e', q) ∈ links t' <-> (e', q) ∈ links t) as Hlinks.
  { intros e' q Hq. destruct Hl as [->| ->]; [done|]. rewrite elem_of_app, list_elem_of_singleton. naive_solver. }
  assert (forall e', queued_at t' e' <-> queued_at t e') as Hqa.
  { intros e'. unfold queued_at. split; intros (q & ? & ?); exists q; split; try done; by apply Hlinks. }
  exists t'. split_and!; try done. destruct Hs as (_ & Hb & Hpr & _).
  destruct Hr as [R1 R2 R3 R4 R5 R6 R7 R8 R9]. constructor; try congruence.
  - rewrite Hf, R3, map_app, app_assoc. simpl. do 3 f_equal. unfold cb_of. rewrite E0.
    destruct (R6 e x0 Helf E0) as (x' & Ex' & ? & _). congruence.
  - apply NoDup_app. split_and!; [done|set_solver|by apply NoDup_singleton].
  - intros e' [H|H%list_elem_of_singleton]%elem_of_app.
    + destruct (R5 e' H). rewrite Hqa. set_solver.
    + subst e'. split; [done|]. rewrite Hqa. intros (q & _ & H). apply Hnl, fst_elem. eauto.
  - intros e' y H Ey. rewrite Ho by set_solver. apply R6; set_solver.
  - intros e' H. apply R7 in H. rewrite Hqa. set_solver.
  - intros e' H. apply R8. rewrite Hqa in H. set_solver.
  - intros e' [H|H%list_elem_of_singleton]%elem_of_app; [eauto|]. subst. eauto.
Qed.

Lemma ran_perm t0 now lf d1 d2 t : d1 ≡ₚ d2 -> ran t0 now lf d1 t -> ran t0 now lf d2 t.
Proof.
  intros Hp [R1 R2 R3 R4 R5 R6 R7 R8 R9]. constructor; try done; intros e; rewrite <- ?Hp; eauto.
Qed.

Lemma wf_advance P det ids t :
  wf P det ids t -> begin_ t + (P + 1) * precision_ t < 2 ^ 63 ->
  (forall e k s, (e, Wheel k s) ∈ links t -> next P k s <> P) -> wf (P + 1) det ids t.
Proof.
  intros [W1 W2 W3 W4 W5 W6 W7 W8 W9] Hr Hn. constructor; try done; [lia|].
  intros e p H. destruct (W6 e p H) as (x & Ex & Hx). exists x. split; [done|].
  destruct p as [k s| |]; simpl in *; [|naive_solver nia|done].
  cbv zeta in *. destruct Hx as (? & ? & ? & ? & ? & Hs & Hx).
  rewrite next_step by eauto. split_and!; naive_solver.
Qed.

Lemma mod_B_S x k : x mod B (S k) = 0 <-> x mod B k = 0 /\ p8 x k = 0.
Proof.
  rewrite p8_div, B_S. pose proof (B_pos k). rewrite !Z.mod_divide by lia. split.
  - intros [c ->]. split; [exists (c * 256); lia|]. exists c.
    replace (c * (256 * B k)) with (c * 256 * B k) by lia. rewrite Z.div_mul; lia.
  - intros [[c ->] [d Hd]]. rewrite Z.div_mul in Hd by lia. exists d. subst. lia.
Qed.
Lemma mod_B_below x j k : (j < k)%nat -> x mod B k = 0 -> x mod B j = 0 /\ p8 x j = 0.
Proof.
  intros Hl. induction Hl as [|k Hl IH]; intros [H1 H2]%mod_B_S; [done|]. by apply IH.
Qed.

Section run.
Context (P0 : Z) (ids : list nat) (t0 : Timer) (now : Z).
Hypothesis W0 : wf P0 [] ids t0.

Lemma hand_live lf det t e : ran t0 now lf det t -> e ∈ det -> is_Some (elems t0 !! e).
Proof. intros Hr Hd. eapply wf_queued_elem; [exact W0|]. apply (ran_from _ _ _ _ _ Hr). auto. Qed.

Definition no_complete (t : Timer) : Prop := forall e, (e, Complete) ∉ links t.

Lemma trigger_all_ok P l : forall det lf t,
  wf P (l ++ det) ids t -> ran t0 now lf (l ++ det) t ->
  (forall e x0, e ∈ l -> elems t0 !! e = Some x0 -> tp_ x0 <= now) ->
  exists t', for_each trigger_one l t = Ret (t', tt) /\ same t t' /\ wf P det ids t' /\
    ran t0 now (lf ++ l) det t' /\ (forall e q, q <> Pool -> (e, q) ∈ links t' <-> (e, q) ∈ links t).
Proof.
  induction l as [|e l IH]; intros det lf t Hw Hr Hd; simpl.
  { exists t. rewrite app_nil_r. by split_and!. }
  destruct (ran_fire _ _ _ _ _ _ _ _ Hw Hr) as (t1 & E1 & S1 & W1 & R1 & L1);
    [intros; apply (Hd e); [set_solver|done]|eapply hand_live; [done|set_solver]|].
  destruct (IH det (lf ++ [e]) t1 W1 R1) as (t' & E & S' & W' & R' & L'); [intros e' ? ?; apply (Hd e'); set_solver|].
  exists t'. rewrite (bind_ret _ _ _ _ _ E1), E. split_and!; try done; [by etrans|by rewrite <- app_assoc in R'|].
  intros. rewrite L', L1; done.
Qed.

(** [Trigger] of a queue whose elements are due. *)
Lemma Trigger_ok P det lf t p :
  wf P det ids t -> ran t0 now lf det t -> p <> Pool ->
  (forall e x, (e, p) ∈ links t -> elems t !! e = Some x -> tp_ x <= now) ->
  exists t' l, Trigger p t = Ret (t', tt) /\ same t t' /\ wf P det ids t' /\
    ran t0 now (lf ++ l) det t' /\ (forall e, (e, p) ∈ links t -> e ∈ l) /\
    (forall e q, q <> Pool -> (e, q) ∈ links t' <-> (e, q) ∈ links t /\ q <> p).
Proof.
  intros Hw Hr Hp Hd. destruct (ran_pop _ _ _ _ _ _ _ _ Hw Hr Hp) as (t1 & E1 & S1 & He & W1 & R1 & L1).
  destruct (trigger_all_ok _ _ _ _ _ W1 R1) as (t' & E & S' & W' & R' & L').
  { intros e x0 He1 E0. pose proof He1 as Hq. rewrite queue_links in Hq.
    destruct (wf_placed _ _ _ _ Hw e p Hq) as (x & Ex & _).
    destruct (ran_hand _ _ _ _ _ _ _ t1 e x W0 R1) as (x1 & E2 & _ & Ht); [set_solver|by rewrite He|].
    rewrite E0 in E2. simplify_eq. rewrite <- Ht. eauto. }
  exists t', (queue p t). unfold Trigger. rewrite (bind_ret _ _ _ _ _ E1). split_and!; try done; [by etrans|..].
  - intros e. by rewrite queue_links.
  - intros. rewrite L', L1; done.
Qed.

(** The upgrade pops the slots of the higher levels that the tick reaches. *)
Lemma upgrade_ok pos lf fuel : forall lv det ts t,
  (fuel + lv = 7)%nat -> 0 <= pos < 2 ^ 64 -> pos mod B lv = 0 ->
  wf pos det ids t -> ran t0 now lf det t ->
  exists t' det' ts', upgrade fuel pos lv (p8 pos lv) det ts t = Ret (t', (det', ts')) /\ same t t' /\
    wf pos det' ids t' /\ ran t0 now lf det' t' /\
    (forall e q, (e, q) ∈ links t' -> (e, q) ∈ links t) /\
    (forall e k, 0 < pos -> (lv < k < 8)%nat -> pos mod B k = 0 -> (e, Wheel k (p8 pos k)) ∉ links t') /\
    nth 0 ts' 0 = nth 0 ts 0 /\ length ts' = length ts.
Proof.
  induction fuel as [|fuel IH]; intros lv det ts t Hf Hpos Hm Hw Hr; simpl;
    destruct (Z.ltb_spec 0 pos) as [Hp|Hp]; simpl; try destruct (Z.eqb_spec (p8 pos lv) 0) as [H0|H0]; simpl;
    try (exists t, det, ts; split_and!; try done;
         intros e k Hp' Hk Hz; exfalso; destruct (mod_B_below pos lv k); [lia|done|lia]).
  - exfalso. assert (lv = 7%nat) as -> by lia. assert (pos mod B 8 = 0) as Hz by by apply mod_B_S.
    rewrite B_8, Z.mod_small in Hz by lia. lia.
  - assert (pos mod B (S lv) = 0) as Hm' by by apply mod_B_S.
    destruct (ran_pop _ _ _ _ _ _ _ (Wheel (S lv) (p8 pos (S lv))) Hw Hr) as (t1 & E1 & S1 & He & W1 & R1 & L1); [done|].
    apply (wf_perm _ _ (det ++ queue (Wheel (S lv) (p8 pos (S lv))) t)) in W1; [|by rewrite Permutation_app_comm].
    apply (ran_perm _ _ _ _ (det ++ queue (Wheel (S lv) (p8 pos (S lv))) t)) in R1; [|by rewrite Permutation_app_comm].
    destruct (IH (S lv) _ (alter (Z.add 1) (S lv) ts) t1 ltac:(lia) Hpos Hm' W1 R1)
      as (t' & det' & ts' & E & S' & W' & R' & L' & N' & T' & Len).
    exists t', det', ts'. rewrite (bind_ret _ _ _ _ _ E1), E. split_and!; try done; [by etrans|..].
    + intros e q H%L'. by apply L1 in H as [? _].
    + intros e k Hp' Hk Hz. destruct (decide (k = S lv)) as [->|]; [|apply N'; lia || done].
      intros H%L'%L1. by destruct H.
    + rewrite T'. by destruct ts.
    + by rewrite Len, length_alter.
Qed.
End run.

Section run2.
Context (P0 : Z) (ids : list nat) (t0 : Timer) (now : Z).
Hypothesis W0 : wf P0 [] ids t0.

(** An element in the slot of level 0 that the tick [P] reaches is due once [P + 1]
    started. *)
Lemma level0_due P det t e x :
  wf P det ids t -> (e, Wheel 0 (p8 P 0)) ∈ links t -> elems t !! e = Some x ->
  begin_ t + (P + 1) * precision_ t <= now -> tp_ x <= now.
Proof.
  intros Hw H Ex Hn. destruct (wf_placed _ _ _ _ Hw e _ H) as (y & Ey & Hy). simplify_eq. simpl in Hy.
  destruct Hy as (_ & _ & _ & _ & _ & _ & _ & HT & _). specialize (HT eq_refl).
  rewrite next_at in HT by (rewrite B_0; apply Z.mod_1_r). pose proof (wf_prec _ _ _ _ Hw) as Hp.
  pose proof (Z.div_mod (tp_ x - begin_ t) (precision_ t) ltac:(lia)).
  pose proof (Z.mod_pos_bound (tp_ x - begin_ t) (precision_ t) ltac:(lia)). nia.
Qed.

(** One iteration while no level is complete: the elements of the tick are called, those
    of the higher slots it reaches come into hand, and the wheel stands at the next
    tick. *)
Lemma run_step_ok P det lf t ts :
  wf P det ids t -> ran t0 now lf det t -> P < 2 ^ 64 - 1 -> begin_ t + (P + 1) * precision_ t <= now -> now < 2 ^ 63 ->
  ts <> [] -> no_complete t ->
  exists t' lf' det' ts', let n := nth 0 ts' 0 in
    run_step P 0 ts det t =
      Ret (t', (if n =? 256 then 1%nat else 0%nat, ts', det', if n =? 256 then 256 - p8 P 0 else 1)) /\
    n = 1 + nth 0 ts 0 /\ ts' <> [] /\ same t t' /\ wf (P + 1) det' ids t' /\ ran t0 now lf' det' t' /\ no_complete t'.
Proof.
  intros Hw Hr HP Hn Hn63 Hts Hc. pose proof (wf_point _ _ _ _ Hw) as HP0.
  destruct (Trigger_ok P0 ids t0 now W0 _ _ _ _ (Wheel 0 (p8 P 0)) Hw Hr) as (t1 & l & E1 & S1 & W1 & R1 & Hl & L1); [done| |].
  { intros e x H Ex. by eapply level0_due. }
  destruct (upgrade_ok ids t0 now P (lf ++ l) 7 0 det (alter (Z.add 1) 0%nat ts) t1)
    as (t2 & det' & ts' & E2 & S2 & W2 & R2 & L2 & N2 & T2 & Len); [done|lia|by rewrite B_0, Z.mod_1_r|done|done|].
  assert (nth 0 ts' 0 = 1 + nth 0 ts 0) as HT by (rewrite T2; by destruct ts).
  exists t2, (lf ++ l), det', ts'. cbv zeta.
  assert (ts' <> []) as Hts' by (intros ->; rewrite length_alter in Len; by destruct ts).
  assert (same t t2) as Hs by by etrans.
  split_and!; try done.
  - unfold run_step. cbv zeta. rewrite (bind_ret _ _ _ _ _ E1). rewrite (bind_ret _ _ _ _ _ E2).
    assert (nth 0 (alter (Z.add 1) 0%nat ts) 0 = nth 0 ts' 0) as -> by done.
    unfold ret. do 3 f_equal. destruct (nth 0 ts' 0 =? 256); [|done]. simpl.
    pose proof (p8_range P 0). change (additions 0) with 1. change (additions 1) with 256.
    rewrite Z.mul_1_r. unfold u64. rewrite wrap_small by (unfold fits; lia).
    destruct (Z.ltb_spec 0 (256 - p8 P 0)); simpl; lia.
  - destruct Hs as (_ & Hb & Hpr & _). apply wf_advance; [done|rewrite Hb, Hpr; lia|].
    intros e k s H Hnx. destruct (wf_placed _ _ _ _ W2 e _ H) as (x & _ & Hx). simpl in Hx.
    destruct Hx as (_ & _ & _ & _ & Hk & Hs & _ & _ & H0). destruct (next_here P k s Hs Hnx) as [Hm ->].
    destruct (decide (k = 0%nat)) as [->|Hk0]; [by apply L2, L1 in H as [_ H]|].
    apply (N2 e k); [specialize (H0 Hk0); lia|lia|done|done].
  - intros e H. apply L2, L1 in H as [H _]; [by apply (Hc e)|done].
Qed.

Lemma run_loop_ok last delta fuel : forall i det lf t ts,
  delta <= 256 -> 0 <= i <= delta -> (Z.to_nat (delta - i) <= fuel)%nat -> nth 0 ts 0 = i -> ts <> [] ->
  wf (last + i) det ids t -> ran t0 now lf det t -> last + delta < 2 ^ 63 ->
  begin_ t + (last + delta) * precision_ t <= now -> now < 2 ^ 63 -> no_complete t -> 0 <= last ->
  exists t' lf' det', run_loop fuel last delta i 0 ts det t = Ret (t', det') /\ same t t' /\
    wf (last + delta) det' ids t' /\ ran t0 now lf' det' t' /\ no_complete t'.
Proof.
  induction fuel as [|fuel IH]; intros i det lf t ts Hd Hi Hf Hts Hne Hw Hr Hlast Hnow Hn63 Hc Hl0; cbn [run_loop];
    destruct (Z.ltb_spec i delta) as [Hlt|Hge]; try lia;
    try (assert (i = delta) as -> by lia; exists t, lf, det; by split_and!).
  assert (2 ^ 63 < 2 ^ 64) by done.
  assert (u64 (last + i) = last + i) as -> by (apply wrap_small; unfold fits; lia).
  pose proof (wf_prec _ _ _ _ Hw) as Hp.
  destruct (run_step_ok (last + i) det lf t ts Hw Hr) as (t1 & lf1 & det1 & ts1 & E1 & HT & Hne1 & S1 & W1 & R1 & C1);
    try done; [lia|nia|]. rewrite (bind_ret _ _ _ _ _ E1). cbn [fst snd].
  assert (begin_ t1 + (last + delta) * precision_ t1 <= now) as Hnow1 by (destruct S1 as (_ & -> & -> & _); done).
  destruct (Z.eqb_spec (nth 0 ts1 0) 256) as [E256|E256].
  - assert (i + 1 = delta) as <- by lia. pose proof (p8_range (last + i) 0).
    assert (u64 (i + (256 - p8 (last + i) 0)) = i + (256 - p8 (last + i) 0)) as -> by (apply wrap_small; unfold fits; lia).
    exists t1, lf1, det1. split_and!; try done; [|by rewrite Z.add_assoc].
    destruct fuel; cbn [run_loop]; by replace (i + (256 - p8 (last + i) 0) <? i + 1) with false by (symmetry; apply Z.ltb_ge; lia).
  - assert (u64 (i + 1) = i + 1) as -> by (apply wrap_small; unfold fits; lia).
    destruct (IH (i + 1) det1 lf1 t1 ts1) as (t' & lf' & det' & E & S' & W' & R' & C'); try done; try lia.
    + by rewrite Z.add_assoc.
    + exists t', lf', det'. split_and!; try done. by etrans.
Qed.
End run2.

(** [dispatch_one] of an element that is due is the body of [Trigger]. *)
Lemma dispatch_one_due now t e x :
  elems t !! e = Some x -> 1 < refs x -> tp_ x <= now -> dispatch_one now e t = trigger_one e t.
Proof.
  intros Ex Hr Hd. unfold dispatch_one, trigger_one. pose proof (DecrementRef_more t e x Ex Hr) as E.
  rewrite !(bind_ret _ _ _ _ _ E). erewrite bind_ret by (apply get_ok; apply lookup_insert_eq). simpl.
  by replace (tp_ x <=? now) with true by (symmetry; apply Z.leb_le; lia).
Qed.

Section run3.
Context (P0 : Z) (ids : list nat) (t0 : Timer) (now : Z).
Hypothesis W0 : wf P0 [] ids t0.

Lemma ran_place P det lf t t' e k s x x' :
  wf P (e :: det) ids t -> ran t0 now lf (e :: det) t -> same t t' -> fired t' = fired t ->
  links t' = links t ++ [(e, Wheel k s)] -> (forall e', e' <> e -> elems t' !! e' = elems t !! e') ->
  elems t !! e = Some x -> elems t' !! e = Some x' -> cb_ x' = cb_ x -> tp_ x' = tp_ x ->
  ran t0 now lf det t'.
Proof.
  intros Hw Hr (_ & Hb & Hpr & _) Hf Hl Ho Ex Ex' Hcb Htp.
  destruct (wf_head _ _ _ _ _ Hw) as (Hnl & Hnd & _).
  assert (e ∉ lf) as Helf by (intros H; apply (ran_out _ _ _ _ _ Hr) in H as [H _]; set_solver).
  assert (forall e', queued_at t' e' <-> queued_at t e' \/ e' = e) as Hq.
  { intros e'. unfold queued_at. rewrite Hl. setoid_rewrite elem_of_app. setoid_rewrite list_elem_of_singleton. naive_solver. }
  destruct Hr as [R1 R2 R3 R4 R5 R6 R7 R8 R9]. constructor; try congruence; try done.
  - intros e' H. destruct (R5 e' H). rewrite Hq. split; [set_solver|]. intros [?| ->]; [done|set_solver].
  - intros e' y H Ey. destruct (R6 e' y H Ey) as (y' & Ey' & ? & ?). destruct (decide (e' = e)) as [->|Hn].
    + exists x'. split_and!; congruence.
    + exists y'. by rewrite Ho.
  - intros e' H. apply R7 in H. rewrite Hq. set_solver.
  - intros e' H. apply R8. rewrite Hq in H. set_solver.
Qed.

Lemma dispatch_one_ok P det lf t e :
  P = point_ t -> wf P (e :: det) ids t -> ran t0 now lf (e :: det) t ->
  begin_ t + P * precision_ t <= now -> no_complete t ->
  exists t' lf', dispatch_one now e t = Ret (t', tt) /\ same t t' /\ wf P det ids t' /\ ran t0 now lf' det t' /\ no_complete t'.
Proof.
  intros HP Hw Hr Hn Hc. destruct (wf_head _ _ _ _ _ Hw) as (Hl & Hd & x & Ex & [Ha Ht] & Hrx).
  pose proof (handles_nonneg ids e). destruct (decide (tp_ x <= now)) as [Hdue|Hlater].
  - rewrite (dispatch_one_due now t e x) by (done || lia).
    destruct (ran_fire _ _ _ _ _ _ _ _ Hw Hr) as (t' & E & S' & W' & R' & L').
    + intros y Ey. destruct (ran_hand _ _ _ _ _ _ _ t e x W0 Hr) as (y' & Ey' & _ & Htp); [set_solver|done|]. congruence || (simplify_eq; lia).
    + eapply (hand_live P0 ids t0 now W0); [done|set_solver].
    + exists t', (lf ++ [e]). split_and!; try done. intros e' H'. apply L' in H'; [|done]. by apply (Hc e').
  - unfold dispatch_one. rewrite (bind_ret _ _ _ _ _ (DecrementRef_more t e x Ex ltac:(lia))).
    erewrite bind_ret by (apply get_ok; apply lookup_insert_eq).
    replace (tp_ (with_refs x (refs x - 1)) <=? now) with false by (symmetry; apply Z.leb_gt; simpl; lia).
    set (t1 := set_elems _ t).
    destruct (Dispatch_later P (e :: det) ids t1 t e (with_refs x (refs x - 1)) true Hw) as (k & s & E & Hpl);
      try done; [by apply lookup_insert_eq|simpl; lia|]. cbv zeta in E, Hpl.
    set (x' := mkElement _ _ _ _ _) in E, Hpl. set (t' := set_elems _ (set_links _ t1)) in E.
    assert (same t t') as HS by done.
    assert (forall e', e' <> e -> elems t' !! e' = elems t !! e') as Ho by (intros; simpl; by rewrite !lookup_insert_ne).
    assert (elems t' !! e = Some x') as Ex' by apply lookup_insert_eq.
    exists t', lf. split_and!; try done.
    + eapply wf_enqueue; try done. simpl. lia.
    + by eapply ran_place.
    + intros e' H'. simpl in H'. apply elem_of_app in H' as [H'|H']; [by apply (Hc e')|]. set_solver.
Qed.

Lemma Dispatch_all_ok P l : forall lf t,
  P = point_ t -> wf P l ids t -> ran t0 now lf l t -> begin_ t + P * precision_ t <= now -> no_complete t ->
  exists t' lf', Dispatch_all now l t = Ret (t', tt) /\ same t t' /\ wf P [] ids t' /\ ran t0 now lf' [] t' /\ no_complete t'.
Proof.
  induction l as [|e l IH]; intros lf t HP Hw Hr Hn Hc; unfold Dispatch_all; simpl.
  { exists t, lf. by split_and!. }
  destruct (dispatch_one_ok P l lf t e HP Hw Hr Hn Hc) as (t1 & lf1 & E1 & S1 & W1 & R1 & C1).
  pose proof S1 as (_ & Hb & Hpr & Hpt & _).
  destruct (IH lf1 t1) as (t' & lf' & E & S' & W' & R' & C'); try done; [congruence|by rewrite Hb, Hpr|].
  exists t', lf'. rewrite (bind_ret _ _ _ _ _ E1). split_and!; try done. by etrans.
Qed.
End run3.

(** ** [RunOnce]

    [lag t now] is the number of ticks since the last run. *)
Definition lag (t : Timer) (now : Z) : Z := dest_of t now - point_ t.

Lemma dest_of_spec t now :
  0 < precision_ t -> 0 <= begin_ t <= now -> now < 2 ^ 63 ->
  dest_of t now = (now - begin_ t) / precision_ t /\
  begin_ t + dest_of t now * precision_ t <= now < begin_ t + (dest_of t now + 1) * precision_ t.
Proof.
  intros Hp Hb Hn. unfold dest_of. rewrite Z.quot_div_nonneg by lia.
  pose proof (Z.div_mod (now - begin_ t) (precision_ t) ltac:(lia)).
  pose proof (Z.mod_pos_bound (now - begin_ t) (precision_ t) ltac:(lia)).
  assert (0 <= (now - begin_ t) / precision_ t) by (apply Z.div_pos; lia).
  assert (u64 ((now - begin_ t) / precision_ t) = (now - begin_ t) / precision_ t) as ->.
  { apply wrap_small. unfold fits. assert (2 ^ 63 < 2 ^ 64) by done. nia. }
  split; [done|]. nia.
Qed.

Lemma wf_set_point P det ids t p : wf P det ids t -> wf P det ids (set_point p t).
Proof. by intros []. Qed.
Lemma ran_set_point t0 now lf det t p : ran t0 now lf det t -> ran t0 now lf det (set_point p t).
Proof. by intros []. Qed.

(** [RunOnce] on a good state, at most 256 ticks after the last run. *)
Lemma RunOnce_ok ids t now :
  wf (point_ t) [] ids t -> begin_ t + point_ t * precision_ t <= now -> now < 2 ^ 63 -> lag t now <= 256 ->
  exists t' lf, RunOnce now t = Ret (t', tt) /\ wf (point_ t') [] ids t' /\ ran t now lf [] t' /\
    point_ t' = dest_of t now /\ maxPoolSize_ t' = maxPoolSize_ t /\ no_complete t'.
Proof.
  intros Hw Hclk Hn63 Hlag. pose proof (wf_prec _ _ _ _ Hw) as Hp. pose proof (wf_begin _ _ _ _ Hw) as Hb.
  pose proof (wf_point _ _ _ _ Hw) as HP.
  destruct (dest_of_spec t now Hp) as (Hdest & Hd1 & Hd2); [nia|done|].
  assert (point_ t <= dest_of t now) as Hle by nia.
  destruct (Trigger_ok (point_ t) ids t now Hw (point_ t) [] [] t Complete Hw (ran_refl t now)) as (t1 & l & E1 & S1 & W1 & R1 & _ & L1); [done| |].
  { intros e x H Ex. destruct (wf_placed _ _ _ _ Hw e _ H) as (y & Ey & _ & _ & Hy). simplify_eq. lia. }
  pose proof S1 as (Hm1 & Hb1 & Hp1 & Hpt1 & _).
  assert (dest_of t1 now = dest_of t now) as Ed by (unfold dest_of; by rewrite Hb1, Hp1).
  assert (no_complete t1) as C1 by (intros e H; apply L1 in H as [_ H]; done).
  unfold RunOnce. rewrite (bind_ret _ _ _ _ _ E1). rewrite (bind_ret _ _ t1 t1 t1) by done.
  cbv zeta. rewrite Ed, Hpt1. destruct (Z.leb_spec (dest_of t now) (point_ t)) as [Hno|Hgo].
  { exists t1, ([] ++ l). split_and!; try done; [by rewrite Hpt1|lia]. }
  set (t2 := set_point (dest_of t now) t1). rewrite (bind_ret _ _ t1 t2 tt) by done.
  unfold lag in Hlag.
  destruct (run_loop_ok (point_ t) ids t now Hw (point_ t) (dest_of t now - point_ t) (Z.to_nat (dest_of t now - point_ t))
      0 [] ([] ++ l) t2 (replicate 8 0)) as (t3 & lf3 & det3 & E3 & S3 & W3 & R3 & C3); try done; try lia.
  { rewrite Z.add_0_r. by apply wf_set_point. }
  { by apply ran_set_point. }
  { simpl. rewrite Hb1, Hp1. replace (point_ t + (dest_of t now - point_ t)) with (dest_of t now) by lia. lia. }
  rewrite (bind_ret _ _ _ _ _ E3). replace (point_ t + (dest_of t now - point_ t)) with (dest_of t now) in W3 by lia.
  pose proof S3 as (Hm3 & Hb3 & Hp3 & Hpt3 & _). simpl in Hm3, Hb3, Hp3, Hpt3.
  destruct (Dispatch_all_ok (point_ t) ids t now Hw (dest_of t now) det3 lf3 t3) as (t4 & lf4 & E4 & S4 & W4 & R4 & C4);
    try done; [rewrite Hb3, Hp3, Hb1, Hp1; lia|].
  destruct S4 as (Hm4 & _ & _ & Hpt4 & _).
  exists t4, lf4. split_and!; try done; [by rewrite Hpt4, Hpt3|by rewrite Hpt4|congruence].
Qed.

(** ** The other operations *)

Lemma wf_links_nodup P ids t : wf P [] ids t -> NoDup (links t).*1.
Proof. intros Hw. pose proof (wf_nodup _ _ _ _ Hw) as H. by rewrite app_nil_r in H. Qed.

(** The changes of one element [e], the rest of the timer untouched. *)
Definition only (e : nat) (t t' : Timer) : Prop :=
  begin_ t' = begin_ t /\ precision_ t' = precision_ t /\ point_ t' = point_ t /\ fired t' = fired t /\
  (forall e', e' <> e -> elems t' !! e' = elems t !! e') /\
  (forall e' p, e' <> e -> (e', p) ∈ links t' <-> (e', p) ∈ links t).

Lemma only_trans e t1 t2 t3 : only e t1 t2 -> only e t2 t3 -> only e t1 t3.
Proof.
  intros (? & ? & ? & ? & He1 & L1) (? & ? & ? & ? & He2 & L2). split_and!; try congruence.
  - intros. rewrite He2, He1; done.
  - intros. rewrite L2, L1; done.
Qed.

Lemma only_set e t x : only e t (set_elems (<[e := x]> (elems t)) t).
Proof. split_and!; try done. intros. simpl. by rewrite lookup_insert_ne. Qed.
Lemma only_snoc e t p : only e t (set_links (links t ++ [(e, p)]) t).
Proof. split_and!; try done. intros. simpl. rewrite elem_of_app, list_elem_of_singleton. naive_solver. Qed.
Lemma only_unlink e t : only e t (set_links (filter (fun x => x.1 <> e) (links t)) t).
Proof. split_and!; try done. intros. simpl. rewrite list_elem_of_filter. naive_solver. Qed.
#[local] Hint Resolve only_set only_snoc only_unlink : timer.

Lemma links_only e t t' e' : only e t t' -> e' <> e -> e' ∈ (links t').*1 <-> e' ∈ (links t).*1.
Proof. intros (_ & _ & _ & _ & _ & L) Hn. rewrite !fst_elem. setoid_rewrite L; done. Qed.

(** Releasing the last reference changes that element only. *)
Lemma DecrementRef_last_only t e x :
  elems t !! e = Some x -> refs x = 1 -> e ∉ (links t).*1 ->
  exists t', DecrementRef e t = Ret (t', tt) /\ same t t' /\ only e t t' /\
    ((elems t' !! e = None /\ links t' = links t) \/
     (exists y, elems t' !! e = Some y /\ refs y = 2 /\ links t' = links t ++ [(e, Pool)])).
Proof.
  intros E Hr Hl. destruct (DecrementRef_last t e x E Hr Hl) as (t' & Ed & Hs & Hf & Hc).
  exists t'. split_and!; try done; [|destruct Hc as [[-> ->]|[-> ->]]; [left|right]].
  - destruct Hs as (_ & ? & ? & ? & _). split_and!; try done.
    + intros e' Hn. destruct Hc as [[-> _]|[-> _]]; [by rewrite lookup_delete_ne|by rewrite lookup_insert_ne].
    + intros e' p Hn. destruct Hc as [[_ ->]|[_ ->]]; [done|]. rewrite elem_of_app, list_elem_of_singleton. naive_solver.
  - by rewrite lookup_delete_eq.
  - eexists. rewrite lookup_insert_eq. by split_and!.
Qed.

(** [NewElement]: an unlinked element with the one reference of its creation. *)
Lemma NewElement_ok P ids t :
  wf P [] ids t ->
  exists e t' x, NewElement t = Ret (t', e) /\ only e t t' /\ (fresh_elem t <= fresh_elem t')%nat /\ (e < fresh_elem t')%nat /\
    e ∉ (links t').*1 /\ NoDup (links t').*1 /\ e ∉ ids /\ elems t' !! e = Some x /\ refs x = 1 /\ ~ queued_at t e.
Proof.
  intros Hw. pose proof (wf_links_nodup _ _ _ Hw) as Hnd. unfold NewElement, pool_pop.
  destruct (queue Pool t) as [|e q] eqn:Eq.
  - rewrite (bind_ret _ _ t t None) by (unfold bind, gets; simpl; by rewrite Eq).
    assert (elems t !! fresh_elem t = None) as En.
    { destruct (elems t !! fresh_elem t) as [x|] eqn:E; [|done]. destruct (wf_refs _ _ _ _ Hw _ _ E) as (_ & _ & ?). lia. }
    assert (fresh_elem t ∉ (links t).*1) as Hl.
    { intros [p H]%fst_elem. destruct (wf_placed _ _ _ _ Hw _ _ H) as (x & E & _). congruence. }
    exists (fresh_elem t). eexists _, _. split; [reflexivity|]. simpl.
    split_and!; try done; try lia; try (by rewrite lookup_insert_eq); try done.
    + split_and!; try done. intros. simpl. by rewrite lookup_insert_ne.
    + intros [? E]%(wf_ids _ _ _ _ Hw). congruence.
    + intros (p & _ & H). apply Hl, fst_elem. eauto.
  - assert (e ∈ queue Pool t) as Hq by (rewrite Eq; by left). rewrite queue_links in Hq.
    destruct (wf_placed _ _ _ _ Hw _ _ Hq) as (x & Ex & Hr). simpl in Hr.
    destruct (wf_refs _ _ _ _ Hw _ _ Ex) as (Hr2 & _ & Hf). rewrite app_nil_r, queued_in in Hr2 by (apply fst_elem; eauto).
    set (t1 := set_links (filter (fun x => x.1 <> e) (links t)) t).
    exists e. eexists (set_elems (<[e := with_refs x (refs x - 1)]> (elems t)) t1), (with_refs x (refs x - 1)).
    split_and!.
    + rewrite (bind_ret _ _ t (set_elems (<[e := with_refs x (refs x - 1)]> (elems t1)) t1) (Some e)); [done|].
      rewrite (bind_ret _ _ t t (e :: q)) by (unfold gets; by rewrite Eq). rewrite (bind_ret _ _ t t1 tt) by done.
      by rewrite (bind_ret _ _ _ _ _ (DecrementRef_more t1 e x Ex ltac:(lia))).
    + eapply only_trans; [apply only_unlink|]. apply (only_set e t1).
    + done.
    + done.
    + apply links_filter_elem.
    + by apply links_filter_nodup.
    + apply handles_zero. lia.
    + simpl. by rewrite lookup_insert_eq.
    + simpl. lia.
    + intros (p & Hp & H). apply Hp. symmetry. by eapply (links_unique _ _ _ _ _ Pool p Hw).
Qed.

Lemma handles_cons_same e ids : handles (e :: ids) e = 1 + handles ids e.
Proof. unfold handles. rewrite count_cons, Nat.eqb_refl. lia. Qed.
Lemma handles_cons_other e e' ids : e' <> e -> handles (e :: ids) e' = handles ids e'.
Proof. intros Hn. unfold handles. rewrite count_cons. by destruct (Nat.eqb_spec e' e). Qed.

(** An element that [StartTimer] prepared: the reference of the wheel-to-be and the
    handle's. *)
Lemma wf_acquire P ids t t' e x :
  wf P [] ids t -> only e t t' -> (fresh_elem t <= fresh_elem t')%nat -> (e < fresh_elem t')%nat ->
  e ∉ (links t').*1 -> NoDup (links t').*1 -> e ∉ ids -> elems t' !! e = Some x -> refs x = 2 -> timed x ->
  wf P [e] ids t'.
Proof.
  intros Hw Ho Hf1 Hf2 Hl Hn Hi Ex Hr Ht. pose proof Ho as (Hb & Hp & _ & _ & He & HL).
  eapply wf_update with (e := e); try done.
  - intros e' Hn'. split; [by apply He|done].
  - apply NoDup_app. split_and!; [done|set_solver|apply NoDup_singleton].
  - intros e' p Hn'. by apply HL.
  - intros e' Hn'. rewrite !elem_of_app, (links_only e t t') by done. set_solver.
  - intros p H. destruct Hl. apply fst_elem. eauto.
  - intros _. by exists x.
  - rewrite Ex, queued_in by (apply elem_of_app; right; set_solver). apply handles_zero in Hi. split; lia.
Qed.

(** [StartTimer]: a fresh or pooled element is queued with its callback and time. *)
Lemma StartTimer_ok ids t tp cb :
  wf (point_ t) [] ids t -> tp < 2 ^ 63 ->
  exists e t' x, StartTimer tp cb t = Ret (t', Some e) /\ wf (point_ t') [] (e :: ids) t' /\ only e t t' /\
    e ∉ ids /\ ~ queued_at t e /\ queued_at t' e /\ elems t' !! e = Some x /\ cb_ x = cb /\ tp_ x = tp.
Proof.
  intros Hw Htp. destruct (NewElement_ok _ _ _ Hw) as (e & t1 & x1 & E1 & O1 & F1 & F2 & L1 & N1 & I1 & X1 & R1 & Q1).
  exists e. unfold StartTimer. rewrite (bind_ret _ _ _ _ _ E1).
  set (x2 := mkElement cb false tp None (refs x1)). set (t2 := set_elems (<[e := x2]> (elems t1)) t1).
  rewrite (bind_ret _ _ t1 t2 tt) by (unfold Element_init; by rewrite (bind_ret _ _ _ _ _ (get_ok t1 e x1 X1))).
  set (x3 := with_refs x2 (refs x2 + 1)). set (t3 := set_elems (<[e := x3]> (elems t2)) t2).
  assert (elems t2 !! e = Some x2) as X2 by apply lookup_insert_eq.
  rewrite (bind_ret _ _ _ _ _ (IncrementRef_ok t2 e x2 X2)). fold x3 t3.
  assert (elems t3 !! e = Some x3) as X3 by apply lookup_insert_eq.
  assert (only e t t3) as O3 by (eapply only_trans; [exact O1|eapply only_trans; [apply (only_set e t1 x2)|apply (only_set e t2 x3)]]).
  assert (wf (point_ t) [e] ids t3) as W3 by (eapply wf_acquire; try done; simpl; lia).
  pose proof O3 as (Hb & Hp & Hpt & Hfi & _).
  assert (time_of t3 (point_ t3) = begin_ t3 + point_ t3 * precision_ t3) as Ht.
  { apply time_of_small; rewrite ?Hb, ?Hp, ?Hpt; by destruct Hw. }
  assert (forall e', e' <> e -> handles (e :: ids) e' = handles ids e') as Hh by (intros; by apply handles_cons_other).
  assert (handles (e :: ids) e = 1) as Hh1 by (rewrite handles_cons_same; apply handles_zero in I1; lia).
  destruct (Z.leb_spec tp (begin_ t3 + point_ t3 * precision_ t3)) as [Hdue|Hlater].
  - set (t4 := set_elems (<[e := with_refs x3 (refs x3 + 1)]> (elems t3)) (set_links (links t3 ++ [(e, Complete)]) t3)).
    assert (Dispatch e false t3 = Ret (t4, tt)) as ED.
    { unfold Dispatch. rewrite (bind_ret _ _ t3 t3 t3) by done. rewrite (bind_ret _ _ t3 t3 x3) by by apply get_ok. cbv zeta.
      rewrite Ht. replace (tp_ x3 <=? begin_ t3 + point_ t3 * precision_ t3) with true by (symmetry; by apply Z.leb_le).
      by apply push_ok. }
    exists t4, (with_refs x3 (refs x3 + 1)). rewrite (bind_ret _ _ _ _ _ ED).
    assert (elems t4 !! e = Some (with_refs x3 (refs x3 + 1))) as X4 by apply lookup_insert_eq.
    split_and!; try done.
    + assert (point_ t4 = point_ t) as -> by done. eapply (wf_enqueue _ _ ids (e :: ids) t3 t4 e Complete); try done.
      * intros. simpl. by rewrite !lookup_insert_ne.
      * split_and!; [done|done|]. rewrite <- Hpt. simpl. exact Hdue.
      * rewrite Hh1. simpl. lia.
    + eapply only_trans; [exact O3|]. eapply only_trans; [apply (only_snoc e t3 Complete)|]. apply (only_set e (set_links (links t3 ++ [(e, Complete)]) t3)).
    + exists Complete. split; [done|]. simpl. apply elem_of_app. right. set_solver.
  - destruct (Dispatch_later (point_ t) [e] ids t3 t3 e x3 false W3) as (k & s & ED & Hpl); try done; [by rewrite <- Hpt|].
    cbv zeta in ED, Hpl. rewrite (bind_ret _ _ _ _ _ ED). set (t4 := set_elems _ _). eexists t4, _.
    assert (elems t4 !! e = Some (mkElement (cb_ x3) (active_ x3) (tp_ x3) (Some (k, s)) (refs x3 + 1))) as X4 by apply lookup_insert_eq.
    split_and!; try exact X4; try done.
    + assert (point_ t4 = point_ t) as -> by done. eapply (wf_enqueue _ _ ids (e :: ids) t3 t4 e (Wheel k s)); try done.
      * intros. simpl. by rewrite !lookup_insert_ne.
      * rewrite Hh1. simpl. lia.
    + eapply only_trans; [exact O3|]. eapply only_trans; [apply (only_snoc e t3 (Wheel k s))|]. apply (only_set e (set_links (links t3 ++ [(e, Wheel k s)]) t3)).
    + exists (Wheel k s). split; [done|]. simpl. apply elem_of_app. right. set_solver.
Qed.

Lemma handles_split_same e i1 i2 : handles (i1 ++ e :: i2) e = 1 + handles (i1 ++ i2) e.
Proof. unfold handles. rewrite !count_app, count_cons, Nat.eqb_refl. lia. Qed.
Lemma handles_split_other e i1 i2 e' : e' <> e -> handles (i1 ++ i2) e' = handles (i1 ++ e :: i2) e'.
Proof. intros Hn. unfold handles. rewrite !count_app, count_cons. by destruct (Nat.eqb_spec e' e). Qed.

Lemma wf_unlink P ids t e p x :
  wf P [] ids t -> (e, p) ∈ links t -> elems t !! e = Some x -> timed x ->
  wf P [e] ids (set_links (filter (fun y => y.1 <> e) (links t)) t).
Proof.
  intros Hw Hl Ex Ht. set (t' := set_links _ t). assert (only e t t') as Ho by apply only_unlink.
  destruct (wf_refs _ _ _ _ Hw e x Ex) as (Hr & _ & Hf). rewrite app_nil_r, queued_in in Hr by (apply fst_elem; eauto).
  eapply wf_update with (e := e); try done.
  - apply NoDup_app. split_and!; [by eapply links_filter_nodup, wf_links_nodup| |apply NoDup_singleton].
    intros e' H ->%list_elem_of_singleton. by apply links_filter_elem in H.
  - intros e' q Hn. by apply Ho.
  - intros e' Hn. rewrite !elem_of_app, (links_only e t t') by done. clear -Hn. set_solver.
  - intros q H. destruct (links_filter_elem (links t) e). apply fst_elem. eauto.
  - intros _. by exists x.
  - simpl. rewrite Ex, queued_in by (apply elem_of_app; right; by left). pose proof (handles_nonneg ids e). split; lia.
Qed.

Lemma only_handles e t t' : only e t t' -> begin_ t' = begin_ t /\ precision_ t' = precision_ t /\ point_ t' = point_ t.
Proof. intros (? & ? & ? & _). done. Qed.

(** [StopTimer] of a timer that is waiting on the wheel. *)
Lemma StopTimer_ok i1 i2 t e k s :
  wf (point_ t) [] (i1 ++ e :: i2) t -> (e, Wheel k s) ∈ links t ->
  exists t', StopTimer (Some e) t = Ret (t', true) /\ wf (point_ t') [] (i1 ++ i2) t' /\ only e t t' /\ ~ queued_at t' e.
Proof.
  intros Hw Hl. destruct (wf_placed _ _ _ _ Hw _ _ Hl) as (x & Ex & Ha & Ht & _ & Hs & _).
  destruct (wf_refs _ _ _ _ Hw e x Ex) as (Hr & _ & Hf).
  rewrite app_nil_r, queued_in, handles_split_same in Hr by (apply fst_elem; eauto).
  pose proof (handles_nonneg (i1 ++ i2) e) as Hh. set (h := handles (i1 ++ i2) e) in *.
  set (x1 := mkElement (cb_ x) true (tp_ x) (Some (k, s)) (refs x)). set (t1 := set_elems (<[e := x1]> (elems t)) t).
  set (t2 := set_links (filter (fun y => y.1 <> e) (links t1)) t1).
  assert (elems t2 !! e = Some x1) as X2 by apply lookup_insert_eq.
  set (t3 := set_elems (<[e := with_refs x1 (refs x1 - 1)]> (elems t2)) t2).
  assert (elems t3 !! e = Some (with_refs x1 (refs x1 - 1))) as X3 by apply lookup_insert_eq.
  set (x4 := with_refs x1 (refs x1 - 1 - 1)). set (t4 := set_elems (<[e := x4]> (elems t3)) t3).
  assert (elems t4 !! e = Some x4) as X4 by apply lookup_insert_eq.
  assert (Element_cancel e t = Ret (t4, true)) as EC.
  { unfold Element_cancel. rewrite (bind_ret _ _ _ _ _ (get_ok t e x Ex)), Ha, Hs.
    rewrite (bind_ret _ _ t t1 tt) by done.
    rewrite (bind_ret _ _ t1 t3 tt).
    - by rewrite (bind_ret _ _ _ _ _ (DecrementRef_more t3 e _ X3 ltac:(simpl; lia))).
    - unfold erase. rewrite (bind_ret _ _ t1 t1 (queue (Wheel k s) t1)) by done.
      rewrite bool_decide_eq_true_2 by by apply queue_links. rewrite (bind_ret _ _ t1 t2 tt) by done.
      apply (DecrementRef_more t2 e x1 X2). simpl. lia. }
  unfold StopTimer. rewrite (bind_ret _ _ _ _ _ EC).
  assert (only e t t4) as O4.
  { eapply only_trans; [apply (only_set e t x1)|]. eapply only_trans; [apply (only_unlink e t1)|].
    eapply only_trans; [apply (only_set e t2)|apply (only_set e t3)]. }
  assert (e ∉ (links t4).*1) as L4 by apply links_filter_elem.
  pose proof (wf_unlink _ _ _ _ _ _ Hw Hl Ex (conj Ha Ht)) as W1.
  assert (forall t', same t4 t' -> only e t4 t' ->
    ((links t' = links t4 /\ match elems t' !! e with Some y => refs y = h /\ 0 < refs y | None => h = 0 end) \/
     (links t' = links t4 ++ [(e, Pool)] /\ exists y, elems t' !! e = Some y /\ refs y = 2 /\ h = 0)) ->
    wf (point_ t') [] (i1 ++ i2) t' /\ only e t t' /\ ~ queued_at t' e) as Hfin.
  { intros t' S' O' Hc. assert (only e t t') as Ot by (eapply only_trans; [exact O4|exact O']).
    destruct (only_handles _ _ _ Ot) as (_ & _ & ->). split_and!; [|done|].
    - eapply wf_retire; [exact W1|by transitivity t4| | |exact Hc].
      + intros e' Hn. destruct Ot as (_ & _ & _ & _ & He & _). by apply He.
      + intros e' Hn. by apply handles_split_other.
    - intros (p & Hp & H). destruct Hc as [[El _]|[El _]]; rewrite El in H; [apply L4, fst_elem; eauto|].
      apply elem_of_app in H as [H|H]; [apply L4, fst_elem; eauto|]. apply list_elem_of_singleton in H. by simplify_eq. }
  destruct (decide (h = 0)) as [Hz|Hz].
  - destruct (DecrementRef_last_only t4 e x4 X4) as (t' & E & S' & O' & Hc); [simpl; lia|done|].
    rewrite (bind_ret _ _ _ _ _ E). exists t'. split; [done|]. apply Hfin; try done.
    destruct Hc as [[En El]|(y & Ey & Hy & El)]; [left; by rewrite En|right; eauto].
  - rewrite (bind_ret _ _ _ _ _ (DecrementRef_more t4 e x4 X4 ltac:(simpl; lia))). eexists. split; [reflexivity|].
    apply Hfin; [done|apply (only_set e t4)|]. left. split; [done|]. simpl. rewrite lookup_insert_eq. simpl. lia.
Qed.

(** A handle goes out of scope: the timer itself is not touched. *)
Lemma TimerId_destroy_ok i1 i2 t e :
  wf (point_ t) [] (i1 ++ e :: i2) t ->
  exists t', TimerId_destroy (Some e) t = Ret (t', tt) /\ wf (point_ t') [] (i1 ++ i2) t' /\ only e t t' /\
    (queued_at t' e <-> queued_at t e).
Proof.
  intros Hw. destruct (wf_ids _ _ _ _ Hw e) as [x Ex]; [set_solver|].
  destruct (wf_refs _ _ _ _ Hw e x Ex) as (Hr & Hr0 & Hf). rewrite app_nil_r, handles_split_same in Hr.
  pose proof (handles_nonneg (i1 ++ i2) e) as Hh. unfold TimerId_destroy.
  pose proof (wf_links_nodup _ _ _ Hw) as Hn.
  destruct (decide (refs x = 1)) as [H1|H1].
  - assert (e ∉ (links t).*1) as Hl by (intros Hin; rewrite queued_in in Hr by done; lia).
    rewrite queued_out in Hr by done.
    destruct (DecrementRef_last_only t e x Ex H1 Hl) as (t' & E & S' & O' & Hc).
    exists t'. pose proof O' as (Hb & Hp & Hpt & _ & He & HL). split_and!; try done.
    + rewrite Hpt. pose proof S' as (_ & _ & _ & _ & _ & Hfr). eapply wf_update with (e := e); try done; [by rewrite Hfr|by rewrite Hfr|..].
      * intros e' Hn'. split; [by apply He|by apply handles_split_other].
      * rewrite app_nil_r. destruct Hc as [[_ ->]|(y & _ & _ & ->)]; [done|]. rewrite fmap_app. apply NoDup_app.
        split_and!; [done| |apply NoDup_singleton]. intros e' H' ->%list_elem_of_singleton. done.
      * intros e' p Hn'. by apply HL.
      * intros e' Hn'. by rewrite !app_nil_r, (links_only e t t').
      * intros p H. destruct Hc as [[_ El]|(y & Ey & Hy & El)]; rewrite El in H; [destruct Hl; apply fst_elem; eauto|].
        apply elem_of_app in H as [H|H]; [destruct Hl; apply fst_elem; eauto|]. apply list_elem_of_singleton in H. simplify_eq. by exists y.
      * by intros H%elem_of_nil.
      * rewrite app_nil_r. destruct Hc as [[-> _]|(y & -> & Hy & ->)]; [lia|].
        rewrite queued_in by (rewrite fmap_app; set_solver). lia.
    + assert (~ queued_at t e) as H0 by (intros (p & _ & H); apply Hl, fst_elem; eauto).
      split; [|done]. intros (p & Hp' & H). destruct Hc as [[_ El]|(y & _ & _ & El)]; rewrite El in H; [destruct Hl; apply fst_elem; eauto|].
      apply elem_of_app in H as [H|H]; [destruct Hl; apply fst_elem; eauto|]. apply list_elem_of_singleton in H. by simplify_eq.
  - rewrite (DecrementRef_more t e x Ex) by lia. eexists. split; [reflexivity|].
    split_and!; [|apply (only_set e t)|done]. simpl. eapply wf_update with (e := e); try done.
    + intros e' Hn'. split; [simpl; by rewrite lookup_insert_ne|by apply handles_split_other].
    + by rewrite app_nil_r.
    + intros p H. destruct (wf_placed _ _ _ _ Hw e p H) as (y & Ey & Hy). simplify_eq.
      eexists. split; [apply lookup_insert_eq|]. destruct p; [done|done|]. simpl in Hy.
      rewrite queued_in in Hr by (apply fst_elem; eauto). lia.
    + by intros H%elem_of_nil.
    + simpl. rewrite lookup_insert_eq, app_nil_r. simpl. lia.
Qed.

(** One element of the reserve. *)
Lemma reserve_one P ids t :
  wf P [] ids t ->
  exists t', bind new_element (push Pool) t = Ret (t', tt) /\ wf P [] ids t' /\ begin_ t' = begin_ t /\
    precision_ t' = precision_ t /\ point_ t' = point_ t /\ maxPoolSize_ t' = maxPoolSize_ t.
Proof.
  intros Hw. set (e := fresh_elem t).
  assert (elems t !! e = None) as En.
  { destruct (elems t !! e) as [x|] eqn:E; [|done]. destruct (wf_refs _ _ _ _ Hw _ _ E) as (_ & _ & ?). lia. }
  assert (e ∉ (links t).*1) as Hl.
  { intros [p H]%fst_elem. destruct (wf_placed _ _ _ _ Hw _ _ H) as (x & E & _). congruence. }
  assert (e ∉ ids) as Hi by (intros [? E]%(wf_ids _ _ _ _ Hw); congruence).
  set (t1 := mkTimer (maxPoolSize_ t) (begin_ t) (precision_ t) (point_ t) (stop_ t) (links t)
    (<[e := mkElement 0 false 0 None 1]> (elems t)) (S e) (fired t)).
  assert (elems t1 !! e = Some (mkElement 0 false 0 None 1)) as E1 by apply lookup_insert_eq.
  eexists. split; [rewrite (bind_ret _ _ t t1 e) by done; exact (push_ok t1 Pool e _ E1 Hl)|]. split_and!; try done.
  eapply wf_update with (e := e); try done; simpl.
  - lia.
  - lia.
  - intros e' Hn. by rewrite !lookup_insert_ne.
  - rewrite app_nil_r, fmap_app. apply NoDup_app. split_and!; [by eapply wf_links_nodup| |apply NoDup_singleton].
    intros e' H ->%list_elem_of_singleton. done.
  - intros e' p Hn. rewrite elem_of_app, list_elem_of_singleton. naive_solver.
  - intros e' Hn. rewrite !app_nil_r, fmap_app. split; [|done]. clear -Hn. set_solver.
  - intros p H. apply elem_of_app in H as [H|H]; [destruct Hl; apply fst_elem; eauto|].
    apply list_elem_of_singleton in H. simplify_eq. eexists. by rewrite lookup_insert_eq.
  - by intros H%elem_of_nil.
  - rewrite lookup_insert_eq, queued_in by apply elem_snoc. apply handles_zero in Hi. simpl. lia.
Qed.

Lemma reserve_pool_ok P ids n : forall t,
  wf P [] ids t ->
  exists t', reserve_pool n t = Ret (t', tt) /\ wf P [] ids t' /\ begin_ t' = begin_ t /\ precision_ t' = precision_ t /\
    point_ t' = point_ t /\ maxPoolSize_ t' = maxPoolSize_ t.
Proof.
  induction n as [|n IH]; intros t Hw; [by exists t|].
  destruct (reserve_one P ids t Hw) as (t1 & E1 & W1 & Hb1 & Hp1 & Hpt1 & Hm1).
  destruct (IH t1 W1) as (t' & E & W & Hb & Hp & Hpt & Hm).
  exists t'. cbn [reserve_pool]. rewrite bind_assoc, (bind_ret _ _ _ _ _ E1). split_and!; congruence || done.
Qed.

Lemma SetPoolSize_ok ids t max reserve :
  wf (point_ t) [] ids t ->
  exists t', SetPoolSize max reserve t = Ret (t', tt) /\ wf (point_ t') [] ids t' /\ begin_ t' = begin_ t /\
    precision_ t' = precision_ t /\ point_ t' = point_ t.
Proof.
  intros Hw. set (t1 := set_max max t). assert (wf (point_ t) [] ids t1) as W1 by by destruct Hw.
  unfold SetPoolSize. rewrite (bind_ret _ _ t t1 tt) by done. rewrite (bind_ret _ _ t1 t1 (pool_size t1)) by done.
  destruct (reserve_pool_ok _ ids (Z.to_nat (reserve - pool_size t1)) t1 W1) as (t' & E & W & Hb & Hp & Hpt & _).
  exists t'. rewrite E. by rewrite Hpt.
Qed.

(** ** Programs of the timer's user and its trigger thread

    [timer_run t ids clock]: the timer after some calls, the live handles and the last
    time the trigger thread saw.  The trigger thread is never more than 256 ticks late, and a
    handle is stopped only while its timer waits on the wheel. *)
Inductive timer_run : Timer -> list nat -> Z -> Prop :=
| run_new now p t :
    0 <= now < 2 ^ 63 -> SetPrecision p (Timer_new now) = Ret (t, tt) -> timer_run t [] now
| run_pool t ids clock max reserve t' :
    timer_run t ids clock -> SetPoolSize max reserve t = Ret (t', tt) -> timer_run t' ids clock
| run_start t ids clock tp cb t' e :
    timer_run t ids clock -> tp < 2 ^ 63 -> StartTimer tp cb t = Ret (t', Some e) -> timer_run t' (e :: ids) clock
| run_once t ids clock now t' :
    timer_run t ids clock -> clock <= now < 2 ^ 63 -> lag t now <= 256 -> RunOnce now t = Ret (t', tt) ->
    timer_run t' ids now
| run_stop t i1 i2 clock e k s t' b :
    timer_run t (i1 ++ e :: i2) clock -> (e, Wheel k s) ∈ links t -> StopTimer (Some e) t = Ret (t', b) ->
    timer_run t' (i1 ++ i2) clock
| run_drop t i1 i2 clock e t' :
    timer_run t (i1 ++ e :: i2) clock -> TimerId_destroy (Some e) t = Ret (t', tt) -> timer_run t' (i1 ++ i2) clock.

Lemma timer_run_wf t ids clock :
  timer_run t ids clock -> wf (point_ t) [] ids t /\ begin_ t + point_ t * precision_ t <= clock /\ clock < 2 ^ 63.
Proof.
  induction 1 as [now p t Hn E|t ids clock max reserve t' _ (Hw & Hc & Hcl) E|t ids clock tp cb t' e _ (Hw & Hc & Hcl) Htp E
    |t ids clock now t' _ (Hw & Hc & Hcl) Hn Hl E|t i1 i2 clock e k s t' b _ (Hw & Hc & Hcl) Hl E|t i1 i2 clock e t' _ (Hw & Hc & Hcl) E].
  - unfold SetPrecision, modify in E. simplify_eq. split; [|simpl; lia].
    constructor; simpl; try done; try lia; try (by intros ? ?%elem_of_nil); try (by intros ? ? ?%elem_of_nil).
    + unfold microseconds, minutes. repeat case_if; zb; lia.
    + constructor.
  - destruct (SetPoolSize_ok ids t max reserve Hw) as (t1 & E1 & W1 & Hb & Hp & Hpt). rewrite E in E1. simplify_eq.
    by rewrite Hb, Hp, Hpt in *.
  - destruct (StartTimer_ok ids t tp cb Hw Htp) as (e1 & t1 & x & E1 & W1 & (Hb & Hp & Hpt & _) & _). rewrite E in E1. simplify_eq.
    split; [done|]. by rewrite Hb, Hp, Hpt.
  - destruct (RunOnce_ok ids t now Hw) as (t1 & lf & E1 & W1 & R1 & Hpt & _); [lia|lia|done|]. rewrite E in E1. simplify_eq.
    split; [done|]. destruct R1 as [Hb Hp _ _ _ _ _ _ _]. rewrite Hb, Hp, Hpt. split; [|lia].
    pose proof (wf_prec _ _ _ _ Hw). pose proof (wf_begin _ _ _ _ Hw). pose proof (wf_point _ _ _ _ Hw).
    apply dest_of_spec; [done|nia|lia].
  - destruct (StopTimer_ok i1 i2 t e k s Hw Hl) as (t1 & E1 & W1 & (Hb & Hp & Hpt & _) & _). rewrite E in E1. simplify_eq.
    split; [done|]. by rewrite Hb, Hp, Hpt.
  - destruct (TimerId_destroy_ok i1 i2 t e Hw) as (t1 & E1 & W1 & (Hb & Hp & Hpt & _) & _). rewrite E in E1. simplify_eq.
    split; [done|]. by rewrite Hb, Hp, Hpt.
Qed.


(** Two timers, one of them due at the second run. *)
Definition after {A} (m : M A) (t : Timer) : Timer := match m t with Ret (t', _) => t' | _ => t end.
Definition s0 : Timer := after (SetPrecision 100000) (Timer_new 0).
Definition s1 : Timer := after (StartTimer (250 * 100000) 1) s0.
Definition s2 : Timer := after (StartTimer (1000 * 100000) 2) s1.
Definition s3 : Timer := after (RunOnce (200 * 100000)) s2.




(** Starting a timer queues exactly that one; stopping a timer that waits on the wheel
    answers [true] and takes it, and nothing else, off its queue, so no later run calls it. *)
Theorem timer_start_stop t ids clock tp cb :
  timer_run t ids clock -> tp < 2 ^ 63 ->
  exists e t1, StartTimer tp cb t = Ret (t1, Some e) /\ ~ queued_at t e /\
    (forall e', queued_at t1 e' <-> queued_at t e' \/ e' = e) /\
    (forall k s, (e, Wheel k s) ∈ links t1 ->
       exists t2, StopTimer (Some e) t1 = Ret (t2, true) /\ fired t2 = fired t /\
         forall e', queued_at t2 e' <-> queued_at t e').
Proof.
  intros (Hw & _)%timer_run_wf Htp.
  destruct (StartTimer_ok ids t tp cb Hw Htp) as (e & t1 & x & E1 & W1 & O1 & Hi & Hq & Hq1 & _).
  assert (forall ta tb, only e ta tb -> forall e', e' <> e -> queued_at tb e' <-> queued_at ta e') as Hoq.
  { intros ta tb (_ & _ & _ & _ & _ & HL) e' Hn. unfold queued_at. split; intros (p & ? & ?); exists p; split; try done; by apply HL. }
  exists e, t1. split_and!; try done.
  - intros e'. destruct (decide (e' = e)) as [->|Hn]; [tauto|]. rewrite (Hoq t t1) by done. tauto.
  - intros k s Hl. destruct (StopTimer_ok [] ids t1 e k s W1 Hl) as (t2 & E2 & W2 & O2 & Hq2).
    exists t2. split_and!; try done.
    + destruct O1 as (_ & _ & _ & <- & _), O2 as (_ & _ & _ & <- & _). done.
    + intros e'. destruct (decide (e' = e)) as [->|Hn]; [tauto|]. by rewrite (Hoq t1 t2), (Hoq t t1).
Qed.

Lemma timer_start_stop_witness :
  timer_run s0 [] 0 /\ exists e t1 t2, StartTimer (1000 * 100000) 7 s0 = Ret (t1, Some e) /\ StopTimer (Some e) t1 = Ret (t2, true).
Proof.
  assert (timer_run s0 [] 0) as R0 by (eapply (run_new 0 100000); [lia|reflexivity]).
  split; [exact R0|].
  destruct (timer_start_stop s0 [] 0 (1000 * 100000) 7 R0) as (e & t1 & E & _ & _ & H); [lia|].
  exists e, t1. pose proof E as E'. vm_compute in E'. injection E' as <- <-.
  destruct (H 1%nat 3) as (t2 & E2 & _); [vm_compute; by repeat constructor|]. exists t2. split; [exact E|exact E2].
Defined.

(** When the trigger thread is 257 ticks late, [RunOnce] has finished level 0 and
    triggers a whole slot of level 1: a timer for tick 400 is called at tick 257. *)
Theorem timer_early_fire :
  let m := StartTimer (400 * 100000) 1 ;;; RunOnce (257 * 100000) in
  lag (after (StartTimer (400 * 100000) 1) (Timer_new 0)) (257 * 100000) = 257 /\
  exists t, m (Timer_new 0) = Ret (t, tt) /\ fired t = [(0%nat, 1%nat)].
Proof. split; [reflexivity|]. eexists. split; [vm_compute; reflexivity|reflexivity]. Qed.

(** C29: [StopTimer] of a timer that was already called gives back the wheel's reference a
    second time: the element is deleted while the handle still refers to it, and the
    handle's release then touches freed memory. *)
Theorem timer_stop_after_fire :
  (let* a := StartTimer (10 * 100000) 1 in RunOnce (11 * 100000) ;;; StopTimer a) (Timer_new 0) = AssertFail /\
  (exists t, (let* a := StartTimer (10 * 100000) 1 in RunOnce (11 * 100000)) (Timer_new 0) = Ret (t, tt)).
Proof. split; [vm_compute; reflexivity|]. eexists. vm_compute. reflexivity. Qed.

(** C32: [NextTrigger(max)] promises the next check within [max], but a timer in a slot of
    level 0 that lies behind the current one makes it answer with a time after [now + max]:
    asked for at most 12 ticks from tick 250, it answers with the start of tick 499. *)
Theorem next_trigger_exceeds_max :
  let m := StartTimer (249 * 100000 + 250 * 100000) 1 in
  let t := after m (after (RunOnce (250 * 100000)) (Timer_new 0)) in
  let now := 250 * 100000 in let max := 12 * 100000 in
  now + max < NextTrigger t now max.
Proof. vm_compute. reflexivity. Qed.
