(* ===== verification/TimerRace.v ===== *)
(** [Timer] of [src/common/inc/Timer.h] while its thread runs: [StartTimer] of any number of callers and
    the ends of their [TimerId]s, interleaved with the rounds of [RunOnce].

    The operations are those of [TimerWheel.v], taken apart where another thread can come between:
    the trigger thread empties one slot at a time and calls one timer at a time; a caller reads
    [point_], and then looks at it again under the lock of the slot, where it links the element or
    begins again.  The look and the link are one step: what comes between them concerns other
    slots, and the slot is locked. *)
From S2P Require Import Prelude Links TimerWheel.
Local Open Scope Z_scope.

(** A caller: before the call, before it reads [point_], after it, holding the [TimerId], without. *)
Inductive caller := CStart (tp : Z) | CLoad (e : nat) | CPlace (e : nat) (last : Z) | CHold (e : nat) | CEnd.

(** The variables of the loop of [RunOnce]. *)
Record loop := mkLoop { now : Z; last : Z; delta : Z; i : Z; level : nat; triggerSlots : list Z; dispatchers : list nat }.
(** The thread: between rounds; in [Trigger] with the elements left, before it reads the clock or in
    an iteration; before the clock is read; at the head of the loop; in the upgrade, having come to
    [slotIdx] of [lv]; in the final [Dispatch]. *)
Inductive trigger :=
| Idle | Complete_ (l : list nat) | Clock | Loop (p : loop) | Slot (p : loop) (l : list nat)
| Upgrade (p : loop) (lv : nat) (slotIdx : Z) | Final (now : Z) (l : list nat).
Record world := mkWorld { tm : Timer; thread : trigger; callers : list caller }.

Definition pos (p : loop) : Z := u64 (last p + i p).
Definition with_dispatchers (l : list nat) (ts : list Z) (p : loop) : loop := mkLoop (now p) (last p) (delta p) (i p) (level p) ts l.
(** The end of an iteration: the step. *)
Definition next_iteration (p : loop) : loop :=
  let triggerLevel := level p in
  let add := additions triggerLevel in
  let levelupSteps := u64 ((256 - p8 (pos p) (triggerLevel - 1)) * additions (triggerLevel - 1)) in
  let add := if ((0 <? triggerLevel)%nat && (0 <? levelupSteps))%bool then Z.min levelupSteps add else add in
  mkLoop (now p) (last p) (delta p) (u64 (i p + add)) (level p) (triggerSlots p) (dispatchers p).

Definition run {A B} (m : M A) (t : Timer) (k : Timer -> A -> B) : res B := '(t, a) ← m t; Ret (k t a).
(** The next step of the thread; [clock]: what the clock reads, if it is read. *)
Definition thread_step (clock : Z) (w : world) : res world :=
  let t := tm w in
  let go t q := mkWorld t q (callers w) in
  match thread w with
  | Idle => run (pop_all Complete) t (fun t l => go t (Complete_ l))
  | Complete_ (e :: l) => run (trigger_one e) t (fun t _ => go t (Complete_ l))
  | Complete_ [] => Ret (go t Clock)
  | Clock =>
      let dest := dest_of t clock in
      if dest <=? point_ t then Ret (go t Idle)
      else Ret (go (set_point dest t) (Loop (mkLoop clock (point_ t) (dest - point_ t) 0 0 (replicate 8 0) [])))
  | Loop p =>
      if i p <? delta p then run (pop_all (Wheel (level p) (p8 (pos p) (level p)))) t (fun t l => go t (Slot p l))
      else Ret (go t (Final (now p) (dispatchers p)))
  | Slot p (e :: l) => run (trigger_one e) t (fun t _ => go t (Slot p l))
  | Slot p [] =>
      let lv := level p in
      let ts := alter (Z.add 1) lv (triggerSlots p) in
      let triggerLevel := if nth lv ts 0 =? 256 then S lv else lv in
      Ret (go t (Upgrade (mkLoop (now p) (last p) (delta p) (i p) triggerLevel ts (dispatchers p)) lv (p8 (pos p) lv)))
  | Upgrade p lv slotIdx =>
      if ((0 <? pos p) && (slotIdx =? 0))%bool then
        if (lv <? 7)%nat then
          let slotIdx := p8 (pos p) (S lv) in
          run (pop_all (Wheel (S lv) slotIdx)) t (fun t l =>
            go t (Upgrade (with_dispatchers (dispatchers p ++ l) (alter (Z.add 1) (S lv) (triggerSlots p)) p) (S lv) slotIdx))
        else AssertFail
      else Ret (go t (Loop (next_iteration p)))
  | Final now (e :: l) => run (dispatch_one now e) t (fun t _ => go t (Final now l))
  | Final _ [] => Ret (go t Idle)
  end.

(** [Dispatch(element, false)] from the second look at [point_]: [false]: begin again. *)
Definition Place (e : nat) (last : Z) : M bool :=
  let* t := gets id in
  let lastTime := time_of t last in
  let* x := get e in
  if tp_ x <=? lastTime then push Complete e ;;; ret true
  else
    let durVal := u64 (tp_ x - lastTime) / precision_ t in
    let '(level, offset) := place_for durVal last in
    if negb (last =? point_ t) then ret false
    else
      push (Wheel level offset) e ;;;
      let* x := get e in
      put e (mkElement (cb_ x) (active_ x) (tp_ x) (Some (level, offset)) (refs x)) ;;; ret true.

(** The callback of the caller [c] is number [S c].  [fresh]: the pool looked empty. *)
Definition NewTimer (fresh : bool) (tp : Z) (cb : nat) : M nat :=
  let* e := (if fresh then new_element else NewElement) in
  Element_init e cb tp ;;;
  IncrementRef e ;;; ret e.
Definition caller_step (fresh : bool) (c : nat) (w : world) : res world :=
  let t := tm w in
  let go t q := mkWorld t (thread w) (<[c := q]> (callers w)) in
  match callers w !! c with
  | Some (CStart tp) => run (NewTimer fresh tp (S c)) t (fun t e => go t (CLoad e))
  | Some (CLoad e) => Ret (go t (CPlace e (point_ t)))
  | Some (CPlace e last) => run (Place e last) t (fun t b => go t (if b : bool then CHold e else CLoad e))
  | Some (CHold e) => run (TimerId_destroy (Some e)) t (fun t _ => go t CEnd)
  | Some CEnd | None => Ret w
  end.

(** The clock reads a time after the timer was made, and the thread is at most 256 ticks late. *)
Definition timely (clock : Z) (w : world) : Prop :=
  match thread w with Clock => begin_ (tm w) <= clock < 2 ^ 63 /\ dest_of (tm w) clock - point_ (tm w) <= 256 | _ => True end.
Inductive Step (w : world) : world -> Prop :=
| s_thread clock w' : timely clock w -> thread_step clock w = Ret w' -> Step w w'
| s_caller fresh c w' : caller_step fresh c w = Ret w' -> Step w w'.
(** A new timer, with its pool, and the times of the calls. *)
Definition initial (t : Timer) (times : list Z) : world := mkWorld t Idle (CStart <$> times).

(** A caller that is not disturbed does what [StartTimer] does. *)
Lemma StartTimer_steps tp cb t : StartTimer tp cb t =
  ('(t1, e) ← NewTimer false tp cb t; '(t2, b) ← Place e (point_ t1) t1; Ret (t2, Some e)).
Proof.
  unfold StartTimer, NewTimer, bind. destruct (NewElement t) as [[t0 e]| |]; [|done|done]. cbn [mbind res_bind].
  destruct (Element_init e cb tp t0) as [[t1 []]| |]; [|done|done]. cbn [mbind res_bind]. destruct (IncrementRef e t1) as [[t2 []]| |]; [|done|done].
  cbn [mbind res_bind ret]. unfold Dispatch, Place, bind, gets. cbn [mbind res_bind id negb andb].
  destruct (get e t2) as [[t3 x]| |] eqn:Eg; [|done|done]. cbn [mbind res_bind].
  destruct (tp_ x <=? time_of t2 (point_ t2)).
  - destruct (push Complete e t3) as [[t4 []]| |]; done.
  - destruct (place_for (u64 (tp_ x - time_of t2 (point_ t2)) / precision_ t2) (point_ t2)) as [lv off]. rewrite Z.eqb_refl. cbn [negb].
    destruct (push (Wheel lv off) e t3) as [[t4 []]| |]; [|done|done]. cbn [mbind res_bind]. destruct (get e t4) as [[t5 y]| |]; [|done|done]. cbn [mbind res_bind].
    destruct (put e _ t5) as [[t6 []]| |]; done.
Qed.

(** ** [Stop] and the end of [ThreadRun] *)

Module Quit.
(** [Stop]: before the store of [stop_], before the lock of [quitMtx_], waiting on [quit_], woken
    and before the lock again, returned.  [ThreadRun]: before the test of [stop_], in [RunOnce] and
    asleep, before the lock, before [notify_one], at its end. *)
Inductive stopper := SStore | SLock | SWait | SRelock | SDone.
Inductive runner := RTest | RRun | RLock | RNotify | REnd.
Record quit := mkQuit { stop_ : bool; quitMtx_ : option bool; stop_thread : stopper; run_thread : runner }.
#[export] Instance stopper_eq_dec : EqDecision stopper.
Proof. solve_decision. Defined.
#[export] Instance runner_eq_dec : EqDecision runner.
Proof. solve_decision. Defined.
#[export] Instance quit_eq_dec : EqDecision quit.
Proof. solve_decision. Defined.
(** The owner of the mutex: [true] for [Stop]. *)
Definition new : quit := mkQuit false None SStore RTest.
Definition stop_step (s : quit) : list quit :=
  let go b m q := [mkQuit b m q (run_thread s)] in
  match stop_thread s with
  | SStore => go true (quitMtx_ s) SLock
  | SLock => match quitMtx_ s with None => go (stop_ s) None SWait | Some _ => [] end
  | SRelock => match quitMtx_ s with None => go (stop_ s) None SDone | Some _ => [] end
  | SWait | SDone => []
  end.
Definition run_step (s : quit) : list quit :=
  let go m q w := [mkQuit (stop_ s) m w q] in
  match run_thread s with
  | RTest => go (quitMtx_ s) (if stop_ s then RLock else RRun) (stop_thread s)
  | RRun => go (quitMtx_ s) RTest (stop_thread s)
  | RLock => match quitMtx_ s with None => go (Some false) RNotify (stop_thread s) | Some _ => [] end
  | RNotify => go None REnd (match stop_thread s with SWait => SRelock | q => q end)
  | REnd => []
  end.
(** There is no wake-up without a notification. *)
Definition steps (s : quit) : list quit := stop_step s ++ run_step s.
End Quit.
