(* ===== verification/TimerRaceSpec.v ===== *)
(** The timer while its thread runs: whatever the interleaving, no call fails, no timer is lost or
    called twice, and a timer is called early only if it was to come after 256 ticks less the
    delay of the thread. *)
From S2P Require Import Prelude Links TimerWheel TimerRace.
Local Open Scope Z_scope.

(** ** Elements and who has them

    [det]: the elements in the hands of the thread; [hands]: those that callers are about to link;
    [ids]: those with a [TimerId]. *)

Definition held (hands : list nat) (e : nat) : Z := if bool_decide (e ∈ hands) then 1 else 0.
Definition owned (t : Timer) (det hands : list nat) : list nat := (links t).*1 ++ det ++ hands.
Record ok (det hands ids : list nat) (t : Timer) : Prop := {
  ok_nodup : NoDup (owned t det hands);
  ok_alive e : e ∈ owned t det hands \/ e ∈ ids -> is_Some (elems t !! e);
  ok_refs e x : elems t !! e = Some x ->
    active_ x = false /\ refs x = queued ((links t).*1 ++ det) e + held hands e + handles ids e /\ 0 < refs x /\ (e < fresh_elem t)%nat;
  ok_pool e : (e, Pool) ∈ links t -> e ∉ ids }.
#[export] Instance ok_proper : Proper (Permutation ==> Permutation ==> Permutation ==> eq ==> iff) ok.
Proof.
  assert (forall d d' h h' ids ids' t, d ≡ₚ d' -> h ≡ₚ h' -> ids ≡ₚ ids' -> ok d h ids t -> ok d' h' ids' t) as H.
  { intros d d' h h' ids ids' t Hd Hh Hi [Hn Ha Hr Hp].
    assert (owned t d' h' ≡ₚ owned t d h) as Ho by (unfold owned; by rewrite Hd, Hh). constructor.
    - by rewrite Ho.
    - intros e. rewrite Ho, <- Hi. apply Ha.
    - intros e x Ex. destruct (Hr e x Ex) as (? & Hrx & ? & ?). split_and!; try done. rewrite Hrx. f_equal; [f_equal|].
      + apply queued_ext. by rewrite Hd.
      + unfold held. by rewrite (bool_decide_ext _ _ (elem_of_Permutation_proper e _ _ Hh)).
      + unfold handles. f_equal. clear -Hi. induction Hi; rewrite ?count_cons; lia.
    - intros e He. rewrite <- Hi. by apply Hp. }
  intros d d' Hd h h' Hh ids ids' Hi t ? <-. split; [by apply H|by apply H].
Qed.

Lemma held_out hands e : e ∉ hands -> held hands e = 0.
Proof. intros H. unfold held. by rewrite bool_decide_eq_false_2. Qed.
Lemma held_in hands e : e ∈ hands -> held hands e = 1.
Proof. intros H. unfold held. by rewrite bool_decide_eq_true_2. Qed.
Lemma held_range hands e : 0 <= held hands e.
Proof. unfold held. by destruct (bool_decide _). Qed.
Lemma queued_nonneg o e : 0 <= queued o e.
Proof. unfold queued. by destruct (bool_decide _). Qed.
Lemma handles_cons e e' ids : handles (e :: ids) e' = (if bool_decide (e' = e) then 1 else 0) + handles ids e'.
Proof. unfold handles. rewrite count_cons. destruct (Nat.eqb_spec e' e) as [->|]; [rewrite bool_decide_eq_true_2 by done|rewrite bool_decide_eq_false_2 by done]; lia. Qed.

(** One element changes. *)
Lemma ok_update det det' hands hands' ids ids' t t' e :
  ok det hands ids t -> (fresh_elem t <= fresh_elem t')%nat -> (e < fresh_elem t')%nat ->
  (forall e', e' <> e -> elems t' !! e' = elems t !! e' /\ handles ids' e' = handles ids e') ->
  (forall e', e' <> e -> (forall p, (e', p) ∈ links t' <-> (e', p) ∈ links t) /\ (e' ∈ det' <-> e' ∈ det) /\ (e' ∈ hands' <-> e' ∈ hands)) ->
  NoDup (owned t' det' hands') ->
  match elems t' !! e with
  | Some x => active_ x = false /\ refs x = queued ((links t').*1 ++ det') e + held hands' e + handles ids' e /\ 0 < refs x
  | None => e ∉ owned t' det' hands' /\ handles ids' e = 0
  end ->
  ((e, Pool) ∈ links t' -> e ∉ ids') -> ok det' hands' ids' t'.
Proof.
  intros [Hn Ha Hr Hp] Hf He Ho Hm Hn' Hx Hpe.
  assert (forall e', e' <> e -> (e' ∈ (links t').*1 <-> e' ∈ (links t).*1)) as Hl.
  { intros e' Hne. rewrite !fst_elem. destruct (Hm e' Hne) as [H _]. by setoid_rewrite H. }
  assert (forall e', e' <> e -> (e' ∈ ids' <-> e' ∈ ids)) as Hi.
  { intros e' Hne. destruct (Ho e' Hne) as [_ E]. pose proof (handles_zero ids e'). pose proof (handles_zero ids' e'). rewrite E in *. destruct (decide (e' ∈ ids)), (decide (e' ∈ ids')); tauto. }
  constructor; [done| | |].
  - intros e' H. destruct (decide (e' = e)) as [->|Hne].
    + destruct (elems t' !! e); [done|]. destruct Hx as [Hx Hz%handles_zero]. tauto.
    + destruct (Ho e' Hne) as [-> _]. apply Ha. unfold owned in *. rewrite !elem_of_app, Hl, Hi in H by done. destruct (Hm e' Hne) as (_ & Hd & Hh).
      rewrite Hd, Hh in H. by rewrite !elem_of_app.
  - intros e' x Ex. destruct (decide (e' = e)) as [->|Hne]; [rewrite Ex in Hx; naive_solver|]. destruct (Ho e' Hne) as [E ->]. rewrite E in Ex.
    destruct (Hr e' x Ex) as (? & Hrx & ? & ?), (Hm e' Hne) as (_ & Hd & Hh). split_and!; [done| |done|lia]. rewrite Hrx. f_equal. f_equal.
    + apply queued_ext. rewrite !elem_of_app, Hl, Hd by done. done.
    + unfold held. by rewrite (bool_decide_ext _ _ Hh).
  - intros e' H. destruct (decide (e' = e)) as [->|Hne]; [auto|]. rewrite Hi by done. apply Hp. by apply Hm.
Qed.

(** ** The callbacks that are to come or have come *)

Definition cb_of (t : Timer) (e : nat) : nat := match elems t !! e with Some x => cb_ x | None => 0%nat end.
Definition pending (t : Timer) (det hands : list nat) : list nat := (without Pool (links t)).*1 ++ det ++ hands.
Definition account (t : Timer) (det hands : list nat) : list nat := map (cb_of t) (pending t det hands) ++ (fired t).*2.

Lemma filter_comm {A : Type} (Q R : A -> Prop) `{forall x, Decision (Q x), forall x, Decision (R x)} (l : list A) : filter Q (filter R l) = filter R (filter Q l).
Proof. rewrite !list_filter_filter. apply list_filter_iff. tauto. Qed.
Lemma without_comm {P : Type} `{EqDecision P} (p q : P) l : without p (without q l) = without q (without p l).
Proof. apply filter_comm. Qed.
Lemma without_snoc {P : Type} `{EqDecision P} (p q : P) e l : q <> p -> (without p (l ++ [(e, q)])).*1 = (without p l).*1 ++ [e].
Proof. intros H. unfold without. by rewrite filter_app, filter_cons_True, fmap_app. Qed.
Lemma without_snoc_same {P : Type} `{EqDecision P} (p : P) e l : without p (l ++ [(e, p)]) = without p l.
Proof. unfold without. rewrite filter_app, filter_cons_False by (simpl; tauto). by rewrite app_nil_r. Qed.
(** Accounts differ by what moved. *)
Lemma account_perm t t' det det' hands hands' :
  (forall e, e ∈ pending t det hands -> cb_of t' e = cb_of t e) -> fired t' = fired t -> pending t' det' hands' ≡ₚ pending t det hands ->
  account t' det' hands' ≡ₚ account t det hands.
Proof.
  intros Hc Hf Hp. unfold account. rewrite Hf, Hp. apply Permutation_app_tail. erewrite map_ext_in; [done|]. intros e H. by apply Hc, list_elem_of_In.
Qed.
Lemma pending_owned t det hands e : e ∈ pending t det hands -> e ∈ owned t det hands.
Proof. unfold pending, owned. rewrite !elem_of_app, !fst_elem. intros [[p H]|H]; [|by right]. left. exists p. by apply elem_without in H as [H _]. Qed.

(** ** The operations *)

Lemma empty_queue_ok p det hands ids t : p <> Pool -> ok det hands ids t ->
  exists t' q, pop_all p t = Ret (t', q) /\ same t t' /\ elems t' = elems t /\ fired t' = fired t /\ links t' = without p (links t) /\ q = queue p t /\
    ok (q ++ det) hands ids t' /\ account t' (q ++ det) hands ≡ₚ account t det hands.
Proof.
  intros Hp Hok. unfold pop_all. set (t' := set_links _ t). exists t', (queue p t).
  assert ((links t').*1 ++ queue p t ≡ₚ (links t).*1) as Hq by (symmetry; apply split_queue).
  assert (owned t' (queue p t ++ det) hands ≡ₚ owned t det hands) as Ho.
  { unfold owned. rewrite <- Hq at 1. by rewrite <- !app_assoc. }
  split_and!; try done.
  - destruct Hok as [Hn Ha Hr Hpo]. constructor.
    + by rewrite Ho.
    + intros e. rewrite Ho. apply Ha.
    + intros e x Ex. destruct (Hr e x Ex) as (? & Hrx & ? & ?). split_and!; try done. rewrite Hrx. do 2 f_equal. apply queued_ext.
      rewrite app_assoc. by rewrite Hq.
    + intros e [H _]%elem_without. by apply Hpo.
  - apply account_perm; [done|done|]. unfold pending. change (links t') with (without p (links t)). rewrite without_comm.
    rewrite <- !app_assoc. rewrite (app_assoc _ (queue p t)). apply Permutation_app_tail. unfold queue. rewrite <- (members_without_other p Pool) by done.
    symmetry. apply split_queue.
Qed.

(** The element in hand. *)
Lemma ok_head e det hands ids t : ok (e :: det) hands ids t ->
  e ∉ (links t).*1 /\ e ∉ det /\ e ∉ hands /\ exists x, elems t !! e = Some x /\ active_ x = false /\ refs x = 2 + handles ids e /\ (e < fresh_elem t)%nat.
Proof.
  intros [Hn Ha Hr _]. unfold owned in *. destruct (Ha e) as [x Ex]; [left; set_solver|]. destruct (Hr e x Ex) as (? & Hrx & _ & ?).
  apply NoDup_app in Hn as (_ & Hd & [Hn _]%NoDup_cons). rewrite elem_of_app in Hn.
  rewrite queued_in, held_out in Hrx by set_solver. split_and!; [set_solver|tauto|tauto|]. exists x. by split_and!.
Qed.
Lemma nodup_tail e det hands t : NoDup (owned t (e :: det) hands) -> NoDup (owned t det hands).
Proof. unfold owned. simpl. rewrite <- Permutation_middle. by intros [_ H]%NoDup_cons. Qed.

(** Deleting or pooling an element that nobody has any more. *)
Lemma drop_last e d h i det hands ids t x : ok d h i t ->
  (forall e', e' <> e -> (e' ∈ det <-> e' ∈ d) /\ (e' ∈ hands <-> e' ∈ h) /\ handles ids e' = handles i e') -> NoDup (owned t det hands) ->
  e ∉ owned t det hands -> e ∉ ids ->
  forall t0, begin_ t0 = begin_ t -> precision_ t0 = precision_ t -> point_ t0 = point_ t -> fresh_elem t0 = fresh_elem t -> links t0 = links t ->
    (forall e', e' <> e -> elems t0 !! e' = elems t !! e') -> elems t0 !! e = Some x -> active_ x = false -> refs x = 1 -> (e < fresh_elem t)%nat ->
  exists t', DecrementRef e t0 = Ret (t', tt) /\ ok det hands ids t' /\ fired t' = fired t0 /\ same t0 t' /\
    (forall e', e' <> e -> elems t' !! e' = elems t !! e') /\ without Pool (links t') = without Pool (links t).
Proof.
  intros Hok Hsame Hn Ho Hi t0 E1 E2 E3 E4 E5 E6 Ex Ha Hr He.
  assert (e ∉ (links t0).*1) as Hl by (rewrite E5; unfold owned in Ho; set_solver).
  destruct (DecrementRef_last t0 e x Ex Hr Hl) as (t' & E & HS & Hf & HC). pose proof HS as (_ & _ & _ & _ & _ & Hfr).
  exists t'. rewrite E. destruct HC as [[He' Hl']|[He' Hl']].
  - split_and!; try done.
    + apply (ok_update d det h hands i ids t t' e Hok); rewrite ?Hl', ?E5.
      * lia.
      * lia.
      * intros e' Hne. split; [by rewrite He', lookup_delete_ne, E6|by apply Hsame].
      * intros e' Hne. split; [done|]. by destruct (Hsame e' Hne) as (? & ? & _).
      * unfold owned. by rewrite Hl', E5.
      * rewrite He', lookup_delete_eq. unfold owned in *. rewrite Hl', E5. split; [done|]. by apply handles_zero.
      * intros _. done.
    + intros e' Hne. by rewrite He', lookup_delete_ne, E6.
    + by rewrite Hl', E5.
  - split_and!; try done.
    + apply (ok_update d det h hands i ids t t' e Hok).
      * lia.
      * lia.
      * intros e' Hne. split; [by rewrite He', lookup_insert_ne, E6|by apply Hsame].
      * intros e' Hne. rewrite Hl', E5. split; [|by destruct (Hsame e' Hne) as (? & ? & _)]. intros p. rewrite elem_of_app, list_elem_of_singleton. naive_solver.
      * unfold owned. rewrite Hl', E5, fmap_app. simpl. rewrite <- app_assoc. simpl. rewrite <- Permutation_middle. apply NoDup_cons. done.
      * rewrite He', lookup_insert_eq. cbn [active_ refs]. rewrite Hl', E5, queued_in by (apply elem_snoc). rewrite held_out by (unfold owned in Ho; set_solver).
        rewrite (proj2 (handles_zero ids e)) by done. done.
      * done.
    + intros e' Hne. by rewrite He', lookup_insert_ne, E6.
    + by rewrite Hl', E5, without_snoc_same.
Qed.

(** [trigger_one]: the callback runs once and the element is released. *)
Lemma fire_ok e det hands ids t : ok (e :: det) hands ids t ->
  exists t', trigger_one e t = Ret (t', tt) /\ same t t' /\ ok det hands ids t' /\ account t' det hands ≡ₚ account t (e :: det) hands /\
    (forall e', e' <> e -> elems t' !! e' = elems t !! e') /\ without Pool (links t') = without Pool (links t).
Proof.
  intros Hok. destruct (ok_head _ _ _ _ _ Hok) as (Hl & Hd & Hh & x & Ex & Ha & Hr & He). pose proof (handles_nonneg ids e) as Hhn.
  assert (pending t (e :: det) hands ≡ₚ e :: pending t det hands) as Hp by (unfold pending; simpl; by rewrite <- Permutation_middle).
  assert (e ∉ pending t det hands) as Hnp.
  { unfold pending. rewrite !elem_of_app, fst_elem. intros [[p [H _]%elem_without]|[?|?]]; [|done..]. apply Hl, fst_elem. by exists p. }
  assert (forall t' : Timer, (forall e', e' <> e -> elems t' !! e' = elems t !! e') -> fired t' = fired t ++ [(e, cb_ x)] ->
    without Pool (links t') = without Pool (links t) -> account t' det hands ≡ₚ account t (e :: det) hands) as Hacc.
  { intros t' Hel Hf Hlk. unfold account. rewrite Hp, Hf, fmap_app. cbn [map app fmap list_fmap snd].
    assert (pending t' det hands = pending t det hands) as -> by (unfold pending; by rewrite Hlk).
    rewrite (map_ext_in (cb_of t') (cb_of t)) by (intros e' He'%list_elem_of_In; unfold cb_of; rewrite Hel; [done|]; by intros ->).
    unfold cb_of at 2. rewrite Ex, app_assoc. symmetry. apply Permutation_cons_append. }
  unfold trigger_one. rewrite (bind_ret _ _ _ _ _ (DecrementRef_more t e x Ex ltac:(lia))).
  set (t1 := set_elems _ t). assert (elems t1 !! e = Some (with_refs x (refs x - 1))) as Ex1 by apply lookup_insert_eq.
  rewrite (bind_ret _ _ _ _ _ (Element_call_ok t1 e _ Ex1 Ha)). cbn [cb_ tp_ refs with_refs].
  set (t2 := set_elems _ _). assert (elems t2 !! e = Some (mkElement (cb_ x) false (tp_ x) None (refs x - 1))) as Ex2 by apply lookup_insert_eq.
  assert (forall e', e' <> e -> elems t2 !! e' = elems t !! e') as Hel by (intros e' Hne; simpl; by rewrite !lookup_insert_ne).
  pose proof (nodup_tail _ _ _ _ (ok_nodup _ _ _ _ Hok)) as Hn.
  destruct (decide (e ∈ ids)) as [Hi|Hi].
  - assert (0 < handles ids e) as Hpos by (destruct (Z.eq_dec (handles ids e) 0) as [H%handles_zero|]; [done|lia]).
    eexists. split; [apply (DecrementRef_more t2 e _ Ex2); simpl; lia|]. set (t3 := set_elems _ t2).
    assert (forall e', e' <> e -> elems t3 !! e' = elems t !! e') as Hel3 by (intros e' Hne; simpl; by rewrite !lookup_insert_ne).
    split_and!; [done| |by apply Hacc|done|done].
    apply (ok_update (e :: det) det hands hands ids ids t t3 e Hok); try done.
    + intros e' Hne. split; [by apply Hel3|done].
    + intros e' Hne. rewrite elem_of_cons. naive_solver.
    + cbn [elems t3 set_elems]. rewrite lookup_insert_eq. cbn [active_ refs with_refs]. rewrite queued_out, held_out by set_solver. lia.
    + intros H. destruct Hl. apply fst_elem. by exists Pool.
  - rewrite (proj2 (handles_zero ids e)) in Hr by done.
    destruct (drop_last e (e :: det) hands ids det hands ids t (mkElement (cb_ x) false (tp_ x) None (refs x - 1)) Hok) with (t0 := t2)
      as (t' & E & Hok' & Hf & HS & Hel' & Hlk); try done.
    + intros e' Hne. rewrite elem_of_cons. naive_solver.
    + unfold owned. set_solver.
    + simpl. lia.
    + exists t'. split_and!; [done|done|done|by apply Hacc|done|done].
Qed.

(** An element that a caller or the thread links. *)
Lemma link_ok e p d h det hands ids t t' x x' : ok d h ids t -> (d = e :: det /\ h = hands) \/ (d = det /\ h = e :: hands) -> p <> Pool ->
  elems t !! e = Some x -> elems t' !! e = Some x' -> (forall e', e' <> e -> elems t' !! e' = elems t !! e') ->
  cb_ x' = cb_ x -> active_ x' = false -> refs x' = 2 + handles ids e ->
  links t' = links t ++ [(e, p)] -> fresh_elem t' = fresh_elem t -> fired t' = fired t ->
  ok det hands ids t' /\ account t' det hands ≡ₚ account t d h.
Proof.
  intros Hok Hd Hp Ex Ex' Hel Hcb Ha Hr Hl Hfr Hfi.
  assert (owned t d h ≡ₚ e :: owned t det hands) as Hod.
  { unfold owned. destruct Hd as [[-> ->]|[-> ->]]; simpl; [by rewrite <- Permutation_middle|]. rewrite !app_assoc. symmetry. apply Permutation_middle. }
  pose proof (ok_nodup _ _ _ _ Hok) as Hn. rewrite Hod in Hn. apply NoDup_cons in Hn as [Hne Hn].
  destruct (ok_refs _ _ _ _ Hok e x Ex) as (_ & _ & _ & He).
  split.
  - apply (ok_update d det h hands ids ids t t' e Hok); try done.
    + lia.
    + lia.
    + intros e' H. by rewrite Hel.
    + intros e' H. split.
      * intros q. rewrite Hl, elem_of_app, list_elem_of_singleton. naive_solver.
      * destruct Hd as [[-> ->]|[-> ->]]; rewrite elem_of_cons; naive_solver.
    + assert (owned t' det hands ≡ₚ e :: owned t det hands) as ->; [|by apply NoDup_cons].
      unfold owned. rewrite Hl, fmap_app, <- app_assoc. simpl. symmetry. apply Permutation_middle.
    + rewrite Ex'. split; [done|]. rewrite Hl, queued_in by apply elem_snoc. rewrite held_out by (unfold owned in Hne; set_solver).
      pose proof (handles_nonneg ids e). lia.
    + rewrite Hl. intros [H|[= <-]%list_elem_of_singleton]%elem_of_app; [|done]. destruct Hne. unfold owned. rewrite elem_of_app. left. apply fst_elem. by exists Pool.
  - apply account_perm; [|done|].
    + intros e' _. unfold cb_of. destruct (decide (e' = e)) as [->|H]; [by rewrite Ex, Ex'|by rewrite Hel].
    + unfold pending. rewrite Hl, (without_snoc Pool p e (links t) Hp), <- app_assoc. cbn [app].
      destruct Hd as [[-> ->]|[-> ->]]; simpl; [done|]. rewrite !app_assoc. rewrite <- (Permutation_middle (_ ++ det)). rewrite <- app_assoc. symmetry. by rewrite <- Permutation_middle, app_assoc.
Qed.

(** [Dispatch] in the thread. *)
Definition linked_at (e : nat) (k : nat) (s : Z) (x : Element) (t : Timer) : Timer :=
  set_elems (<[e := mkElement (cb_ x) (active_ x) (tp_ x) (Some (k, s)) (refs x + 1)]> (elems t)) (set_links (links t ++ [(e, Wheel k s)]) t).
Lemma link_steps e k s x t : elems t !! e = Some x -> e ∉ (links t).*1 ->
  (push (Wheel k s) e ;;; let* x := get e in put e (mkElement (cb_ x) (active_ x) (tp_ x) (Some (k, s)) (refs x))) t = Ret (linked_at e k s x t, tt).
Proof.
  intros Ex Hl. rewrite (bind_ret _ _ _ _ _ (push_ok t (Wheel k s) e x Ex Hl)). erewrite bind_ret by (apply get_ok, lookup_insert_eq).
  unfold put, modify, linked_at. cbn [set_elems set_links elems links maxPoolSize_ begin_ precision_ point_ stop_ fresh_elem fired with_refs cb_ active_ tp_ refs]. by rewrite insert_insert_eq.
Qed.
Definition spot (x : Element) (last : Z) (t : Timer) : nat * Z := place_for (u64 (tp_ x - time_of t last) / precision_ t) last.
Lemma Dispatch_thread e x t : elems t !! e = Some x -> e ∉ (links t).*1 ->
  Dispatch e true t = Ret (let '(k, s) := spot x (point_ t) t in linked_at e k s x t, tt).
Proof.
  intros Ex Hl. unfold Dispatch, spot. rewrite (bind_ret _ _ t t t) by done. rewrite (bind_ret _ _ _ _ _ (get_ok t e x Ex)). cbn [negb andb]. cbv zeta.
  destruct (place_for _ _) as [k s]. by apply link_steps.
Qed.
Lemma redispatch_ok now e det hands ids t : ok (e :: det) hands ids t ->
  exists t', dispatch_one now e t = Ret (t', tt) /\ same t t' /\ ok det hands ids t' /\ account t' det hands ≡ₚ account t (e :: det) hands /\
    (forall e', e' <> e -> elems t' !! e' = elems t !! e') /\
    (without Pool (links t') = without Pool (links t) \/
     exists x x', elems t !! e = Some x /\ elems t' !! e = Some x' /\ tp_ x' = tp_ x /\ now < tp_ x /\
       let '(k, s) := spot x (point_ t) t in without Pool (links t') = without Pool (links t) ++ [(e, Wheel k s)]).
Proof.
  intros Hok. destruct (ok_head _ _ _ _ _ Hok) as (Hl & Hd & Hh & x & Ex & Ha & Hr & He). pose proof (handles_nonneg ids e) as Hhn.
  destruct (decide (tp_ x <= now)) as [Hdue|Hlater].
  - rewrite (dispatch_one_due now t e x) by (done || lia). destruct (fire_ok e det hands ids t Hok) as (t' & E & HS & Hok' & Hac & Hel & Hlk).
    exists t'. split_and!; try done. by left.
  - unfold dispatch_one. rewrite (bind_ret _ _ _ _ _ (DecrementRef_more t e x Ex ltac:(lia))). set (t1 := set_elems _ t).
    assert (elems t1 !! e = Some (with_refs x (refs x - 1))) as Ex1 by apply lookup_insert_eq.
    rewrite (bind_ret _ _ _ _ _ (get_ok t1 e _ Ex1)). cbn [tp_ with_refs]. rewrite (proj2 (Z.leb_gt _ _)) by lia.
    rewrite (Dispatch_thread e _ t1 Ex1) by done. change (spot (with_refs x (refs x - 1)) (point_ t1) t1) with (spot x (point_ t) t).
    destruct (spot x (point_ t) t) as [k s] eqn:Es. set (t' := linked_at e k s _ t1).
    assert (forall e', e' <> e -> elems t' !! e' = elems t !! e') as Hel by (intros e' Hne; simpl; by rewrite !lookup_insert_ne).
    assert (elems t' !! e = Some (mkElement (cb_ x) (active_ x) (tp_ x) (Some (k, s)) (refs x - 1 + 1))) as Ex' by apply lookup_insert_eq.
    exists t'. destruct (link_ok e (Wheel k s) (e :: det) hands det hands ids t t' x _ Hok ltac:(by left) ltac:(done) Ex Ex' Hel) as [Hok' Hac]; try done; [simpl; lia|].
    split_and!; try done. right. exists x, (mkElement (cb_ x) (active_ x) (tp_ x) (Some (k, s)) (refs x - 1 + 1)). do 3 (split; [done|]). split; [lia|].
    rewrite Es. change (links t') with (links t ++ [(e, Wheel k s)]). unfold without. by rewrite filter_app, filter_cons_True.
Qed.

(** [Place]: linked as due, linked in the wheel, or to begin again. *)
Lemma place_timer_ok e last det hands ids t x : ok det (e :: hands) ids t -> elems t !! e = Some x ->
  exists t' b, Place e last t = Ret (t', b) /\
    (if b : bool then
       same t t' /\ ok det hands ids t' /\ account t' det hands ≡ₚ account t det (e :: hands) /\ (forall e', e' <> e -> elems t' !! e' = elems t !! e') /\
       exists x' p, elems t' !! e = Some x' /\ tp_ x' = tp_ x /\ without Pool (links t') = without Pool (links t) ++ [(e, p)] /\
         (p = Complete /\ tp_ x <= time_of t last \/ last = point_ t /\ time_of t last < tp_ x /\ exists k s, spot x last t = (k, s) /\ p = Wheel k s)
     else t' = t).
Proof.
  intros Hok Ex. pose proof (ok_nodup _ _ _ _ Hok) as Hn. destruct (ok_refs _ _ _ _ Hok e x Ex) as (Ha & Hr & _ & He).
  assert (owned t det (e :: hands) ≡ₚ e :: owned t det hands) as Hod by (unfold owned; rewrite !app_assoc; symmetry; apply Permutation_middle).
  assert (e ∉ owned t det hands) as Hne by (rewrite Hod in Hn; by apply NoDup_cons in Hn as [? _]).
  assert (e ∉ (links t).*1) as Hl by (unfold owned in Hne; set_solver).
  rewrite queued_out, held_in in Hr by (unfold owned in Hne; set_solver).
  unfold Place. rewrite (bind_ret _ _ t t t) by done. rewrite (bind_ret _ _ _ _ _ (get_ok t e x Ex)). cbv zeta.
  assert (forall p t' x', p <> Pool -> elems t' !! e = Some x' -> (forall e', e' <> e -> elems t' !! e' = elems t !! e') -> cb_ x' = cb_ x -> active_ x' = active_ x ->
    refs x' = refs x + 1 -> links t' = links t ++ [(e, p)] -> same t t' -> fired t' = fired t ->
    ok det hands ids t' /\ account t' det hands ≡ₚ account t det (e :: hands)) as Hlink.
  { intros p t' x' Hp Ex' Hel Hcb Ha' Hr' Hl' HS Hfi. destruct HS as (_ & _ & _ & _ & _ & Hfr).
    apply (link_ok e p det (e :: hands) det hands ids t t' x x'); try done; [by right|congruence|lia]. }
  destruct (Z.leb_spec (tp_ x) (time_of t last)) as [Hdue|Hlater].
  - rewrite (bind_ret _ _ _ _ _ (push_ok t Complete e x Ex Hl)). set (t' := set_elems _ _). exists t', true. split; [done|].
    assert (elems t' !! e = Some (with_refs x (refs x + 1))) as Ex' by apply lookup_insert_eq.
    assert (forall e', e' <> e -> elems t' !! e' = elems t !! e') as Hel by (intros e' Hx; simpl; by rewrite lookup_insert_ne).
    destruct (Hlink Complete t' _ ltac:(done) Ex' Hel) as [Hok' Hac]; try done.
    do 4 (split; [done|]). exists (with_refs x (refs x + 1)), Complete. do 2 (split; [done|]). split; [|by left].
    change (links t') with (links t ++ [(e, Complete)]). unfold without. by rewrite filter_app, filter_cons_True.
  - fold (spot x last t). destruct (spot x last t) as [k s] eqn:Es. destruct (Z.eqb_spec last (point_ t)) as [Hp|Hp]; cbn [negb].
    + pose proof (link_steps e k s x t Ex Hl) as E.
      set (t' := linked_at e k s x t) in *. exists t', true. split.
      { unfold bind in *. destruct (push (Wheel k s) e t) as [[t1 []]| |]; [|done|done]. cbn [mbind res_bind] in *. destruct (get e t1) as [[t2 y]| |]; [|done|done].
        cbn [mbind res_bind] in *. by rewrite E. }
      assert (elems t' !! e = Some (mkElement (cb_ x) (active_ x) (tp_ x) (Some (k, s)) (refs x + 1))) as Ex' by apply lookup_insert_eq.
      assert (forall e', e' <> e -> elems t' !! e' = elems t !! e') as Hel by (intros e' Hx; simpl; by rewrite lookup_insert_ne).
      destruct (Hlink (Wheel k s) t' _ ltac:(done) Ex' Hel) as [Hok' Hac]; try done.
      do 4 (split; [done|]). eexists _, (Wheel k s). split; [exact Ex'|]. split; [done|]. split; [|right; split; [done|]; split; [lia|]; by exists k, s].
      change (links t') with (links t ++ [(e, Wheel k s)]). unfold without. by rewrite filter_app, filter_cons_True.
    + by exists t, false.
Qed.

(** What [NewElement] leaves: an element that nobody knows, with one reference. *)
Record allocated (det hands ids : list nat) (t t1 : Timer) (e : nat) : Prop := {
  a_fixed : begin_ t1 = begin_ t /\ precision_ t1 = precision_ t /\ point_ t1 = point_ t /\ fired t1 = fired t;
  a_fresh : (fresh_elem t <= fresh_elem t1)%nat /\ (e < fresh_elem t1)%nat;
  a_elem : exists x, elems t1 !! e = Some x /\ refs x = 1;
  a_others e' : e' <> e -> elems t1 !! e' = elems t !! e' /\ forall p, (e', p) ∈ links t1 <-> (e', p) ∈ links t;
  a_links : without Pool (links t1) = without Pool (links t);
  a_nodup : NoDup (owned t1 det hands);
  a_out : e ∉ owned t1 det hands /\ e ∉ ids }.

Lemma fresh_out det hands ids t e : ok det hands ids t -> (fresh_elem t <= e)%nat -> elems t !! e = None /\ e ∉ owned t det hands /\ e ∉ ids.
Proof.
  intros Hok He. assert (elems t !! e = None) as Hx.
  { destruct (elems t !! e) as [x|] eqn:Ex; [|done]. apply (ok_refs _ _ _ _ Hok) in Ex as (_ & _ & _ & ?). lia. }
  split_and!; [done|..]; intros H; (destruct (ok_alive _ _ _ _ Hok e) as [x Ex]; [tauto|congruence]).
Qed.
Lemma new_element_ok det hands ids t : ok det hands ids t -> exists t1 e, new_element t = Ret (t1, e) /\ allocated det hands ids t t1 e.
Proof.
  intros Hok. destruct (fresh_out _ _ _ _ (fresh_elem t) Hok) as (Hx & Ho & Hi); [done|]. do 2 eexists. split; [done|]. constructor; simpl; try done.
  - lia.
  - eexists. by rewrite lookup_insert_eq.
  - intros e' Hne. by rewrite lookup_insert_ne.
  - apply (ok_nodup _ _ _ _ Hok).
Qed.
Lemma pool_pop_ok det hands ids t e q : ok det hands ids t -> queue Pool t = e :: q ->
  exists t1, pool_pop t = Ret (t1, Some e) /\ allocated det hands ids t t1 e.
Proof.
  intros Hok Eq. assert ((e, Pool) ∈ links t) as He by (apply elem_members; unfold queue in Eq; rewrite Eq; by left).
  assert (e ∈ (links t).*1) as Hel by (apply fst_elem; by exists Pool). pose proof (ok_nodup _ _ _ _ Hok) as Hn.
  destruct (ok_alive _ _ _ _ Hok e) as [x Ex]; [left; unfold owned; set_solver|]. pose proof (ok_pool _ _ _ _ Hok e He) as Hi.
  destruct (ok_refs _ _ _ _ Hok e x Ex) as (Ha & Hr & _ & Hf). unfold owned in *. pose proof Hn as (Hnl & Hd & Hdh)%NoDup_app.
  rewrite queued_in, held_out, (proj2 (handles_zero ids e)) in Hr by set_solver.
  unfold pool_pop, bind, gets. cbn [mbind res_bind]. rewrite Eq. unfold modify. cbn [mbind res_bind]. rewrite (DecrementRef_more _ e x) by (done || lia). cbn [mbind res_bind ret].
  eexists. split; [done|]. constructor; simpl; try done.
  - exists (with_refs x (refs x - 1)). rewrite lookup_insert_eq. split; [done|]. simpl. lia.
  - intros e' Hne. rewrite lookup_insert_ne by done. split; [done|]. intros p. rewrite list_elem_of_filter. simpl. tauto.
  - change (without Pool (unlink e (links t)) = without Pool (links t)). unfold without, unlink. rewrite filter_comm. apply filter_keeps.
    intros [e' p] [Hp H]%list_elem_of_filter. simpl in *. intros ->. destruct Hp. by eapply links_unique'.
  - unfold owned. simpl. apply NoDup_app. split_and!; [by apply links_filter_nodup| |done]. intros y Hy. apply Hd.
    apply fst_elem in Hy as [p [_ Hy]%list_elem_of_filter]. apply fst_elem. by exists p.
  - split; [|done]. unfold owned. simpl. rewrite elem_of_app. intros [H|H]; [by apply links_filter_elem in H|]. by apply (Hd e).
Qed.

(** What [NewTimer] leaves. *)
Record made (tp : Z) (cb : nat) (det hands ids : list nat) (t t' : Timer) (e : nat) : Prop := {
  m_fixed : begin_ t' = begin_ t /\ precision_ t' = precision_ t /\ point_ t' = point_ t;
  m_ok : ok det (e :: hands) (e :: ids) t';
  m_account : account t' det (e :: hands) ≡ₚ cb :: account t det hands;
  m_others e' : e' <> e -> elems t' !! e' = elems t !! e';
  m_elem : exists x, elems t' !! e = Some x /\ tp_ x = tp;
  m_links : without Pool (links t') = without Pool (links t);
  m_out : e ∉ pending t det hands }.
Lemma init_ok tp cb det hands ids t t1 e : ok det hands ids t -> allocated det hands ids t t1 e ->
  exists t', (Element_init e cb tp ;;; IncrementRef e ;;; ret e) t1 = Ret (t', e) /\ made tp cb det hands ids t t' e.
Proof.
  intros Hok [(Hb & Hp & Hpt & Hfi) [Hf He] (x & Ex & Hr) Ho Hw Hn1 [Hne Hi]].
  assert (e ∉ pending t det hands) as Hnp.
  { unfold pending. rewrite <- Hw. intros H. apply Hne. change ((without Pool (links t1)).*1 ++ det ++ hands) with (pending t1 det hands) in H. by apply pending_owned. }
  unfold Element_init, bind at 1 2. rewrite (get_ok t1 e x Ex). cbn [mbind res_bind]. unfold put at 1, modify. cbn [mbind res_bind].
  set (t2 := set_elems _ t1). assert (elems t2 !! e = Some (mkElement cb false tp None (refs x))) as Ex2 by apply lookup_insert_eq.
  unfold bind. rewrite (IncrementRef_ok t2 e _ Ex2). cbn [mbind res_bind ret]. set (t3 := set_elems _ t2). exists t3. split; [done|].
  assert (elems t3 !! e = Some (mkElement cb false tp None (refs x + 1))) as Ex3 by apply lookup_insert_eq.
  assert (forall e', e' <> e -> elems t3 !! e' = elems t !! e') as Hel3 by (intros e' Hx; simpl; rewrite !lookup_insert_ne by done; by apply Ho).
  constructor; [done| | |exact Hel3|by eexists|exact Hw|exact Hnp].
  - apply (ok_update det det hands (e :: hands) ids (e :: ids) t t3 e Hok); try done.
    + intros e' Hx. rewrite Hel3 by done. split; [done|]. by rewrite handles_cons, bool_decide_eq_false_2.
    + intros e' Hx. split; [by apply Ho|]. rewrite elem_of_cons. naive_solver.
    + assert (owned t3 det (e :: hands) ≡ₚ e :: owned t1 det hands) as ->; [|by apply NoDup_cons].
      unfold owned. change (links t3) with (links t1). rewrite !app_assoc. symmetry. apply Permutation_middle.
    + rewrite Ex3. split; [done|]. change (links t3) with (links t1). unfold owned in Hne. rewrite queued_out, held_in by set_solver.
      rewrite handles_cons, bool_decide_eq_true_2, (proj2 (handles_zero ids e)) by done. cbn [refs]. lia.
    + intros Hx. destruct Hne. unfold owned. rewrite elem_of_app. left. apply fst_elem. by exists Pool.
  - unfold account. change (fired t3) with (fired t1). rewrite Hfi.
    assert (pending t3 det (e :: hands) ≡ₚ e :: pending t det hands) as ->.
    { unfold pending. change (links t3) with (links t1). rewrite Hw, !app_assoc. symmetry. apply Permutation_middle. }
    cbn [map]. unfold cb_of at 1. rewrite Ex3. cbn [app cb_]. do 2 f_equiv. erewrite map_ext_in; [done|].
    intros e' He'%list_elem_of_In. unfold cb_of. rewrite Hel3; [done|]. intros ->. done.
Qed.
Lemma new_timer_ok fresh tp cb det hands ids t : ok det hands ids t ->
  exists t' e, NewTimer fresh tp cb t = Ret (t', e) /\ made tp cb det hands ids t t' e.
Proof.
  intros Hok. assert (exists t1 e, (if fresh then new_element else NewElement) t = Ret (t1, e) /\ allocated det hands ids t t1 e) as (t1 & e & E & Ha).
  { destruct (new_element_ok det hands ids t Hok) as (t1 & e & E & Ha). destruct fresh; [by exists t1, e|]. unfold NewElement.
    destruct (queue Pool t) as [|e' q] eqn:Eq.
    - exists t1, e. split; [|done]. rewrite (bind_ret _ _ t t None); [done|]. unfold pool_pop, bind, gets. simpl. by rewrite Eq.
    - destruct (pool_pop_ok det hands ids t e' q Hok Eq) as (t2 & E2 & Ha2). exists t2, e'. split; [|done]. by rewrite (bind_ret _ _ _ _ _ E2). }
  unfold NewTimer. rewrite (bind_ret _ _ _ _ _ E). destruct (init_ok tp cb det hands ids t t1 e Hok Ha) as (t' & E' & Hm). by exists t', e.
Qed.

(** The end of a [TimerId]. *)
Lemma drop_ok e det hands ids t : ok det hands (e :: ids) t ->
  exists t', TimerId_destroy (Some e) t = Ret (t', tt) /\ same t t' /\ ok det hands ids t' /\ account t' det hands ≡ₚ account t det hands /\
    (forall e', e' <> e -> elems t' !! e' = elems t !! e') /\ without Pool (links t') = without Pool (links t) /\
    (e ∈ pending t det hands -> exists x x', elems t !! e = Some x /\ elems t' !! e = Some x' /\ tp_ x' = tp_ x).
Proof.
  intros Hok. destruct (ok_alive _ _ _ _ Hok e) as [x Ex]; [right; by left|]. destruct (ok_refs _ _ _ _ Hok e x Ex) as (Ha & Hr & _ & He).
  rewrite handles_cons, bool_decide_eq_true_2 in Hr by done. pose proof (handles_nonneg ids e) as H1. pose proof (held_range hands e) as H2.
  pose proof (queued_nonneg ((links t).*1 ++ det) e) as H3. pose proof (ok_nodup _ _ _ _ Hok) as Hn. simpl.
  assert (forall e', e' <> e -> handles ids e' = handles (e :: ids) e') as Hh by (intros e' Hne; by rewrite handles_cons, bool_decide_eq_false_2).
  destruct (Z.eq_dec (refs x) 1) as [E1|E1].
  - assert (e ∉ owned t det hands) as Ho.
    { unfold owned. rewrite app_assoc, elem_of_app. intros [H|H]; [rewrite queued_in in Hr by done|rewrite held_in in Hr by done]; lia. }
    assert (e ∉ ids) as Hi by (apply handles_zero; lia).
    destruct (drop_last e det hands (e :: ids) det hands ids t x Hok) with (t0 := t) as (t' & E & Hok' & Hf & HS & Hel & Hlk); try done.
    { intros e' Hne. by rewrite Hh. }
    assert (e ∉ pending t det hands) as Hnp by (intros H; by apply Ho, pending_owned).
    exists t'. split_and!; try done. apply account_perm; [|done|unfold pending; by rewrite Hlk].
    intros e' He'. unfold cb_of. rewrite Hel; [done|]. by intros ->.
  - rewrite (DecrementRef_more t e x Ex) by lia. set (t' := set_elems _ t).
    assert (elems t' !! e = Some (with_refs x (refs x - 1))) as Ex' by apply lookup_insert_eq.
    assert (forall e', e' <> e -> elems t' !! e' = elems t !! e') as Hel by (intros e' Hne; simpl; by rewrite lookup_insert_ne).
    exists t'. split_and!; try done.
    + apply (ok_update det det hands hands (e :: ids) ids t t' e Hok); try done.
      * intros e' Hne. split; [by apply Hel|by apply Hh].
      * rewrite Ex'. split; [done|]. cbn [with_refs refs]. change (links t') with (links t). lia.
      * intros H%(ok_pool _ _ _ _ Hok). set_solver.
    + apply account_perm; [|done|done]. intros e' _. unfold cb_of. destruct (decide (e' = e)) as [->|Hne]; [by rewrite Ex, Ex'|by rewrite Hel].
    + intros _. by exists x, (with_refs x (refs x - 1)).
Qed.

(** ** [Stop] *)

Module Quit.
Import TimerRace.Quit.
(** [Stop] takes [stop_] to be seen after it waits: in one order it waits for a notification that has
    been given, and nothing will wake it. *)
Theorem stop_misses_quit : exists s, rtc (fun x y => y ∈ steps x) new s /\ stop_thread s = SWait /\ run_thread s = REnd /\ steps s = [].
Proof.
  exists (mkQuit true None SWait REnd). split; [|done].
  apply (explore_sound steps new 100 [] [new]); [intros y Hy%list_elem_of_singleton; subst y; apply rtc_refl|].
  apply (proj1 (bool_decide_eq_true _)). vm_compute. reflexivity.
Qed.
(** When it returns, without a wake-up out of nowhere, the thread has given its notification. *)
Theorem stop_after_notify s : reachable (fun x y => y ∈ steps x) (fun x => x ∈ [new]) s -> stop_thread s = SDone -> run_thread s = REnd.
Proof.
  set (P := fun s => implb (bool_decide (stop_thread s = SDone)) (bool_decide (run_thread s = REnd))). intros Hr Hs.
  assert (P s = true) as HP by (apply (explored steps [new] (explore steps 100 [] [new]) P); [vm_compute; reflexivity..|exact Hr]).
  unfold P in HP. rewrite bool_decide_eq_true_2 in HP by done. by apply bool_decide_eq_true in HP.
Qed.
End Quit.
