(* ===== verification/TimerRaceInv.v ===== *)
(** The worlds of [TimerRace.v]: the invariant of every reachable one. *)
From S2P Require Import Prelude Links TimerWheel TimerRace TimerRaceSpec.
Local Open Scope Z_scope.

(** ** Who has which element *)

Definition hand (q : caller) : option nat := match q with CLoad e | CPlace e _ => Some e | _ => None end.
Definition ident (q : caller) : option nat := match q with CLoad e | CPlace e _ | CHold e => Some e | _ => None end.
Definition det_of (q : trigger) : list nat :=
  match q with
  | Idle | Clock => [] | Complete_ l => l | Loop p => dispatchers p | Slot p l => l ++ dispatchers p | Upgrade p _ _ => dispatchers p | Final _ l => l
  end.
Notation hands_of := (omap hand).
Notation ids_of := (omap ident).
(** The callbacks of the calls that have begun. *)
Definition begun (cs : list caller) (c : nat) : bool := match cs !! c with Some (CStart _) | None => false | _ => true end.
Definition started (cs : list caller) : list nat := S <$> filter (fun c => begun cs c = true) (seq 0 (length cs)).

Lemma omap_update {A} (f : caller -> option A) cs c q q' : cs !! c = Some q ->
  exists l, omap f cs ≡ₚ option_list (f q) ++ l /\ omap f (<[c := q']> cs) ≡ₚ option_list (f q') ++ l.
Proof.
  intros H. pose proof (lookup_lt_Some _ _ _ H). exists (omap f (take c cs) ++ omap f (drop (S c) cs)).
  assert (forall x, omap f (take c cs ++ x :: drop (S c) cs) ≡ₚ option_list (f x) ++ omap f (take c cs) ++ omap f (drop (S c) cs)) as Hx.
  { intros x. rewrite omap_app. simpl. destruct (f x); simpl; [by rewrite <- Permutation_middle|done]. }
  split; [|rewrite insert_take_drop by done; apply Hx]. rewrite <- (take_drop_middle cs c q) at 1 by done. apply Hx.
Qed.
Lemma started_same cs c q q' : cs !! c = Some q -> (begun [q] 0 = begun [q'] 0) -> started (<[c := q']> cs) = started cs.
Proof.
  intros H Hb. unfold started. rewrite length_insert. f_equal. apply list_filter_iff. intros k. unfold begun in *. simpl in Hb.
  destruct (decide (k = c)) as [->|Hn]; [|by rewrite list_lookup_insert_ne]. rewrite list_lookup_insert_eq by (by eapply lookup_lt_Some). rewrite H. by rewrite Hb.
Qed.
Lemma started_new cs c tp e : cs !! c = Some (CStart tp) -> started (<[c := CLoad e]> cs) ≡ₚ S c :: started cs.
Proof.
  intros H. pose proof (lookup_lt_Some _ _ _ H) as Hc. unfold started. rewrite length_insert, <- fmap_cons. apply fmap_Permutation.
  apply NoDup_Permutation.
  - apply NoDup_filter, NoDup_seq.
  - apply NoDup_cons. split; [|apply NoDup_filter, NoDup_seq]. rewrite list_elem_of_filter. unfold begun. rewrite H. naive_solver.
  - intros k. rewrite elem_of_cons, !list_elem_of_filter, !elem_of_seq. unfold begun. destruct (decide (k = c)) as [->|Hn].
    + rewrite list_lookup_insert_eq by done. split; [by left|]. intros _. split; [done|lia].
    + rewrite list_lookup_insert_ne by done. naive_solver.
Qed.
Lemma started_elem cs c : S c ∈ started cs <-> begun cs c = true.
Proof.
  unfold started. rewrite list_elem_of_fmap. split.
  - intros (k & [= ->] & [H _]%list_elem_of_filter). done.
  - intros H. exists c. split; [done|]. apply list_elem_of_filter. split; [done|]. apply elem_of_seq. unfold begun in H.
    destruct (cs !! c) eqn:E; [|done]. apply lookup_lt_Some in E. lia.
Qed.
Lemma started_nodup cs : NoDup (started cs).
Proof. unfold started. apply NoDup_fmap; [intros ? ? [= ->]; done|]. apply NoDup_filter, NoDup_seq. Qed.

(** ** When timers come *)

Definition tp_of (t : Timer) (e : nat) : option Z := tp_ <$> elems t !! e.
(** The tick of a time; the slot [s] of level 0 is the tick [T], among the 256 from [P] on. *)
Definition tick (t : Timer) (tp : Z) : Z := (tp - begin_ t) / precision_ t.
Definition window (t : Timer) (P tp s : Z) : Prop := P <= tick t tp < P + 256 /\ s = tick t tp mod 256.
(** What the place of an element says: [Q] is the tick at which the thread stands. *)
Definition seated (t : Timer) (Q tp : Z) (p : place) : Prop :=
  tp < 2 ^ 63 /\
  match p with
  | Wheel O s => window t Q tp s \/ window t (point_ t) tp s
  | Complete => tp <= begin_ t + point_ t * precision_ t
  | _ => True
  end.
Definition stand (w : world) : Z :=
  match thread w with
  | Loop p => Z.min (last p + i p) (point_ (tm w)) | Slot p _ | Upgrade p _ _ => last p + i p + 1 | _ => point_ (tm w)
  end.
(** What holds of an element that the thread is about to call. *)
Definition early (t : Timer) (p : loop) (tp : Z) : Prop := tp <= now p \/ point_ t + 256 - delta p <= tick t tp.
Definition to_call (w : world) (e : nat) (tp : Z) : Prop :=
  tp < 2 ^ 63 /\
  match thread w with
  | Complete_ l => e ∈ l -> tp <= begin_ (tm w) + point_ (tm w) * precision_ (tm w)
  | Slot p l => e ∈ l -> early (tm w) p tp
  | _ => True
  end.
Definition caller_time (t : Timer) (q : caller) : Prop :=
  match q with
  | CStart tp => tp < 2 ^ 63
  | CLoad e => exists tp, tp_of t e = Some tp /\ tp < 2 ^ 63
  | CPlace e last => (exists tp, tp_of t e = Some tp /\ tp < 2 ^ 63) /\ 0 <= last <= point_ t
  | _ => True
  end.
Definition range (t : Timer) : Prop := 0 < precision_ t /\ 0 <= begin_ t /\ 0 <= point_ t /\ begin_ t + point_ t * precision_ t < 2 ^ 63.
(** The loop: at most 256 ticks, all on level 0 until it ends. *)
Definition sweep (t : Timer) (p : loop) : Prop :=
  0 <= i p /\ 0 <= last p /\ delta p <= 256 /\ last p + delta p = point_ t /\ begin_ t + point_ t * precision_ t <= now p /\ triggerSlots p <> [].
Definition loop_ok (w : world) : Prop :=
  match thread w with
  | Loop p => sweep (tm w) p /\ (i p < delta p -> level p = 0%nat /\ nth 0 (triggerSlots p) 0 = i p)
  | Slot p _ => sweep (tm w) p /\ i p < delta p /\ level p = 0%nat /\ nth 0 (triggerSlots p) 0 = i p
  | Upgrade p lv s => sweep (tm w) p /\ i p < delta p /\ (lv <= 7)%nat /\ pos p mod B lv = 0 /\ s = p8 (pos p) lv /\
      ((level p = 0%nat /\ nth 0 (triggerSlots p) 0 = i p + 1) \/ (level p = 1%nat /\ i p + 1 = delta p))
  | Final n _ => begin_ (tm w) + point_ (tm w) * precision_ (tm w) <= n
  | _ => True
  end.

Record good (w : world) : Prop := {
  g_ok : ok (det_of (thread w)) (hands_of (callers w)) (ids_of (callers w)) (tm w);
  g_account : account (tm w) (det_of (thread w)) (hands_of (callers w)) ≡ₚ started (callers w);
  g_range : range (tm w);
  g_loop : loop_ok w;
  g_seated e p : (e, p) ∈ without Pool (links (tm w)) -> exists tp, tp_of (tm w) e = Some tp /\ seated (tm w) (stand w) tp p;
  g_call e : e ∈ det_of (thread w) -> exists tp, tp_of (tm w) e = Some tp /\ to_call w e tp;
  g_callers : Forall (caller_time (tm w)) (callers w) }.

Lemma time_of_exact t last : range t -> 0 <= last <= point_ t -> time_of t last = begin_ t + last * precision_ t.
Proof.
  intros (Hp & Hb & Hpt & Hr) Hl. assert (2 ^ 63 < 2 ^ 64) by done. assert (last * precision_ t <= point_ t * precision_ t) by nia. unfold time_of.
  replace (u64 (last * precision_ t)) with (last * precision_ t) by (unfold u64; rewrite wrap_small; [done|unfold fits; nia]).
  unfold i64, sgn. rewrite wrap_small by (unfold fits; nia). change (2 ^ (64 - 1)) with (2 ^ 63). by rewrite (proj2 (Z.ltb_lt _ _)) by nia.
Qed.
(** [Dispatch] from the point at which the timer stands chooses the window of that point. *)
Lemma spot_window t x k s : range t -> time_of t (point_ t) < tp_ x -> tp_ x < 2 ^ 63 -> spot x (point_ t) t = (k, s) -> seated t (point_ t) (tp_ x) (Wheel k s).
Proof.
  intros Hrg Hl Ht Hs. pose proof Hrg as (Hp & Hb & Hpt & Hr). split; [done|]. destruct k as [|k]; [|done]. left. unfold spot in Hs.
  pose proof (time_of_exact t (point_ t) Hrg ltac:(lia)) as Et.
  rewrite Et in *. set (d := (tp_ x - (begin_ t + point_ t * precision_ t))) in *.
  assert (0 < d < 2 ^ 63) as Hd by (unfold d; nia). assert (2 ^ 63 < 2 ^ 64) as H64 by done.
  assert (u64 d = d) as Ed by (apply wrap_small; unfold fits; lia). rewrite Ed in Hs.
  destruct (place_for_spec (d / precision_ t) (point_ t) 0 s) as (_ & Hs0 & _ & Hn & _); [|done|done|].
  { split; [apply Z.div_pos; lia|]. apply Z.div_lt_upper_bound; nia. }
  specialize (Hn eq_refl). assert (tick t (tp_ x) = point_ t + d / precision_ t) as ETk.
  { unfold tick. replace (tp_ x - begin_ t) with (d + point_ t * precision_ t) by (unfold d; lia). rewrite Z_div_plus_full by lia. lia. }
  unfold window. rewrite ETk. unfold next in Hn. rewrite B_0 in Hn. rewrite Z.div_1_r, Z.opp_involutive, !Z.mul_1_r in Hn.
  pose proof (Z.mod_pos_bound (s - point_ t) 256 ltac:(lia)). split; [lia|].
  rewrite <- Hn, Zplus_mod_idemp_r. replace (point_ t + (s - point_ t)) with s by lia. symmetry. by apply Z.mod_small.
Qed.

(** ** What a change of the elements leaves *)

(** The same begin and precision; the point may have moved on. *)
Definition onward (t t' : Timer) : Prop := begin_ t' = begin_ t /\ precision_ t' = precision_ t /\ point_ t <= point_ t'.
Definition clockwork (t t' : Timer) : Prop := begin_ t' = begin_ t /\ precision_ t' = precision_ t /\ point_ t' = point_ t.
Lemma same_clockwork t t' : same t t' -> clockwork t t'.
Proof. intros (_ & ? & ? & ? & _). done. Qed.
Lemma clockwork_onward t t' : clockwork t t' -> onward t t'.
Proof. intros (? & ? & H). unfold onward. rewrite H. done. Qed.
Lemma seated_clockwork t t' Q tp p : clockwork t t' -> seated t Q tp p -> seated t' Q tp p.
Proof. intros (Hb & Hp & Hpt). unfold seated, window, tick. by rewrite Hb, Hp, Hpt. Qed.
Lemma early_clockwork t t' p tp : clockwork t t' -> early t p tp -> early t' p tp.
Proof. intros (Hb & Hp & Hpt). unfold early, tick. by rewrite Hb, Hp, Hpt. Qed.
Lemma range_clockwork t t' : clockwork t t' -> range t -> range t'.
Proof. intros (Hb & Hp & Hpt). unfold range. by rewrite Hb, Hp, Hpt. Qed.
Lemma sweep_clockwork t t' p : clockwork t t' -> sweep t p -> sweep t' p.
Proof. intros (Hb & Hp & Hpt). unfold sweep. by rewrite Hb, Hp, Hpt. Qed.
Lemma tp_of_other t t' e e' : (forall e', e' <> e -> elems t' !! e' = elems t !! e') -> e' <> e -> tp_of t' e' = tp_of t e'.
Proof. intros H Hn. unfold tp_of. by rewrite H. Qed.
Lemma callers_keep t t' cs : onward t t' -> 0 <= precision_ t -> (forall e, e ∈ hands_of cs -> tp_of t' e = tp_of t e) -> Forall (caller_time t) cs -> Forall (caller_time t') cs.
Proof.
  intros (Hb & Hp & Hpt) Hpr Hk. rewrite !Forall_forall. intros H q Hq. specialize (H q Hq).
  destruct q as [tp|e|e l|e|]; simpl in *; try done.
  - rewrite Hk; [done|]. apply list_elem_of_omap. by exists (CLoad e).
  - rewrite Hk; [|apply list_elem_of_omap; by exists (CPlace e l)]. split; [apply H|lia].
Qed.
Lemma account_det t d1 d2 h : d1 ≡ₚ d2 -> account t d1 h ≡ₚ account t d2 h.
Proof. intros H. apply account_perm; [done|done|]. unfold pending. by rewrite H. Qed.
Lemma account_hands t d h1 h2 : h1 ≡ₚ h2 -> account t d h1 ≡ₚ account t d h2.
Proof. intros H. apply account_perm; [done|done|]. unfold pending. by rewrite H. Qed.
(** An element in the hands of the thread is nowhere else. *)
Lemma det_apart e det hands ids t : ok (e :: det) hands ids t ->
  (forall p e', (e', p) ∈ without Pool (links t) -> e' <> e) /\ (forall e', e' ∈ det -> e' <> e) /\ (forall e', e' ∈ hands -> e' <> e).
Proof.
  intros Hok. destruct (ok_head _ _ _ _ _ Hok) as (Hl & Hd & Hh & _). split_and!; intros; intros ->; try done.
  apply Hl, fst_elem. exists p. by apply elem_without in H as [H _].
Qed.

(** The callback of an element in hand is called. *)
Lemma good_fire w e det q : good w -> det_of (thread w) = e :: det -> det_of q = det ->
  (forall t, clockwork (tm w) t -> loop_ok (mkWorld t q (callers w))) -> (forall t, clockwork (tm w) t -> stand (mkWorld t q (callers w)) = stand w) ->
  (forall e' tp t, clockwork (tm w) t -> e' ∈ det -> to_call w e' tp -> to_call (mkWorld t q (callers w)) e' tp) ->
  exists t', trigger_one e (tm w) = Ret (t', tt) /\ good (mkWorld t' q (callers w)).
Proof.
  intros [Hok Hac Hr Hlo Hse Hca Hcs] Hd Hq Hl Hst Htc. rewrite Hd in *. destruct (det_apart _ _ _ _ _ Hok) as (A1 & A2 & A3).
  destruct (fire_ok _ _ _ _ _ Hok) as (t' & E & HS & Hok' & Hac' & Hel & Hlk). apply same_clockwork in HS. exists t'. split; [done|].
  constructor; cbn [tm thread callers]; rewrite ?Hq; try done.
  - by rewrite Hac'.
  - by eapply range_clockwork.
  - by apply Hl.
  - intros e' p H. rewrite Hlk in H. rewrite (tp_of_other (tm w) t' e e' Hel) by (by eapply A1). destruct (Hse e' p H) as (tp & Ht & Hs). exists tp.
    split; [done|]. rewrite Hst by done. by eapply seated_clockwork.
  - intros e' H. rewrite (tp_of_other (tm w) t' e e' Hel) by (by eapply A2). destruct (Hca e') as (tp & Ht & Hs); [by right|]. exists tp. split; [done|]. by apply Htc.
  - eapply callers_keep; [by apply clockwork_onward|destruct Hr; lia| |done]. intros e' H. apply (tp_of_other (tm w) t' e e' Hel). by apply A3.
Qed.
(** A queue is emptied. *)
Lemma good_pop w p q : good w -> p <> Pool ->
  (forall t l, clockwork (tm w) t -> det_of (q l) ≡ₚ l ++ det_of (thread w)) -> (forall t l, clockwork (tm w) t -> loop_ok (mkWorld t (q l) (callers w))) ->
  (forall t l p' tp, clockwork (tm w) t -> p' <> p -> seated (tm w) (stand w) tp p' -> seated t (stand (mkWorld t (q l) (callers w))) tp p') ->
  (forall t l e' tp, clockwork (tm w) t -> (e' ∈ l -> seated (tm w) (stand w) tp p) -> (e' ∉ l -> to_call w e' tp) -> to_call (mkWorld t (q l) (callers w)) e' tp) ->
  exists t' l, pop_all p (tm w) = Ret (t', l) /\ good (mkWorld t' (q l) (callers w)).
Proof.
  intros [Hok Hac Hr Hlo Hse Hca Hcs] Hp Hd Hl Hst Htc.
  destruct (empty_queue_ok p _ _ _ _ Hp Hok) as (t' & l & E & HS & Hel & Hf & Hlk & Hq & Hok' & Hac'). apply same_clockwork in HS. exists t', l. split; [done|].
  assert (forall e, tp_of t' e = tp_of (tm w) e) as Htp by (intros e; unfold tp_of; by rewrite Hel).
  constructor; cbn [tm thread callers].
  - by rewrite (Hd t') by done.
  - rewrite (account_det _ _ _ _ (Hd t' l HS)). by rewrite Hac'.
  - by eapply range_clockwork.
  - by apply Hl.
  - intros e p' H. rewrite Htp. rewrite Hlk, without_comm in H. apply elem_without in H as [H Hn]. destruct (Hse e p' H) as (tp & Ht & Hs). exists tp. split; [done|]. by eapply Hst.
  - intros e H. rewrite Htp. rewrite (Hd t' l HS) in H. destruct (decide (e ∈ l)) as [Hin|Hnin].
    + assert ((e, p) ∈ without Pool (links (tm w))) as He by (apply elem_without; split; [|done]; subst l; by apply elem_members).
      destruct (Hse e p He) as (tp & Ht & Hs). exists tp. split; [done|]. apply Htc; try done. 
    + destruct (Hca e) as (tp & Ht & Hs); [set_solver|]. exists tp. split; [done|]. by apply Htc.
  - eapply callers_keep; [by apply clockwork_onward|destruct Hr; lia| |done]. intros e' H. apply Htp.
Qed.

(** ** The thread *)

(** A step that changes nothing but where the thread is. *)
Lemma good_goto w q : good w -> det_of q = det_of (thread w) -> (loop_ok (mkWorld (tm w) q (callers w))) ->
  stand (mkWorld (tm w) q (callers w)) = stand w -> (forall e tp, e ∈ det_of q -> to_call w e tp -> to_call (mkWorld (tm w) q (callers w)) e tp) ->
  good (mkWorld (tm w) q (callers w)).
Proof.
  intros [Hok Hac Hr Hlo Hse Hca Hcs] Hd Hl Hst Htc. constructor; cbn [tm thread callers]; rewrite ?Hd; try done.
  - intros e p H. rewrite Hst. by apply Hse.
  - intros e H. destruct (Hca e H) as (tp & Ht & Hc). exists tp. split; [done|]. apply Htc; [by rewrite Hd|done].
Qed.

Definition thread_good (clock : Z) (w : world) : Prop := exists w', thread_step clock w = Ret w' /\ good w'.
(** The elements of a queue that was emptied, and those the thread had already. *)
Lemma call_popped w t q (l : list nat) (e : nat) tp p : (e ∈ l -> seated (tm w) (stand w) tp p) -> (e ∉ l -> to_call w e tp) ->
  (e ∈ l -> seated (tm w) (stand w) tp p -> to_call (mkWorld t q (callers w)) e tp) ->
  (e ∉ l -> tp < 2 ^ 63 -> to_call (mkWorld t q (callers w)) e tp) -> to_call (mkWorld t q (callers w)) e tp.
Proof. intros H1 H2 H3 H4. destruct (decide (e ∈ l)) as [H|H]; [by apply H3, H1|]. apply H4; [done|]. by apply H2 in H as [? _]. Qed.

Lemma idle_good clock w : good w -> thread w = Idle -> thread_good clock w.
Proof.
  intros Hg Hq. destruct (good_pop w Complete Complete_ Hg) as (t' & l & E & Hg'); rewrite ?Hq; try done.
  - intros. by rewrite app_nil_r.
  - intros t l p' tp HC _ H. pose proof HC as (? & ? & HP). unfold stand in *. rewrite Hq in H. simpl. rewrite HP. by apply (seated_clockwork (tm w)).
  - intros t l e tp (Hb & Hp & HP) Hs Hn. eapply call_popped; [exact Hs|exact Hn| |].
    + intros _ [? H]. split; [done|]. simpl. by rewrite Hb, Hp, HP.
    + intros ? ?. split; [done|]. simpl. by intros ?.
  - eexists. split; [|exact Hg']. unfold thread_step. rewrite Hq. unfold run. by rewrite E.
Qed.
Lemma complete_good clock w l : good w -> thread w = Complete_ l -> thread_good clock w.
Proof.
  intros Hg Hq. destruct l as [|e l].
  - eexists. split; [unfold thread_step; by rewrite Hq|]. apply good_goto; rewrite ?Hq; try done; [unfold stand; by rewrite Hq|by intros e tp ?%elem_of_nil].
  - destruct (good_fire w e l (Complete_ l) Hg) as (t' & E & Hg'); rewrite ?Hq; try done.
    + intros t (_ & _ & HP). unfold stand. by rewrite Hq.
    + intros e' tp t (Hb & Hp & HP) He [? Hc]. rewrite Hq in Hc. split; [done|]. simpl. rewrite Hb, Hp, HP. intros _. apply Hc. by right.
    + eexists. split; [|exact Hg']. unfold thread_step. rewrite Hq. unfold run. by rewrite E.
Qed.
Lemma ok_set_point det hands ids t p : ok det hands ids t -> ok det hands ids (set_point p t).
Proof. by intros []. Qed.
Lemma clock_good clock w : good w -> thread w = Clock -> timely clock w -> thread_good clock w.
Proof.
  intros Hg Hq Ht. unfold timely in Ht. rewrite Hq in Ht. destruct Ht as [Hc Hd]. unfold thread_good, thread_step. rewrite Hq. cbv zeta.
  pose proof Hg as [Hok Hac Hr Hlo Hse Hca Hcs]. pose proof Hr as (Hp & Hb & Hpt & Hr63).
  destruct (Z.leb_spec (dest_of (tm w) clock) (point_ (tm w))) as [Hle|Hgt].
  - eexists. split; [done|]. apply good_goto; rewrite ?Hq; try done; [unfold stand; by rewrite Hq|by intros e tp ?%elem_of_nil].
  - destruct (dest_of_spec (tm w) clock Hp) as [Hdv Hdb]; [lia..|]. set (D := dest_of (tm w) clock) in *. eexists. split; [done|].
    assert (onward (tm w) (set_point D (tm w))) as HO by (split_and!; [done|done|simpl; lia]).
    constructor; cbn [tm thread callers det_of dispatchers]; rewrite ?Hq in *.
    + by apply ok_set_point.
    + exact Hac.
    + unfold range. cbn [precision_ begin_ point_ set_point]. lia.
    + unfold loop_ok, sweep. cbn. split_and!; try done; lia.
    + intros e p H. destruct (Hse e p H) as (tp & Htp & H63 & Hs). exists tp. split; [done|]. split; [done|].
      unfold stand in *. cbn [thread tm last i point_ set_point]. rewrite Hq in Hs. rewrite Z.add_0_r, Z.min_l by (simpl; lia).
      destruct p as [[|k] s| |]; try done; [left; naive_solver|]. cbn [begin_ precision_ point_ set_point] in *. nia.
    + by intros e ?%elem_of_nil.
    + eapply callers_keep; [exact HO|lia|done|done].
Qed.

(** The tick at which the loop stands. *)
Lemma pos_exact w p : range (tm w) -> sweep (tm w) p -> i p < delta p -> pos p = last p + i p /\ 0 <= pos p < 2 ^ 63.
Proof.
  intros (Hp & Hb & Hpt & Hr) (Hi & Hl & Hd & Hld & _) Hlt. assert (2 ^ 63 < 2 ^ 64) by done.
  assert (last p + i p < 2 ^ 63) by nia. unfold pos, u64. rewrite wrap_small by (unfold fits; lia). lia.
Qed.
(** An element that leaves the slot of level 0 for the tick [Q] is due, or in the next turn of the
    wheel; what stays is for later ticks. *)
Lemma slot_leaves t p tp : range t -> sweep t p -> i p < delta p -> seated t (last p + i p) tp (Wheel 0 ((last p + i p) mod 256)) -> early t p tp.
Proof.
  intros (Hp & Hb & Hpt & Hr) (Hi & Hl & Hd & Hld & Hn & _) Hlt [_ Hw]. set (Q := last p + i p) in *. unfold early.
  assert (forall P, P <= tick t tp < P + 256 -> Q mod 256 = tick t tp mod 256 -> exists k, tick t tp = Q + 256 * k) as Hk.
  { intros P _ Hm. exists (tick t tp / 256 - Q / 256). pose proof (Z.div_mod (tick t tp) 256 ltac:(lia)). pose proof (Z.div_mod Q 256 ltac:(lia)). lia. }
  destruct Hw as [[Hw Hm]|[Hw Hm]]; destruct (Hk _ Hw Hm) as [k Ek].
  - left. assert (tick t tp = Q) as E by lia. unfold tick in E. pose proof (Z.div_mod (tp - begin_ t) (precision_ t) ltac:(lia)).
    pose proof (Z.mod_pos_bound (tp - begin_ t) (precision_ t) ltac:(lia)). nia.
  - right. lia.
Qed.
Lemma window_next t Q tp s : window t Q tp s -> s <> Q mod 256 -> window t (Q + 1) tp s.
Proof. intros [H ->] Hn. split; [|done]. destruct (Z.eq_dec (tick t tp) Q) as [E|E]; [by rewrite E in Hn|lia]. Qed.
Lemma p8_0 x : p8 x 0 = x mod 256.
Proof. by rewrite p8_div, B_0, Z.div_1_r. Qed.

Lemma loop_good clock w p : good w -> thread w = Loop p -> thread_good clock w.
Proof.
  intros Hg Hq. pose proof Hg as [_ _ Hr Hlo _ _ _]. unfold loop_ok in Hlo. rewrite Hq in Hlo. destruct Hlo as [Hsw Hlv].
  unfold thread_good, thread_step. rewrite Hq. destruct (Z.ltb_spec (i p) (delta p)) as [Hlt|Hge].
  - destruct (Hlv Hlt) as [Hl0 Hts]. rewrite Hl0. destruct (pos_exact w p Hr Hsw Hlt) as [Hpos Hpr]. rewrite p8_0, Hpos.
    pose proof Hsw as (Hi & _ & _ & Hld & _).
    assert (stand w = last p + i p) as Hst by (unfold stand; rewrite Hq; lia).
    destruct (good_pop w (Wheel 0 ((last p + i p) mod 256)) (Slot p) Hg) as (t' & l & E & Hg'); rewrite ?Hq, ?Hst; try done.
    + intros t l HC. split_and!; [by apply (sweep_clockwork (tm w))|done..].
    + intros t l p' tp HC Hn [H63 Hs]. apply (seated_clockwork (tm w)); [done|]. unfold stand. cbn [thread last i]. split; [done|].
      destruct p' as [[|k] s| |]; try done. destruct Hs as [Hs|Hs]; [left|by right]. apply window_next; [done|]. intros ->. done.
    + intros t l e tp HC Hs Hn. rewrite <- Hst in Hs. eapply call_popped; [exact Hs|exact Hn| |]; rewrite ?Hst.
      * intros _ H. split; [by destruct H|]. intros _. apply (early_clockwork (tm w)); [done|]. by apply slot_leaves.
      * intros ? ?. split; [done|]. by intros ?.
    + eexists. split; [|exact Hg']. unfold run. by rewrite E.
  - eexists. split; [done|]. pose proof Hsw as (_ & _ & _ & Hld & Hnow & _). apply good_goto; rewrite ?Hq; try done.
    + unfold stand. rewrite Hq. cbn [thread tm]. lia.
    + intros e tp _ [? _]. by split.
Qed.
Lemma alter_head f (ts : list Z) : ts <> [] -> nth 0 (alter f 0%nat ts) 0 = f (nth 0 ts 0) /\ alter f 0%nat ts <> [].
Proof. by destruct ts. Qed.
Lemma slot_good clock w p l : good w -> thread w = Slot p l -> thread_good clock w.
Proof.
  intros Hg Hq. pose proof Hg as [_ _ Hr Hlo _ _ _]. unfold loop_ok in Hlo. rewrite Hq in Hlo. destruct Hlo as (Hsw & Hlt & Hlv & Hts).
  destruct l as [|e l].
  - unfold thread_good, thread_step. rewrite Hq. cbv zeta. eexists. split; [done|]. rewrite Hlv. pose proof Hsw as (Hi & Hl & Hd & Hld & Hn & Hne).
    destruct (alter_head (Z.add 1) (triggerSlots p) Hne) as [Hh Hne']. rewrite Hh, Hts.
    apply good_goto; rewrite ?Hq; try done.
    + unfold loop_ok, sweep. cbn [thread tm now last delta i level triggerSlots]. split; [done|]. split; [done|]. split; [lia|].
      split; [by rewrite B_0, Z.mod_1_r|]. split; [done|]. rewrite Hh, Hts. destruct (Z.eqb_spec (1 + i p) 256); [right|left]; lia.
    + unfold stand. by rewrite Hq.
    + intros e tp _ [? _]. by split.
  - destruct (good_fire w e (l ++ dispatchers p) (Slot p l) Hg) as (t' & E & Hg'); rewrite ?Hq; try done.
    + intros t HC. split_and!; [by apply (sweep_clockwork (tm w))|done..].
    + intros t HC. unfold stand. by rewrite Hq.
    + intros e' tp t HC He [? Hc]. rewrite Hq in Hc. split; [done|]. simpl. intros Hin. apply (early_clockwork (tm w)); [done|]. apply Hc. by right.
    + eexists. split; [|exact Hg']. unfold thread_step. rewrite Hq. unfold run. by rewrite E.
Qed.
Lemma pos_bytes x lv : 0 < x < 2 ^ 63 -> x mod B lv = 0 -> p8 x lv = 0 -> (lv <= 7)%nat -> x mod B (S lv) = 0 /\ (lv < 7)%nat.
Proof.
  intros Hx Hm H8 Hl. pose proof (B_pos lv). assert (x mod B (S lv) = 0) as E.
  { rewrite B_S, Z.mul_comm. rewrite Z.rem_mul_r by lia. rewrite Hm, <- p8_div, H8. lia. }
  split; [done|]. destruct (decide (lv = 7%nat)) as [->|]; [|lia]. rewrite B_8, Z.mod_small in E; [lia|]. assert (2 ^ 63 < 2 ^ 64) by done. lia.
Qed.
Lemma nth_alter_S f (ts : list Z) k : nth 0 (alter f (S k) ts) 0 = nth 0 ts 0 /\ (ts <> [] -> alter f (S k) ts <> []).
Proof. by destruct ts. Qed.
(** The end of an iteration. *)
Lemma next_iteration_ok w p : range (tm w) -> sweep (tm w) p -> i p < delta p ->
  (level p = 0%nat /\ nth 0 (triggerSlots p) 0 = i p + 1) \/ (level p = 1%nat /\ i p + 1 = delta p) ->
  let p' := next_iteration p in
  sweep (tm w) p' /\ (i p' < delta p' -> level p' = 0%nat /\ nth 0 (triggerSlots p') 0 = i p') /\ Z.min (last p' + i p') (point_ (tm w)) = last p + i p + 1.
Proof.
  intros Hr Hsw Hlt Hts. pose proof Hsw as (Hi & Hl & Hd & Hld & Hn & Hne). cbv zeta. unfold next_iteration, sweep. cbv zeta.
  cbn [now last delta i level triggerSlots]. destruct Hts as [[-> Hts]|[-> Hts]]; cbn [Nat.ltb Nat.leb andb Nat.sub].
  - change (additions 0) with 1. replace (u64 (i p + 1)) with (i p + 1) by (unfold u64; rewrite wrap_small; [done|unfold fits; lia]).
    split_and!; try done; lia.
  - change (additions 1) with 256. change (additions 0) with 1. pose proof (p8_range (pos p) 0) as H8. rewrite Z.mul_1_r.
    replace (u64 (256 - p8 (pos p) 0)) with (256 - p8 (pos p) 0) by (unfold u64; rewrite wrap_small; [done|unfold fits; lia]).
    rewrite (proj2 (Z.ltb_lt _ _)) by lia. rewrite Z.min_l by lia.
    replace (u64 (i p + (256 - p8 (pos p) 0))) with (i p + (256 - p8 (pos p) 0)) by (unfold u64; rewrite wrap_small; [done|unfold fits; lia]).
    split_and!; try done; lia.
Qed.
Lemma upgrade_good clock w p lv s : good w -> thread w = Upgrade p lv s -> thread_good clock w.
Proof.
  intros Hg Hq. pose proof Hg as [_ _ Hr Hlo _ _ _]. unfold loop_ok in Hlo. rewrite Hq in Hlo. destruct Hlo as (Hsw & Hlt & Hlv & Hm & -> & Hts).
  destruct (pos_exact w p Hr Hsw Hlt) as [Hpos Hpr]. unfold thread_good, thread_step. rewrite Hq.
  destruct ((0 <? pos p) && (p8 (pos p) lv =? 0))%bool eqn:Eb.
  - apply andb_true_iff in Eb as [Hp0%Z.ltb_lt H8%Z.eqb_eq].
    destruct (pos_bytes (pos p) lv) as [Hm' Hl7]; [lia|done|done|done|]. rewrite (proj2 (Nat.ltb_lt _ _)) by done. cbv zeta.
    destruct (good_pop w (Wheel (S lv) (p8 (pos p) (S lv)))
      (fun l => Upgrade (with_dispatchers (dispatchers p ++ l) (alter (Z.add 1) (S lv) (triggerSlots p)) p) (S lv) (p8 (pos p) (S lv))) Hg) as (t' & l & E & Hg'); rewrite ?Hq; try done.
    + intros t l HC. simpl. apply Permutation_app_comm.
    + intros t l HC. destruct (nth_alter_S (Z.add 1) (triggerSlots p) lv) as [E0 E1]. unfold loop_ok. cbn [thread tm].
      split; [|split; [done|split; [lia|split; [exact Hm'|split; [done|]]]]].
      * apply (sweep_clockwork (tm w)); [done|]. destruct Hsw as (? & ? & ? & ? & ? & ?). unfold sweep, with_dispatchers. cbn [i last delta now triggerSlots]. split_and!; try done. by apply E1.
      * unfold with_dispatchers. cbn [level triggerSlots i delta]. by rewrite E0.
    + intros t l p' tp HC _ H. apply (seated_clockwork (tm w)); [done|]. unfold stand in *. rewrite Hq in H. done.
    + intros t l e tp HC Hs Hn'. eapply call_popped; [exact Hs|exact Hn'| |]; [intros _ [? _]|intros _ ?]; by split.
    + eexists. split; [|exact Hg']. unfold run. by rewrite E.
  - eexists. split; [done|]. destruct (next_iteration_ok w p Hr Hsw Hlt Hts) as (H1 & H2 & H3).
    apply good_goto; rewrite ?Hq; try done.
    + unfold stand. rewrite Hq. exact H3.
    + intros e tp _ [? _]. by split.
Qed.

Lemma final_good clock w n l : good w -> thread w = Final n l -> thread_good clock w.
Proof.
  intros Hg Hq. destruct l as [|e l].
  { eexists. split; [unfold thread_step; by rewrite Hq|]. apply good_goto; rewrite ?Hq; try done; [unfold stand; by rewrite Hq|by intros e tp ?%elem_of_nil]. }
  pose proof Hg as [Hok Hac Hr Hlo Hse Hca Hcs]. unfold loop_ok in Hlo. rewrite Hq in *. cbn [det_of] in *. destruct (det_apart _ _ _ _ _ Hok) as (A1 & A2 & A3).
  destruct (redispatch_ok n _ _ _ _ _ Hok) as (t' & E & HS & Hok' & Hac' & Hel & Hlk). apply same_clockwork in HS. pose proof HS as (Hb & Hp & HP).
  assert (forall e', e' <> e -> tp_of t' e' = tp_of (tm w) e') as Htp by (intros; by eapply tp_of_other).
  assert (forall q : trigger, stand (mkWorld t' (Final n l) (callers w)) = point_ (tm w)) as Hst by done.
  exists (mkWorld t' (Final n l) (callers w)). split; [unfold thread_step; rewrite Hq; unfold run; by rewrite E|].
  assert (forall e' p, (e', p) ∈ without Pool (links (tm w)) -> exists tp, tp_of t' e' = Some tp /\ seated t' (point_ t') tp p) as Hold.
  { intros e' p H. rewrite Htp by (by eapply A1). destruct (Hse e' p H) as (tp & Ht & Hs). exists tp. split; [done|]. rewrite HP.
    unfold stand in Hs. rewrite Hq in Hs. by apply (seated_clockwork (tm w)). }
  constructor; cbn [tm thread callers det_of].
  - done.
  - by rewrite Hac'.
  - by eapply range_clockwork.
  - unfold loop_ok. cbn [thread tm]. by rewrite Hb, Hp, HP.
  - unfold stand. cbn [thread tm]. destruct Hlk as [->|(x & x' & Ex & Ex' & Htx & Hn & Hlk)]; [done|].
    destruct (spot x (point_ (tm w)) (tm w)) as [k s] eqn:Es. rewrite Hlk. intros e' p [H|[= -> ->]%list_elem_of_singleton]%elem_of_app; [by apply Hold|].
    exists (tp_ x). unfold tp_of. rewrite Ex'. simpl. rewrite Htx. split; [done|]. rewrite HP. apply (seated_clockwork (tm w)); [done|].
    apply spot_window; [done|rewrite time_of_exact by (done || destruct Hr; lia); lia| |done].
    destruct (Hca e) as (tp & Ht & H63 & _); [by left|]. unfold tp_of in Ht. rewrite Ex in Ht. simpl in Ht. congruence.
  - intros e' H. rewrite Htp by (by apply A2). destruct (Hca e') as (tp & Ht & H63 & _); [by right|]. exists tp. by split.
  - eapply callers_keep; [by apply clockwork_onward|destruct Hr; lia| |done]. intros e' H. apply Htp. by apply A3.
Qed.
Lemma thread_step_good clock w : good w -> timely clock w -> thread_good clock w.
Proof.
  intros Hg Ht. destruct (thread w) as [|l| |p|p l|p lv s|n l] eqn:Hq.
  - by apply idle_good.
  - by eapply complete_good.
  - by apply clock_good.
  - by eapply loop_good.
  - by eapply slot_good.
  - by eapply upgrade_good.
  - by eapply final_good.
Qed.

(** ** The callers *)

Lemma loop_ok_clockwork w t' cs' : clockwork (tm w) t' -> loop_ok w -> loop_ok (mkWorld t' (thread w) cs').
Proof.
  intros HC. pose proof HC as (Hb & Hp & HP). unfold loop_ok. cbn [thread tm]. destruct (thread w); try done.
  - intros [H ?]. split; [by apply (sweep_clockwork (tm w))|done].
  - intros [H ?]. split; [by apply (sweep_clockwork (tm w))|done].
  - intros [H ?]. split; [by apply (sweep_clockwork (tm w))|done].
  - by rewrite Hb, Hp, HP.
Qed.
Lemma stand_clockwork w t' cs' : clockwork (tm w) t' -> stand (mkWorld t' (thread w) cs') = stand w.
Proof. intros (_ & _ & HP). unfold stand. cbn [thread tm]. by rewrite HP. Qed.
Lemma to_call_clockwork w t' cs' e tp : clockwork (tm w) t' -> to_call w e tp -> to_call (mkWorld t' (thread w) cs') e tp.
Proof.
  intros HC. pose proof HC as (Hb & Hp & HP). unfold to_call. cbn [thread tm]. intros [H63 H]. split; [done|]. destruct (thread w); try done.
  - by rewrite Hb, Hp, HP.
  - intros Hin. apply (early_clockwork (tm w)); [done|]. by apply H.
Qed.
Lemma good_caller w t' cs' : good w -> clockwork (tm w) t' -> ok (det_of (thread w)) (hands_of cs') (ids_of cs') t' ->
  account t' (det_of (thread w)) (hands_of cs') ≡ₚ started cs' ->
  (forall e p, (e, p) ∈ without Pool (links t') -> exists tp, tp_of t' e = Some tp /\ seated (tm w) (stand w) tp p) ->
  (forall e, e ∈ det_of (thread w) -> tp_of t' e = tp_of (tm w) e) -> Forall (caller_time t') cs' -> good (mkWorld t' (thread w) cs').
Proof.
  intros [Hok Hac Hr Hlo Hse Hca Hcs] HC Hok' Hac' Hse' Hd Hcs'. constructor; cbn [tm thread callers]; try done.
  - by eapply range_clockwork.
  - by apply loop_ok_clockwork.
  - intros e p H. destruct (Hse' e p H) as (tp & Ht & Hs). exists tp. split; [done|]. rewrite stand_clockwork by done. by apply (seated_clockwork (tm w)).
  - intros e H. rewrite Hd by done. destruct (Hca e H) as (tp & Ht & Hs). exists tp. split; [done|]. by apply to_call_clockwork.
Qed.

Definition caller_good (fresh : bool) (c : nat) (w : world) : Prop := exists w', caller_step fresh c w = Ret w' /\ good w'.
(** The elements of a world that are not an element of its own. *)
Lemma others_pending t det hands e : e ∉ pending t det hands ->
  (forall e' p, (e', p) ∈ without Pool (links t) -> e' <> e) /\ (forall e', e' ∈ det -> e' <> e) /\ (forall e', e' ∈ hands -> e' <> e).
Proof.
  unfold pending. rewrite !elem_of_app, fst_elem. intros H. split_and!; intros; intros ->; apply H; eauto.
Qed.
Lemma start_good fresh c tp w : good w -> callers w !! c = Some (CStart tp) -> caller_good fresh c w.
Proof.
  intros Hg Hc. pose proof Hg as [Hok Hac Hr _ Hse _ Hcs]. destruct (new_timer_ok fresh tp (S c) _ _ _ _ Hok) as (t' & e & E & [HC Hok' Hac' Hel (x & Ex & Htx) Hlk Hout]).
  destruct (others_pending _ _ _ _ Hout) as (A1 & A2 & A3).
  assert (forall e', e' <> e -> tp_of t' e' = tp_of (tm w) e') as Htp by (intros; by eapply tp_of_other).
  destruct (omap_update hand _ c _ (CLoad e) Hc) as (l1 & H1 & H1'), (omap_update ident _ c _ (CLoad e) Hc) as (l2 & H2 & H2').
  cbn [hand ident option_list app] in H1, H1', H2, H2'. rewrite <- H1 in H1'. rewrite <- H2 in H2'.
  eexists. split; [unfold caller_step; rewrite Hc; unfold run; by rewrite E|]. apply good_caller; try done.
  - by rewrite H1', H2'.
  - rewrite (account_hands _ _ _ _ H1'), Hac', (started_new _ _ _ _ Hc). by constructor.
  - intros e' p H. rewrite Hlk in H. rewrite Htp by (by eapply A1). by apply Hse.
  - intros e' H. apply Htp. by apply A2.
  - rewrite Forall_lookup in Hcs. pose proof (Hcs c _ Hc) as H63. rewrite <- Forall_lookup in Hcs. apply Forall_insert.
    + eapply callers_keep; [by apply clockwork_onward|destruct Hr; lia| |done]. intros e' H. apply Htp. by apply A3.
    + exists tp. unfold tp_of. rewrite Ex. simpl. by rewrite Htx.
Qed.
Lemma load_good fresh c e w : good w -> callers w !! c = Some (CLoad e) -> caller_good fresh c w.
Proof.
  intros Hg Hc. pose proof Hg as [Hok Hac Hr _ Hse _ Hcs].
  destruct (omap_update hand _ c _ (CPlace e (point_ (tm w))) Hc) as (l1 & H1 & H1'), (omap_update ident _ c _ (CPlace e (point_ (tm w))) Hc) as (l2 & H2 & H2').
  cbn [hand ident option_list app] in H1, H1', H2, H2'. rewrite <- H1 in H1'. rewrite <- H2 in H2'.
  eexists. split; [unfold caller_step; by rewrite Hc|]. apply good_caller; try done.
  - by rewrite H1', H2'.
  - rewrite (account_hands _ _ _ _ H1'). by rewrite (started_same _ _ _ _ Hc).
  - apply Forall_insert; [done|]. rewrite Forall_lookup in Hcs. pose proof (Hcs c _ Hc) as H63. split; [done|]. destruct Hr. lia.
Qed.
Lemma place_good fresh c e last w : good w -> callers w !! c = Some (CPlace e last) -> caller_good fresh c w.
Proof.
  intros Hg Hc. pose proof Hg as [Hok Hac Hr _ Hse _ Hcs]. rewrite Forall_lookup in Hcs. pose proof (Hcs c _ Hc) as [(tp & Htp & H63) Hlast]. rewrite <- Forall_lookup in Hcs.
  destruct (elems (tm w) !! e) as [x|] eqn:Ex; [|unfold tp_of in Htp; by rewrite Ex in Htp]. assert (tp_ x = tp) as Etp by (unfold tp_of in Htp; rewrite Ex in Htp; simpl in Htp; congruence).
  destruct (omap_update hand _ c _ (CHold e) Hc) as (l1 & H1 & H1'), (omap_update ident _ c _ (CHold e) Hc) as (l2 & H2 & H2').
  destruct (omap_update hand _ c _ (CLoad e) Hc) as (l3 & H3 & H3'), (omap_update ident _ c _ (CLoad e) Hc) as (l4 & H4 & H4').
  cbn [hand ident option_list app] in *. rewrite <- H3 in H3'. rewrite <- H4 in H4'. rewrite <- H2 in H2'.
  assert (ok (det_of (thread w)) (e :: l1) (ids_of (callers w)) (tm w)) as Hok1 by (by rewrite <- H1).
  destruct (place_timer_ok e last _ _ _ _ x Hok1 Ex) as (t' & b & E & Hb). exists (mkWorld t' (thread w) (<[c := if b then CHold e else CLoad e]> (callers w))).
  split; [unfold caller_step; rewrite Hc; unfold run; by rewrite E|]. destruct b.
  - destruct Hb as (HS & Hok' & Hac' & Hel & x' & p & Ex' & Htx & Hlk & Hp). apply same_clockwork in HS.
    pose proof (ok_nodup _ _ _ _ Hok1) as Hn. assert (e ∉ pending (tm w) (det_of (thread w)) l1) as Hout.
    { intros Hin%pending_owned. assert (owned (tm w) (det_of (thread w)) (e :: l1) ≡ₚ e :: owned (tm w) (det_of (thread w)) l1) as Ho
        by (unfold owned; rewrite !app_assoc; symmetry; apply Permutation_middle). rewrite Ho in Hn. by apply NoDup_cons in Hn as [? _]. }
    destruct (others_pending _ _ _ _ Hout) as (A1 & A2 & A3). assert (forall e', tp_of t' e' = tp_of (tm w) e') as Htps.
    { intros e'. destruct (decide (e' = e)) as [->|Hne]; [|by eapply tp_of_other]. unfold tp_of. rewrite Ex, Ex'. simpl. by rewrite Htx. }
    apply good_caller; try done.
    + by rewrite H1', H2'.
    + rewrite (account_hands _ _ _ _ H1'), Hac', <- (account_hands _ _ _ _ H1), Hac. by rewrite (started_same _ _ _ _ Hc).
    + intros e' p' H. rewrite Htps. rewrite Hlk in H. apply elem_of_app in H as [H|[= -> ->]%list_elem_of_singleton]; [by apply Hse|].
      exists tp. split; [done|]. rewrite <- Etp in *. destruct Hp as [[-> Hd]|(-> & Hd & k & s & Es & ->)].
      * split; [done|]. rewrite time_of_exact in Hd by done. destruct Hr as (? & ? & ? & ?). nia.
      * destruct (spot_window _ _ _ _ Hr Hd H63 Es) as [_ Hw]. split; [done|]. destruct k; [|done]. right. by destruct Hw.
    + apply Forall_insert; [|done]. eapply callers_keep; [by apply clockwork_onward|destruct Hr; lia| |done]. intros e' _. apply Htps.
  - subst t'. apply good_caller; try done.
    + by rewrite H3', H4'.
    + rewrite (account_hands _ _ _ _ H3'). by rewrite (started_same _ _ _ _ Hc).
    + apply Forall_insert; [done|]. by exists tp.
Qed.
Lemma hold_good fresh c e w : good w -> callers w !! c = Some (CHold e) -> caller_good fresh c w.
Proof.
  intros Hg Hc. pose proof Hg as [Hok Hac Hr _ Hse _ Hcs].
  destruct (omap_update hand _ c _ CEnd Hc) as (l1 & H1 & H1'), (omap_update ident _ c _ CEnd Hc) as (l2 & H2 & H2').
  cbn [hand ident option_list app] in *. rewrite <- H1 in H1'.
  assert (ok (det_of (thread w)) (hands_of (callers w)) (e :: l2) (tm w)) as Hok1 by (by rewrite <- H2).
  destruct (drop_ok e _ _ _ _ Hok1) as (t' & E & HS & Hok' & Hac' & Hel & Hlk & Hpe). apply same_clockwork in HS.
  assert (forall e', e' ∈ pending (tm w) (det_of (thread w)) (hands_of (callers w)) -> tp_of t' e' = tp_of (tm w) e') as Htp.
  { intros e' H. destruct (decide (e' = e)) as [->|Hne]; [|by eapply tp_of_other]. destruct (Hpe H) as (x & x' & Ex & Ex' & Ht). unfold tp_of. rewrite Ex, Ex'. simpl. by rewrite Ht. }
  unfold pending in Htp. eexists. split; [unfold caller_step; rewrite Hc; unfold run; by rewrite E|]. apply good_caller; try done.
  - by rewrite H1', H2'.
  - rewrite (account_hands _ _ _ _ H1'), Hac', Hac. by rewrite (started_same _ _ _ _ Hc).
  - intros e' p H. rewrite Hlk in H. rewrite Htp by (rewrite !elem_of_app, fst_elem; left; by exists p). by apply Hse.
  - intros e' H. apply Htp. rewrite !elem_of_app. by right; left.
  - apply Forall_insert; [|done]. eapply callers_keep; [by apply clockwork_onward|destruct Hr; lia| |done]. intros e' H. apply Htp. rewrite !elem_of_app. by right; right.
Qed.
Lemma caller_step_good fresh c w : good w -> caller_good fresh c w.
Proof.
  intros Hg. destruct (callers w !! c) as [[tp|e|e l|e|]|] eqn:Hc.
  - by eapply start_good.
  - by eapply load_good.
  - by eapply place_good.
  - by eapply hold_good.
  - exists w. unfold caller_step. by rewrite Hc.
  - exists w. unfold caller_step. by rewrite Hc.
Qed.

(** ** The theorems *)

(** A timer as it is made: [Timer()], [SetPrecision] and [SetPoolSize]. *)
Definition setup (begin precision max reserve : Z) : res (Timer * unit) := (SetPrecision precision ;;; SetPoolSize max reserve) (Timer_new begin).
Definition unused (t : Timer) : Prop := ok [] [] [] t /\ without Pool (links t) = [] /\ fired t = [].
Lemma reserve_unused n t : unused t -> exists t', reserve_pool n t = Ret (t', tt) /\ unused t' /\ clockwork t t'.
Proof.
  revert t. induction n as [|n IH]; intros t Hu; [by exists t|]. destruct Hu as (Hok & Hl & Hf). cbn [reserve_pool].
  destruct (fresh_out _ _ _ _ (fresh_elem t) Hok) as (Hx & Ho & _); [done|]. set (e := fresh_elem t) in *.
  unfold bind at 1. unfold new_element. cbn [mbind res_bind]. fold e. set (t1 := mkTimer _ _ _ _ _ _ _ _ _).
  assert (elems t1 !! e = Some (mkElement 0 false 0 None 1)) as Ex1 by apply lookup_insert_eq.
  assert (e ∉ (links t1).*1) as Hl1 by (unfold owned in Ho; rewrite app_nil_r in Ho; done).
  rewrite (bind_ret _ _ _ _ _ (push_ok t1 Pool e _ Ex1 Hl1)). set (t2 := set_elems _ _).
  destruct (IH t2) as (t' & E & Hu & HC).
  - split_and!; [|cbn [links t2 set_elems set_links t1]; by rewrite without_snoc_same|done].
    apply (ok_update [] [] [] [] [] [] t t2 e Hok); try done; simpl; try lia.
    + intros e' Hn. by rewrite !lookup_insert_ne.
    + intros e' Hn. split; [|done]. intros p. rewrite elem_of_app, list_elem_of_singleton. naive_solver.
    + unfold owned in *. simpl. rewrite !app_nil_r in *. rewrite fmap_app. apply NoDup_app. split_and!; [|set_solver|apply NoDup_singleton].
      pose proof (ok_nodup _ _ _ _ Hok) as Hn. unfold owned in Hn. by rewrite !app_nil_r in Hn.
    + rewrite lookup_insert_eq. cbn [active_ refs with_refs]. rewrite queued_in by (rewrite fmap_app; set_solver). done.
    + by intros _ ?%elem_of_nil.
  - exists t'. done.
Qed.
Lemma setup_unused b pr mx rs : 0 <= b < 2 ^ 63 -> exists t, setup b pr mx rs = Ret (t, tt) /\ unused t /\ range t.
Proof.
  intros Hb. unfold setup, SetPrecision, SetPoolSize, bind, gets, modify. cbn [mbind res_bind]. cbv zeta. set (t0 := set_max mx _).
  assert (unused t0) as Hu by (split_and!; [constructor|..]; simpl; try done; [constructor|intros e [?%elem_of_nil|?%elem_of_nil]; done|intros e ?%elem_of_nil; done]).
  destruct (reserve_unused (Z.to_nat (rs - pool_size t0)) t0 Hu) as (t & E & Hut & Hc1 & Hc2 & Hc3). exists t. split; [done|]. split; [done|].
  unfold range. rewrite Hc1, Hc2, Hc3. cbn [t0 set_max set_precision precision_ begin_ point_ Timer_new].
  repeat match goal with |- context [?x <? ?y] => destruct (Z.ltb_spec x y) end; unfold microseconds, minutes in *; lia.
Qed.
Lemma initial_good t times : unused t -> range t -> Forall (fun tp => tp < 2 ^ 63) times -> good (initial t times).
Proof.
  intros (Hok & Hl & Hf) Hr Ht. assert (hands_of (CStart <$> times) = [] /\ ids_of (CStart <$> times) = []) as [Eh Ei] by (by induction times as [|? ? IH]; [|apply IH; by apply Forall_cons in Ht as [_ ?]]).
  assert (started (CStart <$> times) = []) as Es.
  { destruct (started (CStart <$> times)) as [|n l] eqn:E; [done|]. assert (n ∈ started (CStart <$> times)) as H by (rewrite E; by left).
    unfold started in H. apply list_elem_of_fmap in H as (c & -> & [H _]%list_elem_of_filter). unfold begun in H. rewrite list_lookup_fmap in H. by destruct (times !! c). }
  constructor; cbn [initial tm thread callers det_of]; rewrite ?Eh, ?Ei; try done.
  - unfold account, pending. by rewrite Hl, Hf, Es.
  - intros e p H. rewrite Hl in H. by apply elem_of_nil in H.
  - by intros e ?%elem_of_nil.
  - by rewrite Forall_fmap.
Qed.
Lemma reachable_good b pr mx rs times t w : 0 <= b < 2 ^ 63 -> setup b pr mx rs = Ret (t, tt) -> Forall (fun tp => tp < 2 ^ 63) times ->
  rtc Step (initial t times) w -> good w.
Proof.
  intros Hb Hs Ht Hr. destruct (setup_unused b pr mx rs Hb) as (t' & E & Hu & Hrg). rewrite Hs in E. simplify_eq.
  apply (reachable_inv Step (fun x => x = initial t' times) good); [intros ? ->; by apply initial_good| |by exists (initial t' times)].
  intros x y Hx [clock y' Htm E|fresh c y' E].
  - destruct (thread_step_good clock x Hx Htm) as (z & Ez & Hz). congruence.
  - destruct (caller_step_good fresh c x Hx) as (z & Ez & Hz). congruence.
Qed.

(** The elements of the timers that are to come. *)
Definition in_flight (w : world) : list nat := pending (tm w) (det_of (thread w)) (hands_of (callers w)).
(** One caller starts a timer for 300 microseconds, and two rounds of the thread follow. *)
Fixpoint run_steps (l : list (Z + nat)) (w : world) : res world :=
  match l with [] => Ret w | inl clock :: l => w ← thread_step clock w; run_steps l w | inr c :: l => w ← caller_step false c w; run_steps l w end.
Definition timely_b (clock : Z) (w : world) : bool :=
  match thread w with Clock => (begin_ (tm w) <=? clock) && (clock <? 2 ^ 63) && (dest_of (tm w) clock - point_ (tm w) <=? 256) | _ => true end.
Fixpoint all_timely (l : list (Z + nat)) (w : world) : bool :=
  match l with
  | [] => true
  | inl clock :: l => timely_b clock w && match thread_step clock w with Ret w => all_timely l w | _ => false end
  | inr c :: l => match caller_step false c w with Ret w => all_timely l w | _ => false end
  end.
Lemma run_steps_reach l w w' : all_timely l w = true -> run_steps l w = Ret w' -> rtc Step w w'.
Proof.
  revert w. induction l as [|[clock|c] l IH]; intros w Ht Hr; simpl in *; [injection Hr as ->; apply rtc_refl| |].
  - apply andb_true_iff in Ht as [H1 H2]. destruct (thread_step clock w) as [w1| |] eqn:E; [|done|done]. apply rtc_l with w1; [|by apply IH].
    apply (s_thread _ clock); [|done]. unfold timely, timely_b in *. destruct (thread w); try done.
    apply andb_true_iff in H1 as [[H1%Z.leb_le H3%Z.ltb_lt]%andb_true_iff H4%Z.leb_le]. done.
  - destruct (caller_step false c w) as [w1| |] eqn:E; [|done|done]. apply rtc_l with w1; [|by apply IH]. by apply (s_caller _ false c).
Qed.
Definition first_timer : Timer := Timer_new 0.
Lemma first_timer_setup : setup 0 100000 0 0 = Ret (first_timer, tt).
Proof. vm_compute. reflexivity. Qed.


(** C39: A timer is called before its time only if it was to come at least 256 ticks, less the ticks
    by which the thread was late, after the tick of the round: every element that the thread is
    about to call for a tick of the wheel is due or that far away, and those of the slot of due
    timers are due. *)
Theorem timer_race_early_bound b pr mx rs times t w : 0 <= b < 2 ^ 63 -> setup b pr mx rs = Ret (t, tt) -> Forall (fun tp => tp < 2 ^ 63) times ->
  rtc Step (initial t times) w ->
  match thread w with
  | Slot p l => forall e, e ∈ l -> exists x, elems (tm w) !! e = Some x /\ (tp_ x <= now p \/ point_ (tm w) + 256 - delta p <= tick (tm w) (tp_ x))
  | Complete_ l => forall e, e ∈ l -> exists x, elems (tm w) !! e = Some x /\ tp_ x <= begin_ (tm w) + point_ (tm w) * precision_ (tm w)
  | _ => True
  end.
Proof.
  intros Hb Hs Ht Hr. pose proof (reachable_good b pr mx rs times t w Hb Hs Ht Hr) as Hg. pose proof (g_call _ Hg) as Hca. unfold to_call in Hca.
  destruct (thread w) as [|l| |p|p l|p lv s|n l]; try done.
  - intros e He. destruct (Hca e He) as (tp & Etp & _ & H). unfold tp_of in Etp. destruct (elems (tm w) !! e) as [x|]; [|done]. injection Etp as <-. exists x. split; [done|]. by apply H.
  - intros e He. destruct (Hca e) as (tp & Etp & _ & H); [apply elem_of_app; by left|]. unfold tp_of in Etp. destruct (elems (tm w) !! e) as [x|]; [|done]. injection Etp as <-. exists x. split; [done|]. by apply H.
Qed.

(** In a round that is one tick late a timer for 25.6 ms that is started between the store of
    [point_] and the visit of the slot is called at once: 25.5 ms early. *)
Definition early_run : list (Z + nat) := [inl 0; inl 0; inl 100000; inr 0%nat; inr 0%nat; inr 0%nat; inl 0].
Theorem timer_race_calls_early : exists w p, rtc Step (initial first_timer [25600000]) w /\ thread w = Slot p [0%nat] /\ now p = 100000 /\ delta p = 1 /\
  (exists x, elems (tm w) !! 0%nat = Some x /\ tp_ x = 25600000) /\ exists w', thread_step 0 w = Ret w' /\ fired (tm w') = [(0%nat, 1%nat)].
Proof.
  destruct (run_steps early_run (initial first_timer [25600000])) as [w| |] eqn:E; [|vm_compute in E; discriminate E|vm_compute in E; discriminate E].
  assert (rtc Step (initial first_timer [25600000]) w) as Hr by (apply (run_steps_reach early_run); [vm_compute; reflexivity|exact E]).
  vm_compute in E. injection E as <-. eexists _, _. split; [exact Hr|]. do 3 (split; [reflexivity|]). split; [by eexists|]. eexists. split; vm_compute; reflexivity.
Qed.
Lemma timer_race_early_bound_witness : exists w p, rtc Step (initial first_timer [25600000]) w /\ thread w = Slot p [0%nat] /\
  exists x, elems (tm w) !! 0%nat = Some x /\ (tp_ x <= now p \/ point_ (tm w) + 256 - delta p <= tick (tm w) (tp_ x)).
Proof.
  destruct (run_steps early_run (initial first_timer [25600000])) as [w| |] eqn:E; [|vm_compute in E; discriminate E|vm_compute in E; discriminate E].
  assert (rtc Step (initial first_timer [25600000]) w) as Hr by (apply (run_steps_reach early_run); [vm_compute; reflexivity|exact E]).
  pose proof (timer_race_early_bound 0 100000 0 0 [25600000] first_timer w ltac:(lia) first_timer_setup ltac:(apply Forall_singleton; lia) Hr) as H.
  vm_compute in E. injection E as <-. eexists _, _. split; [exact Hr|]. split; [reflexivity|]. apply (H 0%nat). left.
Defined.
