(* ===== verification/TaskRing.v ===== *)
(** The packet queue through which a scheduler hands tasks to a processor: the packet
    structures of [include/stream_api.h] with their memory layout, the buffer and the two
    indices of [SoftQueue], and the code of [Processor::AddTask] and
    [Processor::AddNewTasks] that writes and reads it.

    The buffer is word-addressed memory ([Section layout] computes that both packet types are
    a whole number of words); an access outside of the buffer is [AssertFail].  [UpQueue] is
    what the processor needs of such a queue; [task_ring_loses] shows that the ring does
    not provide it. *)
From S2P Require Import Prelude.
Local Open Scope Z_scope.

(** ** Memory layout

    A field is its element's size, which is its alignment too, and the number of elements;
    pointers have 8 bytes. *)
Definition field := (Z * Z)%type.
Definition round_up (n a : Z) : Z := (n + a - 1) / a * a.
Definition end_of (fs : list field) : Z :=
  fold_left (fun off f => round_up off f.1 + f.1 * f.2) fs 0.
Definition align_of (fs : list field) : Z := fold_left (fun a f => Z.max a f.1) fs 1.
Definition sizeof (fs : list field) : Z := round_up (end_of fs) (align_of fs).
Definition offsetof (fs : list field) (i : nat) : Z :=
  round_up (end_of (take i fs)) (nth i fs (1, 1)).1.

Definition uint16 : field := (2, 1).
Definition uint32 : field := (4, 1).
Definition uint64 : field := (8, 1).
Definition pointer : field := (8, 1).
(** [signal_t] holds one handle. *)
Definition signal : field := (8, 1).
Definition array (f : field) (n : Z) : field := (f.1, f.2 * n).

Definition kernel_dispatch_packet : list field :=
  [uint16; uint16; uint16; uint16; uint16; uint32; uint16; uint16; uint16; uint32; uint32; uint64; signal;
   pointer; uint32; pointer].
Definition device_dispatch_packet : list field :=
  [uint16; uint16; uint32; pointer; uint32; array uint64 4; pointer; signal].
Definition barrier_and_packet : list field := [uint16; uint16; uint32; array signal 5; pointer; signal].
Definition barrier_or_packet : list field := [uint16; uint16; uint32; array signal 5; pointer; signal].
Definition dma_copy_packet : list field :=
  [uint16; uint16; array signal 1; pointer; pointer; uint64; signal; array uint32 3].
Definition task_packet : list field :=
  [uint16; uint16; array signal 1; pointer; pointer; uint64; signal; array uint32 3].

(** [union] of the packets: [AqlPacket]. *)
Definition AqlPacket : list (list field) :=
  [kernel_dispatch_packet; barrier_and_packet; barrier_or_packet; device_dispatch_packet; dma_copy_packet; task_packet].
Definition union_sizeof (u : list (list field)) : Z :=
  round_up (fold_left (fun s fs => Z.max s (sizeof fs)) u 0) (fold_left (fun a fs => Z.max a (align_of fs)) u 1).

(** In words of 8 bytes. *)
Definition task_packet_words : Z := sizeof task_packet / 8.
Definition AqlPacket_words : Z := union_sizeof AqlPacket / 8.
Definition task_word : Z := offsetof task_packet 3 / 8.

Lemma layout :
  sizeof task_packet = 8 * task_packet_words /\ union_sizeof AqlPacket = 8 * AqlPacket_words /\
  offsetof task_packet 0 = 0 /\ offsetof task_packet 3 = 8 * task_word /\
  task_packet_words = 8 /\ AqlPacket_words = 9 /\ task_word = 2.
Proof. repeat split. Qed.

Definition PACKET_TYPE_INVALID : Z := 1.
Definition PACKET_TYPE_TASK : Z := 7.
Definition PACKET_HEADER_TYPE : Z := 0.

(** ** The queue *)

(** [SoftQueue]: the buffer's words, its sizes and the two dispatch ids. *)
Record SoftQueue := mkQ {
  words : gmap Z Z; queue_size_pkts_ : Z; queue_size_bytes_ : Z;
  read_dispatch_id : Z; write_dispatch_id : Z }.

Definition in_buffer (q : SoftQueue) (w : Z) : bool := ((0 <=? w) && (8 * w <? queue_size_bytes_ q))%bool.
Definition load (w : Z) : st SoftQueue Z := fun q =>
  if in_buffer q w then Ret (q, default 0 (words q !! w)) else AssertFail.
Definition store (w v : Z) : st SoftQueue unit := fun q =>
  if in_buffer q w then
    Ret (mkQ (<[w := v]> (words q)) (queue_size_pkts_ q) (queue_size_bytes_ q) (read_dispatch_id q) (write_dispatch_id q), tt)
  else AssertFail.

(** The 16-bit header at a word, and the word with another header. *)
Definition header_of (v : Z) : Z := Z.land v 65535.
Definition with_header (v h : Z) : Z := Z.lor (Z.ldiff v 65535) (Z.land h 65535).

(** The constructor: the header of every packet is set to [PACKET_TYPE_INVALID]. *)
Definition size_bytes (ring_size : Z) : Z := u32 (ring_size * union_sizeof AqlPacket).
Definition SoftQueue_new (ring_size : Z) : SoftQueue :=
  mkQ (fold_right (fun i m => <[Z.of_nat i * AqlPacket_words := PACKET_TYPE_INVALID]> m) ∅ (seq 0 (Z.to_nat ring_size)))
    ring_size (size_bytes ring_size) 0 0.

Definition LoadReadIndexRelaxed : st SoftQueue Z := gets read_dispatch_id.
Definition LoadWriteIndexRelaxed : st SoftQueue Z := gets write_dispatch_id.
Definition StoreReadIndexRelaxed (v : Z) : st SoftQueue unit :=
  modify (fun q => mkQ (words q) (queue_size_pkts_ q) (queue_size_bytes_ q) (u64 v) (write_dispatch_id q)).
Definition StoreWriteIndexRelaxed (v : Z) : st SoftQueue unit :=
  modify (fun q => mkQ (words q) (queue_size_pkts_ q) (queue_size_bytes_ q) (read_dispatch_id q) (u64 v)).

(** The packet that [AddTask] stores: zero but for its header and its task. *)
Definition task_packet_image (tk : Z) : list Z :=
  map (fun w => if w =? 0 then Z.shiftl PACKET_TYPE_TASK PACKET_HEADER_TYPE else if w =? task_word then tk else 0)
    (map Z.of_nat (seq 0 (Z.to_nat task_packet_words))).
Fixpoint store_words (w : Z) (vs : list Z) : st SoftQueue unit :=
  match vs with [] => ret tt | v :: vs => store w v ;;; store_words (w + 1) vs end.

(** [AddTask]: the part that writes the queue.  [up_queue_size_] is the processor's copy of
    the size in bytes. *)
Definition put_task (up_queue_size_ tk : Z) : st SoftQueue unit :=
  let up_queue_mask := u32 (up_queue_size_ - 1) in
  let* index := LoadWriteIndexRelaxed in
  store_words (Z.land index up_queue_mask * task_packet_words) (task_packet_image tk) ;;;
  StoreWriteIndexRelaxed (index + 1).

(** [AddNewTasks]: the loop from the read index to the write index; [found] collects the
    tasks that are pushed to the runnable queue. *)
Fixpoint take_loop (fuel : nat) (up_queue_size_ index write_index : Z) (found : list Z) : st SoftQueue (Z * list Z) :=
  if index =? write_index then ret (index, found)
  else match fuel with
  | O => failed
  | S fuel =>
      let w := (index mod up_queue_size_) * AqlPacket_words in
      let* v := load w in
      let packet_type := Z.land (Z.shiftr (header_of v) PACKET_HEADER_TYPE) 255 in
      if packet_type =? PACKET_TYPE_INVALID then ret (index, found)
      else
        let* found :=
          if packet_type =? PACKET_TYPE_TASK then let* tk := load (w + task_word) in ret (found ++ [tk]) else ret found in
        let header := Z.lor (Z.land (header_of v) 65280) (Z.shiftl PACKET_TYPE_INVALID PACKET_HEADER_TYPE) in
        store w (with_header v header) ;;;
        take_loop fuel up_queue_size_ (u64 (index + 1)) write_index found
  end.

Definition take_tasks (up_queue_size_ : Z) : st SoftQueue (list Z) :=
  let* write_index := LoadWriteIndexRelaxed in
  let* read_index := LoadReadIndexRelaxed in
  let* r := take_loop (Z.to_nat (u64 (write_index - read_index))) up_queue_size_ read_index write_index [] in
  (if negb (read_index =? r.1) then StoreReadIndexRelaxed r.1 else ret tt) ;;;
  ret r.2.

(** ** What a processor needs of the queue *)

(** [uq_abs] are the tasks handed over and not yet taken. *)
Class UpQueue (Q : Type) := {
  uq_put : nat -> st Q unit;
  uq_take : st Q (list nat);
  uq_abs : Q -> list nat }.

Class UpQueueLaws (Q : Type) `{UpQueue Q} := {
  uq_put_law : forall q tk q', uq_put tk q = Ret (q', tt) -> uq_abs q' = uq_abs q ++ [tk];
  uq_take_law : forall q, exists q', uq_take q = Ret (q', uq_abs q) /\ uq_abs q' = [] }.

(** A queue that keeps the promise. *)
#[export] Instance list_up_queue : UpQueue (list nat) :=
  {| uq_put tk := fun q => Ret (q ++ [tk], tt); uq_take := fun q => Ret ([], q); uq_abs q := q |}.
#[export] Instance list_up_queue_laws : UpQueueLaws (list nat).
Proof. split; simpl; [by intros ? ? ? [= <-]|eauto]. Qed.

(** The program's queue of [n] packets; the processor reads its size in bytes when it is
    built. *)
Definition put_all (n : Z) (tks : list Z) : st SoftQueue unit :=
  for_each (put_task (size_bytes n)) tks.
Definition take_from (n : Z) : st SoftQueue (list Z) := take_tasks (size_bytes n).

Definition returns {S} (m : res (S * unit)) : bool := match m with Ret _ => true | _ => false end.
Lemma returns_true {S} (m : res (S * unit)) : returns m = true -> exists s, m = Ret (s, tt).
Proof. destruct m as [[s []]| |]; [eauto|done..]. Qed.

(** The run returned [r] and the processor has read everything. *)
Definition drained {A} `{EqDecision A} (m : res (SoftQueue * A)) (r : A) : bool :=
  match m with Ret (q, a) => bool_decide (a = r) && (read_dispatch_id q =? write_dispatch_id q) | _ => false end.
Lemma drained_true {A} `{EqDecision A} (m : res (SoftQueue * A)) (r : A) :
  drained m r = true -> exists q, m = Ret (q, r) /\ read_dispatch_id q = write_dispatch_id q.
Proof.
  destruct m as [[q a]| |]; simpl; [|done..]. intros [H1%bool_decide_eq_true H2%Z.eqb_eq]%andb_true_iff. subst. eauto.
Qed.

(** The writer steps through the buffer by [sizeof(task_packet_t)] and the reader by
    [sizeof(AqlPacket)], which is larger: of tasks handed over one after the other, each
    taken at once or all together, the processor receives the first and loses the second. *)
Theorem task_ring_loses :
  let a := 4096 in let b := 8192 in
  (exists q, (put_all 1024 [a; b] ;;; take_from 1024) (SoftQueue_new 1024) = Ret (q, [a]) /\
     read_dispatch_id q = write_dispatch_id q) /\
  (exists q, (put_all 1024 [a] ;;; let* l1 := take_from 1024 in put_all 1024 [b] ;;; let* l2 := take_from 1024 in ret (l1, l2))
     (SoftQueue_new 1024) = Ret (q, ([a], [])) /\ read_dispatch_id q = write_dispatch_id q).
Proof.
  split; apply drained_true; vm_compute; reflexivity.
Qed.

(** Nothing wraps the indices into the 1024 packets that the scheduler asks for: the mask
    and the modulus are the size in bytes, so the writer leaves the buffer with the task of
    index 1152, and a reader that is called after every task reads behind it after 1151. *)
Theorem task_ring_overflow :
  let put (n : nat) := put_all 1024 (repeat 4096 n) in
  let keep_up (n : nat) := for_each (fun tk => put_all 1024 [tk] ;;; let* _l := take_from 1024 in ret tt) (repeat 4096 n) in
  ((exists q, put 1152%nat (SoftQueue_new 1024) = Ret (q, tt)) /\ put 1153%nat (SoftQueue_new 1024) = AssertFail) /\
  ((exists q, keep_up 1150%nat (SoftQueue_new 1024) = Ret (q, tt)) /\ keep_up 1151%nat (SoftQueue_new 1024) = AssertFail).
Proof.
  intros put keep_up. split; (split; [apply returns_true|]); vm_compute; reflexivity.
Qed.
