(* ===== verification/Processor.v ===== *)
(** The processor of [processor/Processor.cpp]: one thread that runs the tasks of its
    runnable queue, with suspension and wake-up of tasks, stealing by the dispatcher and
    collection of finished tasks.

    The state is that of a whole scheduler: the tasks, the queues of all processors
    ([Links.v]) and the fields of each processor, with the point its thread has reached.
    A region under a queue's lock is one step, and so is the code between two switches of
    context.  The queue from which new tasks come is any [UpQueue] ([TaskRing.v]). *)
From S2P Require Import Prelude Links TaskRing.
Local Open Scope Z_scope.

(** ** Data *)

(** [enum class TaskState]. *)
Inductive TaskState := runnable | block | done_.
#[export] Instance TaskState_eq_dec : EqDecision TaskState.
Proof. solve_decision. Defined.

(** The queues of a processor: [runnableQueue_], [waitQueue_], [gcQueue_], [newQueue_]. *)
Inductive kind := Runnable | Wait | Gc | New.
#[export] Instance kind_eq_dec : EqDecision kind.
Proof. solve_decision. Defined.
Definition place : Type := nat * kind.

(** [Task]; [check_] is the hook's field: the queue that last claimed the task. *)
Record Task := mkTask {
  state_ : TaskState; proc_ : option nat; suspendId_ : Z; yieldCount_ : Z; eptr_ : bool;
  check_ : option place; refs : Z }.

(** Where the thread is: at the head of the outer loop of [Process], in [cv_.wait], at the
    head of the inner loop, inside the running task, or behind the loops. *)
Inductive pc := Outer | Waiting | Inner | InTask | Stopped.
#[export] Instance pc_eq_dec : EqDecision pc.
Proof. solve_decision. Defined.

(** [SuspendEntry]: the task its weak pointer names and the suspension's number. *)
Record SuspendEntry := mkEntry { tk_ : nat; id_ : Z }.

Section processor.
Context {Q : Type} `{UpQueue Q}.

Record Proc := mkProc {
  active_ : bool; runningTask_ : option nat; nextTask_ : option nat; addNewQuota_ : Z;
  markTick_ : Z; markSwitch_ : Z; switchCount_ : Z; waiting_ : bool; notified_ : bool;
  up_queue_ : Q; pc_ : pc }.

Record System := mkSystem {
  tasks : gmap nat Task; links : list (nat * place); procs : list Proc;
  stop_ : bool; taskCount_ : Z }.

(** [Processor::Processor]: the thread starts at the head of [Process]. *)
Definition Processor_new (up_queue : Q) : Proc :=
  mkProc true None None 0 0 0 0 false false up_queue Outer.

Definition M (A : Type) : Type := st System A.

(** *** Fields *)
Definition set_tasks (m : gmap nat Task) (s : System) : System := mkSystem m (links s) (procs s) (stop_ s) (taskCount_ s).
Definition set_links (l : list (nat * place)) (s : System) : System := mkSystem (tasks s) l (procs s) (stop_ s) (taskCount_ s).
Definition set_procs (l : list Proc) (s : System) : System := mkSystem (tasks s) (links s) l (stop_ s) (taskCount_ s).

Definition set_running (t : option nat) (p : Proc) : Proc :=
  mkProc (active_ p) t (nextTask_ p) (addNewQuota_ p) (markTick_ p) (markSwitch_ p) (switchCount_ p) (waiting_ p) (notified_ p) (up_queue_ p) (pc_ p).
Definition set_next (t : option nat) (p : Proc) : Proc :=
  mkProc (active_ p) (runningTask_ p) t (addNewQuota_ p) (markTick_ p) (markSwitch_ p) (switchCount_ p) (waiting_ p) (notified_ p) (up_queue_ p) (pc_ p).
Definition set_quota (n : Z) (p : Proc) : Proc :=
  mkProc (active_ p) (runningTask_ p) (nextTask_ p) n (markTick_ p) (markSwitch_ p) (switchCount_ p) (waiting_ p) (notified_ p) (up_queue_ p) (pc_ p).
Definition set_mark (tick switch : Z) (p : Proc) : Proc :=
  mkProc (active_ p) (runningTask_ p) (nextTask_ p) (addNewQuota_ p) tick switch (switchCount_ p) (waiting_ p) (notified_ p) (up_queue_ p) (pc_ p).
Definition set_switchCount (n : Z) (p : Proc) : Proc :=
  mkProc (active_ p) (runningTask_ p) (nextTask_ p) (addNewQuota_ p) (markTick_ p) (markSwitch_ p) n (waiting_ p) (notified_ p) (up_queue_ p) (pc_ p).
Definition set_waiting (b : bool) (p : Proc) : Proc :=
  mkProc (active_ p) (runningTask_ p) (nextTask_ p) (addNewQuota_ p) (markTick_ p) (markSwitch_ p) (switchCount_ p) b (notified_ p) (up_queue_ p) (pc_ p).
Definition set_notified (b : bool) (p : Proc) : Proc :=
  mkProc (active_ p) (runningTask_ p) (nextTask_ p) (addNewQuota_ p) (markTick_ p) (markSwitch_ p) (switchCount_ p) (waiting_ p) b (up_queue_ p) (pc_ p).
Definition set_up (q : Q) (p : Proc) : Proc :=
  mkProc (active_ p) (runningTask_ p) (nextTask_ p) (addNewQuota_ p) (markTick_ p) (markSwitch_ p) (switchCount_ p) (waiting_ p) (notified_ p) q (pc_ p).
Definition set_pc (c : pc) (p : Proc) : Proc :=
  mkProc (active_ p) (runningTask_ p) (nextTask_ p) (addNewQuota_ p) (markTick_ p) (markSwitch_ p) (switchCount_ p) (waiting_ p) (notified_ p) (up_queue_ p) c.
Definition set_active (b : bool) (p : Proc) : Proc :=
  mkProc b (runningTask_ p) (nextTask_ p) (addNewQuota_ p) (markTick_ p) (markSwitch_ p) (switchCount_ p) (waiting_ p) (notified_ p) (up_queue_ p) (pc_ p).

Definition get_task (e : nat) : M Task := fun s => x ← deref (tasks s !! e); Ret (s, x).
Definition put_task (e : nat) (x : Task) : M unit := modify (fun s => set_tasks (<[e := x]> (tasks s)) s).
Definition get_proc (i : nat) : M Proc := fun s => p ← deref (procs s !! i); Ret (s, p).
Definition upd_proc (i : nat) (f : Proc -> Proc) : M unit :=
  let* p := get_proc i in modify (fun s => set_procs (<[i := f p]> (procs s)) s).

Definition with_refs (x : Task) (n : Z) : Task := mkTask (state_ x) (proc_ x) (suspendId_ x) (yieldCount_ x) (eptr_ x) (check_ x) n.
Definition with_check (x : Task) (c : option place) : Task := mkTask (state_ x) (proc_ x) (suspendId_ x) (yieldCount_ x) (eptr_ x) c (refs x).
Definition with_state (x : Task) (c : TaskState) : Task := mkTask c (proc_ x) (suspendId_ x) (yieldCount_ x) (eptr_ x) (check_ x) (refs x).
Definition with_proc (x : Task) (c : option nat) : Task := mkTask (state_ x) c (suspendId_ x) (yieldCount_ x) (eptr_ x) (check_ x) (refs x).
Definition with_suspendId (x : Task) (n : Z) : Task := mkTask (state_ x) (proc_ x) n (yieldCount_ x) (eptr_ x) (check_ x) (refs x).
Definition with_yieldCount (x : Task) (n : Z) : Task := mkTask (state_ x) (proc_ x) (suspendId_ x) n (eptr_ x) (check_ x) (refs x).
Definition upd_task (e : nat) (f : Task -> Task) : M unit := let* x := get_task e in put_task e (f x).

(** *** Reference counts

    The deleter is [Scheduler::DeleteTask]; [~Task] asserts that the hook is free. *)
Definition linked (e : nat) (s : System) : bool := bool_decide (e ∈ (links s).*1).
Definition IncrementRef (e : nat) : M unit := upd_task e (fun x => with_refs x (refs x + 1)).
Definition DeleteTask (e : nat) : M unit := fun s =>
  if linked e s then AssertFail
  else Ret (mkSystem (delete e (tasks s)) (links s) (procs s) (stop_ s) (taskCount_ s - 1), tt).
Definition DecrementRef (e : nat) : M unit :=
  let* x := get_task e in
  put_task e (with_refs x (refs x - 1)) ;;;
  if refs x - 1 =? 0 then DeleteTask e else ret tt.

(** *** Queues *)
Definition queue (p : place) (s : System) : list nat := members p (links s).
Definition size (p : place) (s : System) : Z := Z.of_nat (length (queue p s)).

Definition push (p : place) (e : nat) (refCount : bool) : M Z :=
  let* l := gets (linked e) in
  if l then failed
  else modify (fun s => set_links (links s ++ [(e, p)]) s) ;;;
       upd_task e (fun x => with_check x (Some p)) ;;;
       (if refCount then IncrementRef e else ret tt) ;;;
       gets (size p).

Definition push_list (p : place) (es : list nat) : M unit :=
  let* l := gets (fun s => existsb (fun e => linked e s) es) in
  if l then failed else modify (fun s => set_links (links s ++ map (fun e => (e, p)) es) s).

Definition erase (p : place) (e : nat) (check refCount : bool) : M bool :=
  let* x := get_task e in
  if (check && negb (bool_decide (check_ x = Some p)))%bool then ret false
  else
    let* q := gets (queue p) in
    if bool_decide (e ∈ q) then
      modify (fun s => set_links (unlink e (links s)) s) ;;;
      put_task e (with_check x None) ;;;
      (if refCount then DecrementRef e else ret tt) ;;; ret true
    else failed.

(** [out->check_ = check_]. *)
Definition claim (p : place) (o : option nat) : M (option nat) :=
  match o with Some e => upd_task e (fun x => with_check x (Some p)) ;;; ret o | None => ret None end.
Definition front (p : place) : M (option nat) := let* q := gets (queue p) in claim p (head q).
(** [ptr->next]. *)
Definition next_of (e : nat) (s : System) : option nat :=
  match List.find (fun x => (x.1 =? e)%nat) (links s) with Some x => after_in e (queue x.2 s) | None => None end.
Definition next (p : place) (e : nat) : M (option nat) := let* o := gets (next_of e) in claim p o.

Definition pop_all (p : place) : M (list nat) := fun s => Ret (set_links (without p (links s)) s, queue p s).
(** The last [n] elements, one at least. *)
Definition pop_back (p : place) (n : Z) : M (list nat) := fun s =>
  let q := queue p s in
  let k := (length q - Nat.max 1 (Z.to_nat n))%nat in
  Ret (set_links (filter (fun x => x.1 ∉ drop k q) (links s)) s, drop k q).

(** ** [Processor] *)

Definition GC (i : nat) : M unit :=
  let* l := pop_all (i, Gc) in
  for_each DecrementRef l ;;; for_each DecrementRef l.

Definition RunnableSize (i : nat) (s : System) : Z := size (i, Runnable) s + size (i, New) s.

(** The part of [AddTask]s and [NotifyCondition] that wakes the thread: [cv_.notify_all] ends
    the wait of a waiting thread, which the step [wake] does. *)
Definition NotifyCondition (i : nat) : M unit :=
  let* p := get_proc i in
  if waiting_ p then ret tt else upd_proc i (set_notified true).

Definition AddTask (i : nat) (tk : nat) : M unit :=
  let* p := get_proc i in
  let* q := (fun s => '(q, _) ← uq_put tk (up_queue_ p); Ret (s, q)) in
  upd_proc i (set_up q) ;;; NotifyCondition i.

Definition AddTask_list (i : nat) (slist : list nat) : M unit :=
  push_list (i, New) slist ;;; NotifyCondition i.

Definition AddNewTasks (i : nat) : M bool :=
  let* p := get_proc i in
  let* r := (fun s => '(q, l) ← uq_take (up_queue_ p); Ret (s, (q, l))) in
  upd_proc i (set_up r.1) ;;;
  for_each (fun tk => let* _n := push (i, Runnable) tk true in ret tt) r.2 ;;;
  ret true.

(** [WaitCondition], up to the wait. *)
Definition WaitCondition (i : nat) : M bool :=
  GC i ;;;
  let* p := get_proc i in
  if notified_ p then upd_proc i (set_notified false) ;;; ret false
  else upd_proc i (set_waiting true) ;;; ret true.

(** The head of the outer loop. *)
Definition Process_outer (i : nat) : M unit :=
  let* stop := gets stop_ in
  if stop then upd_proc i (set_pc Stopped)
  else
    let* t := front (i, Runnable) in
    upd_proc i (set_running t) ;;;
    let* t := match t with
              | Some _ => ret t
              | None => let* _b := AddNewTasks i in
                        let* t := front (i, Runnable) in upd_proc i (set_running t) ;;; ret t
              end in
    match t with
    | Some _ => upd_proc i (fun p => set_pc Inner (set_quota 1 p))
    | None => let* w := WaitCondition i in
              if w then upd_proc i (set_pc Waiting) else let* _b := AddNewTasks i in ret tt
    end.

(** The end of [cv_.wait], and the rest of that round. *)
Definition Process_wake (i : nat) : M unit :=
  upd_proc i (set_waiting false) ;;;
  let* _b := AddNewTasks i in upd_proc i (set_pc Outer).

(** The head of the inner loop, up to [SwapIn]. *)
Definition Process_inner (i : nat) : M unit :=
  let* p := get_proc i in
  let* stop := gets stop_ in
  match runningTask_ p, stop with
  | Some e, false =>
      upd_task e (fun x => with_proc (with_state x runnable) (Some i)) ;;;
      upd_proc i (fun p => set_pc InTask (set_switchCount (u64 (switchCount_ p + 1)) p))
  | _, _ => upd_proc i (set_pc Outer)
  end.

(** The three cases behind [SwapIn]. *)
Definition switch_runnable (i : nat) (e : nat) : M unit :=
  let* nx := gets (next_of e) in
  match nx with
  | Some _ => let* t := claim (i, Runnable) nx in upd_proc i (set_running t)
  | None =>
      let* p := get_proc i in
      let* n := gets (size (i, New)) in
      if ((addNewQuota_ p <? 1) || (n =? 0))%bool then upd_proc i (set_running None)
      else
        let* ok := AddNewTasks i in
        if ok then
          let* t := next (i, Runnable) e in
          upd_proc i (set_running t) ;;; upd_proc i (fun p => set_quota (addNewQuota_ p - 1) p)
        else upd_proc i (set_running None)
  end.

Definition switch_block (i : nat) : M unit :=
  upd_proc i (fun p => set_next None (set_running (nextTask_ p) p)).

(** The [done] case: first the next task is found. *)
Definition choose_next (i : nat) (e : nat) : M unit :=
  let* t := next (i, Runnable) e in
  upd_proc i (set_next t) ;;;
  let* p := get_proc i in
  match t with
  | None =>
      if 0 <? addNewQuota_ p then
        let* ok := AddNewTasks i in
        if ok then let* t := next (i, Runnable) e in
                   upd_proc i (fun p => set_quota (addNewQuota_ p - 1) (set_next t p))
        else ret tt
      else ret tt
  | Some _ => ret tt
  end.

Definition switch_done (i : nat) (e : nat) : M unit :=
  choose_next i e ;;;
  let* _b := erase (i, Runnable) e false true in
  let* n := gets (size (i, Gc)) in
  (if 16 <? n then GC i else ret tt) ;;;
  let* _n := push (i, Gc) e true in
  let* x := get_task e in
  (if eptr_ x then (fun _ => Throw 3) else ret tt) ;;;
  upd_proc i (fun p => set_next None (set_running (nextTask_ p) p)).

(** Behind [SwapIn]. *)
Definition Process_switch (i : nat) : M unit :=
  let* p := get_proc i in
  let* e := (fun s => e ← deref (runningTask_ p); Ret (s, e)) in
  let* x := get_task e in
  match state_ x with
  | runnable => switch_runnable i e
  | block => switch_block i
  | done_ => switch_done i e
  end ;;;
  upd_proc i (set_pc Inner).

(** ** Tasks

    [CoYield] of the running task, and the end of [Task::Run]: an exception of the task's
    function leaves it under [immedaitely_throw] and is dropped otherwise; nothing assigns
    [eptr_]. *)
Definition CoYield (i : nat) : M unit :=
  let* p := get_proc i in
  let* e := (fun s => e ← deref (runningTask_ p); Ret (s, e)) in
  upd_task e (fun x => with_yieldCount x (u64 (yieldCount_ x + 1))) ;;;
  Process_switch i.

Definition Run_end (i : nat) (thrown immedaitely_throw : bool) : M unit :=
  if (thrown && immedaitely_throw)%bool then (fun _ => Throw 2)
  else
    let* p := get_proc i in
    let* e := (fun s => e ← deref (runningTask_ p); Ret (s, e)) in
    upd_task e (fun x => with_state x done_) ;;; CoYield i.

(** [Scheduler::CreateTask]: a task with one reference, which the processor is given. *)
Definition Task_new : Task := mkTask runnable None 0 0 false None 1.
Definition CreateTask (i : nat) (tk : nat) : M unit :=
  modify (fun s => mkSystem (<[tk := Task_new]> (tasks s)) (links s) (procs s) (stop_ s) (taskCount_ s + 1)) ;;;
  AddTask i tk.

Definition SuspendBySelf (i : nat) (tk : nat) : M SuspendEntry :=
  let* p := get_proc i in
  if negb (bool_decide (runningTask_ p = Some tk)) then failed
  else
    let* x := get_task tk in
    if negb (bool_decide (state_ x = runnable)) then failed
    else
      let id := u64 (suspendId_ x + 1) in
      put_task tk (with_suspendId (with_state x block) id) ;;;
      let* t := next (i, Runnable) tk in
      upd_proc i (set_next t) ;;;
      let* _b := erase (i, Runnable) tk false false in
      let* _n := push (i, Wait) tk false in
      ret (mkEntry tk id).

(** [Suspend()] on the thread of processor [self]. *)
Definition Suspend (self : nat) : M SuspendEntry :=
  let* p := get_proc self in
  match runningTask_ p with
  | None => failed
  | Some tk =>
      let* x := get_task tk in
      match proc_ x with None => failed | Some j => SuspendBySelf j tk end
  end.

Definition IsExpire (entry : SuspendEntry) (s : System) : bool :=
  match tasks s !! tk_ entry with
  | None => true
  | Some x => negb (id_ entry =? suspendId_ x)
  end.

(** [WakeupBySelf] called on the thread of processor [self] ([None]: another thread). *)
Definition WakeupBySelf (self : option nat) (j : nat) (tk : nat) (id : Z) : M bool :=
  let* x := get_task tk in
  if negb (id =? suspendId_ x) then ret false
  else
    put_task tk (with_suspendId x (u64 (suspendId_ x + 1))) ;;;
    let* _b := erase (j, Wait) tk false false in
    let* sizeAfterPush := push (j, Runnable) tk false in
    (if ((sizeAfterPush =? 1) && negb (bool_decide (self = Some j)))%bool then NotifyCondition j else ret tt) ;;;
    ret true.

(** [Wakeup]: the weak pointer is locked for the duration of the call. *)
Definition Wakeup (self : option nat) (entry : SuspendEntry) : M bool :=
  let* alive := gets (fun s => bool_decide (is_Some (tasks s !! tk_ entry))) in
  if negb alive then ret false
  else
    IncrementRef (tk_ entry) ;;;
    let* x := get_task (tk_ entry) in
    let* r := match proc_ x with Some j => WakeupBySelf self j (tk_ entry) (id_ entry) | None => ret false end in
    DecrementRef (tk_ entry) ;;; ret r.

(** ** Stealing and blocking *)

(** [eraseWithoutLock(task, true) || slist.erase(task, newQueue_.check_)]: the answer and what
    is left of [slist]. *)
Definition protect (i : nat) (o : option nat) (slist : list nat) : M (bool * list nat) :=
  match o with
  | None => ret (false, slist)
  | Some e =>
      let* b := erase (i, Runnable) e true true in
      if b then ret (true, slist)
      else
        let* x := get_task e in
        if bool_decide (check_ x = Some (i, New)) then
          DecrementRef e ;;; ret (true, filter (fun y => y <> e) slist)
        else ret (false, slist)
  end.

Definition push_back (i : nat) (b : bool) (o : option nat) : M unit :=
  match b, o with true, Some e => let* _n := push (i, Runnable) e true in ret tt | _, _ => ret tt end.

Definition Steal (i : nat) (n : Z) : M (list nat) :=
  let* slist := if 0 <? n then pop_back (i, New) (u32 n) else pop_all (i, New) in
  if ((0 <? n) && (n <=? Z.of_nat (length slist)))%bool then ret slist
  else
    let* p := get_proc i in
    let* r1 := protect i (runningTask_ p) slist in
    let* r2 := protect i (nextTask_ p) r1.2 in
    let slist := r2.2 in
    let* slist2 := if 0 <? n then pop_back (i, Runnable) (u32 (n - Z.of_nat (length slist)))
                   else pop_all (i, Runnable) in
    push_back i r1.1 (runningTask_ p) ;;;
    push_back i r2.1 (nextTask_ p) ;;;
    ret (slist2 ++ slist).

(** [Mark] and [IsBlocking] with the clock's microseconds and the option
    [cycle_timeout_us]. *)
Definition Mark (now : Z) (p : Proc) : Proc :=
  match runningTask_ p with
  | Some _ => if markSwitch_ p =? switchCount_ p then p else set_mark now (switchCount_ p) p
  | None => p
  end.
Definition IsBlocking (now cycle_timeout_us : Z) (p : Proc) : bool :=
  if ((markSwitch_ p =? 0) || negb (markSwitch_ p =? switchCount_ p))%bool then false
  else markTick_ p + cycle_timeout_us <? now.
End processor.

Arguments Proc Q : clear implicits.
Arguments System Q : clear implicits.
