(* ===== verification/ProcInv.v ===== *)
(** What the processors of [Processor.v] guarantee together.

    A world is a scheduler's state, the tasks that the dispatcher has stolen and not yet
    handed on, and the suspension entries that tasks gave away.  Its steps are the calls of
    the scheduler, of the dispatcher, of the threads of the processors between two switches of
    context and of other threads, in any order.  The invariant places every task at one site;
    it is a map beside the state, and the lemmas say how each queue operation moves a task
    from site to site. *)
From S2P Require Import Prelude Links TaskRing Processor.
Local Open Scope Z_scope.

(** Where a task is: linked in a queue; off all queues with the reference a queue gave it
    ([Held]) or without ([Bare]); handed to a processor and not yet taken ([InUp]). *)
Inductive site := At (p : place) | Held | Bare | InUp.
#[export] Instance site_eq_dec : EqDecision site.
Proof. solve_decision. Defined.

Definition refs_of (k : site) : Z := match k with At _ | Held => 2 | _ => 1 end.
Definition suspended (k : site) : bool := match k with At (_, Wait) => true | _ => false end.

(** Move a list of elements to one site. *)
Definition relocate (l : list nat) (k : site) (σ : gmap nat site) : gmap nat site :=
  foldr (fun e σ => <[e := k]> σ) σ l.
Lemma lookup_relocate l k σ e : relocate l k σ !! e = if decide (e ∈ l) then Some k else σ !! e.
Proof.
  induction l as [|x l IH]; [by rewrite decide_False by set_solver|].
  change (relocate (x :: l) k σ) with (<[x := k]> (relocate l k σ)).
  destruct (decide (x = e)) as [->|Hn]; [rewrite lookup_insert_eq, decide_True by set_solver; done|].
  rewrite lookup_insert_ne, IH by done. do 2 case_decide; set_solver.
Qed.

Lemma odd_u64 z : Z.odd (u64 z) = Z.odd z.
Proof.
  unfold u64, wrap. rewrite (Z.div_mod z (2 ^ 64)) at 2 by lia.
  rewrite Z.odd_add, Z.odd_mul. change (Z.odd (2 ^ 64)) with false. by rewrite andb_false_l.
Qed.
Lemma odd_u64_succ z : Z.odd (u64 (z + 1)) = negb (Z.odd z).
Proof. rewrite odd_u64, Z.odd_add. by destruct (Z.odd z). Qed.

Section inv.
Context {Q : Type} `{HQ : UpQueueLaws Q}.
Implicit Types (s : System Q) (σ : gmap nat site) (e i j : nat) (X : option nat) (D : list nat).

Definition ups (ps : list (Proc Q)) : list nat := concat (map (fun p => uq_abs (up_queue_ p)) ps).

(** A task at a site; [susp_ok] is about its suspension, which the operations change last. *)
Definition task_ok (k : site) (x : Task) : Prop :=
  eptr_ x = false /\ refs x = refs_of k /\ (forall i, check_ x <> Some (i, New)).
Definition susp_ok (k : site) (x : Task) : Prop :=
  Z.odd (suspendId_ x) = suspended k /\ (forall j, k = At (j, Wait) -> proc_ x = Some j /\ state_ x = block).

(** The sites agree with the tasks, the links and the processors' packet queues; the task [X]
    is in the middle of a suspension or wake-up. *)
Record Core (X : option nat) (σ : gmap nat site) (s : System Q) : Prop := {
  c_dom : forall e, is_Some (tasks s !! e) <-> is_Some (σ !! e);
  c_task : forall e k x, σ !! e = Some k -> tasks s !! e = Some x -> task_ok k x;
  c_susp : forall e k x, σ !! e = Some k -> tasks s !! e = Some x -> X <> Some e -> susp_ok k x;
  c_nodup : NoDup (links s).*1;
  c_links : forall e p, (e, p) ∈ links s <-> σ !! e = Some (At p);
  c_ups_nodup : NoDup (ups (procs s));
  c_ups : forall e, e ∈ ups (procs s) <-> σ !! e = Some InUp;
  c_count : taskCount_ s = Z.of_nat (base.size (tasks s)) }.

(** [e] does not move, and at most its [check_] is claimed by the queue it is in. *)
Definition unmoved σ s σ' s' e : Prop :=
  σ' !! e = σ !! e /\
  (tasks s' !! e = tasks s !! e \/
   exists p x, σ !! e = Some (At p) /\ tasks s !! e = Some x /\ tasks s' !! e = Some (with_check x (Some p))).
(** Outside of [D] no task moves. *)
Definition Frame (D : list nat) σ s σ' s' : Prop := forall e, e ∉ D -> unmoved σ s σ' s' e.

Lemma unmoved_trans σ1 s1 σ2 s2 σ3 s3 e :
  unmoved σ1 s1 σ2 s2 e -> unmoved σ2 s2 σ3 s3 e -> unmoved σ1 s1 σ3 s3 e.
Proof.
  intros [E1 T1] [E2 T2]. split; [congruence|].
  rewrite E1 in T2. destruct T1 as [T1|(p & x & Hp & Hx & T1)], T2 as [T2|(q & y & Hq & Hy & T2)].
  - left. congruence.
  - right. exists q, y. by rewrite <- T1.
  - right. exists p, x. by rewrite T2.
  - right. exists p, x. rewrite T2. simplify_eq. by destruct x.
Qed.

Lemma Frame_refl D σ s : Frame D σ s σ s.
Proof. intros e _. split; auto. Qed.
Lemma Frame_trans D σ1 s1 σ2 s2 σ3 s3 :
  Frame D σ1 s1 σ2 s2 -> Frame D σ2 s2 σ3 s3 -> Frame D σ1 s1 σ3 s3.
Proof. intros F1 F2 e He. eapply unmoved_trans; eauto. Qed.
Lemma Frame_weaken D D' σ s σ' s' : D ⊆ D' -> Frame D σ s σ' s' -> Frame D' σ s σ' s'.
Proof. intros Hs F e He. apply F. set_solver. Qed.

Lemma core_lookup X σ s e k : Core X σ s -> σ !! e = Some k -> exists x, tasks s !! e = Some x.
Proof. intros C He. apply (c_dom _ _ _ C). eauto. Qed.
Lemma core_linked X σ s e : Core X σ s -> linked e s = true <-> exists p, σ !! e = Some (At p).
Proof.
  intros C. unfold linked. rewrite bool_decide_eq_true, fst_elem. split; intros [p Hp]; exists p; by apply (c_links _ _ _ C).
Qed.
Lemma core_not_linked X σ s e k : Core X σ s -> σ !! e = Some k -> (forall p, k <> At p) -> linked e s = false.
Proof.
  intros C He Hk. apply not_true_iff_false. rewrite (core_linked _ _ _ _ C). intros [p Hp]. congruence.
Qed.
Lemma core_queue X σ s e p : Core X σ s -> e ∈ queue p s <-> σ !! e = Some (At p).
Proof. intros C. unfold queue. by rewrite elem_members, (c_links _ _ _ C). Qed.

(** The general move: task [e] becomes [y] at the site [k], the links follow. *)
Lemma core_set X σ s e k0 k x y lnk :
  Core X σ s -> σ !! e = Some k0 -> tasks s !! e = Some x -> k0 <> InUp -> k <> InUp ->
  task_ok k y -> (X <> Some e -> susp_ok k y) -> NoDup lnk.*1 ->
  (forall e' p, (e', p) ∈ lnk <-> <[e := k]> σ !! e' = Some (At p)) ->
  Core X (<[e := k]> σ) (mkSystem (<[e := y]> (tasks s)) lnk (procs s) (stop_ s) (taskCount_ s)).
Proof.
  intros C He Hx Hk0 Hk Hy Hs Hn Hl. split; simpl; [..|done|done| | |].
  - intros e'. destruct (decide (e = e')) as [->|]; [rewrite !lookup_insert_eq; split; eauto|].
    rewrite !lookup_insert_ne by done. apply (c_dom _ _ _ C).
  - intros e' k' x'. destruct (decide (e = e')) as [->|]; [rewrite !lookup_insert_eq; by intros [= <-] [= <-]|].
    rewrite !lookup_insert_ne by done. apply (c_task _ _ _ C).
  - intros e' k' x'. destruct (decide (e = e')) as [->|]; [rewrite !lookup_insert_eq; by intros [= <-] [= <-]|].
    rewrite !lookup_insert_ne by done. apply (c_susp _ _ _ C).
  - apply (c_ups_nodup _ _ _ C).
  - intros e'. rewrite (c_ups _ _ _ C). destruct (decide (e = e')) as [->|]; [rewrite lookup_insert_eq; split; congruence|].
    by rewrite lookup_insert_ne.
  - rewrite (c_count _ _ _ C), map_size_insert_Some by eauto. done.
Qed.

Lemma frame_set σ s e k y lnk ps st c :
  Frame [e] σ s (<[e := k]> σ) (mkSystem (<[e := y]> (tasks s)) lnk ps st c).
Proof. intros e' He. split; simpl; rewrite lookup_insert_ne by set_solver; auto. Qed.

(** A task changes at its site. *)
Lemma core_upd X σ s e k x y :
  Core X σ s -> σ !! e = Some k -> k <> InUp -> tasks s !! e = Some x ->
  task_ok k y -> (X <> Some e -> susp_ok k y) -> Core X σ (set_tasks (<[e := y]> (tasks s)) s).
Proof.
  intros C He Hk Hx Hy Hs. rewrite <- (insert_id σ e k) by done. eapply core_set; eauto using c_nodup.
  intros e' p. rewrite insert_id by done. apply (c_links _ _ _ C).
Qed.

Lemma upd_task_spec s e x f :
  tasks s !! e = Some x -> upd_task e f s = Ret (set_tasks (<[e := f x]> (tasks s)) s, tt).
Proof. intros Hx. unfold upd_task, bind, get_task. rewrite Hx. done. Qed.
Lemma upd_proc_spec s i p f :
  procs s !! i = Some p -> upd_proc i f s = Ret (set_procs (<[i := f p]> (procs s)) s, tt).
Proof. intros Hx. unfold upd_proc, bind, get_proc. rewrite Hx. done. Qed.
Lemma get_task_spec s e x : tasks s !! e = Some x -> get_task e s = Ret (s, x).
Proof. intros Hx. unfold get_task. by rewrite Hx. Qed.
Lemma get_proc_spec s i p : procs s !! i = Some p -> get_proc i s = Ret (s, p).
Proof. intros Hx. unfold get_proc. by rewrite Hx. Qed.
(** *** The queue operations *)

Lemma push_spec X σ s e p (rc : bool) :
  Core X σ s -> σ !! e = Some (if rc then Bare else Held) -> p.2 <> Wait \/ X = Some e -> p.2 <> New ->
  exists x s', tasks s !! e = Some x /\ push p e rc s = Ret (s', size p s') /\
    s' = mkSystem (<[e := with_refs (with_check x (Some p)) 2]> (tasks s)) (links s ++ [(e, p)]) (procs s) (stop_ s) (taskCount_ s) /\
    Core X (<[e := At p]> σ) s'.
Proof.
  intros C He Hw Hn. destruct (core_lookup _ _ _ _ _ C He) as [x Hx]. exists x. eexists.
  destruct (c_task _ _ _ C _ _ _ He Hx) as (Hep & Hr & Hc).
  assert (linked e s = false) as Hl by (eapply core_not_linked; [done..|by destruct rc]).
  split; [done|split; [|split; [reflexivity|]]].
  - unfold push. erewrite bind_ret by reflexivity. cbv beta. rewrite Hl.
    erewrite bind_ret by reflexivity. erewrite bind_ret by (apply upd_task_spec; exact Hx).
    destruct rc.
    + unfold IncrementRef. erewrite bind_ret by (apply upd_task_spec; simpl; apply lookup_insert_eq).
      unfold gets, set_tasks. simpl. rewrite Hr, insert_insert_eq. done.
    + erewrite bind_ret by reflexivity. unfold gets, set_tasks. simpl. simpl in Hr. rewrite <- Hr. by destruct x.
  - eapply core_set; [done|done|done|by destruct rc|done| | | |].
    + split; [done|split; [done|]]. simpl. intros j [= ->]. done.
    + intros HX. destruct Hw as [Hw|]; [|done]. destruct (c_susp _ _ _ C _ _ _ He Hx HX) as [Ho _].
      split; simpl; [rewrite Ho; destruct p as [? []], rc; done|]. intros j [= ->]. done.
    + rewrite fmap_app. apply NoDup_app. split; [apply (c_nodup _ _ _ C)|split; [|apply NoDup_singleton]].
      intros e' He' ->%list_elem_of_singleton. unfold linked in Hl. by apply bool_decide_eq_false in Hl.
    + intros e' q. rewrite elem_of_app, list_elem_of_singleton, (c_links _ _ _ C).
      destruct (decide (e = e')) as [<-|]; [rewrite lookup_insert_eq|rewrite lookup_insert_ne by done].
      * split; [intros [?|[= ->]]; [destruct rc; congruence|done]|intros [= ->]; auto].
      * split; [intros [?|[= -> ?]]; done|auto].
Qed.

Lemma unlink_links σ s X e k : Core X σ s -> (forall p, k <> At p) ->
  forall e' p, (e', p) ∈ unlink e (links s) <-> <[e := k]> σ !! e' = Some (At p).
Proof.
  intros C Hk e' p. rewrite elem_unlink, (c_links _ _ _ C). destruct (decide (e = e')) as [->|].
  - rewrite lookup_insert_eq. split; [tauto|intros [= E]; by destruct (Hk p)].
  - rewrite lookup_insert_ne by done. split; [tauto|auto].
Qed.

Lemma erase_spec X σ s e p x (check rc : bool) :
  Core X σ s -> σ !! e = Some (At p) -> tasks s !! e = Some x -> p.2 <> Wait \/ X = Some e ->
  (check = true -> check_ x = Some p) ->
  exists s', erase p e check rc s = Ret (s', true) /\
    s' = mkSystem (<[e := with_refs (with_check x None) (if rc then 1 else 2)]> (tasks s)) (unlink e (links s)) (procs s) (stop_ s) (taskCount_ s) /\
    Core X (<[e := if rc then Bare else Held]> σ) s'.
Proof.
  intros C He Hx Hw Hc. eexists. destruct (c_task _ _ _ C _ _ _ He Hx) as (Hep & Hr & Hck). simpl in Hr.
  split; [|split; [reflexivity|]].
  - unfold erase. erewrite bind_ret by (apply get_task_spec; done). cbv beta.
    replace (check && negb (bool_decide (check_ x = Some p)))%bool with false
      by (destruct check; [rewrite bool_decide_eq_true_2 by auto|]; done).
    erewrite bind_ret by reflexivity. cbv beta. rewrite bool_decide_eq_true_2 by (by eapply core_queue).
    erewrite bind_ret by reflexivity. erewrite bind_ret by reflexivity. destruct rc.
    + unfold DecrementRef. erewrite bind_ret; [reflexivity|].
      erewrite bind_ret by (apply get_task_spec; simpl; apply lookup_insert_eq).
      erewrite bind_ret by reflexivity. cbn [refs with_check]. rewrite Hr. change (2 - 1 =? 0) with false. simpl.
      unfold ret, set_tasks. simpl. rewrite insert_insert_eq. done.
    + erewrite bind_ret by reflexivity. unfold ret, set_tasks, set_links. simpl. rewrite <- Hr. by destruct x.
  - eapply core_set; [done|done|done|done|by destruct rc| | | |].
    + split; [done|split; [by destruct rc|done]].
    + intros HX. destruct Hw as [Hw|]; [|done]. destruct (c_susp _ _ _ C _ _ _ He Hx HX) as [Ho _].
      split; simpl; [rewrite Ho; destruct p as [? []], rc; done|]. by destruct rc.
    + apply links_filter_nodup, (c_nodup _ _ _ C).
    + eapply unlink_links; [done|by destruct rc].
Qed.

Lemma erase_unclaimed s e p x rc :
  tasks s !! e = Some x -> check_ x <> Some p -> erase p e true rc s = Ret (s, false).
Proof.
  intros Hx Hc. unfold erase. erewrite bind_ret by (apply get_task_spec; done). by rewrite bool_decide_eq_false_2.
Qed.

(** The elements of [o] have their [check_] set to [p]. *)
Definition claimed p (o : option nat) s : Prop :=
  forall e, o = Some e -> exists x, tasks s !! e = Some x /\ check_ x = Some p.
(** Nothing but the tasks differs. *)
Definition tasks_only s s' : Prop :=
  links s' = links s /\ procs s' = procs s /\ stop_ s' = stop_ s /\ taskCount_ s' = taskCount_ s.

Lemma claim_spec X σ s p o :
  Core X σ s -> p.2 <> New -> (forall e, o = Some e -> σ !! e = Some (At p)) ->
  exists s', claim p o s = Ret (s', o) /\ Core X σ s' /\ Frame [] σ s σ s' /\ tasks_only s s' /\ claimed p o s'.
Proof.
  intros C Hp Ho. destruct o as [e|]; cycle 1.
  { exists s. split; [done|split; [done|split; [apply Frame_refl|]]]. by split. }
  specialize (Ho e eq_refl). destruct (core_lookup _ _ _ _ _ C Ho) as [x Hx].
  exists (set_tasks (<[e := with_check x (Some p)]> (tasks s)) s). split; [|split; [|split; [|split]]].
  - unfold claim. by erewrite bind_ret by (apply upd_task_spec; exact Hx).
  - destruct (c_task _ _ _ C _ _ _ Ho Hx) as (? & ? & ?). eapply core_upd; [done..| |].
    + split; [done|split; [done|]]. simpl. intros j [= ->]. done.
    + intros HX. apply (c_susp _ _ _ C _ _ _ Ho Hx HX).
  - intros e' _. split; simpl; [done|]. destruct (decide (e = e')) as [<-|].
    + rewrite lookup_insert_eq. right. eauto.
    + rewrite lookup_insert_ne by done. auto.
  - done.
  - intros e' [= <-]. simpl. rewrite lookup_insert_eq. eauto.
Qed.

Lemma front_spec X σ s p :
  Core X σ s -> p.2 <> New ->
  exists s', front p s = Ret (s', head (queue p s)) /\ Core X σ s' /\ Frame [] σ s σ s' /\ tasks_only s s' /\
    claimed p (head (queue p s)) s'.
Proof.
  intros C Hp. unfold front. erewrite bind_ret by reflexivity. cbv beta. apply claim_spec; [done..|].
  intros e He. apply (core_queue _ _ _ _ _ C). destruct (queue p s); [done|]. simplify_eq/=. by left.
Qed.

Lemma next_of_spec X σ s e p : Core X σ s -> σ !! e = Some (At p) -> next_of e s = after_in e (queue p s).
Proof.
  intros C He. apply (c_links _ _ _ C) in He. unfold next_of.
  destruct (List.find _ (links s)) as [[e' q]|] eqn:E.
  - apply find_some in E as [Hin Hb%Nat.eqb_eq]. simpl in *. subst e'. apply list_elem_of_In in Hin.
    by rewrite (links_unique' _ _ _ _ (c_nodup _ _ _ C) Hin He).
  - apply list_elem_of_In, (find_none _ _ E), Nat.eqb_neq in He. done.
Qed.

Lemma next_of_site X σ s e p e' :
  Core X σ s -> σ !! e = Some (At p) -> next_of e s = Some e' -> σ !! e' = Some (At p) /\ e' <> e.
Proof.
  intros C He. rewrite (next_of_spec _ _ _ _ _ C He). intros Ha. split.
  - apply (core_queue _ _ _ _ _ C). by eapply after_in_elem.
  - eapply after_in_ne; [|done]. apply members_nodup, (c_nodup _ _ _ C).
Qed.

Lemma next_spec X σ s e p :
  Core X σ s -> σ !! e = Some (At p) -> p.2 <> New ->
  exists s', next p e s = Ret (s', next_of e s) /\ Core X σ s' /\ Frame [] σ s σ s' /\ tasks_only s s' /\
    claimed p (next_of e s) s'.
Proof.
  intros C He Hp. unfold next. erewrite bind_ret by reflexivity. cbv beta. apply claim_spec; [done..|].
  intros e' He'. eapply next_of_site in He'; [|done..]. tauto.
Qed.

(** Taking a list of elements off the queues. *)
Lemma core_detach σ s l lnk :
  Core None σ s -> (forall e, e ∈ l -> exists p, σ !! e = Some (At p) /\ p.2 <> Wait) -> NoDup lnk.*1 ->
  (forall e p, (e, p) ∈ lnk <-> (e, p) ∈ links s /\ e ∉ l) ->
  Core None (relocate l Held σ) (set_links lnk s).
Proof.
  intros C Hl Hn Hk. split; simpl; [..|done| |apply (c_ups_nodup _ _ _ C)| |apply (c_count _ _ _ C)].
  - intros e. rewrite (c_dom _ _ _ C), lookup_relocate. case_decide as Hd; [|done].
    destruct (Hl _ Hd) as (p & -> & _). split; eauto.
  - intros e k x. rewrite lookup_relocate. case_decide as Hd; [|apply (c_task _ _ _ C)].
    intros [= <-] Hx. destruct (Hl _ Hd) as (p & Hp & _). apply (c_task _ _ _ C _ _ _ Hp Hx).
  - intros e k x. rewrite lookup_relocate. case_decide as Hd; [|apply (c_susp _ _ _ C)].
    intros [= <-] Hx HX. destruct (Hl _ Hd) as ([j q] & Hp & Hq).
    destruct (c_susp _ _ _ C _ _ _ Hp Hx HX) as [Ho _]. split; [|done]. rewrite Ho. by destruct q.
  - intros e p. rewrite Hk, (c_links _ _ _ C), lookup_relocate. case_decide; [|tauto]. split; [tauto|done].
  - intros e. rewrite (c_ups _ _ _ C), lookup_relocate. case_decide as Hd; [|done].
    destruct (Hl _ Hd) as (p & -> & _). done.
Qed.

Lemma pop_all_spec σ s p :
  Core None σ s -> p.2 <> Wait ->
  pop_all p s = Ret (set_links (without p (links s)) s, queue p s) /\
  Core None (relocate (queue p s) Held σ) (set_links (without p (links s)) s).
Proof.
  intros C Hp. split; [done|]. apply core_detach; [done| | |].
  - intros e He. apply (core_queue _ _ _ _ _ C) in He. eauto.
  - apply filter_nodup, (c_nodup _ _ _ C).
  - intros e q. rewrite elem_without, (core_queue _ _ _ _ _ C), <- (c_links _ _ _ C). split; [|naive_solver].
    intros [H1 H2]. split; [done|]. intros H3. by eapply H2, links_unique'; [apply (c_nodup _ _ _ C)|..].
Qed.

(** What [pop_back] takes. *)
Definition back p (n : Z) s : list nat := drop (length (queue p s) - Nat.max 1 (Z.to_nat n)) (queue p s).
Lemma back_elem p n s e : e ∈ back p n s -> e ∈ queue p s.
Proof. apply subseteq_drop. Qed.

Lemma pop_back_spec σ s p n :
  Core None σ s -> p.2 <> Wait ->
  exists lnk, pop_back p n s = Ret (set_links lnk s, back p n s) /\
  lnk = filter (fun x => x.1 ∉ back p n s) (links s) /\
  Core None (relocate (back p n s) Held σ) (set_links lnk s).
Proof.
  intros C Hp. eexists. split; [done|split; [reflexivity|]]. apply core_detach; [done| | |].
  - intros e He%back_elem. apply (core_queue _ _ _ _ _ C) in He. eauto.
  - apply filter_nodup, (c_nodup _ _ _ C).
  - intros e q. rewrite list_elem_of_filter. tauto.
Qed.

Lemma push_list_spec σ s p l :
  Core None σ s -> p.2 = New -> NoDup l -> (forall e, e ∈ l -> σ !! e = Some Held) ->
  exists s', push_list p l s = Ret (s', tt) /\ s' = set_links (links s ++ map (fun e => (e, p)) l) s /\
    Core None (relocate l (At p) σ) s'.
Proof.
  intros C Hp Hn Hl. eexists. split; [|split; [reflexivity|]].
  - unfold push_list. erewrite bind_ret by reflexivity. cbv beta.
    replace (existsb _ _) with false; [done|]. symmetry. apply not_true_iff_false. rewrite existsb_exists.
    intros (e & He%list_elem_of_In & Hk). apply (core_linked _ _ _ _ C) in Hk as [q Hq].
    rewrite (Hl e He) in Hq. done.
  - assert (forall e q, (e, q) ∈ map (fun e => (e, p)) l <-> e ∈ l /\ q = p) as Hm.
    { intros e q. rewrite list_elem_of_In, in_map_iff. setoid_rewrite <- list_elem_of_In. naive_solver. }
    split; simpl; [..|apply (c_ups_nodup _ _ _ C)| |apply (c_count _ _ _ C)].
    + intros e. rewrite (c_dom _ _ _ C), lookup_relocate. case_decide; [|done]. rewrite Hl by done. split; eauto.
    + intros e k x. rewrite lookup_relocate. case_decide; [|apply (c_task _ _ _ C)].
      intros [= <-] Hx. apply (c_task _ _ _ C _ Held _ (Hl _ ltac:(done)) Hx).
    + intros e k x. rewrite lookup_relocate. case_decide; [|apply (c_susp _ _ _ C)].
      intros [= <-] Hx HX. destruct (c_susp _ _ _ C _ _ _ (Hl _ ltac:(done)) Hx HX) as [Ho _].
      destruct p as [? q]; simpl in Hp; subst q. split; [by rewrite Ho|done].
    + rewrite fmap_app. apply NoDup_app. split; [apply (c_nodup _ _ _ C)|].
      replace (map _ l).*1 with l by (clear; induction l; by f_equal/=).
      split; [|done]. intros e [q Hq]%fst_elem He. apply (c_links _ _ _ C) in Hq. rewrite Hl in Hq by done. done.
    + intros e q. rewrite elem_of_app, Hm, (c_links _ _ _ C), lookup_relocate. case_decide.
      * rewrite Hl by done. naive_solver.
      * naive_solver.
    + intros e. rewrite (c_ups _ _ _ C), lookup_relocate. case_decide; [|done]. rewrite Hl by done. done.
Qed.

(** *** Releasing tasks *)

Lemma DecrementRef_held σ s e :
  Core None σ s -> σ !! e = Some Held ->
  exists s', DecrementRef e s = Ret (s', tt) /\ Core None (<[e := Bare]> σ) s' /\ Frame [e] σ s (<[e := Bare]> σ) s' /\
    links s' = links s /\ procs s' = procs s /\ stop_ s' = stop_ s.
Proof.
  intros C He. destruct (core_lookup _ _ _ _ _ C He) as [x Hx].
  destruct (c_task _ _ _ C _ _ _ He Hx) as (Hep & Hr & Hc).
  exists (mkSystem (<[e := with_refs x 1]> (tasks s)) (links s) (procs s) (stop_ s) (taskCount_ s)).
  split; [|split; [|split; [apply frame_set|done]]].
  - unfold DecrementRef. erewrite bind_ret by (apply get_task_spec; done). erewrite bind_ret by reflexivity.
    rewrite Hr. done.
  - eapply core_set; [done..| | |apply (c_nodup _ _ _ C)|].
    + split; [done|split; done].
    + intros HX. destruct (c_susp _ _ _ C _ _ _ He Hx HX) as [Ho _]. split; [done|done].
    + intros e' p. rewrite (c_links _ _ _ C). destruct (decide (e = e')) as [<-|].
      * rewrite lookup_insert_eq, He. naive_solver.
      * by rewrite lookup_insert_ne.
Qed.

Lemma DecrementRef_bare σ s e :
  Core None σ s -> σ !! e = Some Bare ->
  exists s', DecrementRef e s = Ret (s', tt) /\ Core None (delete e σ) s' /\ Frame [e] σ s (delete e σ) s' /\
    links s' = links s /\ procs s' = procs s /\ stop_ s' = stop_ s.
Proof.
  intros C He. destruct (core_lookup _ _ _ _ _ C He) as [x Hx].
  destruct (c_task _ _ _ C _ _ _ He Hx) as (Hep & Hr & Hc).
  exists (mkSystem (delete e (tasks s)) (links s) (procs s) (stop_ s) (taskCount_ s - 1)).
  assert (forall e', e' <> e -> delete e σ !! e' = σ !! e' /\ delete e (tasks s) !! e' = tasks s !! e') as Hd.
  { intros e' ?. by rewrite !lookup_delete_ne. }
  split; [|split; [|split; [|done]]].
  - unfold DecrementRef. erewrite bind_ret by (apply get_task_spec; done). erewrite bind_ret by reflexivity.
    rewrite Hr. change (refs_of Bare - 1 =? 0) with true. unfold DeleteTask.
    replace (linked e _) with false by (symmetry; by eapply (core_not_linked None σ s)).
    cbn [tasks links procs stop_ taskCount_ set_tasks]. by rewrite delete_insert_eq.
  - split; simpl; [..|apply (c_nodup _ _ _ C)| |apply (c_ups_nodup _ _ _ C)| |].
    + intros e'. destruct (decide (e' = e)) as [->|Hn]; [by rewrite !lookup_delete_eq|].
      destruct (Hd _ Hn) as [-> ->]. apply (c_dom _ _ _ C).
    + intros e' k y. destruct (decide (e' = e)) as [->|Hn]; [by rewrite lookup_delete_eq|].
      destruct (Hd _ Hn) as [-> ->]. apply (c_task _ _ _ C).
    + intros e' k y. destruct (decide (e' = e)) as [->|Hn]; [by rewrite lookup_delete_eq|].
      destruct (Hd _ Hn) as [-> ->]. apply (c_susp _ _ _ C).
    + intros e' p. rewrite (c_links _ _ _ C). destruct (decide (e' = e)) as [->|Hn]; [rewrite lookup_delete_eq; naive_solver|].
      by destruct (Hd _ Hn) as [-> _].
    + intros e'. rewrite (c_ups _ _ _ C). destruct (decide (e' = e)) as [->|Hn]; [rewrite lookup_delete_eq; naive_solver|].
      by destruct (Hd _ Hn) as [-> _].
    + rewrite (c_count _ _ _ C). assert (base.size (tasks s) <> 0%nat) as Hz.
      { intros Hz%map_size_empty_inv. rewrite Hz, lookup_empty in Hx. done. }
      rewrite map_size_delete_Some by eauto. lia.
  - intros e' He'. split; simpl; rewrite lookup_delete_ne by set_solver; auto.
Qed.

(** Forget a list of elements. *)
Definition forget (l : list nat) (σ : gmap nat site) : gmap nat site := foldr delete σ l.
Lemma lookup_forget l σ e : forget l σ !! e = if decide (e ∈ l) then None else σ !! e.
Proof.
  induction l as [|x l IH]; [by rewrite decide_False by set_solver|].
  change (forget (x :: l) σ) with (delete x (forget l σ)).
  destruct (decide (x = e)) as [->|Hn]; [rewrite lookup_delete_eq, decide_True by set_solver; done|].
  rewrite lookup_delete_ne, IH by done. do 2 case_decide; set_solver.
Qed.

Lemma release_all_held σ s l :
  Core None σ s -> NoDup l -> (forall e, e ∈ l -> σ !! e = Some Held) ->
  exists s', for_each DecrementRef l s = Ret (s', tt) /\ Core None (relocate l Bare σ) s' /\
    Frame l σ s (relocate l Bare σ) s' /\ links s' = links s /\ procs s' = procs s /\ stop_ s' = stop_ s.
Proof.
  revert σ s. induction l as [|e l IH]; intros σ s C Hn Hl; [exists s; auto 8 using Frame_refl|].
  apply NoDup_cons in Hn as [Hel Hn].
  destruct (DecrementRef_held σ s e C (Hl e ltac:(by left))) as (s1 & E1 & C1 & F1 & L1 & P1 & S1).
  destruct (IH (<[e := Bare]> σ) s1 C1 Hn) as (s2 & E2 & C2 & F2 & L2 & P2 & S2).
  { intros e' He'. rewrite lookup_insert_ne by set_solver. apply Hl. by right. }
  assert (relocate l Bare (<[e := Bare]> σ) = relocate (e :: l) Bare σ) as Eσ.
  { apply map_eq. intros e'. rewrite !lookup_relocate. destruct (decide (e = e')) as [->|].
    - rewrite lookup_insert_eq. repeat case_decide; set_solver.
    - rewrite lookup_insert_ne by done. repeat case_decide; set_solver. }
  rewrite Eσ in *. exists s2. split; [|split; [done|split; [|by rewrite L2, P2, S2]]].
  - simpl. by erewrite bind_ret by exact E1.
  - eapply Frame_trans; eapply Frame_weaken; [|exact F1| |exact F2]; set_solver.
Qed.

Lemma release_all_bare σ s l :
  Core None σ s -> NoDup l -> (forall e, e ∈ l -> σ !! e = Some Bare) ->
  exists s', for_each DecrementRef l s = Ret (s', tt) /\ Core None (forget l σ) s' /\
    Frame l σ s (forget l σ) s' /\ links s' = links s /\ procs s' = procs s /\ stop_ s' = stop_ s.
Proof.
  revert σ s. induction l as [|e l IH]; intros σ s C Hn Hl; [exists s; auto 8 using Frame_refl|].
  apply NoDup_cons in Hn as [Hel Hn].
  destruct (DecrementRef_bare σ s e C (Hl e ltac:(by left))) as (s1 & E1 & C1 & F1 & L1 & P1 & S1).
  destruct (IH (delete e σ) s1 C1 Hn) as (s2 & E2 & C2 & F2 & L2 & P2 & S2).
  { intros e' He'. rewrite lookup_delete_ne by set_solver. apply Hl. by right. }
  assert (forget l (delete e σ) = forget (e :: l) σ) as Eσ.
  { apply map_eq. intros e'. rewrite !lookup_forget. destruct (decide (e = e')) as [->|].
    - rewrite lookup_delete_eq. repeat case_decide; set_solver.
    - rewrite lookup_delete_ne by done. repeat case_decide; set_solver. }
  rewrite Eσ in *. exists s2. split; [|split; [done|split; [|by rewrite L2, P2, S2]]].
  - simpl. by erewrite bind_ret by exact E1.
  - eapply Frame_trans; eapply Frame_weaken; [|exact F1| |exact F2]; set_solver.
Qed.

Lemma GC_spec σ s i :
  Core None σ s ->
  exists s', GC i s = Ret (s', tt) /\ Core None (forget (queue (i, Gc) s) σ) s' /\
    Frame (queue (i, Gc) s) σ s (forget (queue (i, Gc) s) σ) s' /\
    links s' = without (i, Gc) (links s) /\ procs s' = procs s /\ stop_ s' = stop_ s.
Proof.
  intros C. destruct (pop_all_spec σ s (i, Gc) C ltac:(done)) as [E0 C0].
  set (l := queue (i, Gc) s) in *.
  assert (NoDup l) as Hn by apply members_nodup, (c_nodup _ _ _ C).
  destruct (release_all_held _ _ l C0 Hn) as (s1 & E1 & C1 & F1 & L1 & P1 & S1).
  { intros e He. by rewrite lookup_relocate, decide_True. }
  destruct (release_all_bare _ _ l C1 Hn) as (s2 & E2 & C2 & F2 & L2 & P2 & S2).
  { intros e He. by rewrite lookup_relocate, decide_True. }
  assert (forget l (relocate l Bare (relocate l Held σ)) = forget l σ) as Eσ.
  { apply map_eq. intros e. rewrite !lookup_forget. case_decide; [done|]. by rewrite !lookup_relocate, !decide_False. }
  rewrite Eσ in *. exists s2. split; [|split; [done|split; [|by rewrite L2, P2, S2]]].
  - unfold GC. erewrite bind_ret by exact E0. cbv beta. by erewrite bind_ret by exact E1.
  - eapply Frame_trans; [|eapply Frame_trans; [exact F1|exact F2]].
    intros e He. split; [by rewrite lookup_relocate, decide_False|auto].
Qed.

(** *** The packet queues *)

Lemma ups_split (ps : list (Proc Q)) i p : ps !! i = Some p ->
  exists rest, ups ps ≡ₚ uq_abs (up_queue_ p) ++ rest /\
    forall p', ups (<[i := p']> ps) ≡ₚ uq_abs (up_queue_ p') ++ rest.
Proof.
  intros Hi. exists (ups (take i ps) ++ ups (drop (S i) ps)).
  assert (forall a b, ups (a ++ b) = ups a ++ ups b) as Ha by (intros; unfold ups; by rewrite map_app, concat_app).
  assert (forall p' : Proc Q, ups (take i ps ++ p' :: drop (S i) ps) ≡ₚ uq_abs (up_queue_ p') ++ ups (take i ps) ++ ups (drop (S i) ps)) as Hp.
  { intros p'. rewrite Ha. change (ups (p' :: drop (S i) ps)) with (uq_abs (up_queue_ p') ++ ups (drop (S i) ps)).
    by rewrite (Permutation_app_swap_app (ups _)). }
  split.
  - rewrite <- (take_drop_middle ps i p Hi) at 1. apply Hp.
  - intros p'. rewrite insert_take_drop by (by eapply lookup_lt_Some). apply Hp.
Qed.

Lemma core_procs X σ s ps : Core X σ s -> ups ps ≡ₚ ups (procs s) -> Core X σ (set_procs ps s).
Proof.
  intros C Hp. destruct C. split; simpl; try done; [by rewrite Hp|]. intros e. by rewrite Hp.
Qed.

(** A field of a processor other than its packet queue changes. *)
Lemma core_proc X σ s i p p' :
  Core X σ s -> procs s !! i = Some p -> up_queue_ p' = up_queue_ p -> Core X σ (set_procs (<[i := p']> (procs s)) s).
Proof.
  intros C Hi Hu. apply core_procs; [done|]. destruct (ups_split _ _ _ Hi) as (rest & E1 & E2). by rewrite E2, E1, Hu.
Qed.

Lemma core_take σ s i p q' :
  Core None σ s -> procs s !! i = Some p -> uq_abs q' = [] ->
  Core None (relocate (uq_abs (up_queue_ p)) Bare σ) (set_procs (<[i := set_up q' p]> (procs s)) s).
Proof.
  intros C Hi Hq. destruct (ups_split _ _ _ Hi) as (rest & E1 & E2). specialize (E2 (set_up q' p)).
  simpl in E2. rewrite Hq in E2. simpl in E2. set (l := uq_abs (up_queue_ p)) in *.
  pose proof (c_ups_nodup _ _ _ C) as Hn. rewrite E1 in Hn. apply NoDup_app in Hn as (Hl & Hlr & Hrest).
  assert (forall e, e ∈ l -> σ !! e = Some InUp) as Hup.
  { intros e He. apply (c_ups _ _ _ C). rewrite E1. set_solver. }
  split; simpl; [..|apply (c_nodup _ _ _ C)| | | |apply (c_count _ _ _ C)].
  - intros e. rewrite (c_dom _ _ _ C), lookup_relocate. case_decide; [|done]. rewrite Hup by done. split; eauto.
  - intros e k x. rewrite lookup_relocate. case_decide; [|apply (c_task _ _ _ C)].
    intros [= <-] Hx. apply (c_task _ _ _ C _ InUp _ (Hup _ ltac:(done)) Hx).
  - intros e k x. rewrite lookup_relocate. case_decide; [|apply (c_susp _ _ _ C)].
    intros [= <-] Hx HX. destruct (c_susp _ _ _ C _ _ _ (Hup _ ltac:(done)) Hx HX) as [Ho _]. by split.
  - intros e q. rewrite (c_links _ _ _ C), lookup_relocate. case_decide; [|done]. rewrite Hup by done. split; done.
  - by rewrite E2.
  - intros e. rewrite E2, lookup_relocate. case_decide as Hd; [split; [|done]; intros; by destruct (Hlr e)|].
    rewrite <- (c_ups _ _ _ C), E1. set_solver.
Qed.

Lemma push_all_spec σ s p l :
  Core None σ s -> NoDup l -> (forall e, e ∈ l -> σ !! e = Some Bare) -> p.2 <> Wait -> p.2 <> New ->
  exists s', for_each (fun tk => let* _n := push p tk true in ret tt) l s = Ret (s', tt) /\
    Core None (relocate l (At p) σ) s' /\ Frame l σ s (relocate l (At p) σ) s' /\
    procs s' = procs s /\ stop_ s' = stop_ s /\ links s' = links s ++ map (fun e => (e, p)) l.
Proof.
  intros C Hn Hl Hw Hp. revert σ s C Hl. induction l as [|e l IH]; intros σ s C Hl.
  { exists s. rewrite app_nil_r. auto 8 using Frame_refl. }
  apply NoDup_cons in Hn as [Hel Hn].
  destruct (push_spec None σ s e p true C (Hl e ltac:(by left)) ltac:(auto) Hp) as (x & s1 & Hx & E1 & -> & C1).
  destruct (IH Hn (<[e := At p]> σ) _ C1) as (s2 & E2 & C2 & F2 & P2 & S2 & L2).
  { intros e' He'. rewrite lookup_insert_ne by set_solver. apply Hl. by right. }
  assert (relocate l (At p) (<[e := At p]> σ) = relocate (e :: l) (At p) σ) as Eσ.
  { apply map_eq. intros e'. rewrite !lookup_relocate. destruct (decide (e = e')) as [->|].
    - rewrite lookup_insert_eq. repeat case_decide; set_solver.
    - rewrite lookup_insert_ne by done. repeat case_decide; set_solver. }
  rewrite Eσ in *. exists s2. split; [|split; [done|split; [|split; [|split]]]].
  - simpl. erewrite bind_ret; [|by erewrite bind_ret by exact E1]. exact E2.
  - eapply Frame_trans; eapply Frame_weaken; [|apply frame_set| |exact F2]; set_solver.
  - by rewrite P2.
  - by rewrite S2.
  - rewrite L2. simpl. by rewrite <- app_assoc.
Qed.

Lemma AddNewTasks_spec σ s i p :
  Core None σ s -> procs s !! i = Some p ->
  let l := uq_abs (up_queue_ p) in
  exists s' q', AddNewTasks i s = Ret (s', true) /\
    Core None (relocate l (At (i, Runnable)) σ) s' /\ Frame l σ s (relocate l (At (i, Runnable)) σ) s' /\
    procs s' = <[i := set_up q' p]> (procs s) /\ uq_abs q' = [] /\ stop_ s' = stop_ s /\
    links s' = links s ++ map (fun e => (e, (i, Runnable))) l /\ (forall e, e ∈ l -> σ !! e = Some InUp).
Proof.
  intros C Hi l. destruct (uq_take_law (up_queue_ p)) as (q' & Et & Eq).
  pose proof (core_take _ _ _ _ _ C Hi Eq) as C1. fold l in C1.
  assert (forall e, e ∈ l -> σ !! e = Some InUp) as Hup.
  { intros e He. apply (c_ups _ _ _ C). destruct (ups_split _ _ _ Hi) as (rest & -> & _). set_solver. }
  assert (NoDup l) as Hn.
  { destruct (ups_split _ _ _ Hi) as (rest & E & _). pose proof (c_ups_nodup _ _ _ C) as Hn. rewrite E in Hn.
    by apply NoDup_app in Hn as [? _]. }
  destruct (push_all_spec _ _ (i, Runnable) l C1 Hn) as (s2 & E2 & C2 & F2 & P2 & S2 & L2); [|done..|].
  { intros e He. by rewrite lookup_relocate, decide_True. }
  assert (relocate l (At (i, Runnable)) (relocate l Bare σ) = relocate l (At (i, Runnable)) σ) as Eσ.
  { apply map_eq. intros e. rewrite !lookup_relocate. by case_decide. }
  rewrite Eσ in *. exists s2, q'. split; [|split; [done|split; [|done]]].
  - unfold AddNewTasks. erewrite bind_ret by (by apply get_proc_spec). cbv beta.
    erewrite bind_ret by (rewrite Et; reflexivity). cbn [fst snd].
    erewrite bind_ret by (by apply upd_proc_spec). fold l. by erewrite bind_ret by exact E2.
  - eapply Frame_trans; [|exact F2]. intros e He. split; [by rewrite lookup_relocate, decide_False|auto].
Qed.

(** Stolen, and not back in a runnable queue. *)
Definition parked (k : option site) : bool := match k with Some Held | Some (At (_, New)) => true | _ => false end.
Definition keeps_parked σ σ' : Prop := forall e, parked (σ !! e) = true -> parked (σ' !! e) = true.

(** *** Processors and worlds *)

(** [o] is a runnable task of processor [i] that its queue has claimed. *)
Definition Claimed i σ s (o : option nat) : Prop :=
  forall e, o = Some e -> exists x, tasks s !! e = Some x /\ σ !! e = Some (At (i, Runnable)) /\ check_ x = Some (i, Runnable).

(** The running task is in a queue of its processor, which has claimed it: in the runnable
    queue, or in the wait queue while its thread has not switched yet.  A next task is
    chosen only then. *)
Record ProcOk σ s i (p : Proc Q) : Prop := {
  p_run : forall e, runningTask_ p = Some e -> exists x q,
    tasks s !! e = Some x /\ σ !! e = Some (At (i, q)) /\ check_ x = Some (i, q) /\
    (pc_ p = InTask -> proc_ x = Some i) /\ (q = Runnable \/ (q = Wait /\ pc_ p = InTask /\ state_ x = block));
  p_next : forall e', nextTask_ p = Some e' -> pc_ p = InTask /\
    exists e x, runningTask_ p = Some e /\ e <> e' /\ tasks s !! e = Some x /\ state_ x = block;
  p_claimed : Claimed i σ s (nextTask_ p);
  p_intask : pc_ p = InTask -> is_Some (runningTask_ p);
  p_wait : waiting_ p = bool_decide (pc_ p = Waiting) }.

Lemma Claimed_unmoved σ s σ' s' i o :
  Claimed i σ s o -> (forall e, o = Some e -> unmoved σ s σ' s' e) -> Claimed i σ' s' o.
Proof.
  intros Hc F e He. destruct (Hc e He) as (x & Hx & Hs & Hk).
  destruct (F e He) as [E [T|(r & y & Hs' & Hy & T)]].
  - exists x. by rewrite E, T.
  - simplify_eq. eexists. split; [exact T|]. by rewrite E.
Qed.

Lemma ProcOk_unmoved σ s σ' s' i p :
  ProcOk σ s i p -> (forall e, runningTask_ p = Some e \/ nextTask_ p = Some e -> unmoved σ s σ' s' e) ->
  ProcOk σ' s' i p.
Proof.
  intros [Hr Hn Hc Hi Hw] F. split; [..|done|done].
  - intros e He. destruct (Hr e He) as (x & q & Hx & Hs & Hk & Hp & Hq).
    destruct (F e ltac:(auto)) as [E [T|(r & y & Hs' & Hy & T)]].
    + exists x, q. by rewrite E, T.
    + simplify_eq. eexists. exists q. split; [exact T|]. by rewrite E.
  - intros e' He'. destruct (Hn e' He') as (Hpc & e & x & He & Hne & Hx & Hb). split; [done|].
    destruct (F e ltac:(auto)) as [E [T|(r & y & Hs' & Hy & T)]].
    + exists e, x. by rewrite T.
    + simplify_eq. exists e. eexists. by rewrite T.
  - eapply Claimed_unmoved; eauto.
Qed.

(** *** One processor at work

    From the state [s0] with the sites [σ0], processor [i] has come to [s]: it has taken what
    was handed to it and moved the tasks of its own queues.  The task [Y] is off the queues
    at the moment; [X] is as in [Core]. *)
Section local.
Context (σ0 : gmap nat site) (s0 : System Q) (i : nat).

Definition own_site (k : option site) : Prop := match k with Some (At (j, _)) => j = i | Some InUp | None => True | _ => False end.

Record Loc X (Y : option nat) σ s (p : Proc Q) : Prop := {
  l_core : Core X σ s;
  l_procs : procs s = <[i := p]> (procs s0);
  l_proc : procs s !! i = Some p;
  l_stop : stop_ s = stop_ s0;
  l_off : forall e, Y = Some e -> own_site (σ0 !! e);
  l_sites : forall e, unmoved σ0 s0 σ s e \/ own_site (σ0 !! e) /\ (own_site (σ !! e) \/ Y = Some e);
  l_new : forall e j, σ0 !! e = Some (At (j, New)) -> σ !! e = Some (At (j, New)) }.

Lemma loc_init p : Core None σ0 s0 -> procs s0 !! i = Some p -> Loc None None σ0 s0 p.
Proof. intros C Hi. split; [done|by rewrite list_insert_id|done|done|done| |done]. left. split; auto. Qed.

Lemma loc_frame X X' Y Y' D σ s σ' s' p p' :
  Loc X Y σ s p -> Core X' σ' s' -> Frame D σ s σ' s' -> procs s' = <[i := p']> (procs s) -> stop_ s' = stop_ s ->
  (forall e, e ∈ D -> own_site (σ !! e) \/ Y = Some e) -> (forall e, e ∈ D -> own_site (σ' !! e) \/ Y' = Some e) ->
  (forall e, Y = Some e -> e ∈ D \/ Y' = Y) -> (forall e, Y' = Some e -> e ∈ D \/ Y' = Y) ->
  (forall e j, e ∈ D -> σ !! e <> Some (At (j, New))) -> Loc X' Y' σ' s' p'.
Proof.
  intros L C F Hp Hs H1 H2 HY HY' HN.
  assert (forall e, e ∈ D -> own_site (σ0 !! e)) as HD.
  { intros e Hd. destruct (H1 e Hd) as [Ho|HYe]; [|by apply (l_off _ _ _ _ _ L)].
    destruct (l_sites _ _ _ _ _ L e) as [[E T]|[O O']]; [by rewrite <- E|done]. }
  split; [done|by rewrite Hp, (l_procs _ _ _ _ _ L), list_insert_insert_eq| |by rewrite Hs, (l_stop _ _ _ _ _ L)| | |].
  { rewrite Hp. apply list_lookup_insert_eq. eapply lookup_lt_Some, L. }
  { intros e He. destruct (HY' e He) as [Hd|E]; [auto|]. rewrite E in He. by apply (l_off _ _ _ _ _ L). }
  { intros e. destruct (decide (e ∈ D)) as [Hd|Hd]; [right; auto|].
  destruct (l_sites _ _ _ _ _ L e) as [U|[O [O'|O']]].
  - left. eapply unmoved_trans; eauto.
  - right. destruct (F e Hd) as [-> _]. auto.
  - right. split; [done|]. destruct (HY e O') as [?| ->]; [done|auto]. }
  intros e j He. apply (l_new _ _ _ _ _ L) in He. destruct (decide (e ∈ D)) as [Hd|Hd]; [by destruct (HN e j Hd)|].
  destruct (F e Hd) as [-> _]. done.
Qed.

(** [loc_frame] for steps that leave [X] and [Y]. *)
Lemma loc_same X Y D σ s σ' s' p :
  Loc X Y σ s p -> Core X σ' s' -> Frame D σ s σ' s' -> procs s' = procs s -> stop_ s' = stop_ s ->
  (forall e, e ∈ D -> own_site (σ !! e)) -> (forall e, e ∈ D -> own_site (σ' !! e)) ->
  (forall e j, e ∈ D -> σ !! e <> Some (At (j, New))) -> Loc X Y σ' s' p.
Proof.
  intros L C F Hp Hs H1 H2 HN. eapply loc_frame; eauto. rewrite Hp. symmetry. apply list_insert_id, L.
Qed.

Lemma loc_upd X Y σ s p f :
  Loc X Y σ s p -> up_queue_ (f p) = up_queue_ p ->
  exists s', upd_proc i f s = Ret (s', tt) /\ s' = set_procs (<[i := f p]> (procs s)) s /\ Loc X Y σ s' (f p).
Proof.
  intros L Hf. pose proof (l_proc _ _ _ _ _ L) as Hi. eexists. split; [by apply upd_proc_spec|split; [reflexivity|]].
  split; simpl; [eapply core_proc; eauto using l_core| | |apply L|apply L|apply L|apply L].
  - by rewrite (l_procs _ _ _ _ _ L), list_insert_insert_eq.
  - apply list_lookup_insert_eq. by eapply lookup_lt_Some.
Qed.

Lemma loc_front X Y σ s p :
  Loc X Y σ s p ->
  exists s', front (i, Runnable) s = Ret (s', head (queue (i, Runnable) s)) /\ Loc X Y σ s' p /\
    Claimed i σ s' (head (queue (i, Runnable) s)) /\ Frame [] σ s σ s' /\ tasks_only s s'.
Proof.
  intros L. destruct (front_spec _ _ _ (i, Runnable) (l_core _ _ _ _ _ L) ltac:(done)) as (s' & E & C & F & T & K).
  exists s'. split; [done|]. pose proof T as (_ & ? & ? & _). split; [|split; [|done]].
  - eapply loc_same; [done..|set_solver|set_solver|set_solver].
  - intros e He. destruct (K e He) as (x & ? & ?). exists x. split; [done|split; [|done]].
    apply (core_queue _ _ _ _ _ (l_core _ _ _ _ _ L)). destruct (queue _ s); [done|]. simplify_eq/=. by left.
Qed.

Lemma loc_next X Y σ s p e :
  Loc X Y σ s p -> σ !! e = Some (At (i, Runnable)) ->
  exists s', next (i, Runnable) e s = Ret (s', next_of e s) /\ Loc X Y σ s' p /\
    Claimed i σ s' (next_of e s) /\ next_of e s <> Some e /\ Frame [] σ s σ s' /\ tasks_only s s'.
Proof.
  intros L He. destruct (next_spec _ _ _ e (i, Runnable) (l_core _ _ _ _ _ L) He ltac:(done)) as (s' & E & C & F & T & K).
  exists s'. split; [done|]. pose proof T as (_ & ? & ? & _). split; [|split; [|split; [|done]]].
  - eapply loc_same; [done..|set_solver|set_solver|set_solver].
  - intros e' He'. destruct (K e' He') as (x & ? & ?). exists x. split; [done|split; [|done]].
    by eapply next_of_site in He' as [? ?]; [|apply L|].
  - intros Hn. eapply next_of_site in Hn; [|apply L|done]. tauto.
Qed.

Lemma loc_new Y σ s p :
  Loc None Y σ s p ->
  exists s' σ' q', AddNewTasks i s = Ret (s', true) /\ Loc None Y σ' s' (set_up q' p) /\
    Frame (uq_abs (up_queue_ p)) σ s σ' s' /\ (forall e, e ∈ uq_abs (up_queue_ p) -> σ !! e = Some InUp) /\
    links s' = links s ++ map (fun e => (e, (i, Runnable))) (uq_abs (up_queue_ p)) /\ uq_abs q' = [].
Proof.
  intros L. destruct (AddNewTasks_spec σ s i p (l_core _ _ _ _ _ L) (l_proc _ _ _ _ _ L)) as (s' & q' & E & C & F & P & Eq & S & K & U).
  set (l := uq_abs (up_queue_ p)) in *. exists s', (relocate l (At (i, Runnable)) σ), q'.
  split; [done|split; [|done]].
  eapply loc_frame; eauto.
  - intros e He. left. by rewrite U.
  - intros e He. left. rewrite lookup_relocate, decide_True by done. done.
  - intros e j He. by rewrite U.
Qed.

Lemma loc_GC Y σ s p :
  Loc None Y σ s p ->
  exists s' σ', GC i s = Ret (s', tt) /\ Loc None Y σ' s' p /\ Frame (queue (i, Gc) s) σ s σ' s' /\
    links s' = without (i, Gc) (links s).
Proof.
  intros L. destruct (GC_spec σ s i (l_core _ _ _ _ _ L)) as (s' & E & C & F & Hl & Hp & Hs).
  exists s', (forget (queue (i, Gc) s) σ). split; [done|split; [|done]]. eapply loc_same; [done..| | |].
  - intros e He. apply (core_queue _ _ _ _ _ (l_core _ _ _ _ _ L)) in He. by rewrite He.
  - intros e He. rewrite lookup_forget, decide_True by done. done.
  - intros e j He. apply (core_queue _ _ _ _ _ (l_core _ _ _ _ _ L)) in He. by rewrite He.
Qed.

(** Take [e] off a queue of the processor, and put it on one. *)
Lemma loc_erase X σ s p e k x (rc : bool) :
  Loc X None σ s p -> σ !! e = Some (At (i, k)) -> tasks s !! e = Some x -> k <> Wait \/ X = Some e -> k <> New ->
  exists s', erase (i, k) e false rc s = Ret (s', true) /\
    s' = mkSystem (<[e := with_refs (with_check x None) (if rc then 1 else 2)]> (tasks s)) (unlink e (links s)) (procs s) (stop_ s) (taskCount_ s) /\
    Loc X (Some e) (<[e := if rc then Bare else Held]> σ) s' p.
Proof.
  intros L He Hx Hw Hk. destruct (erase_spec X σ s e (i, k) x false rc (l_core _ _ _ _ _ L) He Hx Hw ltac:(done)) as (s' & E & Es & C).
  exists s'. split; [done|split; [done|]]. subst s'. eapply (loc_frame _ _ _ _ [e]); [done|done|apply frame_set|..]; simpl.
  - symmetry. apply list_insert_id, L.
  - done.
  - intros e' ->%list_elem_of_singleton. rewrite He. by left.
  - intros e' ->%list_elem_of_singleton. auto.
  - done.
  - intros e' [= <-]. left. by left.
  - intros e' j ->%list_elem_of_singleton. congruence.
Qed.

Lemma loc_push X σ s p e k (rc : bool) :
  Loc X (Some e) σ s p -> σ !! e = Some (if rc then Bare else Held) -> k <> Wait \/ X = Some e -> k <> New ->
  exists x s', tasks s !! e = Some x /\ push (i, k) e rc s = Ret (s', size (i, k) s') /\
    s' = mkSystem (<[e := with_refs (with_check x (Some (i, k))) 2]> (tasks s)) (links s ++ [(e, (i, k))]) (procs s) (stop_ s) (taskCount_ s) /\
    Loc X None (<[e := At (i, k)]> σ) s' p.
Proof.
  intros L He Hw Hk. destruct (push_spec X σ s e (i, k) rc (l_core _ _ _ _ _ L) He Hw Hk) as (x & s' & Hx & E & Es & C).
  exists x, s'. split; [done|split; [done|split; [done|]]]. subst s'. eapply (loc_frame _ _ _ _ [e]); [done|done|apply frame_set|..]; simpl.
  - symmetry. apply list_insert_id, L.
  - done.
  - intros e' ->%list_elem_of_singleton. auto.
  - intros e' ->%list_elem_of_singleton. rewrite lookup_insert_eq. by left.
  - intros e' [= <-]. left. by left.
  - done.
  - intros e' j ->%list_elem_of_singleton. rewrite He. by destruct rc.
Qed.

(** A task of the processor changes where it is. *)
Lemma loc_task X Y σ s p e k x f :
  Loc X Y σ s p -> σ !! e = Some (At (i, k)) -> k <> New -> tasks s !! e = Some x ->
  task_ok (At (i, k)) (f x) -> (X <> Some e -> susp_ok (At (i, k)) (f x)) ->
  exists s', upd_task e f s = Ret (s', tt) /\ s' = set_tasks (<[e := f x]> (tasks s)) s /\ Loc X Y σ s' p.
Proof.
  intros L He Hk Hx Ht Hs. eexists. split; [by apply upd_task_spec|split; [reflexivity|]].
  eapply (loc_frame _ _ _ _ [e]); [done|by eapply core_upd; [apply L|..]|..]; simpl.
  - intros e' He'. split; simpl; [done|]. rewrite lookup_insert_ne by set_solver. auto.
  - symmetry. apply list_insert_id, L.
  - done.
  - intros e' ->%list_elem_of_singleton. rewrite He. by left.
  - intros e' ->%list_elem_of_singleton. rewrite He. by left.
  - auto.
  - auto.
  - intros e' j ->%list_elem_of_singleton. congruence.
Qed.

(** The suspension of [e] is under way, and complete. *)
Lemma loc_open Y σ s p e : Loc None Y σ s p -> Loc (Some e) Y σ s p.
Proof. intros [C ? ? ? ? ? ?]. split; [|done..]. destruct C as [? ? Hs ? ? ? ? ?]. split; try done. intros e' k x ? ? _. by eapply Hs. Qed.
Lemma loc_close Y σ s p e :
  Loc (Some e) Y σ s p -> (forall k x, σ !! e = Some k -> tasks s !! e = Some x -> susp_ok k x) -> Loc None Y σ s p.
Proof.
  intros [C ? ? ? ? ? ?] He. split; [|done..]. destruct C as [? ? Hs ? ? ? ? ?]. split; try done.
  intros e' k x Hk Hx _. destruct (decide (e = e')) as [<-|Hn]; [by apply He|]. by apply (Hs e'); [..|intros [= ?]].
Qed.

Lemma loc_parked X σ s p e : Loc X None σ s p -> parked (σ0 !! e) = true -> parked (σ !! e) = true.
Proof.
  intros L He. destruct (σ0 !! e) as [[[j []]| | |]|] eqn:E; try done.
  - by rewrite (l_new _ _ _ _ _ L _ _ E).
  - destruct (l_sites _ _ _ _ _ L e) as [[-> _]|[O _]]; by rewrite E in *.
Qed.
End local.

(** *** Worlds *)

(** The scheduler's state, the stolen tasks and the suspension entries. *)
Record World := mkWorld { sys : System Q; loot : list nat; entries : list SuspendEntry }.

Record Inv σ (w : World) : Prop := {
  i_core : Core None σ (sys w);
  i_procs : forall i p, procs (sys w) !! i = Some p -> ProcOk σ (sys w) i p;
  i_bounds : forall e i q, σ !! e = Some (At (i, q)) -> (i < length (procs (sys w)))%nat;
  i_bare : forall e, σ !! e <> Some Bare;
  i_loot_nodup : NoDup (loot w);
  i_loot : forall e, e ∈ loot w <-> σ !! e = Some Held;
  i_entries : forall en, en ∈ entries w -> Z.odd (id_ en) = true }.

(** The work of a processor keeps the invariant. *)
Lemma inv_local σ w i p σ' s' p' en :
  Inv σ w -> procs (sys w) !! i = Some p -> Loc σ (sys w) i None None σ' s' p' -> ProcOk σ' s' i p' ->
  (forall x, x ∈ en -> Z.odd (id_ x) = true) -> Inv σ' (mkWorld s' (loot w) en).
Proof.
  intros I Hi L P Hen.
  assert (forall e k, ~ own_site i (Some k) -> σ' !! e = Some k <-> σ !! e = Some k) as Hsame.
  { intros e k Hk. destruct (l_sites _ _ _ _ _ _ _ _ L e) as [[-> _]|[O [O'|?]]]; [done| |done].
    split; intros E; rewrite E in *; done. }
  split; simpl.
  - apply L.
  - intros j q Hj. rewrite (l_procs _ _ _ _ _ _ _ _ L) in Hj. apply list_lookup_insert_Some in Hj as [(<- & <- & _)|[Hn Hj]]; [done|].
    eapply ProcOk_unmoved; [by apply (i_procs _ _ I)|]. intros e He.
    assert (exists k, σ !! e = Some (At (j, k))) as [k Hk].
    { destruct (i_procs _ _ I _ _ Hj) as [Hr _ Hc _ _]. destruct He as [He|He].
      - destruct (Hr e He) as (x & k & _ & ? & _). eauto.
      - destruct (Hc e He) as (x & _ & ? & _). eauto. }
    destruct (l_sites _ _ _ _ _ _ _ _ L e) as [?|[O _]]; [done|]. rewrite Hk in O. simpl in O. congruence.
  - intros e j q He. rewrite (l_procs _ _ _ _ _ _ _ _ L), length_insert.
    destruct (decide (j = i)) as [->|Hn]; [by eapply lookup_lt_Some|]. apply (Hsame e) in He; [|exact Hn]. by eapply (i_bounds _ _ I).
  - intros e He. apply (Hsame e) in He; [|by intros []]. by eapply (i_bare _ _ I).
  - apply (i_loot_nodup _ _ I).
  - intros e. rewrite (i_loot _ _ I). symmetry. apply Hsame. by intros [].
  - done.
Qed.

(** *** The steps of a processor *)

Lemma ok_idle σ s i (p : Proc Q) :
  Claimed i σ s (runningTask_ p) -> nextTask_ p = None -> pc_ p <> InTask -> waiting_ p = bool_decide (pc_ p = Waiting) ->
  ProcOk σ s i p.
Proof.
  intros Hc Hn Hp Hw. split; [| | |done|done].
  - intros e He. destruct (Hc e He) as (x & ? & ? & ?). exists x, Runnable. split_and!; [done..|auto].
  - intros e'. by rewrite Hn.
  - intros e. by rewrite Hn.
Qed.
Lemma ok_next σ s i (p : Proc Q) : ProcOk σ s i p -> pc_ p <> InTask -> nextTask_ p = None.
Proof. intros P Hp. destruct (nextTask_ p) eqn:E; [|done]. by destruct (p_next _ _ _ _ P _ E). Qed.
Lemma ok_claimed σ s i (p : Proc Q) : ProcOk σ s i p -> pc_ p <> InTask -> Claimed i σ s (runningTask_ p).
Proof.
  intros P Hp e He. destruct (p_run _ _ _ _ P _ He) as (x & q & ? & ? & ? & _ & [->|(_ & ? & _)]); [eauto|done].
Qed.

(** The processor [i] works from the world [w] to a state that is in order again. *)
Definition works {A} σ (w : World) i (m : st (System Q) A) (a : A) : Prop :=
  exists σ' s' p', m (sys w) = Ret (s', a) /\ Loc σ (sys w) i None None σ' s' p' /\ ProcOk σ' s' i p'.

(** Run the operation whose result the equation gives. *)
Ltac run E := erewrite bind_ret by exact E; cbv beta iota.
Ltac run_upd L f s' L' :=
  let E := fresh "E" in
  destruct (loc_upd _ _ _ _ _ _ _ _ f L eq_refl) as (s' & E & -> & L');
  first [run E | rewrite E | idtac].

Lemma WaitCondition_works σ0 s0 i σ s p :
  Loc σ0 s0 i None None σ s p -> runningTask_ p = None -> nextTask_ p = None -> pc_ p = Outer -> waiting_ p = false ->
  exists σ' s' p', (let* w := WaitCondition i in
                    if w then upd_proc i (set_pc Waiting) else let* _b := AddNewTasks i in ret tt) s = Ret (s', tt) /\
    Loc σ0 s0 i None None σ' s' p' /\ ProcOk σ' s' i p'.
Proof.
  intros L Hr Hn Hp Hw. destruct (loc_GC _ _ _ _ _ _ _ L) as (s1 & σ1 & E1 & L1 & _).
  destruct (notified_ p) eqn:En.
  - destruct (loc_upd _ _ _ _ _ _ _ _ (set_notified false) L1 eq_refl) as (s2 & E2 & -> & L2).
    destruct (loc_new _ _ _ _ _ _ _ L2) as (s3 & σ3 & q & E3 & L3 & _).
    exists σ3, s3. eexists. split; [|split; [exact L3|]].
    + erewrite bind_ret; [|unfold WaitCondition; run E1; run (get_proc_spec _ _ _ (l_proc _ _ _ _ _ _ _ _ L1)); rewrite En; run E2; reflexivity].
      cbv beta iota. by run E3.
    + apply ok_idle; simpl; rewrite ?Hr, ?Hn, ?Hp; done.
  - destruct (loc_upd _ _ _ _ _ _ _ _ (set_waiting true) L1 eq_refl) as (s2 & E2 & -> & L2).
    destruct (loc_upd _ _ _ _ _ _ _ _ (set_pc Waiting) L2 eq_refl) as (s3 & E3 & -> & L3).
    eexists _, _, _. split; [|split; [exact L3|]].
    + erewrite bind_ret; [|unfold WaitCondition; run E1; run (get_proc_spec _ _ _ (l_proc _ _ _ _ _ _ _ _ L1)); rewrite En; run E2; reflexivity].
      cbv beta iota. exact E3.
    + apply ok_idle; simpl; rewrite ?Hr, ?Hn; done.
Qed.

Lemma outer_works σ w i p :
  Inv σ w -> procs (sys w) !! i = Some p -> pc_ p = Outer -> works σ w i (Process_outer i) tt.
Proof.
  intros I Hi Hp. pose proof (i_procs _ _ I _ _ Hi) as P.
  assert (nextTask_ p = None) as Hn by (eapply ok_next; [done|congruence]).
  assert (waiting_ p = false) as Hw by (rewrite (p_wait _ _ _ _ P), Hp; done).
  pose proof (loc_init σ (sys w) i p (i_core _ _ I) Hi) as L0. unfold works, Process_outer.
  erewrite bind_ret by reflexivity. cbv beta iota. destruct (stop_ (sys w)).
  { destruct (loc_upd _ _ _ _ _ _ _ _ (set_pc Stopped) L0 eq_refl) as (s1 & E1 & -> & L1).
    eexists _, _, _. split; [exact E1|split; [exact L1|]]. apply ok_idle; simpl; [|done..].
    eapply ok_claimed in P; [done|congruence]. }
  destruct (loc_front _ _ _ _ _ _ _ _ L0) as (s1 & E1 & L1 & K1 & _). run E1.
  destruct (head (queue (i, Runnable) (sys w))) as [e|] eqn:Eh.
  - destruct (loc_upd _ _ _ _ _ _ _ _ (set_running (Some e)) L1 eq_refl) as (s2 & E2 & -> & L2). run E2.
    erewrite bind_ret by reflexivity. cbv beta iota.
    destruct (loc_upd _ _ _ _ _ _ _ _ (fun p => set_pc Inner (set_quota 1 p)) L2 eq_refl) as (s3 & E3 & -> & L3).
    eexists _, _, _. split; [exact E3|split; [exact L3|]]. by apply ok_idle.
  - destruct (loc_upd _ _ _ _ _ _ _ _ (set_running None) L1 eq_refl) as (s2 & E2 & -> & L2). run E2.
    destruct (loc_new _ _ _ _ _ _ _ L2) as (s3 & σ3 & q & E3 & L3 & _).
    destruct (loc_front _ _ _ _ _ _ _ _ L3) as (s4 & E4 & L4 & K4 & _).
    set (o := head (queue (i, Runnable) s3)) in *.
    destruct (loc_upd _ _ _ _ _ _ _ _ (set_running o) L4 eq_refl) as (s5 & E5 & -> & L5).
    erewrite bind_ret; [|run E3; run E4; run E5; reflexivity]. cbv beta iota. destruct o as [e|] eqn:Eo.
    + destruct (loc_upd _ _ _ _ _ _ _ _ (fun p => set_pc Inner (set_quota 1 p)) L5 eq_refl) as (s6 & E6 & -> & L6).
      eexists _, _, _. split; [exact E6|split; [exact L6|]]. by apply ok_idle.
    + by apply (WaitCondition_works _ _ _ _ _ _ L5).
Qed.

Lemma wake_works σ w i p :
  Inv σ w -> procs (sys w) !! i = Some p -> pc_ p = Waiting -> works σ w i (Process_wake i) tt.
Proof.
  intros I Hi Hp. pose proof (i_procs _ _ I _ _ Hi) as P.
  assert (pc_ p <> InTask) as Hpc by congruence.
  assert (nextTask_ p = None) as Hn by (eapply ok_next; done).
  pose proof (loc_init σ (sys w) i p (i_core _ _ I) Hi) as L0. unfold works, Process_wake.
  destruct (loc_upd _ _ _ _ _ _ _ _ (set_waiting false) L0 eq_refl) as (s1 & E1 & -> & L1). run E1.
  destruct (loc_new _ _ _ _ _ _ _ L1) as (s2 & σ2 & q & E2 & L2 & F2 & U2 & _). run E2.
  destruct (loc_upd _ _ _ _ _ _ _ _ (set_pc Outer) L2 eq_refl) as (s3 & E3 & -> & L3).
  eexists _, _, _. split; [exact E3|split; [exact L3|]]. apply ok_idle; [|done..]. simpl.
  pose proof (ok_claimed _ _ _ _ P Hpc) as K. eapply Claimed_unmoved; [exact K|].
  intros e He. apply F2. intros Hin. destruct (K e He) as (x & _ & Hs & _). rewrite (U2 _ Hin) in Hs. done.
Qed.

Lemma inner_works σ w i p :
  Inv σ w -> procs (sys w) !! i = Some p -> pc_ p = Inner -> works σ w i (Process_inner i) tt.
Proof.
  intros I Hi Hp. pose proof (i_procs _ _ I _ _ Hi) as P. assert (pc_ p <> InTask) as Hpc by congruence.
  pose proof (ok_next _ _ _ _ P Hpc) as Hn. pose proof (ok_claimed _ _ _ _ P Hpc) as K.
  assert (waiting_ p = false) as Hw by (rewrite (p_wait _ _ _ _ P), Hp; done).
  pose proof (loc_init σ (sys w) i p (i_core _ _ I) Hi) as L0. unfold works, Process_inner.
  run (get_proc_spec _ _ _ Hi). erewrite bind_ret by reflexivity. cbv beta iota.
  assert (exists σ' s' p', upd_proc i (set_pc Outer) (sys w) = Ret (s', tt) /\
    Loc σ (sys w) i None None σ' s' p' /\ ProcOk σ' s' i p') as Hout.
  { destruct (loc_upd _ _ _ _ _ _ _ _ (set_pc Outer) L0 eq_refl) as (s1 & E1 & -> & L1).
    eexists _, _, _. split; [exact E1|split; [exact L1|]]. by apply ok_idle. }
  destruct (runningTask_ p) as [e|] eqn:Hr; [|done]. destruct (stop_ (sys w)); [done|]. clear Hout.
  destruct (K e eq_refl) as (x & Hx & Hs & Hc).
  destruct (c_task _ _ _ (i_core _ _ I) _ _ _ Hs Hx) as (T1 & T2 & T3).
  destruct (loc_task _ _ _ _ _ _ _ _ e Runnable x (fun x => with_proc (with_state x runnable) (Some i)) L0 Hs ltac:(done) Hx)
    as (s1 & E1 & -> & L1); [by split_and!| |].
  { intros HX. destruct (c_susp _ _ _ (i_core _ _ I) _ _ _ Hs Hx HX) as [? _]. by split. }
  run E1. destruct (loc_upd _ _ _ _ _ _ _ _ (fun p => set_pc InTask (set_switchCount (u64 (switchCount_ p + 1)) p)) L1 eq_refl)
    as (s2 & E2 & -> & L2).
  eexists _, _, _. split; [exact E2|split; [exact L2|]]. split; simpl; [| | |by rewrite Hr; eauto|done].
  - rewrite Hr. intros ? [= <-]. eexists _, Runnable. rewrite lookup_insert_eq. split_and!; auto.
  - by rewrite Hn.
  - by rewrite Hn.
Qed.

(** Behind the switch: the new running task is claimed, and no next task is left. *)
Definition switched σ s i (p : Proc Q) : Prop :=
  Claimed i σ s (runningTask_ p) /\ nextTask_ p = None /\ waiting_ p = false.

Lemma runnable_switch σ0 s0 i σ s p e :
  Loc σ0 s0 i None None σ s p -> σ !! e = Some (At (i, Runnable)) -> nextTask_ p = None -> waiting_ p = false ->
  exists σ' s' p', switch_runnable i e s = Ret (s', tt) /\ Loc σ0 s0 i None None σ' s' p' /\ switched σ' s' i p'.
Proof.
  intros L He Hn Hw. unfold switch_runnable. erewrite bind_ret by reflexivity. cbv beta iota.
  destruct (loc_next _ _ _ _ _ _ _ _ _ L He) as (s1 & E1 & L1 & K1 & _). unfold next in E1.
  erewrite bind_ret in E1 by reflexivity. cbv beta iota in E1.
  destruct (next_of e s) as [e'|].
  { run E1. destruct (loc_upd _ _ _ _ _ _ _ _ (set_running (Some e')) L1 eq_refl) as (s2 & E2 & -> & L2).
    eexists _, _, _. split; [exact E2|split; [exact L2|]]. by split. }
  clear s1 E1 L1 K1. run (get_proc_spec _ _ _ (l_proc _ _ _ _ _ _ _ _ L)). erewrite bind_ret by reflexivity. cbv beta iota.
  destruct (_ || _)%bool.
  { destruct (loc_upd _ _ _ _ _ _ _ _ (set_running None) L eq_refl) as (s2 & E2 & -> & L2).
    eexists _, _, _. split; [exact E2|split; [exact L2|]]. by split. }
  destruct (loc_new _ _ _ _ _ _ _ L) as (s1 & σ1 & q & E1 & L1 & F1 & U1 & _). run E1.
  assert (σ1 !! e = Some (At (i, Runnable))) as He1.
  { destruct (F1 e) as [-> _]; [|done]. intros Hin. rewrite (U1 _ Hin) in He. done. }
  destruct (loc_next _ _ _ _ _ _ _ _ _ L1 He1) as (s2 & E2 & L2 & K2 & _). run E2.
  destruct (loc_upd _ _ _ _ _ _ _ _ (set_running (next_of e s1)) L2 eq_refl) as (s3 & E3 & -> & L3). run E3.
  destruct (loc_upd _ _ _ _ _ _ _ _ (fun p => set_quota (addNewQuota_ p - 1) p) L3 eq_refl) as (s4 & E4 & -> & L4).
  eexists _, _, _. split; [exact E4|split; [exact L4|]]. by split.
Qed.

Lemma block_switch σ0 s0 i σ s p :
  Loc σ0 s0 i None None σ s p -> Claimed i σ s (nextTask_ p) -> waiting_ p = false ->
  exists σ' s' p', switch_block i s = Ret (s', tt) /\ Loc σ0 s0 i None None σ' s' p' /\ switched σ' s' i p'.
Proof.
  intros L K Hw. destruct (loc_upd _ _ _ _ _ _ _ _ (fun p => set_next None (set_running (nextTask_ p) p)) L eq_refl) as (s1 & E1 & -> & L1).
  eexists _, _, _. split; [exact E1|split; [exact L1|]]. by split.
Qed.

(** The part of the done case that finds the next task. *)
Lemma done_next σ0 s0 i σ s p e :
  Loc σ0 s0 i None None σ s p -> σ !! e = Some (At (i, Runnable)) -> nextTask_ p = None ->
  exists σ' s' p',
    choose_next i e s = Ret (s', tt) /\
    Loc σ0 s0 i None None σ' s' p' /\ Claimed i σ' s' (nextTask_ p') /\ nextTask_ p' <> Some e /\
    σ' !! e = Some (At (i, Runnable)) /\ runningTask_ p' = runningTask_ p /\ waiting_ p' = waiting_ p.
Proof.
  intros L He Hn. unfold choose_next. destruct (loc_next _ _ _ _ _ _ _ _ _ L He) as (s1 & E1 & L1 & K1 & N1 & _). run E1.
  destruct (loc_upd _ _ _ _ _ _ _ _ (set_next (next_of e s)) L1 eq_refl) as (s2 & E2 & -> & L2). run E2.
  run (get_proc_spec _ _ _ (l_proc _ _ _ _ _ _ _ _ L2)).
  assert (forall t, t = next_of e s -> exists σ' s' p', ret tt (set_procs (<[i:=set_next t p]> (procs s1)) s1) = Ret (s', tt) /\
    Loc σ0 s0 i None None σ' s' p' /\ Claimed i σ' s' (nextTask_ p') /\ nextTask_ p' <> Some e /\
    σ' !! e = Some (At (i, Runnable)) /\ runningTask_ p' = runningTask_ p /\ waiting_ p' = waiting_ p) as Hend.
  { intros t ->. eexists _, _, _. split; [done|split; [exact L2|]]. done. }
  destruct (next_of e s) as [e'|] eqn:En; [by apply Hend|]. destruct (0 <? _); [|by apply Hend]. clear Hend.
  destruct (loc_new _ _ _ _ _ _ _ L2) as (s3 & σ3 & q & E3 & L3 & F3 & U3 & _). run E3.
  assert (σ3 !! e = Some (At (i, Runnable))) as He3.
  { destruct (F3 e) as [-> _]; [|done]. intros Hin. rewrite (U3 _ Hin) in He. done. }
  destruct (loc_next _ _ _ _ _ _ _ _ _ L3 He3) as (s4 & E4 & L4 & K4 & N4 & _). run E4.
  destruct (loc_upd _ _ _ _ _ _ _ _ (fun p => set_quota (addNewQuota_ p - 1) (set_next (next_of e s3) p)) L4 eq_refl) as (s5 & E5 & -> & L5).
  eexists _, _, _. split; [exact E5|split; [exact L5|]]. done.
Qed.

Lemma done_switch σ0 s0 i σ s p e :
  Loc σ0 s0 i None None σ s p -> σ !! e = Some (At (i, Runnable)) -> nextTask_ p = None -> waiting_ p = false ->
  exists σ' s' p', switch_done i e s = Ret (s', tt) /\ Loc σ0 s0 i None None σ' s' p' /\ switched σ' s' i p'.
Proof.
  intros L He Hn Hw. unfold switch_done.
  destruct (done_next _ _ _ _ _ _ _ L He Hn) as (σ1 & s1 & p1 & E1 & L1 & K1 & N1 & He1 & R1 & W1). run E1.
  destruct (core_lookup _ _ _ _ _ (l_core _ _ _ _ _ _ _ _ L1) He1) as [x Hx].
  destruct (loc_erase _ _ _ _ _ _ _ _ _ x true L1 He1 Hx ltac:(by left) ltac:(done)) as (s2 & E2 & Es2 & L2).
  pose proof (frame_set σ1 s1 e Bare (with_refs (with_check x None) 1) (unlink e (links s1)) (procs s1) (stop_ s1) (taskCount_ s1)) as F2.
  rewrite <- Es2 in F2. clear Es2. run E2. erewrite bind_ret by reflexivity. cbv beta iota.
  assert (Claimed i (<[e:=Bare]> σ1) s2 (nextTask_ p1)) as K2 by (eapply Claimed_unmoved; [exact K1|]; intros e' He'; apply F2; set_solver).
  assert (exists σ3 s3, (if 16 <? size (i, Gc) s2 then GC i else ret tt) s2 = Ret (s3, tt) /\
    Loc σ0 s0 i None (Some e) σ3 s3 p1 /\ σ3 !! e = Some Bare /\ Claimed i σ3 s3 (nextTask_ p1)) as (σ3 & s3 & E3 & L3 & He3 & K3).
  { destruct (16 <? _).
    - destruct (loc_GC _ _ _ _ _ _ _ L2) as (s3 & σ3 & E3 & L3 & F3 & _). exists σ3, s3.
      assert (forall e', <[e:=Bare]> σ1 !! e' <> Some (At (i, Gc)) -> unmoved (<[e:=Bare]> σ1) s2 σ3 s3 e') as F3'.
      { intros e' He'. apply F3. by rewrite (core_queue _ _ _ _ _ (l_core _ _ _ _ _ _ _ _ L2)). }
      split; [done|split; [done|split]].
      + destruct (F3' e) as [-> _]; by rewrite lookup_insert_eq.
      + eapply Claimed_unmoved; [exact K2|]. intros e' He'. apply F3'. destruct (K2 e' He') as (y & _ & -> & _). done.
    - exists (<[e:=Bare]> σ1), s2. by rewrite lookup_insert_eq. }
  run E3. destruct (loc_push _ _ _ _ _ _ _ e Gc true L3 He3 ltac:(by left) ltac:(done)) as (y & s4 & Hy & E4 & Es4 & L4).
  pose proof (frame_set σ3 s3 e (At (i, Gc)) (with_refs (with_check y (Some (i, Gc))) 2) (links s3 ++ [(e, (i, Gc))]) (procs s3) (stop_ s3) (taskCount_ s3)) as F4.
  rewrite <- Es4 in F4. run E4.
  assert (tasks s4 !! e = Some (with_refs (with_check y (Some (i, Gc))) 2)) as Hy4 by (rewrite Es4; apply lookup_insert_eq).
  run (get_task_spec _ _ _ Hy4). destruct (c_task _ _ _ (l_core _ _ _ _ _ _ _ _ L3) _ _ _ He3 Hy) as (Hep & _).
  simpl eptr_. rewrite Hep. erewrite bind_ret by reflexivity. cbv beta iota.
  destruct (loc_upd _ _ _ _ _ _ _ _ (fun p => set_next None (set_running (nextTask_ p) p)) L4 eq_refl) as (s5 & E5 & -> & L5).
  eexists _, _, _. split; [exact E5|split; [exact L5|]]. split; [|simpl; by rewrite W1].
  eapply Claimed_unmoved; [exact K3|]. intros e' He'. apply F4. set_solver.
Qed.

Lemma switch_works σ0 s0 i σ s p :
  Loc σ0 s0 i None None σ s p -> ProcOk σ s i p -> pc_ p = InTask ->
  exists σ' s' p', Process_switch i s = Ret (s', tt) /\ Loc σ0 s0 i None None σ' s' p' /\ ProcOk σ' s' i p'.
Proof.
  intros L P Hp. destruct (p_intask _ _ _ _ P Hp) as [e Hr].
  destruct (p_run _ _ _ _ P _ Hr) as (x & q & Hx & Hs & Hc & _ & Hq).
  assert (waiting_ p = false) as Hw by (rewrite (p_wait _ _ _ _ P), Hp; done).
  assert (state_ x <> block -> q = Runnable /\ nextTask_ p = None) as Hnb.
  { intros Hb. split; [by destruct Hq as [|(_ & _ & ?)]|]. destruct (nextTask_ p) as [e'|] eqn:En; [|done].
    destruct (p_next _ _ _ _ P _ En) as (_ & e1 & x1 & He1 & _ & Hx1 & Hb1). congruence. }
  assert (exists σ' s' p', (match state_ x with runnable => switch_runnable i e | block => switch_block i | done_ => switch_done i e end) s = Ret (s', tt) /\
    Loc σ0 s0 i None None σ' s' p' /\ switched σ' s' i p') as (σ1 & s1 & p1 & E1 & L1 & K1 & N1 & W1).
  { destruct (state_ x) eqn:Ex.
    - destruct Hnb as [-> Hn]; [done|]. by eapply runnable_switch.
    - eapply block_switch; [done| |done]. apply P.
    - destruct Hnb as [-> Hn]; [done|]. by eapply done_switch. }
  destruct (loc_upd _ _ _ _ _ _ _ _ (set_pc Inner) L1 eq_refl) as (s2 & E2 & -> & L2).
  eexists _, _, _. split; [|split; [exact L2|]].
  - unfold Process_switch. run (get_proc_spec _ _ _ (l_proc _ _ _ _ _ _ _ _ L)). rewrite Hr.
    erewrite bind_ret by reflexivity. cbv beta iota. run (get_task_spec _ _ _ Hx). run E1. exact E2.
  - apply ok_idle; [done|done|done|]. simpl. by rewrite W1.
Qed.

(** The running task changes its record. *)
Lemma ok_task σ s i (p : Proc Q) e x y :
  ProcOk σ s i p -> runningTask_ p = Some e -> tasks s !! e = Some x ->
  check_ y = check_ x -> proc_ y = proc_ x -> state_ y = state_ x \/ state_ x <> block ->
  ProcOk σ (set_tasks (<[e := y]> (tasks s)) s) i p.
Proof.
  intros P Hr Hx Hc Hp Hst. split; simpl; [| | |apply P|apply P].
  - intros e1 He1. rewrite Hr in He1. injection He1 as <-.
    destruct (p_run _ _ _ _ P _ Hr) as (x' & q & Hx' & Hs & Hk & Hpr & Hq). simplify_eq.
    exists y, q. rewrite lookup_insert_eq. split_and!; [done|done|congruence|intros; rewrite Hp; auto|].
    destruct Hq as [->|(-> & ? & Hb)]; [auto|]. destruct Hst as [->|?]; [auto|done].
  - intros e' He'. destruct (p_next _ _ _ _ P _ He') as (Hpc & e1 & x1 & He1 & Hne & Hx1 & Hb).
    rewrite Hr in He1. injection He1 as <-. simplify_eq. split; [done|]. exists e, y. rewrite lookup_insert_eq. split_and!; [done..|]. destruct Hst as [->|?]; done.
  - intros e' He'. destruct (p_next _ _ _ _ P _ He') as (Hpc & e1 & x1 & He1 & Hne & _). rewrite Hr in He1. injection He1 as <-.
    destruct (p_claimed _ _ _ _ P _ He') as (x' & ? & ? & ?). exists x'. simpl. by rewrite lookup_insert_ne.
Qed.

Lemma yield_from σ0 s0 i σ s p :
  Loc σ0 s0 i None None σ s p -> ProcOk σ s i p -> pc_ p = InTask ->
  exists σ' s' p', CoYield i s = Ret (s', tt) /\ Loc σ0 s0 i None None σ' s' p' /\ ProcOk σ' s' i p'.
Proof.
  intros L P Hp. destruct (p_intask _ _ _ _ P Hp) as [e Hr].
  destruct (p_run _ _ _ _ P _ Hr) as (x & q & Hx & Hs & Hc & _ & Hq).
  pose proof (l_core _ _ _ _ _ _ _ _ L) as C.
  destruct (loc_task _ _ _ _ _ _ _ _ e q x (fun x => with_yieldCount x (u64 (yieldCount_ x + 1))) L Hs ltac:(naive_solver) Hx) as (s1 & E1 & Es1 & L1).
  { apply (c_task _ _ _ C _ _ _ Hs Hx). }
  { intros HX. apply (c_susp _ _ _ C _ _ _ Hs Hx HX). }
  destruct (switch_works _ _ _ _ _ _ L1) as (σ2 & s2 & p2 & E2 & L2 & P2); [|done|].
  { rewrite Es1. by apply (ok_task _ _ _ _ _ x _ P); [..|left]. }
  exists σ2, s2, p2. split; [|done]. unfold CoYield. run (get_proc_spec _ _ _ (l_proc _ _ _ _ _ _ _ _ L)).
  rewrite Hr. erewrite bind_ret by reflexivity. cbv beta iota. run E1. exact E2.
Qed.

Lemma yield_works σ w i p :
  Inv σ w -> procs (sys w) !! i = Some p -> pc_ p = InTask -> works σ w i (CoYield i) tt.
Proof. intros I Hi Hp. eapply yield_from; [by apply loc_init; [apply I|]|by apply (i_procs _ _ I)|done]. Qed.

(** The state of the running task. *)
Definition running_state i s : option TaskState :=
  p ← procs s !! i; e ← runningTask_ p; x ← tasks s !! e; Some (state_ x).

Lemma running_inv i s c : running_state i s = Some c ->
  exists p e x, procs s !! i = Some p /\ runningTask_ p = Some e /\ tasks s !! e = Some x /\ state_ x = c.
Proof.
  unfold running_state. destruct (procs s !! i) as [p|] eqn:Hp; [|done]. simpl.
  destruct (runningTask_ p) as [e|] eqn:He; [|done]. simpl. destruct (tasks s !! e) as [x|] eqn:Hx; [|done].
  simpl. intros [= <-]. eauto 8.
Qed.

Lemma end_works σ w i p thrown imm :
  Inv σ w -> procs (sys w) !! i = Some p -> pc_ p = InTask -> running_state i (sys w) = Some runnable ->
  (thrown && imm)%bool = false -> works σ w i (Run_end i thrown imm) tt.
Proof.
  intros I Hi Hp (p' & e & x & Hi' & Hr & Hx & Hst)%running_inv Ht. assert (p' = p) as -> by congruence.
  pose proof (i_procs _ _ I _ _ Hi) as P. pose proof (i_core _ _ I) as C.
  destruct (p_run _ _ _ _ P _ Hr) as (x' & q & Hx' & Hs & Hc & _ & Hq). assert (x = x') as -> by congruence.
  assert (q = Runnable) as -> by (destruct Hq as [|(_ & _ & ?)]; congruence).
  destruct (loc_task _ _ _ _ _ _ _ _ e Runnable x' (fun x => with_state x done_) (loc_init σ _ _ _ C Hi) Hs ltac:(done) Hx') as (s1 & E1 & Es1 & L1).
  { apply (c_task _ _ _ C _ _ _ Hs Hx'). }
  { intros HX. destruct (c_susp _ _ _ C _ _ _ Hs Hx' HX). by split. }
  destruct (yield_from _ _ _ _ _ _ L1) as (σ2 & s2 & p2 & E2 & L2 & P2); [|done|].
  { rewrite Es1. apply (ok_task _ _ _ _ _ x' _ P); try done. right. congruence. }
  exists σ2, s2, p2. split; [|done]. unfold Run_end. rewrite Ht. run (get_proc_spec _ _ _ Hi).
  rewrite Hr. erewrite bind_ret by reflexivity. cbv beta iota. run E1. exact E2.
Qed.

Lemma unmoved_task σ s σ' s' e x :
  unmoved σ s σ' s' e -> tasks s !! e = Some x ->
  exists c, tasks s' !! e = Some (with_check x c).
Proof.
  intros [_ [T|(q & y & _ & Hy & T)]] Hx; rewrite T; [exists (check_ x); rewrite Hx; by destruct x|].
  simplify_eq. eauto.
Qed.

Lemma suspend_works σ w i p :
  Inv σ w -> procs (sys w) !! i = Some p -> pc_ p = InTask -> running_state i (sys w) = Some runnable ->
  exists e x, runningTask_ p = Some e /\ tasks (sys w) !! e = Some x /\ Z.odd (suspendId_ x) = false /\
    works σ w i (Suspend i) (mkEntry e (u64 (suspendId_ x + 1))).
Proof.
  intros I Hi Hp (p' & e & x & Hi' & Hr & Hx & Hst)%running_inv. assert (p' = p) as -> by congruence.
  pose proof (i_procs _ _ I _ _ Hi) as P. pose proof (i_core _ _ I) as C.
  destruct (p_run _ _ _ _ P _ Hr) as (x' & q & Hx' & Hs & Hc & Hpr & Hq). assert (x = x') as -> by congruence.
  assert (q = Runnable) as -> by (destruct Hq as [|(_ & _ & ?)]; congruence). specialize (Hpr Hp).
  destruct (c_task _ _ _ C _ _ _ Hs Hx') as (T1 & T2 & T3).
  destruct (c_susp _ _ _ C _ _ _ Hs Hx' ltac:(done)) as [Ho _]. simpl in Ho.
  exists e, x'. split; [done|split; [done|split; [done|]]].
  set (y := with_suspendId (with_state x' block) (u64 (suspendId_ x' + 1))).
  pose proof (loc_open _ _ _ _ _ _ _ e (loc_init σ _ _ _ C Hi)) as L0.
  destruct (loc_task _ _ _ _ _ _ _ _ e Runnable x' (fun _ => y) L0 Hs ltac:(done) Hx') as (s1 & _ & Es1 & L1); [done|done|].
  destruct (loc_next _ _ _ _ _ _ _ _ _ L1 Hs) as (s2 & E2 & L2 & K2 & N2 & F2 & T).
  set (o := next_of e s1) in *.
  destruct (loc_upd _ _ _ _ _ _ _ _ (set_next o) L2 eq_refl) as (s3 & E3 & Es3 & L3).
  destruct (unmoved_task _ _ _ _ e y (F2 e ltac:(set_solver))) as [c Hy2].
  { rewrite Es1. simpl. apply lookup_insert_eq. }
  assert (tasks s3 !! e = Some (with_check y c)) as Hy3 by (by rewrite Es3).
  assert (Claimed i σ s3 o) as K3 by (rewrite Es3; exact K2).
  destruct (loc_erase _ _ _ _ _ _ _ e Runnable _ false L3 Hs Hy3 ltac:(by left) ltac:(done)) as (s4 & E4 & Es4 & L4).
  destruct (loc_push _ _ _ _ _ _ _ e Wait false L4 (lookup_insert_eq _ _ _) ltac:(by right) ltac:(done)) as (z & s5 & Hz & E5 & Es5 & L5).
  rewrite insert_insert_eq in L5.
  assert (z = with_refs (with_check y None) 2) as ->.
  { rewrite Es4 in Hz. simpl in Hz. rewrite lookup_insert_eq in Hz. injection Hz as <-. done. }
  assert (tasks s5 !! e = Some (with_refs (with_check y (Some (i, Wait))) 2)) as Hy5.
  { rewrite Es5. simpl. rewrite lookup_insert_eq. done. }
  assert (Frame [e] σ s3 (<[e:=At (i, Wait)]> σ) s5) as F5.
  { rewrite <- (insert_insert_eq σ e (At (i, Wait)) Held). rewrite Es5. eapply Frame_trans; [|apply frame_set]. rewrite Es4. apply frame_set. }
  eexists _, s5, _. split; [|split; [eapply loc_close; [exact L5|]|]].
  - unfold Suspend. run (get_proc_spec _ _ _ Hi). rewrite Hr. run (get_task_spec _ _ _ Hx'). rewrite Hpr.
    unfold SuspendBySelf. run (get_proc_spec _ _ _ Hi). rewrite Hr, bool_decide_eq_true_2 by done. cbn [negb]. cbv iota.
    run (get_task_spec _ _ _ Hx'). rewrite bool_decide_eq_true_2 by done. cbn [negb]. cbv iota zeta. fold y.
    erewrite bind_ret; [|unfold put_task, modify; rewrite <- Es1; reflexivity]. cbv beta iota.
    run E2. run E3. run E4. run E5. done.
  - intros k x. rewrite lookup_insert_eq, Hy5. intros [= <-] [= <-]. split; simpl.
    + by rewrite odd_u64_succ, Ho.
    + intros j [= <-]. done.
  - split; simpl.
    + intros e1 [= <-]%(eq_trans (eq_sym Hr)). eexists _, Wait. rewrite lookup_insert_eq. split_and!; [exact Hy5|done|done|done|auto].
    + intros e' He'. split; [done|]. exists e. eexists. split_and!; [done| |exact Hy5|done]. intros <-. done.
    + eapply Claimed_unmoved; [exact K3|]. intros e' He'. apply F5. set_solver.
    + rewrite Hr. eauto.
    + apply P.
Qed.

(** *** Waking a task *)

Lemma NotifyCondition_spec s j p :
  procs s !! j = Some p ->
  exists p', NotifyCondition j s = Ret (set_procs (<[j := p']> (procs s)) s, tt) /\ (p' = p \/ p' = set_notified true p).
Proof.
  intros Hj. unfold NotifyCondition. erewrite bind_ret by (by apply get_proc_spec). cbv beta. destruct (waiting_ p).
  - exists p. rewrite list_insert_id by done. destruct s. auto.
  - exists (set_notified true p). split; [by apply upd_proc_spec|auto].
Qed.

Lemma WakeupBySelf_spec s self j e x p :
  tasks s !! e = Some x -> (e, (j, Wait)) ∈ links s -> procs s !! j = Some p ->
  exists p', WakeupBySelf self j e (suspendId_ x) s =
    Ret (mkSystem (<[e := with_check (with_suspendId x (u64 (suspendId_ x + 1))) (Some (j, Runnable))]> (tasks s))
           (unlink e (links s) ++ [(e, (j, Runnable))]) (<[j := p']> (procs s)) (stop_ s) (taskCount_ s), true) /\
    (p' = p \/ p' = set_notified true p).
Proof.
  intros Hx Hl Hj. set (y := with_suspendId x (u64 (suspendId_ x + 1))).
  set (s1 := set_tasks (<[e := y]> (tasks s)) s).
  set (s2 := mkSystem (<[e := with_check y None]> (tasks s)) (unlink e (links s)) (procs s) (stop_ s) (taskCount_ s)).
  set (s3 := mkSystem (<[e := with_check y (Some (j, Runnable))]> (tasks s)) (unlink e (links s) ++ [(e, (j, Runnable))]) (procs s) (stop_ s) (taskCount_ s)).
  assert (erase (j, Wait) e false false s1 = Ret (s2, true)) as E1.
  { unfold erase. erewrite bind_ret by (apply get_task_spec, lookup_insert_eq). cbv beta iota delta [andb].
    erewrite bind_ret by reflexivity. cbv beta. rewrite bool_decide_eq_true_2 by (by apply elem_members).
    erewrite bind_ret by reflexivity. erewrite bind_ret by reflexivity. erewrite bind_ret by reflexivity.
    unfold ret, s2, s1, set_tasks, set_links. simpl. by rewrite insert_insert_eq. }
  assert (exists n, push (j, Runnable) e false s2 = Ret (s3, n)) as [n E2].
  { eexists. unfold push. erewrite bind_ret by reflexivity. cbv beta. unfold linked. rewrite bool_decide_eq_false_2 by apply links_filter_elem.
    erewrite bind_ret by reflexivity. erewrite bind_ret by (apply upd_task_spec; simpl; apply lookup_insert_eq).
    erewrite bind_ret by reflexivity. unfold gets, set_tasks. simpl. rewrite insert_insert_eq. reflexivity. }
  assert (exists p', (if ((n =? 1) && negb (bool_decide (self = Some j)))%bool then NotifyCondition j else ret tt) s3 =
    Ret (set_procs (<[j := p']> (procs s)) s3, tt) /\ (p' = p \/ p' = set_notified true p)) as (p' & E3 & Hp').
  { destruct (_ && _)%bool; [by apply (NotifyCondition_spec s3)|]. exists p. rewrite list_insert_id by done. auto. }
  exists p'. split; [|done]. unfold WakeupBySelf. erewrite bind_ret by (by apply get_task_spec). cbv beta.
  rewrite Z.eqb_refl. cbn [negb]. cbv iota. erewrite bind_ret by reflexivity. fold y. fold s1.
  erewrite bind_ret by exact E1. cbv beta. erewrite bind_ret by exact E2. cbv beta. by erewrite bind_ret by exact E3.
Qed.

(** An entry that is not expired wakes its task. *)
Lemma Wakeup_live s self en j x p :
  tasks s !! tk_ en = Some x -> id_ en = suspendId_ x -> proc_ x = Some j -> (tk_ en, (j, Wait)) ∈ links s ->
  procs s !! j = Some p -> 1 <= refs x ->
  exists p', Wakeup self en s =
    Ret (mkSystem (<[tk_ en := with_check (with_suspendId x (u64 (suspendId_ x + 1))) (Some (j, Runnable))]> (tasks s))
           (unlink (tk_ en) (links s) ++ [(tk_ en, (j, Runnable))]) (<[j := p']> (procs s)) (stop_ s) (taskCount_ s), true) /\
    (p' = p \/ p' = set_notified true p).
Proof.
  intros Hx Hid Hpr Hl Hj Hr. set (e := tk_ en) in *. set (x1 := with_refs x (refs x + 1)).
  destruct (WakeupBySelf_spec (set_tasks (<[e := x1]> (tasks s)) s) self j e x1 p (lookup_insert_eq _ _ _) Hl Hj) as (p' & E & Hp').
  exists p'. split; [|done]. unfold Wakeup. fold e. erewrite bind_ret by reflexivity. cbv beta.
  rewrite bool_decide_eq_true_2 by eauto. cbn [negb]. cbv iota. unfold IncrementRef.
  erewrite bind_ret by (by apply upd_task_spec). fold x1.
  erewrite bind_ret by (apply get_task_spec, lookup_insert_eq). cbv beta. simpl proc_. rewrite Hpr, Hid.
  change (suspendId_ x) with (suspendId_ x1). erewrite bind_ret by exact E. cbv beta.
  unfold DecrementRef. erewrite bind_ret; [reflexivity|]. simpl tasks. erewrite bind_ret by (apply get_task_spec; simpl; apply lookup_insert_eq). cbv beta.
  erewrite bind_ret by reflexivity. cbn [refs with_check with_suspendId with_refs]. subst x1. cbn [refs with_refs]. replace (refs x + 1 - 1) with (refs x) by lia.
  rewrite (proj2 (Z.eqb_neq (refs x) 0)) by lia. unfold ret, set_tasks. simpl. rewrite !insert_insert_eq.
  by destruct x.
Qed.

(** An expired one does nothing. *)
Lemma Wakeup_expired s self en :
  (forall x, tasks s !! tk_ en = Some x -> 1 <= refs x) -> IsExpire en s = true -> Wakeup self en s = Ret (s, false).
Proof.
  intros Hr He. unfold IsExpire in He. unfold Wakeup. erewrite bind_ret by reflexivity. cbv beta.
  destruct (tasks s !! tk_ en) as [x|] eqn:Hx; [|done]. apply negb_true_iff in He as Hid.
  specialize (Hr x eq_refl). rewrite bool_decide_eq_true_2 by eauto. cbn [negb]. cbv iota. unfold IncrementRef.
  set (x1 := with_refs x (refs x + 1)). set (s1 := set_tasks (<[tk_ en := x1]> (tasks s)) s).
  erewrite bind_ret by (by apply upd_task_spec). change (set_tasks (<[tk_ en:=with_refs x (refs x + 1)]> (tasks s)) s) with s1.
  assert (tasks s1 !! tk_ en = Some x1) as Hx1 by apply lookup_insert_eq.
  erewrite bind_ret by (by apply get_task_spec). cbv beta.
  assert ((match proc_ x1 with Some j => WakeupBySelf self j (tk_ en) (id_ en) | None => ret false end) s1 = Ret (s1, false)) as E.
  { destruct (proc_ x1); [|reflexivity]. unfold WakeupBySelf. erewrite bind_ret by (by apply get_task_spec). cbv beta.
    change (suspendId_ x1) with (suspendId_ x). by rewrite Hid. }
  erewrite bind_ret by exact E.
  cbv beta. unfold DecrementRef. erewrite bind_ret; [reflexivity|]. erewrite bind_ret by (by apply get_task_spec). cbv beta.
  erewrite bind_ret by reflexivity. cbn [refs with_check with_suspendId with_refs]. subst x1. cbn [refs with_refs]. replace (refs x + 1 - 1) with (refs x) by lia.
  rewrite (proj2 (Z.eqb_neq (refs x) 0)) by lia. unfold ret, s1, set_tasks. simpl. rewrite insert_insert_eq.
  replace (with_refs (with_refs x (refs x + 1)) (refs x)) with x by (by destruct x). rewrite insert_id by done. by destruct s.
Qed.

(** In a world: an entry names a suspended task or is expired. *)
Lemma entry_site σ w en x :
  Inv σ w -> en ∈ entries w -> tasks (sys w) !! tk_ en = Some x -> id_ en = suspendId_ x ->
  exists j p, σ !! tk_ en = Some (At (j, Wait)) /\ proc_ x = Some j /\ procs (sys w) !! j = Some p /\ refs x = 2.
Proof.
  intros I Hen Hx Hid. pose proof (i_core _ _ I) as C.
  destruct (σ !! tk_ en) as [k|] eqn:Hs; cycle 1.
  { destruct (proj1 (c_dom _ _ _ C (tk_ en))) as [k Hk]; [eauto|congruence]. }
  destruct (c_susp _ _ _ C _ _ _ Hs Hx ltac:(done)) as [Ho Hj]. rewrite <- Hid, (i_entries _ _ I _ Hen) in Ho.
  destruct k as [[j []]| | |]; try done. destruct (Hj j eq_refl) as [Hp _].
  destruct (lookup_lt_is_Some_2 (procs (sys w)) j) as [p Hpj]; [by eapply (i_bounds _ _ I)|].
  exists j, p. split_and!; [done..|]. by apply (c_task _ _ _ C _ _ _ Hs Hx).
Qed.

Lemma ok_notified σ s i (p p' : Proc Q) :
  ProcOk σ s i p -> p' = p \/ p' = set_notified true p -> ProcOk σ s i p'.
Proof. intros P [->| ->]; [done|]. destruct P. by split. Qed.

Lemma wakeup_inv σ w self en :
  Inv σ w -> en ∈ entries w ->
  exists σ' s' b, Wakeup self en (sys w) = Ret (s', b) /\ Inv σ' (mkWorld s' (loot w) (entries w)) /\ keeps_parked σ σ'.
Proof.
  intros I Hen. pose proof (i_core _ _ I) as C.
  assert (forall x, tasks (sys w) !! tk_ en = Some x -> 1 <= refs x) as Hr.
  { intros x Hx. destruct (proj1 (c_dom _ _ _ C (tk_ en))) as [k Hk]; [eauto|].
    destruct (c_task _ _ _ C _ _ _ Hk Hx) as (_ & -> & _). destruct k; simpl; lia. }
  destruct (IsExpire en (sys w)) eqn:He.
  { exists σ, (sys w), false. split; [by apply Wakeup_expired|]. split; [by destruct w|by intros ?]. }
  unfold IsExpire in He. destruct (tasks (sys w) !! tk_ en) as [x|] eqn:Hx; [|done].
  apply negb_false_iff, Z.eqb_eq in He as Hid. destruct (entry_site _ _ _ _ I Hen Hx Hid) as (j & p & Hs & Hpr & Hj & Hr2).
  destruct (Wakeup_live _ self en j x p Hx Hid Hpr) as (p' & E & Hp'); [by apply (c_links _ _ _ C)|done|lia|].
  eexists _, _, true. split; [exact E|]. clear E. set (e := tk_ en) in *.
  set (y := with_check (with_suspendId x (u64 (suspendId_ x + 1))) (Some (j, Runnable))).
  destruct (c_task _ _ _ C _ _ _ Hs Hx) as (T1 & T2 & T3). destruct (c_susp _ _ _ C _ _ _ Hs Hx ltac:(done)) as [Ho _].
  set (lnk := unlink e (links (sys w)) ++ [(e, (j, Runnable))]).
  set (s1 := mkSystem (<[e := y]> (tasks (sys w))) lnk (procs (sys w)) (stop_ (sys w)) (taskCount_ (sys w))).
  assert (Core None (<[e := At (j, Runnable)]> σ) s1) as C1.
  { eapply core_set; [done|done|done|done|done|by split_and!| | |].
    - intros _. split; [|done]. simpl. by rewrite odd_u64_succ, Ho.
    - unfold lnk. rewrite fmap_app. apply NoDup_app. split; [apply links_filter_nodup, (c_nodup _ _ _ C)|].
      split; [|apply NoDup_singleton]. intros e' He' ->%list_elem_of_singleton. by apply links_filter_elem in He'.
    - intros e' q. unfold lnk. rewrite elem_of_app, list_elem_of_singleton, elem_unlink, (c_links _ _ _ C).
      destruct (decide (e = e')) as [<-|Hn]; [rewrite lookup_insert_eq; naive_solver|rewrite lookup_insert_ne by done; naive_solver]. }
  assert (Loc σ (sys w) j None None (<[e := At (j, Runnable)]> σ) (set_procs (<[j := p']> (procs (sys w))) s1) p') as L.
  { eapply (loc_frame _ _ _ _ _ _ _ [e] _ _ _ _ _ p'); [by apply loc_init| |apply frame_set|done|done|..].
    - eapply (core_proc _ _ s1); [done|done|]. by destruct Hp' as [-> | ->].
    - intros e' ->%list_elem_of_singleton. rewrite Hs. by left.
    - intros e' ->%list_elem_of_singleton. rewrite lookup_insert_eq. by left.
    - done.
    - done.
    - intros e' j' ->%list_elem_of_singleton. by rewrite Hs. }
  split; [|intros ?; eapply loc_parked, L].
  eapply inv_local; [done|done|exact L| |apply I].
  eapply ok_notified; [|exact Hp']. pose proof (i_procs _ _ I _ _ Hj) as P.
  assert (forall e', e' <> e -> unmoved σ (sys w) (<[e:=At (j, Runnable)]> σ) s1 e') as F.
  { intros e' Hn. apply frame_set. set_solver. }
  assert (nextTask_ p <> Some e) as Hne.
  { intros Hn. destruct (p_claimed _ _ _ _ P _ Hn) as (? & _ & Hs' & _). congruence. }
  destruct (decide (runningTask_ p = Some e)) as [Hrun|Hrun]; cycle 1.
  { eapply ProcOk_unmoved; [exact P|]. intros e' He'. apply F. naive_solver. }
  destruct (p_run _ _ _ _ P _ Hrun) as (x' & q & Hx' & Hs' & Hc' & Hpt & Hq').
  assert (x' = x) as -> by congruence.
  split; [| | |apply P|apply P].
  - intros e1 He1. rewrite Hrun in He1. injection He1 as <-. exists y, Runnable. rewrite lookup_insert_eq.
    split_and!; [apply lookup_insert_eq|done|done|done|auto].
  - intros e' He'. destruct (p_next _ _ _ _ P _ He') as (Hpc & e1 & x1 & He1 & Hn1 & Hx1 & Hb). split; [done|].
    rewrite Hrun in He1. injection He1 as <-. exists e, y. split_and!; [done|done|apply lookup_insert_eq|].
    simpl. by simplify_eq.
  - eapply Claimed_unmoved; [apply P|]. intros e' He'. apply F. congruence.
Qed.

(** *** Stealing *)

(** [o] is the running or next task of the processor: claimed by the queue it is in. *)
Definition Held_by i σ s (o : option nat) : Prop :=
  forall e, o = Some e -> exists x q, tasks s !! e = Some x /\ σ !! e = Some (At (i, q)) /\ check_ x = Some (i, q) /\ (q = Runnable \/ q = Wait).

Lemma Held_by_unmoved i σ s σ' s' o :
  Held_by i σ s o -> (forall e, o = Some e -> unmoved σ s σ' s' e) -> Held_by i σ' s' o.
Proof.
  intros K F e He. destruct (K e He) as (x & q & Hx & Hs & Hc & Hq). destruct (F e He) as [E [T|(r & y & Hs' & Hy & T)]].
  - exists x, q. by rewrite E, T.
  - simplify_eq. eexists _, q. split; [exact T|]. by rewrite E.
Qed.

(** Is it in the runnable queue? *)
Definition guarded i σ (o : option nat) : bool :=
  match o with Some e => bool_decide (σ !! e = Some (At (i, Runnable))) | None => false end.
(** The sites with [o] taken off its queue. *)
Definition lift i σ (o : option nat) : gmap nat site :=
  match o with Some e => if guarded i σ o then <[e := Bare]> σ else σ | None => σ end.

Lemma protect_spec σ s i o slist :
  Core None σ s -> Held_by i σ s o ->
  exists s', protect i o slist s = Ret (s', (guarded i σ o, slist)) /\ Core None (lift i σ o) s' /\
    Frame (if guarded i σ o then option_list o else []) σ s (lift i σ o) s' /\ procs s' = procs s /\ stop_ s' = stop_ s /\
    links s' = (if guarded i σ o then match o with Some e => unlink e (links s) | None => links s end else links s) /\
    (guarded i σ o = true -> forall e, o = Some e -> exists x, tasks s !! e = Some x /\ check_ x = Some (i, Runnable) /\
       tasks s' !! e = Some (with_refs (with_check x None) 1)).
Proof.
  intros C K. destruct o as [e|]; [|exists s; by split_and!; [..|apply Frame_refl| | | |]].
  destruct (K e eq_refl) as (x & q & Hx & Hs & Hc & Hq). unfold lift, guarded. rewrite Hs.
  destruct (decide (q = Runnable)) as [->|Hn].
  - rewrite bool_decide_eq_true_2 by done.
    destruct (erase_spec None σ s e (i, Runnable) x true true C Hs Hx ltac:(by left) ltac:(done)) as (s' & E & -> & C').
    eexists. split; [|split; [exact C'|split; [apply frame_set|split; [done|split; [done|split; [done|]]]]]].
    + unfold protect. by erewrite bind_ret by exact E.
    + intros _ e' [= <-]. exists x. split_and!; [done..|]. apply lookup_insert_eq.
  - destruct Hq as [?| ->]; [done|]. rewrite bool_decide_eq_false_2 by congruence. exists s. split_and!; try done; [|apply Frame_refl].
    unfold protect. erewrite bind_ret by (eapply erase_unclaimed; [done|congruence]). cbv beta iota.
    erewrite bind_ret by (by apply get_task_spec). cbv beta. rewrite bool_decide_eq_false_2 by congruence. done.
Qed.

Lemma push_back_spec σ s i b o :
  Core None σ s -> (b = true -> forall e, o = Some e -> σ !! e = Some Bare) ->
  exists s', push_back i b o s = Ret (s', tt) /\ procs s' = procs s /\ stop_ s' = stop_ s /\
  match b, o with
  | true, Some e => Core None (<[e := At (i, Runnable)]> σ) s' /\ Frame [e] σ s (<[e := At (i, Runnable)]> σ) s' /\
      links s' = links s ++ [(e, (i, Runnable))] /\
      (forall x, tasks s !! e = Some x -> tasks s' !! e = Some (with_refs (with_check x (Some (i, Runnable))) 2))
  | _, _ => s' = s
  end.
Proof.
  intros C Hb. destruct b, o as [e|]; try by exists s.
  destruct (push_spec None σ s e (i, Runnable) true C (Hb eq_refl e eq_refl) ltac:(by left) ltac:(done)) as (x & s' & Hx & E & Es & C').
  exists s'. split; [unfold push_back; by erewrite bind_ret by exact E|]. rewrite Es in *. split; [done|split; [done|]].
  split; [done|split; [apply frame_set|split; [done|]]]. intros x' Hx'. simplify_eq. apply lookup_insert_eq.
Qed.

Lemma unmoved_claimed σ s σ' s' e p x :
  unmoved σ s σ' s' e -> tasks s !! e = Some x -> σ !! e = Some (At p) -> check_ x = Some p -> tasks s' !! e = Some x.
Proof.
  intros [_ [->|(q & y & Hq & Hy & ->)]] Hx Hs Hc; [done|]. assert (y = x) as -> by congruence. assert (q = p) as -> by congruence. rewrite <- Hc. by destruct x.
Qed.
Lemma unmoved_off σ s σ' s' e k :
  unmoved σ s σ' s' e -> σ !! e = Some k -> (forall p, k <> At p) -> tasks s' !! e = tasks s !! e.
Proof. intros [_ [->|(q & y & Hq & _)]] Hk Hn; [done|]. rewrite Hk in Hq. injection Hq as ->. by destruct (Hn q). Qed.

(** The way of a guarded task through [Steal]: off its queue, and back. *)
Lemma round_trip (x : Task) i :
  refs x = 2 -> check_ x = Some (i, Runnable) ->
  with_refs (with_check (with_refs (with_check x None) 1) (Some (i, Runnable))) 2 = x.
Proof. destruct x; simpl. by intros -> ->. Qed.

(** The operation takes the elements [f] of the runnable queue. *)
Definition takes i (op : st (System Q) (list nat)) (f : list nat -> list nat) : Prop :=
  forall σ s, Core None σ s -> let l := f (queue (i, Runnable) s) in
    exists lnk, op s = Ret (set_links lnk s, l) /\ Core None (relocate l Held σ) (set_links lnk s).

Definition steal_tail i (run nxt : option nat) (op : Z -> st (System Q) (list nat)) (slist : list nat) : st (System Q) (list nat) :=
  let* r1 := protect i run slist in
  let* r2 := protect i nxt r1.2 in
  let* slist2 := op (Z.of_nat (length r2.2)) in
  push_back i r1.1 run ;;; push_back i r2.1 nxt ;;; ret (slist2 ++ r2.2).

(** The runnable tasks but the running and the next one. *)
Definition spare i (run nxt : option nat) s : list nat :=
  filter (fun e => nxt <> Some e) (filter (fun e => run <> Some e) (queue (i, Runnable) s)).

Lemma spare_lifted σ s s' i o :
  Core None σ s -> links s' = (if guarded i σ o then match o with Some e => unlink e (links s) | None => links s end else links s) ->
  queue (i, Runnable) s' = filter (fun e => o <> Some e) (queue (i, Runnable) s).
Proof.
  intros C. unfold queue at 1. intros ->. unfold guarded. destruct o as [e|].
  - case_bool_decide as Hs.
    + rewrite members_unlink. apply list_filter_iff. naive_solver.
    + symmetry. apply (filter_keeps (fun e' => Some e <> Some e')). intros e' He' [= ->]. apply Hs. by apply (core_queue _ _ _ _ _ C).
  - symmetry. by apply (filter_keeps (fun e' => None <> Some e')).
Qed.

Lemma lift_ne i σ o e : o <> Some e -> lift i σ o !! e = σ !! e.
Proof. intros Hn. destruct o as [e'|]; [|done]. simpl. case_bool_decide; [|done]. apply lookup_insert_ne. congruence. Qed.
Lemma lift_guarded i σ o e : guarded i σ o = true -> o = Some e -> lift i σ o !! e = Some Bare.
Proof. intros Hg ->. unfold lift. rewrite Hg. apply lookup_insert_eq. Qed.
Lemma guarded_site i σ o e : guarded i σ o = true -> o = Some e -> σ !! e = Some (At (i, Runnable)).
Proof. intros Hg ->. by apply bool_decide_eq_true in Hg. Qed.

Lemma steal_tail_spec i op f σ s run nxt slist :
  Core None σ s -> Held_by i σ s run -> Held_by i σ s nxt -> (forall e, run = Some e -> nxt <> Some e) ->
  takes i (op (Z.of_nat (length slist))) f -> (forall l, f l ⊆ l) ->
  let l := f (spare i run nxt s) in
  exists s', steal_tail i run nxt op slist s = Ret (s', l ++ slist) /\ Core None (relocate l Held σ) s' /\
    Frame l σ s (relocate l Held σ) s' /\ procs s' = procs s /\ stop_ s' = stop_ s.
Proof.
  intros C0 Kr Kn Hne Hop Hf l.
  destruct (protect_spec σ s i run slist C0 Kr) as (s1 & E1 & C1 & F1 & P1 & S1 & L1 & T1).
  set (g1 := guarded i σ run) in *.
  assert (forall e, nxt = Some e -> unmoved σ s (lift i σ run) s1 e) as Hn1.
  { intros e He. apply F1. destruct g1; [|set_solver]. destruct run as [e'|]; [|set_solver]. simpl. specialize (Hne e' eq_refl). set_solver. }
  destruct (protect_spec _ _ i nxt slist C1 (Held_by_unmoved _ _ _ _ _ _ Kn Hn1)) as (s2 & E2 & C2 & F2 & P2 & S2 & L2 & T2).
  set (g2 := guarded i (lift i σ run) nxt) in *. set (σ2 := lift i (lift i σ run) nxt) in *.
  assert (queue (i, Runnable) s2 = spare i run nxt s) as Eq.
  { unfold spare. rewrite <- (spare_lifted _ _ _ _ _ C0 L1). by apply (spare_lifted _ _ _ _ _ C1). }
  destruct (Hop _ _ C2) as (lnk & E3 & C3). rewrite Eq in E3, C3. fold l in E3, C3.
  assert (forall e, e ∈ l -> run <> Some e /\ nxt <> Some e /\ σ !! e = Some (At (i, Runnable))) as Hl.
  { intros e He%Hf. unfold spare in He. rewrite !list_elem_of_filter, (core_queue _ _ _ _ _ C0) in He. tauto. }
  set (s3 := set_links lnk s2) in *. set (σ3 := relocate l Held σ2) in *.
  assert (forall e, run = Some e \/ nxt = Some e -> σ3 !! e = σ2 !! e) as H3.
  { intros e He. unfold σ3. rewrite lookup_relocate, decide_False; [done|]. intros Hin%Hl. naive_solver. }
  assert (g1 = true -> forall e, run = Some e -> σ3 !! e = Some Bare) as Hr3.
  { intros Hg e He. rewrite H3 by auto. unfold σ2. rewrite lift_ne by (subst; by apply Hne). by apply lift_guarded. }
  assert (g2 = true -> forall e, nxt = Some e -> σ3 !! e = Some Bare) as Hn3.
  { intros Hg e He. rewrite H3 by auto. unfold σ2. by apply lift_guarded. }
  destruct (push_back_spec σ3 s3 i g1 run C3 Hr3) as (s4 & E4 & P4 & S4 & Q4).
  set (σ4 := if g1 then match run with Some e => <[e := At (i, Runnable)]> σ3 | None => σ3 end else σ3).
  assert (Core None σ4 s4) as C4 by (unfold σ4; destruct g1, run; first [apply Q4|by rewrite Q4]).
  assert (g2 = true -> forall e, nxt = Some e -> σ4 !! e = Some Bare) as Hn4.
  { intros Hg e He. rewrite <- (Hn3 Hg e He). unfold σ4. destruct g1, run as [e'|]; try done. apply lookup_insert_ne. specialize (Hne e' eq_refl). congruence. }
  destruct (push_back_spec σ4 s4 i g2 nxt C4 Hn4) as (s5 & E5 & P5 & S5 & Q5).
  set (σ5 := if g2 then match nxt with Some e => <[e := At (i, Runnable)]> σ4 | None => σ4 end else σ4).
  assert (Core None σ5 s5) as C5 by (unfold σ5; destruct g2, nxt; first [apply Q5|by rewrite Q5]).
  assert (forall e, g1 = true -> run = Some e -> unmoved σ s σ5 s5 e) as Ur.
  { intros e Hg ->. split.
    - unfold σ5. rewrite (guarded_site _ _ _ e Hg eq_refl).
      transitivity (σ4 !! e); [destruct g2, nxt as [e'|]; try done; apply lookup_insert_ne; specialize (Hne e eq_refl); congruence|].
      unfold σ4. rewrite Hg. apply lookup_insert_eq.
    - left. destruct (T1 Hg e eq_refl) as (x & Hx & Hc & Hx1).
      destruct (c_task _ _ _ C0 _ _ _ (guarded_site _ _ _ e Hg eq_refl) Hx) as (_ & Hr & _).
      assert (lift i σ (Some e) !! e = Some Bare) as Hb1 by (by apply lift_guarded).
      assert (nxt <> Some e) as Hn by (by apply Hne).
      assert (tasks s2 !! e = Some (with_refs (with_check x None) 1)) as Hx2.
      { rewrite <- Hx1. eapply unmoved_off; [|exact Hb1|done]. apply F2. destruct g2, nxt; set_solver. }
      rewrite Hg in Q4. destruct Q4 as (_ & _ & _ & Q4). specialize (Q4 _ Hx2). rewrite round_trip in Q4 by done. rewrite Hx.
      destruct g2, nxt as [e'|]; try (by rewrite Q5). destruct Q5 as (_ & Q5 & _).
      eapply unmoved_claimed; [apply Q5; set_solver|done| |done]. unfold σ4. rewrite Hg. apply lookup_insert_eq. }
  assert (forall e, g2 = true -> nxt = Some e -> unmoved σ s σ5 s5 e) as Un.
  { intros e Hg ->. assert (run <> Some e) as Hn by (intros E; by eapply Hne).
    assert (σ !! e = Some (At (i, Runnable))) as Hs by (rewrite <- (lift_ne i σ run) by done; by apply (guarded_site _ _ (Some e))).
    split; [unfold σ5; rewrite Hg, Hs; apply lookup_insert_eq|left].
    destruct (Kn e eq_refl) as (x & q & Hx & Hs' & Hc & _). assert (q = Runnable) as -> by congruence.
    pose proof (unmoved_claimed _ _ _ _ _ _ _ (Hn1 e eq_refl) Hx Hs Hc) as Hx1.
    destruct (T2 Hg e eq_refl) as (x' & Hx' & _ & Hx2). assert (x' = x) as -> by congruence.
    destruct (c_task _ _ _ C0 _ _ _ Hs Hx) as (_ & Hr & _).
    assert (tasks s4 !! e = Some (with_refs (with_check x None) 1)) as Hx4.
    { destruct g1, run as [e'|]; try (by rewrite Q4). destruct Q4 as (_ & Q4 & _). rewrite <- Hx2.
      change (tasks s2) with (tasks s3). eapply unmoved_off; [apply Q4; set_solver|by apply Hn3|done]. }
    rewrite Hg in Q5. destruct Q5 as (_ & _ & _ & Q5). rewrite (Q5 _ Hx4), round_trip by done. done. }
  assert (forall e, e ∉ l -> unmoved σ s σ5 s5 e) as U.
  { intros e He. destruct (decide (g1 = true /\ run = Some e)) as [[? ?]|H1]; [by apply Ur|].
    destruct (decide (g2 = true /\ nxt = Some e)) as [[? ?]|H2]; [by apply Un|].
    eapply unmoved_trans; [apply F1; destruct g1, run; set_solver|].
    eapply unmoved_trans; [apply F2; destruct g2, nxt; set_solver|].
    apply (unmoved_trans _ _ σ3 s3); [split; [unfold σ3; by rewrite lookup_relocate, decide_False|by left]|].
    apply (unmoved_trans _ _ σ4 s4).
    - unfold σ4. destruct g1, run as [e'|]; try (rewrite Q4; split; auto). apply Q4. set_solver.
    - unfold σ5. destruct g2, nxt as [e'|]; try (rewrite Q5; split; auto). apply Q5. set_solver. }
  assert (σ5 = relocate l Held σ) as Eσ.
  { apply map_eq. intros e. rewrite lookup_relocate. case_decide as Hin; [|by apply U].
    destruct (Hl e Hin) as (Hr & Hn & _).
    transitivity (σ4 !! e); [unfold σ5; destruct g2, nxt; try done; apply lookup_insert_ne; congruence|].
    transitivity (σ3 !! e); [unfold σ4; destruct g1, run; try done; apply lookup_insert_ne; congruence|].
    unfold σ3. by rewrite lookup_relocate, decide_True. }
  rewrite Eσ in *. exists s5. split; [|split; [done|split; [done|]]].
  - unfold steal_tail. erewrite bind_ret by exact E1. cbn [fst snd]. erewrite bind_ret by exact E2. cbn [fst snd].
    erewrite bind_ret by exact E3. cbv beta. erewrite bind_ret by exact E4. cbv beta. by erewrite bind_ret by exact E5.
  - rewrite P5, P4. simpl. by rewrite P2, P1, S5, S4; simpl; rewrite S2, S1.
Qed.

(** What [Steal] takes: the last [n] tasks, new ones first, all of them for [n = 0]. *)
Definition taken (n : Z) (len : nat) (q : list nat) : list nat :=
  if 0 <? n then drop (length q - Nat.max 1 (Z.to_nat (u32 (n - Z.of_nat len)))) q else q.
Definition stolen i (n : Z) s (p : Proc Q) : list nat :=
  let new := if 0 <? n then back (i, New) (u32 n) s else queue (i, New) s in
  if ((0 <? n) && (n <=? Z.of_nat (length new)))%bool then new
  else taken n (length new) (spare i (runningTask_ p) (nextTask_ p) s) ++ new.

Lemma taken_subset n m q : taken n m q ⊆ q.
Proof. unfold taken. case_if; [apply subseteq_drop|done]. Qed.

Definition pop_for i (n : Z) (m : Z) : st (System Q) (list nat) :=
  if 0 <? n then pop_back (i, Runnable) (u32 (n - m)) else pop_all (i, Runnable).

Lemma pop_for_takes i n (m : nat) : takes i (pop_for i n (Z.of_nat m)) (taken n m).
Proof.
  intros σ s C l. unfold pop_for. subst l. unfold taken. destruct (0 <? n).
  - destruct (pop_back_spec σ s (i, Runnable) (u32 (n - Z.of_nat m)) C ltac:(done)) as (lnk & E & _ & C'). eauto.
  - destruct (pop_all_spec σ s (i, Runnable) C ltac:(done)) as [E C']. eauto.
Qed.

Lemma ok_held σ s i (p : Proc Q) : ProcOk σ s i p -> Held_by i σ s (runningTask_ p) /\ Held_by i σ s (nextTask_ p).
Proof.
  intros P. split; intros e He.
  - destruct (p_run _ _ _ _ P _ He) as (x & q & ? & ? & ? & _ & Hq). exists x, q. split_and!; [done..|]. tauto.
  - destruct (p_claimed _ _ _ _ P _ He) as (x & ? & ? & ?). exists x, Runnable. auto.
Qed.

(** The new tasks that are popped first. *)
Lemma pop_new_spec σ s i n :
  Core None σ s ->
  let new := if 0 <? n then back (i, New) (u32 n) s else queue (i, New) s in
  exists lnk, (if 0 <? n then pop_back (i, New) (u32 n) else pop_all (i, New)) s = Ret (set_links lnk s, new) /\
    Core None (relocate new Held σ) (set_links lnk s) /\
    queue (i, Runnable) (set_links lnk s) = queue (i, Runnable) s /\ (forall e, e ∈ new -> σ !! e = Some (At (i, New))).
Proof.
  intros C new. subst new. destruct (0 <? n).
  - destruct (pop_back_spec σ s (i, New) (u32 n) C ltac:(done)) as (lnk & E & El & C').
    assert (forall e, e ∈ back (i, New) (u32 n) s -> σ !! e = Some (At (i, New))) as Hb.
    { intros e He%back_elem. by apply (core_queue _ _ _ _ _ C). }
    exists lnk. split; [done|split; [done|split; [|done]]]. unfold queue. simpl. rewrite El.
    apply members_filter. intros [e q] Hx Hq Hin. simpl in *. subst q. apply (c_links _ _ _ C) in Hx. rewrite (Hb _ Hin) in Hx. done.
  - destruct (pop_all_spec σ s (i, New) C ltac:(done)) as [E C']. eexists. split; [exact E|split; [done|split]].
    + unfold queue. simpl. by apply members_without_other.
    + intros e. apply (core_queue _ _ _ _ _ C).
Qed.

Lemma Steal_spec σ s i n p :
  Core None σ s -> procs s !! i = Some p -> ProcOk σ s i p ->
  let l := stolen i n s p in
  exists s', Steal i n s = Ret (s', l) /\ Core None (relocate l Held σ) s' /\ Frame l σ s (relocate l Held σ) s' /\
    procs s' = procs s /\ stop_ s' = stop_ s /\
    (forall e, e ∈ l -> runningTask_ p <> Some e /\ nextTask_ p <> Some e /\
       (σ !! e = Some (At (i, New)) \/ σ !! e = Some (At (i, Runnable)))).
Proof.
  intros C Hi P l. destruct (pop_new_spec σ s i n C) as (lnk & E1 & C1 & Hq & Hnew).
  set (new := if 0 <? n then back (i, New) (u32 n) s else queue (i, New) s) in *.
  set (s1 := set_links lnk s) in *.
  assert (forall e, e ∈ new -> runningTask_ p <> Some e /\ nextTask_ p <> Some e) as Hno.
  { intros e He%Hnew. destruct (ok_held _ _ _ _ P) as [Kr Kn]. split; intros Ho.
    - destruct (Kr e Ho) as (x & q & _ & Hs & _ & [->| ->]); congruence.
    - destruct (Kn e Ho) as (x & q & _ & Hs & _ & [->| ->]); congruence. }
  assert (Frame new σ s (relocate new Held σ) s1) as F1.
  { intros e He. split; [by rewrite lookup_relocate, decide_False|by left]. }
  unfold Steal. erewrite bind_ret by exact E1. cbv beta. subst l. unfold stolen. fold new.
  destruct ((0 <? n) && (n <=? Z.of_nat (length new)))%bool.
  { exists s1. split_and!; try done. intros e He. destruct (Hno e He). auto. }
  destruct (ok_held _ _ _ _ P) as [Kr Kn].
  destruct (steal_tail_spec i (pop_for i n) (taken n (length new)) _ s1 (runningTask_ p) (nextTask_ p) new C1)
    as (s2 & E2 & C2 & F2 & P2 & S2).
  { eapply Held_by_unmoved; [exact Kr|]. intros e He. apply F1. intros Hin%Hno. tauto. }
  { eapply Held_by_unmoved; [exact Kn|]. intros e He. apply F1. intros Hin%Hno. tauto. }
  { intros e He Hn. destruct (p_next _ _ _ _ P _ Hn) as (_ & e1 & x & He1 & Hne & _). congruence. }
  { apply pop_for_takes. }
  { intros. apply taken_subset. }
  assert (spare i (runningTask_ p) (nextTask_ p) s1 = spare i (runningTask_ p) (nextTask_ p) s) as Es by (unfold spare; by rewrite Hq).
  rewrite Es in *. set (l1 := taken n (length new) (spare i (runningTask_ p) (nextTask_ p) s)) in *.
  assert (relocate l1 Held (relocate new Held σ) = relocate (l1 ++ new) Held σ) as Eσ.
  { apply map_eq. intros e. rewrite !lookup_relocate. repeat case_decide; set_solver. }
  rewrite Eσ in *. exists s2. split; [|split; [done|split; [|split; [done|split; [done|]]]]].
  - erewrite bind_ret by (apply (get_proc_spec s1); exact Hi). exact E2.
  - eapply Frame_trans; eapply Frame_weaken; [|exact F1| |exact F2]; set_solver.
  - intros e [He|He]%elem_of_app; [|destruct (Hno e He); auto].
    apply taken_subset in He. unfold spare in He. rewrite !list_elem_of_filter, (core_queue _ _ _ _ _ C) in He. tauto.
Qed.

(** *** The steps of a world *)

Inductive label :=
| LCreate (i tk : nat) | LOuter (i : nat) | LWake (i : nat) | LInner (i : nat) | LYield (i : nat)
| LEnd (i : nat) (thrown immedaitely_throw : bool) | LSuspend (i : nat) | LWakeup (self : option nat) (en : SuspendEntry)
| LSteal (i : nat) (n : Z) | LAdd (i k : nat) | LNotify (i : nat) | LMark (i : nat) (now : Z)
| LActive (i : nat) (b : bool) | LStop | LNewProc (q : Q).

Definition at_pc (c : pc) i s : Prop := exists p, procs s !! i = Some p /\ pc_ p = c.

(** When a call is made.  A task's code suspends or ends only while its state is runnable (it
    switches after a suspension); [LCreate] uses an object that is not in use, and whose
    predecessors at the address no entry can name. *)
Definition enabled (l : label) (w : World) : Prop :=
  match l with
  | LCreate i tk => tasks (sys w) !! tk = None /\ (forall en, en ∈ entries w -> tk_ en <> tk) /\
      exists p q, procs (sys w) !! i = Some p /\ uq_put tk (up_queue_ p) = Ret (q, tt)
  | LOuter i => at_pc Outer i (sys w)
  | LWake i => at_pc Waiting i (sys w)
  | LInner i => at_pc Inner i (sys w)
  | LYield i => at_pc InTask i (sys w)
  | LEnd i thrown imm => at_pc InTask i (sys w) /\ running_state i (sys w) = Some runnable /\ (thrown && imm)%bool = false
  | LSuspend i => at_pc InTask i (sys w) /\ running_state i (sys w) = Some runnable
  | LWakeup _ en => en ∈ entries w
  | LSteal i _ | LAdd i _ | LNotify i | LMark i _ | LActive i _ => is_Some (procs (sys w) !! i)
  | LStop => True
  | LNewProc q => uq_abs q = []
  end.

(** The call, and what becomes of its result. *)
Definition exec (l : label) (w : World) : res World :=
  let run (m : st (System Q) unit) := '(s, _) ← m (sys w); Ret (mkWorld s (loot w) (entries w)) in
  match l with
  | LCreate i tk => run (CreateTask i tk)
  | LOuter i => run (Process_outer i)
  | LWake i => run (Process_wake i)
  | LInner i => run (Process_inner i)
  | LYield i => run (CoYield i)
  | LEnd i thrown imm => run (Run_end i thrown imm)
  | LSuspend i => '(s, en) ← Suspend i (sys w); Ret (mkWorld s (loot w) (en :: entries w))
  | LWakeup self en => run (let* _b := Wakeup self en in ret tt)
  | LSteal i n => '(s, l) ← Steal i n (sys w); Ret (mkWorld s (loot w ++ l) (entries w))
  | LAdd i k => '(s, _) ← AddTask_list i (take k (loot w)) (sys w); Ret (mkWorld s (drop k (loot w)) (entries w))
  | LNotify i => run (NotifyCondition i)
  | LMark i now => run (upd_proc i (Mark now))
  | LActive i b => run (upd_proc i (set_active b))
  | LStop => run (modify (fun s => mkSystem (tasks s) (links s) (procs s) true (taskCount_ s)))
  | LNewProc q => run (modify (fun s => set_procs (procs s ++ [Processor_new q]) s))
  end.

Definition wstep (w w' : World) : Prop := exists l, enabled l w /\ exec l w = Ret w'.
Definition winit (w : World) : Prop :=
  tasks (sys w) = ∅ /\ links (sys w) = [] /\ taskCount_ (sys w) = 0 /\ stop_ (sys w) = false /\
  loot w = [] /\ entries w = [] /\
  Forall (fun p => exists q, p = Processor_new q /\ uq_abs q = []) (procs (sys w)).
Definition wreachable : World -> Prop := reachable wstep winit.

Lemma inv_init w : winit w -> Inv ∅ w.
Proof.
  intros (Ht & Hl & Hc & _ & Hloot & He & Hp). rewrite Forall_forall in Hp.
  assert (ups (procs (sys w)) = []) as Hu.
  { unfold ups. induction (procs (sys w)) as [|p ps IH]; [done|]. simpl.
    destruct (Hp p ltac:(by left)) as (q & -> & Hq). simpl. rewrite Hq. apply IH. intros. apply Hp. by right. }
  split.
  - split; rewrite ?Ht, ?Hl, ?Hu, ?Hc; try done; try apply NoDup_nil_2.
    all: intros e; rewrite ?lookup_empty; split; intros H'; try done; try (by apply elem_of_nil in H').
  - intros i p Hi. destruct (Hp p ltac:(by eapply list_elem_of_lookup_2)) as (q & -> & _). by apply ok_idle.
  - done.
  - done.
  - rewrite Hloot. apply NoDup_nil_2.
  - intros e. rewrite Hloot, lookup_empty. split; [by intros ?%elem_of_nil|done].
  - intros en. rewrite He. by intros ?%elem_of_nil.
Qed.

(** A step of a processor's thread, and any change of its other fields. *)
Lemma works_inv {A} σ w i p (m : st (System Q) A) a en :
  Inv σ w -> procs (sys w) !! i = Some p -> works σ w i m a -> (forall x, x ∈ en -> Z.odd (id_ x) = true) ->
  exists σ' s', m (sys w) = Ret (s', a) /\ Inv σ' (mkWorld s' (loot w) en) /\ keeps_parked σ σ'.
Proof.
  intros I Hi (σ' & s' & p' & E & L & P) He. exists σ', s'. split; [done|].
  split; [by eapply inv_local|intros ?; eapply loc_parked, L].
Qed.

Lemma upd_inv σ w i p f :
  Inv σ w -> procs (sys w) !! i = Some p -> up_queue_ (f p) = up_queue_ p -> (forall s, ProcOk σ s i p -> ProcOk σ s i (f p)) ->
  exists s', upd_proc i f (sys w) = Ret (s', tt) /\ Inv σ (mkWorld s' (loot w) (entries w)).
Proof.
  intros I Hi Hu Hf. destruct (loc_upd _ _ _ _ _ _ _ _ f (loc_init σ _ _ _ (i_core _ _ I) Hi) Hu) as (s' & E & Es & L).
  exists s'. split; [done|]. eapply inv_local; [done|done|exact L| |apply I]. apply Hf.
  eapply ProcOk_unmoved; [by apply (i_procs _ _ I)|]. rewrite Es. intros e _. split; auto.
Qed.

Lemma notify_inv σ w i p :
  Inv σ w -> procs (sys w) !! i = Some p ->
  exists s', NotifyCondition i (sys w) = Ret (s', tt) /\ Inv σ (mkWorld s' (loot w) (entries w)).
Proof.
  intros I Hi. unfold NotifyCondition. erewrite bind_ret by (by apply get_proc_spec). cbv beta. destruct (waiting_ p).
  - exists (sys w). split; [done|]. by destruct w.
  - apply (upd_inv _ _ _ _ _ I Hi); [done|]. intros s P. eapply ok_notified; [done|auto].
Qed.

Lemma create_inv σ w i tk :
  Inv σ w -> enabled (LCreate i tk) w -> exists w', exec (LCreate i tk) w = Ret w' /\ exists σ', Inv σ' w' /\ keeps_parked σ σ'.
Proof.
  intros I (Ht & He & p & q & Hi & Hq). pose proof (i_core _ _ I) as C. simpl.
  assert (σ !! tk = None) as Hs by (apply eq_None_not_Some; rewrite <- (c_dom _ _ _ C), Ht; by intros [? ?]).
  set (s1 := mkSystem (<[tk := Task_new]> (tasks (sys w))) (links (sys w)) (<[i := set_up q p]> (procs (sys w))) (stop_ (sys w)) (taskCount_ (sys w) + 1)).
  assert (Inv (<[tk := InUp]> σ) (mkWorld s1 (loot w) (entries w))) as I1.
  { assert (forall e, e <> tk -> <[tk := InUp]> σ !! e = σ !! e) as Hne by (intros; by apply lookup_insert_ne).
    assert (forall e k, k <> InUp -> <[tk := InUp]> σ !! e = Some k <-> σ !! e = Some k) as Hk.
    { intros e k Hk. destruct (decide (e = tk)) as [->|Hn]; [rewrite lookup_insert_eq, Hs; split; congruence|by rewrite Hne]. }
    destruct (ups_split _ _ _ Hi) as (rest & U1 & U2). specialize (U2 (set_up q p)). simpl in U2.
    rewrite (uq_put_law _ _ _ Hq) in U2.
    assert (ups (procs s1) ≡ₚ tk :: ups (procs (sys w))) as U.
    { simpl. rewrite U2, U1. rewrite <- app_assoc. simpl. by rewrite <- Permutation_middle. }
    split; simpl; [split; simpl| | | | | |].
    - intros e. destruct (decide (e = tk)) as [->|Hn]; [rewrite !lookup_insert_eq; split; eauto|].
      rewrite !lookup_insert_ne by done. apply (c_dom _ _ _ C).
    - intros e k x. destruct (decide (e = tk)) as [->|Hn]; [rewrite !lookup_insert_eq; by intros [= <-] [= <-]|].
      rewrite !lookup_insert_ne by done. apply (c_task _ _ _ C).
    - intros e k x. destruct (decide (e = tk)) as [->|Hn]; [rewrite !lookup_insert_eq; by intros [= <-] [= <-]|].
      rewrite !lookup_insert_ne by done. apply (c_susp _ _ _ C).
    - apply (c_nodup _ _ _ C).
    - intros e r. rewrite Hk by done. apply (c_links _ _ _ C).
    - change (NoDup (ups (procs s1))). rewrite U. apply NoDup_cons. split; [|apply (c_ups_nodup _ _ _ C)].
      rewrite (c_ups _ _ _ C). congruence.
    - intros e. change (e ∈ ups (procs s1) <-> <[tk := InUp]> σ !! e = Some InUp). rewrite U, elem_of_cons, (c_ups _ _ _ C).
      destruct (decide (e = tk)) as [->|Hn]; [rewrite lookup_insert_eq; tauto|rewrite Hne by done; tauto].
    - rewrite (c_count _ _ _ C), map_size_insert_None by done. lia.
    - intros j p' Hj.
      assert (exists p0, procs (sys w) !! j = Some p0 /\ (forall s, ProcOk σ s j p0 -> ProcOk σ s j p')) as (p0 & Hj0 & Hp0).
      { apply list_lookup_insert_Some in Hj as [(<- & <- & _)|[Hn Hj]]; [|eauto]. exists p. split; [done|]. intros s []. by split. }
      pose proof (Hp0 _ (i_procs _ _ I _ _ Hj0)) as P. eapply ProcOk_unmoved; [exact P|].
      intros e He'. assert (e <> tk) as Hn.
      { intros ->. destruct (ok_held _ _ _ _ P) as [K1 K2]. destruct He' as [E|E]; [destruct (K1 _ E) as (x & ? & ? & ? & _)|destruct (K2 _ E) as (x & ? & ? & ? & _)]; congruence. }
      split; [by apply Hne|left]. simpl. by rewrite lookup_insert_ne.
    - intros e j r. rewrite Hk, length_insert by done. apply (i_bounds _ _ I).
    - intros e. rewrite Hk by done. apply (i_bare _ _ I).
    - apply (i_loot_nodup _ _ I).
    - intros e. rewrite Hk by done. apply (i_loot _ _ I).
    - apply (i_entries _ _ I). }
  destruct (notify_inv _ _ i (set_up q p) I1) as (s2 & E2 & I2).
  { apply list_lookup_insert_eq. by eapply lookup_lt_Some. }
  exists (mkWorld s2 (loot w) (entries w)). split; [|exists (<[tk := InUp]> σ); split; [done|]]; cycle 1.
  { intros e He'. rewrite lookup_insert_ne; [done|]. intros <-. by rewrite Hs in He'. }
  cbn [sys] in E2.
  unfold CreateTask. erewrite bind_ret by reflexivity. unfold AddTask. erewrite bind_ret by (apply get_proc_spec; exact Hi). cbv beta.
  erewrite bind_ret by (rewrite Hq; reflexivity). cbv beta. erewrite bind_ret by (apply upd_proc_spec; exact Hi).
  unfold set_procs. cbn [tasks links procs stop_ taskCount_]. fold s1. rewrite E2. done.
Qed.

Lemma stolen_nodup σ s i n p : Core None σ s -> NoDup (stolen i n s p).
Proof.
  intros C. unfold stolen. assert (forall q, NoDup (queue (i, q) s)) as Hq by (intros; apply members_nodup, (c_nodup _ _ _ C)).
  assert (forall (m : nat) (q : list nat), NoDup q -> NoDup (drop m q)) as Hd by (intros m q Hq'; eapply sublist_NoDup; [exact Hq'|apply sublist_drop]).
  set (new := if 0 <? n then _ else _). assert (NoDup new) as Hnew by (unfold new; case_if; [apply Hd|]; apply Hq).
  case_if; [done|]. apply NoDup_app. split; [|split; [|done]].
  - unfold taken. assert (NoDup (spare i (runningTask_ p) (nextTask_ p) s)) by (apply NoDup_filter, NoDup_filter, Hq). case_if; [by apply Hd|done].
  - intros e He%taken_subset Hin. unfold spare in He. rewrite !list_elem_of_filter, (core_queue _ _ _ _ _ C) in He.
    assert (e ∈ queue (i, New) s) as Hin' by (unfold new in Hin; case_if; [by apply back_elem in Hin|done]).
    apply (core_queue _ _ _ _ _ C) in Hin'. naive_solver.
Qed.

Lemma steal_inv σ w i n :
  Inv σ w -> is_Some (procs (sys w) !! i) -> exists w', exec (LSteal i n) w = Ret w' /\ exists σ', Inv σ' w' /\ keeps_parked σ σ'.
Proof.
  intros I [p Hi]. pose proof (i_core _ _ I) as C.
  destruct (Steal_spec σ (sys w) i n p C Hi (i_procs _ _ I _ _ Hi)) as (s' & E & C' & F & P & S & Hl).
  set (l := stolen i n (sys w) p) in *. simpl. rewrite E. eexists. split; [reflexivity|]. exists (relocate l Held σ).
  split; [|intros e He; rewrite lookup_relocate; by case_decide].
  assert (forall e, e ∈ l -> exists k, σ !! e = Some (At (i, k))) as Hat by (intros e He; destruct (Hl e He) as (_ & _ & [?|?]); eauto).
  assert (NoDup l) as Hn by (by eapply stolen_nodup).
  split; simpl; [done| | | | | |apply (i_entries _ _ I)].
  - intros j p'. rewrite P. intros Hj. pose proof (i_procs _ _ I _ _ Hj) as K. eapply ProcOk_unmoved; [exact K|].
    intros e He. apply F. intros Hin. destruct (Hl e Hin) as (H1 & H2 & _). destruct (Hat e Hin) as [k Hk].
    assert (j = i) as ->.
    { destruct (ok_held _ _ _ _ K) as [K1 K2]. destruct He as [E'|E']; [destruct (K1 _ E') as (x & ? & ? & ? & _)|destruct (K2 _ E') as (x & ? & ? & ? & _)]; congruence. }
    assert (p' = p) as -> by congruence. tauto.
  - intros e j q. rewrite P, lookup_relocate. case_decide; [done|]. apply (i_bounds _ _ I).
  - intros e. rewrite lookup_relocate. case_decide; [done|]. apply (i_bare _ _ I).
  - apply NoDup_app. split; [apply (i_loot_nodup _ _ I)|split; [|done]].
    intros e He%(i_loot _ _ I) Hin. destruct (Hat e Hin). congruence.
  - intros e. rewrite elem_of_app, (i_loot _ _ I), lookup_relocate. case_decide; [tauto|]. tauto.
Qed.

Lemma add_inv σ w i k :
  Inv σ w -> is_Some (procs (sys w) !! i) -> exists w', exec (LAdd i k) w = Ret w' /\ exists σ', Inv σ' w' /\ keeps_parked σ σ'.
Proof.
  intros I [p Hi]. pose proof (i_core _ _ I) as C. set (l := take k (loot w)).
  pose proof (i_loot_nodup _ _ I) as Hn. rewrite <- (take_drop k (loot w)) in Hn. apply NoDup_app in Hn as (Hn1 & Hn2 & Hn3). fold l in Hn1, Hn2.
  assert (forall e, e ∈ l -> σ !! e = Some Held) as Hl.
  { intros e He. apply (i_loot _ _ I). rewrite <- (take_drop k (loot w)). set_solver. }
  destruct (push_list_spec σ (sys w) (i, New) l C eq_refl Hn1 Hl) as (s1 & E1 & Es1 & C1).
  assert (Inv (relocate l (At (i, New)) σ) (mkWorld s1 (drop k (loot w)) (entries w))) as I1.
  { split; simpl; [done| | | |done| |apply (i_entries _ _ I)].
    - rewrite Es1. simpl. intros j p' Hj. pose proof (i_procs _ _ I _ _ Hj) as K. eapply ProcOk_unmoved; [exact K|].
      intros e He. split; [|by left]. rewrite lookup_relocate, decide_False; [done|]. intros Hin%Hl.
      destruct (ok_held _ _ _ _ K) as [K1 K2]. destruct He as [E'|E']; [destruct (K1 _ E') as (x & ? & ? & ? & _)|destruct (K2 _ E') as (x & ? & ? & ? & _)]; congruence.
    - rewrite Es1. simpl. intros e j q. rewrite lookup_relocate. case_decide; [intros [= <- <-]; by eapply lookup_lt_Some|apply (i_bounds _ _ I)].
    - intros e. rewrite lookup_relocate. case_decide; [done|]. apply (i_bare _ _ I).
    - intros e. rewrite lookup_relocate. case_decide as Hd; [split; [intros He; by destruct (Hn2 e)|done]|].
      rewrite <- (i_loot _ _ I). rewrite <- (take_drop k (loot w)) at 2. rewrite elem_of_app. fold l. tauto. }
  destruct (notify_inv _ _ i p I1) as (s2 & E2 & I2); [by rewrite Es1|]. cbn [sys] in E2.
  simpl. eexists. split; [|exists (relocate l (At (i, New)) σ); split; [exact I2|intros e He; rewrite lookup_relocate; by case_decide]].
  unfold AddTask_list. fold l. erewrite bind_ret by exact E1. rewrite E2. reflexivity.
Qed.

Lemma exec_inv σ w l :
  Inv σ w -> enabled l w -> exists w', exec l w = Ret w' /\ exists σ', Inv σ' w' /\ keeps_parked σ σ'.
Proof.
  intros I He.
  assert (forall i p (m : st (System Q) unit), procs (sys w) !! i = Some p -> works σ w i m tt ->
    exists w', ('(s, _) ← m (sys w); Ret (mkWorld s (loot w) (entries w))) = Ret w' /\ exists σ', Inv σ' w' /\ keeps_parked σ σ') as Hw.
  { intros i p m Hi Hm. destruct (works_inv _ _ _ _ _ _ (entries w) I Hi Hm (i_entries _ _ I)) as (σ' & s' & E & I' & K).
    rewrite E. simpl. eauto 6. }
  assert (forall i p f, procs (sys w) !! i = Some p -> up_queue_ (f p) = up_queue_ p -> (forall s, ProcOk σ s i p -> ProcOk σ s i (f p)) ->
    exists w', ('(s, _) ← upd_proc i f (sys w); Ret (mkWorld s (loot w) (entries w))) = Ret w' /\ exists σ', Inv σ' w' /\ keeps_parked σ σ') as Hu.
  { intros i p f Hi Hq Hf. destruct (upd_inv _ _ _ _ _ I Hi Hq Hf) as (s' & E & I').
    rewrite E. simpl. eexists. split; [done|]. exists σ. split; [done|by intros ?]. }
  destruct l as [i tk|i|i|i|i|i thrown imm|i|self en|i n|i k|i|i now|i b| |q]; simpl in He |- *.
  - by apply create_inv.
  - destruct He as (p & Hi & Hp). eapply Hw, outer_works; eauto.
  - destruct He as (p & Hi & Hp). eapply Hw, wake_works; eauto.
  - destruct He as (p & Hi & Hp). eapply Hw, inner_works; eauto.
  - destruct He as (p & Hi & Hp). eapply Hw, yield_works; eauto.
  - destruct He as ((p & Hi & Hp) & Hr & Ht). eapply Hw, end_works; eauto.
  - destruct He as ((p & Hi & Hp) & Hr). destruct (suspend_works _ _ _ _ I Hi Hp Hr) as (e & x & _ & _ & Ho & Hm).
    destruct (works_inv _ _ _ _ _ _ (mkEntry e (u64 (suspendId_ x + 1)) :: entries w) I Hi Hm) as (σ' & s' & E & I' & K).
    { intros en [->|Hen]%elem_of_cons; [|by apply (i_entries _ _ I)]. cbn [id_]. by rewrite odd_u64_succ, Ho. }
    rewrite E. simpl. eauto 6.
  - destruct (wakeup_inv σ w self en I He) as (σ' & s' & b & E & I' & K).
    erewrite bind_ret by exact E. cbn. eauto 6.
  - by apply steal_inv.
  - by apply add_inv.
  - destruct He as [p Hi]. destruct (notify_inv _ _ _ _ I Hi) as (s' & E & I'). rewrite E. simpl.
    eexists. split; [done|]. exists σ. split; [done|by intros ?].
  - destruct He as [p Hi]. eapply Hu; [done|..].
    + unfold Mark. by repeat case_match.
    + intros s P. unfold Mark. repeat case_match; try done. by destruct P; split.
  - destruct He as [p Hi]. eapply Hu; [done|done|]. intros s []. by split.
  - eexists. split; [done|]. exists σ. split; [|by intros ?]. destruct I as [C P ? ? ? ? ?]. split; try done.
    + by destruct C; split.
    + intros i p Hi. eapply ProcOk_unmoved; [by apply P|]. intros e _. split; auto.
  - eexists. split; [done|]. exists σ. split; [|by intros ?]. destruct I as [C P B ? ? ? ?]. split; try done; simpl.
    + apply core_procs; [done|]. unfold ups. rewrite map_app, concat_app. simpl. by rewrite He, !app_nil_r.
    + intros i p Hi. assert (ProcOk σ (sys w) i p) as K.
      { apply lookup_app_Some in Hi as [Hi|[_ Hi]]; [by apply P|]. apply list_lookup_singleton_Some in Hi as [_ <-].
        by apply ok_idle. }
      eapply ProcOk_unmoved; [exact K|]. intros e _. split; auto.
    + intros e i k Hk. rewrite length_app. specialize (B _ _ _ Hk). simpl. lia.
Qed.

Lemma world_inv w : wreachable w -> exists σ, Inv σ w.
Proof.
  apply (reachable_inv wstep winit (fun w => exists σ, Inv σ w)); [intros v Hv; exists ∅; by apply inv_init|].
  intros v v' [σ I] (l & He & E). destruct (exec_inv _ _ _ I He) as (w' & E' & σ' & I' & _). rewrite E in E'. injection E' as <-. eauto.
Qed.
End inv.

Arguments label Q : clear implicits.
Arguments World Q : clear implicits.
