(* ===== verification/ProcSpec.v ===== *)
(** The properties of the processors: what holds of every world that the steps of
    [ProcInv.v] reach, and where the code departs from what it means to do. *)
From S2P Require Import Prelude Links TaskRing Processor ProcInv.
Local Open Scope Z_scope.

Section spec.
Context {Q : Type} `{HQ : UpQueueLaws Q}.
Implicit Types (s : System Q) (w : World Q) (σ : gmap nat site) (e i j : nat).

(** Everything that holds a task: the queues, the dispatcher, the packet queues. *)
Definition holders w : list nat := (links (sys w)).*1 ++ loot w ++ ups (procs (sys w)).

Lemma holders_site σ w e : Inv σ w -> e ∈ holders w <-> is_Some (σ !! e).
Proof.
  intros I. pose proof (i_core _ _ I) as C. unfold holders. rewrite !elem_of_app, fst_elem, (i_loot _ _ I), (c_ups _ _ _ C).
  setoid_rewrite (c_links _ _ _ C). split.
  - intros [[p ->]|[->| ->]]; eauto.
  - intros [k Hk]. destruct k; eauto. by destruct (i_bare _ _ I e).
Qed.

Lemma holders_nodup σ w : Inv σ w -> NoDup (holders w).
Proof.
  intros I. pose proof (i_core _ _ I) as C. unfold holders. rewrite !NoDup_app.
  split; [apply (c_nodup _ _ _ C)|split; [|split; [apply (i_loot_nodup _ _ I)|split; [|apply (c_ups_nodup _ _ _ C)]]]].
  - intros e [p Hp]%fst_elem. apply (c_links _ _ _ C) in Hp. rewrite elem_of_app, (i_loot _ _ I), (c_ups _ _ _ C). naive_solver.
  - intros e. rewrite (i_loot _ _ I), (c_ups _ _ _ C). naive_solver.
Qed.



(** C18: a running task is alive and in its processor's runnable queue, or suspended and not
    yet switched away; no task runs on two processors; the tasks of a wait queue are exactly
    those that a processor has suspended and nobody has woken. *)
Theorem proc_runs_alone w i p e :
  wreachable w -> procs (sys w) !! i = Some p ->
  (runningTask_ p = Some e ->
     is_Some (tasks (sys w) !! e) /\
     (e ∈ queue (i, Runnable) (sys w) \/ (e ∈ queue (i, Wait) (sys w) /\ pc_ p = InTask)) /\
     forall j q, procs (sys w) !! j = Some q -> runningTask_ q = Some e -> j = i) /\
  (e ∈ queue (i, Wait) (sys w) <->
     exists x, tasks (sys w) !! e = Some x /\ proc_ x = Some i /\ Z.odd (suspendId_ x) = true).
Proof.
  intros [σ I]%world_inv Hi. pose proof (i_core _ _ I) as C. split.
  - intros Hr. destruct (p_run _ _ _ _ (i_procs _ _ I _ _ Hi) _ Hr) as (x & q & Hx & Hs & _ & _ & Hq).
    split; [eauto|split].
    + rewrite !(core_queue _ _ _ _ _ C). naive_solver.
    + intros j p' Hj Hr'. destruct (p_run _ _ _ _ (i_procs _ _ I _ _ Hj) _ Hr') as (x' & q' & _ & Hs' & _). congruence.
  - rewrite (core_queue _ _ _ _ _ C). split.
    + intros Hs. destruct (core_lookup _ _ _ _ _ C Hs) as [x Hx]. destruct (c_susp _ _ _ C _ _ _ Hs Hx ltac:(done)) as [Ho Hp].
      exists x. split; [done|]. destruct (Hp i eq_refl). done.
    + intros (x & Hx & Hp & Ho). destruct (proj1 (c_dom _ _ _ C e)) as [k Hk]; [eauto|].
      destruct (c_susp _ _ _ C _ _ _ Hk Hx ltac:(done)) as [Ho' Hp']. rewrite Ho in Ho'.
      destruct k as [[j []]| | |]; try done. destruct (Hp' j eq_refl). congruence.
Qed.

(** C13: [Wakeup] of an entry answers whether the suspension it names is still on: if not, it
    changes nothing; if so, the task moves from the wait queue to the end of the runnable
    queue of its processor, and the entry is expired from then on. *)
Theorem wakeup_once w self en :
  wreachable w -> en ∈ entries w ->
  exists s', Wakeup self en (sys w) = Ret (s', negb (IsExpire en (sys w))) /\
    (if IsExpire en (sys w) then s' = sys w
     else exists j, tk_ en ∈ queue (j, Wait) (sys w) /\ tk_ en ∉ queue (j, Wait) s' /\
            queue (j, Runnable) s' = queue (j, Runnable) (sys w) ++ [tk_ en] /\
            IsExpire en s' = true).
Proof.
  intros [σ I]%world_inv Hen. pose proof (i_core _ _ I) as C.
  destruct (IsExpire en (sys w)) eqn:He.
  { exists (sys w). split; [|done]. apply Wakeup_expired; [|done]. intros x Hx.
    destruct (proj1 (c_dom _ _ _ C (tk_ en))) as [k Hk]; [eauto|].
    destruct (c_task _ _ _ C _ _ _ Hk Hx) as (_ & -> & _). destruct k; simpl; lia. }
  unfold IsExpire in He. destruct (tasks (sys w) !! tk_ en) as [x|] eqn:Hx; [|done].
  apply negb_false_iff, Z.eqb_eq in He as Hid. destruct (entry_site _ _ _ _ I Hen Hx Hid) as (j & p & Hs & Hpr & Hj & Hr2).
  destruct (Wakeup_live _ self en j x p Hx Hid Hpr) as (p' & E & Hp'); [by apply (c_links _ _ _ C)|done|lia|].
  eexists. split; [exact E|]. exists j. unfold queue. cbn [links].
  split; [by apply elem_members, (c_links _ _ _ C)|split; [|split]].
  - rewrite elem_members, elem_of_app, elem_unlink, list_elem_of_singleton. naive_solver.
  - rewrite members_snoc_same, members_unlink. f_equal. apply (filter_keeps (fun y => y <> tk_ en)).
    intros y Hy%elem_members%(c_links _ _ _ C) ->. congruence.
  - unfold IsExpire. cbn [tasks]. rewrite lookup_insert_eq. cbn [suspendId_ with_check with_suspendId].
    apply negb_true_iff, Z.eqb_neq. rewrite Hid. intros Ho%(f_equal Z.odd). rewrite odd_u64_succ in Ho. by destruct (Z.odd _).
Qed.

Lemma drop_length_min (q : list nat) k : length (drop (length q - k) q) = Nat.min k (length q).
Proof. rewrite length_drop. lia. Qed.

(** C14: [Steal] splits the processor's new and runnable tasks into those it takes and those
    it leaves, never takes the running or the next task, takes all others for [n = 0], and as
    many as there are up to [n] otherwise. *)
Theorem steal_splits w i n p :
  wreachable w -> procs (sys w) !! i = Some p -> 0 <= n < 2 ^ 32 ->
  let s := sys w in
  let others := filter (fun e => nextTask_ p <> Some e) (filter (fun e => runningTask_ p <> Some e) (queue (i, Runnable) s)) in
  exists s' l, Steal i n s = Ret (s', l) /\
    l ++ queue (i, Runnable) s' ++ queue (i, New) s' ≡ₚ queue (i, Runnable) s ++ queue (i, New) s /\
    (forall e, runningTask_ p = Some e \/ nextTask_ p = Some e -> e ∉ l) /\
    (if n =? 0 then l = others ++ queue (i, New) s
     else length l = Nat.min (Z.to_nat n) (length others + length (queue (i, New) s))).
Proof.
  intros [σ I]%world_inv Hi Hn s others. subst s. pose proof (i_core _ _ I) as C.
  destruct (Steal_spec σ (sys w) i n p C Hi (i_procs _ _ I _ _ Hi)) as (s' & E & C' & F & P & S & Hl).
  exists s', (stolen i n (sys w) p). split; [exact E|split; [|split]].
  - assert (forall (σ : gmap nat site) s q, Core None σ s -> NoDup (queue (i, q) s)) as Hnd
      by (intros ? ? ? C1; apply members_nodup, (c_nodup _ _ _ C1)).
    assert (forall σ s, Core None σ s -> NoDup (queue (i, Runnable) s ++ queue (i, New) s)) as Hnd2.
    { intros σ1 s1 C1. apply NoDup_app. split; [by eapply Hnd|split; [|by eapply Hnd]].
      intros e. rewrite !(core_queue _ _ _ _ _ C1). congruence. }
    set (l := stolen i n (sys w) p) in *. apply NoDup_Permutation; [|by eapply Hnd2|].
    + apply NoDup_app. split; [by eapply stolen_nodup|split; [|by eapply Hnd2]].
      intros e He. rewrite elem_of_app, !(core_queue _ _ _ _ _ C'), !lookup_relocate, decide_True by done. naive_solver.
    + intros e. rewrite !elem_of_app, !(core_queue _ _ _ _ _ C'), !(core_queue _ _ _ _ _ C), !lookup_relocate.
      case_decide as Hin; [|tauto]. destruct (Hl e Hin). naive_solver.
  - intros e He Hin. destruct (Hl e Hin). naive_solver.
  - assert (u32 n = n) as Hu by (apply wrap_small; unfold fits; lia).
    unfold stolen. change (spare i (runningTask_ p) (nextTask_ p) (sys w)) with others.
    destruct (Z.eqb_spec n 0) as [->|Hn0]; [done|]. rewrite (proj2 (Z.ltb_lt 0 n)) by lia. rewrite Hu.
    unfold back. set (N := queue (i, New) (sys w)). rewrite drop_length_min. cbn [andb].
    destruct (Z.leb_spec n (Z.of_nat (Nat.min (Nat.max 1 (Z.to_nat n)) (length N)))).
    + rewrite drop_length_min. lia.
    + rewrite length_app, drop_length_min. unfold taken. rewrite (proj2 (Z.ltb_lt 0 n)) by lia.
      set (m := Z.of_nat (Nat.min (Nat.max 1 (Z.to_nat n)) (length N))) in *.
      replace (u32 (n - m)) with (n - m) by (symmetry; apply wrap_small; unfold fits; lia).
      rewrite drop_length_min. lia.
Qed.

(** A task that the dispatcher has stolen never runs again: [AddTask] puts it into the
    new queue, which no code moves to the runnable queue, so that in all that follows it
    stays with the dispatcher or in a new queue and is no processor's running task. *)
Theorem stolen_never_run w w' e :
  wreachable w -> rtc wstep w w' -> e ∈ loot w \/ (exists j, e ∈ queue (j, New) (sys w)) ->
  (e ∈ loot w' \/ exists j, e ∈ queue (j, New) (sys w')) /\
  forall i p, procs (sys w') !! i = Some p -> runningTask_ p <> Some e.
Proof.
  intros [σ I]%world_inv Hsteps He.
  assert (forall σ w, Inv σ w -> (e ∈ loot w \/ exists j, e ∈ queue (j, New) (sys w)) <-> parked (σ !! e) = true) as Hpark.
  { intros σ1 w1 I1. rewrite (i_loot _ _ I1). setoid_rewrite (core_queue _ _ _ _ _ (i_core _ _ I1)). split.
    - by intros [->|[j ->]].
    - destruct (σ1 !! e) as [[[j []]| | |]|]; try done; eauto. }
  apply (Hpark _ _ I) in He.
  assert (exists σ', Inv σ' w' /\ parked (σ' !! e) = true) as (σ' & I' & He').
  { clear Hpark. revert σ I He. induction Hsteps as [w|w w1 w' (l & Hl & E) _ IH]; intros σ I He; [eauto|].
    destruct (exec_inv _ _ _ I Hl) as (w2 & E2 & σ2 & I2 & K2). rewrite E in E2. injection E2 as <-.
    apply (IH σ2); [done|]. by apply K2. }
  split; [by apply (Hpark _ _ I')|]. intros i p Hi Hr.
  destruct (p_run _ _ _ _ (i_procs _ _ I' _ _ Hi) _ Hr) as (x & q & _ & Hs & _ & _ & [->|(-> & _)]); rewrite Hs in He'; done.
Qed.

(** *** A yielding task *)

(** Processor [i] runs [e], which is its only runnable task. *)
Definition alone i e s : Prop :=
  exists p x, procs s !! i = Some p /\ pc_ p = InTask /\ runningTask_ p = Some e /\ tasks s !! e = Some x /\ state_ x = runnable /\
    (e, (i, Runnable)) ∈ links s /\ queue (i, Runnable) s = [e] /\ queue (i, New) s = [] /\ NoDup (links s).*1 /\ stop_ s = false.

(** The task yields, and the processor goes on until it has switched to a task again. *)
Definition yield_round i : st (System Q) unit := CoYield i ;;; Process_inner i ;;; Process_outer i ;;; Process_inner i.
Fixpoint rounds (n : nat) i : st (System Q) unit := match n with O => ret tt | S n => yield_round i ;;; rounds n i end.

Definition packets i s : option Q := up_queue_ <$> procs s !! i.

Lemma upd_proc_set s i p f :
  procs s !! i = Some p ->
  exists s', upd_proc i f s = Ret (s', tt) /\ procs s' !! i = Some (f p) /\ tasks s' = tasks s /\ links s' = links s /\ stop_ s' = stop_ s.
Proof.
  intros Hi. eexists. split; [by apply upd_proc_spec|]. simpl. rewrite list_lookup_insert_eq by (by eapply lookup_lt_Some). done.
Qed.
Lemma upd_task_set s e x f :
  tasks s !! e = Some x ->
  exists s', upd_task e f s = Ret (s', tt) /\ tasks s' !! e = Some (f x) /\ procs s' = procs s /\ links s' = links s /\ stop_ s' = stop_ s.
Proof. intros He. eexists. split; [by apply upd_task_spec|]. simpl. by rewrite lookup_insert_eq. Qed.

Lemma yield_last i e s p x :
  procs s !! i = Some p -> runningTask_ p = Some e -> tasks s !! e = Some x -> state_ x = runnable ->
  next_of e s = None -> queue (i, New) s = [] ->
  exists s' x' p', CoYield i s = Ret (s', tt) /\ procs s' !! i = Some p' /\ runningTask_ p' = None /\ up_queue_ p' = up_queue_ p /\
    tasks s' !! e = Some x' /\ links s' = links s /\ stop_ s' = stop_ s.
Proof.
  intros Hi Hr Hx Hst Hn Hq.
  destruct (upd_task_set s e x (fun x => with_yieldCount x (u64 (yieldCount_ x + 1))) Hx) as (s1 & E1 & T1 & P1 & L1 & S1).
  assert (procs s1 !! i = Some p) as Hi1 by (by rewrite P1).
  destruct (upd_proc_set s1 i p (set_running None) Hi1) as (s2 & E2 & P2 & T2 & L2 & S2).
  destruct (upd_proc_set s2 i _ (set_pc Inner) P2) as (s3 & E3 & P3 & T3 & L3 & S3).
  exists s3, (with_yieldCount x (u64 (yieldCount_ x + 1))), (set_pc Inner (set_running None p)).
  split; [|rewrite P3, T3, T2, T1, L3, L2, L1, S3, S2, S1; done].
  unfold CoYield. erewrite bind_ret by (by apply get_proc_spec). cbv beta. rewrite Hr. erewrite bind_ret by reflexivity. cbv beta.
  erewrite bind_ret by exact E1. unfold Process_switch. erewrite bind_ret by (by apply get_proc_spec). cbv beta. rewrite Hr.
  erewrite bind_ret by reflexivity. cbv beta. erewrite bind_ret by (apply get_task_spec; exact T1). cbv beta.
  cbn [state_ with_yieldCount]. rewrite Hst. erewrite bind_ret; [exact E3|]. unfold switch_runnable.
  erewrite bind_ret by reflexivity. cbv beta. replace (next_of e s1) with (@None nat) by (unfold next_of, queue; by rewrite L1).
  erewrite bind_ret by (apply get_proc_spec; exact Hi1). cbv beta. erewrite bind_ret by reflexivity. cbv beta.
  replace (size (i, New) s1) with 0 by (unfold size, queue; rewrite L1; fold (queue (i, New) s); by rewrite Hq).
  rewrite orb_true_r. exact E2.
Qed.

Lemma restart i e s p x :
  procs s !! i = Some p -> runningTask_ p = None -> tasks s !! e = Some x -> queue (i, Runnable) s = [e] -> stop_ s = false ->
  exists s' x' p', (Process_inner i ;;; Process_outer i ;;; Process_inner i) s = Ret (s', tt) /\ procs s' !! i = Some p' /\
    runningTask_ p' = Some e /\ pc_ p' = InTask /\ up_queue_ p' = up_queue_ p /\
    tasks s' !! e = Some x' /\ state_ x' = runnable /\ links s' = links s /\ stop_ s' = false.
Proof.
  intros Hi Hr Hx Hq Hs.
  destruct (upd_proc_set s i p (set_pc Outer) Hi) as (s1 & E1 & P1 & T1 & L1 & S1).
  destruct (upd_task_set s1 e x (fun x => with_check x (Some (i, Runnable)))) as (s2 & E2 & T2 & P2 & L2 & S2); [by rewrite T1|].
  assert (procs s2 !! i = Some (set_pc Outer p)) as Hi2 by (by rewrite P2).
  destruct (upd_proc_set s2 i _ (set_running (Some e)) Hi2) as (s3 & E3 & P3 & T3 & L3 & S3).
  destruct (upd_proc_set s3 i _ (fun p => set_pc Inner (set_quota 1 p)) P3) as (s4 & E4 & P4 & T4 & L4 & S4).
  destruct (upd_task_set s4 e (with_check x (Some (i, Runnable))) (fun x => with_proc (with_state x runnable) (Some i)))
    as (s5 & E5 & T5 & P5 & L5 & S5); [by rewrite T4, T3|].
  rewrite <- P5 in P4.
  destruct (upd_proc_set s5 i _ (fun p => set_pc InTask (set_switchCount (u64 (switchCount_ p + 1)) p)) P4) as (s6 & E6 & P6 & T6 & L6 & S6).
  assert (stop_ s1 = false /\ stop_ s4 = false) as [Hs1 Hs4] by (split; congruence).
  eexists s6, _, _. split; [|rewrite P6, T6, T5, L6, L5, L4, L3, L2, L1, S6, S5; done].
  erewrite bind_ret; cycle 1.
  { unfold Process_inner. erewrite bind_ret by (by apply get_proc_spec). cbv beta. erewrite bind_ret by reflexivity. rewrite Hr. exact E1. }
  erewrite bind_ret; cycle 1.
  { unfold Process_outer. erewrite bind_ret by reflexivity. cbv beta. rewrite Hs1.
    erewrite bind_ret; cycle 1.
    { unfold front. erewrite bind_ret by reflexivity. cbv beta. unfold queue. rewrite L1. fold (queue (i, Runnable) s). rewrite Hq.
      cbn [head]. unfold claim. erewrite bind_ret by exact E2. reflexivity. }
    cbv beta. erewrite bind_ret by exact E3. erewrite bind_ret by reflexivity. cbv beta iota. exact E4. }
  unfold Process_inner. erewrite bind_ret by (apply get_proc_spec; rewrite <- P5; exact P4). cbv beta. erewrite bind_ret by reflexivity. rewrite Hs4.
  cbn [runningTask_ set_pc set_quota set_running]. erewrite bind_ret by exact E5. exact E6.
Qed.

Lemma yield_round_alone i e s :
  alone i e s -> exists s', yield_round i s = Ret (s', tt) /\ alone i e s' /\ packets i s' = packets i s.
Proof.
  intros (p & x & Hi & Hp & Hr & Hx & Hst & Hl & Hq & Hnew & Hn & Hs).
  assert (next_of e s = None) as Hnx.
  { unfold next_of. destruct (List.find _ (links s)) as [[e' q]|] eqn:E; [|done].
    apply find_some in E as [Hin Hb%Nat.eqb_eq]. simpl in *. subst e'. apply list_elem_of_In in Hin.
    rewrite (links_unique' _ _ _ _ Hn Hin Hl), Hq. simpl. by rewrite Nat.eqb_refl. }
  destruct (yield_last i e s p x Hi Hr Hx Hst Hnx Hnew) as (s1 & x1 & p1 & E1 & P1 & R1 & U1 & T1 & L1 & S1).
  assert (queue (i, Runnable) s1 = [e]) as Hq1 by (unfold queue; by rewrite L1).
  destruct (restart i e s1 p1 x1 P1 R1 T1 Hq1) as (s2 & x2 & p2 & E2 & P2 & R2 & C2 & U2 & T2 & St2 & L2 & S2); [congruence|].
  exists s2. split; [|split].
  - unfold yield_round. erewrite bind_ret by exact E1. exact E2.
  - exists p2, x2. unfold queue. rewrite L2, L1. done.
  - unfold packets. rewrite P2, Hi. simpl. congruence.
Qed.

(** A task that yields again and again keeps new tasks out: its processor reads the
    packet queue only when it finds no runnable task, so as long as the only runnable task
    just yields, whatever has been handed over stays in the packet queue. *)
Theorem yield_starves_new i e s n :
  alone i e s -> exists s', rounds n i s = Ret (s', tt) /\ alone i e s' /\ packets i s' = packets i s.
Proof.
  revert s. induction n as [|n IH]; intros s Ha; [exists s; done|].
  destruct (yield_round_alone i e s Ha) as (s1 & E1 & A1 & P1). destruct (IH s1 A1) as (s2 & E2 & A2 & P2).
  exists s2. split; [simpl; by erewrite bind_ret by exact E1|]. split; [done|congruence].
Qed.

(** With the handler [on_listener] an exception of a task's function is dropped: the
    processor goes on exactly as if the function had returned, although the comment on the
    option says that it is thrown on when no listener is set. *)
Lemma exception_dropped i s : Run_end i true false s = Run_end i false false s.
Proof. done. Qed.
End spec.

(** * A run of two processors *)

Definition enabled_b (l : label (list nat)) (w : World (list nat)) : bool :=
  let pc_is c i := match procs (sys w) !! i with Some p => bool_decide (pc_ p = c) | None => false end in
  match l with
  | LCreate i tk => (bool_decide (tasks (sys w) !! tk = None) && forallb (fun en => negb (tk_ en =? tk)%nat) (entries w) && (i <? length (procs (sys w)))%nat)%bool
  | LOuter i => pc_is Outer i
  | LWake i => pc_is Waiting i
  | LInner i => pc_is Inner i
  | LYield i => pc_is InTask i
  | LEnd i thrown imm => (pc_is InTask i && bool_decide (running_state i (sys w) = Some runnable) && negb (thrown && imm))%bool
  | LSuspend i => (pc_is InTask i && bool_decide (running_state i (sys w) = Some runnable))%bool
  | LWakeup _ en => existsb (fun x => (tk_ x =? tk_ en)%nat && (id_ x =? id_ en)) (entries w)
  | LSteal i _ | LAdd i _ | LNotify i | LMark i _ | LActive i _ => (i <? length (procs (sys w)))%nat
  | LStop => true
  | LNewProc q => bool_decide (q = [])
  end.

Lemma enabled_b_sound l w : enabled_b l w = true -> enabled l w.
Proof.
  assert (forall c i, match procs (sys w) !! i with Some p => bool_decide (pc_ p = c) | None => false end = true -> at_pc c i (sys w)) as Hpc.
  { intros c i. destruct (procs (sys w) !! i) as [p|] eqn:E; [|done]. intros ?%bool_decide_eq_true. by exists p. }
  destruct l; simpl; rewrite ?andb_true_iff; intros; destruct_and?;
    repeat match goal with
    | H : bool_decide _ = true |- _ => apply bool_decide_eq_true in H
    | H : negb _ = true |- _ => apply negb_true_iff in H
    | H : (_ <? _)%nat = true |- _ => apply Nat.ltb_lt, lookup_lt_is_Some_2 in H
    end; auto.
  - match goal with H : is_Some _ |- _ => destruct H as [p Hp] end. split; [done|split; [|eauto]]. intros en Hen.
    match goal with H : forallb _ _ = true |- _ => rewrite forallb_forall in H; apply list_elem_of_In, H in Hen end.
    by apply negb_true_iff, Nat.eqb_neq in Hen.
  - match goal with H : existsb _ _ = true |- _ => apply existsb_exists in H as ([t n] & Hin%list_elem_of_In & [H1%Nat.eqb_eq H2%Z.eqb_eq]%andb_true_iff) end.
    simpl in *. subst. by destruct en.
Qed.

Fixpoint run_labels (ls : list (label (list nat))) (w : World (list nat)) : res (World (list nat)) :=
  match ls with
  | [] => Ret w
  | l :: ls => if enabled_b l w then w ← exec l w; run_labels ls w else AssertFail
  end.

Lemma run_labels_steps ls w w' : run_labels ls w = Ret w' -> rtc wstep w w'.
Proof.
  revert w. induction ls as [|l ls IH]; simpl; intros w Hr; [injection Hr as ->; apply rtc_refl|].
  destruct (enabled_b l w) eqn:He; [|done]. apply res_bind_inv in Hr as (w1 & E & Hr).
  eapply rtc_l; [exists l; split; [by apply enabled_b_sound|exact E]|]. by apply IH.
Qed.

Definition two_procs : World (list nat) :=
  mkWorld (mkSystem ∅ [] [Processor_new []; Processor_new []] false 0) [] [].
Definition world_of (ls : list (label (list nat))) : World (list nat) :=
  match run_labels ls two_procs with Ret w => w | _ => two_procs end.
Definition runs (ls : list (label (list nat))) : bool := match run_labels ls two_procs with Ret _ => true | _ => false end.

Lemma world_of_reachable ls : runs ls = true -> wreachable (world_of ls).
Proof.
  unfold runs, world_of. destruct (run_labels ls two_procs) as [w| |] eqn:E; [|done..]. intros _.
  exists two_procs. split; [|by eapply run_labels_steps].
  repeat split. repeat constructor; by exists [].
Qed.

(** Task 1 has suspended itself, task 2 is next. *)
Definition suspended_run : list (label (list nat)) := [LCreate 0 1; LCreate 0 2; LOuter 0; LInner 0; LSuspend 0]%nat.
(** Task 2 runs, task 1 is awake again. *)
Definition awake_run : list (label (list nat)) := suspended_run ++ [LYield 0; LWakeup None (mkEntry 1 1); LInner 0]%nat.
(** Task 1 is stolen, and added to the other processor. *)
Definition stolen_run : list (label (list nat)) := awake_run ++ [LSteal 0 1; LAdd 1 1]%nat.
(** The other processor goes on. *)
Definition later_run : list (label (list nat)) := [LOuter 1; LOuter 1; LNotify 1; LWake 1; LOuter 1; LYield 0; LSteal 1 0; LAdd 0 5; LInner 0; LOuter 0; LInner 0]%nat.



Lemma proc_runs_alone_witness :
  let w := world_of suspended_run in
  exists p, procs (sys w) !! 0%nat = Some p /\ runningTask_ p = Some 1%nat /\ is_Some (tasks (sys w) !! 1%nat).
Proof.
  cbv zeta. destruct (procs (sys (world_of suspended_run)) !! 0%nat) as [p|] eqn:E; [|exfalso; vm_compute in E; discriminate E].
  exists p. split; [reflexivity|]. assert (runningTask_ p = Some 1%nat) as Hr.
  { vm_compute in E. injection E as <-. reflexivity. }
  split; [exact Hr|]. apply (proc_runs_alone (world_of suspended_run) 0 p 1); [|exact E|exact Hr].
  apply world_of_reachable. vm_compute. reflexivity.
Defined.

Lemma wakeup_once_witness :
  let w := world_of suspended_run in
  IsExpire (mkEntry 1 1) (sys w) = false /\ exists s', Wakeup None (mkEntry 1 1) (sys w) = Ret (s', true).
Proof.
  cbv zeta. assert (IsExpire (mkEntry 1 1) (sys (world_of suspended_run)) = false) as He by (vm_compute; reflexivity).
  split; [exact He|].
  destruct (wakeup_once (world_of suspended_run) None (mkEntry 1 1)) as (s' & E & _).
  - apply world_of_reachable. vm_compute. reflexivity.
  - apply list_elem_of_In. vm_compute. left. reflexivity.
  - exists s'. rewrite He in E. exact E.
Defined.

Lemma steal_splits_witness :
  let w := world_of awake_run in
  exists p s' l, procs (sys w) !! 0%nat = Some p /\ Steal 0 1 (sys w) = Ret (s', l) /\ length l = 1%nat.
Proof.
  cbv zeta. destruct (procs (sys (world_of awake_run)) !! 0%nat) as [p|] eqn:E; [|exfalso; vm_compute in E; discriminate E].
  destruct (steal_splits (world_of awake_run) 0 1 p) as (s' & l & Es & _ & _ & Hl).
  - apply world_of_reachable. vm_compute. reflexivity.
  - exact E.
  - split; [discriminate|reflexivity].
  - exists p, s', l. split; [reflexivity|]. split; [exact Es|]. rewrite Hl.
    vm_compute in E. injection E as <-. vm_compute. reflexivity.
Defined.

Lemma stolen_never_run_witness :
  let w := world_of stolen_run in
  exists w', run_labels later_run w = Ret w' /\ (1%nat ∈ loot w' \/ exists j, 1%nat ∈ queue (j, New) (sys w')).
Proof.
  cbv zeta. destruct (run_labels later_run (world_of stolen_run)) as [w'| |] eqn:E;
    [|exfalso; vm_compute in E; discriminate E..].
  exists w'. split; [reflexivity|]. apply (stolen_never_run (world_of stolen_run) w' 1).
  - apply world_of_reachable. vm_compute. reflexivity.
  - exact (run_labels_steps _ _ _ E).
  - right. exists 1%nat. apply list_elem_of_In. vm_compute. left. reflexivity.
Defined.

(** Task 1 yields, task 5 waits in the packet queue. *)
Definition alone_run : list (label (list nat)) := [LCreate 0 1; LOuter 0; LInner 0; LCreate 0 5]%nat.

Lemma yield_starves_new_witness :
  let s := sys (world_of alone_run) in
  exists s', rounds 100 0 s = Ret (s', tt) /\ packets 0 s' = Some [5%nat].
Proof.
  cbv zeta. destruct (yield_starves_new 0 1 (sys (world_of alone_run)) 100) as (s' & E & _ & P).
  - destruct (procs (sys (world_of alone_run)) !! 0%nat) as [p|] eqn:Ep; [|exfalso; vm_compute in Ep; discriminate Ep].
    destruct (tasks (sys (world_of alone_run)) !! 1%nat) as [x|] eqn:Ex; [|exfalso; vm_compute in Ex; discriminate Ex].
    vm_compute in Ep. injection Ep as <-. vm_compute in Ex. injection Ex as <-.
    eexists _, _. split; [vm_compute; reflexivity|]. repeat (split; [vm_compute; reflexivity|]).
    split; [apply list_elem_of_In; vm_compute; left; reflexivity|].
    split; [vm_compute; reflexivity|]. split; [vm_compute; reflexivity|].
    split; [|vm_compute; reflexivity]. apply NoDup_singleton.
  - exists s'. split; [exact E|]. rewrite P. vm_compute. reflexivity.
Defined.
