(* ===== verification/ProcSleep.v ===== *)
(** The sleep of a processor against a call that hands it a task: [Processor::WaitCondition]
    and the end of [Processor::AddTask(Task* )] access by access.

    [waiting_] and [notified_] are read and written in steps of their own, [cv_.wait] gives up
    the lock and blocks in one step, [notify_all] wakes only a thread that is blocked.  With
    [locked = false] this is [AddTask(Task* )], which takes no lock; with [locked = true] it
    is the protocol of [NotifyCondition] and [AddTask(SList)]. *)
From S2P Require Import Prelude.

(** The processor's thread, with no runnable task: [Idle] before its [AddNewTasks], then
    through [WaitCondition], and [Running] when it has found the task. *)
Inductive ppc := Idle | Locking | TestNotified | SetWaiting | WaitCv | Blocked | Woken | Again | Running.
(** The caller: it writes the packet, takes the lock if it takes one, reads [waiting_] and
    notifies or sets [notified_]. *)
Inductive spc := Put | TakeLock | ReadWaiting | NotifyAll | SetNotified | Finished.
#[export] Instance ppc_eq_dec : EqDecision ppc.
Proof. solve_decision. Defined.
#[export] Instance spc_eq_dec : EqDecision spc.
Proof. solve_decision. Defined.

Inductive owner := Nobody | Proc | Caller.
#[export] Instance owner_eq_dec : EqDecision owner.
Proof. solve_decision. Defined.

Record sleep := mkSleep { p_pc : ppc; s_pc : spc; lock : owner; waiting_ : bool; notified_ : bool; packet : bool }.
#[export] Instance sleep_eq_dec : EqDecision sleep.
Proof. solve_decision. Defined.

Definition sleep_init : sleep := mkSleep Idle Put Nobody false false false.

(** The next access of the processor's thread; none while it is blocked or the lock is taken. *)
Definition wait_step (s : sleep) : list sleep :=
  let '(mkSleep p c l w n q) := s in
  let add_new (otherwise : ppc) l := if q then mkSleep Running c l w n false else mkSleep otherwise c l w n q in
  match p with
  | Idle => [add_new Locking l]
  | Locking => match l with Nobody => [mkSleep TestNotified c Proc w n q] | _ => [] end
  | TestNotified => if n then [mkSleep Again c Nobody w false q] else [mkSleep SetWaiting c l w n q]
  | SetWaiting => [mkSleep WaitCv c l true n q]
  | WaitCv => [mkSleep Blocked c Nobody w n q]
  | Blocked => []
  | Woken => match l with Nobody => [mkSleep Again c l false n q] | _ => [] end
  | Again => [add_new Idle l]
  | Running => []
  end.

(** The next access of the caller. *)
Definition add_step (locked : bool) (s : sleep) : list sleep :=
  let '(mkSleep p c l w n q) := s in
  let release := if locked then Nobody else l in
  match c with
  | Put => [mkSleep p (if locked then TakeLock else ReadWaiting) l w n true]
  | TakeLock => match l with Nobody => [mkSleep p ReadWaiting Caller w n q] | _ => [] end
  | ReadWaiting => [mkSleep p (if w then NotifyAll else SetNotified) l w n q]
  | NotifyAll => [mkSleep (match p with Blocked => Woken | _ => p end) Finished release w n q]
  | SetNotified => [mkSleep p Finished release w true q]
  | Finished => []
  end.

Definition sleep_succs (locked : bool) (s : sleep) : list sleep := wait_step s ++ add_step locked s.
Definition sleep_reachable (locked : bool) : sleep -> Prop :=
  reachable (fun x y => y ∈ sleep_succs locked x) (fun x => x ∈ [sleep_init]).

(** Nothing can go on. *)
Definition at_rest (locked : bool) (s : sleep) : bool := match sleep_succs locked s with [] => true | _ => false end.
Definition slept_through (s : sleep) : bool :=
  match p_pc s, s_pc s with Blocked, Finished => packet s | _, _ => false end.

Definition all_states (locked : bool) : list sleep := explore (sleep_succs locked) 400 [] [sleep_init].

(** C19: [AddTask(Task* )] can lose the wake-up: there is an interleaving after which the call
    has returned, the packet is in the queue, and the thread is blocked in [cv_.wait] with
    nothing left to wake it, although [notified_] is set.  With the lock that
    [NotifyCondition] takes no interleaving ends so: whenever both are at rest the thread has
    found the task. *)
Theorem addtask_lost_wakeup :
  (exists s, sleep_reachable false s /\ at_rest false s = true /\ slept_through s = true /\ notified_ s = true) /\
  (forall s, sleep_reachable true s -> slept_through s = false /\ (at_rest true s = true -> p_pc s = Running)).
Proof.
  split.
  - set (stuck := mkSleep Blocked Finished Nobody true true true).
    exists stuck. split; [|done]. exists sleep_init. split; [by left|].
    apply (explore_sound (sleep_succs false) sleep_init 400 [] [sleep_init]).
    + intros y ->%list_elem_of_singleton. apply rtc_refl.
    + apply (bool_decide_eq_true (stuck ∈ explore (sleep_succs false) 400 [] [sleep_init])). vm_compute. reflexivity.
  - intros s Hs.
    assert ((negb (slept_through s) && (negb (at_rest true s) || bool_decide (p_pc s = Running)))%bool = true) as [H1 H2]%andb_true_iff.
    { refine (explored (sleep_succs true) [sleep_init] (all_states true)
        (fun s => negb (slept_through s) && (negb (at_rest true s) || bool_decide (p_pc s = Running)))%bool _ _ _ s Hs); vm_compute; reflexivity. }
    split; [by apply negb_true_iff|]. intros Hr. rewrite Hr in H2. by apply bool_decide_eq_true in H2.
Qed.
