(* ===== verification/Scheduler.v ===== *)
(** The scheduler of [scheduler/Scheduler.cpp]: where a new task goes, how many threads run,
    and one round of the dispatcher, which finds the blocked processors, keeps enough
    processors active, and moves tasks from blocked and loaded processors to others.

    The dispatcher works on the worlds of [ProcInv.v]: each of its calls on a processor is a
    step there, and the list [tasks] of the code is what the world has as [loot]. *)
From S2P Require Import Prelude Links TaskRing Processor ProcInv.
Local Open Scope Z_scope.

(** [std::multimap] from loads to processors: in the order of the keys, equal keys in the
    order of their insertion. *)
Definition ActiveMap : Type := list (Z * nat).
Fixpoint insert (k : Z) (i : nat) (m : ActiveMap) : ActiveMap :=
  match m with
  | [] => [(k, i)]
  | x :: m => if x.1 <=? k then x :: insert k i m else (k, i) :: x :: m
  end.
(** [equal_range(begin()->first)] and what follows it. *)
Definition begin_key (m : ActiveMap) : Z := match m with [] => 0 | x :: _ => x.1 end.
Fixpoint range_of (k : Z) (m : ActiveMap) : ActiveMap :=
  match m with [] => [] | x :: m => if x.1 =? k then x :: range_of k m else [] end.
Definition after_range (k : Z) (m : ActiveMap) : ActiveMap := drop (length (range_of k m)) m.

Section scheduler.
Context {Q : Type} `{HQ : UpQueue Q}.
(** The option [cycle_timeout_us], and what [AcquireQueue] answers to [NewProcessThread]. *)
Context (cycle_timeout_us : Z) (acquired : res Q).

Record Scheduler := mkSched {
  world : World Q; minThreadNumber_ : Z; maxThreadNumber_ : Z; lastActive_ : nat; started_ : bool }.
Definition set_world (w : World Q) (s : Scheduler) : Scheduler :=
  mkSched w (minThreadNumber_ s) (maxThreadNumber_ s) (lastActive_ s) (started_ s).
Definition set_last (i : nat) (s : Scheduler) : Scheduler :=
  mkSched (world s) (minThreadNumber_ s) (maxThreadNumber_ s) i (started_ s).

Definition MS (A : Type) : Type := st Scheduler A.
(** A call on a processor. *)
Definition call (l : label Q) : MS unit := fun s => w ← exec l (world s); Ret (set_world w s, tt).
Definition processers_ (s : Scheduler) : list (Proc Q) := procs (sys (world s)).
Definition processor (i : nat) : MS (Proc Q) := fun s => p ← deref (processers_ s !! i); Ret (s, p).
Definition load_of (i : nat) : MS Z := gets (fun s => RunnableSize i (sys (world s))).
(** The list [tasks]. *)
Definition tasks_ : MS (list nat) := gets (fun s => loot (world s)).
Fixpoint fold_st {A B} (f : B -> A -> MS A) (l : list B) (a : A) : MS A :=
  match l with [] => ret a | x :: l => let* a := f x a in fold_st f l a end.

(** ** New tasks and threads *)

(** [Scheduler::AddTask]: the processor that gets the task.  [self] is the processor of the
    calling thread. *)
Fixpoint search (n : nat) (idx : nat) (found : option (nat * bool)) (ps : list (Proc Q)) : option (nat * bool) :=
  match n with
  | O => found
  | S n =>
      let idx := (idx mod length ps)%nat in
      match ps !! idx with
      | Some p => if active_ p then Some (idx, true) else search n (S idx) (Some (idx, false)) ps
      | None => found
      end
  end.
Definition choose_processor (self : option nat) (s : Scheduler) : option nat :=
  let ps := processers_ s in
  match self with
  | Some i => match ps !! i with
              | Some p => if active_ p then Some i else fst <$> search (length ps) (lastActive_ s) None ps
              | None => None
              end
  | None => fst <$> search (length ps) (lastActive_ s) None ps
  end.
Definition CreateTask_on (self : option nat) (tk : nat) : MS unit :=
  let* o := gets (choose_processor self) in
  match o with Some i => call (LCreate i tk) | None => failed end.

Definition NewProcessThread : MS unit :=
  let* q := (fun s => q ← acquired; Ret (s, q)) in call (LNewProc q).

(** [Scheduler::Start]: the thread numbers, then the threads but one. *)
Definition thread_numbers (minThreadNumber maxThreadNumber hardware_concurrency : Z) : Z * Z :=
  let mn := if minThreadNumber <? 1 then hardware_concurrency else minThreadNumber in
  let mx := if ((maxThreadNumber =? 0) || (maxThreadNumber <? mn))%bool then mn else maxThreadNumber in
  (mn, mx).
Definition Start (minThreadNumber maxThreadNumber hardware_concurrency : Z) : MS unit :=
  let* st := gets started_ in
  if st then (fun _ => Throw 4)
  else
    let r := thread_numbers minThreadNumber maxThreadNumber hardware_concurrency in
    modify (fun s => mkSched (world s) r.1 r.2 (lastActive_ s) true) ;;;
    for_each (fun _ : nat => NewProcessThread) (seq 0 (Z.to_nat (r.1 - 1))).

(** [Scheduler::Stop], up to the joins. *)
Definition Stop : MS unit :=
  let* stop := gets (fun s => stop_ (sys (world s))) in
  if stop then ret tt
  else
    call LStop ;;;
    let* n := gets (fun s => length (processers_ s)) in
    for_each (fun i => call (LNotify i)) (seq 0 n).

(** ** A round of [DispatcherThread] *)

(** The first loop: blocked processors become inactive. *)
Definition first_look (now : nat -> Z) (i : nat) (acc : list nat * Z) : MS (list nat * Z) :=
  let* p := processor i in
  let blocking := IsBlocking (now i) cycle_timeout_us p in
  (if (blocking && active_ p)%bool then call (LActive i false) else ret tt) ;;;
  let* p := processor i in
  ret (if blocking then acc.1 ++ [i] else acc.1, if active_ p then acc.2 + 1 else acc.2).

(** The second loop: processors are activated within the quota, active ones are entered by
    their load and marked, waiting ones with tasks are woken. *)
Definition second_look (now mark : nat -> Z) (i : nat) (acc : ActiveMap * Z) : MS (ActiveMap * Z) :=
  let* loadaverage := load_of i in
  let* p := processor i in
  let* quota :=
    if (negb (active_ p) && (0 <? acc.2) && negb (IsBlocking (now i) cycle_timeout_us p))%bool then
      call (LActive i true) ;;; modify (set_last i) ;;; ret (acc.2 - 1)
    else ret acc.2 in
  let* p := processor i in
  let* actives :=
    if active_ p then call (LMark i (mark i)) ;;; ret (insert loadaverage i acc.1) else ret acc.1 in
  let* p := processor i in
  (if ((0 <? loadaverage) && waiting_ p)%bool then call (LNotify i) else ret tt) ;;;
  ret (actives, quota).

(** [cut(avg)] of [tasks] to the processors of a range in turn; [note] says whether each is
    entered in the new map. *)
Fixpoint share (avg : nat) (note : bool) (range : ActiveMap) (m : ActiveMap) : MS ActiveMap :=
  match range with
  | [] => ret m
  | x :: range =>
      let* tasks := tasks_ in
      match take avg tasks with
      | [] => ret m
      | _ => call (LAdd x.2 avg) ;;;
             let* n := load_of x.2 in
             share avg note range (if note then insert n x.2 m else m)
      end
  end.
(** What remains goes to the first of the range. *)
Definition rest_to_first (range : ActiveMap) : MS unit :=
  let* tasks := tasks_ in
  match tasks, range with
  | [], _ => ret tt
  | _, x :: _ => call (LAdd x.2 (length tasks))
  | _, [] => failed
  end.
Definition average (n : nat) (range : ActiveMap) : nat := Nat.max 1 (n / length range).

(** The tasks of blocked processors go to the active ones with the least load. *)
Definition balance_blocked (blockings : list nat) (actives : ActiveMap) : MS ActiveMap :=
  for_each (fun i => call (LSteal i 0)) blockings ;;;
  let* tasks := tasks_ in
  match tasks with
  | [] => ret actives
  | _ =>
      let k := begin_key actives in
      let range := range_of k actives in
      let newActives := fold_left (fun m x => insert x.1 x.2 m) (after_range k actives) [] in
      let* newActives := share (average (length tasks) range) true range newActives in
      rest_to_first range ;;;
      fold_st (fun x m => let* n := load_of x.2 in ret (insert n x.2 m)) range newActives
  end.

(** Processors without tasks get some of the most loaded one. *)
Definition balance_idle (actives : ActiveMap) : MS unit :=
  if begin_key actives =? 0 then
    let range := range_of 0 actives in
    let waitN := length range in
    if (waitN =? length actives)%nat then ret tt
    else
      match last actives with
      | None => ret tt
      | Some maxP =>
          let* n := load_of maxP.2 in
          let stealN := Z.min (n / 2) (Z.of_nat waitN * 1024) in
          if stealN =? 0 then ret tt
          else
            call (LSteal maxP.2 stealN) ;;;
            let* tasks := tasks_ in
            match tasks with
            | [] => ret tt
            | _ => let* _m := share (average (length tasks) range) false range [] in rest_to_first range
            end
      end
  else ret tt.

Definition activeQuota (isActiveCount mn : Z) : Z := if isActiveCount <? mn then mn - isActiveCount else 0.

(** Both loops: the number of processors, the blocked ones, and the active ones by load. *)
Definition survey (now1 now2 mark : nat -> Z) : MS (nat * list nat * ActiveMap) :=
  let* pcount := gets (fun s => length (processers_ s)) in
  let* r := fold_st (first_look now1) (seq 0 pcount) ([], 0) in
  let* mn := gets minThreadNumber_ in
  let* r2 := fold_st (second_look now2 mark) (seq 0 pcount) ([], activeQuota r.2 mn) in
  ret (pcount, r.1, r2.1).

Definition dispatch_round (now1 now2 mark : nat -> Z) : MS unit :=
  let* r := survey now1 now2 mark in
  let* mx := gets maxThreadNumber_ in
  let* actives :=
    match r.2 with
    | [] => if Z.of_nat r.1.1 <? mx then NewProcessThread ;;; ret [(0, r.1.1)] else ret []
    | _ => ret r.2
    end in
  match actives with
  | [] => ret tt
  | _ => let* actives := balance_blocked r.1.2 actives in balance_idle actives
  end.
End scheduler.

Arguments Scheduler Q : clear implicits.
