(* ===== verification/SchedSpec.v ===== *)
(** What the scheduler of [Scheduler.v] guarantees: a round of the dispatcher is a sequence of
    steps of the world and leaves no stolen task behind, the number of threads stays within
    its bounds, new tasks go to active processors. *)
From S2P Require Import Prelude Links TaskRing Processor ProcInv ProcSpec Scheduler.
Local Open Scope Z_scope.

Section spec.
Context {Q : Type} `{HQ : UpQueueLaws Q}.
Context (cycle_timeout_us : Z) (acquired : res Q).
Implicit Types (s : Scheduler Q) (w : World Q) (i : nat).

Definition ok s : Prop := exists σ, Inv σ (world s).

(** The dispatcher has come from [s] to [s']: steps of the world, none of which makes a
    processor. *)
Definition evolves s s' : Prop :=
  rtc wstep (world s) (world s') /\ length (processers_ s') = length (processers_ s) /\
  minThreadNumber_ s' = minThreadNumber_ s /\ maxThreadNumber_ s' = maxThreadNumber_ s.

Lemma evolves_refl s : evolves s s.
Proof. split; [apply rtc_refl|done]. Qed.
Lemma evolves_trans s1 s2 s3 : evolves s1 s2 -> evolves s2 s3 -> evolves s1 s3.
Proof. intros (R1 & ? & ? & ?) (R2 & ? & ? & ?). split; [by etrans|]. split_and!; congruence. Qed.

(** [m] runs from [s] and ends as [Φ] says. *)
Definition does {A} (m : MS A) s (Φ : Scheduler Q -> A -> Prop) : Prop :=
  exists s' a, m s = Ret (s', a) /\ ok s' /\ evolves s s' /\ Φ s' a.

Lemma does_ret {A} (a : A) s (Φ : Scheduler Q -> A -> Prop) : ok s -> Φ s a -> does (ret a) s Φ.
Proof. intros K Ha. exists s, a. split_and!; [done|done|apply evolves_refl|done]. Qed.
Lemma does_bind {A B} (m : MS A) (f : A -> MS B) s Φ Ψ :
  does m s Φ -> (forall s' a, ok s' -> evolves s s' -> Φ s' a -> does (f a) s' Ψ) -> does (bind m f) s Ψ.
Proof.
  intros (s' & a & E & K & V & Ha) Hf. destruct (Hf s' a K V Ha) as (s2 & b & E2 & K2 & V2 & H2).
  exists s2, b. split; [by erewrite bind_ret by exact E|]. split_and!; [done|by eapply evolves_trans|done].
Qed.
Lemma does_gets {A} (f : Scheduler Q -> A) s : ok s -> does (gets f) s (fun s' a => s' = s /\ a = f s).
Proof. intros K. exists s, (f s). split_and!; [done|done|apply evolves_refl|done|done]. Qed.
Lemma does_mono {A} (m : MS A) s (Φ Ψ : Scheduler Q -> A -> Prop) :
  does m s Φ -> (forall s' a, evolves s s' -> Φ s' a -> Ψ s' a) -> does m s Ψ.
Proof. intros (s' & a & E & K & V & Ha) Hm. exists s', a. split_and!; auto. Qed.

Lemma does_processor s i : ok s -> (i < length (processers_ s))%nat -> does (processor i) s (fun s' p => s' = s /\ processers_ s !! i = Some p).
Proof.
  intros K [p Hp]%lookup_lt_is_Some_2. exists s, p. unfold processor. rewrite Hp.
  split_and!; [done|done|apply evolves_refl|done|done].
Qed.

(** *** The calls *)

Lemma call_spec s l :
  ok s -> enabled l (world s) ->
  exists w', exec l (world s) = Ret w' /\ call l s = Ret (set_world w' s, tt) /\ ok (set_world w' s) /\ wstep (world s) w'.
Proof.
  intros [σ I] He. destruct (exec_inv _ _ _ I He) as (w' & E & σ' & I' & _). exists w'.
  unfold call. rewrite E. split_and!; [done|done|by exists σ'|by exists l].
Qed.

Lemma does_call s l (Φ : Scheduler Q -> Prop) :
  ok s -> enabled l (world s) ->
  (forall w', exec l (world s) = Ret w' -> length (procs (sys w')) = length (processers_ s) /\ Φ (set_world w' s)) ->
  does (call l) s (fun s' _ => Φ s').
Proof.
  intros K He Hw. destruct (call_spec s l K He) as (w' & E & Ec & K' & St). destruct (Hw w' E) as [Hl HΦ].
  exists (set_world w' s), tt. split_and!; [done|done| |done]. split; [by apply rtc_once|]. done.
Qed.

Definition quiet (l : label Q) : Prop := match l with LNotify _ | LMark _ _ | LActive _ _ => True | _ => False end.

Lemma upd_proc_length (f : Proc Q -> Proc Q) i (s s' : System Q) : upd_proc i f s = Ret (s', tt) -> length (procs s') = length (procs s).
Proof.
  unfold upd_proc, bind, get_proc. destruct (procs s !! i); [|done]. simpl. unfold modify. intros [= <-]. simpl. apply length_insert.
Qed.
Lemma notify_length i (s s' : System Q) : NotifyCondition i s = Ret (s', tt) -> length (procs s') = length (procs s).
Proof.
  unfold NotifyCondition, bind, get_proc. destruct (procs s !! i) as [p|] eqn:E; [|done]. simpl.
  destruct (waiting_ p); [by intros [= <-]|]. apply upd_proc_length.
Qed.

Lemma quiet_spec l w w' : quiet l -> exec l w = Ret w' -> length (procs (sys w')) = length (procs (sys w)) /\ loot w' = loot w.
Proof.
  intros Hq. destruct l as [| | | | | | | | | |i|i now|i b| |]; try done; simpl.
  - destruct (NotifyCondition i (sys w)) as [[s' []]| |] eqn:E; try done. intros [= <-]. simpl. by apply notify_length in E.
  - destruct (upd_proc i _ (sys w)) as [[s' []]| |] eqn:E; try done. intros [= <-]. simpl. by apply upd_proc_length in E.
  - destruct (upd_proc i _ (sys w)) as [[s' []]| |] eqn:E; try done. intros [= <-]. simpl. by apply upd_proc_length in E.
Qed.

Lemma does_quiet s l : ok s -> quiet l -> enabled l (world s) -> does (call l) s (fun s' _ => loot (world s') = loot (world s)).
Proof. intros K Hq He. apply does_call; [done..|]. intros w' E. by apply (quiet_spec l). Qed.

Lemma does_steal s i n : ok s -> (i < length (processers_ s))%nat -> does (call (LSteal i n)) s (fun _ _ => True).
Proof.
  intros [σ I] Hi%lookup_lt_is_Some_2. apply (does_call s _ (fun _ => True)); [by exists σ|done|].
  intros w' E. split; [|done]. destruct Hi as [p Hi].
  destruct (Steal_spec σ (sys (world s)) i n p (i_core _ _ I) Hi (i_procs _ _ I _ _ Hi)) as (s' & Es & _ & _ & P & _).
  simpl in E. rewrite Es in E. simpl in E. injection E as <-. simpl. by rewrite P.
Qed.

Lemma does_add s i k : ok s -> (i < length (processers_ s))%nat ->
  does (call (LAdd i k)) s (fun s' _ => loot (world s') = drop k (loot (world s))).
Proof.
  intros K Hi%lookup_lt_is_Some_2. apply (does_call s _ (fun s' => loot (world s') = drop k (loot (world s)))); [done|done|].
  intros w' E. simpl in E. destruct (AddTask_list i _ (sys (world s))) as [[s' []]| |] eqn:Ea; try done.
  simpl in E. injection E as <-. simpl. split; [|done].
  unfold AddTask_list in Ea. apply bind_inv_st in Ea as (s1 & [] & E1 & E2). rewrite (notify_length _ _ _ E2).
  unfold push_list in E1. apply bind_inv_st in E1 as (s2 & b & E0 & E1). unfold gets in E0. injection E0 as <- <-.
  case_match; [done|]. unfold modify in E1. by injection E1 as <-.
Qed.

(** A loop over processors that are there. *)
Lemma does_fold {A B} (f : B -> A -> MS A) (P : Scheduler Q -> A -> Prop) (R : B -> Prop) l a s :
  ok s -> P s a -> (forall x, x ∈ l -> R x) ->
  (forall x a s', ok s' -> evolves s s' -> R x -> P s' a -> does (f x a) s' P) -> does (fold_st f l a) s P.
Proof.
  intros K Ha HR Hf.
  assert (forall s', ok s' -> evolves s s' -> forall a, P s' a -> does (fold_st f l a) s' P) as Hgen; [|by apply Hgen, Ha; [|apply evolves_refl]].
  clear Ha K a. induction l as [|x l IH]; intros s' K' V a Ha; simpl; [by apply does_ret|].
  eapply does_bind; [apply Hf; [done|done|apply HR; by left|exact Ha]|]. intros s2 a2 K2 V2 H2.
  apply IH; [set_solver|done|by eapply evolves_trans|done].
Qed.
Lemma does_for_each {B} (f : B -> MS unit) (P : Scheduler Q -> Prop) (R : B -> Prop) l s :
  ok s -> P s -> (forall x, x ∈ l -> R x) ->
  (forall x s', ok s' -> evolves s s' -> R x -> P s' -> does (f x) s' (fun s'' _ => P s'')) -> does (for_each f l) s (fun s' _ => P s').
Proof.
  intros K Ha HR Hf.
  assert (forall s', ok s' -> evolves s s' -> P s' -> does (for_each f l) s' (fun s' _ => P s')) as Hgen; [|by apply Hgen; [|apply evolves_refl|]].
  clear Ha K. induction l as [|x l IH]; intros s' K' V Ha; simpl; [by apply does_ret|].
  eapply does_bind; [apply Hf; [done|done|apply HR; by left|exact Ha]|]. intros s2 [] K2 V2 H2.
  apply IH; [set_solver|done|by eapply evolves_trans|done].
Qed.

(** *** The parts of a round *)

Notation N s := (length (processers_ s)) (only parsing).
(** Entries of the map are processors. *)
Definition entries_ok (n : nat) (m : ActiveMap) : Prop := forall x, x ∈ m -> (x.2 < n)%nat.

Lemma insert_ok n k i m : (i < n)%nat -> entries_ok n m -> entries_ok n (insert k i m).
Proof.
  intros Hi. induction m as [|x m IH]; intros Hm; simpl; [intros y ->%list_elem_of_singleton; done|].
  assert (entries_ok n m) by (intros y Hy; apply Hm; by right). case_if.
  - intros y [->|Hy]%elem_of_cons; [apply Hm; by left|by apply IH].
  - intros y [->|Hy]%elem_of_cons; [done|by apply Hm].
Qed.
Lemma insert_nonempty k i m : insert k i m <> [].
Proof. destruct m; simpl; [done|]. by case_if. Qed.
Lemma range_ok n k m : entries_ok n m -> entries_ok n (range_of k m).
Proof.
  induction m as [|x m IH]; intros Hm; simpl; [done|]. case_if; [|by intros ? ?%elem_of_nil].
  intros y [->|Hy]%elem_of_cons; [apply Hm; by left|]. apply IH; [intros z Hz; apply Hm; by right|done].
Qed.
Lemma after_ok n k m : entries_ok n m -> entries_ok n (after_range k m).
Proof. intros Hm x Hx. apply Hm. unfold after_range in Hx. by eapply subseteq_drop. Qed.
Lemma range_begin m : m <> [] -> range_of (begin_key m) m <> [].
Proof. destruct m; [done|]. simpl. by rewrite Z.eqb_refl. Qed.
Lemma fold_insert_ok n m acc :
  entries_ok n m -> entries_ok n acc -> entries_ok n (fold_left (fun m x => insert x.1 x.2 m) m acc).
Proof.
  revert acc. induction m as [|x m IH]; intros acc Hm Ha; simpl; [done|].
  apply IH; [intros y Hy; apply Hm; by right|]. apply insert_ok; [apply Hm; by left|done].
Qed.

Lemma first_look_does now i acc s :
  ok s -> (i < N s)%nat ->
  does (first_look cycle_timeout_us now i acc) s (fun s' r => loot (world s') = loot (world s) /\ (r.1 = acc.1 \/ r.1 = acc.1 ++ [i])).
Proof.
  intros K Hi. unfold first_look. eapply does_bind; [by apply does_processor|]. intros s1 p K1 V1 [-> Hp].
  eapply (does_bind _ _ _ (fun s' _ => loot (world s') = loot (world s))).
  { destruct (_ && _)%bool; [apply does_quiet; [done|done|by exists p]|by apply does_ret]. }
  intros s2 _u K2 V2 L2. eapply does_bind; [apply does_processor; [done|]|].
  { destruct V2 as (_ & -> & _). done. }
  intros s3 p3 K3 V3 [-> Hp3]. apply does_ret; [done|]. split; [done|]. simpl. case_if; auto.
Qed.

Lemma second_look_does now mark i acc s :
  ok s -> (i < N s)%nat -> entries_ok (N s) acc.1 ->
  does (second_look cycle_timeout_us now mark i acc) s (fun s' r => loot (world s') = loot (world s) /\ entries_ok (N s) r.1).
Proof.
  intros K Hi Ha. unfold second_look. eapply does_bind; [by apply does_gets|]. intros s1 load K1 V1 [-> _].
  eapply does_bind; [by apply does_processor|]. intros s1' p _ _ [-> Hp].
  eapply (does_bind _ _ _ (fun s' _ => loot (world s') = loot (world s))).
  { destruct (_ && _ && _)%bool; [|by apply does_ret]. eapply does_bind; [apply does_quiet; [done|done|by exists p]|].
    intros s2 [] K2 V2 L2. eapply does_bind; [|intros; apply does_ret; [done|exact H2]].
    exists (set_last i s2), tt. split_and!; [done|done| |done]. split; [apply rtc_refl|done]. }
  intros s2 quota K2 V2 L2. assert (i < N s2)%nat as Hi2 by (by destruct V2 as (_ & -> & _)).
  eapply does_bind; [by apply does_processor|]. intros s2' p2 _ _ [-> Hp2].
  eapply (does_bind _ _ _ (fun s' m => loot (world s') = loot (world s) /\ entries_ok (N s) m)).
  { destruct (active_ p2); [|by apply does_ret]. eapply does_bind; [apply does_quiet; [done|done|by exists p2]|].
    intros s3 [] K3 V3 L3. apply does_ret; [done|]. split; [congruence|]. by apply insert_ok. }
  intros s3 m K3 V3 [L3 M3]. assert (i < N s3)%nat as Hi3 by (by destruct V3 as (_ & -> & _)).
  eapply does_bind; [by apply does_processor|]. intros s3' p3 _ _ [-> Hp3].
  eapply (does_bind _ _ _ (fun s' _ => loot (world s') = loot (world s))).
  { destruct (_ && _)%bool; [|by apply does_ret]. eapply does_mono; [apply does_quiet; [done|done|by exists p3]|]. simpl. congruence. }
  intros s4 [] K4 V4 L4. apply does_ret; [done|]. done.
Qed.

Lemma share_does avg note range m s :
  ok s -> (0 < avg)%nat -> entries_ok (N s) range -> entries_ok (N s) m ->
  does (share avg note range m) s (fun s' m' => entries_ok (N s) m').
Proof.
  revert m s. induction range as [|x range IH]; intros m s K Ha Hr Hm; simpl; [by apply does_ret|].
  eapply does_bind; [by apply does_gets|]. intros s1 tasks _ _ [-> ->].
  destruct (take avg (loot (world s))) as [|t ts] eqn:E; [by apply does_ret|].
  eapply does_bind; [apply does_add; [done|apply Hr; by left]|]. intros s2 [] K2 V2 _.
  eapply does_bind; [by apply does_gets|]. intros s2' n _ _ [-> _].
  assert (N s2 = N s) as En by apply V2. rewrite <- En. apply IH; rewrite ?En; [done|done|intros y Hy; apply Hr; by right|].
  case_match; [|done]. apply insert_ok; [apply Hr; by left|done].
Qed.

Lemma rest_does range s :
  ok s -> entries_ok (N s) range -> range <> [] ->
  does (rest_to_first range) s (fun s' _ => loot (world s') = []).
Proof.
  intros K Hr Hn. unfold rest_to_first. eapply does_bind; [by apply does_gets|]. intros s1 tasks _ _ [-> ->].
  destruct (loot (world s)) as [|t ts] eqn:E; [by apply does_ret|]. destruct range as [|x range]; [done|].
  eapply does_mono; [apply does_add; [done|apply Hr; by left]|]. intros s2 ? _ Hd. cbv beta in Hd. rewrite Hd, E. apply drop_all.
Qed.

Lemma average_pos n range : (0 < average n range)%nat.
Proof. unfold average. lia. Qed.

Lemma balance_blocked_does blockings actives s :
  ok s -> (forall i, i ∈ blockings -> (i < N s)%nat) -> entries_ok (N s) actives -> actives <> [] -> loot (world s) = [] ->
  does (balance_blocked blockings actives) s (fun s' m => loot (world s') = [] /\ entries_ok (N s) m).
Proof.
  intros K Hb Ha Hn Hl. unfold balance_blocked.
  eapply (does_bind _ _ _ (fun _ _ => True)).
  { apply (does_for_each _ (fun _ => True) (fun i => (i < N s)%nat)); [done|done|done|].
    intros i s' K' V' Hi _. apply does_steal; [done|]. by destruct V' as (_ & -> & _). }
  intros s1 _u K1 V1 _. assert (N s1 = N s) as E1 by apply V1.
  eapply does_bind; [by apply does_gets|]. intros s1' tasks _ _ [-> ->].
  destruct (loot (world s1)) as [|t ts] eqn:El; [by apply does_ret|]. rewrite <- El. clear El.
  set (range := range_of (begin_key actives) actives).
  assert (entries_ok (N s1) range) as Hr by (rewrite E1; by apply range_ok).
  eapply (does_bind _ _ _ (fun _ m => entries_ok (N s1) m)).
  { apply share_does; [done|apply average_pos|done|]. apply fold_insert_ok; [rewrite E1; by apply after_ok|by intros ? ?%elem_of_nil]. }
  intros s2 m2 K2 V2 M2. assert (N s2 = N s1) as E2 by apply V2. rewrite <- E2 in Hr, M2.
  eapply does_bind; [apply rest_does; [done|done|by apply range_begin]|]. intros s3 [] K3 V3 L3.
  assert (N s3 = N s2) as E3 by apply V3. rewrite <- E3 in Hr, M2. rewrite <- E1, <- E2, <- E3.
  apply (does_fold _ (fun s' m => loot (world s') = [] /\ entries_ok (N s3) m) (fun x => (x.2 < N s3)%nat)); [done|done|apply Hr|].
  intros x m s' K' V' Hx [L' M']. eapply does_bind; [by apply does_gets|]. intros s'' n _ _ [-> _].
  apply does_ret; [done|]. split; [done|]. by apply insert_ok.
Qed.

Lemma balance_idle_does actives s :
  ok s -> entries_ok (N s) actives -> loot (world s) = [] ->
  does (balance_idle actives) s (fun s' _ => loot (world s') = []).
Proof.
  intros K Ha Hl. unfold balance_idle. destruct (Z.eqb_spec (begin_key actives) 0) as [Hk|]; [|by apply does_ret].
  destruct (_ =? _)%nat; [by apply does_ret|]. destruct (last actives) as [maxP|] eqn:El; [|by apply does_ret].
  assert (actives <> []) as Hn by (by intros ->). assert (maxP ∈ actives) as Hin by (by apply last_Some_elem_of).
  eapply does_bind; [by apply does_gets|]. intros s1 n _ _ [-> _]. destruct (_ =? 0); [by apply does_ret|].
  eapply does_bind; [apply does_steal; [done|by apply Ha]|]. intros s2 [] K2 V2 _.
  assert (N s2 = N s) as E2 by apply V2.
  eapply does_bind; [by apply does_gets|]. intros s2' tasks _ _ [-> ->].
  destruct (loot (world s2)) as [|t ts] eqn:Et; [by apply does_ret|]. rewrite <- Et. clear Et.
  assert (entries_ok (N s2) (range_of 0 actives)) as Hr by (rewrite E2; by apply range_ok).
  eapply does_bind; [apply share_does; [done|apply average_pos|done|by intros ? ?%elem_of_nil]|].
  intros s3 m3 K3 V3 _. apply rest_does; [done| |].
  - destruct V3 as (_ & -> & _). done.
  - rewrite <- Hk. by apply range_begin.
Qed.

(** *** The round *)

(** The loops up to the choice of the active processors. *)
Lemma survey_does now1 now2 mark s :
  ok s -> loot (world s) = [] ->
  does (survey cycle_timeout_us now1 now2 mark) s (fun s' r => loot (world s') = [] /\ r.1.1 = N s /\
    (forall i, i ∈ r.1.2 -> (i < N s)%nat) /\ entries_ok (N s) r.2).
Proof.
  intros K Hl. unfold survey. eapply does_bind; [by apply does_gets|]. intros s1 n _ _ [-> ->].
  assert (forall i, i ∈ seq 0 (N s) -> (i < N s)%nat) as Hseq by (intros i Hi%list_elem_of_In%in_seq; lia).
  eapply (does_bind _ _ _ (fun s' (r : list nat * Z) => loot (world s') = [] /\ forall i, i ∈ r.1 -> (i < N s)%nat)).
  { apply (does_fold _ (fun s' (r : list nat * Z) => loot (world s') = [] /\ forall i, i ∈ r.1 -> (i < N s)%nat) (fun i => (i < N s)%nat)); [done| |done|].
    - split; [done|]. by intros i ?%elem_of_nil.
    - intros i a s' K' V' Hi [L' A']. eapply does_mono; [apply first_look_does; [done|by destruct V' as (_ & -> & _)]|].
      intros s'' r _ [L'' Hr]. split; [congruence|]. intros j Hj. destruct Hr as [Hr|Hr]; rewrite Hr in Hj; [auto|].
      apply elem_of_app in Hj as [Hj|Hj]; [auto|]. by apply list_elem_of_singleton in Hj as ->. }
  intros s1 r K1 V1 [L1 R1]. eapply does_bind; [by apply does_gets|]. intros s1' mn _ _ [-> _].
  assert (N s1 = N s) as E1 by apply V1.
  eapply does_bind.
  { apply (does_fold _ (fun s' (r2 : ActiveMap * Z) => loot (world s') = [] /\ entries_ok (N s) r2.1) (fun i => (i < N s)%nat)); [done| |done|].
    - split; [done|]. by intros ? ?%elem_of_nil.
    - intros i a s' K' V' Hi [L' A']. assert (N s' = N s) as E' by (rewrite <- E1; apply V'). rewrite <- E' in *.
      eapply does_mono; [by apply second_look_does|]. intros s'' r2 _ [L'' R'']. split; [congruence|done]. }
  intros s2 r2 K2 V2 [L2 R2]. by apply does_ret.
Qed.

Lemma balance_does blockings actives s :
  ok s -> (forall i, i ∈ blockings -> (i < N s)%nat) -> entries_ok (N s) actives -> actives <> [] -> loot (world s) = [] ->
  does (let* actives := balance_blocked blockings actives in balance_idle actives) s (fun s' _ => loot (world s') = []).
Proof.
  intros K Hb Ha Hn Hl. eapply does_bind; [by apply balance_blocked_does|]. intros s1 m K1 V1 [L1 M1].
  apply balance_idle_does; [done|by destruct V1 as (_ & -> & _)|done].
Qed.

Lemma NewProcessThread_does s q :
  ok s -> acquired = Ret q -> uq_abs q = [] ->
  exists s', NewProcessThread acquired s = Ret (s', tt) /\ ok s' /\ rtc wstep (world s) (world s') /\
    processers_ s' = processers_ s ++ [Processor_new q] /\ loot (world s') = loot (world s) /\
    minThreadNumber_ s' = minThreadNumber_ s /\ maxThreadNumber_ s' = maxThreadNumber_ s /\ started_ s' = started_ s.
Proof.
  intros K Ea Hq. destruct (call_spec s (LNewProc q) K Hq) as (w' & E & Ec & K' & St).
  exists (set_world w' s). simpl in E. injection E as <-. split_and!; try done; [|by apply rtc_once].
  unfold NewProcessThread. erewrite bind_ret by (rewrite Ea; reflexivity). exact Ec.
Qed.


(** *** New tasks *)

Definition active_at (ps : list (Proc Q)) i : bool := match ps !! i with Some p => active_ p | None => false end.

Lemma search_first ps idx found n k :
  (k < n)%nat -> active_at ps ((idx + k) mod length ps) = true ->
  (forall k', (k' < k)%nat -> active_at ps ((idx + k') mod length ps) = false) ->
  search n idx found ps = Some ((idx + k) mod length ps, true)%nat.
Proof.
  revert idx found k. induction n as [|n IH]; intros idx found k Hk Ha Hb; [lia|]. simpl.
  assert (0 < length ps)%nat as Hp.
  { destruct ps; simpl; [|lia]. unfold active_at in Ha. by rewrite lookup_nil in Ha. }
  assert (idx mod length ps < length ps)%nat as Hlt by (apply Nat.mod_upper_bound; lia).
  destruct (lookup_lt_is_Some_2 ps _ Hlt) as [p Hi]. rewrite Hi. destruct k as [|k].
  - rewrite Nat.add_0_r in *. unfold active_at in Ha. rewrite Hi in Ha. by rewrite Ha.
  - pose proof (Hb 0%nat ltac:(lia)) as H0. rewrite Nat.add_0_r in H0. unfold active_at in H0. rewrite Hi in H0. rewrite H0.
    assert (forall j, ((S (idx mod length ps) + j) mod length ps = (idx + S j) mod length ps)%nat) as Hm.
    { intros j. replace (S (idx mod length ps) + j)%nat with (idx mod length ps + S j)%nat by lia. apply Nat.Div0.add_mod_idemp_l. }
    rewrite <- Hm. apply IH; [lia|by rewrite Hm|]. intros k' Hk'. rewrite Hm. apply Hb. lia.
Qed.

(** As long as one processor is active, a task that is created outside of the
    scheduler's threads goes to an active one: the first from [lastActive_] on, in cyclic
    order. *)
Theorem new_task_active s :
  (exists j, active_at (processers_ s) j = true) ->
  exists k, let i := ((lastActive_ s + k) mod N s)%nat in
    choose_processor None s = Some i /\ active_at (processers_ s) i = true /\
    forall k', (k' < k)%nat -> active_at (processers_ s) ((lastActive_ s + k') mod N s) = false.
Proof.
  intros [j Hj]. set (ps := processers_ s) in *. set (n := length ps).
  assert (j < n)%nat as Hjn.
  { unfold active_at in Hj. destruct (ps !! j) eqn:E; [by eapply lookup_lt_Some|done]. }
  set (a k := active_at ps ((lastActive_ s + k) mod n)).
  assert (exists k, (k < n)%nat /\ a k = true) as (k0 & Hk0 & Ha0).
  { exists ((j + (n - lastActive_ s mod n)) mod n)%nat. split; [apply Nat.mod_upper_bound; lia|].
    unfold a. rewrite Nat.Div0.add_mod_idemp_r.
    replace (lastActive_ s + (j + (n - lastActive_ s mod n)))%nat with (j + (lastActive_ s / n + 1) * n)%nat.
    - rewrite Nat.Div0.mod_add, Nat.mod_small by lia. done.
    - pose proof (Nat.div_mod_eq (lastActive_ s) n). pose proof (Nat.mod_upper_bound (lastActive_ s) n ltac:(lia)). nia. }
  assert (exists k, (k < n)%nat /\ a k = true /\ forall k', (k' < k)%nat -> a k' = false) as (k & Hk & Ha & Hb).
  { clear Hj. revert Hk0 Ha0. induction k0 as [k0 IH] using lt_wf_ind. intros Hk0 Ha0.
    destruct (existsb a (seq 0 k0)) eqn:E.
    - apply existsb_exists in E as (k' & Hin%in_seq & Hk'). apply (IH k'); [lia|lia|done].
    - exists k0. split_and!; [done..|]. intros k' Hlt. apply not_true_iff_false. intros Hk'.
      apply not_true_iff_false in E. apply E, existsb_exists. exists k'. split; [apply in_seq; lia|done]. }
  exists k. cbv zeta. split_and!; [|exact Ha|exact Hb].
  unfold choose_processor. fold ps. rewrite (search_first ps (lastActive_ s) None (length ps) k Hk Ha Hb). done.
Qed.

(** *** Start *)

Lemma threads_started s q (l : list nat) :
  ok s -> acquired = Ret q -> uq_abs q = [] ->
  exists s', for_each (fun _ : nat => NewProcessThread acquired) l s = Ret (s', tt) /\ ok s' /\
    N s' = (N s + length l)%nat /\ minThreadNumber_ s' = minThreadNumber_ s /\ maxThreadNumber_ s' = maxThreadNumber_ s /\ started_ s' = started_ s.
Proof.
  intros K Ea Hq. revert s K. induction l as [|x l IH]; intros s K; [exists s; split_and!; simpl; [done|done|lia|done..]|].
  destruct (NewProcessThread_does s q K Ea Hq) as (s1 & E1 & K1 & _ & P1 & _ & M1 & X1 & S1).
  destruct (IH s1 K1) as (s2 & E2 & K2 & N2 & M2 & X2 & S2). exists s2. split_and!; [|done| |congruence..].
  - simpl. by erewrite bind_ret by exact E1.
  - rewrite N2, P1, length_app. simpl. lia.
Qed.

(** With a queue for every processor, the first [Start] makes one processor less than
    the minimal number of threads, which is the argument or the number of cores, and at most
    the maximal number; every further [Start] throws. *)
Theorem start_threads s q minThreadNumber maxThreadNumber hardware_concurrency :
  wreachable (world s) -> started_ s = false -> acquired = Ret q -> uq_abs q = [] -> 1 <= hardware_concurrency ->
  let mn := if minThreadNumber <? 1 then hardware_concurrency else minThreadNumber in
  exists s', Start acquired minThreadNumber maxThreadNumber hardware_concurrency s = Ret (s', tt) /\
    Z.of_nat (N s') = Z.of_nat (N s) + (mn - 1) /\
    minThreadNumber_ s' = mn /\ mn <= maxThreadNumber_ s' /\ (mn <= maxThreadNumber -> maxThreadNumber_ s' = maxThreadNumber) /\
    forall a b c, Start acquired a b c s' = Throw 4.
Proof.
  intros K%world_inv Hs Ea Hq Hh mn.
  assert (1 <= mn) as Hmn by (unfold mn; destruct (Z.ltb_spec minThreadNumber 1); lia).
  set (r := thread_numbers minThreadNumber maxThreadNumber hardware_concurrency).
  set (s1 := mkSched (world s) r.1 r.2 (lastActive_ s) true).
  destruct (threads_started s1 q (seq 0 (Z.to_nat (r.1 - 1))) K Ea Hq) as (s2 & E2 & K2 & N2 & M2 & X2 & S2).
  exists s2. split_and!.
  - unfold Start. erewrite bind_ret by reflexivity. cbv beta. rewrite Hs. by erewrite bind_ret by reflexivity.
  - rewrite N2, length_seq. change (r.1) with mn. change (N s1) with (N s). lia.
  - rewrite M2. done.
  - rewrite X2. simpl. fold mn. destruct (Z.eqb_spec maxThreadNumber 0), (Z.ltb_spec maxThreadNumber mn); simpl; lia.
  - intros Hle. rewrite X2. simpl. fold mn. rewrite (proj2 (Z.eqb_neq maxThreadNumber 0)), (proj2 (Z.ltb_ge maxThreadNumber mn)) by lia. done.
  - intros a b c. unfold Start. erewrite bind_ret by reflexivity. cbv beta. rewrite S2. done.
Qed.

(** C37: [Start(1, n)] makes no processor at all, since the thread that calls it no longer
    becomes one: creating a task then calls a method of a null pointer. *)
Theorem start_one_fails s tk maxThreadNumber hardware_concurrency :
  processers_ s = [] -> started_ s = false ->
  exists s', Start acquired 1 maxThreadNumber hardware_concurrency s = Ret (s', tt) /\ processers_ s' = [] /\
    CreateTask_on None tk s' = AssertFail.
Proof.
  intros Hp Hs. eexists. unfold Start. erewrite bind_ret by reflexivity. cbv beta. rewrite Hs.
  split; [erewrite bind_ret by reflexivity; reflexivity|]. split; [exact Hp|].
  unfold CreateTask_on. erewrite bind_ret by reflexivity. cbv beta. unfold choose_processor.
  replace (processers_ _) with (@nil (Proc Q)) by (symmetry; exact Hp). done.
Qed.
End spec.

(** Processor 0 runs task 1 and is marked; tasks 2 and 3 wait behind it. *)
Definition blocked_run : list (label (list nat)) :=
  [LCreate 0 1; LCreate 0 2; LCreate 0 3; LOuter 0; LInner 0; LMark 0 0]%nat.
Definition blocked_scheduler : Scheduler (list nat) := mkSched (world_of blocked_run) 1 4 0 true.


(** There, the blocked processor becomes inactive and its waiting tasks go to the other. *)
Example dispatch_example :
  match dispatch_round 5 (Ret []) (fun _ => 10) (fun _ => 10) (fun _ => 10) blocked_scheduler with
  | Ret (s', _) => bool_decide (queue (1%nat, New) (sys (world s')) = [2; 3]%nat) &&
                   bool_decide (queue (0%nat, Runnable) (sys (world s')) = [1]%nat) &&
                   bool_decide (map active_ (processers_ s') = [false; true])
  | _ => false
  end = true.
Proof. vm_compute. reflexivity. Qed.

Lemma new_task_active_witness :
  exists k, choose_processor None blocked_scheduler = Some ((0 + k) mod 2)%nat.
Proof.
  destruct (new_task_active blocked_scheduler) as (k & E & _).
  - exists 1%nat. vm_compute. reflexivity.
  - exists k. rewrite E. reflexivity.
Defined.

Lemma start_threads_witness :
  exists s', Start (Ret []) 3 0 8 (mkSched two_procs 1 1 0 false) = Ret (s', tt) /\ Z.of_nat (length (processers_ s')) = 4.
Proof.
  destruct (start_threads (Ret []) (mkSched two_procs 1 1 0 false) [] 3 0 8) as (s' & E & N & _).
  - exact (world_of_reachable [] eq_refl).
  - reflexivity.
  - reflexivity.
  - reflexivity.
  - discriminate.
  - exists s'. split; [exact E|exact N].
Defined.

Lemma start_one_fails_witness :
  let s := mkSched (mkWorld (mkSystem ∅ [] [] false 0) [] []) 1 1 0 false : Scheduler (list nat) in
  exists s', Start (Throw 0) 1 0 8 s = Ret (s', tt) /\ CreateTask_on None 1 s' = AssertFail.
Proof.
  cbv zeta. destruct (start_one_fails (Throw 0) (mkSched (mkWorld (mkSystem ∅ [] [] false 0) [] []) 1 1 0 false) 1 0 8) as (s' & E & _ & F).
  - reflexivity.
  - reflexivity.
  - exists s'. split; [exact E|exact F].
Defined.
