(* ===== verification/SchedLife.v ===== *)
(** The life of the schedulers of [scheduler/Scheduler.cpp]: their creation and the list of what is to
    be done at exit, the threads that [Start], [UseAloneTimerThread] and the global timer make, [Stop] with
    its joins, the destructor, and the count of the tasks.

    Any number of threads call these functions; what the functions share, they reach in steps, and a
    step holds what no other call can come between to any effect.  The detached thread of the clock is left out.
    The threads made are the processors, the dispatchers and those of the timers: of a round of a
    dispatcher, of a processor and of a timer only the look at [stop_] is kept, the rest is in
    [Scheduler.v], [Processor.v] and [TimerWheel.v].  The stop of a timer is [TimerRace.Quit]. *)
From S2P Require Import Prelude TimerRace Scheduler.
Local Open Scope Z_scope.
#[local] Instance stopper_dec : EqDecision Quit.stopper := Quit.stopper_eq_dec.
#[local] Instance runner_dec : EqDecision Quit.runner := Quit.runner_eq_dec.

(** [BeginTimer s]: the thread [Start] makes, which reads [timer_] first. *)
Inductive body := BeginTimer (s : nat) | RunTimer (tm : nat) | Dispatcher (s : nat) | Process (s : nat).
Record thread := mkThread { runs : body; ended : bool }.
(** A timer, with the arguments of [SetPoolSize] if it was called. *)
Record timer := mkTimer { pool : option (Z * Z); quit : Quit.quit }.
Definition new_timer : timer := mkTimer None Quit.new.

(** [std::thread] members: [Some t] while joinable. [stopMtx_]: the thread that holds it. *)
Record sched := mkSched {
  started_ : bool; taskCount_ : Z; timer_ : option nat; minThreadNumber_ : Z; maxThreadNumber_ : Z;
  dispatchThread_ : option nat; timerThread_ : option nat; stopMtx_ : option nat; stop_ : bool; alive : bool }.
Definition new_sched : sched := mkSched false 0 None 1 1 None None None false true.

(** What [ExitList] holds: [delete sched], or the stop of the global timer and the join of its thread. *)
Inductive exit_fn := EDelete (s : nat) | EStopTimer (tm t : nat).
(** What runs at the end of the program: [onExit] and the destructor of the static scheduler. *)
Inductive handler := HOnExit | HInstance (s : nat).

(** The calls, and their continuations. *)
Inductive cmd :=
| Create | Instance_
| Start (caught : bool) (s : nat) (mn mx hw : Z) | NewThreads (s n : nat) | StartTimerThread (s : nat) | StartDispatcher (s : nat)
| GoStart (s : nat) (mn mx hw : Z)
| UseAlone (s : nat) | UseRun (s tm : nat) | UseUnlock (s tm : nat) | UseStore (s tm : nat)
| GetTimer (s : nat)
| Stop (s : nat) | StopBody (s : nat) | StopTimer (s : nat) | TimerStop (tm : nat)
| JoinDispatcher (s : nat) | JoinTimer (s : nat) | StopUnlock (s : nat)
| JoinThread (t : nat)
| Delete (s : nat) | Free (s : nat)
| Exit | ExitAt (i n : nat) | ExitClear
| CreateTask (s : nat) | DeleteTask (s id : nat) | CountDown (s : nat).

Record world := mkWorld {
  exiting : bool; ignore : bool; exitList : list exit_fn; atexit : list handler; instance_ : option nat; static_timer : option nat;
  idFactory : nat; tasks : list (nat * nat); scheds : list sched; timers : list timer; threads : list thread;
  callers : list (list cmd); thrown : list nat }.
Definition initial (calls : list (list cmd)) : world := mkWorld false false [] [] None None 0 [] [] [] [] calls [].

(** ** Changes *)

Definition set_exit (l : list exit_fn) (h : list handler) (w : world) : world :=
  mkWorld (exiting w) (ignore w) l h (instance_ w) (static_timer w) (idFactory w) (tasks w) (scheds w) (timers w) (threads w) (callers w) (thrown w).
Definition set_scheds (l : list sched) (w : world) : world :=
  mkWorld (exiting w) (ignore w) (exitList w) (atexit w) (instance_ w) (static_timer w) (idFactory w) (tasks w) l (timers w) (threads w) (callers w) (thrown w).
Definition set_timers (l : list timer) (w : world) : world :=
  mkWorld (exiting w) (ignore w) (exitList w) (atexit w) (instance_ w) (static_timer w) (idFactory w) (tasks w) (scheds w) l (threads w) (callers w) (thrown w).
Definition set_threads (l : list thread) (w : world) : world :=
  mkWorld (exiting w) (ignore w) (exitList w) (atexit w) (instance_ w) (static_timer w) (idFactory w) (tasks w) (scheds w) (timers w) l (callers w) (thrown w).
Definition set_callers (l : list (list cmd)) (w : world) : world :=
  mkWorld (exiting w) (ignore w) (exitList w) (atexit w) (instance_ w) (static_timer w) (idFactory w) (tasks w) (scheds w) (timers w) (threads w) l (thrown w).
Definition set_static (i tm : option nat) (w : world) : world :=
  mkWorld (exiting w) (ignore w) (exitList w) (atexit w) i tm (idFactory w) (tasks w) (scheds w) (timers w) (threads w) (callers w) (thrown w).
Definition set_tasks (n : nat) (l : list (nat * nat)) (w : world) : world :=
  mkWorld (exiting w) (ignore w) (exitList w) (atexit w) (instance_ w) (static_timer w) n l (scheds w) (timers w) (threads w) (callers w) (thrown w).
Definition set_flags (b : bool) (l : list nat) (w : world) : world :=
  mkWorld b (ignore w) (exitList w) (atexit w) (instance_ w) (static_timer w) (idFactory w) (tasks w) (scheds w) (timers w) (threads w) (callers w) l.

(** [static int ignore = InitOnExit()]: once. *)
Definition InitOnExit (w : world) : world :=
  if ignore w then w
  else mkWorld (exiting w) true (exitList w) (atexit w ++ [HOnExit]) (instance_ w) (static_timer w) (idFactory w) (tasks w) (scheds w) (timers w) (threads w) (callers w) (thrown w).

(** A freed scheduler must not be used. *)
Definition get_sched (s : nat) (w : world) : res sched :=
  x ← deref (scheds w !! s); if alive x then Ret x else AssertFail.
Definition put_sched (s : nat) (x : sched) (w : world) : world := set_scheds (<[s := x]> (scheds w)) w.

Definition with_started (b : bool) (x : sched) : sched :=
  mkSched b (taskCount_ x) (timer_ x) (minThreadNumber_ x) (maxThreadNumber_ x) (dispatchThread_ x) (timerThread_ x) (stopMtx_ x) (stop_ x) (alive x).
Definition with_numbers (mn mx : Z) (x : sched) : sched :=
  mkSched (started_ x) (taskCount_ x) (timer_ x) mn mx (dispatchThread_ x) (timerThread_ x) (stopMtx_ x) (stop_ x) (alive x).
Definition with_count (n : Z) (x : sched) : sched :=
  mkSched (started_ x) n (timer_ x) (minThreadNumber_ x) (maxThreadNumber_ x) (dispatchThread_ x) (timerThread_ x) (stopMtx_ x) (stop_ x) (alive x).
Definition with_timer (tm : option nat) (x : sched) : sched :=
  mkSched (started_ x) (taskCount_ x) tm (minThreadNumber_ x) (maxThreadNumber_ x) (dispatchThread_ x) (timerThread_ x) (stopMtx_ x) (stop_ x) (alive x).
Definition with_threads (d t : option nat) (x : sched) : sched :=
  mkSched (started_ x) (taskCount_ x) (timer_ x) (minThreadNumber_ x) (maxThreadNumber_ x) d t (stopMtx_ x) (stop_ x) (alive x).
Definition with_stop (m : option nat) (b : bool) (x : sched) : sched :=
  mkSched (started_ x) (taskCount_ x) (timer_ x) (minThreadNumber_ x) (maxThreadNumber_ x) (dispatchThread_ x) (timerThread_ x) m b (alive x).
Definition dead (x : sched) : sched :=
  mkSched (started_ x) (taskCount_ x) (timer_ x) (minThreadNumber_ x) (maxThreadNumber_ x) (dispatchThread_ x) (timerThread_ x) (stopMtx_ x) (stop_ x) false.

Definition make_timer (w : world) : world := set_timers (timers w ++ [new_timer]) w.
Definition make_thread (b : body) (w : world) : world := set_threads (threads w ++ [mkThread b false]) w.
Definition SetPoolSize (tm : nat) (w : world) : world :=
  set_timers (alter (fun x => mkTimer (Some (1000, 100)) (quit x)) tm (timers w)) w.

(** [std::terminate]: an exception nobody catches, or the destructor of a joinable [std::thread]. *)
Definition terminate {A} : res A := Throw 99.
(** [timerThread_.swap(t)] and the end of [t]. *)
Definition swap_in (old : option nat) (t : nat) : res (option nat) :=
  match old with None => Ret (Some t) | Some _ => terminate end.

(** ** The callers *)

(** The outcome of a step of a call: [None]: it waits; else the new world, and what the call still
    does. *)
Definition outcome : Type := option (res (world * list cmd)).
Definition on (s : nat) (w : world) (k : sched -> res (world * list cmd)) : outcome := Some (x ← get_sched s w; k x).
Definition thread_ended (t : nat) (w : world) : bool := match threads w !! t with Some x => ended x | None => false end.

(** [Create] and [getInstance]. *)
Definition create (w : world) : outcome :=
  let s := length (scheds w) in
  let w := InitOnExit w in
  Some (Ret (set_exit (exitList w ++ [EDelete s]) (atexit w) (set_scheds (scheds w ++ [new_sched]) w), [])).
Definition getInstance (w : world) : outcome :=
  match instance_ w with
  | Some _ => Some (Ret (w, []))
  | None =>
      let s := length (scheds w) in
      Some (Ret (set_static (Some s) (static_timer w) (set_exit (exitList w) (atexit w ++ [HInstance s]) (set_scheds (scheds w ++ [new_sched]) w)), []))
  end.
(** [Start]: the lock and the numbers; a thread of a processor; the thread of the timer; the dispatcher. *)
Definition start (caught : bool) (s : nat) (mn mx hw : Z) (w : world) : outcome := on s w (fun x =>
  if started_ x then (if caught then Ret (set_flags (exiting w) (thrown w ++ [s]) w, []) else terminate)
  else
    let r := thread_numbers mn mx hw in
    Ret (put_sched s (with_numbers r.1 r.2 (with_started true x)) w, [NewThreads s (Z.to_nat (r.1 - 1)); StartTimerThread s; StartDispatcher s])).
Definition new_threads (s n : nat) (w : world) : outcome := on s w (fun _ =>
  match n with O => Ret (w, []) | S n => Ret (make_thread (Process s) w, [NewThreads s n]) end).
Definition start_timer (s : nat) (w : world) : outcome := on s w (fun x =>
  match timer_ x with
  | None => Ret (w, [])
  | Some tm =>
      o ← swap_in (timerThread_ x) (length (threads w));
      Ret (put_sched s (with_threads (dispatchThread_ x) o x) (make_thread (BeginTimer s) (SetPoolSize tm w)), [])
  end).
Definition start_dispatcher (s : nat) (w : world) : outcome := on s w (fun x =>
  if 1 <? maxThreadNumber_ x then
    o ← swap_in (dispatchThread_ x) (length (threads w));
    Ret (put_sched s (with_threads o (timerThread_ x) x) (make_thread (Dispatcher s) w), [])
  else Ret (w, [])).
Definition goStart (s : nat) (mn mx hw : Z) (w : world) : outcome :=
  Some (Ret (set_callers (callers w ++ [[Start false s mn mx hw]]) w, [])).
(** [UseAloneTimerThread]: the look at [started_]; then a thread, or the end of the look; the store of [timer_]. *)
Definition use_alone (s : nat) (w : world) : outcome := on s w (fun x =>
  let tm := length (timers w) in
  if started_ x then Ret (make_timer w, [UseRun s tm])
  else Ret (put_sched s (with_started true x) (make_timer w), [UseUnlock s tm])).
Definition use_run (s tm : nat) (w : world) : outcome := on s w (fun x =>
  o ← swap_in (timerThread_ x) (length (threads w));
  Ret (put_sched s (with_threads (dispatchThread_ x) o x) (make_thread (RunTimer tm) (SetPoolSize tm w)), [UseStore s tm])).
Definition use_unlock (s tm : nat) (w : world) : outcome := on s w (fun x => Ret (put_sched s (with_started false x) w, [UseStore s tm])).
Definition use_store (s tm : nat) (w : world) : outcome := on s w (fun x => Ret (put_sched s (with_timer (Some tm) x) w, [])).
(** [GetTimer], and [staticGetTimer] at its first call. *)
Definition staticGetTimer (w : world) : outcome :=
  match static_timer w with
  | Some _ => Some (Ret (w, []))
  | None =>
      let tm := length (timers w) in let t := length (threads w) in
      Some (Ret (set_static (instance_ w) (Some tm) (set_exit (exitList w ++ [EStopTimer tm t]) (atexit w) (make_thread (RunTimer tm) (make_timer w))), []))
  end.
Definition get_timer (s : nat) (w : world) : outcome :=
  match get_sched s w with
  | Ret x => match timer_ x with Some _ => Some (Ret (w, [])) | None => staticGetTimer w end
  | _ => Some AssertFail
  end.
(** [Stop]: the lock of [stopMtx_]; [stop_]; the stop of the timer; the joins; the unlock.  What the processors are
    told is in [Scheduler.v]. *)
Definition stop_lock (me s : nat) (w : world) : outcome :=
  match get_sched s w with
  | Ret x => match stopMtx_ x with
             | Some _ => None
             | None => Some (Ret (put_sched s (with_stop (Some me) (stop_ x) x) w, [StopBody s]))
             end
  | _ => Some AssertFail
  end.
Definition stop_body (s : nat) (w : world) : outcome := on s w (fun x =>
  if stop_ x then Ret (w, [StopUnlock s])
  else Ret (put_sched s (with_stop (stopMtx_ x) true x) w, [StopTimer s; JoinDispatcher s; JoinTimer s; StopUnlock s])).
Definition stop_timer (s : nat) (w : world) : outcome := on s w (fun x => Ret (w, match timer_ x with Some tm => [TimerStop tm] | None => [] end)).
Definition timer_stop (tm : nat) (w : world) : outcome :=
  match timers w !! tm with
  | None => Some AssertFail
  | Some x =>
      match Quit.stop_step (quit x) with
      | q :: _ => Some (Ret (set_timers (<[tm := mkTimer (pool x) q]> (timers w)) w, [TimerStop tm]))
      | [] => if bool_decide (Quit.stop_thread (quit x) = Quit.SDone) then Some (Ret (w, [])) else None
      end
  end.
Definition join_dispatcher (s : nat) (w : world) : outcome :=
  match get_sched s w with
  | Ret x => match dispatchThread_ x with
             | Some t => if thread_ended t w then Some (Ret (put_sched s (with_threads None (timerThread_ x) x) w, [])) else None
             | None => Some (Ret (w, []))
             end
  | _ => Some AssertFail
  end.
Definition join_timer (s : nat) (w : world) : outcome :=
  match get_sched s w with
  | Ret x => match timerThread_ x with
             | Some t => if thread_ended t w then Some (Ret (put_sched s (with_threads (dispatchThread_ x) None x) w, [])) else None
             | None => Some (Ret (w, []))
             end
  | _ => Some AssertFail
  end.
Definition stop_unlock (s : nat) (w : world) : outcome := on s w (fun x => Ret (put_sched s (with_stop None (stop_ x) x) w, [])).
(** The destructor: [IsExiting], [Stop], and the end of the members; a thread that can be joined ends the program. *)
Definition delete (s : nat) (w : world) : outcome := Some (Ret (set_flags true (thrown w) w, [Stop s; Free s])).
Definition free (s : nat) (w : world) : outcome := on s w (fun x =>
  match dispatchThread_ x, timerThread_ x with
  | None, None => Ret (put_sched s (dead x) w, [])
  | _, _ => terminate
  end).
(** The end of the program, which calls the handlers, the last first; [onExit]: the loop, whose iterators do not
    survive a change of the list, and [clear]. *)
Definition exit_ (w : world) : outcome :=
  match list.last (atexit w) with
  | None => Some (Ret (w, []))
  | Some h =>
      let w := set_exit (exitList w) (removelast (atexit w)) w in
      Some (Ret (w, match h with HOnExit => [ExitAt 0 (length (exitList w)); Exit] | HInstance s => [Delete s; Exit] end))
  end.
Definition onExit (i n : nat) (w : world) : outcome :=
  if negb (length (exitList w) =? n)%nat then Some AssertFail
  else match exitList w !! i with
       | Some (EDelete s) => Some (Ret (w, [Delete s; ExitAt (S i) n]))
       | Some (EStopTimer tm t) => Some (Ret (w, [TimerStop tm; JoinThread t; ExitAt (S i) n]))
       | None => Some (Ret (w, [ExitClear]))
       end.
(** A new task, up to [AddTask]; its deleter, in two steps. *)
Definition create_task (s : nat) (w : world) : outcome := on s w (fun x =>
  let id := S (idFactory w) in
  Ret (put_sched s (with_count (u32 (taskCount_ x + 1)) x) (set_tasks id (tasks w ++ [(s, id)]) w), [])).
Definition delete_task (s id : nat) (w : world) : outcome :=
  if bool_decide ((s, id) ∈ tasks w) then Some (Ret (set_tasks (idFactory w) (filter (fun y => y <> (s, id)) (tasks w)) w, [CountDown s]))
  else Some AssertFail.
Definition count_down (s : nat) (w : world) : outcome := on s w (fun x => Ret (put_sched s (with_count (u32 (taskCount_ x - 1)) x) w, [])).

(** One step of the call [c] of the caller [me]. *)
Definition cmd_step (me : nat) (c : cmd) (w : world) : outcome :=
  match c with
  | Create => create w
  | Instance_ => getInstance w
  | Start caught s mn mx hw => start caught s mn mx hw w
  | NewThreads s n => new_threads s n w
  | StartTimerThread s => start_timer s w
  | StartDispatcher s => start_dispatcher s w
  | GoStart s mn mx hw => goStart s mn mx hw w
  | UseAlone s => use_alone s w
  | UseRun s tm => use_run s tm w
  | UseUnlock s tm => use_unlock s tm w
  | UseStore s tm => use_store s tm w
  | GetTimer s => get_timer s w
  | Stop s => stop_lock me s w
  | StopBody s => stop_body s w
  | StopTimer s => stop_timer s w
  | TimerStop tm => timer_stop tm w
  | JoinDispatcher s => join_dispatcher s w
  | JoinTimer s => join_timer s w
  | StopUnlock s => stop_unlock s w
  | JoinThread t => if thread_ended t w then Some (Ret (w, [])) else None
  | Delete s => delete s w
  | Free s => free s w
  | Exit => exit_ w
  | ExitAt i n => onExit i n w
  | ExitClear => Some (Ret (set_exit [] (atexit w) w, []))
  | CreateTask s => create_task s w
  | DeleteTask s id => delete_task s id w
  | CountDown s => count_down s w
  end.
Create HintDb life.
#[export] Hint Unfold on create getInstance start new_threads start_timer start_dispatcher goStart use_alone use_run use_unlock use_store
  staticGetTimer get_timer stop_lock stop_body stop_timer timer_stop join_dispatcher join_timer stop_unlock delete free exit_ onExit
  create_task delete_task count_down : life.
Definition IsEmpty (x : sched) : bool := taskCount_ x =? 0.
Definition TaskCount (x : sched) : Z := taskCount_ x.

Definition caller_step (me : nat) (w : world) : option (res world) :=
  match callers w !! me with
  | Some (c :: k) =>
      match cmd_step me c w with
      | Some r => Some ('(w, k') ← r; Ret (set_callers (<[me := k' ++ k]> (callers w)) w))
      | None => None
      end
  | _ => None
  end.

(** ** The threads *)

Definition end_thread (t : nat) (b : body) (w : world) : world := set_threads (<[t := mkThread b true]> (threads w)) w.
Definition thread_step (t : nat) (w : world) : option (res world) :=
  match threads w !! t with
  | Some (mkThread b false) =>
      match b with
      | BeginTimer s => Some (x ← get_sched s w; tm ← deref (timer_ x); Ret (set_threads (<[t := mkThread (RunTimer tm) false]> (threads w)) w))
      | RunTimer tm =>
          match timers w !! tm with
          | None => Some AssertFail
          | Some x =>
              match Quit.run_step (quit x) with
              | q :: _ =>
                  let w := set_timers (<[tm := mkTimer (pool x) q]> (timers w)) w in
                  Some (Ret (if bool_decide (Quit.run_thread q = Quit.REnd) then end_thread t b w else w))
              | [] => if bool_decide (Quit.run_thread (quit x) = Quit.REnd) then Some (Ret (end_thread t b w)) else None
              end
          end
      | Dispatcher s | Process s => Some (x ← get_sched s w; Ret (if stop_ x then end_thread t b w else w))
      end
  | _ => None
  end.

Inductive move := MCaller (me : nat) | MThread (t : nat).
Definition step (m : move) (w : world) : option (res world) :=
  match m with MCaller me => caller_step me w | MThread t => thread_step t w end.
Inductive Step (w : world) : world -> Prop := s_step m w' : step m w = Some (Ret w') -> Step w w'.
(** The moves in turn; [None]: one of them cannot be made. *)
Fixpoint play (l : list move) (w : world) : option (res world) :=
  match l with
  | [] => Some (Ret w)
  | m :: l => match step m w with Some (Ret w) => play l w | Some AssertFail => Some AssertFail | Some (Throw e) => Some (Throw e) | None => None end
  end.
(** What a client calls. *)
Definition client (c : cmd) : bool :=
  match c with
  | Create | Instance_ | Start _ _ _ _ _ | GoStart _ _ _ _ | UseAlone _ | GetTimer _ | Stop _ | Exit | CreateTask _ | DeleteTask _ _ => true
  | _ => false
  end.
