(* ===== verification/SchedLifeSpec.v ===== *)
(** The life of the schedulers ([SchedLife.v]): the threads of a scheduler find it alive, but for its
    processors; each scheduler is deleted once; the count of its tasks; and the calls that wait for
    ever or end the program. *)
From S2P Require Import Prelude TimerRace Scheduler SchedLife.
Local Open Scope Z_scope.

(** What programs call, and what can come of it. *)
Definition started (w : world) : Prop := exists calls, Forall (Forall (fun c => client c = true)) calls /\ w = initial calls.
Notation live := (reachable Step started).

Lemma swap_in_ret old t o : swap_in old t = Ret o -> old = None /\ o = Some t.
Proof. destruct old; [done|]. by intros [= <-]. Qed.
Lemma get_sched_ret s w x : get_sched s w = Ret x <-> scheds w !! s = Some x /\ alive x = true.
Proof.
  unfold get_sched. destruct (scheds w !! s) as [y|]; simpl; [|split; [done|by intros [? _]]].
  destruct (alive y) eqn:E; (split; [intros H|intros [H Ha]]); simplify_eq; auto; congruence.
Qed.

(** ** Threads and those who join them *)

Definition owned (n : nat) (ss : list sched) (t : nat) (b : body) : Prop :=
  match b with
  | Dispatcher s => exists x, ss !! s = Some x /\ alive x = true /\ dispatchThread_ x = Some t
  | BeginTimer s => exists x, ss !! s = Some x /\ alive x = true /\ timerThread_ x = Some t /\ is_Some (timer_ x)
  | RunTimer tm => (tm < n)%nat
  | Process s => is_Some (ss !! s)
  end.
(** Every running thread is owned, and the timers exist. *)
Definition threads_ok (n : nat) (ss : list sched) (ts : list thread) : Prop :=
  (forall t b, ts !! t = Some (mkThread b false) -> owned n ss t b) /\
  (forall s x tm, ss !! s = Some x -> timer_ x = Some tm -> (tm < n)%nat).
Definition cmd_ok (n : nat) (c : cmd) : Prop :=
  match c with UseRun _ tm | UseUnlock _ tm | UseStore _ tm | TimerStop tm => (tm < n)%nat | _ => True end.
Definition exit_ok (n : nat) (e : exit_fn) : Prop := match e with EStopTimer tm _ => (tm < n)%nat | _ => True end.
Record Inv (w : world) : Prop := mkInv {
  inv_threads : threads_ok (length (timers w)) (scheds w) (threads w);
  inv_cmds : Forall (Forall (cmd_ok (length (timers w)))) (callers w);
  inv_exit : Forall (exit_ok (length (timers w))) (exitList w) }.

Lemma cmd_ok_le n n' c : (n <= n')%nat -> cmd_ok n c -> cmd_ok n' c.
Proof. destruct c; simpl; lia. Qed.
Lemma exit_ok_le n n' e : (n <= n')%nat -> exit_ok n e -> exit_ok n' e.
Proof. destruct e; simpl; lia. Qed.
Lemma owned_le n n' ss t b : (n <= n')%nat -> owned n ss t b -> owned n' ss t b.
Proof. destruct b; simpl; [done|lia|done..]. Qed.
Lemma threads_ok_le n n' ss ts : (n <= n')%nat -> threads_ok n ss ts -> threads_ok n' ss ts.
Proof. intros Hn [H1 H2]. split; [intros t b Ht; by eapply owned_le, H1|]. intros s x tm Hx Ht. specialize (H2 s x tm Hx Ht). lia. Qed.
Lemma owned_app n ss x t b : owned n ss t b -> owned n (ss ++ [x]) t b.
Proof.
  destruct b; simpl; [|done| |].
  - intros (y & Hy & H). exists y. by rewrite (lookup_app_l_Some _ _ _ _ Hy).
  - intros (y & Hy & H). exists y. by rewrite (lookup_app_l_Some _ _ _ _ Hy).
  - intros [y Hy]. exists y. by rewrite (lookup_app_l_Some _ _ _ _ Hy).
Qed.
Lemma threads_ok_sched n ss ts : threads_ok n ss ts -> threads_ok n (ss ++ [new_sched]) ts.
Proof.
  intros [H1 H2]. split; [intros; by apply owned_app, H1|]. intros s x tm [Hx|[_ Hx]]%lookup_app_Some; [by eapply H2|].
  apply list_lookup_singleton_Some in Hx as [_ <-]. done.
Qed.

(** What a change of one scheduler must keep. *)
Lemma owned_put n ss s x x' t b : ss !! s = Some x -> owned n ss t b ->
  (b = Dispatcher s -> dispatchThread_ x = Some t -> alive x = true -> alive x' = true /\ dispatchThread_ x' = Some t) ->
  (b = BeginTimer s -> timerThread_ x = Some t -> alive x = true -> is_Some (timer_ x) -> alive x' = true /\ timerThread_ x' = Some t /\ is_Some (timer_ x')) ->
  owned n (<[s := x']> ss) t b.
Proof.
  intros Hx Ho Hd Hb. assert (s < length ss)%nat as Hlt by by eapply lookup_lt_Some.
  destruct b as [s'|tm|s'|s']; simpl in *; [|done| |].
  - destruct Ho as (y & Hy & Ha & Ht & Hs). destruct (decide (s' = s)) as [->|Hn].
    + rewrite Hx in Hy. simplify_eq. exists x'. rewrite list_lookup_insert_eq by done. destruct (Hb eq_refl Ht Ha Hs) as (? & ? & ?). done.
    + exists y. by rewrite list_lookup_insert_ne.
  - destruct Ho as (y & Hy & Ha & Ht). destruct (decide (s' = s)) as [->|Hn].
    + rewrite Hx in Hy. simplify_eq. exists x'. rewrite list_lookup_insert_eq by done. destruct (Hd eq_refl Ht Ha). done.
    + exists y. by rewrite list_lookup_insert_ne.
  - apply lookup_lt_is_Some. rewrite length_insert. by apply lookup_lt_is_Some.
Qed.
Lemma timers_put n (ss : list sched) s x' : (forall s x tm, ss !! s = Some x -> timer_ x = Some tm -> (tm < n)%nat) ->
  (forall tm, timer_ x' = Some tm -> (tm < n)%nat) ->
  forall s' y tm, <[s := x']> ss !! s' = Some y -> timer_ y = Some tm -> (tm < n)%nat.
Proof. intros H2 Hx' s' y tm [(_ & <- & _)|[_ Hy]]%list_lookup_insert_Some Ht; [by apply Hx'|by eapply H2]. Qed.

(** A change of what no thread reads. *)
Lemma threads_ok_put n ss ts s x x' : threads_ok n ss ts -> ss !! s = Some x ->
  alive x' = alive x -> dispatchThread_ x' = dispatchThread_ x -> timerThread_ x' = timerThread_ x ->
  timer_ x' = timer_ x \/ (exists tm, timer_ x' = Some tm /\ (tm < n)%nat) -> threads_ok n (<[s := x']> ss) ts.
Proof.
  intros [H1 H2] Hx Ha Hd Ht Htm. split.
  - intros t b Hb. eapply owned_put; [done|by apply H1|by rewrite Ha, Hd|]. intros _ ?? Hs. rewrite Ha, Ht. repeat split; [done..|].
    destruct Htm as [->|(tm & -> & _)]; [done|by eexists].
  - apply timers_put; [done|]. intros tm E. destruct Htm as [Heq|(tm' & Heq & ?)]; [rewrite Heq in E; by eapply H2|congruence].
Qed.
(** A new thread, and the member that holds it, which was free. *)
Definition taken (n : nat) (s t : nat) (x : sched) (b : body) (d tt : option nat) : Prop :=
  match b with
  | Dispatcher s' => s' = s /\ dispatchThread_ x = None /\ d = Some t /\ tt = timerThread_ x
  | BeginTimer s' => s' = s /\ is_Some (timer_ x) /\ timerThread_ x = None /\ d = dispatchThread_ x /\ tt = Some t
  | RunTimer tm => (tm < n)%nat /\ timerThread_ x = None /\ d = dispatchThread_ x
  | Process _ => False
  end.
Lemma lookup_snoc {A} (l : list A) x i y : (l ++ [x]) !! i = Some y -> l !! i = Some y \/ i = length l /\ y = x.
Proof.
  intros [H|[Hl H]]%lookup_app_Some; [by left|right]. apply list_lookup_singleton_Some in H as [? <-]. split; [lia|done].
Qed.
Lemma threads_ok_new n ss ts s x b d t : threads_ok n ss ts -> ss !! s = Some x -> alive x = true ->
  taken n s (length ts) x b d t -> threads_ok n (<[s := with_threads d t x]> ss) (ts ++ [mkThread b false]).
Proof.
  intros [H1 H2] Hx Ha Hb. assert (s < length ss)%nat as Hlt by by eapply lookup_lt_Some. split.
  - intros t' b' [Ht|[-> [= ->]]]%lookup_snoc.
    + eapply owned_put; [done|by apply H1|..]; intros -> Hd _; simpl; destruct b; simpl in Hb; destruct_and?; intros; repeat split; congruence || done.
    + destruct b; simpl in *; destruct_and?; simplify_eq; [|done| |done]; eexists; (split; [by apply list_lookup_insert_eq|done]).
  - apply timers_put; [done|]. simpl. intros tm Htm. by eapply H2.
Qed.
Lemma threads_ok_plain n ss ts b : threads_ok n ss ts ->
  (match b with Process s => is_Some (ss !! s) | RunTimer tm => (tm < n)%nat | _ => False end) -> threads_ok n ss (ts ++ [mkThread b false]).
Proof. intros [H1 H2] Hb. split; [|done]. intros t' b' [Ht|[-> [= ->]]]%lookup_snoc; [by apply H1|]. by destruct b. Qed.
(** A join. *)
Lemma threads_ok_join n ss ts s x d t : threads_ok n ss ts -> ss !! s = Some x ->
  (d = dispatchThread_ x \/ d = None /\ exists t, dispatchThread_ x = Some t /\ forall b, ts !! t <> Some (mkThread b false)) ->
  (t = timerThread_ x \/ t = None /\ exists t, timerThread_ x = Some t /\ forall b, ts !! t <> Some (mkThread b false)) ->
  threads_ok n (<[s := with_threads d t x]> ss) ts.
Proof.
  intros [H1 H2] Hx Hd Ht. split.
  - intros t' b Hb. eapply owned_put; [done|by apply H1|..]; intros -> Ht' ?; simpl.
    + split; [done|]. destruct Hd as [->|(-> & t0 & E & Hn)]; [done|]. rewrite Ht' in E. simplify_eq. by apply Hn in Hb.
    + repeat split; [done| |done]. destruct Ht as [->|(-> & t0 & E & Hn)]; [done|]. rewrite Ht' in E. simplify_eq. by apply Hn in Hb.
  - apply timers_put; [done|]. simpl. intros tm Htm. by eapply H2.
Qed.
Lemma threads_ok_free n ss ts s x : threads_ok n ss ts -> ss !! s = Some x ->
  dispatchThread_ x = None -> timerThread_ x = None -> threads_ok n (<[s := dead x]> ss) ts.
Proof.
  intros [H1 H2] Hx Hd Ht. split.
  - intros t' b Hb. eapply owned_put; [done|by apply H1|..]; congruence.
  - apply timers_put; [done|]. simpl. intros tm Htm. by eapply H2.
Qed.
(** A thread that goes on, or ends. *)
Lemma threads_ok_go n ss ts t b e : threads_ok n ss ts -> (e = false -> owned n ss t b) -> threads_ok n ss (<[t := mkThread b e]> ts).
Proof.
  intros [H1 H2] Hb. split; [|done]. intros t' b' [(-> & [= <- ->] & _)|[_ Ht]]%list_lookup_insert_Some; [by apply Hb|by apply H1].
Qed.

(** ** The calls keep it *)

Lemma thread_ended_no t w b : thread_ended t w = true -> threads w !! t <> Some (mkThread b false).
Proof. unfold thread_ended. intros H E. by rewrite E in H. Qed.

Definition grown (w w' : world) (k' : list cmd) : Prop :=
  (length (timers w) <= length (timers w'))%nat /\
  threads_ok (length (timers w')) (scheds w') (threads w') /\
  Forall (cmd_ok (length (timers w'))) k' /\ Forall (exit_ok (length (timers w'))) (exitList w') /\
  (callers w' = callers w \/ exists c, callers w' = callers w ++ [[c]] /\ cmd_ok (length (timers w')) c).
(** Where a scheduler is used it is there and alive. *)
Lemma on_inv {A} s w (k : sched -> res A) r : Some (x ← get_sched s w; k x) = Some (Ret r) ->
  exists x, scheds w !! s = Some x /\ alive x = true /\ k x = Ret r.
Proof. intros [= H]. apply res_bind_inv in H as (x & [Hx Ha]%get_sched_ret & Hk). eauto. Qed.
Lemma grown_here w w' k' : Inv w -> length (timers w') = length (timers w) -> exitList w' = exitList w -> callers w' = callers w ->
  threads_ok (length (timers w)) (scheds w') (threads w') -> Forall (cmd_ok (length (timers w))) k' -> grown w w' k'.
Proof. intros [_ _ He] Hl E Hc Ht Hk. unfold grown. rewrite Hl, E, Hc. auto 10. Qed.
(** A new timer, of which the continuation speaks. *)
Lemma grown_timer w w' k' ss ts : Inv w -> timers w' = timers w ++ [new_timer] -> callers w' = callers w ->
  Forall (exit_ok (S (length (timers w)))) (exitList w') -> Forall (cmd_ok (S (length (timers w)))) k' ->
  scheds w' = ss -> threads w' = ts -> threads_ok (S (length (timers w))) ss ts -> grown w w' k'.
Proof. intros Hi Htm Hc He Hk <- <- Ht. unfold grown. rewrite Htm, length_app. simpl. rewrite Nat.add_1_r. split; [lia|auto 10]. Qed.
Lemma inv_exit_S w : Inv w -> Forall (exit_ok (S (length (timers w)))) (exitList w).
Proof. intros [_ _ He]. eapply Forall_impl; [exact He|]. intros e. apply exit_ok_le. lia. Qed.

Ltac put_plain := eapply threads_ok_put; [eassumption|eassumption|reflexivity..|by left].
Ltac here := apply grown_here; [done|try done; simpl; by rewrite ?length_alter, ?length_insert|done..|simpl; try done|repeat constructor; simpl; try done].
Ltac grow_timer := eapply grown_timer; [done|done|done| |first [apply Forall_singleton; simpl; lia|constructor]|reflexivity..|simpl; try (eapply threads_ok_le; [|eassumption]; lia)]; simpl.
(** The cases of a call that returned. *)
Ltac call_cases Hs :=
  repeat match type of Hs with
  | Some (_ ≫= _) = Some (Ret _) => let x := fresh "x" in let Hx := fresh "Hx" in let Ha := fresh "Ha" in apply on_inv in Hs as (x & Hx & Ha & Hs)
  | mbind _ (swap_in _ _) = Ret _ =>
      let o := fresh "o" in let Ho := fresh "Ho" in
      apply res_bind_inv in Hs as (o & Ho & Hs); apply swap_in_ret in Ho as [Ho ->]
  | match get_sched ?s ?w with _ => _ end = _ =>
      let Hx := fresh "Hx" in let Ha := fresh "Ha" in
      destruct (get_sched s w) eqn:Hx; [apply get_sched_ret in Hx as [Hx Ha]|discriminate Hs|discriminate Hs]
  | match ?y with _ => _ end = _ => destruct y eqn:?
  end; try discriminate Hs; simplify_eq.
Ltac calls Hs := cbn [cmd_step] in Hs; autounfold with life in Hs; call_cases Hs.
Lemma cmd_step_grown me c w w' k' : Inv w -> cmd_ok (length (timers w)) c -> cmd_step me c w = Some (Ret (w', k')) -> grown w w' k'.
Proof.
  intros Hi Hok Hs. pose proof Hi as [Ht Hc He]. destruct c; calls Hs; try (by here); try (by (here; put_plain)).
  - unfold InitOnExit. destruct (ignore w); unfold grown; simpl; split_and!; try done; try (by left); try (by apply threads_ok_sched);
      apply Forall_app; (split; [done|repeat constructor]).
  - here. by apply threads_ok_sched.
  - here. apply threads_ok_plain; [done|]. by exists x.
  - here. apply threads_ok_new; simpl; [done..|]. split_and!; done.
  - here. by apply threads_ok_new.
  - unfold grown. simpl. split_and!; [done..|constructor|done|]. right. by eexists.
  - grow_timer. by apply inv_exit_S.
  - grow_timer; [by apply inv_exit_S|]. eapply threads_ok_le; [|put_plain]. lia.
  - here. by apply threads_ok_new.
  - here. eapply threads_ok_put; [done..|]. right. by eexists.
  - grow_timer; [|apply threads_ok_plain; [eapply threads_ok_le; [|done]; lia|lia]]. apply Forall_app. split; [by apply inv_exit_S|]. repeat constructor.
  - destruct (timer_ x) eqn:E; here. destruct Ht as [_ Htm]. by eapply Htm.
  - here. eapply threads_ok_join; [done..| |by left]. right. split; [done|]. eexists. split; [done|]. intros b. by apply thread_ended_no.
  - here. eapply threads_ok_join; [done..|by left|]. right. split; [done|]. eexists. split; [done|]. intros b. by apply thread_ended_no.
  - here. by apply threads_ok_free.
  - destruct h; here.
  - here. eapply Forall_lookup_1 in He; [|done]. exact He.
  - unfold grown. simpl. split_and!; [done|done|constructor..|by left].
Qed.

Lemma initial_inv w : started w -> Inv w.
Proof.
  intros (calls & Hc & ->). split; simpl; [split; [intros t b; by rewrite lookup_nil|intros s x tm; by rewrite lookup_nil]| |constructor].
  eapply Forall_impl; [exact Hc|]. intros k Hk. eapply Forall_impl; [exact Hk|]. intros []; done.
Qed.
Lemma caller_keeps_inv me w w' : Inv w -> caller_step me w = Some (Ret w') -> Inv w'.
Proof.
  intros Hi Hs. unfold caller_step in Hs. destruct (callers w !! me) as [[|c k]|] eqn:Ec; [done| |done].
  destruct (cmd_step me c w) as [r|] eqn:Er; [|done]. injection Hs as Hs. apply res_bind_inv in Hs as ([w1 k'] & -> & Hs). simplify_eq.
  pose proof Hi as [_ Hc _]. pose proof (Forall_lookup_1 _ _ _ _ Hc Ec) as Hk. apply Forall_cons in Hk as [Hok Hk].
  pose proof (cmd_step_grown me c w w1 k' Hi Hok Er) as (Hn & Ht & Hk' & He & Hcs). split; simpl; [done| |done].
  assert (forall l, Forall (cmd_ok (length (timers w))) l -> Forall (cmd_ok (length (timers w1))) l) as Hup.
  { intros l Hl. eapply Forall_impl; [exact Hl|]. intros d. by apply cmd_ok_le. }
  apply Forall_insert; [|apply Forall_app; auto].
  assert (Forall (Forall (cmd_ok (length (timers w1)))) (callers w)) as Hold by (eapply Forall_impl; [exact Hc|apply Hup]).
  destruct Hcs as [->|(d & -> & Hd)]; [done|]. apply Forall_app. split; [done|]. by repeat constructor.
Qed.
Lemma timers_insert_len (l : list timer) i x : length (<[i := x]> l) = length l.
Proof. apply length_insert. Qed.
Lemma thread_keeps_inv t w w' : Inv w -> thread_step t w = Some (Ret w') -> Inv w'.
Proof.
  intros [Ht Hc He] Hs. unfold thread_step in Hs. destruct (threads w !! t) as [[b e]|] eqn:Et; [|done]. destruct e; [done|].
  destruct b as [s|tm|s|s]; call_cases Hs; bind_inv; simplify_eq; repeat case_if; split; simpl; rewrite ?length_insert; try done; apply threads_ok_go; try done.
  intros _. destruct Ht as [_ Htm]. eapply Htm; [exact Hx|]. match goal with H : deref (timer_ _) = Ret _ |- _ => by destruct (timer_ x); simplify_eq/= end.
Qed.
Lemma live_inv w : live w -> Inv w.
Proof.
  apply reachable_inv; [apply initial_inv|]. intros w1 w2 Hi [[me|t] w' Hs]; [by eapply caller_keeps_inv|by eapply thread_keeps_inv].
Qed.


(** ** Each scheduler is deleted once *)

Definition deletes (s : nat) (l : list exit_fn) : nat := count (fun e => match e with EDelete s' => Nat.eqb s' s | _ => false end) l.
(** How often the call [c] will delete [s], where [l] is the exit list. *)
Definition claim (s : nat) (l : list exit_fn) (c : cmd) : nat :=
  match c with
  | Delete s' | Free s' => if Nat.eqb s' s then 1 else 0
  | ExitAt i _ => deletes s (drop i l)
  | _ => 0
  end.
Definition sumN {A} (f : A -> nat) (l : list A) : nat := foldr (fun x n => f x + n)%nat 0%nat l.
Definition claims (s : nat) (l : list exit_fn) (w : world) : nat := sumN (sumN (claim s l)) (callers w).
(** The walks through the exit list that there are or will be. *)
Definition visits_ (c : cmd) : nat := match c with ExitAt _ _ => 1 | _ => 0 end.
Definition walks (w : world) : nat := sumN (sumN visits_) (callers w).
Definition handled (h : list handler) : nat := count (fun h => match h with HOnExit => true | _ => false end) h.
Definition to_come (w : world) : nat := (handled (atexit w) + if ignore w then 0 else 1)%nat.
Definition static_one (s : nat) (w : world) : nat := count (fun h => match h with HInstance s' => Nat.eqb s' s | _ => false end) (atexit w).
Definition gone (s : nat) (w : world) : nat := match scheds w !! s with Some x => if alive x then 0 else 1 | None => 0 end.
Definition due (s : nat) (w : world) : nat :=
  (claims s (exitList w) w + to_come w * deletes s (exitList w) + static_one s w + gone s w)%nat.
Definition Once (w : world) : Prop :=
  (walks w + to_come w <= 1)%nat /\ forall s, (due s w <= 1)%nat /\ ((length (scheds w) <= s)%nat -> due s w = 0%nat /\ deletes s (exitList w) = 0%nat).

Lemma sumN_app {A} (f : A -> nat) l1 l2 : sumN f (l1 ++ l2) = (sumN f l1 + sumN f l2)%nat.
Proof. unfold sumN. induction l1; simpl; [done|]. rewrite IHl1. lia. Qed.
Lemma sumN_insert {A} (f : A -> nat) l i x y : l !! i = Some x -> (sumN f (<[i := y]> l) + f x = sumN f l + f y)%nat.
Proof.
  revert i. induction l as [|z l IH]; intros [|i] Hi; simplify_eq/=; [lia|]. specialize (IH _ Hi). unfold sumN in *. simpl. lia.
Qed.
Lemma sumN_le {A} (f g : A -> nat) l : (forall x, (f x <= g x)%nat) -> (sumN f l <= sumN g l)%nat.
Proof. intros H. unfold sumN. induction l; simpl; [done|]. pose proof (H a). lia. Qed.
Lemma sumN_add {A} (f g : A -> nat) l : sumN (fun x => f x + g x)%nat l = (sumN f l + sumN g l)%nat.
Proof. unfold sumN. induction l; simpl; [done|]. lia. Qed.
Lemma sumN_zero {A} (f : A -> nat) l : (forall x, f x = 0%nat) -> sumN f l = 0%nat.
Proof. intros H. unfold sumN. induction l; simpl; [done|]. by rewrite H, IHl. Qed.
Lemma sumN_lower {A} (f : A -> nat) l i x : l !! i = Some x -> (f x <= sumN f l)%nat.
Proof. revert i. unfold sumN. induction l; intros [|i] Hi; simplify_eq/=; [lia|]. specialize (IHl _ Hi). lia. Qed.

(** The sum over the callers after a step of one of them. *)
Lemma callers_sum (f : cmd -> nat) (cs : list (list cmd)) me c k k' : cs !! me = Some (c :: k) ->
  (sumN (sumN f) (<[me := k' ++ k]> cs) + f c = sumN (sumN f) cs + sumN f k')%nat.
Proof. intros H. pose proof (sumN_insert (sumN f) cs me _ (k' ++ k) H) as E. rewrite sumN_app in E. unfold sumN at 3 in E. simpl in E. fold (sumN f k) in E. lia. Qed.
Lemma deletes_app s l1 l2 : deletes s (l1 ++ l2) = (deletes s l1 + deletes s l2)%nat.
Proof. apply count_app. Qed.
(** A new entry is in every walk at most once. *)
Lemma claim_grow s l e c : (claim s (l ++ [e]) c <= claim s l c + deletes s [e] * visits_ c)%nat.
Proof. destruct c; simpl; try lia. rewrite drop_app, deletes_app. destruct (i - length l)%nat; simpl; [lia|]. rewrite drop_nil. unfold deletes at 2. rewrite count_nil. lia. Qed.
Lemma claims_grow s l e (cs : list (list cmd)) :
  (sumN (sumN (claim s (l ++ [e]))) cs <= sumN (sumN (claim s l)) cs + deletes s [e] * sumN (sumN visits_) cs)%nat.
Proof.
  assert (forall k, (sumN (claim s (l ++ [e])) k <= sumN (claim s l) k + deletes s [e] * sumN visits_ k)%nat) as H1.
  { intros k. unfold sumN. induction k as [|c k IH]; simpl; [lia|]. pose proof (claim_grow s l e c). lia. }
  unfold sumN at 1 3 5. induction cs as [|k cs IH]; simpl; [lia|]. pose proof (H1 k). lia.
Qed.

Lemma once_le w w' : Once w -> (walks w' + to_come w' <= walks w + to_come w)%nat -> (forall s, (due s w' <= due s w)%nat) ->
  (length (scheds w) <= length (scheds w'))%nat -> (forall s, (deletes s (exitList w') <= deletes s (exitList w))%nat) -> Once w'.
Proof.
  intros [Hw Hd] H1 H2 H3 H4. split; [lia|]. intros s. destruct (Hd s) as [Hs Hz]. specialize (H2 s). specialize (H4 s). split; [lia|]. intros Hl.
  destruct Hz as [? ?]; [lia|]. lia.
Qed.
Lemma gone_put s x x' s' w : scheds w !! s = Some x -> alive x' = alive x -> gone s' (put_sched s x' w) = gone s' w.
Proof.
  intros Hx Ha. unfold gone. simpl. destruct (decide (s' = s)) as [->|Hn].
  - rewrite list_lookup_insert_eq by by eapply lookup_lt_Some. by rewrite Hx, Ha.
  - by rewrite list_lookup_insert_ne.
Qed.
(** What a step of a call does to the counts; [cs]: new callers. *)
Lemma due_step w w1 me c k k' cs s : callers w !! me = Some (c :: k) -> callers w1 = callers w ++ cs ->
  let w' := set_callers (<[me := k' ++ k]> (callers w1)) w1 in
  (walks w' + visits_ c = walks w + sumN visits_ k' + sumN (sumN visits_) cs)%nat /\
  (claims s (exitList w1) w' + claim s (exitList w1) c = claims s (exitList w1) w + sumN (claim s (exitList w1)) k' + sumN (sumN (claim s (exitList w1))) cs)%nat.
Proof.
  intros Hc Hcs. simpl. unfold walks, claims. simpl. rewrite Hcs. rewrite insert_app_l by (by eapply lookup_lt_Some). rewrite !sumN_app.
  pose proof (callers_sum visits_ _ me c k k' Hc). pose proof (callers_sum (claim s (exitList w1)) _ me c k k' Hc). lia.
Qed.
(** Calls that concern neither lists nor deletion. *)
Definition quiet (c : cmd) : bool := match c with ExitAt _ _ | Delete _ | Free _ => false | _ => true end.
Lemma quiet_claim c s l : quiet c = true -> claim s l c = 0%nat /\ visits_ c = 0%nat.
Proof. by destruct c. Qed.
Lemma quiet_sum k s l : Forall (fun c => quiet c = true) k -> sumN (claim s l) k = 0%nat /\ sumN visits_ k = 0%nat.
Proof. unfold sumN. induction 1 as [|c k Hc Hk [IH1 IH2]]; simpl; [done|]. destruct (quiet_claim c s l Hc). lia. Qed.
Lemma once_quiet w w1 me c k k' cs : Once w -> callers w !! me = Some (c :: k) -> callers w1 = callers w ++ cs ->
  exitList w1 = exitList w -> atexit w1 = atexit w -> ignore w1 = ignore w -> length (scheds w1) = length (scheds w) ->
  (forall s, gone s w1 = gone s w) -> quiet c = true -> Forall (fun c => quiet c = true) k' -> Forall (Forall (fun c => quiet c = true)) cs ->
  Once (set_callers (<[me := k' ++ k]> (callers w1)) w1).
Proof.
  intros Ho Hc Hcs He Ha Hg Hl Hgone Hq Hk' Hq'.
  assert (forall s l, sumN (sumN (claim s l)) cs = 0%nat /\ sumN (sumN visits_) cs = 0%nat) as Hz.
  { intros s l. unfold sumN at 1 3. clear Hcs. induction Hq' as [|k0 cs Hk0 Hcs0 [IH1 IH2]]; simpl; [done|]. destruct (quiet_sum k0 s l Hk0). lia. }
  apply (once_le w); [done|..]; simpl; rewrite ?He, ?Hl; try done.
  - destruct (due_step w w1 me c k k' cs 0 Hc Hcs) as [E _]. simpl in E. destruct (Hz 0%nat []) as [_ E2]. destruct (quiet_sum k' 0 [] Hk') as [_ E3].
    unfold to_come. simpl. rewrite Ha, Hg. unfold walks in *. simpl in *. lia.
  - intros s. destruct (due_step w w1 me c k k' cs s Hc Hcs) as [_ E]. simpl in E. rewrite He in E.
    destruct (Hz s (exitList w)) as [E2 _]. destruct (quiet_sum k' s (exitList w) Hk') as [E3 _].
    unfold due, to_come, static_one, gone. specialize (Hgone s). unfold gone in Hgone. simpl. rewrite He, Ha, Hg, Hgone. unfold claims in *. simpl in *. lia.
Qed.

(** The quiet calls. *)
Definition listless (c : cmd) : bool :=
  match c with Create | Instance_ | GetTimer _ | Delete _ | Free _ | Exit | ExitAt _ _ | ExitClear => false | _ => true end.
Definition framed (w w1 : world) (k' : list cmd) : Prop :=
  (exists cs, callers w1 = callers w ++ cs /\ Forall (Forall (fun c => quiet c = true)) cs) /\
  exitList w1 = exitList w /\ atexit w1 = atexit w /\ ignore w1 = ignore w /\ length (scheds w1) = length (scheds w) /\
  (forall s, gone s w1 = gone s w) /\ Forall (fun c => quiet c = true) k'.
Lemma framed_same w w1 k' : callers w1 = callers w -> exitList w1 = exitList w -> atexit w1 = atexit w -> ignore w1 = ignore w ->
  scheds w1 = scheds w -> Forall (fun c => quiet c = true) k' -> framed w w1 k'.
Proof.
  intros Hc He Ha Hi Hs Hk. split; [exists []; by rewrite app_nil_r|]. split_and!; try done; [by rewrite Hs|]. intros s. unfold gone. by rewrite Hs.
Qed.
Lemma framed_put w w1 k' s x x' : scheds w !! s = Some x -> alive x' = alive x -> scheds w1 = <[s := x']> (scheds w) ->
  callers w1 = callers w -> exitList w1 = exitList w -> atexit w1 = atexit w -> ignore w1 = ignore w ->
  Forall (fun c => quiet c = true) k' -> framed w w1 k'.
Proof.
  intros Hx Hal Hs Hc He Ha Hi Hk. split; [exists []; by rewrite app_nil_r|]. split_and!; try done; [by rewrite Hs, length_insert|].
  intros s'. pose proof (gone_put s x x' s' w Hx Hal) as E. unfold gone in *. simpl in E. by rewrite Hs.
Qed.
Ltac framed := first
  [ apply framed_same; [reflexivity..|repeat constructor]
  | eapply framed_put; [eassumption|..]; [|reflexivity|..]; [reflexivity..|repeat constructor] ].
Lemma listless_frame me c w w1 k' : listless c = true -> cmd_step me c w = Some (Ret (w1, k')) -> framed w w1 k'.
Proof.
  intros Hl Hs. destruct c; try done; calls Hs; try framed.
  - split; [|repeat split; repeat constructor]. eexists. split; [reflexivity|]. repeat constructor.
  - destruct (timer_ x); repeat constructor.
Qed.

Lemma handled_snoc h l : handled (l ++ [h]) = (handled l + match h with HOnExit => 1 | _ => 0 end)%nat.
Proof. unfold handled. rewrite count_app, count_cons, count_nil. destruct h; lia. Qed.
Lemma once_create w w1 me k : Once w -> callers w !! me = Some (Create :: k) -> cmd_step me Create w = Some (Ret (w1, [])) ->
  Once (set_callers (<[me := [] ++ k]> (callers w1)) w1).
Proof.
  intros [Hw Hd] Hc [= <-]. set (n := length (scheds w)).
  pose proof (fun s => claims_grow s (exitList w) (EDelete n) (callers w)) as Hg.
  assert (callers (InitOnExit w) = callers w /\ exitList (InitOnExit w) = exitList w /\ scheds (InitOnExit w) = scheds w) as (E1 & E2 & E3)
    by (unfold InitOnExit; by destruct (ignore w) eqn:?).
  assert (to_come (InitOnExit w) = to_come w) as E4.
  { unfold to_come, InitOnExit. destruct (ignore w) eqn:Hi; [by rewrite Hi|]. simpl. rewrite handled_snoc. lia. }
  assert (forall s, static_one s (InitOnExit w) = static_one s w) as E5.
  { intros s. unfold static_one, InitOnExit. destruct (ignore w); [done|]. simpl. rewrite count_app, count_cons, count_nil. lia. }
  assert (ignore (InitOnExit w) = true) as E6 by (unfold InitOnExit; by destruct (ignore w) eqn:?).
  pose proof (callers_sum visits_ _ me _ _ [] Hc) as S1. simpl in S1.
  set (w' := set_callers _ _). assert (walks w' = walks w) as F1 by (unfold walks, w'; simpl; rewrite E1; unfold sumN in *; simpl in *; lia).
  assert (to_come w' = to_come w) as F2 by done || (rewrite <- E4; unfold to_come, w'; simpl; by rewrite E6).
  assert (forall s, deletes s (exitList w') = (deletes s (exitList w) + if Nat.eqb n s then 1 else 0)%nat) as F3.
  { intros s. unfold w'. simpl. rewrite E2, deletes_app. unfold deletes at 2. rewrite count_cons, count_nil. fold n. lia. }
  assert (forall s, static_one s w' = static_one s w) as F4 by (intros s; rewrite <- E5; done).
  assert (forall s, gone s w' = gone s w) as F5.
  { intros s. unfold gone, w'. simpl. rewrite E3. destruct (scheds w !! s) eqn:Es; [by rewrite (lookup_app_l_Some _ _ _ _ Es)|].
    destruct ((scheds w ++ [new_sched]) !! s) eqn:Es'; [|done]. apply lookup_snoc in Es' as [?|[_ ->]]; [congruence|done]. }
  assert (forall s, (claims s (exitList w') w' <= claims s (exitList w) w + (if Nat.eqb n s then 1 else 0) * walks w)%nat) as F6.
  { intros s. specialize (Hg s). unfold claims, w'. simpl. rewrite E1, E2. fold n.
    pose proof (callers_sum (claim s (exitList w ++ [EDelete n])) _ me _ _ [] Hc) as S2. simpl in S2.
    assert (deletes s [EDelete n] = if Nat.eqb n s then 1 else 0)%nat as E7 by (unfold deletes; rewrite count_cons, count_nil; lia).
    rewrite E7 in Hg. unfold walks. change (sumN (claim s (exitList w ++ [EDelete n])) []) with 0%nat in S2. destruct (Nat.eqb n s); lia. }
  split; [lia|]. intros s. destruct (Hd s) as [Hs Hz]. specialize (F6 s). specialize (F4 s). specialize (F5 s). specialize (F3 s).
  unfold due in *. rewrite F2, F3, F4, F5. assert (length (scheds w') = S n) as -> by (unfold w'; simpl; rewrite E3, length_app; simpl; lia).
  destruct (Nat.eqb_spec n s) as [Hn|Hn].
  - destruct Hz as [Hz Hz']; [fold n; lia|]. rewrite Hz' in *. split; [nia|lia].
  - rewrite Nat.add_0_r in *. split; [lia|]. intros Hl. destruct Hz as [Hz Hz']; [fold n; lia|]. lia.
Qed.

Lemma once_instance w w1 me k : Once w -> callers w !! me = Some (Instance_ :: k) -> cmd_step me Instance_ w = Some (Ret (w1, [])) ->
  Once (set_callers (<[me := [] ++ k]> (callers w1)) w1).
Proof.
  intros Ho Hc Hs. pose proof Ho as [Hw Hd]. cbn [cmd_step] in Hs. unfold getInstance in Hs. destruct (instance_ w) eqn:Ei; simplify_eq.
  { by apply (once_quiet w1 w1 me Instance_ k [] []); rewrite ?app_nil_r. }
  set (n := length (scheds w)). set (w' := set_callers _ _).
  pose proof (callers_sum visits_ _ me _ _ [] Hc) as S1. simpl in S1.
  assert (walks w' = walks w) as F1 by (unfold walks, w'; simpl; unfold sumN in *; simpl in *; lia).
  assert (to_come w' = to_come w) as F2 by (unfold to_come, w'; simpl; rewrite handled_snoc; lia).
  assert (forall s, static_one s w' = (static_one s w + if Nat.eqb n s then 1 else 0)%nat) as F4.
  { intros s. unfold static_one, w'. simpl. rewrite count_app, count_cons, count_nil. fold n. lia. }
  assert (forall s, gone s w' = gone s w) as F5.
  { intros s. unfold gone, w'. simpl. destruct (scheds w !! s) eqn:Es; [by rewrite (lookup_app_l_Some _ _ _ _ Es)|].
    destruct ((scheds w ++ [new_sched]) !! s) eqn:Es'; [|done]. apply lookup_snoc in Es' as [?|[_ ->]]; [congruence|done]. }
  assert (forall s, claims s (exitList w) w' = claims s (exitList w) w) as F6.
  { intros s. unfold claims, w'. simpl. pose proof (callers_sum (claim s (exitList w)) _ me _ _ [] Hc) as S2. unfold sumN in *. simpl in *. lia. }
  split; [lia|]. intros s. destruct (Hd s) as [Hs Hz]. specialize (F6 s). specialize (F4 s). specialize (F5 s).
  unfold due in *. change (exitList w') with (exitList w). rewrite F2, F4, F5, F6.
  assert (length (scheds w') = S n) as -> by (unfold w'; simpl; rewrite length_app; simpl; lia).
  destruct (Nat.eqb_spec n s) as [Hn|Hn].
  - destruct Hz as [Hz Hz']; [fold n; lia|]. split; lia.
  - split; [lia|]. intros Hl. destruct Hz as [Hz Hz']; [fold n; lia|]. split; lia.
Qed.
Lemma last_removelast (h : list handler) x : list.last h = Some x -> h = removelast h ++ [x].
Proof.
  intros Hl. destruct (exists_last (l := h)) as (l & y & ->); [by intros ->|]. rewrite last_snoc in Hl. injection Hl as ->. by rewrite removelast_last.
Qed.
(** The global timer and the destructor. *)
Lemma once_delete w w1 me c k k' : Once w -> callers w !! me = Some (c :: k) -> cmd_step me c w = Some (Ret (w1, k')) ->
  match c with GetTimer _ | Delete _ | Free _ => True | _ => False end ->
  Once (set_callers (<[me := k' ++ k]> (callers w1)) w1).
Proof.
  intros Ho Hc Hs Hk. destruct c; try done; cbn [cmd_step] in Hs; autounfold with life in Hs.
  - assert (Once (set_callers (<[me := [] ++ k]> (callers w)) w)) as Hq by (by apply (once_quiet w w me (GetTimer s) k [] []); rewrite ?app_nil_r).
    call_cases Hs; try done.
    set (e := EStopTimer _ _) in *. apply (once_le _ _ Hq); try done; simpl; [|intros s'; rewrite deletes_app; unfold deletes at 2, count; simpl; lia].
    intros s'. pose proof (claims_grow s' (exitList w) e (<[me := k]> (callers w))) as Hg. unfold due, claims. simpl.
    assert (deletes s' [e] = 0%nat) as E by done. rewrite E in Hg. fold e. rewrite deletes_app, E. unfold to_come, static_one, gone. simpl. lia.
  - simplify_eq. destruct (due_step w (set_flags true (thrown w) w) me (Delete s) k [Stop s; Free s] [] 0 Hc) as [E _]; [by rewrite app_nil_r|].
    apply (once_le w); [done|..]; simpl; try done; [unfold to_come in *; simpl in *; unfold sumN in *; simpl in *; lia|].
    intros s'. destruct (due_step w (set_flags true (thrown w) w) me (Delete s) k [Stop s; Free s] [] s' Hc) as [_ E']; [by rewrite app_nil_r|].
    unfold due, to_come, static_one, gone in *. simpl in *. unfold sumN in *. simpl in *. lia.
  - call_cases Hs. set (w1 := put_sched _ _ _).
    apply (once_le w); [done|..]; simpl; rewrite ?length_insert; try done.
    + destruct (due_step w w1 me (Free s) k [] [] 0 Hc) as [E _]; [by rewrite app_nil_r|]. unfold to_come in *. simpl in *. unfold sumN in *. simpl in *. lia.
    + intros s'. destruct (due_step w w1 me (Free s) k [] [] s' Hc) as [_ E]; [by rewrite app_nil_r|]. unfold due, to_come, static_one, gone in *. simpl in *.
      destruct (Nat.eqb_spec s s') as [Hn|Hn]; [rewrite <- Hn in *|].
      * rewrite list_lookup_insert_eq by by eapply lookup_lt_Some. simpl. unfold sumN in *. simpl in *. lia.
      * rewrite list_lookup_insert_ne by done. unfold sumN in *. simpl in *. lia.
Qed.
(** The end of the program. *)
Lemma once_exit w w1 me c k k' : Once w -> callers w !! me = Some (c :: k) -> cmd_step me c w = Some (Ret (w1, k')) ->
  match c with Exit | ExitAt _ _ | ExitClear => True | _ => False end ->
  Once (set_callers (<[me := k' ++ k]> (callers w1)) w1).
Proof.
  intros Ho Hc Hs Hk. destruct c; try done; cbn [cmd_step] in Hs; autounfold with life in Hs.
  - destruct (list.last (atexit w)) as [h|] eqn:El; simplify_eq; [|by apply (once_quiet w1 w1 me Exit k [] []); rewrite ?app_nil_r].
    apply last_removelast in El. set (w1 := set_exit _ _ _). set (k' := match h with HOnExit => _ | _ => _ end).
    assert (walks w + to_come w = walks w + to_come w1 + match h with HOnExit => 1 | _ => 0 end)%nat as E0.
    { unfold to_come, w1. simpl. rewrite El at 1. rewrite handled_snoc. lia. }
    apply (once_le w); [done|..]; try done.
    + destruct (due_step w w1 me Exit k k' [] 0 Hc) as [E _]; [by rewrite app_nil_r|]. unfold to_come in *. simpl in *. destruct h; unfold sumN in *; simpl in *; lia.
    + intros s'. destruct (due_step w w1 me Exit k k' [] s' Hc) as [_ E]; [by rewrite app_nil_r|].
      assert (static_one s' w = static_one s' w1 + match h with HInstance s => if Nat.eqb s s' then 1 else 0 | _ => 0 end)%nat as E2.
      { unfold static_one, w1. simpl. rewrite El at 1. rewrite count_app, count_cons, count_nil. destruct h; lia. }
      unfold due. rewrite E2. unfold to_come, static_one, gone in *. simpl in *. destruct h; unfold sumN in *; simpl in *; rewrite ?drop_0 in *; nia.
  - destruct (length (exitList w) =? n)%nat eqn:En; cbn [negb] in Hs; [|done].
    assert (exists k2, w1 = w /\ k' = k2 /\ (forall s, sumN (claim s (exitList w)) k2 = deletes s (drop i (exitList w))) /\ (sumN visits_ k2 <= 1)%nat) as (k2 & -> & -> & H1 & H2).
    { destruct (exitList w !! i) as [[s|tm t]|] eqn:Ei; simplify_eq; eexists; (split; [done|]); (split; [done|]).
      - rewrite (drop_S _ _ _ Ei). unfold sumN, deletes. cbn [foldr claim visits_]. unfold deletes. split; [intros s'; rewrite count_cons; lia|lia].
      - rewrite (drop_S _ _ _ Ei). unfold sumN, deletes. cbn [foldr claim visits_]. unfold deletes. split; [intros s'; rewrite count_cons; lia|lia].
      - apply lookup_ge_None in Ei. rewrite drop_ge by done. unfold sumN, deletes. simpl. split; [done|lia]. }
    apply (once_le w); [done|..]; try done.
    + destruct (due_step w w me (ExitAt i n) k k2 [] 0 Hc) as [E _]; [by rewrite app_nil_r|]. unfold to_come in *. unfold sumN in *. simpl in *. lia.
    + intros s'. destruct (due_step w w me (ExitAt i n) k k2 [] s' Hc) as [_ E]; [by rewrite app_nil_r|]. specialize (H1 s').
      unfold due, to_come, static_one, gone in *. unfold sumN in *. simpl in *. lia.
  - simplify_eq. set (w1 := set_exit _ _ _).
    assert (forall s l c, (claim s [] c <= claim s l c)%nat) as Hle.
    { intros s l c. destruct c; simpl; try lia. rewrite drop_nil. unfold deletes at 1. rewrite count_nil. lia. }
    apply (once_le w); [done|..]; try done.
    + destruct (due_step w w1 me ExitClear k [] [] 0 Hc) as [E _]; [by rewrite app_nil_r|]. unfold to_come in *. simpl in *. unfold sumN in *; simpl in *; lia.
    + intros s. destruct (due_step w w1 me ExitClear k [] [] s Hc) as [_ E]; [by rewrite app_nil_r|].
      assert (claims s [] w <= claims s (exitList w) w)%nat by (unfold claims; apply sumN_le; intros l; apply sumN_le; intros c; apply Hle).
      unfold due, to_come, static_one, gone in *. simpl in *. change (deletes s []) with 0%nat. unfold sumN in *. simpl in *. lia.
    + intros s. simpl. change (deletes s []) with 0%nat. lia.
Qed.

Lemma caller_keeps_once me w w' : Once w -> caller_step me w = Some (Ret w') -> Once w'.
Proof.
  intros Ho Hs. unfold caller_step in Hs. destruct (callers w !! me) as [[|c k]|] eqn:Ec; [done| |done].
  destruct (cmd_step me c w) as [r|] eqn:Er; [|done]. injection Hs as Hs. apply res_bind_inv in Hs as ([w1 k'] & -> & Hs). simplify_eq.
  destruct (listless c) eqn:El.
  - destruct (listless_frame me c w w1 k' El Er) as ((cs & Hcs & Hq) & He & Ha & Hi & Hn & Hg & Hk).
    apply (once_quiet w w1 me c k k' cs); try done. by destruct c.
  - destruct c; try done; try (by eapply (once_exit w)); try (by eapply (once_delete w)).
    + assert (k' = []) as -> by (by calls Er). by apply (once_create w).
    + assert (k' = []) as -> by (by calls Er). by apply (once_instance w).
Qed.
Lemma thread_step_frame t w w' : thread_step t w = Some (Ret w') ->
  exitList w' = exitList w /\ atexit w' = atexit w /\ ignore w' = ignore w /\ scheds w' = scheds w /\ callers w' = callers w /\
  tasks w' = tasks w /\ idFactory w' = idFactory w.
Proof.
  intros Hs. unfold thread_step in Hs. destruct (threads w !! t) as [[b e]|] eqn:Et; [|done]. destruct e; [done|].
  destruct b as [s|tm|s|s]; call_cases Hs; bind_inv; simplify_eq; repeat case_if; done.
Qed.
Lemma thread_keeps_once t w w' : Once w -> thread_step t w = Some (Ret w') -> Once w'.
Proof.
  intros Ho (E1 & E2 & E3 & E4 & E5 & _)%thread_step_frame. apply (once_le w); [done|..]; rewrite ?E1, ?E4; try done.
  - unfold walks, to_come. by rewrite E2, E3, E5.
  - intros s. unfold due, claims, to_come, static_one, gone. by rewrite E1, E2, E3, E4, E5.
Qed.
(** What no client calls weighs nothing at first. *)
Lemma client_sum calls f : Forall (Forall (fun c => client c = true)) calls -> (forall c, client c = true -> f c = 0%nat) -> sumN (sumN f) calls = 0%nat.
Proof.
  intros Hc Hf. unfold sumN at 1. induction Hc as [|k calls Hk Hcs IH]; simpl; [done|]. rewrite IH.
  unfold sumN. induction Hk as [|c k Hk1 Hk2 IH2]; simpl; [done|]. rewrite Hf by done. lia.
Qed.
Lemma live_once w : live w -> Once w.
Proof.
  apply reachable_inv.
  - intros w0 (calls & Hc & ->).
    pose proof (fun f => client_sum calls f Hc) as Hz.
    split; [unfold walks, to_come; simpl; rewrite Hz; [done|by intros []]|]. intros s.
    assert (due s (initial calls) = 0%nat) as -> by (unfold due, claims, to_come, static_one, gone; simpl; rewrite Hz; [done|by intros []]).
    split; [lia|done].
  - intros w1 w2 Hi [[me|t] w' Hs]; [by eapply caller_keeps_once|by eapply thread_keeps_once].
Qed.

(** Each scheduler is deleted at most once: whoever is about to delete one, in [onExit] or as the
    destructor of the static one, finds it alive, and nothing else will delete it. *)
Theorem deleted_once w me l i s : live w -> callers w !! me = Some l -> l !! i = Some (Delete s) \/ l !! i = Some (Free s) ->
  (exists x, scheds w !! s = Some x /\ alive x = true) /\ claims s (exitList w) w = 1%nat /\ (to_come w * deletes s (exitList w) = 0)%nat /\ static_one s w = 0%nat.
Proof.
  intros [_ Hd]%live_once Hl Hi. destruct (Hd s) as [Hs Hz].
  assert (1 <= claims s (exitList w) w)%nat as H1.
  { assert (exists c, l !! i = Some c /\ claim s (exitList w) c = 1%nat) as (c & Hc & E) by (destruct Hi as [->| ->]; eexists; (split; [done|]); simpl; by rewrite Nat.eqb_refl).
    pose proof (sumN_lower (claim s (exitList w)) l i c Hc). pose proof (sumN_lower (sumN (claim s (exitList w))) _ me l Hl). unfold claims. lia. }
  unfold due in *. assert (gone s w = 0%nat) as Hg by lia. split; [|lia]. unfold gone in Hg. destruct (scheds w !! s) as [x|] eqn:Ex.
  - exists x. split; [done|]. by destruct (alive x).
  - apply lookup_ge_None in Ex. destruct (Hz Ex) as [Hz1 _]. lia.
Qed.

(** ** What goes wrong *)

Lemma play_reaches l w0 w w' : play l w = Some (Ret w') -> rtc Step w0 w -> rtc Step w0 w'.
Proof.
  revert w. induction l as [|m l IH]; intros w Hp Hr; simpl in Hp; [by injection Hp as <-|].
  destruct (step m w) as [[w1| |]|] eqn:E; try done. apply (IH w1); [done|]. eapply rtc_r; [exact Hr|]. by apply (s_step w m w1).
Qed.
Definition me (n : nat) : list move := replicate n (MCaller 0).

(** [Stop] of a scheduler whose alone timer never ran waits for ever, and so does its destructor. *)
Definition unstarted : world := initial [[Create; UseAlone 0; Exit]].
Definition hung (w : world) : Prop :=
  threads w = [] /\ (exists k, callers w = [TimerStop 0 :: k]) /\ exists p q, timers w = [mkTimer p q] /\ Quit.stop_thread q = Quit.SWait.
Theorem stop_unstarted_hangs : exists w, rtc Step unstarted w /\ hung w /\ forall w', ~ Step w w'.
Proof.
  destruct (play (me 12) unstarted) as [[w| |]|] eqn:E; [|vm_compute in E; discriminate..].
  exists w. split; [apply (play_reaches (me 12) _ unstarted); [exact E|apply rtc_refl]|]. vm_compute in E. injection E as <-.
  split; [split; [done|]; split; [by eexists|by do 2 eexists]|].
  intros w' [[[|me']|t] w1 Hs]; vm_compute in Hs; done.
Qed.
(** A scheduler that runs uses a timer of its own a second time: the thread of the first is destroyed while it
    can be joined. *)
Theorem use_twice_terminates : play (me 10) (initial [[Create; Start true 0 1 1 1; UseAlone 0; UseAlone 0]]) = Some terminate.
Proof. vm_compute. reflexivity. Qed.
(** [Start] after [Stop]: the threads are never joined, and the destructor ends the program. *)
Theorem restart_terminates : play (me 18) (initial [[Create; Stop 0; Start true 0 1 2 1; Exit]]) = Some terminate.
Proof. vm_compute. reflexivity. Qed.
(** [UseAloneTimerThread] tries the lock [started_] to look at it: a first [Start] meanwhile throws. *)
Theorem start_throws_while_looked_at : exists w,
  play [MCaller 0; MCaller 0; MCaller 1; MCaller 0; MCaller 0] (initial [[Create; UseAlone 0]; [Start true 0 1 1 1]]) = Some (Ret w) /\
  thrown w = [0%nat] /\ callers w = [[]; []] /\ exists x, scheds w !! 0%nat = Some x /\ started_ x = false.
Proof. eexists. split; [vm_compute; reflexivity|]. split; [done|]. split; [done|]. by eexists. Qed.
(** The threads of the processors are never joined: [onExit] frees the scheduler whose [stop_] they read. *)
Theorem processor_outlives_scheduler : exists w, play (me 12 ++ [MThread 1] ++ me 4) (initial [[Create; Start true 0 2 1 1; Exit]]) = Some (Ret w) /\
  threads w !! 0%nat = Some (mkThread (Process 0) false) /\ thread_step 0 w = Some AssertFail.
Proof. eexists. split; [vm_compute; reflexivity|]. split; reflexivity. Qed.
(** [onExit] walks the list without its mutex: a scheduler made meanwhile moves the list under it. *)
Theorem create_during_exit : play [MCaller 0; MCaller 0; MCaller 1; MCaller 0] (initial [[Create; Exit]; [Create]]) = Some AssertFail.
Proof. vm_compute. reflexivity. Qed.

(** ** The count of the tasks *)

Definition of_sched (s : nat) (y : nat * nat) : bool := Nat.eqb y.1 s.
Definition counting_down (s : nat) (c : cmd) : nat := match c with CountDown s' => if Nat.eqb s' s then 1 else 0 | _ => 0 end.
Definition expected (s : nat) (w : world) : nat := (count (of_sched s) (tasks w) + sumN (sumN (counting_down s)) (callers w))%nat.
Record Counted (w : world) : Prop := mkCounted {
  counted : forall s x, scheds w !! s = Some x -> taskCount_ x = u32 (Z.of_nat (expected s w));
  ids_fresh : NoDup (tasks w) /\ Forall (fun y => y.2 <= idFactory w)%nat (tasks w);
  none_later : forall s, scheds w !! s = None -> expected s w = 0%nat }.
(** What every other call leaves. *)
Definition uncounted (w w1 : world) (k' : list cmd) : Prop :=
  tasks w1 = tasks w /\ idFactory w1 = idFactory w /\
  (forall s, sumN (counting_down s) k' = 0%nat) /\
  (exists cs, callers w1 = callers w ++ cs /\ forall s, sumN (sumN (counting_down s)) cs = 0%nat) /\
  (forall s x', scheds w1 !! s = Some x' -> match scheds w !! s with Some x => taskCount_ x' = taskCount_ x | None => taskCount_ x' = 0 end) /\
  (forall s, scheds w1 !! s = None -> scheds w !! s = None).
Lemma uncounted_same w w1 k' : tasks w1 = tasks w -> idFactory w1 = idFactory w -> callers w1 = callers w -> scheds w1 = scheds w ->
  (forall s, sumN (counting_down s) k' = 0%nat) -> uncounted w w1 k'.
Proof.
  intros Ht Hi Hc Hs Hk. split_and!; try done; [exists []; by rewrite app_nil_r| |by rewrite Hs]. intros s x'. rewrite Hs. by intros ->.
Qed.
Lemma uncounted_put w w1 k' s x x' : scheds w !! s = Some x -> taskCount_ x' = taskCount_ x -> scheds w1 = <[s := x']> (scheds w) ->
  tasks w1 = tasks w -> idFactory w1 = idFactory w -> callers w1 = callers w ->
  (forall s, sumN (counting_down s) k' = 0%nat) -> uncounted w w1 k'.
Proof.
  intros Hx Hn Hs Ht Hi Hc Hk. split_and!; try done; [exists []; by rewrite app_nil_r|..]; rewrite Hs.
  - intros s' y [(-> & <- & _)|[_ Hy]]%list_lookup_insert_Some; [by rewrite Hx|by rewrite Hy].
  - intros s' Hn'%lookup_ge_None. rewrite length_insert in Hn'. by apply lookup_ge_None.
Qed.
Lemma uncounted_sched w w1 : tasks w1 = tasks w -> idFactory w1 = idFactory w -> callers w1 = callers w ->
  scheds w1 = scheds w ++ [new_sched] -> uncounted w w1 [].
Proof.
  intros Ht Hi Hc Hs. split_and!; try done; [exists []; by rewrite app_nil_r|..]; rewrite Hs; intros s.
  - intros x' [Hx|[-> ->]]%lookup_snoc; [by rewrite Hx|]. by rewrite lookup_ge_None_2.
  - intros Hn%lookup_ge_None. rewrite length_app in Hn. apply lookup_ge_None. lia.
Qed.
Ltac uncount := first
  [ apply uncounted_same; [reflexivity..|done]
  | eapply uncounted_put; [eassumption|..]; [|reflexivity|..]; [reflexivity..|done] ].
Lemma cmd_uncounted me c w w1 k' : cmd_step me c w = Some (Ret (w1, k')) ->
  match c with CreateTask _ | DeleteTask _ _ | CountDown _ => True | _ => uncounted w w1 k' end.
Proof.
  intros Hs. destruct c; try done; calls Hs; try uncount.
  - apply uncounted_sched; unfold InitOnExit; simpl; by destruct (ignore w).
  - by apply uncounted_sched.
  - split_and!; try done; [by eexists|]. intros s' x' Hx. simpl in Hx. by rewrite Hx.
  - apply uncounted_same; try reflexivity. by destruct (timer_ x).
  - apply uncounted_same; try reflexivity. by destruct h.
Qed.
Lemma u32_step n d : u32 (u32 (Z.of_nat n) + d) = u32 (Z.of_nat n + d).
Proof. unfold u32, wrap. by rewrite Zplus_mod_idemp_l. Qed.
Lemma count_remove s y (l : list (nat * nat)) : NoDup l -> y ∈ l ->
  (count (of_sched s) (filter (fun z => z <> y) l) + (if Nat.eqb y.1 s then 1 else 0) = count (of_sched s) l)%nat.
Proof.
  induction 1 as [|z l Hz Hl IH]; intros Hy; [by apply elem_of_nil in Hy|]. rewrite filter_cons. case_decide as Hd.
  - rewrite !count_cons. apply elem_of_cons in Hy as [->|Hy]; [done|]. specialize (IH Hy). lia.
  - assert (z = y) as -> by (destruct (decide (z = y)); [done|by destruct Hd]). rewrite count_cons.
    assert (filter (fun z => z <> y) l = l) as ->; [|unfold of_sched; lia].
    clear -Hz. induction l as [|x l IH]; [done|]. rewrite filter_cons. apply not_elem_of_cons in Hz as [Hn Hz]. rewrite decide_True by done. by rewrite IH.
Qed.
(** A call that counts one task more or less of [s]. *)
Lemma counted_put w w' s x : Counted w -> scheds w !! s = Some x -> scheds w' = <[s := with_count (u32 (taskCount_ x + (Z.of_nat (expected s w') - Z.of_nat (expected s w)))) x]> (scheds w) ->
  (forall s', s' <> s -> expected s' w' = expected s' w) -> NoDup (tasks w') /\ Forall (fun y => y.2 <= idFactory w')%nat (tasks w') -> Counted w'.
Proof.
  intros [Hct _ Hnl] Hx Hs He Hids. split; [|done|]; rewrite Hs.
  - intros s' x' [(-> & <- & _)|[Hn Hy]]%list_lookup_insert_Some; [|rewrite He by done; by apply Hct].
    simpl. rewrite (Hct _ _ Hx), u32_step. do 2 f_equal. lia.
  - intros s' Hn%lookup_ge_None. rewrite length_insert in Hn. apply lookup_lt_Some in Hx. rewrite He by lia. apply Hnl, lookup_ge_None. done.
Qed.
Lemma caller_keeps_counted me w w' : Counted w -> caller_step me w = Some (Ret w') -> Counted w'.
Proof.
  intros [Hct Hids Hnl] Hs. unfold caller_step in Hs. destruct (callers w !! me) as [[|c k]|] eqn:Ec; [done| |done].
  destruct (cmd_step me c w) as [r|] eqn:Er; [|done]. injection Hs as Hs. apply res_bind_inv in Hs as ([w1 k'] & -> & Hs). simplify_eq.
  pose proof (fun s k' => callers_sum (counting_down s) _ me c k k' Ec) as Hsum.
  destruct (match c with CreateTask _ | DeleteTask _ _ | CountDown _ => false | _ => true end) eqn:Hc.
  - assert (uncounted w w1 k') as (Ht & Hi & Hk & (cs & Hcs & Hz) & Hsc & Hn) by (pose proof (cmd_uncounted me c w w1 k' Er); by destruct c).
    assert (forall s, expected s (set_callers (<[me := k' ++ k]> (callers w1)) w1) = expected s w) as He.
    { intros s. unfold expected. simpl. rewrite Ht, Hcs, insert_app_l by (by eapply lookup_lt_Some). rewrite sumN_app, Hz.
      specialize (Hsum s k'). rewrite Hk in Hsum. assert (counting_down s c = 0%nat) by (by destruct c). lia. }
    split.
    + intros s x' Hx'. rewrite He. simpl in Hx'. specialize (Hsc s x' Hx'). destruct (scheds w !! s) as [x|] eqn:Ex; rewrite Hsc; [by apply Hct|].
      by rewrite Hnl.
    + simpl. by rewrite Ht, Hi.
    + intros s Hs. rewrite He. by apply Hnl, Hn.
  - destruct c; try done; calls Er.
    + set (w' := set_callers _ _).
      assert (forall s', expected s' w' = (expected s' w + if Nat.eqb s s' then 1 else 0)%nat) as He.
      { intros s'. unfold expected. simpl. rewrite count_app, count_cons, count_nil. unfold of_sched at 2. simpl.
        specialize (Hsum s' []). unfold sumN in *. simpl in *. lia. }
      apply (counted_put w w' s x); [by split|done|..]; simpl.
      * rewrite He, Nat.eqb_refl. do 3 f_equal. lia.
      * intros s' Hn. rewrite He. destruct (Nat.eqb_spec s s'); [congruence|lia].
      * destruct Hids as [Hn Hf]. split.
        -- apply NoDup_app. split; [done|]. split; [|apply NoDup_singleton]. intros y Hy ->%list_elem_of_singleton.
           rewrite Forall_forall in Hf. apply Hf in Hy. simpl in Hy. lia.
        -- apply Forall_app. split; [|by repeat constructor]. eapply Forall_impl; [exact Hf|]. simpl. lia.
    + match goal with H : bool_decide _ = true |- _ => apply bool_decide_eq_true in H as Hin end. set (w' := set_callers _ _). destruct Hids as [Hn Hf].
      assert (forall s', expected s' w' = expected s' w) as He.
      { intros s'. unfold expected. simpl. pose proof (count_remove s' (s, id) (tasks w) Hn Hin) as E. simpl in E.
        specialize (Hsum s' [CountDown s]). unfold sumN in *. simpl in *. destruct (Nat.eqb s s'); lia. }
      split; [intros s' x'; rewrite He; apply Hct| |intros s'; rewrite He; apply Hnl]. simpl. split; [by apply NoDup_filter|].
      apply Forall_forall. intros y [_ Hy]%list_elem_of_filter. rewrite Forall_forall in Hf. by apply Hf.
    + set (w' := set_callers _ _).
      assert (forall s', (expected s' w' + if Nat.eqb s s' then 1 else 0) = expected s' w)%nat as He.
      { intros s'. unfold expected. simpl. specialize (Hsum s' []). unfold sumN in *. simpl in *. destruct (Nat.eqb s s'); lia. }
      apply (counted_put w w' s x); [by split|done|..]; simpl; [|intros s' Hn; specialize (He s'); destruct (Nat.eqb_spec s s'); [congruence|lia]|done].
      specialize (He s). rewrite Nat.eqb_refl in He. do 3 f_equal. lia.
Qed.
Lemma thread_keeps_counted t w w' : Counted w -> thread_step t w = Some (Ret w') -> Counted w'.
Proof.
  intros [Hct Hids Hnl] Hs. assert (tasks w' = tasks w /\ idFactory w' = idFactory w /\ scheds w' = scheds w /\ callers w' = callers w) as (E1 & E2 & E3 & E4)
    by (apply thread_step_frame in Hs; naive_solver).
  split; unfold expected; by rewrite ?E1, ?E2, ?E3, ?E4.
Qed.
Lemma live_counted w : live w -> Counted w.
Proof.
  apply reachable_inv.
  - intros w0 (calls & Hc & ->). split; [done|by split; constructor|]. intros s _. unfold expected. simpl. by apply client_sum; [|intros []].
  - intros w1 w2 Hi [[me|t] w' Hs]; [by eapply caller_keeps_counted|by eapply thread_keeps_counted].
Qed.

(** [taskCount_] is the number of the tasks of the scheduler that are not deleted, and of those that have just
    been deleted and are not yet taken off, in 32 bits. *)
Theorem tasks_counted w s x : live w -> scheds w !! s = Some x -> TaskCount x = u32 (Z.of_nat (expected s w)).
Proof. intros [Hct _ _]%live_counted. apply Hct. Qed.
(** With fewer than 2^32 of them, [IsEmpty] says that none is left. *)
Theorem empty_means_none w s x : live w -> scheds w !! s = Some x -> Z.of_nat (expected s w) < 2 ^ 32 -> IsEmpty x = true ->
  forall id, (s, id) ∉ tasks w.
Proof.
  intros [Hct _ _]%live_counted Hx Hlt He id Hin. unfold IsEmpty in He. apply Z.eqb_eq in He. rewrite (Hct s x Hx) in He.
  unfold u32, wrap in He. rewrite Z.mod_small in He by lia. unfold expected in He.
  apply list_elem_of_lookup in Hin as [i Hi]. assert (0 < count (of_sched s) (tasks w))%nat; [|lia].
  apply count_pos. exists i, (s, id). split; [done|]. unfold of_sched. apply Nat.eqb_refl.
Qed.

(** ** The join of the dispatcher *)

Definition joins (s : nat) (c : cmd) : nat := match c with JoinDispatcher s' => if Nat.eqb s' s then 1 else 0 | _ => 0 end.
Definition stopping (s : nat) (w : world) : Prop := exists x, scheds w !! s = Some x /\ stop_ x = true.
Record Joined (w : world) : Prop := mkJoined {
  joined_stop : forall s, (0 < sumN (sumN (joins s)) (callers w))%nat -> stopping s w;
  joined_thread : forall s x t, scheds w !! s = Some x -> dispatchThread_ x = Some t -> exists e, threads w !! t = Some (mkThread (Dispatcher s) e) }.
(** What the calls do to these. *)
Definition joinable (w w1 : world) (k' : list cmd) : Prop :=
  (forall s, stopping s w -> stopping s w1) /\
  (forall s, (0 < sumN (joins s) k')%nat -> stopping s w1) /\
  (exists cs, callers w1 = callers w ++ cs /\ forall s, sumN (sumN (joins s)) cs = 0%nat) /\
  (exists ts, threads w1 = threads w ++ ts) /\
  (forall s x' t, scheds w1 !! s = Some x' -> dispatchThread_ x' = Some t ->
    (exists x, scheds w !! s = Some x /\ dispatchThread_ x = Some t) \/ threads w1 !! t = Some (mkThread (Dispatcher s) false)).
Lemma joinable_same w w1 k' : callers w1 = callers w -> scheds w1 = scheds w -> (exists ts, threads w1 = threads w ++ ts) ->
  (forall s, sumN (joins s) k' = 0%nat) -> joinable w w1 k'.
Proof.
  intros Hc Hs Ht Hk. split_and!; try done; [unfold stopping; by rewrite Hs|intros s; rewrite Hk; lia|exists []; by rewrite app_nil_r|].
  rewrite Hs. eauto.
Qed.
Lemma joinable_put w w1 k' s x x' : scheds w !! s = Some x -> stop_ x' = (stop_ x || stop_ x')%bool -> scheds w1 = <[s := x']> (scheds w) ->
  dispatchThread_ x' = dispatchThread_ x \/ dispatchThread_ x' = None \/
    (exists t, dispatchThread_ x' = Some t /\ threads w1 !! t = Some (mkThread (Dispatcher s) false)) ->
  (exists ts, threads w1 = threads w ++ ts) -> callers w1 = callers w ->
  (forall s', (0 < sumN (joins s') k')%nat -> s' = s /\ stop_ x' = true) -> joinable w w1 k'.
Proof.
  intros Hx Hst Hs Hd Ht Hc Hk. assert (scheds w1 !! s = Some x') as Hx' by (rewrite Hs; apply list_lookup_insert_eq; by eapply lookup_lt_Some).
  split_and!; try done.
  - intros s' (y & Hy & Hsy). destruct (decide (s' = s)) as [->|Hn].
    + rewrite Hx in Hy. simplify_eq. exists x'. split; [done|]. rewrite Hst, Hsy. done.
    + exists y. by rewrite Hs, list_lookup_insert_ne.
  - intros s' [-> Hst']%Hk. by exists x'.
  - exists []. by rewrite app_nil_r.
  - rewrite Hs. intros s' y t [(-> & <- & _)|[Hn Hy]]%list_lookup_insert_Some Hdt; [|eauto].
    destruct Hd as [E|[E|(t' & E & Ht')]]; rewrite E in Hdt; [eauto|done|]. simplify_eq. by right.
Qed.
Lemma joinable_sched w w1 : callers w1 = callers w -> threads w1 = threads w -> scheds w1 = scheds w ++ [new_sched] -> joinable w w1 [].
Proof.
  intros Hc Ht Hs. split_and!.
  - intros s (y & Hy & Hsy). exists y. by rewrite Hs, (lookup_app_l_Some _ _ _ _ Hy).
  - unfold sumN. simpl. lia.
  - exists []. by rewrite app_nil_r.
  - exists []. by rewrite app_nil_r.
  - rewrite Hs. intros s x' t [Hx|[-> ->]]%lookup_snoc; [eauto|done].
Qed.
Ltac no_join := first [by exists []; rewrite app_nil_r | by eexists].
Ltac join := first
  [ apply joinable_same; [reflexivity..|no_join|done]
  | eapply joinable_put; [eassumption|..]; [|reflexivity|..];
      [by destruct (stop_ _)|first [by left|by right; left]|no_join|reflexivity|unfold sumN; simpl; intros; lia] ].
Lemma cmd_joinable me c w w1 k' : cmd_step me c w = Some (Ret (w1, k')) -> joinable w w1 k'.
Proof.
  intros Hs. destruct c; try done; calls Hs; try join.
  - apply joinable_sched; unfold InitOnExit; simpl; by destruct (ignore w).
  - by apply joinable_sched.
  - eapply joinable_put; [exact Hx| |reflexivity|..]; [simpl; by destruct (stop_ x)| |no_join|done|unfold sumN; simpl; lia]. right. right. eexists. split; [done|].
    by apply list_lookup_middle.
  - split_and!; try done; [unfold sumN; simpl; lia|by eexists|no_join|eauto].
  - eapply joinable_put; [exact Hx| |reflexivity|..]; [simpl; by rewrite orb_true_r|by left|no_join|done|].
    intros s'. unfold sumN. simpl. destruct (Nat.eqb_spec s s'); [done|lia].
  - apply joinable_same; [done|done|no_join|]. by destruct (timer_ x).
  - apply joinable_same; [done|done|no_join|]. by destruct h.
Qed.
Lemma caller_keeps_joined me w w' : Joined w -> caller_step me w = Some (Ret w') -> Joined w'.
Proof.
  intros [Hst Hth] Hs. unfold caller_step in Hs. destruct (callers w !! me) as [[|c k]|] eqn:Ec; [done| |done].
  destruct (cmd_step me c w) as [r|] eqn:Er; [|done]. injection Hs as Hs. apply res_bind_inv in Hs as ([w1 k'] & -> & Hs). simplify_eq.
  destruct (cmd_joinable me c w w1 k' Er) as (Hup & Hk & (cs & Hcs & Hz) & (ts & Hts) & Hd). split; simpl.
  - intros s Hpos. rewrite Hcs, insert_app_l, sumN_app, Hz in Hpos by (by eapply lookup_lt_Some).
    pose proof (callers_sum (joins s) _ me c k k' Ec) as E.
    destruct (decide (0 < sumN (joins s) k')%nat) as [Hj|Hj]; [by apply Hk|]. apply Hup, Hst. lia.
  - intros s x t Hx Ht. destruct (Hd s x t Hx Ht) as [(y & Hy & Hyt)|Hnew]; [|by eexists].
    destruct (Hth s y t Hy Hyt) as [e He]. exists e. rewrite Hts. by apply lookup_app_l_Some.
Qed.
Lemma thread_keeps_joined t w w' : Joined w -> thread_step t w = Some (Ret w') -> Joined w'.
Proof.
  intros [Hst Hth] Hs. pose proof (thread_step_frame t w w' Hs) as (_ & _ & _ & E1 & E2 & _).
  split; rewrite ?E1, ?E2; unfold stopping; rewrite ?E1; [done|]. intros s x t' Hx Ht. destruct (Hth s x t' Hx Ht) as [e He].
  unfold thread_step in Hs. destruct (threads w !! t) as [[b e']|] eqn:Et; [|done]. destruct e'; [done|].
  destruct (decide (t' = t)) as [->|Hn].
  - assert (b = Dispatcher s) as -> by congruence. call_cases Hs. case_if; simpl; [|by eexists].
    rewrite list_lookup_insert_eq by (by eapply lookup_lt_Some). by eexists.
  - exists e. destruct b; call_cases Hs; bind_inv; simplify_eq; repeat case_if; simpl; first [done|by rewrite list_lookup_insert_ne].
Qed.
Lemma live_joined w : live w -> Joined w.
Proof.
  apply reachable_inv.
  - intros w0 (calls & Hc & ->). split; simpl; [|done]. intros s. rewrite (client_sum calls); [lia|done|intros []; done].
  - intros w1 w2 Hi [[me|t] w' Hs]; [by eapply caller_keeps_joined|by eapply thread_keeps_joined].
Qed.

(** [Stop] never waits for ever for the dispatcher: when it has come to that join, one step of the dispatcher
    and one of its own are left, whatever else happens. *)
Theorem stop_joins_dispatcher w me s k x : live w -> callers w !! me = Some (JoinDispatcher s :: k) -> scheds w !! s = Some x -> alive x = true ->
  stop_ x = true /\
  exists w', caller_step me w = Some (Ret w') /\ callers w' !! me = Some k \/
    exists t w1, dispatchThread_ x = Some t /\ thread_step t w = Some (Ret w1) /\ caller_step me w1 = Some (Ret w') /\ callers w' !! me = Some k.
Proof.
  intros [Hst Hth]%live_joined Hc Hx Ha. assert (me < length (callers w))%nat as Hme by (by eapply lookup_lt_Some).
  assert (stop_ x = true) as Hs.
  { destruct (Hst s) as (y & Hy & ?); [|congruence]. pose proof (sumN_lower (sumN (joins s)) _ me _ Hc) as E. unfold sumN in *. simpl in E.
    rewrite Nat.eqb_refl in E. lia. }
  split; [done|]. pose proof (proj2 (get_sched_ret s w x) (conj Hx Ha)) as Hg.
  assert (forall w1, callers w1 = callers w -> get_sched s w1 = Ret x -> (forall t, dispatchThread_ x = Some t -> thread_ended t w1 = true) ->
    exists w', caller_step me w1 = Some (Ret w') /\ callers w' !! me = Some k) as Hgo.
  { intros w1 E Hg1 Hend. unfold caller_step. rewrite E, Hc. cbn [cmd_step]. unfold join_dispatcher. rewrite Hg1.
    destruct (dispatchThread_ x) as [t|]; [rewrite Hend by done|]; eexists; (split; [reflexivity|]); simpl; rewrite E; by apply list_lookup_insert_eq. }
  destruct (dispatchThread_ x) as [t|] eqn:Ed; [|destruct (Hgo w) as [w' ?]; [done..|]; exists w'; by left].
  destruct (Hth s x t Hx Ed) as [e He]. destruct e.
  { destruct (Hgo w) as [w' ?]; [done|done|intros t' [= <-]; unfold thread_ended; by rewrite He|]. exists w'. by left. }
  assert (thread_step t w = Some (Ret (end_thread t (Dispatcher s) w))) as Hstep by (unfold thread_step; rewrite He, Hg; simpl; by rewrite Hs).
  destruct (Hgo (end_thread t (Dispatcher s) w)) as [w' [H1 H2]]; [done|done| |exists w'; right; by exists t, (end_thread t (Dispatcher s) w)].
  intros t' [= <-]. unfold thread_ended. simpl. rewrite list_lookup_insert_eq by (by eapply lookup_lt_Some). done.
Qed.

(** ** Examples *)

Definition played (l : list move) (calls : list (list cmd)) : world := match play l (initial calls) with Some (Ret w) => w | _ => initial [] end.
Lemma played_live l calls : Forall (Forall (fun c => client c = true)) calls -> live (played l calls).
Proof.
  intros Hc. unfold played. destruct (play l (initial calls)) as [[w| |]|] eqn:E;
    try (exists (initial []); split; [by exists []|apply rtc_refl]).
  exists (initial calls). split; [by exists calls|]. by apply (play_reaches l _ (initial calls)), rtc_refl.
Qed.
Definition outlived : world := played (me 12 ++ [MThread 1] ++ me 4) [[Create; Start true 0 2 1 1; Exit]].
(** A scheduler about to be freed; one that waits for its dispatcher; one with a task. *)
Definition leaving : world := played (me 12 ++ [MThread 1] ++ me 3) [[Create; Start true 0 2 1 1; Exit]].
Lemma deleted_once_witness :
  (exists x, scheds leaving !! 0%nat = Some x /\ alive x = true) /\ claims 0 (exitList leaving) leaving = 1%nat /\
  (to_come leaving * deletes 0 (exitList leaving) = 0)%nat /\ static_one 0 leaving = 0%nat.
Proof.
  apply (deleted_once leaving 0 [Free 0; ExitAt 1 1; Exit] 0 0); [apply played_live; by repeat constructor|vm_compute; reflexivity|right; reflexivity].
Defined.
Definition joining : world := played (me 9) [[Create; Start true 0 2 1 1; Stop 0]].
Lemma stop_joins_dispatcher_witness : exists k x, scheds joining !! 0%nat = Some x /\ callers joining !! 0%nat = Some (JoinDispatcher 0 :: k) /\
  stop_ x = true /\ exists w', caller_step 0 joining = Some (Ret w') /\ callers w' !! 0%nat = Some k \/
    exists t w1, dispatchThread_ x = Some t /\ thread_step t joining = Some (Ret w1) /\ caller_step 0 w1 = Some (Ret w') /\ callers w' !! 0%nat = Some k.
Proof.
  eexists _, _. split; [vm_compute; reflexivity|]. split; [vm_compute; reflexivity|].
  apply (stop_joins_dispatcher joining 0 0 _ _); [apply played_live; by repeat constructor|vm_compute; reflexivity|vm_compute; reflexivity|reflexivity].
Defined.
Definition busy : world := played (me 3) [[Create; CreateTask 0; CreateTask 0]].
Lemma tasks_counted_witness : exists x, scheds busy !! 0%nat = Some x /\ expected 0 busy = 2%nat /\ TaskCount x = u32 (Z.of_nat (expected 0 busy)).
Proof.
  eexists. split; [vm_compute; reflexivity|]. split; [vm_compute; reflexivity|].
  apply (tasks_counted busy 0 _); [apply played_live; by repeat constructor|vm_compute; reflexivity].
Defined.
