(* ===== verification/LocalStorage.v ===== *)
(** [any] of [src/common/inc/any.h], a variable of any type, and the storage local to a coroutine of
    [src/processor/CoLocalStorage.h] over it.

    A value is a number with the number of its type; its constructors may throw.  An [any] points to a
    holder on the heap: deleting one that is not there, or following such a pointer, is [AssertFail]. *)
From S2P Require Import Prelude.
Local Open Scope Z_scope.

(** The type and the value; [None] of a type is [typeid(void)]. *)
Definition value : Type := nat * Z.
Definition bad_any_cast : nat := 1.

(** ** [any] *)

Section any.
Context {K : Type} `{Countable K}.
(** The holders by their address, and the [content] of each variable. *)
Record world := mkWorld { holders : gmap nat value; next : nat; vars : gmap K (option nat) }.
Definition M (A : Type) : Type := st world A.
Definition get_content (v : K) : M (option nat) := fun w => c ← deref (vars w !! v); Ret (w, c).
Definition set_content (v : K) (c : option nat) : M unit := modify (fun w => mkWorld (holders w) (next w) (<[v := c]> (vars w))).
(** [new holder(...)]: [None]: the constructor of the value threw. *)
Definition new_holder (ok : bool) (x : value) : M (option nat) := fun w =>
  if ok then Ret (mkWorld (<[next w := x]> (holders w)) (S (next w)) (vars w), Some (next w)) else Ret (w, None).
Definition delete_ (c : option nat) : M unit := fun w =>
  match c with
  | None => Ret (w, tt)
  | Some h => _x ← deref (holders w !! h); Ret (mkWorld (delete h (holders w)) (next w) (vars w), tt)
  end.
Definition held (h : nat) : M value := fun w => x ← deref (holders w !! h); Ret (w, x).

(** A new holder goes on to [k]; [false]: the exception does. *)
Definition or_throw (m : M (option nat)) (k : nat -> M unit) : M bool :=
  let* o := m in match o with Some h => k h ;;; ret true | None => ret false end.
Definition clone (ok : bool) (c : option nat) (k : option nat -> M unit) : M bool :=
  match c with
  | None => k None ;;; ret true
  | Some h => let* x := held h in or_throw (new_holder ok x) (fun h => k (Some h))
  end.

(** The constructors, and the destructor. *)
Definition any_new (v : K) : M bool := set_content v None ;;; ret true.
Definition any_of (ok : bool) (v : K) (x : value) : M bool := or_throw (new_holder ok x) (fun h => set_content v (Some h)).
Definition any_copy (ok : bool) (v other : K) : M bool := let* c := get_content other in clone ok c (set_content v).
Definition any_move (v other : K) : M bool :=
  let* c := get_content other in set_content v c ;;; set_content other None ;;; ret true.
Definition any_delete (v : K) : M bool :=
  let* c := get_content v in delete_ c ;;; modify (fun w => mkWorld (holders w) (next w) (delete v (vars w))) ;;; ret true.

(** [swap] of a temporary with [v], and the end of the temporary. *)
Definition swap_temporary (c : option nat) (v : K) : M unit :=
  let* old := get_content v in set_content v c ;;; delete_ old.
Definition swap (v rhs : K) : M bool :=
  let* c := get_content v in let* d := get_content rhs in set_content v d ;;; set_content rhs c ;;; ret true.
Definition assign_value (ok : bool) (v : K) (x : value) : M bool := or_throw (new_holder ok x) (fun h => swap_temporary (Some h) v).
Definition assign_copy (ok : bool) (v rhs : K) : M bool :=
  let* c := get_content rhs in clone ok c (fun c => swap_temporary c v).
Definition assign_move (v rhs : K) : M bool :=
  let* _b := swap rhs v in swap_temporary None rhs ;;; ret true.
Definition clear (v : K) : M unit := swap_temporary None v.
Definition emplace (ok : bool) (v : K) (x : value) : M (option nat) :=
  clear v ;;;
  let* o := new_holder ok x in
  match o with Some h => set_content v (Some h) ;;; ret (Some h) | None => ret None end.

(** The queries. *)
Definition empty (v : K) : M bool := let* c := get_content v in ret (match c with None => true | Some _ => false end).
Definition type_ (v : K) : M (option nat) :=
  let* c := get_content v in match c with Some h => let* x := held h in ret (Some x.1) | None => ret None end.
(** [any_cast] to a pointer, and to a reference. *)
Definition any_cast_pointer (ty : nat) (operand : option K) : M (option nat) :=
  match operand with
  | None => ret None
  | Some v => let* t := type_ v in if bool_decide (t = Some ty) then get_content v else ret None
  end.
Definition any_cast (ty : nat) (operand : K) : M nat :=
  let* r := any_cast_pointer ty (Some operand) in
  match r with Some h => ret h | None => fun _ => Throw bad_any_cast end.

(** What a program may do with variables. *)
Inductive call :=
| New (v : K) | Of (ok : bool) (v : K) (x : value) | Copy (ok : bool) (v other : K) | Move (v other : K) | Delete (v : K)
| Swap (v rhs : K) | AssignValue (ok : bool) (v : K) (x : value) | AssignCopy (ok : bool) (v rhs : K) | AssignMove (v rhs : K)
| Clear (v : K) | Emplace (ok : bool) (v : K) (x : value).
Definition exec (c : call) : M bool :=
  match c with
  | New v => any_new v
  | Of ok v x => any_of ok v x
  | Copy ok v other => any_copy ok v other
  | Move v other => any_move v other
  | Delete v => any_delete v
  | Swap v rhs => swap v rhs
  | AssignValue ok v x => assign_value ok v x
  | AssignCopy ok v rhs => assign_copy ok v rhs
  | AssignMove v rhs => assign_move v rhs
  | Clear v => clear v ;;; ret true
  | Emplace ok v x => let* o := emplace ok v x in ret (match o with Some _ => true | None => false end)
  end.
(** New variables are new, and the others exist. *)
Definition legal {A} (c : call) (m : gmap K A) : Prop :=
  match c with
  | New v | Of _ v _ => m !! v = None
  | Copy _ v o | Move v o => m !! v = None /\ is_Some (m !! o)
  | Delete v | AssignValue _ v _ | Clear v | Emplace _ v _ => is_Some (m !! v)
  | Swap v o | AssignCopy _ v o | AssignMove v o => is_Some (m !! v) /\ is_Some (m !! o)
  end.
Fixpoint execs (l : list call) : M (list bool) :=
  match l with [] => ret [] | c :: l => let* b := exec c in let* bs := execs l in ret (b :: bs) end.
Definition empty_world : world := mkWorld ∅ 0 ∅.
End any.
Arguments world K {_ _}.
Arguments call K : clear implicits.
Arguments M K {_ _} A.

(** ** Storage local to a coroutine or thread *)

Inductive owner := Task (t : nat) | Thread (t : nat).
#[export] Instance owner_eq_dec : EqDecision owner.
Proof. solve_decision. Defined.
#[export] Instance owner_countable : Countable owner.
Proof.
  apply (inj_countable' (fun o => match o with Task t => inl t | Thread t => inr t end) (fun s => match s with inl t => Task t | inr t => Thread t end)).
  by intros [].
Defined.
(** The owner's [CLSMap] and the location in it. *)
Definition key : Type := owner * nat.
(** The answer of [map_[loc]]: the [any] there, made if there is none. *)
Definition CLSMap_Get (loc : key) : M key unit := fun w =>
  match vars w !! loc with Some _ => Ret (w, tt) | None => '(w, _) ← any_new loc w; Ret (w, tt) end.
(** The map of the current task, or else of the thread. *)
Definition current (task : option nat) (thread : nat) : owner := match task with Some t => Task t | None => Thread thread end.
(** [None]: the constructor of the value threw. *)
Definition GetSpecific (task : option nat) (thread loc : nat) (ok : bool) (x : value) : M key (option nat) :=
  let val : key := (current task thread, loc) in
  CLSMap_Get val ;;;
  let* e := empty val in
  if e : bool then emplace ok val x
  else let* h := any_cast x.1 val in ret (Some h).
(** [CLSRef]: its constructor makes the value, its conversions look it up where they are made. *)
Definition CLSRef_new := GetSpecific.
Definition CLSRef_convert (task : option nat) (thread loc : nat) (ok : bool) (ty : nat) (default : Z) : M key (option nat) :=
  GetSpecific task thread loc ok (ty, default).
(** The end of a task or thread: its map is destroyed. *)
Definition owned (o : owner) (w : world key) : list key := filter (fun k => k.1 = o) (elements (dom (vars w))).
Definition owner_ends (o : owner) : M key unit := fun w =>
  for_each (fun k => any_delete k ;;; ret tt) (owned o w) w.
