(* ===== verification/LocalStorageSpec.v ===== *)
(** [any] is a variable of values: every sequence of calls answers as assignments of values do, no holder is
    lost or deleted twice ([LocalStorage.v]).  Storage local to coroutines: one object for each coroutine or
    thread and location, made once, the same until its owner ends. *)
From S2P Require Import Prelude LocalStorage.
Local Open Scope Z_scope.

(** ** Variables of values *)

Section any.
Context {K : Type} `{Countable K}.
Implicit Types (w : world K) (m : gmap K (option value)) (v : K).

(** The specification: [false]: a constructor threw. *)
Definition spec (c : call K) (m : gmap K (option value)) : gmap K (option value) * bool :=
  let val v := match m !! v with Some x => x | None => None end in
  match c with
  | New v => (<[v := None]> m, true)
  | Of ok v x | AssignValue ok v x => if ok : bool then (<[v := Some x]> m, true) else (m, false)
  | Copy ok v o | AssignCopy ok v o =>
      match val o with None => (<[v := None]> m, true) | Some x => if ok : bool then (<[v := Some x]> m, true) else (m, false) end
  | Move v o | AssignMove v o => (<[o := None]> (<[v := val o]> m), true)
  | Delete v => (delete v m, true)
  | Swap v o => (<[o := val v]> (<[v := val o]> m), true)
  | Clear v => (<[v := None]> m, true)
  | Emplace ok v x => (<[v := if ok : bool then Some x else None]> m, ok)
  end.
Fixpoint specs (l : list (call K)) (m : gmap K (option value)) : gmap K (option value) * list bool :=
  match l with [] => (m, []) | c :: l => let r := spec c m in let rs := specs l r.1 in (rs.1, r.2 :: rs.2) end.
Fixpoint legals (l : list (call K)) (m : gmap K (option value)) : Prop :=
  match l with [] => True | c :: l => legal c m /\ legals l (spec c m).1 end.

Definition content_value (w : world K) (c : option nat) : option value := c ≫= fun h => holders w !! h.
(** [t]: the content of the temporary that there may be. *)
Record Rep (w : world K) (m : gmap K (option value)) (t : option nat) : Prop := mkRep {
  rep_vars : forall v, m !! v = content_value w <$> vars w !! v;
  rep_held : forall v h, vars w !! v = Some (Some h) -> is_Some (holders w !! h);
  rep_one : forall v v' h, vars w !! v = Some (Some h) -> vars w !! v' = Some (Some h) -> v = v';
  rep_owned : forall h x, holders w !! h = Some x -> (exists v, vars w !! v = Some (Some h)) \/ t = Some h;
  rep_temporary : forall h, t = Some h -> is_Some (holders w !! h) /\ forall v, vars w !! v <> Some (Some h);
  rep_fresh : forall h, is_Some (holders w !! h) -> (h < next w)%nat }.

Lemma rep_dom w m t v : Rep w m t -> is_Some (m !! v) -> exists c, vars w !! v = Some c.
Proof. intros R Hv. rewrite (rep_vars _ _ _ R) in Hv. destruct (vars w !! v); [by eexists|by destruct Hv]. Qed.
Lemma rep_none w m t v : Rep w m t -> m !! v = None -> vars w !! v = None.
Proof. intros R Hv. rewrite (rep_vars _ _ _ R) in Hv. by apply fmap_None in Hv. Qed.
Lemma rep_value w m t v c : Rep w m t -> vars w !! v = Some c -> m !! v = Some (content_value w c).
Proof. intros R Hv. by rewrite (rep_vars _ _ _ R), Hv. Qed.

(** A new holder belongs to a temporary. *)
Lemma rep_new w m x : Rep w m None -> Rep (mkWorld (<[next w := x]> (holders w)) (S (next w)) (vars w)) m (Some (next w)).
Proof.
  intros [Rv Rh Ro Rw Rt Rf].
  assert (holders w !! next w = None) as Hn by (destruct (holders w !! next w) eqn:E; [|done]; specialize (Rf (next w) (ex_intro _ _ E)); lia).
  assert (forall v h, vars w !! v = Some (Some h) -> h <> next w) as Hne by (intros v h Hv ->; apply Rh in Hv as [y Hy]; congruence).
  split; simpl.
  - intros v. rewrite Rv. destruct (vars w !! v) as [[h|]|] eqn:E; simpl; [|done..]. rewrite lookup_insert_ne; [done|]. intros <-. by eapply Hne.
  - intros v h Hv. rewrite lookup_insert_ne by (intros <-; by eapply Hne). by eapply Rh.
  - done.
  - intros h y [[-> _]|[_ Hy]]%lookup_insert_Some; [by right|]. apply Rw in Hy as [?|?]; [by left|done].
  - intros h [= <-]. rewrite lookup_insert_eq. split; [by eexists|]. intros v Hv. by eapply Hne.
  - intros h [y [[<- _]|[_ Hy]]%lookup_insert_Some]; [lia|]. pose proof (Rf h (ex_intro _ y Hy)). lia.
Qed.
(** The temporary's content goes to a variable, the variable's to the temporary. *)
Lemma rep_take w m t v : Rep w m t ->
  Rep (mkWorld (holders w) (next w) (<[v := t]> (vars w))) (<[v := content_value w t]> m) (match vars w !! v with Some c => c | None => None end).
Proof.
  intros [Rv Rh Ro Rw Rt Rf]. split; simpl.
  - intros u. destruct (decide (u = v)) as [->|Hn]; [by rewrite !lookup_insert_eq|]. rewrite !lookup_insert_ne by done. apply Rv.
  - intros u h [[<- ->]|[_ Hu]]%lookup_insert_Some; [by apply Rt|by eapply Rh].
  - intros u u' h [[<- ->]|[Hn Hu]]%lookup_insert_Some [[<- Ht]|[Hn' Hu']]%lookup_insert_Some; [done|..].
    + destruct (Rt h eq_refl) as [_ Hf]. by destruct (Hf u').
    + destruct (Rt h Ht) as [_ Hf]. by destruct (Hf u).
    + by eapply Ro.
  - intros h x Hx. apply Rw in Hx as [[u Hu]| ->].
    + destruct (decide (u = v)) as [->|Hn]; [right; by rewrite Hu|]. left. exists u. by rewrite lookup_insert_ne.
    + left. exists v. by rewrite lookup_insert_eq.
  - intros h Ht. destruct (vars w !! v) as [c|] eqn:E; [|done]. subst c. split; [by eapply Rh|].
    intros u [[<- ->]|[Hn Hu]]%lookup_insert_Some; [destruct (Rt h eq_refl) as [_ Hf]; by destruct (Hf v)|]. apply Hn. by eapply Ro.
  - done.
Qed.
(** The temporary ends. *)
Lemma rep_delete w m t : Rep w m t -> exists w', delete_ t w = Ret (w', tt) /\ vars w' = vars w /\ Rep w' m None /\
  (forall h, t <> Some h -> holders w' !! h = holders w !! h) /\ next w' = next w.
Proof.
  intros R. pose proof R as [Rv Rh Ro Rw Rt Rf]. destruct t as [h|]; [|by exists w]. destruct (Rt h eq_refl) as [[x Hx] Hn].
  eexists. split; [unfold delete_; rewrite Hx; reflexivity|]. split; [done|]. split; [|split; [intros h' Hh; simpl; apply lookup_delete_ne; congruence|done]].
  assert (forall v h', vars w !! v = Some (Some h') -> h <> h') as Hne by (intros v h' Hv <-; by eapply Hn). split; simpl.
  - intros v. rewrite Rv. destruct (vars w !! v) as [[h'|]|] eqn:E; simpl; [|done..]. rewrite lookup_delete_ne; [done|by eapply Hne].
  - intros v h' Hv. rewrite lookup_delete_ne by (by eapply Hne). by eapply Rh.
  - done.
  - intros h' y [Hd Hy]%lookup_delete_Some. apply Rw in Hy as [?|?]; [by left|congruence].
  - done.
  - intros h' [y [_ Hy]%lookup_delete_Some]. apply Rf. by eexists.
Qed.
(** A variable without content ends. *)
Lemma rep_forget w m t v : Rep w m t -> vars w !! v = Some None -> Rep (mkWorld (holders w) (next w) (delete v (vars w))) (delete v m) t.
Proof.
  intros [Rv Rh Ro Rw Rt Rf] Hv. split; simpl.
  - intros u. destruct (decide (u = v)) as [->|Hn]; [by rewrite !lookup_delete_eq|]. rewrite !lookup_delete_ne by done. apply Rv.
  - intros u h [_ Hu]%lookup_delete_Some. by eapply Rh.
  - intros u u' h [_ Hu]%lookup_delete_Some [_ Hu']%lookup_delete_Some. by eapply Ro.
  - intros h x Hx. apply Rw in Hx as [[u Hu]|Ht]; [|by right]. left. exists u. rewrite lookup_delete_ne; [done|]. intros <-. congruence.
  - intros h Hh. destruct (Rt h Hh) as [? Hn]. split; [done|]. intros u [_ Hu]%lookup_delete_Some. by eapply Hn.
  - done.
Qed.
Lemma rep_eq w m t w' m' : Rep w m t -> holders w' = holders w -> next w' = next w -> vars w' = vars w -> m' = m -> Rep w' m' t.
Proof. destruct w, w'. simpl. by intros ? -> -> -> ->. Qed.
(** Two variables exchange their contents; a new one takes that of another. *)
Lemma rep_exchange w m a b c d : Rep w m None -> vars w !! a = Some c -> vars w !! b = Some d ->
  Rep (mkWorld (holders w) (next w) (<[b := c]> (<[a := d]> (vars w)))) (<[b := content_value w c]> (<[a := content_value w d]> m)) None.
Proof.
  intros R Ha Hb. destruct (decide (a = b)) as [->|Hn].
  - assert (c = d) as -> by congruence. rewrite !insert_insert_eq. eapply rep_eq; [exact R|done..| |]; simpl; apply insert_id; [done|by eapply rep_value].
  - pose proof (rep_take _ _ _ a (rep_take _ _ _ b (rep_take _ _ _ a R))) as R3. simpl in R3.
    rewrite Ha, !lookup_insert_ne, Hb, !lookup_insert_eq in R3 by done. eapply rep_eq; [exact R3|done..| |]; simpl;
      by rewrite (insert_insert_ne _ a b), !insert_insert_eq.
Qed.
Lemma rep_move w m a b c : Rep w m None -> vars w !! a = None -> vars w !! b = Some c ->
  Rep (mkWorld (holders w) (next w) (<[b := None]> (<[a := c]> (vars w)))) (<[b := None]> (<[a := content_value w c]> m)) None.
Proof.
  intros R Ha Hb. assert (a <> b) as Hn by congruence.
  pose proof (rep_take _ _ _ a (rep_take _ _ _ b R)) as R2. simpl in R2. rewrite Hb, lookup_insert_ne, Ha in R2 by done.
  eapply rep_eq; [exact R2|done..| |]; simpl; by rewrite (insert_insert_ne _ b a).
Qed.

(** ** The calls *)

Lemma get_content_ret w v c : vars w !! v = Some c -> get_content v w = Ret (w, c).
Proof. unfold get_content. by intros ->. Qed.
Lemma swap_temporary_rep w m t v c : Rep w m t -> vars w !! v = Some c ->
  exists w', swap_temporary t v w = Ret (w', tt) /\ Rep w' (<[v := content_value w t]> m) None /\ vars w' = <[v := t]> (vars w) /\
    next w' = next w /\ (forall h, c <> Some h -> holders w' !! h = holders w !! h).
Proof.
  intros R Hv. pose proof (rep_take _ _ _ v R) as R1. rewrite Hv in R1. destruct (rep_delete _ _ _ R1) as (w' & Hd & Hvs & R2 & Hh & Hn).
  exists w'. split; [|done]. unfold swap_temporary, bind. rewrite (get_content_ret w v c Hv). exact Hd.
Qed.
Lemma or_throw_rep w m x k (ok : bool) f : Rep w m None ->
  (ok = true -> forall w1, Rep w1 m (Some (next w)) -> vars w1 = vars w -> content_value w1 (Some (next w)) = Some x ->
    exists w', k (next w) w1 = Ret (w', tt) /\ Rep w' f None) ->
  exists w', or_throw (new_holder ok x) k w = Ret (w', ok) /\ Rep w' (if ok then f else m) None.
Proof.
  intros R Hk. unfold or_throw, bind, new_holder. destruct ok; [|by exists w]. simpl.
  destruct (Hk eq_refl (mkWorld (<[next w := x]> (holders w)) (S (next w)) (vars w))) as (w' & -> & R'); [by apply rep_new|done| |by exists w'].
  simpl. apply lookup_insert_eq.
Qed.
(** Copying into what [k] does with a temporary. *)
Lemma clone_rep w m c k (ok : bool) f v : Rep w m None -> vars w !! v = Some c ->
  (forall w1 t, Rep w1 m t -> vars w1 = vars w -> content_value w1 t = content_value w c -> exists w', k t w1 = Ret (w', tt) /\ Rep w' (f (content_value w c)) None) ->
  exists w', clone ok c k w = Ret (w', match content_value w c with None => true | Some _ => ok end) /\
    Rep w' (match content_value w c with None => f None | Some x => if ok then f (Some x) else m end) None.
Proof.
  intros R Hv Hk. destruct c as [h|]; simpl.
  - destruct (rep_held _ _ _ R v h Hv) as [x Hx]. unfold held, bind. rewrite Hx. simpl.
    apply (or_throw_rep w m x); [done|]. intros -> w1 R1 Hvs Hc. destruct (Hk w1 (Some (next w)) R1 Hvs) as (w' & E & R'); simpl; [by rewrite Hx|].
    exists w'. split; [exact E|]. simpl in R'. by rewrite Hx in R'.
  - destruct (Hk w None R eq_refl eq_refl) as (w' & E & R'). unfold bind. rewrite E. by exists w'.
Qed.
Lemma set_content_rep w m t v : Rep w m t -> vars w !! v = None -> exists w', set_content v t w = Ret (w', tt) /\ Rep w' (<[v := content_value w t]> m) None.
Proof. intros R Hv. eexists. split; [reflexivity|]. pose proof (rep_take _ _ _ v R) as R1. by rewrite Hv in R1. Qed.
Lemma clear_rep w m v c : Rep w m None -> vars w !! v = Some c -> exists w', clear v w = Ret (w', tt) /\ Rep w' (<[v := None]> m) None /\
  vars w' = <[v := None]> (vars w) /\ next w' = next w /\ (forall h, c <> Some h -> holders w' !! h = holders w !! h).
Proof. intros R Hv. by apply swap_temporary_rep. Qed.
Lemma emplace_rep w m v x (ok : bool) c : Rep w m None -> vars w !! v = Some c ->
  exists w', emplace ok v x w = Ret (w', if ok then Some (next w) else None) /\ Rep w' (<[v := if ok then Some x else None]> m) None /\
    vars w' = <[v := if ok then Some (next w) else None]> (vars w) /\ next w' = (next w + if ok then 1 else 0)%nat /\
    (forall h, (h < next w)%nat -> c <> Some h -> holders w' !! h = holders w !! h).
Proof.
  intros R Hv. destruct (clear_rep w m v c R Hv) as (w1 & E & R1 & Hvs & Hn & Hh). unfold emplace, bind. rewrite E. cbn [mbind res_bind]. unfold new_holder. destruct ok; simpl.
  - eexists. rewrite Hn. split; [reflexivity|]. simpl. rewrite Hvs, insert_insert_eq. split; [|split; [done|split; [lia|]]].
    + pose proof (rep_take _ _ _ v (rep_new _ _ x R1)) as R2. simpl in R2. rewrite Hvs, !lookup_insert_eq in R2.
      eapply rep_eq; [exact R2|by rewrite ?Hn..| |]; simpl; by rewrite ?Hn, ?insert_insert_eq.
    + intros h Hlt Hc. rewrite lookup_insert_ne by lia. by apply Hh.
  - exists w1. split; [done|]. split; [done|]. split; [done|]. split; [lia|]. auto.
Qed.
Lemma delete_rep w m v c : Rep w m None -> vars w !! v = Some c -> exists w', any_delete v w = Ret (w', true) /\ Rep w' (delete v m) None /\
  vars w' = delete v (vars w) /\ next w' = next w /\ (forall h, c <> Some h -> holders w' !! h = holders w !! h).
Proof.
  intros R Hv. pose proof (rep_take _ _ _ v R) as R1. rewrite Hv in R1. destruct (rep_delete _ _ _ R1) as (w1 & Hd & Hvs & R2 & Hh & Hn).
  unfold any_delete, bind. rewrite (get_content_ret w v c Hv). cbn [mbind res_bind].
  assert (delete_ c w = Ret (mkWorld (holders w1) (next w1) (vars w), tt)) as ->.
  { unfold delete_ in *. destruct c as [h|]; simpl in *; [|injection Hd as <-; by destruct w]. destruct (holders w !! h); simpl in *; [|done]. by injection Hd as <-. }
  eexists. split; [reflexivity|]. simpl. split; [|done]. assert (vars w1 !! v = Some None) as Hv1 by (rewrite Hvs; apply lookup_insert_eq).
  eapply rep_eq; [apply (rep_forget _ _ _ _ R2 Hv1)|done..| |]; simpl; [rewrite Hvs; simpl|]; by rewrite delete_insert_eq.
Qed.

Lemma val_of w m v c : Rep w m None -> vars w !! v = Some c -> match m !! v with Some x => x | None => None end = content_value w c.
Proof. intros R Hv. by rewrite (rep_value _ _ _ _ _ R Hv). Qed.
Lemma content_value_same w w1 c : holders w1 = holders w -> content_value w1 c = content_value w c.
Proof. unfold content_value. by intros ->. Qed.
Ltac hold R Hv c E := let H := fresh in pose proof (rep_dom _ _ _ _ R Hv) as [c E].
Lemma exec_rep w m c : Rep w m None -> legal c m -> exists w', exec c w = Ret (w', (spec c m).2) /\ Rep w' (spec c m).1 None.
Proof.
  intros R Hl. destruct c; cbn [legal exec spec] in *.
  - apply (rep_none _ _ _ _ R) in Hl. destruct (set_content_rep w m None v R Hl) as (w' & E & R'). unfold any_new, bind. rewrite E. by exists w'.
  - apply (rep_none _ _ _ _ R) in Hl.
    destruct (or_throw_rep w m x (fun h => set_content v (Some h)) ok (<[v := Some x]> m) R) as (w' & E & R'); [|exists w'; split; [exact E|destruct ok; done] || (exists w'; destruct ok; done)].
    intros _ w1 R1 Hvs Hx. destruct (set_content_rep w1 m _ v R1) as (w' & E & R'); [by rewrite Hvs|]. rewrite Hx in R'. by exists w'.
  - destruct Hl as [Hn Ho]. apply (rep_none _ _ _ _ R) in Hn. hold R Ho c Ec. rewrite (val_of _ _ _ _ R Ec). unfold any_copy, bind. rewrite (get_content_ret w other c Ec). cbn [mbind res_bind].
    destruct (clone_rep w m c (set_content v) ok (fun x => <[v := x]> m) other R Ec) as (w' & E & R').
    { intros w1 t R1 Hvs Hx. destruct (set_content_rep w1 m t v R1) as (w' & E & R'); [by rewrite Hvs|]. rewrite Hx in R'. by exists w'. }
    exists w'. rewrite E. destruct (content_value w c); [destruct ok|]; done.
  - destruct Hl as [Hn Ho]. apply (rep_none _ _ _ _ R) in Hn. hold R Ho c Ec. rewrite (val_of _ _ _ _ R Ec). unfold any_move, bind. rewrite (get_content_ret w other c Ec).
    eexists. split; [reflexivity|]. by apply (rep_move w m v other c).
  - hold R Hl c Ec. destruct (delete_rep w m v c R Ec) as (w' & E & R' & _). by exists w'.
  - destruct Hl as [Hv Ho]. hold R Hv c Ec. hold R Ho d Ed. rewrite (val_of _ _ _ _ R Ec), (val_of _ _ _ _ R Ed). unfold swap, bind.
    rewrite (get_content_ret w v c Ec). cbn [mbind res_bind]. rewrite (get_content_ret w rhs d Ed). eexists. split; [reflexivity|]. by apply (rep_exchange w m v rhs c d).
  - hold R Hl c Ec. destruct (or_throw_rep w m x (fun h => swap_temporary (Some h) v) ok (<[v := Some x]> m) R) as (w' & E & R'); [|exists w'; destruct ok; done].
    intros _ w1 R1 Hvs Hx. destruct (swap_temporary_rep w1 m _ v c R1) as (w' & E & R' & _); [by rewrite Hvs|]. rewrite Hx in R'. by exists w'.
  - destruct Hl as [Hv Ho]. hold R Hv d Ed. hold R Ho c Ec. rewrite (val_of _ _ _ _ R Ec). unfold assign_copy, bind. rewrite (get_content_ret w rhs c Ec). cbn [mbind res_bind].
    destruct (clone_rep w m c (fun c => swap_temporary c v) ok (fun x => <[v := x]> m) rhs R Ec) as (w' & E & R').
    { intros w1 t R1 Hvs Hx. destruct (swap_temporary_rep w1 m t v d R1) as (w' & E & R' & _); [by rewrite Hvs|]. rewrite Hx in R'. by exists w'. }
    exists w'. rewrite E. destruct (content_value w c); [destruct ok|]; done.
  - destruct Hl as [Hv Ho]. hold R Hv c Ec. hold R Ho d Ed. rewrite (val_of _ _ _ _ R Ed). unfold assign_move, swap, bind.
    rewrite (get_content_ret w rhs d Ed). cbn [mbind res_bind]. rewrite (get_content_ret w v c Ec). cbn [mbind res_bind set_content modify ret].
    pose proof (rep_exchange w m rhs v d c R Ed Ec) as R1.
    destruct (swap_temporary_rep _ _ None rhs (if decide (rhs = v) then d else c) R1) as (w' & E & R' & _).
    { simpl. case_decide as Hd; [rewrite Hd; apply lookup_insert_eq|]. rewrite lookup_insert_ne by congruence. apply lookup_insert_eq. }
    exists w'. unfold set_content, modify in E |- *. simpl in E |- *. rewrite E. split; [done|]. eapply rep_eq; [exact R'|done..|]. simpl.
    destruct (decide (rhs = v)) as [->|Hn]; [by rewrite !insert_insert_eq|]. by rewrite (insert_insert_ne m v rhs), insert_insert_eq by congruence.
  - hold R Hl c Ec. destruct (clear_rep w m v c R Ec) as (w' & E & R' & _). unfold bind. rewrite E. by exists w'.
  - hold R Hl c Ec. destruct (emplace_rep w m v x ok c R Ec) as (w' & E & R' & _). unfold bind. rewrite E. exists w'. by destruct ok.
Qed.
Lemma execs_rep w m l : Rep w m None -> legals l m -> exists w', execs l w = Ret (w', (specs l m).2) /\ Rep w' (specs l m).1 None.
Proof.
  revert w m. induction l as [|c l IH]; intros w m R Hl; [by exists w|]. destruct Hl as [Hl Hls]. destruct (exec_rep w m c R Hl) as (w1 & E & R1).
  destruct (IH w1 _ R1 Hls) as (w2 & E2 & R2). exists w2. simpl. unfold bind. rewrite E. cbn [mbind res_bind]. rewrite E2. done.
Qed.
Lemma rep_empty : Rep empty_world ∅ None.
Proof. split; simpl; try done. intros h [x Hx]. by rewrite lookup_empty in Hx. Qed.
(** The casts: the value where it is of the type, null and [bad_any_cast] where it is not. *)
Lemma cast_reads w m v (x : option value) ty : Rep w m None -> m !! v = Some x ->
  match x with
  | Some y => exists h, vars w !! v = Some (Some h) /\ holders w !! h = Some y /\
      any_cast_pointer ty (Some v) w = Ret (w, if bool_decide (y.1 = ty) then Some h else None) /\
      any_cast ty v w = if bool_decide (y.1 = ty) then Ret (w, h) else Throw bad_any_cast
  | None => vars w !! v = Some None /\ any_cast_pointer ty (Some v) w = Ret (w, None) /\ any_cast ty v w = Throw bad_any_cast
  end.
Proof.
  intros R Hm. destruct (rep_dom _ _ _ _ R (ex_intro _ x Hm)) as [c Ec]. pose proof (rep_value _ _ _ _ _ R Ec) as E. rewrite Hm in E. injection E as ->.
  unfold any_cast, any_cast_pointer, type_, held, bind, ret. rewrite (get_content_ret w v c Ec). destruct c as [h|]; simpl.
  - destruct (rep_held _ _ _ R v h Ec) as [y Hy]. rewrite Hy. exists h. split; [done|]. split; [done|]. simpl.
    assert (bool_decide (Some y.1 = Some ty) = bool_decide (y.1 = ty)) as -> by (apply bool_decide_ext; split; [by intros [=]|by intros ->]).
    destruct (bool_decide (y.1 = ty)); [by rewrite (get_content_ret w v _ Ec)|done].
  - done.
Qed.

(** An [any] is a variable of values: every legal sequence of constructions, copies, moves, swaps, assignments,
    [clear], [emplace] and destructions, whatever constructors throw, returns and leaves what assignments of values
    leave; afterwards each holder on the heap is that of exactly one variable, so that none is lost and none
    deleted twice, and a cast gives the value if it is of the type and null otherwise. *)
Theorem any_refines l : legals l ∅ ->
  exists w, execs l empty_world = Ret (w, (specs l ∅).2) /\
    (forall h, is_Some (holders w !! h) <-> exists v, vars w !! v = Some (Some h)) /\
    (forall v v' h, vars w !! v = Some (Some h) -> vars w !! v' = Some (Some h) -> v = v') /\
    forall v x ty, (specs l ∅).1 !! v = Some x ->
      exists r, any_cast_pointer ty (Some v) w = Ret (w, r) /\
        r ≫= (fun h => holders w !! h) = match x with Some y => if bool_decide (y.1 = ty) then Some y else None | None => None end.
Proof.
  intros Hl. destruct (execs_rep empty_world ∅ l rep_empty Hl) as (w & E & R). exists w. split; [done|]. split_and!.
  - intros h. split; [intros [x Hx]; destruct (rep_owned _ _ _ R h x Hx) as [?|?]; done|]. intros [v Hv]. by eapply rep_held.
  - apply (rep_one _ _ _ R).
  - intros v x ty Hx. pose proof (cast_reads w _ v x ty R Hx) as Hc. destruct x as [y|].
    + destruct Hc as (h & _ & Hh & -> & _). eexists. split; [done|]. by destruct (bool_decide _).
    + destruct Hc as (_ & -> & _). by eexists.
Qed.
End any.

(** ** Storage local to coroutines *)

(** [GetSpecific] and the ends of tasks and threads; who gets [bad_any_cast] goes on. *)
Inductive op := Get (task : option nat) (thread loc : nat) (ok : bool) (x : value) | Ends (o : owner).
Definition op_step (p : op) (w : world key) : res (world key) :=
  match p with
  | Get task thread loc ok x =>
      match GetSpecific task thread loc ok x w with Ret (w, _) => Ret w | Throw _ => Ret w | AssertFail => AssertFail end
  | Ends o => '(w, _) ← owner_ends o w; Ret w
  end.
Fixpoint ops (l : list op) (w : world key) : res (world key) := match l with [] => Ret w | p :: l => w ← op_step p w; ops l w end.
Definition ends (o : owner) (p : op) : Prop := match p with Ends o' => o' = o | Get _ _ _ _ _ => False end.
Definition kept (k : key) (h : nat) (x : value) (w : world key) : Prop := vars w !! k = Some (Some h) /\ holders w !! h = Some x.

Lemma bind_step {S A B} (f : st S A) (g : A -> st S B) s s' a : f s = Ret (s', a) -> bind f g s = g a s'.
Proof. apply bind_ret. Qed.
(** The two cases of [GetSpecific]. *)
Lemma GetSpecific_there task thread loc ok x w m h y : Rep w m None -> kept (current task thread, loc) h y w ->
  GetSpecific task thread loc ok x w = if bool_decide (y.1 = x.1) then Ret (w, Some h) else Throw bad_any_cast.
Proof.
  intros R [Hv Hh]. unfold GetSpecific. rewrite (bind_step _ _ w w tt) by (unfold CLSMap_Get; by rewrite Hv).
  rewrite (bind_step _ _ w w false) by (unfold empty, bind; by rewrite (get_content_ret w _ _ Hv)).
  assert (m !! ((current task thread, loc) : key) = Some (Some y)) as Hm by (rewrite (rep_value _ _ _ _ _ R Hv); simpl; by rewrite Hh).
  destruct (cast_reads w m _ _ x.1 R Hm) as (h' & Hv' & _ & _ & E). assert (h' = h) as -> by congruence.
  unfold bind. rewrite E. by destruct (bool_decide _).
Qed.
Lemma GetSpecific_new task thread loc ok x w m : Rep w m None ->
  (vars w !! ((current task thread, loc) : key) = None \/ vars w !! ((current task thread, loc) : key) = Some None) ->
  exists w' m', GetSpecific task thread loc ok x w = Ret (w', if ok then Some (next w) else None) /\ Rep w' m' None /\
    vars w' = <[((current task thread, loc) : key) := if ok then Some (next w) else None]> (vars w) /\
    (forall h, (h < next w)%nat -> holders w' !! h = holders w !! h) /\ (ok = true -> holders w' !! next w = Some x).
Proof.
  intros R Hv. set (k := (current task thread, loc) : key) in *.
  assert (exists w1 m1, CLSMap_Get k w = Ret (w1, tt) /\ Rep w1 m1 None /\ vars w1 = <[k := None]> (vars w) /\ holders w1 = holders w /\ next w1 = next w)
    as (w1 & m1 & E & R1 & Hvs & Hh & Hn).
  { unfold CLSMap_Get. fold k. destruct Hv as [Hv|Hv]; rewrite Hv.
    - eexists _, (<[k := None]> m). split; [reflexivity|]. split; [|done]. pose proof (rep_take _ _ _ k R) as R1. by rewrite Hv in R1.
    - exists w, m. split; [done|]. split; [done|]. split; [by rewrite insert_id|done]. }
  assert (vars w1 !! k = Some None) as Hk by (rewrite Hvs; apply lookup_insert_eq).
  unfold GetSpecific. cbv zeta. change (current task thread, loc) with k. rewrite (bind_step _ _ _ _ _ E). rewrite (bind_step _ _ w1 w1 true) by (unfold empty, bind; by rewrite (get_content_ret w1 _ _ Hk)).
  destruct (emplace_rep w1 m1 k x ok None R1 Hk) as (w' & E2 & R2 & Hvs2 & Hn2 & Hh2). exists w', (<[k := if ok then Some x else None]> m1).
  fold k. rewrite E2, Hn. split; [done|]. split; [done|]. rewrite Hvs2, Hvs, insert_insert_eq, Hn. split; [done|]. split.
  - intros h Hl. rewrite Hh2, Hh; [done|lia|done].
  - intros ->. pose proof (rep_vars _ _ _ R2 k) as Hx. rewrite lookup_insert_eq, Hvs2, lookup_insert_eq in Hx. simpl in Hx. rewrite Hn in Hx. by injection Hx.
Qed.
(** The end of an owner takes away what it had, and nothing else. *)
Lemma ends_walk o w m (ks : list key) : Rep w m None -> NoDup ks -> Forall (fun k => k.1 = o /\ is_Some (vars w !! k)) ks ->
  exists w' m', for_each (fun k => any_delete k ;;; ret tt) ks w = Ret (w', tt) /\ Rep w' m' None /\
    (forall k, k ∈ ks -> vars w' !! k = None) /\ (forall k, k ∉ ks -> vars w' !! k = vars w !! k) /\
    (forall k h x, k.1 <> o -> kept k h x w -> kept k h x w').
Proof.
  intros R Hnd. revert w m R. induction Hnd as [|k ks Hk Hnd IH]; intros w m R Hf; [exists w, m; split_and!; try done; by intros k Hk%elem_of_nil|].
  apply Forall_cons in Hf as [[Ho [c Hc]] Hf]. destruct (delete_rep w m k c R Hc) as (w1 & E & R1 & Hvs & Hn & Hh).
  destruct (IH w1 _ R1) as (w2 & m2 & E2 & R2 & H1 & H2 & H3).
  { rewrite Forall_forall in Hf |- *. intros k' Hk'. destruct (Hf k' Hk') as [? ?]. split; [done|]. rewrite Hvs, lookup_delete_ne; [done|]. by intros ->. }
  exists w2, m2. split; [|split; [done|split_and!]].
  - cbn [for_each]. rewrite (bind_step _ _ w w1 tt); [exact E2|]. by rewrite (bind_step _ _ w w1 true E).
  - intros k' [->|Hk']%elem_of_cons; [|by apply H1]. rewrite H2 by done. rewrite Hvs. apply lookup_delete_eq.
  - intros k' [Hne Hk']%not_elem_of_cons. rewrite H2 by done. rewrite Hvs. by apply lookup_delete_ne.
  - intros k' h x Hne [Hv Hx]. apply H3; [done|]. split; [rewrite Hvs, lookup_delete_ne; [done|]; by intros <-|].
    rewrite Hh; [done|]. intros ->. assert (k = k') as <- by (by eapply (rep_one _ _ _ R)). done.
Qed.
Lemma owner_ends_rep o w m : Rep w m None -> exists w' m', owner_ends o w = Ret (w', tt) /\ Rep w' m' None /\
  (forall loc, vars w' !! ((o, loc) : key) = None) /\ (forall k h x, k.1 <> o -> kept k h x w -> kept k h x w').
Proof.
  intros R. destruct (ends_walk o w m (owned o w) R) as (w' & m' & E & R' & H1 & H2 & H3).
  - apply NoDup_filter, NoDup_elements.
  - apply Forall_forall. intros k [Hk Hd]%list_elem_of_filter. split; [done|]. apply elem_of_elements, elem_of_dom in Hd. done.
  - exists w', m'. split; [exact E|]. split; [done|]. split; [|done]. intros loc. destruct (decide (((o, loc) : key) ∈ owned o w)) as [Hin|Hin]; [by apply H1|].
    rewrite H2 by done. destruct (vars w !! ((o, loc) : key)) eqn:Ev; [|done]. destruct Hin. apply list_elem_of_filter. split; [done|]. apply elem_of_elements, elem_of_dom. by eexists.
Qed.
Lemma GetSpecific_rep task thread loc ok x w m : Rep w m None ->
  (exists w' m' r, GetSpecific task thread loc ok x w = Ret (w', r) /\ Rep w' m' None /\ (forall k h y, kept k h y w -> kept k h y w')) \/
  GetSpecific task thread loc ok x w = Throw bad_any_cast.
Proof.
  intros R. destruct (vars w !! ((current task thread, loc) : key)) as [[h|]|] eqn:Ek.
  - destruct (rep_held _ _ _ R _ h Ek) as [y Hy]. rewrite (GetSpecific_there _ _ _ _ _ w m h y R (conj Ek Hy)). destruct (bool_decide _); [left|by right].
    by exists w, m, (Some h).
  - left. destruct (GetSpecific_new task thread loc ok x w m R (or_intror Ek)) as (w' & m' & E & R' & Hvs & Hh & _). exists w', m', (if ok then Some (next w) else None).
    split; [done|]. split; [done|]. intros k h y [Hv Hy]. split; [|rewrite Hh; [done|by eapply (rep_fresh _ _ _ R)]].
    rewrite Hvs, lookup_insert_ne; [done|]. intros <-. congruence.
  - left. destruct (GetSpecific_new task thread loc ok x w m R (or_introl Ek)) as (w' & m' & E & R' & Hvs & Hh & _). exists w', m', (if ok then Some (next w) else None).
    split; [done|]. split; [done|]. intros k h y [Hv Hy]. split; [|rewrite Hh; [done|by eapply (rep_fresh _ _ _ R)]].
    rewrite Hvs, lookup_insert_ne; [done|]. intros <-. congruence.
Qed.
Lemma ops_rep l w m : Rep w m None -> exists w' m', ops l w = Ret w' /\ Rep w' m' None /\
  forall k h x, kept k h x w -> Forall (fun p => ~ ends k.1 p) l -> kept k h x w'.
Proof.
  revert w m. induction l as [|p l IH]; intros w m R; [by exists w, m|].
  assert (exists w1 m1, op_step p w = Ret w1 /\ Rep w1 m1 None /\ forall k h x, kept k h x w -> ~ ends k.1 p -> kept k h x w1) as (w1 & m1 & E & R1 & Hk).
  { destruct p as [task thread loc ok x|o]; simpl.
    - destruct (GetSpecific_rep task thread loc ok x w m R) as [(w1 & m1 & r & -> & R1 & Hk)| ->]; [|by exists w, m]. exists w1, m1. auto.
    - destruct (owner_ends_rep o w m R) as (w1 & m1 & E & R1 & _ & Hk). exists w1, m1. rewrite E. split; [done|]. split; [done|].
      intros k h x Hx Hn. apply Hk; [congruence|done]. }
  destruct (IH w1 m1 R1) as (w2 & m2 & E2 & R2 & Hk2). exists w2, m2. simpl. rewrite E. split; [done|]. split; [done|].
  intros k h x Hx [Hn Hf]%Forall_cons. auto.
Qed.

(** C40: storage local to a coroutine: whatever coroutines and threads have done, calls of [GetSpecific] and their ends
    return; the first call of one of them for a location that constructs its value makes a new object, and until the
    caller ends each of its calls for the location answers this object, whatever it would have constructed, if it asks
    for its type, and throws [bad_any_cast] otherwise; no other caller and no other location ever gets it. *)
Theorem specific_once before after task thread loc x :
  exists w0, ops before empty_world = Ret w0 /\
    forall w1 h, GetSpecific task thread loc true x w0 = Ret (w1, Some h) ->
      vars w0 !! ((current task thread, loc) : key) = None \/ vars w0 !! ((current task thread, loc) : key) = Some None ->
      Forall (fun p => ~ ends (current task thread) p) after ->
      holders w0 !! h = None /\
      exists w2, ops after w1 = Ret w2 /\ holders w2 !! h = Some x /\
        (forall task' thread' ok y, current task' thread' = current task thread ->
          GetSpecific task' thread' loc ok y w2 = if bool_decide (x.1 = y.1) then Ret (w2, Some h) else Throw bad_any_cast) /\
        (forall task' thread' loc' ok y w3, (current task' thread', loc') <> (current task thread, loc) ->
          GetSpecific task' thread' loc' ok y w2 <> Ret (w3, Some h)).
Proof.
  destruct (ops_rep before empty_world ∅ rep_empty) as (w0 & m0 & E0 & R0 & _). exists w0. split; [done|]. intros w1 h Hg Hv Hf.
  destruct (GetSpecific_new task thread loc true x w0 m0 R0 Hv) as (w1' & m1 & E1 & R1 & Hvs & _ & Hx). rewrite Hg in E1. injection E1 as <- ->.
  split; [destruct (holders w0 !! next w0) eqn:E; [|done]; pose proof (rep_fresh _ _ _ R0 _ (ex_intro _ _ E)); lia|].
  assert (kept (current task thread, loc) (next w0) x w1) as Hk by (split; [rewrite Hvs; apply lookup_insert_eq|by apply Hx]).
  destruct (ops_rep after w1 m1 R1) as (w2 & m2 & E2 & R2 & Hk2). specialize (Hk2 _ _ _ Hk Hf). exists w2. split; [done|]. split; [apply Hk2|]. split.
  - intros task' thread' ok y Ho. apply (GetSpecific_there task' thread' loc ok y w2 m2); [done|]. by rewrite Ho.
  - intros task' thread' loc' ok y w3 Hne Hg3. destruct (vars w2 !! ((current task' thread', loc') : key)) as [[h'|]|] eqn:Ek.
    + destruct (rep_held _ _ _ R2 _ h' Ek) as [z Hz]. rewrite (GetSpecific_there _ _ _ _ _ w2 m2 h' z R2 (conj Ek Hz)) in Hg3.
      destruct (bool_decide _); [|done]. injection Hg3 as _ ->. apply Hne. eapply (rep_one _ _ _ R2); [exact Ek|apply Hk2].
    + destruct (GetSpecific_new task' thread' loc' ok y w2 m2 R2 (or_intror Ek)) as (w' & m' & E & _). rewrite E in Hg3. destruct ok; [|done]. injection Hg3 as _ Hn.
      destruct Hk2 as [_ Hh]. pose proof (rep_fresh _ _ _ R2 _ (ex_intro _ _ Hh)). lia.
    + destruct (GetSpecific_new task' thread' loc' ok y w2 m2 R2 (or_introl Ek)) as (w' & m' & E & _). rewrite E in Hg3. destruct ok; [|done]. injection Hg3 as _ Hn.
      destruct Hk2 as [_ Hh]. pose proof (rep_fresh _ _ _ R2 _ (ex_intro _ _ Hh)). lia.
Qed.
(** When a task or thread has ended, nothing of it is left. *)
Theorem owner_ends_empty before o : exists w0 w1, ops before empty_world = Ret w0 /\ owner_ends o w0 = Ret (w1, tt) /\
  (forall loc, vars w1 !! ((o, loc) : key) = None) /\ forall h, is_Some (holders w1 !! h) -> exists k : key, k.1 <> o /\ vars w1 !! k = Some (Some h).
Proof.
  destruct (ops_rep before empty_world ∅ rep_empty) as (w0 & m0 & E0 & R0 & _). destruct (owner_ends_rep o w0 m0 R0) as (w1 & m1 & E1 & R1 & Hn & _).
  exists w0, w1. split; [done|]. split; [done|]. split; [done|]. intros h [x Hx]. destruct (rep_owned _ _ _ R1 h x Hx) as [[[o' loc] Hv]|?]; [|done].
  exists (o', loc). split; [|done]. simpl. intros ->. by rewrite Hn in Hv.
Qed.
(** A [CLSRef] that is used in another coroutine refers to an object of that coroutine. *)
Theorem ref_elsewhere : exists w1 w2 h1 h2, CLSRef_new (Some 1%nat) 0 7 true (3%nat, 42) (empty_world : world key) = Ret (w1, Some h1) /\
  CLSRef_convert (Some 2%nat) 0 7 true 3 0 w1 = Ret (w2, Some h2) /\ h1 <> h2 /\ holders w2 !! h2 = Some (3%nat, 0).
Proof. do 4 eexists. split; [vm_compute; reflexivity|]. split; [vm_compute; reflexivity|]. split; [done|]. vm_compute. reflexivity. Qed.
(** [emplace] destroys the old value first: a constructor that throws leaves none. *)
Theorem emplace_loses (x y : value) : exists w, execs [Of true 0%nat x; Emplace false 0%nat y] (empty_world : world nat) = Ret (w, [true; false]) /\ vars w !! 0%nat = Some None /\ holders w = ∅.
Proof. eexists. split; [vm_compute; reflexivity|]. split; vm_compute; reflexivity. Qed.

Lemma any_refines_witness : exists w, execs [Of true 1%nat (3%nat, 42); Copy true 2%nat 1%nat; AssignMove 1%nat 2%nat; Delete 2%nat] (empty_world : world nat) = Ret (w, [true; true; true; true]) /\
  exists r, any_cast_pointer 3 (Some 1%nat) w = Ret (w, r) /\ r ≫= (fun h => holders w !! h) = Some (3%nat, 42).
Proof.
  assert (legals [Of true 1%nat (3%nat, 42); Copy true 2%nat 1%nat; AssignMove 1%nat 2%nat; Delete 2%nat] ∅) as Hl
    by (cbn [legals legal]; repeat split; vm_compute; done || by eexists).
  destruct (any_refines _ Hl) as (w & E & _ & _ & Hc). exists w. split; [exact E|].
  destruct (Hc 1%nat (Some (3%nat, 42)) 3%nat) as (r & Hr & Hx); [vm_compute; reflexivity|]. exists r. split; [exact Hr|exact Hx].
Defined.
Lemma specific_once_witness : exists (w0 w1 w2 : world key) h, ops [Get (Some 1%nat) 0 4 true (3%nat, 1); Get None 0 7 true (3%nat, 2)] empty_world = Ret w0 /\
  GetSpecific (Some 1%nat) 0 7 true (3%nat, 42) w0 = Ret (w1, Some h) /\
  ops [Ends (Thread 0); Get (Some 2%nat) 0 7 true (3%nat, 5)] w1 = Ret w2 /\ holders w2 !! h = Some (3%nat, 42) /\
  GetSpecific (Some 1%nat) 0 7 true (3%nat, 6) w2 = Ret (w2, Some h) /\ GetSpecific (Some 1%nat) 0 7 true (8%nat, 6) w2 = Throw bad_any_cast.
Proof.
  destruct (specific_once [Get (Some 1%nat) 0 4 true (3%nat, 1); Get None 0 7 true (3%nat, 2)] [Ends (Thread 0); Get (Some 2%nat) 0 7 true (3%nat, 5)]
    (Some 1%nat) 0 7 (3%nat, 42)) as (w0 & E0 & Hs).
  assert (exists w1 h, GetSpecific (Some 1%nat) 0 7 true (3%nat, 42) w0 = Ret (w1, Some h) /\ vars w0 !! ((Task 1, 7%nat) : key) = None) as (w1 & h & E1 & Hv)
    by (vm_compute in E0; injection E0 as <-; do 2 eexists; split; vm_compute; reflexivity).
  destruct (Hs w1 h E1 (or_introl Hv)) as (_ & w2 & E2 & Hh & Hg & _); [repeat constructor; intros H; inversion H|].
  exists w0, w1, w2, h. split; [exact E0|]. split; [exact E1|]. split; [exact E2|]. split; [exact Hh|].
  split; [exact (Hg (Some 1%nat) 0%nat true (3%nat, 6) eq_refl)|exact (Hg (Some 1%nat) 0%nat true (8%nat, 6) eq_refl)].
Defined.
