(* ===== verification/SmallHeap.v ===== *)
(** The first fit allocator of [util/small_heap.h] and [.cpp]: a map from addresses to nodes,
    with a list through the free nodes between two guards.

    [std::map] is a finite map; what the code needs of its order ([begin], [rbegin],
    [before--]) is computed from the keys.  An iterator is the key it stands at, [end()], or
    not yet set.  An [assert] that fails and a dereference of [end()] are [AssertFail]. *)
From S2P Require Import Prelude.
Local Open Scope Z_scope.

(** ** Data *)

Inductive iterator_t := It (key : Z) | End | Unset.
#[export] Instance iterator_eq_dec : EqDecision iterator_t.
Proof. solve_decision. Defined.

Record Node := mkNode { len : Z; next : iterator_t; prior : iterator_t }.
Abbreviation memory_t := (gmap Z Node).

Record SmallHeap := mkHeap { pool : Z; length_ : Z; total_free : Z; memory : memory_t; high : gset Z }.
Definition M (A : Type) : Type := st SmallHeap A.

Definition set_len (l : Z) (n : Node) : Node := mkNode l (next n) (prior n).
Definition set_next (i : iterator_t) (n : Node) : Node := mkNode (len n) i (prior n).
Definition set_prior (i : iterator_t) (n : Node) : Node := mkNode (len n) (next n) i.
Definition set_total (t : Z) (h : SmallHeap) : SmallHeap := mkHeap (pool h) (length_ h) t (memory h) (high h).
Definition set_memory (m : memory_t) (h : SmallHeap) : SmallHeap := mkHeap (pool h) (length_ h) (total_free h) m (high h).
Definition set_high (s : gset Z) (h : SmallHeap) : SmallHeap := mkHeap (pool h) (length_ h) (total_free h) (memory h) s.

(** The largest and the smallest key. *)
Definition max_key (l : list Z) : option Z := foldr (fun x o => match o with Some y => Some (Z.max x y) | None => Some x end) None l.
Definition min_key (l : list Z) : option Z := foldr (fun x o => match o with Some y => Some (Z.min x y) | None => Some x end) None l.
Definition keys (m : memory_t) : list Z := (map_to_list m).*1.
Definition it_of (o : option Z) : iterator_t := match o with Some k => It k | None => End end.

Definition begin (m : memory_t) : iterator_t := it_of (min_key (keys m)).
Definition before (k : Z) (m : memory_t) : option Z := max_key (filter (fun x => x < k) (keys m)).

(** The node at an iterator, and a change of it. *)
Definition key (i : iterator_t) : res Z := match i with It k => Ret k | _ => AssertFail end.
Definition node (k : Z) : M Node := fun h => n ← deref (memory h !! k); Ret (h, n).
Definition at_ (i : iterator_t) : M Z := fun h => k ← key i; Ret (h, k).
Definition upd (k : Z) (f : Node -> Node) : M unit :=
  let* n := node k in modify (fun h => set_memory (<[k := f n]> (memory h)) h).
Definition ensure (b : bool) : M unit := if b then ret tt else failed.

(** ** The free list *)

Definition isfree (n : Node) (h : SmallHeap) : bool := negb (bool_decide (next n = begin (memory h))).
Definition islastfree (n : Node) : bool := bool_decide (next n = End).
Definition isfirstfree (n : Node) : bool := bool_decide (prior n = End).
Definition setused (k : Z) : M unit := let* b := gets (fun h => begin (memory h)) in upd k (set_next b).
Definition firstfree : M Z :=
  let* b := gets (fun h => begin (memory h)) in
  let* k := at_ b in let* n := node k in at_ (next n).
Definition lastfree : M Z :=
  let* e := gets (fun h => it_of (max_key (keys (memory h)))) in
  let* k := at_ e in let* n := node k in at_ (prior n).

Definition insertafter (place x : Z) : M unit :=
  ensure (place <? x) ;;;
  let* p := node place in
  let* f := gets (isfree p) in
  ensure f ;;;
  upd x (set_next (next p)) ;;;
  upd x (set_prior (It place)) ;;;
  upd place (set_next (It x)) ;;;
  let* nx := at_ (next p) in
  upd nx (set_prior (It x)).

Definition remove (x : Z) : M unit :=
  let* n := node x in
  let* f := gets (isfree n) in
  ensure f ;;;
  let* p := at_ (prior n) in
  upd p (set_next (next n)) ;;;
  let* nx := at_ (next n) in
  let* n := node x in
  upd nx (set_prior (prior n)) ;;;
  setused x.

Definition merge (low hi : Z) : M Z :=
  let* l := node low in
  let* n := node hi in
  let* fl := gets (isfree l) in
  ensure fl ;;;
  let* fh := gets (isfree n) in
  ensure fh ;;;
  if negb (u64 (low + len l) =? hi) then ret hi
  else
    ensure (negb (islastfree n)) ;;;
    upd low (set_len (u64 (len l + len n))) ;;;
    upd low (set_next (next n)) ;;;
    let* nx := at_ (next n) in
    upd nx (set_prior (It low)) ;;;
    modify (fun h => set_memory (delete hi (memory h)) h) ;;;
    ret low.

(** ** The calls *)

(** The constructor. *)
Definition last_key : Z := 2 ^ 64 - 1.
Definition SmallHeap_new (base length : Z) : res SmallHeap :=
  if ((base =? 0) || (base =? last_key) || (u64 (base + length) =? last_key))%bool then AssertFail
  else Ret (mkHeap base length length
         (<[0 := mkNode 0 (It base) End]> (<[base := mkNode length (It last_key) (It 0)]>
            (<[last_key := mkNode 0 End (It base)]> ∅))) {[ last_key ]}).

(** [before--] until a free node. *)
Fixpoint find_free (fuel : nat) (k : Z) : M Z :=
  match fuel with
  | O => failed
  | S fuel =>
      let* o := gets (fun h => before k (memory h)) in
      let* b := at_ (it_of o) in
      let* n := node b in
      let* f := gets (isfree n) in
      if f then ret b else find_free fuel b
  end.

Definition free (ptr : Z) : M unit :=
  if ptr =? 0 then ret tt
  else
    let* o := gets (fun h => memory h !! ptr) in
    match o with
    | None => failed
    | Some n =>
        modify (fun h => set_total (u64 (total_free h + len n)) h) ;;;
        let* fuel := gets (fun h => base.size (memory h)) in
        let* bf := find_free fuel ptr in
        let* b := node bf in
        let* nx := at_ (next b) in
        ensure (ptr <? nx) ;;;
        insertafter bf ptr ;;;
        let* x := merge bf ptr in
        let* n := node x in
        let* nx := at_ (next n) in
        let* _m := merge x nx in
        modify (fun h => set_high (high h ∖ {[ ptr ]}) h)
    end.

(** The walks of [alloc] and [alloc_high]: the first fitting node, or the guard. *)
Fixpoint first_fit (fuel : nat) (bytes : Z) (current : Z) : M (option Z) :=
  match fuel with
  | O => failed
  | S fuel =>
      let* n := node current in
      if islastfree n then ensure (len n =? 0) ;;; ret None
      else if bytes <=? len n then ret (Some current)
      else let* nx := at_ (next n) in first_fit fuel bytes nx
  end.
Fixpoint last_fit (fuel : nat) (bytes : Z) (current : Z) : M (option Z) :=
  match fuel with
  | O => failed
  | S fuel =>
      let* n := node current in
      if isfirstfree n then ensure (len n =? 0) ;;; ret None
      else if bytes <=? len n then ret (Some current)
      else let* pr := at_ (prior n) in last_fit fuel bytes pr
  end.

(** [alloc] at the node [current]. *)
Definition take_low (bytes : Z) (current : Z) : M Z :=
  modify (fun h => set_total (u64 (total_free h - bytes)) h) ;;;
  let* n := node current in
  (if negb (bytes =? len n) then
     let remaining := u64 (current + bytes) in
     modify (fun h => set_memory (<[remaining := mkNode (u64 (len n - bytes)) Unset Unset]> (memory h)) h) ;;;
     upd current (set_len bytes) ;;;
     insertafter current remaining
   else ret tt) ;;;
  remove current ;;;
  ret current.
Definition alloc (bytes : Z) : M (option Z) :=
  let* total := gets total_free in
  if ((total <? bytes) || (bytes =? 0))%bool then ret None
  else
    let* current := firstfree in
    let* fuel := gets (fun h => base.size (memory h)) in
    let* o := first_fit fuel bytes current in
    match o with Some k => let* p := take_low bytes k in ret (Some p) | None => ret None end.

Definition take_high (bytes : Z) (current : Z) : M Z :=
  modify (fun h => set_total (u64 (total_free h - bytes)) h) ;;;
  let* n := node current in
  let* p :=
    if negb (bytes =? len n) then
      let alloc := u64 (current + len n - bytes) in
      upd current (set_len (u64 (len n - bytes))) ;;;
      modify (fun h => set_memory (<[alloc := mkNode bytes Unset Unset]> (memory h)) h) ;;;
      setused alloc ;;;
      ret alloc
    else remove current ;;; ret current in
  modify (fun h => set_high ({[ p ]} ∪ high h) h) ;;;
  ret p.
Definition alloc_high (bytes : Z) : M (option Z) :=
  let* total := gets total_free in
  if ((total <? bytes) || (bytes =? 0))%bool then ret None
  else
    let* current := lastfree in
    let* fuel := gets (fun h => base.size (memory h)) in
    let* o := last_fit fuel bytes current in
    match o with Some k => let* p := take_high bytes k in ret (Some p) | None => ret None end.

Definition remaining (h : SmallHeap) : Z := total_free h.
Definition high_split (h : SmallHeap) : option Z := min_key (elements (high h)).

(** The blocks between the guards, with their state, in the order of the addresses. *)
Definition block : Type := Z * Z * bool.
Definition addr (b : block) : Z := b.1.1.
Definition size (b : block) : Z := b.1.2.
Definition is_free (b : block) : bool := b.2.

Example heap_example :
  match SmallHeap_new 4096 100 with
  | Ret h =>
      match (let* a := alloc 10 in let* b := alloc 20 in let* c := alloc_high 30 in
             free 4096 ;;; let* d := alloc 15 in let* e := alloc 10 in free 4106 ;;; free 4166 ;;;
             ret (a, b, c, d, e)) h with
      | Ret (h, r) => bool_decide (r = (Some 4096, Some 4106, Some 4166, Some 4126, Some 4096)) && (total_free h =? 75)
      | _ => false
      end
  | _ => false
  end = true.
Proof. vm_compute. reflexivity. Qed.
