(* ===== verification/HeapBlocks.v ===== *)
(** The reference of [SmallHeap]: a list of blocks that covers the pool without gaps, and first
    fit, last fit and release with coalescing on that list. *)
From S2P Require Import Prelude SmallHeap.
Local Open Scope Z_scope.
Implicit Types (bs : list block) (b : block) (m : memory_t) (h : SmallHeap) (k : Z).

(** ** The reference: a list of blocks *)

(** [bs] covers [from] to [to] without gaps. *)
Fixpoint tile (from : Z) bs (to : Z) : Prop :=
  match bs with [] => from = to | b :: bs => addr b = from /\ 0 < size b /\ tile (from + size b) bs to end.
Fixpoint coalesced bs : bool :=
  match bs with
  | b :: (c :: _) as bs => (negb (is_free b && is_free c) && coalesced bs)%bool
  | _ => true
  end.
Definition fits_in (bytes : Z) b : bool := (is_free b && (bytes <=? size b))%bool.

(** First fit: the block becomes used, its rest stays free. *)
Definition split_low (bytes : Z) b : list block :=
  (addr b, bytes, false) :: if bytes =? size b then [] else [(addr b + bytes, size b - bytes, true)].
Fixpoint alloc_abs (bytes : Z) bs : option (Z * list block) :=
  match bs with
  | [] => None
  | b :: bs => if fits_in bytes b then Some (addr b, split_low bytes b ++ bs)
               else '(p, bs) ← alloc_abs bytes bs; Some (p, b :: bs)
  end.
(** Last fit, from the upper end of the block. *)
Definition split_high (bytes : Z) b : list block :=
  (if bytes =? size b then [] else [(addr b, size b - bytes, true)]) ++ [(addr b + size b - bytes, bytes, false)].
Fixpoint alloc_high_abs (bytes : Z) bs : option (Z * list block) :=
  match bs with
  | [] => None
  | b :: bs => match alloc_high_abs bytes bs with
               | Some (p, bs) => Some (p, b :: bs)
               | None => if fits_in bytes b then Some (addr b + size b - bytes, split_high bytes b ++ bs) else None
               end
  end.
(** Release, then join all free neighbours. *)
Fixpoint coalesce bs : list block :=
  match bs with
  | [] => []
  | b :: bs =>
      match coalesce bs with
      | c :: r => if (is_free b && is_free c)%bool then (addr b, size b + size c, true) :: r else b :: c :: r
      | [] => [b]
      end
  end.
Definition release (p : Z) bs : list block := map (fun b => if addr b =? p then (addr b, size b, true) else b) bs.
Definition free_abs (p : Z) bs : list block := coalesce (release p bs).

Definition used bs : list block := filter (fun b => is_free b = false) bs.
Definition free_size bs : Z := sumZ (fun b => if is_free b then size b else 0) bs.

(** ** Lemmas about lists of blocks *)

Lemma tile_app from bs1 bs2 to : tile from (bs1 ++ bs2) to <-> exists mid, tile from bs1 mid /\ tile mid bs2 to.
Proof.
  revert from. induction bs1 as [|b bs1 IH]; intros from; simpl.
  - split; [eauto|by intros (m & -> & ?)].
  - split.
    + intros (Ha & Hs & Ht). apply IH in Ht as (m & H1 & H2). eauto 6.
    + intros (m & (Ha & Hs & Ht) & H2). split_and!; [done..|]. apply IH. eauto.
Qed.
Lemma tile_le from bs to : tile from bs to -> from <= to.
Proof. revert from. induction bs as [|b bs IH]; intros from; simpl; [lia|]. intros (_ & Hs & Ht). apply IH in Ht. lia. Qed.
Lemma tile_in from bs to b : tile from bs to -> b ∈ bs -> from <= addr b /\ 0 < size b /\ addr b + size b <= to.
Proof.
  revert from. induction bs as [|c bs IH]; intros from; simpl; [by intros _ ?%elem_of_nil|].
  intros (Ha & Hs & Ht) [->|Hb]%elem_of_cons; [apply tile_le in Ht; lia|]. destruct (IH _ Ht Hb). lia.
Qed.
(** The addresses before and behind a block. *)
Lemma tile_split from bs1 b bs2 to : tile from (bs1 ++ b :: bs2) to ->
  tile from bs1 (addr b) /\ 0 < size b /\ tile (addr b + size b) bs2 to.
Proof. rewrite tile_app. intros (m & H1 & Ha & Hs & H2). simpl in *. subst m. done. Qed.
Lemma tile_join from bs1 b bs2 to :
  tile from bs1 (addr b) -> 0 < size b -> tile (addr b + size b) bs2 to -> tile from (bs1 ++ b :: bs2) to.
Proof. intros. apply tile_app. exists (addr b). by split_and!. Qed.

Lemma tile_nodup from bs to : tile from bs to -> NoDup (addr <$> bs).
Proof.
  revert from. induction bs as [|b bs IH]; intros from; simpl; [intros _; apply NoDup_nil_2|].
  intros (Ha & Hs & Ht). apply NoDup_cons. split; [|by eapply IH].
  intros (c & Hc & Hin)%list_elem_of_fmap. destruct (tile_in _ _ _ _ Ht Hin). lia.
Qed.

Lemma sumZ_app {A} (f : A -> Z) l1 l2 : sumZ f (l1 ++ l2) = sumZ f l1 + sumZ f l2.
Proof. unfold sumZ. induction l1 as [|x l1 IH]; simpl; [done|]. rewrite IH. lia. Qed.
Lemma free_size_app bs1 bs2 : free_size (bs1 ++ bs2) = free_size bs1 + free_size bs2.
Proof. apply sumZ_app. Qed.
Lemma free_size_cons b bs : free_size (b :: bs) = (if is_free b then size b else 0) + free_size bs.
Proof. done. Qed.
Lemma free_size_range from bs to : tile from bs to -> 0 <= free_size bs <= to - from.
Proof.
  revert from. induction bs as [|b bs IH]; intros from; [cbn; lia|]. intros (Ha & Hs & Ht).
  rewrite free_size_cons. specialize (IH _ Ht). destruct (is_free b); lia.
Qed.

Lemma coalesced_app bs1 bs2 :
  coalesced (bs1 ++ bs2) = (coalesced bs1 && coalesced bs2 &&
    match last bs1, head bs2 with Some b, Some c => negb (is_free b && is_free c) | _, _ => true end)%bool.
Proof.
  induction bs1 as [|b bs1 IH]; [by rewrite andb_true_r|]. destruct bs1 as [|b' bs1].
  - destruct bs2 as [|c bs2]; [done|].
    change (coalesced ([b] ++ c :: bs2)) with (negb (is_free b && is_free c) && coalesced (c :: bs2))%bool.
    by rewrite andb_comm.
  - change (coalesced ((b :: b' :: bs1) ++ bs2)) with (negb (is_free b && is_free b') && coalesced ((b' :: bs1) ++ bs2))%bool.
    rewrite IH. change (coalesced (b :: b' :: bs1)) with (negb (is_free b && is_free b') && coalesced (b' :: bs1))%bool.
    change (last (b :: b' :: bs1)) with (last (b' :: bs1)). by rewrite <- !andb_assoc.
Qed.

Lemma coalesce_id bs : coalesced bs = true -> coalesce bs = bs.
Proof.
  induction bs as [|b bs IH]; [done|]. destruct bs as [|c bs]; [done|].
  intros [Hn Hc]%andb_true_iff. change (coalesce (b :: c :: bs)) with
    (match coalesce (c :: bs) with
     | d :: r => if (is_free b && is_free d)%bool then (addr b, size b + size d, true) :: r else b :: d :: r
     | [] => [b] end). rewrite IH by done. apply negb_true_iff in Hn. by rewrite Hn.
Qed.

(** A prefix that ends with a used block stays as it is. *)
Definition open_end bs : bool := match last bs with Some b => negb (is_free b) | None => true end.
Lemma open_end_snoc bs b : open_end (bs ++ [b]) = negb (is_free b).
Proof. unfold open_end. by rewrite last_snoc. Qed.
Lemma coalesce_prefix bs r : coalesced bs = true -> open_end bs = true -> coalesce (bs ++ r) = bs ++ coalesce r.
Proof.
  induction bs as [|b bs IH]; [done|]. destruct bs as [|c bs]; intros Hc Ho.
  - cbn in Ho. apply negb_true_iff in Ho. simpl. rewrite Ho. by destruct (coalesce r).
  - apply andb_true_iff in Hc as [Hn Hc]. specialize (IH Hc Ho). apply negb_true_iff in Hn.
    change (coalesce ((b :: c :: bs) ++ r)) with
      (match coalesce ((c :: bs) ++ r) with
       | d :: r => if (is_free b && is_free d)%bool then (addr b, size b + size d, true) :: r else b :: d :: r
       | [] => [b] end). rewrite IH. simpl. by rewrite Hn.
Qed.

Lemma coalesce_tile from bs to : tile from bs to -> tile from (coalesce bs) to.
Proof.
  revert from. induction bs as [|b bs IH]; intros from; [done|]. intros (Ha & Hs & Ht). specialize (IH _ Ht).
  simpl. destruct (coalesce bs) as [|c r]; [done|]. destruct IH as (Hc & Hsc & Hr).
  case_if; simpl; unfold addr, size in *; simpl; [|by split_and!].
  split_and!; [done|lia|]. by replace (from + (b.1.2 + c.1.2)) with (from + b.1.2 + c.1.2) by lia.
Qed.
Lemma coalesce_used bs : used (coalesce bs) = used bs.
Proof.
  unfold used. induction bs as [|b bs IH]; [done|]. simpl coalesce. rewrite filter_cons, <- IH.
  destruct (coalesce bs) as [|c r]; [by rewrite filter_cons|]. case_if.
  - apply andb_true_iff in Heqb0 as [Hb Hc]. rewrite decide_False by congruence.
    rewrite (filter_cons_False _ c) by congruence. by rewrite filter_cons_False.
  - by rewrite filter_cons.
Qed.
Lemma coalesce_free_size bs : free_size (coalesce bs) = free_size bs.
Proof.
  induction bs as [|b bs IH]; [done|]. rewrite free_size_cons, <- IH. simpl.
  destruct (coalesce bs) as [|c r]; [done|]. case_if; [|done].
  apply andb_true_iff in Heqb0 as [Hb Hc]. rewrite !free_size_cons, Hb, Hc. unfold is_free, size. simpl. lia.
Qed.
Lemma coalesce_coalesced bs : coalesced (coalesce bs) = true.
Proof.
  induction bs as [|b bs IH]; [done|]. simpl. destruct (coalesce bs) as [|c r]; [done|].
  case_if; [|simpl in *; by rewrite Heqb0].
  apply andb_true_iff in Heqb0 as [Hb Hc]. destruct r as [|d r]; [done|].
  apply andb_true_iff in IH as [Hn Hr]. rewrite Hc in Hn.
  apply andb_true_iff. split; [exact Hn|exact Hr].
Qed.

(** *** What the reference promises *)

Lemma alloc_abs_spec bytes bs p bs' :
  alloc_abs bytes bs = Some (p, bs') ->
  exists l1 b l2, bs = l1 ++ b :: l2 /\ fits_in bytes b = true /\ (forall c, c ∈ l1 -> fits_in bytes c = false) /\
    p = addr b /\ bs' = l1 ++ split_low bytes b ++ l2.
Proof.
  revert p bs'. induction bs as [|b bs IH]; intros p bs'; simpl; [done|]. destruct (fits_in bytes b) eqn:E.
  - intros [= <- <-]. exists [], b, bs. split_and!; [done..| |done|done]. by intros ? ?%elem_of_nil.
  - destruct (alloc_abs bytes bs) as [[q bs1]|] eqn:Ea; [|done]. intros [= <- <-].
    destruct (IH _ _ eq_refl) as (l1 & c & l2 & -> & Hf & Hno & -> & ->).
    exists (b :: l1), c, l2. split_and!; [done..| |done|done]. intros d [->|Hd]%elem_of_cons; auto.
Qed.
Lemma alloc_abs_none bytes bs : alloc_abs bytes bs = None <-> forall c, c ∈ bs -> fits_in bytes c = false.
Proof.
  induction bs as [|b bs IH]; simpl; [split; [by intros _ ? ?%elem_of_nil|done]|].
  destruct (fits_in bytes b) eqn:E.
  - split; [done|]. intros Hn. rewrite Hn in E; [done|by left].
  - destruct (alloc_abs bytes bs) as [[q bs1]|]; simpl.
    + split; [done|]. intros Hn. assert (Some (q, bs1) = None); [|done]. apply IH. intros c Hc. apply Hn. by right.
    + split; [|done]. intros _ c [->|Hc]%elem_of_cons; [done|]. by apply IH.
Qed.
Lemma alloc_high_abs_spec bytes bs p bs' :
  alloc_high_abs bytes bs = Some (p, bs') ->
  exists l1 b l2, bs = l1 ++ b :: l2 /\ fits_in bytes b = true /\ (forall c, c ∈ l2 -> fits_in bytes c = false) /\
    p = addr b + size b - bytes /\ bs' = l1 ++ split_high bytes b ++ l2.
Proof.
  revert p bs'. induction bs as [|b bs IH]; intros p bs'; simpl; [done|].
  destruct (alloc_high_abs bytes bs) as [[q bs1]|] eqn:Ea.
  - intros [= <- <-]. destruct (IH _ _ eq_refl) as (l1 & c & l2 & -> & Hf & Hno & -> & ->).
    exists (b :: l1), c, l2. by split_and!.
  - destruct (fits_in bytes b) eqn:E; [|done]. intros [= <- <-]. exists [], b, bs. split_and!; [done..| |done|done].
    clear IH E. induction bs as [|c bs IH]; [by intros ? ?%elem_of_nil|]. simpl in Ea.
    destruct (alloc_high_abs bytes bs) as [[]|]; [done|]. destruct (fits_in bytes c) eqn:Ec; [done|].
    intros d [->|Hd]%elem_of_cons; auto.
Qed.
Lemma alloc_high_abs_none bytes bs : alloc_high_abs bytes bs = None <-> forall c, c ∈ bs -> fits_in bytes c = false.
Proof.
  induction bs as [|b bs IH]; simpl; [split; [by intros _ ? ?%elem_of_nil|done]|].
  destruct (alloc_high_abs bytes bs) as [[q bs1]|].
  - split; [done|]. intros Hn. assert (Some (q, bs1) = None); [|done]. apply IH. intros c Hc. apply Hn. by right.
  - destruct (fits_in bytes b) eqn:E.
    + split; [done|]. intros Hn. rewrite Hn in E; [done|by left].
    + split; [|done]. intros _ c [->|Hc]%elem_of_cons; [done|]. by apply IH.
Qed.

Lemma used_app bs1 bs2 : used (bs1 ++ bs2) = used bs1 ++ used bs2.
Proof. apply filter_app. Qed.
Lemma used_split_low bytes b : used (split_low bytes b) = [(addr b, bytes, false)].
Proof. unfold split_low, used. rewrite filter_cons_True by done. case_if; [done|]. by rewrite filter_cons_False. Qed.
Lemma used_split_high bytes b : used (split_high bytes b) = [(addr b + size b - bytes, bytes, false)].
Proof. unfold split_high, used. case_if; simpl; [by rewrite filter_cons_True|]. rewrite filter_cons_False by done. by rewrite filter_cons_True. Qed.
Lemma used_free b : is_free b = true -> used [b] = [].
Proof. intros Hb. unfold used. by rewrite filter_cons_False by congruence. Qed.

Lemma split_low_tile bytes b : is_free b = true -> 0 < bytes <= size b -> 0 < size b ->
  tile (addr b) (split_low bytes b) (addr b + size b).
Proof.
  intros _ Hb Hs. unfold split_low. simpl. split_and!; [done|unfold size; simpl; lia|].
  unfold size at 1. simpl. destruct (Z.eqb_spec bytes (size b)) as [->|]; simpl; [done|].
  unfold addr, size in *. simpl. split_and!; [done|lia|lia].
Qed.
Lemma split_high_tile bytes b : is_free b = true -> 0 < bytes <= size b -> 0 < size b ->
  tile (addr b) (split_high bytes b) (addr b + size b).
Proof.
  intros _ Hb Hs. unfold split_high. destruct (Z.eqb_spec bytes (size b)) as [->|]; simpl; unfold addr, size in *; simpl.
  - split_and!; lia.
  - split_and!; lia.
Qed.
