(* ===== verification/HeapNodes.v ===== *)
(** The nodes of [SmallHeap] as a list of blocks: the nodes are the guards and the blocks, the
    free ones linked in the order of their addresses.  What linking, unlinking, cutting and
    joining do to that shape. *)
From S2P Require Import Prelude SmallHeap HeapBlocks.
Local Open Scope Z_scope.
Implicit Types (bs : list block) (b : block) (m : memory_t) (h : SmallHeap) (k : Z).

(** ** The nodes *)

Definition nx m k : option iterator_t := next <$> m !! k.
Definition pr m k : option iterator_t := prior <$> m !! k.
Definition ln m k : option Z := len <$> m !! k.

Definition link m (a b : Z) : Prop := nx m a = Some (It b) /\ pr m b = Some (It a).
Fixpoint chain m (l : list Z) : Prop :=
  match l with a :: (b :: _) as l => link m a b /\ chain m l | _ => True end.

Definition frees bs : list Z := addr <$> filter (fun b => is_free b = true) bs.
(** The free list with its guards. *)
Definition free_list bs : list Z := 0 :: frees bs ++ [last_key].

(** The map's nodes are the guards and the blocks, linked as the free list says; a used block
    is marked by [next = begin()], but for [x], which is not yet linked. *)
Record shape m (x : option Z) from bs (to : Z) : Prop := {
  s_from : 0 < from; s_to : to < last_key;
  s_dom : forall k, is_Some (m !! k) <-> k = 0 \/ k = last_key \/ k ∈ addr <$> bs;
  s_guard : ln m 0 = Some 0 /\ pr m 0 = Some End /\ ln m last_key = Some 0 /\ nx m last_key = Some End;
  s_len : forall b, b ∈ bs -> ln m (addr b) = Some (size b);
  s_used : forall b, b ∈ bs -> is_free b = false -> x <> Some (addr b) -> nx m (addr b) = Some (It 0);
  s_chain : chain m (free_list bs);
  s_tile : tile from bs to }.

Lemma frees_app bs1 bs2 : frees (bs1 ++ bs2) = frees bs1 ++ frees bs2.
Proof. unfold frees. by rewrite filter_app, fmap_app. Qed.
Lemma frees_cons_free b bs : is_free b = true -> frees (b :: bs) = addr b :: frees bs.
Proof. intros Hb. unfold frees. by rewrite filter_cons_True. Qed.
Lemma frees_cons_used b bs : is_free b = false -> frees (b :: bs) = frees bs.
Proof. intros Hb. unfold frees. by rewrite filter_cons_False by congruence. Qed.
Lemma elem_frees a bs : a ∈ frees bs <-> exists b, b ∈ bs /\ is_free b = true /\ a = addr b.
Proof. unfold frees. rewrite list_elem_of_fmap. setoid_rewrite list_elem_of_filter. naive_solver. Qed.
Lemma frees_range from bs to a : tile from bs to -> a ∈ frees bs -> from <= a < to.
Proof. intros Ht (b & Hb & _ & ->)%elem_frees. destruct (tile_in _ _ _ _ Ht Hb). lia. Qed.

Lemma chain_app m l1 a l2 : chain m (l1 ++ a :: l2) <-> chain m (l1 ++ [a]) /\ chain m (a :: l2).
Proof.
  induction l1 as [|x l1 IH]; [simpl; tauto|]. destruct l1 as [|y l1]; [simpl; tauto|].
  change (link m x y /\ chain m ((y :: l1) ++ a :: l2) <-> (link m x y /\ chain m ((y :: l1) ++ [a])) /\ chain m (a :: l2)).
  rewrite IH. tauto.
Qed.
(** A chain sees the [next] of all but its last and the [prior] of all but its first node. *)
Lemma chain_frame m m' a l :
  chain m (a :: l) -> (forall k, k ∈ removelast (a :: l) -> nx m' k = nx m k) -> (forall k, k ∈ l -> pr m' k = pr m k) ->
  chain m' (a :: l).
Proof.
  revert a. induction l as [|b l IH]; intros a; [done|]. intros [[H1 H2] Hc] Hn Hp. split.
  - split; [rewrite Hn by (by left); done|rewrite Hp by (by left); done].
  - apply IH; [done| |]; intros k Hk; [apply Hn; by right|apply Hp; by right].
Qed.
Lemma removelast_snoc {A} (l : list A) x : removelast (l ++ [x]) = l.
Proof. apply removelast_last. Qed.
Lemma chain_frame_snoc m m' l a :
  chain m (l ++ [a]) -> (forall k, k ∈ l -> nx m' k = nx m k) -> (forall k, k ∈ tail (l ++ [a]) -> pr m' k = pr m k) ->
  chain m' (l ++ [a]).
Proof.
  destruct l as [|x l]; [done|]. intros Hc Hn Hp. apply (chain_frame m); [done| |done].
  intros k Hk. apply Hn. by rewrite <- (removelast_snoc (x :: l) a).
Qed.

Lemma alter_proj {A} (g : Node -> A) f k m k' :
  g <$> alter f k m !! k' = if decide (k = k') then (fun n => g (f n)) <$> m !! k' else g <$> m !! k'.
Proof. case_decide as E; [subst; rewrite lookup_alter_eq; by destruct (m !! k')|by rewrite lookup_alter_ne]. Qed.
Lemma alter_dom f k m k' : is_Some (alter f k m !! k') <-> is_Some (m !! k').
Proof. destruct (decide (k = k')) as [->|]; [rewrite lookup_alter_eq; apply fmap_is_Some|by rewrite lookup_alter_ne]. Qed.

(** *** The order of the keys *)

Lemma elem_keys k m : k ∈ keys m <-> is_Some (m !! k).
Proof.
  unfold keys. rewrite list_elem_of_fmap. split.
  - intros ([k' n] & -> & Hin%elem_of_map_to_list). eauto.
  - intros [n Hn]. exists (k, n). split; [done|by apply elem_of_map_to_list].
Qed.
Lemma min_key_spec l x : x ∈ l -> (forall y, y ∈ l -> x <= y) -> min_key l = Some x.
Proof.
  induction l as [|y l IH]; [by intros ?%elem_of_nil|]. intros Hx Hmin. simpl.
  destruct (decide (x ∈ l)) as [Hin|Hin].
  - fold (min_key l). rewrite IH by (try done; intros; apply Hmin; by right). f_equal. specialize (Hmin y ltac:(by left)). lia.
  - apply elem_of_cons in Hx as [->|?]; [|done]. fold (min_key l).
    destruct (min_key l) as [z|] eqn:E; [|done]. f_equal.
    assert (z ∈ l) as Hz.
    { clear -E. revert z E. induction l as [|w l IH]; intros z; simpl; [done|]. fold (min_key l).
      destruct (min_key l) as [v|]; intros [= <-]; [|by left]. destruct (Z.min_spec w v) as [[_ ->]|[_ ->]]; [by left|right; by apply IH]. }
    specialize (Hmin z ltac:(by right)). lia.
Qed.
Lemma max_key_spec l x : x ∈ l -> (forall y, y ∈ l -> y <= x) -> max_key l = Some x.
Proof.
  induction l as [|y l IH]; [by intros ?%elem_of_nil|]. intros Hx Hmax. simpl.
  destruct (decide (x ∈ l)) as [Hin|Hin].
  - fold (max_key l). rewrite IH by (try done; intros; apply Hmax; by right). f_equal. specialize (Hmax y ltac:(by left)). lia.
  - apply elem_of_cons in Hx as [->|?]; [|done]. fold (max_key l).
    destruct (max_key l) as [z|] eqn:E; [|done]. f_equal.
    assert (z ∈ l) as Hz.
    { clear -E. revert z E. induction l as [|w l IH]; intros z; simpl; [done|]. fold (max_key l).
      destruct (max_key l) as [v|]; intros [= <-]; [|by left]. destruct (Z.max_spec w v) as [[_ ->]|[_ ->]]; [right; by apply IH|by left]. }
    specialize (Hmax z ltac:(by right)). lia.
Qed.

(** The keys of a map are those of a shape: what the order of the map gives. *)
Definition dom_ok m from bs (to : Z) : Prop :=
  0 < from /\ to < last_key /\ tile from bs to /\ forall k, is_Some (m !! k) <-> k = 0 \/ k = last_key \/ k ∈ addr <$> bs.

Lemma shape_dom m x from bs to : shape m x from bs to -> dom_ok m from bs to.
Proof. intros []. done. Qed.
Lemma addr_range from bs to k : tile from bs to -> k ∈ addr <$> bs -> from <= k < to.
Proof. intros Ht (b & -> & Hb)%list_elem_of_fmap. destruct (tile_in _ _ _ _ Ht Hb). lia. Qed.

Lemma begin_0 m from bs to : dom_ok m from bs to -> begin m = It 0.
Proof.
  intros (Hf & Ht & Hti & Hd). unfold begin. erewrite (min_key_spec _ 0); [done| |].
  - apply elem_keys, Hd. auto.
  - intros k [->|[->|Hk]]%elem_keys%Hd; [done|done|]. apply (addr_range _ _ _ _ Hti) in Hk. lia.
Qed.
Lemma rbegin_last m from bs to : dom_ok m from bs to -> it_of (max_key (keys m)) = It last_key.
Proof.
  intros (Hf & Ht & Hti & Hd). erewrite (max_key_spec _ last_key); [done| |].
  - apply elem_keys, Hd. auto.
  - intros k [->|[->|Hk]]%elem_keys%Hd; [done|done|]. apply (addr_range _ _ _ _ Hti) in Hk. lia.
Qed.
(** The key before a block's address: the block before it, or the first guard. *)
Lemma before_block m from l1 b l2 to :
  dom_ok m from (l1 ++ b :: l2) to -> before (addr b) m = Some (match last l1 with Some c => addr c | None => 0 end).
Proof.
  intros (Hf & Ht & Hti & Hd). apply tile_split in Hti as (T1 & Hs & T2).
  assert (from <= addr b) as Hb by (by apply tile_le in T1).
  assert (forall k, is_Some (m !! k) -> k < addr b -> k = 0 \/ k ∈ addr <$> l1) as Hlow.
  { intros k [->|[->|Hk]]%Hd Hlt; [by left| |].
    - apply tile_le in T2. lia.
    - rewrite fmap_app, fmap_cons, elem_of_app, elem_of_cons in Hk. destruct Hk as [?|[->|Hk]]; [by right|lia|].
      apply (addr_range _ _ _ _ T2) in Hk. lia. }
  unfold before. apply max_key_spec.
  - apply list_elem_of_filter. destruct (last l1) as [c|] eqn:El.
    + apply last_Some in El as [l1' ->]. apply tile_app in T1 as (mid & _ & Hc & Hsc & He). simpl in He. split; [lia|].
      apply elem_keys, Hd. rewrite !fmap_app. set_solver.
    + split; [lia|]. apply elem_keys, Hd. auto.
  - intros k [Hlt Hk%elem_keys]%list_elem_of_filter. destruct (Hlow k Hk Hlt) as [->|Hin].
    + destruct (last l1) as [c|] eqn:El; [|done]. apply last_Some in El as [l1' ->].
      apply tile_app in T1 as (mid & T1 & Hc & _). apply tile_le in T1. lia.
    + destruct (last l1) as [c|] eqn:El; [|by apply last_None in El as ->; apply elem_of_nil in Hin].
      apply last_Some in El as [l1' ->]. rewrite fmap_app, elem_of_app in Hin. apply tile_app in T1 as (mid & T1 & Hc & _).
      destruct Hin as [Hin|Hin]; [apply (addr_range _ _ _ _ T1) in Hin; lia|]. apply list_elem_of_singleton in Hin as ->. lia.
Qed.

(** *** Changes of the links *)

Definition ins (p x n : Z) m : memory_t :=
  alter (set_prior (It x)) n (alter (set_next (It x)) p (alter (set_prior (It p)) x (alter (set_next (It n)) x m))).
Definition rem (p x n : Z) m : memory_t :=
  alter (set_next (It 0)) x (alter (set_prior (It p)) n (alter (set_next (It n)) p m)).
Definition absorb (a c n : Z) (l : Z) m : memory_t :=
  delete c (alter (set_prior (It a)) n (alter (set_next (It n)) a (alter (set_len l) a m))).

(** What one change of a node does to the three views. *)
Lemma nx_next i k m k' : is_Some (m !! k) -> nx (alter (set_next i) k m) k' = if decide (k = k') then Some i else nx m k'.
Proof. intros [n Hn]. unfold nx. rewrite alter_proj. case_decide; [subst; by rewrite Hn|done]. Qed.
Lemma pr_prior i k m k' : is_Some (m !! k) -> pr (alter (set_prior i) k m) k' = if decide (k = k') then Some i else pr m k'.
Proof. intros [n Hn]. unfold pr. rewrite alter_proj. case_decide; [subst; by rewrite Hn|done]. Qed.
Lemma ln_len l k m k' : is_Some (m !! k) -> ln (alter (set_len l) k m) k' = if decide (k = k') then Some l else ln m k'.
Proof. intros [n Hn]. unfold ln. rewrite alter_proj. case_decide; [subst; by rewrite Hn|done]. Qed.
Lemma nx_other (f : Node -> Node) k m k' : (forall n, next (f n) = next n) -> nx (alter f k m) k' = nx m k'.
Proof. intros Hf. unfold nx. rewrite alter_proj. case_decide; [|done]. destruct (m !! k'); simpl; by rewrite ?Hf. Qed.
Lemma pr_other (f : Node -> Node) k m k' : (forall n, prior (f n) = prior n) -> pr (alter f k m) k' = pr m k'.
Proof. intros Hf. unfold pr. rewrite alter_proj. case_decide; [|done]. destruct (m !! k'); simpl; by rewrite ?Hf. Qed.
Lemma ln_other (f : Node -> Node) k m k' : (forall n, len (f n) = len n) -> ln (alter f k m) k' = ln m k'.
Proof. intros Hf. unfold ln. rewrite alter_proj. case_decide; [|done]. destruct (m !! k'); simpl; by rewrite ?Hf. Qed.

Ltac links := repeat first
  [ rewrite nx_next by (rewrite ?alter_dom; eauto) | rewrite pr_prior by (rewrite ?alter_dom; eauto)
  | rewrite ln_len by (rewrite ?alter_dom; eauto)
  | rewrite nx_other by done | rewrite pr_other by done | rewrite ln_other by done ].

Lemma ins_nx p x n m k : is_Some (m !! p) -> is_Some (m !! x) ->
  nx (ins p x n m) k = if decide (p = k) then Some (It x) else if decide (x = k) then Some (It n) else nx m k.
Proof. intros. unfold ins. by links. Qed.
Lemma ins_pr p x n m k : is_Some (m !! n) -> is_Some (m !! x) ->
  pr (ins p x n m) k = if decide (n = k) then Some (It x) else if decide (x = k) then Some (It p) else pr m k.
Proof. intros. unfold ins. by links. Qed.
Lemma ins_ln p x n m k : ln (ins p x n m) k = ln m k.
Proof. unfold ins. by links. Qed.
Lemma ins_dom p x n m k : is_Some (ins p x n m !! k) <-> is_Some (m !! k).
Proof. unfold ins. by rewrite !alter_dom. Qed.

Lemma rem_nx p x n m k : is_Some (m !! p) -> is_Some (m !! x) ->
  nx (rem p x n m) k = if decide (x = k) then Some (It 0) else if decide (p = k) then Some (It n) else nx m k.
Proof. intros. unfold rem. by links. Qed.
Lemma rem_pr p x n m k : is_Some (m !! n) -> pr (rem p x n m) k = if decide (n = k) then Some (It p) else pr m k.
Proof. intros. unfold rem. by links. Qed.
Lemma rem_ln p x n m k : ln (rem p x n m) k = ln m k.
Proof. unfold rem. by links. Qed.
Lemma rem_dom p x n m k : is_Some (rem p x n m !! k) <-> is_Some (m !! k).
Proof. unfold rem. by rewrite !alter_dom. Qed.

Lemma absorb_proj {A} (g : Node -> A) a c n l m k : k <> c ->
  g <$> absorb a c n l m !! k = g <$> alter (set_prior (It a)) n (alter (set_next (It n)) a (alter (set_len l) a m)) !! k.
Proof. intros Hk. unfold absorb. by rewrite lookup_delete_ne. Qed.
Lemma absorb_nx a c n l m k : is_Some (m !! a) -> k <> c ->
  nx (absorb a c n l m) k = if decide (a = k) then Some (It n) else nx m k.
Proof. intros Ha Hk. unfold nx at 1. rewrite absorb_proj by done. fold (nx (alter (set_prior (It a)) n (alter (set_next (It n)) a (alter (set_len l) a m))) k). by links. Qed.
Lemma absorb_pr a c n l m k : is_Some (m !! n) -> k <> c ->
  pr (absorb a c n l m) k = if decide (n = k) then Some (It a) else pr m k.
Proof. intros Ha Hk. unfold pr at 1. rewrite absorb_proj by done. fold (pr (alter (set_prior (It a)) n (alter (set_next (It n)) a (alter (set_len l) a m))) k). by links. Qed.
Lemma absorb_ln a c n l m k : is_Some (m !! a) -> k <> c ->
  ln (absorb a c n l m) k = if decide (a = k) then Some l else ln m k.
Proof. intros Ha Hk. unfold ln at 1. rewrite absorb_proj by done. fold (ln (alter (set_prior (It a)) n (alter (set_next (It n)) a (alter (set_len l) a m))) k). by links. Qed.
Lemma absorb_dom a c n l m k : is_Some (absorb a c n l m !! k) <-> k <> c /\ is_Some (m !! k).
Proof.
  unfold absorb. destruct (decide (k = c)) as [->|Hk].
  - rewrite lookup_delete_eq. split; [by intros []|by intros []].
  - rewrite lookup_delete_ne, !alter_dom by done. tauto.
Qed.

(** What they do to the chain. *)
Definition in_dom m (l : list Z) : Prop := forall k, k ∈ l -> is_Some (m !! k).

Lemma chain_two m L p n R : chain m (L ++ p :: n :: R) <-> chain m (L ++ [p]) /\ link m p n /\ chain m (n :: R).
Proof. rewrite chain_app. done. Qed.
Lemma tail_snoc (l : list Z) a k : k ∈ tail (l ++ [a]) -> k ∈ l \/ k = a.
Proof. destruct l as [|x l]; simpl; [by intros ?%elem_of_nil|]. rewrite elem_of_app, list_elem_of_singleton, elem_of_cons. tauto. Qed.
Lemma nodup_two (L : list Z) p x n R :
  NoDup (L ++ p :: x :: n :: R) ->
  p <> x /\ p <> n /\ x <> n /\ (forall k, k ∈ L -> k <> p /\ k <> x /\ k <> n) /\ (forall k, k ∈ R -> k <> p /\ k <> x /\ k <> n) /\
  (forall k, k ∈ L -> k ∈ R -> False).
Proof.
  rewrite NoDup_app, !NoDup_cons, !not_elem_of_cons. intros (_ & Hd & (? & ? & ?) & (? & ?) & ? & _). split_and!; try tauto.
  - intros k Hk. specialize (Hd k Hk). set_solver.
  - intros k Hk. set_solver.
  - intros k Hk Hk'. specialize (Hd k Hk). set_solver.
Qed.

Lemma removelast_in (l : list Z) k : k ∈ removelast l -> k ∈ l.
Proof.
  induction l as [|x l IH]; [done|]. destruct l as [|y l]; [by intros ?%elem_of_nil|].
  change (removelast (x :: y :: l)) with (x :: removelast (y :: l)). intros [->|Hk]%elem_of_cons; [by left|right; auto].
Qed.


(** A chain around a node, and the parts that a change near that node leaves alone. *)
Lemma chain_three m L p x n R :
  chain m (L ++ p :: x :: n :: R) <-> chain m (L ++ [p]) /\ link m p x /\ link m x n /\ chain m (n :: R).
Proof. rewrite chain_two. simpl. tauto. Qed.
Lemma chain_sides m m' L p n R :
  chain m (L ++ [p]) -> chain m (n :: R) ->
  (forall k, k ∈ L -> nx m' k = nx m k) -> (forall k, k ∈ L \/ k = p -> pr m' k = pr m k) ->
  (forall k, k ∈ R \/ k = n -> nx m' k = nx m k) -> (forall k, k ∈ R -> pr m' k = pr m k) ->
  chain m' (L ++ [p]) /\ chain m' (n :: R).
Proof.
  intros HL HR H1 H2 H3 H4. split.
  - apply (chain_frame_snoc m); [done..|]. intros k Hk%tail_snoc. auto.
  - apply (chain_frame m); [done| |done]. intros k Hk%removelast_in%elem_of_cons. naive_solver.
Qed.
Ltac links_at f := rewrite f by done; repeat case_decide; subst; naive_solver.

Lemma chain_ins m L p x n R :
  NoDup (L ++ p :: x :: n :: R) -> in_dom m [p; x; n] -> chain m (L ++ p :: n :: R) -> chain (ins p x n m) (L ++ p :: x :: n :: R).
Proof.
  intros Hnd Hd Hc. apply chain_two in Hc as (HL & _ & HR). apply nodup_two in Hnd as (? & ? & ? & HnL & HnR & _).
  assert (is_Some (m !! p) /\ is_Some (m !! x) /\ is_Some (m !! n)) as (Dp & Dx & Dn) by (split_and!; apply Hd; set_solver).
  destruct (chain_sides m (ins p x n m) L p n R) as [HL' HR']; [done|done|intros k Hk; (links_at ins_nx || links_at ins_pr)..|].
  apply chain_three. split_and!; [done| | |done]; split; (links_at ins_nx || links_at ins_pr).
Qed.
Lemma chain_rem m L p x n R :
  NoDup (L ++ p :: x :: n :: R) -> in_dom m [p; x; n] -> chain m (L ++ p :: x :: n :: R) -> chain (rem p x n m) (L ++ p :: n :: R).
Proof.
  intros Hnd Hd Hc. apply chain_three in Hc as (HL & _ & _ & HR). apply nodup_two in Hnd as (? & ? & ? & HnL & HnR & _).
  assert (is_Some (m !! p) /\ is_Some (m !! x) /\ is_Some (m !! n)) as (Dp & Dx & Dn) by (split_and!; apply Hd; set_solver).
  destruct (chain_sides m (rem p x n m) L p n R) as [HL' HR']; [done|done|intros k Hk; (links_at rem_nx || links_at rem_pr)..|].
  apply chain_two. split_and!; [done| |done]; split; (links_at rem_nx || links_at rem_pr).
Qed.
Lemma chain_absorb m L a x n R l :
  NoDup (L ++ a :: x :: n :: R) -> in_dom m [a; x; n] -> chain m (L ++ a :: x :: n :: R) -> chain (absorb a x n l m) (L ++ a :: n :: R).
Proof.
  intros Hnd Hd Hc. apply chain_three in Hc as (HL & _ & _ & HR). apply nodup_two in Hnd as (? & ? & ? & HnL & HnR & _).
  assert (is_Some (m !! a) /\ is_Some (m !! x) /\ is_Some (m !! n)) as (Da & Dx & Dn) by (split_and!; apply Hd; set_solver).
  assert (forall k, k ∈ L \/ k = a -> k <> x /\ n <> k) as NL by naive_solver.
  assert (forall k, k ∈ R \/ k = n -> k <> x /\ a <> k) as NR by naive_solver.
  destruct (chain_sides m (absorb a x n l m) L a n R) as [HL' HR']; [done|done| | | | |].
  - intros k Hk. rewrite absorb_nx, decide_False by naive_solver. done.
  - intros k Hk. rewrite absorb_pr, decide_False by naive_solver. done.
  - intros k Hk. rewrite absorb_nx, decide_False by naive_solver. done.
  - intros k Hk. rewrite absorb_pr, decide_False by naive_solver. done.
  - apply chain_two. split_and!; [done| |done]. split.
    + by rewrite absorb_nx, decide_True by done.
    + by rewrite absorb_pr, decide_True by done.
Qed.

(** *** The shape under linking, unlinking, cutting and joining *)

Definition prev_free bs : Z := default 0 (last (frees bs)).
Definition next_free bs : Z := default last_key (head (frees bs)).
Definition mark (f : bool) b : block := (addr b, size b, f).

Lemma mark_eq b f : is_free b = f -> mark f b = b.
Proof. destruct b as [[a s] g]. simpl. by intros <-. Qed.
Lemma free_list_ends l1 l2 :
  exists L R, 0 :: frees l1 = L ++ [prev_free l1] /\ frees l2 ++ [last_key] = next_free l2 :: R.
Proof.
  assert (exists L, 0 :: frees l1 = L ++ [prev_free l1]) as [L HL].
  { unfold prev_free. induction (frees l1) as [|a l] using rev_ind; [by exists []|].
    exists (0 :: l). by rewrite last_snoc. }
  assert (exists R, frees l2 ++ [last_key] = next_free l2 :: R) as [R HR].
  { unfold next_free. destruct (frees l2) as [|a l]; [by exists []|by exists (l ++ [last_key])]. }
  eauto.
Qed.
Lemma free_list_split l1 l2 L R mid :
  0 :: frees l1 = L ++ [prev_free l1] -> frees l2 ++ [last_key] = next_free l2 :: R ->
  free_list (l1 ++ mid ++ l2) = L ++ prev_free l1 :: frees mid ++ next_free l2 :: R.
Proof.
  intros HL HR. unfold free_list. rewrite !frees_app. rewrite <- !app_assoc, HR.
  rewrite app_comm_cons, HL, <- app_assoc. done.
Qed.
Lemma free_list_nodup from bs to : 0 < from -> to < last_key -> tile from bs to -> NoDup (free_list bs).
Proof.
  intros Hf Ht Hti. unfold free_list. rewrite NoDup_cons, NoDup_app. split_and!.
  - intros [H0%(frees_range _ _ _ _ Hti)|?%list_elem_of_singleton]%elem_of_app; [lia|done].
  - unfold frees. apply tile_nodup in Hti. clear Hf Ht. induction bs as [|b bs IH]; [constructor|]. apply NoDup_cons in Hti as [Hb Hnd]. rewrite filter_cons. case_decide; [|auto]. apply NoDup_cons. split; [|auto]. intros (c & Hc & [_ Hin]%list_elem_of_filter)%list_elem_of_fmap. apply Hb. rewrite Hc. by apply list_elem_of_fmap_2.
  - intros k Hk%(frees_range _ _ _ _ Hti) ->%list_elem_of_singleton. lia.
  - apply NoDup_singleton.
Qed.
Lemma free_list_dom m x from bs to : shape m x from bs to -> in_dom m (free_list bs).
Proof.
  intros Hs k. unfold free_list. rewrite elem_of_cons, elem_of_app, list_elem_of_singleton, (s_dom _ _ _ _ _ Hs).
  intros [->|[Hk| ->]]; [by auto| |by auto]. right. right. apply elem_frees in Hk as (b & Hb & _ & ->). by apply list_elem_of_fmap_2.
Qed.

Lemma addrs_mid l1 b b' l2 : addr b' = addr b -> addr <$> (l1 ++ b' :: l2) = addr <$> (l1 ++ b :: l2).
Proof. intros Ha. by rewrite !fmap_app, !fmap_cons, Ha. Qed.
Lemma addr_fmap b bs : b ∈ bs -> addr b ∈ addr <$> bs.
Proof. apply list_elem_of_fmap_2. Qed.
(** The addresses of a shape are neither of the guards, and distinct. *)
Lemma shape_addr m x from bs to b : shape m x from bs to -> b ∈ bs -> 0 < addr b < last_key /\ addr b + size b < last_key.
Proof. intros [Hf Ht _ _ _ _ _ Hti] Hb. destruct (tile_in _ _ _ _ Hti Hb). lia. Qed.
Lemma mid_addr_ne from l1 b l2 to c : tile from (l1 ++ b :: l2) to -> c ∈ l1 ++ l2 -> addr c <> addr b.
Proof.
  intros (T1 & Hs & T2)%tile_split [Hc|Hc]%elem_of_app; [apply (tile_in _ _ _ _ T1) in Hc|apply (tile_in _ _ _ _ T2) in Hc]; lia.
Qed.
Lemma elem_mid {A} (l1 l2 : list A) y c : c ∈ l1 ++ y :: l2 <-> c = y \/ c ∈ l1 ++ l2.
Proof. rewrite !elem_of_app, elem_of_cons. tauto. Qed.
Lemma tile_mark from l1 b l2 to f : tile from (l1 ++ b :: l2) to -> tile from (l1 ++ mark f b :: l2) to.
Proof. intros (T1 & Hs & T2)%tile_split. by apply tile_join. Qed.

(** A neighbour in the free list is not one of the blocks around. *)
Lemma prev_cases l1 : prev_free l1 = 0 \/ exists c, c ∈ l1 /\ is_free c = true /\ prev_free l1 = addr c.
Proof.
  unfold prev_free. destruct (last (frees l1)) as [a|] eqn:E; [right|by left]. simpl.
  apply last_Some in E as [l E]. apply elem_frees. rewrite E. set_solver.
Qed.
Lemma next_cases l2 : next_free l2 = last_key \/ exists c, c ∈ l2 /\ is_free c = true /\ next_free l2 = addr c.
Proof.
  unfold next_free. destruct (frees l2) as [|a l] eqn:E; [by left|right]. simpl. apply elem_frees. rewrite E. by left.
Qed.

Section one_block.
Context (m : memory_t) (x : option Z) (from to : Z) (l1 : list block) (b : block) (l2 : list block).
Hypothesis Hs : shape m x from (l1 ++ b :: l2) to.
Abbreviation p := (prev_free l1).
Abbreviation n := (next_free l2).

Lemma around_dom : is_Some (m !! p) /\ is_Some (m !! addr b) /\ is_Some (m !! n).
Proof using Hs.
  split_and!; apply (s_dom _ _ _ _ _ Hs).
  - destruct (prev_cases l1) as [->|(c & Hc & _ & ->)]; [by auto|]. right; right. apply addr_fmap. set_solver.
  - right; right. apply addr_fmap. set_solver.
  - destruct (next_cases l2) as [->|(c & Hc & _ & ->)]; [by auto|]. right; right. apply addr_fmap. set_solver.
Qed.
Lemma around_lt : p < addr b < n.
Proof using Hs.
  pose proof (s_from _ _ _ _ _ Hs). pose proof (s_to _ _ _ _ _ Hs).
  destruct (tile_split _ _ _ _ _ (s_tile _ _ _ _ _ Hs)) as (T1 & Hsz & T2).
  pose proof (tile_le _ _ _ T1). pose proof (tile_le _ _ _ T2). split.
  - destruct (prev_cases l1) as [->|(c & Hc & _ & ->)]; [lia|]. destruct (tile_in _ _ _ _ T1 Hc). lia.
  - destruct (next_cases l2) as [->|(c & Hc & _ & ->)]; [lia|]. destruct (tile_in _ _ _ _ T2 Hc). lia.
Qed.
(** Where the chain passes the block. *)
Lemma around_chain : exists L R,
  NoDup (L ++ p :: addr b :: n :: R) /\
  free_list (l1 ++ b :: l2) = L ++ p :: frees [b] ++ n :: R /\
  forall f, free_list (l1 ++ mark f b :: l2) = L ++ p :: frees [mark f b] ++ n :: R.
Proof using Hs.
  destruct (free_list_ends l1 l2) as (L & R & HL & HR). exists L, R. split_and!.
  - change (L ++ p :: addr b :: n :: R) with (L ++ p :: frees [mark true b] ++ n :: R).
    rewrite <- (free_list_split _ _ _ _ [mark true b] HL HR). eapply free_list_nodup.
    + apply (s_from _ _ _ _ _ Hs).
    + apply (s_to _ _ _ _ _ Hs).
    + apply (tile_mark _ _ _ _ _ true), (s_tile _ _ _ _ _ Hs).
  - by rewrite <- (free_list_split _ _ _ _ [b] HL HR).
  - intros f. by rewrite <- (free_list_split _ _ _ _ [mark f b] HL HR).
Qed.
Lemma around_in_dom : in_dom m [p; addr b; n].
Proof using Hs. destruct around_dom as (? & ? & ?). intros k. rewrite !elem_of_cons. intros [->|[->|[->|?%elem_of_nil]]]; done. Qed.
End one_block.

Lemma tile_addr_inj from bs to b c : tile from bs to -> b ∈ bs -> c ∈ bs -> addr b = addr c -> b = c.
Proof.
  intros Ht Hb Hc Ha. apply list_elem_of_split in Hb as (l1 & l2 & ->). apply elem_mid in Hc as [->|Hc]; [done|].
  by apply (mid_addr_ne _ _ _ _ _ _ Ht) in Hc.
Qed.
(** A block that is not free is apart from the free list. *)
Lemma used_apart m x from l1 b l2 to c : shape m x from (l1 ++ b :: l2) to -> c ∈ l1 ++ l2 -> is_free c = false ->
  addr c <> prev_free l1 /\ addr c <> addr b /\ addr c <> next_free l2.
Proof.
  intros Hs Hc Hu. pose proof (s_tile _ _ _ _ _ Hs) as Ht.
  assert (c ∈ l1 ++ b :: l2) as Hin by (by apply elem_mid; right).
  destruct (shape_addr _ _ _ _ _ _ Hs Hin) as [? _]. split_and!.
  - destruct (prev_cases l1) as [->|(d & Hd & Hf & ->)]; [lia|]. intros Ha.
    rewrite (tile_addr_inj _ _ _ c d Ht Hin ltac:(set_solver) Ha) in Hu. congruence.
  - by apply (mid_addr_ne _ _ _ _ _ _ Ht).
  - destruct (next_cases l2) as [->|(d & Hd & Hf & ->)]; [lia|]. intros Ha.
    rewrite (tile_addr_inj _ _ _ c d Ht Hin ltac:(set_solver) Ha) in Hu. congruence.
Qed.

Lemma shape_mark m m' x x' from l1 b l2 to f :
  shape m x from (l1 ++ b :: l2) to ->
  (forall k, is_Some (m' !! k) <-> is_Some (m !! k)) -> (forall k, ln m' k = ln m k) ->
  pr m' 0 = pr m 0 -> nx m' last_key = nx m last_key ->
  (forall c, c ∈ l1 ++ l2 -> is_free c = false -> x' <> Some (addr c) -> nx m' (addr c) = nx m (addr c) /\ x <> Some (addr c)) ->
  (f = false -> x' <> Some (addr b) -> nx m' (addr b) = Some (It 0)) ->
  chain m' (free_list (l1 ++ mark f b :: l2)) -> shape m' x' from (l1 ++ mark f b :: l2) to.
Proof.
  intros [] Hd Hl Hp0 Hnl Hu Hb Hc. constructor; try done.
  - intros k. by rewrite Hd, s_dom0, (addrs_mid l1 b (mark f b)).
  - by rewrite !Hl, Hp0, Hnl.
  - intros c [->|Hin]%elem_mid; rewrite Hl.
    + apply (s_len0 b). apply elem_mid. by left.
    + apply s_len0. apply elem_mid. by right.
  - intros c [->|Hin]%elem_mid Hf Hx; [by apply Hb|]. destruct (Hu c Hin Hf Hx) as [-> Hx'].
    apply s_used0; [|done|done]. apply elem_mid. by right.
  - by apply tile_mark.
Qed.

(** [insertafter] and [remove]. *)
Lemma shape_link m x from l1 b l2 to :
  shape m x from (l1 ++ b :: l2) to -> is_free b = false -> (forall c, c ∈ l1 ++ l2 -> x <> Some (addr c)) ->
  shape (ins (prev_free l1) (addr b) (next_free l2) m) None from (l1 ++ mark true b :: l2) to.
Proof.
  intros Hs Hb Hx. destruct (around_dom _ _ _ _ _ _ _ Hs) as (Dp & Db & Dn).
  pose proof (around_lt _ _ _ _ _ _ _ Hs) as Hlt. destruct (around_chain _ _ _ _ _ _ _ Hs) as (L & R & Hnd & Hfl & Hm).
  assert (0 < from <= addr b /\ addr b < last_key) as Hr.
  { destruct (shape_addr _ _ _ _ _ b Hs) as [? _]; [set_solver|]. pose proof (s_from _ _ _ _ _ Hs).
    destruct (tile_in _ _ _ b (s_tile _ _ _ _ _ Hs)); [set_solver|lia]. }
  eapply shape_mark; [done|apply ins_dom|apply ins_ln| | | |done|].
  - rewrite ins_pr by done. rewrite !decide_False by lia. done.
  - rewrite ins_nx by done. rewrite !decide_False by lia. done.
  - intros c Hc Hu _. destruct (used_apart _ _ _ _ _ _ _ _ Hs Hc Hu) as (? & ? & _). split; [|by apply Hx].
    rewrite ins_nx by done. by rewrite !decide_False by congruence.
  - rewrite Hm. rewrite frees_cons_free by done. apply chain_ins; [done|exact (around_in_dom _ _ _ _ _ _ _ Hs)|].
    pose proof (s_chain _ _ _ _ _ Hs) as Hc. rewrite Hfl, frees_cons_used in Hc by done. done.
Qed.
Lemma shape_unlink m from l1 b l2 to :
  shape m None from (l1 ++ b :: l2) to -> is_free b = true ->
  shape (rem (prev_free l1) (addr b) (next_free l2) m) None from (l1 ++ mark false b :: l2) to.
Proof.
  intros Hs Hb. destruct (around_dom _ _ _ _ _ _ _ Hs) as (Dp & Db & Dn).
  pose proof (around_lt _ _ _ _ _ _ _ Hs) as Hlt. destruct (around_chain _ _ _ _ _ _ _ Hs) as (L & R & Hnd & Hfl & Hm).
  assert (0 < from <= addr b /\ addr b < last_key) as Hr.
  { destruct (shape_addr _ _ _ _ _ b Hs) as [? _]; [set_solver|]. pose proof (s_from _ _ _ _ _ Hs).
    destruct (tile_in _ _ _ b (s_tile _ _ _ _ _ Hs)); [set_solver|lia]. }
  eapply shape_mark; [done|apply rem_dom|apply rem_ln| | | | |].
  - rewrite rem_pr by done. rewrite decide_False by lia. done.
  - rewrite rem_nx by done. rewrite !decide_False by lia. done.
  - intros c Hc Hu _. destruct (used_apart _ _ _ _ _ _ _ _ Hs Hc Hu) as (? & ? & _). split; [|done].
    rewrite rem_nx by done. by rewrite !decide_False by congruence.
  - intros _ _. rewrite rem_nx by done. by rewrite decide_True.
  - rewrite Hm, frees_cons_used by done. apply chain_rem; [done|exact (around_in_dom _ _ _ _ _ _ _ Hs)|].
    pose proof (s_chain _ _ _ _ _ Hs) as Hc. rewrite Hfl, frees_cons_free in Hc by done. done.
Qed.
(** [setused] of the new block. *)
Lemma shape_setused m from l1 b l2 to :
  shape m (Some (addr b)) from (l1 ++ b :: l2) to -> is_free b = false ->
  shape (alter (set_next (It 0)) (addr b) m) None from (l1 ++ b :: l2) to.
Proof.
  intros Hs Hb. destruct (around_dom _ _ _ _ _ _ _ Hs) as (Dp & Db & Dn).
  rewrite <- (mark_eq b false) at 2 by done.
  destruct (shape_addr _ _ _ _ _ b Hs) as [Hr _]; [set_solver|].
  destruct (around_chain _ _ _ _ _ _ _ Hs) as (L & R & Hnd & Hfl & Hm).
  eapply shape_mark; [done|apply alter_dom|intros k; by rewrite ln_other|by rewrite pr_other| | | |].
  - rewrite nx_next, decide_False by (done || lia). done.
  - intros c Hc Hu _. pose proof (mid_addr_ne _ _ _ _ _ _ (s_tile _ _ _ _ _ Hs) Hc).
    rewrite nx_next, decide_False by (done || congruence). split; [done|]. congruence.
  - intros _ _. by rewrite nx_next, decide_True by done.
  - pose proof (s_chain _ _ _ _ _ Hs) as Hc. rewrite mark_eq by done.
    rewrite Hfl, frees_cons_used in Hc |- * by done. apply chain_two in Hc as (HL & Hl & HR).
    apply nodup_two in Hnd as (? & ? & ? & HnL & HnR & _).
    destruct (chain_sides m (alter (set_next (It 0)) (addr b) m) L (prev_free l1) (next_free l2) R) as [HL' HR']; [done|done|..].
    1-4: intros k Hk; links; rewrite ?decide_False by naive_solver; done.
    apply chain_two. split_and!; [done| |done]. destruct Hl. split; links; rewrite ?decide_False by done; done.
Qed.

Lemma chain_same m m' l : chain m l -> (forall k, k ∈ l -> nx m' k = nx m k /\ pr m' k = pr m k) -> chain m' l.
Proof.
  destruct l as [|a l]; [done|]. intros Hc Hk. apply (chain_frame m); [done| |].
  - intros k Hin%removelast_in. by apply Hk.
  - intros k Hin. apply Hk. by right.
Qed.
(** [memory[remaining]], with the length moved. *)
Definition cut (a s1 s2 : Z) (i j : iterator_t) m : memory_t := <[a + s1 := mkNode s2 i j]> (alter (set_len s1) a m).

Lemma shape_cut m from l1 b l2 to s1 i j :
  shape m None from (l1 ++ b :: l2) to -> 0 < s1 < size b ->
  shape (cut (addr b) s1 (size b - s1) i j m) (Some (addr b + s1)) from
    (l1 ++ (addr b, s1, is_free b) :: (addr b + s1, size b - s1, false) :: l2) to.
Proof.
  intros Hs H1. pose proof (around_dom _ _ _ _ _ _ _ Hs) as (_ & Db & _).
  destruct (tile_split _ _ _ _ _ (s_tile _ _ _ _ _ Hs)) as (T1 & Hsz & T2).
  pose proof (tile_le _ _ _ T1). pose proof (tile_le _ _ _ T2).
  assert (tile from (l1 ++ (addr b, s1, is_free b) :: (addr b + s1, size b - s1, false) :: l2) to) as Ht.
  { apply tile_join; [done|cbn; lia|]. cbn. split_and!; [done|cbn; lia|]. cbn. by replace (addr b + s1 + (size b - s1)) with (addr b + size b) by lia. }
  assert (forall c, c ∈ l1 ++ b :: l2 -> addr c <> addr b + s1) as Hq.
  { intros c Hc%elem_mid Ha. destruct Hc as [->|[Hc|Hc]%elem_of_app]; [lia|apply (tile_in _ _ _ _ T1) in Hc; lia|apply (tile_in _ _ _ _ T2) in Hc; lia]. }
  assert (free_list (l1 ++ (addr b, s1, is_free b) :: (addr b + s1, size b - s1, false) :: l2) = free_list (l1 ++ b :: l2)) as Hfl.
  { unfold free_list. do 2 f_equal. rewrite !frees_app. f_equal. destruct (is_free b) eqn:Eb.
    - rewrite (frees_cons_free b), frees_cons_free by done. by rewrite frees_cons_used.
    - rewrite (frees_cons_used b), frees_cons_used by done. by rewrite frees_cons_used. }
  destruct Hs as [? ? Hd Hg Hl Hu Hc _].
  assert (forall A (g : Node -> A) k, k <> addr b + s1 -> g <$> cut (addr b) s1 (size b - s1) i j m !! k = g <$> alter (set_len s1) (addr b) m !! k) as Hpj.
  { intros A g k Hk. unfold cut. by rewrite lookup_insert_ne. }
  assert (forall k, k <> addr b + s1 -> nx (cut (addr b) s1 (size b - s1) i j m) k = nx m k) as Hnx by (intros k Hk; unfold nx at 1; rewrite Hpj by done; by apply nx_other).
  assert (forall k, k <> addr b + s1 -> pr (cut (addr b) s1 (size b - s1) i j m) k = pr m k) as Hpr by (intros k Hk; unfold pr at 1; rewrite Hpj by done; by apply pr_other).
  assert (forall k, k <> addr b + s1 -> ln (cut (addr b) s1 (size b - s1) i j m) k = if decide (addr b = k) then Some s1 else ln m k) as Hln.
  { intros k Hk. unfold ln at 1. rewrite Hpj by done. by apply ln_len. }
  constructor; try done.
  - intros k. unfold cut. rewrite lookup_insert_is_Some, alter_dom, Hd, !fmap_app, !fmap_cons, !elem_of_app, !elem_of_cons. simpl.
    change (addr (addr b, s1, is_free b)) with (addr b). change (addr (addr b + s1, size b - s1, false)) with (addr b + s1).
    destruct (decide (addr b + s1 = k)); naive_solver.
  - rewrite !Hln, Hpr, Hnx, !decide_False by lia. done.
  - intros c Hin. apply elem_mid in Hin as [->|Hin]; [|rewrite elem_mid in Hin; destruct Hin as [->|Hin]].
    + cbn. rewrite Hln, decide_True by (unfold addr; simpl; lia || done). done.
    + unfold ln, cut. cbn. by rewrite lookup_insert_eq.
    + rewrite Hln, decide_False.
      * apply Hl, elem_mid. by right.
      * apply not_eq_sym. apply (mid_addr_ne from l1 b l2 to); [by apply tile_join|done].
      * apply Hq, elem_mid. by right.
  - intros c Hin Huc Hx. apply elem_mid in Hin as [->|Hin]; [|rewrite elem_mid in Hin; destruct Hin as [->|Hin]].
    + simpl in Huc. rewrite Hnx by (unfold addr; simpl; lia). apply (Hu b); [|done|done]. apply elem_mid. by left.
    + by destruct Hx.
    + rewrite Hnx by (apply Hq, elem_mid; by right). apply Hu; [|done|done]. apply elem_mid. by right.
  - rewrite Hfl. apply (chain_same m); [done|]. intros k Hk. rewrite Hnx, Hpr; [done|..]; intros ->.
    all: unfold free_list in Hk; rewrite elem_of_cons, elem_of_app, list_elem_of_singleton in Hk.
    all: destruct Hk as [Hk|[(c & Hc' & _ & Ha)%elem_frees|Hk]]; [lia|by apply (Hq c)|lia].
Qed.

(** [merge] of two free neighbours. *)
Definition joined b c : block := (addr b, size b + size c, true).
Lemma shape_absorb m from l1 b c l2 to :
  shape m None from (l1 ++ b :: c :: l2) to -> is_free b = true -> is_free c = true ->
  shape (absorb (addr b) (addr c) (next_free l2) (size b + size c) m) None from (l1 ++ joined b c :: l2) to.
Proof.
  intros Hs Hb Hc.
  pose proof (s_tile _ _ _ _ _ Hs) as Ht.
  destruct (tile_split _ _ _ _ _ Ht) as (T1 & Hsz & Hac & Hsc & T2).
  pose proof (tile_le _ _ _ T1). pose proof (tile_le _ _ _ T2).
  assert (tile from (l1 ++ joined b c :: l2) to) as Htb.
  { apply tile_join; [done|cbn; lia|]. cbn. by replace (addr b + (size b + size c)) with (addr b + size b + size c) by lia. }
  assert (is_Some (m !! addr b) /\ is_Some (m !! addr c) /\ is_Some (m !! next_free l2)) as (Db & Dc & Dn).
  { pose proof (around_dom _ _ _ _ _ _ _ Hs) as (_ & ? & _). rewrite cons_middle, app_assoc in Hs.
    pose proof (around_dom _ _ _ _ _ _ _ Hs) as (_ & ? & ?). done. }
  assert (forall d, d ∈ l1 ++ l2 -> addr d <> addr b /\ addr d <> addr c) as Hne.
  { intros d [Hd|Hd]%elem_of_app; [apply (tile_in _ _ _ _ T1) in Hd|apply (tile_in _ _ _ _ T2) in Hd]; lia. }
  assert (addr c < next_free l2) as Hnl.
  { destruct (next_cases l2) as [->|(d & Hd & _ & ->)]; [pose proof (s_to _ _ _ _ _ Hs); lia|]. apply (tile_in _ _ _ _ T2) in Hd. lia. }
  destruct (free_list_ends l1 l2) as (L & R & HL & HR).
  assert (free_list (l1 ++ b :: c :: l2) = L ++ prev_free l1 :: addr b :: addr c :: next_free l2 :: R) as Hfl.
  { change (b :: c :: l2) with ([b; c] ++ l2). rewrite (free_list_split _ _ _ _ _ HL HR), !frees_cons_free by done. done. }
  assert (free_list (l1 ++ joined b c :: l2) = L ++ prev_free l1 :: addr b :: next_free l2 :: R) as Hfl'.
  { change (joined b c :: l2) with ([joined b c] ++ l2). rewrite (free_list_split _ _ _ _ _ HL HR), frees_cons_free by done. done. }
  pose proof (free_list_nodup _ _ _ (s_from _ _ _ _ _ Hs) (s_to _ _ _ _ _ Hs) Ht) as Hnd. rewrite Hfl in Hnd.
  pose proof (s_chain _ _ _ _ _ Hs) as Hch. rewrite Hfl in Hch.
  destruct Hs as [? ? Hd Hg Hl Hu _ _].
  constructor; try done.
  - intros k. rewrite absorb_dom, Hd, !fmap_app, !fmap_cons, !elem_of_app, !elem_of_cons. change (addr (joined b c)) with (addr b). split.
    + naive_solver.
    + intros Hk. split; [|naive_solver]. intros ->. destruct Hk as [?|[?|[Hk|[?|Hk]]]]; [lia|lia| |lia|].
      * apply (addr_range _ _ _ _ T1) in Hk. lia.
      * apply (addr_range _ _ _ _ T2) in Hk. lia.
  - rewrite !absorb_ln, absorb_pr, absorb_nx, !decide_False by (done || lia). done.
  - intros d [->|Hin]%elem_mid.
    + rewrite absorb_ln by (done || cbn; lia). by rewrite decide_True.
    + destruct (Hne d Hin). rewrite absorb_ln, decide_False by done. apply Hl. set_solver.
  - intros d [->|Hin]%elem_mid Hud _; [done|]. destruct (Hne d Hin). rewrite absorb_nx, decide_False by done. apply Hu; [set_solver|done..].
  - rewrite Hfl'.
    change (L ++ prev_free l1 :: addr b :: next_free l2 :: R) with (L ++ [prev_free l1] ++ addr b :: next_free l2 :: R).
    rewrite app_assoc. rewrite (cons_middle (prev_free l1)), app_assoc in Hnd, Hch.
    apply chain_absorb; [done| |done]. intros k. rewrite !elem_of_cons. intros [->|[->|[->|?%elem_of_nil]]]; done.
Qed.

(** The neighbour behind a chain element. *)
Lemma shape_links m x from l1 b l2 to : shape m x from (l1 ++ b :: l2) to -> is_free b = true ->
  link m (prev_free l1) (addr b) /\ link m (addr b) (next_free l2).
Proof.
  intros Hs Hb. destruct (around_chain _ _ _ _ _ _ _ Hs) as (L & R & _ & Hfl & _). pose proof (s_chain _ _ _ _ _ Hs) as Hc.
  rewrite Hfl, frees_cons_free in Hc by done. apply chain_three in Hc. tauto.
Qed.
Lemma shape_gap m x from l1 b l2 to : shape m x from (l1 ++ b :: l2) to -> is_free b = false ->
  link m (prev_free l1) (next_free l2).
Proof.
  intros Hs Hb. destruct (around_chain _ _ _ _ _ _ _ Hs) as (L & R & _ & Hfl & _). pose proof (s_chain _ _ _ _ _ Hs) as Hc.
  rewrite Hfl, frees_cons_used in Hc by done. apply chain_two in Hc. tauto.
Qed.

(** *** The private operations, run *)

Lemma insert_as_alter (f : Node -> Node) k m n : m !! k = Some n -> <[k := f n]> m = alter f k m.
Proof.
  intros Hn. apply map_eq. intros k'. destruct (decide (k = k')) as [->|].
  - by rewrite lookup_insert_eq, lookup_alter_eq, Hn.
  - by rewrite lookup_insert_ne, lookup_alter_ne.
Qed.
Lemma upd_run k f m h : is_Some (m !! k) -> upd k f (set_memory m h) = Ret (set_memory (alter f k m) h, tt).
Proof. intros [n Hn]. unfold upd, bind, node, modify. simpl. rewrite Hn. simpl. by rewrite (insert_as_alter f k m n). Qed.
Lemma node_run k m h n : m !! k = Some n -> node k (set_memory m h) = Ret (set_memory m h, n).
Proof. intros Hn. unfold node. simpl. by rewrite Hn. Qed.
Lemma ensure_run (f : bool) h : f = true -> ensure f h = Ret (h, tt).
Proof. by intros ->. Qed.
Lemma at_run k h : at_ (It k) h = Ret (h, k).
Proof. done. Qed.
(** The first guard is the least key. *)
Definition based m : Prop := is_Some (m !! 0) /\ forall k, is_Some (m !! k) -> 0 <= k.
Lemma based_begin m : based m -> begin m = It 0.
Proof.
  intros [H0 Hk]. unfold begin. erewrite (min_key_spec _ 0); [done|by apply elem_keys|].
  intros k Hin%elem_keys. by apply Hk.
Qed.
Lemma based_dom m m' : based m -> (forall k, is_Some (m' !! k) <-> is_Some (m !! k)) -> based m'.
Proof. intros [H0 Hk] Hd. split; [by apply Hd|]. intros k ?%Hd. by apply Hk. Qed.
Lemma shape_based m x from bs to : shape m x from bs to -> based m.
Proof.
  intros Hs. split; [apply (s_dom _ _ _ _ _ Hs); auto|].
  intros k [->|[->|Hk]]%(s_dom _ _ _ _ _ Hs); [done|done|].
  apply (addr_range _ _ _ _ (s_tile _ _ _ _ _ Hs)) in Hk. pose proof (s_from _ _ _ _ _ Hs). lia.
Qed.
Lemma isfree_spec n m h : based m -> isfree n (set_memory m h) = negb (bool_decide (next n = It 0)).
Proof. intros Hb%based_begin. unfold isfree. simpl. by rewrite Hb. Qed.
Lemma nx_node m k i : nx m k = Some i -> exists n, m !! k = Some n /\ next n = i.
Proof. unfold nx. destruct (m !! k) as [n|]; [|done]. intros [= <-]. eauto. Qed.

Lemma insertafter_run p x n m h :
  based m -> 0 < n -> p < x -> in_dom m [p; x; n] -> nx m p = Some (It n) ->
  insertafter p x (set_memory m h) = Ret (set_memory (ins p x n m) h, tt).
Proof.
  intros Hb Hn Hpx Hd (np & Hp & Hnx)%nx_node.
  assert (is_Some (m !! p) /\ is_Some (m !! x) /\ is_Some (m !! n)) as (Dp & Dx & Dn) by (split_and!; apply Hd; set_solver).
  unfold insertafter. erewrite bind_ret by (apply ensure_run; by apply Z.ltb_lt).
  erewrite bind_ret by (by apply node_run). erewrite bind_ret by done.
  erewrite bind_ret by (apply ensure_run; rewrite isfree_spec by done; rewrite Hnx; apply negb_true_iff, bool_decide_eq_false; intros [= ->]; lia).
  erewrite bind_ret by (by apply upd_run). erewrite bind_ret by (apply upd_run; by rewrite alter_dom).
  erewrite bind_ret by (apply upd_run; by rewrite !alter_dom). rewrite Hnx. erewrite bind_ret by done.
  apply upd_run. by rewrite !alter_dom.
Qed.
Lemma setused_run k m h : is_Some (m !! k) -> based m ->
  setused k (set_memory m h) = Ret (set_memory (alter (set_next (It 0)) k m) h, tt).
Proof. intros Hk Hb. unfold setused. erewrite bind_ret by done. simpl. rewrite (based_begin _ Hb). by apply upd_run. Qed.

Lemma isfree_linked m h n nd : based m -> 0 < n -> next nd = It n -> isfree nd (set_memory m h) = true.
Proof. intros Hb Hn Hnx. rewrite isfree_spec, Hnx by done. apply negb_true_iff, bool_decide_eq_false. intros [= ->]. lia. Qed.
Lemma pr_node m k i : pr m k = Some i -> exists n, m !! k = Some n /\ prior n = i.
Proof. unfold pr. destruct (m !! k) as [n|]; [|done]. intros [= <-]. eauto. Qed.

Lemma remove_run p x n m h :
  based m -> 0 < n -> link m p x -> link m x n ->
  remove x (set_memory m h) = Ret (set_memory (rem p x n m) h, tt).
Proof.
  intros Hb Hn [Hnp Hpx] [Hnx Hpn].
  assert (is_Some (m !! p) /\ is_Some (m !! n)) as [Dp Dn].
  { destruct (nx_node _ _ _ Hnp) as (? & ? & _), (pr_node _ _ _ Hpn) as (? & ? & _). eauto. }
  destruct (nx_node _ _ _ Hnx) as (nd & Hx & Hne). pose proof Hpx as (nd' & Hx' & Hpe)%pr_node. simplify_eq.
  unfold remove. erewrite bind_ret by (by apply node_run). erewrite bind_ret by done.
  erewrite bind_ret by (by apply ensure_run, (isfree_linked _ _ n)). rewrite Hpe.
  erewrite bind_ret by done. rewrite Hne. erewrite bind_ret by (by apply upd_run). erewrite bind_ret by done.
  assert (pr (alter (set_next (It n)) p m) x = Some (It p)) as (nd2 & Hx2 & Hp2)%pr_node by (by rewrite pr_other).
  erewrite bind_ret by (by apply node_run). rewrite Hp2. erewrite bind_ret by (apply upd_run; by rewrite alter_dom).
  apply setused_run; [rewrite !alter_dom; eauto|]. eapply based_dom; [done|]. intros k. by rewrite !alter_dom.
Qed.

Lemma merge_apart low hi nl nh m h a c :
  based m -> 0 < a -> 0 < c -> m !! low = Some nl -> m !! hi = Some nh -> next nl = It a -> next nh = It c ->
  u64 (low + len nl) <> hi ->
  merge low hi (set_memory m h) = Ret (set_memory m h, hi).
Proof.
  intros Hb Ha Hc Hl Hh Hnl Hnh Hne. unfold merge. erewrite bind_ret by (by apply node_run).
  erewrite bind_ret by (by apply node_run). erewrite bind_ret by done.
  erewrite bind_ret by (by apply ensure_run, (isfree_linked _ _ a)). erewrite bind_ret by done.
  erewrite bind_ret by (by apply ensure_run, (isfree_linked _ _ c)).
  apply Z.eqb_neq in Hne. by rewrite Hne.
Qed.
(** The upper guard's [next] is [end()], which is not [begin()] either. *)
Lemma merge_guard low hi nl nh m h a :
  based m -> 0 < a -> m !! low = Some nl -> m !! hi = Some nh -> next nl = It a -> next nh = End ->
  u64 (low + len nl) <> hi ->
  merge low hi (set_memory m h) = Ret (set_memory m h, hi).
Proof.
  intros Hb Ha Hl Hh Hnl Hnh Hne. unfold merge. erewrite bind_ret by (by apply node_run).
  erewrite bind_ret by (by apply node_run). erewrite bind_ret by done.
  erewrite bind_ret by (by apply ensure_run, (isfree_linked _ _ a)). erewrite bind_ret by done.
  erewrite bind_ret by (apply ensure_run; by rewrite isfree_spec, Hnh).
  apply Z.eqb_neq in Hne. by rewrite Hne.
Qed.
Lemma merge_joins low hi nl nh m h n :
  based m -> 0 < hi -> 0 < n -> m !! low = Some nl -> m !! hi = Some nh -> link m low hi -> link m hi n ->
  u64 (low + len nl) = hi ->
  merge low hi (set_memory m h) = Ret (set_memory (absorb low hi n (u64 (len nl + len nh)) m) h, low).
Proof.
  intros Hb Hhi Hn Hl Hh [Hnl _] [Hnh Hpn] He. unfold nx in Hnl, Hnh. rewrite Hl in Hnl. rewrite Hh in Hnh. injection Hnl as Hnl. injection Hnh as Hnh.
  destruct (pr_node _ _ _ Hpn) as (nn & Dn & _).
  unfold merge. erewrite bind_ret by (by apply node_run).
  erewrite bind_ret by (by apply node_run). erewrite bind_ret by done.
  erewrite bind_ret by (by apply ensure_run, (isfree_linked _ _ hi)). erewrite bind_ret by done.
  erewrite bind_ret by (by apply ensure_run, (isfree_linked _ _ n)).
  apply Z.eqb_eq in He. rewrite He. change (negb true) with false. cbv iota.
  erewrite bind_ret by (apply ensure_run; unfold islastfree; by rewrite Hnh).
  erewrite bind_ret by (apply upd_run; eauto). erewrite bind_ret by (apply upd_run; rewrite alter_dom; eauto). rewrite Hnh.
  erewrite bind_ret by done. erewrite bind_ret by (apply upd_run; rewrite !alter_dom; eauto).
  done.
Qed.
