(* ===== verification/HeapRun.v ===== *)
(** The private operations and the calls of [SmallHeap] run on a well shaped heap: the walks end
    and find what they look for, and every operation yields the shape it should. *)
From S2P Require Import Prelude SmallHeap HeapBlocks HeapNodes.
Local Open Scope Z_scope.
Implicit Types (bs : list block) (b : block) (m : memory_t) (h : SmallHeap) (k : Z).

(** *** The walks *)

Lemma shape_size m x from bs to : shape m x from bs to -> (length bs < base.size m)%nat.
Proof.
  intros Hs. assert (length (0%Z :: (fmap (M:=list) addr bs)) <= length (keys m))%nat as Hl.
  { apply submseteq_length, NoDup_submseteq.
    - apply NoDup_cons. split; [|by eapply tile_nodup, (s_tile _ _ _ _ _ Hs)].
      intros Hin%(addr_range _ _ _ _ (s_tile _ _ _ _ _ Hs)). pose proof (s_from _ _ _ _ _ Hs). lia.
    - intros k Hk%elem_of_cons. apply elem_keys, (s_dom _ _ _ _ _ Hs). tauto. }
  unfold keys in Hl. rewrite length_fmap, length_map_to_list in Hl. simpl in Hl. rewrite length_fmap in Hl. lia.
Qed.
Lemma next_free_pos m x from l1 l2 to : shape m x from (l1 ++ l2) to -> 0 < next_free l2.
Proof.
  intros Hs. destruct (next_cases l2) as [->|(c & Hc & _ & ->)]; [done|]. apply (shape_addr _ _ _ _ _ c Hs). set_solver.
Qed.
(** The ends of the free list. *)
Lemma shape_first m x from bs to : shape m x from bs to -> link m 0 (next_free bs).
Proof.
  intros Hs. destruct (free_list_ends [] bs) as (L & R & HL & HR). pose proof (s_chain _ _ _ _ _ Hs) as Hc.
  unfold free_list in Hc. rewrite HR in Hc. apply Hc.
Qed.
Lemma shape_last m x from bs to : shape m x from bs to -> link m (prev_free bs) last_key.
Proof.
  intros Hs. destruct (free_list_ends bs []) as (L & R & HL & HR). pose proof (s_chain _ _ _ _ _ Hs) as Hc.
  unfold free_list in Hc. rewrite app_comm_cons, HL, <- app_assoc in Hc. apply chain_two in Hc. apply Hc.
Qed.

Lemma prev_free_snoc l c : prev_free (l ++ [c]) = if is_free c then addr c else prev_free l.
Proof.
  unfold prev_free. rewrite frees_app. destruct (is_free c) eqn:E.
  - rewrite frees_cons_free by done. change (frees []) with (@nil Z). by rewrite last_snoc.
  - rewrite frees_cons_used by done. change (frees []) with (@nil Z). by rewrite app_nil_r.
Qed.
Lemma next_free_cons l c : next_free (c :: l) = if is_free c then addr c else next_free l.
Proof.
  unfold next_free. destruct (is_free c) eqn:E; [by rewrite frees_cons_free|by rewrite frees_cons_used].
Qed.

Lemma find_free_run m h from to fuel l1 b l2 :
  shape m None from (l1 ++ b :: l2) to -> (length l1 < fuel)%nat ->
  find_free fuel (addr b) (set_memory m h) = Ret (set_memory m h, prev_free l1).
Proof.
  revert fuel b l2. induction l1 as [|c l1 IH] using rev_ind; intros fuel b l2 Hs Hf;
    (destruct fuel as [|fuel]; [simpl in Hf; lia|]); simpl find_free.
  all: erewrite bind_ret by done; simpl memory; rewrite (before_block _ _ _ _ _ _ (shape_dom _ _ _ _ _ Hs)).
  - erewrite bind_ret by done. destruct (shape_first _ _ _ _ _ Hs) as [(n & Hn & Hnx)%nx_node _].
    erewrite bind_ret by (by apply node_run). erewrite bind_ret by done.
    erewrite isfree_linked; [done|by eapply shape_based| |done]. by eapply (next_free_pos _ _ _ []).
  - rewrite last_snoc. erewrite bind_ret by done. rewrite <- app_assoc in Hs. simpl in Hs. rewrite prev_free_snoc.
    rewrite length_app in Hf. simpl in Hf. destruct (is_free c) eqn:Ec.
    + destruct (shape_links _ _ _ _ _ _ _ Hs Ec) as [_ [(n & Hn & Hnx)%nx_node _]].
      erewrite bind_ret by (by apply node_run). erewrite bind_ret by done.
      erewrite isfree_linked; [done|by eapply shape_based| |done].
      pose proof (around_lt _ _ _ _ _ _ _ Hs). pose proof (shape_addr _ _ _ _ _ c Hs ltac:(set_solver)). lia.
    + assert (nx m (addr c) = Some (It 0)) as (n & Hn & Hnx)%nx_node by (apply (s_used _ _ _ _ _ Hs); [set_solver|done..]).
      erewrite bind_ret by (by apply node_run). erewrite bind_ret by done.
      rewrite isfree_spec, Hnx by (by eapply shape_based). simpl. eapply IH; [done|lia].
Qed.

Definition fitting (bytes : Z) bs : list block := filter (fun b => fits_in bytes b = true) bs.

Lemma fitting_cons bytes b bs : fitting bytes (b :: bs) = if fits_in bytes b then b :: fitting bytes bs else fitting bytes bs.
Proof. unfold fitting. rewrite filter_cons. case_decide as E; [by rewrite E|apply not_true_is_false in E; by rewrite E]. Qed.
Lemma fitting_app bytes l1 l2 : fitting bytes (l1 ++ l2) = fitting bytes l1 ++ fitting bytes l2.
Proof. apply filter_app. Qed.
Lemma fitting_none bytes bs : (forall c, c ∈ bs -> fits_in bytes c = false) -> fitting bytes bs = [].
Proof.
  induction bs as [|b bs IH]; intros Hn; [done|]. rewrite fitting_cons, Hn by (by left). apply IH. intros c Hc. apply Hn. by right.
Qed.

Lemma node_of m h k l i : ln m k = Some l -> nx m k = Some i ->
  exists n, node k (set_memory m h) = Ret (set_memory m h, n) /\ len n = l /\ next n = i.
Proof.
  unfold ln, nx. destruct (m !! k) as [n|] eqn:E; [|done]. intros [= <-] [= <-]. exists n. split_and!; [|done..]. by apply node_run.
Qed.
Lemma node_of_prior m h k l i : ln m k = Some l -> pr m k = Some i ->
  exists n, node k (set_memory m h) = Ret (set_memory m h, n) /\ len n = l /\ prior n = i.
Proof.
  unfold ln, pr. destruct (m !! k) as [n|] eqn:E; [|done]. intros [= <-] [= <-]. exists n. split_and!; [|done..]. by apply node_run.
Qed.

Lemma first_fit_run m h from to bytes l1 l2 fuel :
  shape m None from (l1 ++ l2) to -> (length l2 < fuel)%nat ->
  first_fit fuel bytes (next_free l2) (set_memory m h) = Ret (set_memory m h, addr <$> head (fitting bytes l2)).
Proof.
  revert l1 fuel. induction l2 as [|b l2 IH]; intros l1 fuel Hs Hf; (destruct fuel as [|fuel]; [simpl in Hf; lia|]).
  - destruct (s_guard _ _ _ _ _ Hs) as (_ & _ & Hl & Hn).
    destruct (node_of m h _ _ _ Hl Hn) as (n & Hnode & Hln & Hnx). simpl.
    change (next_free []) with last_key. erewrite bind_ret by done. unfold islastfree. rewrite Hnx. simpl.
    erewrite bind_ret by (apply ensure_run; by rewrite Hln). done.
  - rewrite next_free_cons. assert (shape m None from ((l1 ++ [b]) ++ l2) to) as Hs' by (by rewrite <- app_assoc).
    rewrite fitting_cons. unfold fits_in. simpl in Hf. destruct (is_free b) eqn:Eb.
    + destruct (shape_links _ _ _ _ _ _ _ Hs Eb) as [_ [Hn _]].
      destruct (node_of m h _ _ _ (s_len _ _ _ _ _ Hs b ltac:(set_solver)) Hn) as (n & Hnode & Hln & Hnx).
      simpl first_fit. erewrite bind_ret by done. unfold islastfree. rewrite Hnx, Hln. simpl.
      destruct (bytes <=? size b) eqn:Ef; simpl; [done|]. erewrite bind_ret by done. apply (IH (l1 ++ [b])); [done|lia].
    + cbv [andb]. apply (IH (l1 ++ [b]) (S fuel)); [done|lia].
Qed.

Lemma last_fit_run m h from to bytes l1 l2 fuel :
  shape m None from (l1 ++ l2) to -> (length l1 < fuel)%nat ->
  last_fit fuel bytes (prev_free l1) (set_memory m h) = Ret (set_memory m h, addr <$> last (fitting bytes l1)).
Proof.
  revert l2 fuel. induction l1 as [|b l1 IH] using rev_ind; intros l2 fuel Hs Hf; (destruct fuel as [|fuel]; [simpl in Hf; lia|]).
  - destruct (s_guard _ _ _ _ _ Hs) as (Hl & Hp & _).
    destruct (node_of_prior m h _ _ _ Hl Hp) as (n & Hnode & Hln & Hpr). simpl.
    change (prev_free []) with 0. erewrite bind_ret by done. unfold isfirstfree. rewrite Hpr. simpl.
    erewrite bind_ret by (apply ensure_run; by rewrite Hln). done.
  - rewrite prev_free_snoc. rewrite <- app_assoc in Hs. simpl in Hs. rewrite length_app in Hf. simpl in Hf.
    rewrite fitting_app, fitting_cons. change (fitting bytes []) with (@nil block). unfold fits_in. destruct (is_free b) eqn:Eb.
    + destruct (shape_links _ _ _ _ _ _ _ Hs Eb) as [[_ Hp] _].
      destruct (node_of_prior m h _ _ _ (s_len _ _ _ _ _ Hs b ltac:(set_solver)) Hp) as (n & Hnode & Hln & Hpr).
      simpl last_fit. erewrite bind_ret by done. unfold isfirstfree. rewrite Hpr, Hln. simpl.
      destruct (bytes <=? size b) eqn:Ef; simpl; [by rewrite last_snoc|].
      rewrite app_nil_r. erewrite bind_ret by done. apply (IH (b :: l2)); [done|lia].
    + cbv [andb]. rewrite app_nil_r. apply (IH (b :: l2) (S fuel)); [done|lia].
Qed.
Lemma firstfree_run m h from bs to : shape m None from bs to -> firstfree (set_memory m h) = Ret (set_memory m h, next_free bs).
Proof.
  intros Hs. unfold firstfree. erewrite bind_ret by done. simpl. rewrite (based_begin _ (shape_based _ _ _ _ _ Hs)).
  erewrite bind_ret by done. destruct (shape_first _ _ _ _ _ Hs) as [(n & Hn & Hnx)%nx_node _].
  erewrite bind_ret by (by apply node_run). by rewrite Hnx.
Qed.
Lemma lastfree_run m h from bs to : shape m None from bs to -> lastfree (set_memory m h) = Ret (set_memory m h, prev_free bs).
Proof.
  intros Hs. unfold lastfree. erewrite bind_ret by done. simpl. rewrite (rbegin_last _ _ _ _ (shape_dom _ _ _ _ _ Hs)).
  erewrite bind_ret by done. destruct (shape_last _ _ _ _ _ Hs) as [_ (n & Hn & Hpr)%pr_node].
  erewrite bind_ret by (by apply node_run). by rewrite Hpr.
Qed.

(** *** The calls, run *)

Lemma u64_small z : 0 <= z <= last_key -> u64 z = z.
Proof. intros Hz. apply wrap_small. unfold fits, last_key in *. lia. Qed.
Lemma shape_node m h x from bs to b : shape m x from bs to -> b ∈ bs ->
  exists n, node (addr b) (set_memory m h) = Ret (set_memory m h, n) /\ len n = size b /\ m !! addr b = Some n.
Proof.
  intros Hs Hb. pose proof (s_len _ _ _ _ _ Hs b Hb) as Hl. unfold ln in Hl. destruct (m !! addr b) as [n|] eqn:E; [|done].
  injection Hl as Hl. exists n. split_and!; [by apply node_run|done..].
Qed.
Lemma unlink_run m h from l1 b l2 to : shape m None from (l1 ++ b :: l2) to -> is_free b = true ->
  exists m', remove (addr b) (set_memory m h) = Ret (set_memory m' h, tt) /\ shape m' None from (l1 ++ mark false b :: l2) to.
Proof.
  intros Hs Hb. destruct (shape_links _ _ _ _ _ _ _ Hs Hb) as [H1 H2]. eexists. split.
  - apply (remove_run (prev_free l1) _ (next_free l2)); [by eapply shape_based| |done..].
    pose proof (around_lt _ _ _ _ _ _ _ Hs). pose proof (shape_addr _ _ _ _ _ b Hs ltac:(set_solver)). lia.
  - by apply shape_unlink.
Qed.
Lemma link_run m h x from l1 b l2 to :
  shape m x from (l1 ++ b :: l2) to -> is_free b = false -> (forall c, c ∈ l1 ++ l2 -> x <> Some (addr c)) ->
  exists m', insertafter (prev_free l1) (addr b) (set_memory m h) = Ret (set_memory m' h, tt) /\
    shape m' None from (l1 ++ mark true b :: l2) to.
Proof.
  intros Hs Hb Hx. pose proof (around_lt _ _ _ _ _ _ _ Hs). eexists. split.
  - apply (insertafter_run _ _ (next_free l2)); [by eapply shape_based| |lia|by eapply around_in_dom|].
    + pose proof (shape_addr _ _ _ _ _ b Hs ltac:(set_solver)). lia.
    + apply (shape_gap _ _ _ _ _ _ _ Hs Hb).
  - by apply shape_link with x.
Qed.

Lemma take_low_run m h from l1 b l2 to bytes :
  shape m None from (l1 ++ b :: l2) to -> fits_in bytes b = true -> 0 < bytes ->
  exists m', take_low bytes (addr b) (set_memory m h) = Ret (set_memory m' (set_total (u64 (total_free h - bytes)) h), addr b) /\
    shape m' None from (l1 ++ split_low bytes b ++ l2) to.
Proof.
  intros Hs [Hb Hf%Z.leb_le]%andb_true_iff Hpos. unfold take_low, modify.
  destruct (shape_node _ (set_total (u64 (total_free h - bytes)) h) _ _ _ _ b Hs) as (n & Hnode & Hln & _); [set_solver|].
  destruct (shape_addr _ _ _ _ _ b Hs) as [Ha He]; [set_solver|].
  erewrite bind_ret by done. erewrite bind_ret by exact Hnode. rewrite Hln. unfold split_low. destruct (Z.eqb_spec bytes (size b)) as [->|Hne]; simpl negb; cbv iota.
  - erewrite bind_ret by done. destruct (unlink_run _ (set_total (u64 (total_free h - size b)) h) _ _ _ _ _ Hs Hb) as (m' & Hr & Hs').
    erewrite bind_ret by exact Hr. exists m'. by split.
  - set (h' := set_total (u64 (total_free h - bytes)) h).
    rewrite (u64_small (addr b + bytes)), (u64_small (size b - bytes)) by (unfold last_key in *; lia).
    pose proof (shape_cut _ _ _ _ _ _ bytes Unset Unset Hs ltac:(lia)) as Hcut. rewrite Hb in Hcut.
    rewrite cons_middle, app_assoc in Hcut.
    destruct (link_run _ h' _ _ _ _ _ _ Hcut) as (m2 & Hr & Hs2); [done| |].
    { intros c Hc [= Ha']. by apply (mid_addr_ne _ _ _ _ _ _ (s_tile _ _ _ _ _ Hcut) Hc). }
    rewrite prev_free_snoc in Hr. rewrite <- app_assoc in Hs2. destruct (unlink_run _ h' _ _ _ _ _ Hs2) as (m3 & Hr3 & Hs3); [done|].
    exists m3. split; [|exact Hs3].
    erewrite bind_ret; cycle 1.
    { erewrite bind_ret by done. cbv beta. erewrite bind_ret.
      2:{ apply (upd_run (addr b) (set_len bytes) (<[addr b + bytes := mkNode (size b - bytes) Unset Unset]> m) h').
          rewrite lookup_insert_ne by lia. eapply (around_dom _ _ _ _ _ _ _ Hs). }
      rewrite alter_insert_ne by lia. exact Hr. }
    erewrite bind_ret by exact Hr3. done.
Qed.

Lemma take_high_run m h from l1 b l2 to bytes :
  shape m None from (l1 ++ b :: l2) to -> fits_in bytes b = true -> 0 < bytes ->
  exists m', take_high bytes (addr b) (set_memory m h) =
      Ret (set_memory m' (set_high ({[ addr b + size b - bytes ]} ∪ high h) (set_total (u64 (total_free h - bytes)) h)),
           addr b + size b - bytes) /\
    shape m' None from (l1 ++ split_high bytes b ++ l2) to.
Proof.
  intros Hs [Hb Hf%Z.leb_le]%andb_true_iff Hpos. unfold take_high, modify.
  set (h' := set_total (u64 (total_free h - bytes)) h).
  destruct (shape_node _ h' _ _ _ _ b Hs) as (n & Hnode & Hln & _); [set_solver|].
  destruct (shape_addr _ _ _ _ _ b Hs) as [Ha He]; [set_solver|].
  erewrite bind_ret by done. erewrite bind_ret by exact Hnode. rewrite Hln. unfold split_high. destruct (Z.eqb_spec bytes (size b)) as [->|Hne]; simpl negb; cbv iota.
  - destruct (unlink_run _ h' _ _ _ _ _ Hs Hb) as (m' & Hr & Hs').
    replace (addr b + size b - size b) with (addr b) by lia. exists m'. split; [|exact Hs'].
    erewrite bind_ret; [|by erewrite bind_ret by exact Hr]. done.
  - rewrite (u64_small (size b - bytes)), (u64_small (addr b + size b - bytes)) by (unfold last_key in *; lia).
    pose proof (shape_cut _ _ _ _ _ _ (size b - bytes) Unset Unset Hs ltac:(lia)) as Hcut. rewrite Hb in Hcut.
    unfold cut in Hcut. replace (size b - (size b - bytes)) with bytes in Hcut by lia.
    replace (addr b + (size b - bytes)) with (addr b + size b - bytes) in Hcut by lia.
    rewrite cons_middle, app_assoc in Hcut. pose proof (shape_setused _ _ _ (addr b + size b - bytes, bytes, false) _ _ Hcut eq_refl) as Hs'.
    pose proof (shape_based _ _ _ _ _ Hcut) as Hba. rewrite <- app_assoc in Hs'.
    eexists. split; [|exact Hs'].
    erewrite bind_ret; cycle 1.
    { erewrite bind_ret by (apply upd_run; apply (around_dom _ _ _ _ _ _ _ Hs)). erewrite bind_ret by done. cbv beta.
      erewrite bind_ret; [done|]. apply (setused_run _ _ h'); [|exact Hba]. rewrite lookup_insert_eq. eauto. }
    done.
Qed.

(** [merge] with the free node behind. *)
Definition absorbs l2 : bool := match l2 with c :: _ => is_free c | [] => false end.
Definition join_head b l2 : list block :=
  match l2 with c :: l2' => if is_free c then joined b c :: l2' else b :: l2 | [] => [b] end.

Lemma next_free_far m x from l1 b l2 to : shape m x from (l1 ++ b :: l2) to -> absorbs l2 = false -> addr b + size b < next_free l2.
Proof.
  intros Hs Ha. destruct (tile_split _ _ _ _ _ (s_tile _ _ _ _ _ Hs)) as (T1 & Hsz & T2). pose proof (tile_le _ _ _ T2). pose proof (s_to _ _ _ _ _ Hs).
  destruct (next_cases l2) as [->|(c & Hc & Hf & ->)]; [lia|].
  destruct l2 as [|d l2]; [by apply elem_of_nil in Hc|]. simpl in Ha. destruct T2 as (Hd & Hsd & T2).
  apply elem_of_cons in Hc as [->|Hc]; [congruence|]. apply (tile_in _ _ _ _ T2) in Hc. lia.
Qed.

Lemma merge_run m h from l1 b l2 to :
  shape m None from (l1 ++ b :: l2) to -> is_free b = true ->
  exists m', merge (addr b) (next_free l2) (set_memory m h) = Ret (set_memory m' h, if absorbs l2 then addr b else next_free l2) /\
    shape m' None from (l1 ++ join_head b l2) to.
Proof.
  intros Hs Hb. destruct (shape_links _ _ _ _ _ _ _ Hs Hb) as [Hpb Hbn].
  destruct (shape_node _ h _ _ _ _ b Hs) as (n & _ & Hln & Hn); [set_solver|].
  destruct (shape_addr _ _ _ _ _ b Hs) as [Hr He]; [set_solver|].
  pose proof (around_lt _ _ _ _ _ _ _ Hs) as Hlt. pose proof (shape_based _ _ _ _ _ Hs) as Hba.
  assert (0 < size b) as Hsz by (apply (tile_split _ _ _ _ _ (s_tile _ _ _ _ _ Hs))).
  pose proof Hbn as [(n' & Hn' & Hnx)%nx_node _]. simplify_eq.
  destruct (absorbs l2) eqn:Ea.
  - destruct l2 as [|c l2]; [done|]. simpl in Ea. simpl join_head. rewrite Ea. rewrite next_free_cons, Ea in *.
    assert (shape m None from ((l1 ++ [b]) ++ c :: l2) to) as Hs' by (by rewrite <- app_assoc).
    destruct (shape_links _ _ _ _ _ _ _ Hs' Ea) as [_ Hcn].
    destruct (shape_node _ h _ _ _ _ c Hs') as (nc & _ & Hlc & Hc); [set_solver|].
    pose proof (tile_split _ _ _ _ _ (s_tile _ _ _ _ _ Hs)) as (_ & _ & Hac & Hsc & _).
    pose proof (shape_addr _ _ _ _ _ c Hs' ltac:(set_solver)).
    eexists. split; [|by apply shape_absorb].
    replace (size b + size c) with (u64 (len n + len nc)) by (rewrite Hln, Hlc, u64_small; [done|lia]).
    apply (merge_joins _ _ n nc); [done|lia| |done..|].
    + pose proof (around_lt _ _ _ _ _ _ _ Hs'). lia.
    + rewrite Hln, u64_small; lia.
  - exists m. pose proof (next_free_far _ _ _ _ _ _ _ Hs Ea) as Hfar. split.
    2:{ replace (join_head b l2) with (b :: l2); [done|]. destruct l2 as [|c l2]; [done|]. simpl in *. by rewrite Ea. }
    assert (u64 (addr b + len n) <> next_free l2) by (rewrite Hln, u64_small; lia).
    destruct (next_cases l2) as [E|(c & Hc & Hf & E)].
    + rewrite E in *. destruct (s_guard _ _ _ _ _ Hs) as (_ & _ & _ & (ng & Hng & Hgx)%nx_node).
      apply (merge_guard _ _ n ng _ _ last_key); done.
    + assert (exists la lb, l1 ++ b :: l2 = la ++ c :: lb) as (la & lb & Hl).
      { apply list_elem_of_split in Hc as (la & lb & ->). exists (l1 ++ b :: la), lb. by rewrite <- app_assoc. }
      rewrite Hl in Hs. destruct (shape_links _ _ _ _ _ _ _ Hs Hf) as [_ [(nc & Hnc & Hcx)%nx_node _]]. rewrite E in *.
      pose proof (around_lt _ _ _ _ _ _ _ Hs). pose proof (shape_addr _ _ _ _ _ c Hs ltac:(set_solver)).
      apply (merge_apart _ _ n nc _ _ (addr c) (next_free lb)); try done; lia.
Qed.
(** The first guard takes part in no merge. *)
Lemma merge_first m h from l1 b l2 to :
  shape m None from (l1 ++ b :: l2) to -> is_free b = true -> prev_free l1 = 0 ->
  merge 0 (addr b) (set_memory m h) = Ret (set_memory m h, addr b).
Proof.
  intros Hs Hb Hp. destruct (shape_links _ _ _ _ _ _ _ Hs Hb) as [[(n0 & Hn0 & Hx0)%nx_node _] [(n & Hn & Hnx)%nx_node _]].
  pose proof (around_lt _ _ _ _ _ _ _ Hs). pose proof (shape_addr _ _ _ _ _ b Hs ltac:(set_solver)). rewrite Hp in *.
  apply (merge_apart _ _ n0 n _ _ (addr b) (next_free l2)); try done; [by eapply shape_based|lia..|].
  destruct (s_guard _ _ _ _ _ Hs) as (Hl & _). unfold ln in Hl. rewrite Hn0 in Hl. injection Hl as ->. rewrite u64_small; [lia|done].
Qed.

Lemma frees_nil_cons b bs : frees (b :: bs) = [] -> is_free b = false /\ frees bs = [].
Proof. destruct (is_free b) eqn:E; [by rewrite frees_cons_free|by rewrite frees_cons_used]. Qed.
Lemma prev_split l1 : (prev_free l1 = 0 /\ frees l1 = []) \/
  exists la c us, l1 = la ++ c :: us /\ is_free c = true /\ frees us = [] /\ prev_free l1 = addr c.
Proof.
  induction l1 as [|c l1 IH] using rev_ind; [by left|]. rewrite prev_free_snoc, frees_app. destruct (is_free c) eqn:E.
  - right. exists l1, c, []. done.
  - rewrite frees_cons_used by done. change (frees []) with (@nil Z). rewrite app_nil_r.
    destruct IH as [[H1 H2]|(la & d & us & -> & Hd & Hu & Hp)]; [by left|right].
    exists la, d, (us ++ [c]). rewrite frees_app, Hu, frees_cons_used, <- app_assoc by done. done.
Qed.
Lemma next_free_used us b l2 : frees us = [] -> is_free b = true -> next_free (us ++ b :: l2) = addr b.
Proof.
  intros Hu Hb. induction us as [|c us IH]; simpl; rewrite next_free_cons; [by rewrite Hb|].
  apply frees_nil_cons in Hu as [-> Hu]. auto.
Qed.
Lemma coalesce_join b l2 : coalesced l2 = true -> is_free b = true -> coalesce (b :: l2) = join_head b l2.
Proof. intros Hc Hb. simpl. rewrite coalesce_id, Hb by done. by destruct l2. Qed.
Lemma join_assoc c b l2 : is_free c = true -> is_free b = true -> coalesced l2 = true ->
  coalesce (c :: b :: l2) = join_head (joined c b) l2.
Proof.
  intros Hc Hb Hl. change (coalesce (c :: b :: l2)) with
    (match coalesce (b :: l2) with
     | d :: r => if (is_free c && is_free d)%bool then (addr c, size c + size d, true) :: r else c :: d :: r
     | [] => [c] end). rewrite coalesce_join, Hc by done.
  destruct l2 as [|e l2]; simpl; [by rewrite Hb|]. destruct (is_free e) eqn:Ee; simpl.
  - unfold joined, addr, size. simpl. by rewrite Z.add_assoc.
  - by rewrite Hb.
Qed.
Lemma coalesced_mid l1 b l2 : coalesced (l1 ++ b :: l2) = true ->
  coalesced l1 = true /\ coalesced l2 = true /\ (is_free b = true -> open_end l1 = true).
Proof.
  rewrite coalesced_app. intros [[H1 H2]%andb_true_iff H3]%andb_true_iff. split_and!; [done| |].
  - destruct l2 as [|c l2]; [done|]. by apply andb_true_iff in H2 as [_ H2].
  - intros Hb. simpl in H3. unfold open_end. destruct (last l1) as [c|]; [|done]. rewrite Hb, andb_true_r in H3. done.
Qed.
Lemma open_end_used l us c : frees us = [] -> us <> [] -> open_end (l ++ c :: us) = true.
Proof.
  intros Hu Hne. destruct us as [|d us _] using rev_ind; [done|].
  rewrite frees_app in Hu. apply app_eq_nil in Hu as [_ [Hd _]%frees_nil_cons].
  change (c :: us ++ [d]) with ((c :: us) ++ [d]). rewrite app_assoc, open_end_snoc, Hd. done.
Qed.
Lemma open_end_all_used us : frees us = [] -> open_end us = true.
Proof.
  intros Hu. destruct us as [|d us _] using rev_ind; [done|]. rewrite frees_app in Hu. apply app_eq_nil in Hu as [_ [Hd _]%frees_nil_cons].
  by rewrite open_end_snoc, Hd.
Qed.

(** [free]'s first [merge], with the free node before. *)
Lemma merge_before m h from l1 b l2 to :
  shape m None from (l1 ++ b :: l2) to -> is_free b = true -> coalesced l1 = true -> coalesced l2 = true ->
  exists m' L d, merge (prev_free l1) (addr b) (set_memory m h) = Ret (set_memory m' h, addr d) /\
    shape m' None from (L ++ d :: l2) to /\ is_free d = true /\ L ++ join_head d l2 = coalesce (l1 ++ b :: l2).
Proof.
  intros Hs Hb H1 H2. destruct (prev_split l1) as [[Hp Hf]|(la & c & us & -> & Hc & Hu & Hp)].
  - exists m, l1, b. rewrite Hp. split_and!; [by eapply merge_first|done..|].
    by rewrite coalesce_prefix, coalesce_join by (done || by apply open_end_all_used).
  - rewrite Hp. rewrite <- app_assoc in Hs. simpl in Hs. destruct (merge_run m h _ _ _ _ _ Hs Hc) as (m' & Hr & Hs').
    rewrite next_free_used in Hr by done. exists m'. destruct us as [|u us].
    + simpl in Hr, Hs'. rewrite Hb in Hr, Hs'. exists la, (joined c b). split_and!; [done..|].
      destruct (coalesced_mid la c [] H1) as (Hla & _ & Ho).
      rewrite <- app_assoc. simpl. rewrite coalesce_prefix, <- join_assoc by auto. done.
    + pose proof Hu as [Hfu _]%frees_nil_cons. simpl in Hr, Hs'. rewrite Hfu in Hr, Hs'.
      exists (la ++ c :: u :: us), b. rewrite <- app_assoc. split_and!; [done..|].
      rewrite <- coalesce_join, (app_assoc la), <- coalesce_prefix by (done || by apply open_end_used).
      by rewrite <- app_assoc.
Qed.

Lemma free_run m h from l1 b l2 to :
  shape m None from (l1 ++ b :: l2) to -> is_free b = false -> coalesced (l1 ++ b :: l2) = true ->
  exists m', free (addr b) (set_memory m h) =
      Ret (set_memory m' (set_high (high h ∖ {[ addr b ]}) (set_total (u64 (total_free h + size b)) h)), tt) /\
    shape m' None from (coalesce (l1 ++ mark true b :: l2)) to.
Proof.
  intros Hs Hb Hco. destruct (coalesced_mid _ _ _ Hco) as (Hc1 & Hc2 & _).
  set (h' := set_total (u64 (total_free h + size b)) h).
  destruct (shape_node _ h' _ _ _ _ b Hs) as (n & _ & Hln & Hn); [set_solver|].
  destruct (shape_addr _ _ _ _ _ b Hs) as [Ha _]; [set_solver|].
  destruct (shape_gap _ _ _ _ _ _ _ Hs Hb) as [(np & Hnp & Hpx)%nx_node _].
  pose proof (around_lt _ _ _ _ _ _ _ Hs) as Hlt.
  destruct (link_run _ h' _ _ _ _ _ _ Hs Hb) as (m1 & Hr1 & Hs1); [done|].
  destruct (merge_before m1 h' _ _ _ _ _ Hs1) as (m2 & L & d & Hr2 & Hs2 & Hd & Hj); [done..|].
  destruct (merge_run m2 h' _ _ _ _ _ Hs2 Hd) as (m3 & Hr3 & Hs3). rewrite Hj in Hs3.
  destruct (shape_links _ _ _ _ _ _ _ Hs2 Hd) as [_ [(nd & Hnd & Hdx)%nx_node _]].
  exists m3. split; [|exact Hs3]. unfold free. rewrite (proj2 (Z.eqb_neq _ _)) by lia.
  erewrite bind_ret by done. cbv beta. change (memory (set_memory m h)) with m. rewrite Hn. erewrite bind_ret by done. cbv beta. rewrite Hln.
  change (set_total (u64 (total_free (set_memory m h) + size b)) (set_memory m h)) with (set_memory m h').
  erewrite bind_ret by done.
  erewrite bind_ret.
  2:{ eapply find_free_run; [exact Hs|]. pose proof (shape_size _ _ _ _ _ Hs) as Hl. rewrite length_app in Hl. simpl in *. lia. }
  erewrite bind_ret by (by apply node_run). rewrite Hpx. erewrite bind_ret by done.
  erewrite bind_ret by (apply ensure_run, Z.ltb_lt; lia). erewrite bind_ret by exact Hr1.
  erewrite bind_ret by exact Hr2. erewrite bind_ret by (by apply node_run). rewrite Hdx. erewrite bind_ret by done.
  erewrite bind_ret by exact Hr3. done.
Qed.
(** A pointer that is not handed out: not an address, or the address of a free block. *)
Lemma free_unknown m h ptr : ptr <> 0 -> m !! ptr = None -> free ptr (set_memory m h) = AssertFail.
Proof. intros Hp Hm. unfold free. rewrite (proj2 (Z.eqb_neq _ _)) by done. erewrite bind_ret by done. cbv beta. change (memory (set_memory m h)) with m. by rewrite Hm. Qed.
Lemma free_twice m h from l1 b l2 to : shape m None from (l1 ++ b :: l2) to -> is_free b = true ->
  free (addr b) (set_memory m h) = AssertFail.
Proof.
  intros Hs Hb. set (h' := set_total (u64 (total_free h + size b)) h).
  destruct (shape_node _ h' _ _ _ _ b Hs) as (n & _ & Hln & Hn); [set_solver|].
  destruct (shape_addr _ _ _ _ _ b Hs) as [Ha _]; [set_solver|].
  destruct (shape_links _ _ _ _ _ _ _ Hs Hb) as [[(np & Hnp & Hpx)%nx_node _] _].
  unfold free. rewrite (proj2 (Z.eqb_neq _ _)) by lia.
  erewrite bind_ret by done. cbv beta. change (memory (set_memory m h)) with m. rewrite Hn. erewrite bind_ret by done. cbv beta. rewrite Hln.
  change (set_total (u64 (total_free (set_memory m h) + size b)) (set_memory m h)) with (set_memory m h').
  erewrite bind_ret by done.
  erewrite bind_ret.
  2:{ eapply find_free_run; [exact Hs|]. pose proof (shape_size _ _ _ _ _ Hs) as Hl. rewrite length_app in Hl. simpl in *. lia. }
  erewrite bind_ret by (by apply node_run). rewrite Hpx. erewrite bind_ret by done.
  unfold bind at 1. by rewrite Z.ltb_irrefl.
Qed.
