(* ===== verification/SmallHeapSpec.v ===== *)
(** [SmallHeap] against the list of blocks: [alloc], [alloc_high] and [free] do to the nodes
    what first fit, last fit and release with coalescing do to that list; what is handed out
    is disjoint, and what is given back is available again. *)
From S2P Require Import Prelude SmallHeap HeapBlocks HeapNodes HeapRun.
Local Open Scope Z_scope.
Implicit Types (bs : list block) (b : block) (m : memory_t) (h : SmallHeap) (k : Z).

(** ** What the heap promises *)

Record heap_ok h bs : Prop := {
  ok_shape : shape (memory h) None (pool h) bs (pool h + length_ h);
  ok_coalesced : coalesced bs = true;
  ok_total : total_free h = free_size bs;
  ok_high : last_key ∈ high h /\ forall p, p ∈ high h -> p = last_key \/ p ∈ addr <$> used bs }.

Lemma set_memory_id h : set_memory (memory h) h = h.
Proof. by destruct h. Qed.
Lemma heap_range h bs : heap_ok h bs -> 0 <= free_size bs < last_key.
Proof.
  intros [Hs _ _ _]. pose proof (free_size_range _ _ _ (s_tile _ _ _ _ _ Hs)).
  pose proof (s_from _ _ _ _ _ Hs). pose proof (s_to _ _ _ _ _ Hs). lia.
Qed.
Lemma free_size_mid l1 b l2 : free_size (l1 ++ b :: l2) = free_size l1 + (if is_free b then size b else 0) + free_size l2.
Proof. rewrite free_size_app, free_size_cons. lia. Qed.
Lemma used_mid l1 b l2 : used (l1 ++ b :: l2) = used l1 ++ (if is_free b then [] else [b]) ++ used l2.
Proof. rewrite used_app. f_equal. unfold used. rewrite filter_cons. case_decide as E; [by rewrite E|]. apply not_false_is_true in E. by rewrite E. Qed.
Lemma release_mid from l1 b l2 to : tile from (l1 ++ b :: l2) to -> release (addr b) (l1 ++ b :: l2) = l1 ++ mark true b :: l2.
Proof.
  intros Ht. unfold release. rewrite map_app. simpl. rewrite Z.eqb_refl.
  assert (forall l, (forall c, c ∈ l -> c ∈ l1 ++ l2) -> map (fun c => if addr c =? addr b then (addr c, size c, true) else c) l = l) as Hid.
  { induction l as [|c l IH]; intros Hin; [done|]. simpl. rewrite IH by (intros; apply Hin; by right).
    rewrite (proj2 (Z.eqb_neq _ _)); [done|]. apply (mid_addr_ne _ _ _ _ _ _ Ht). apply Hin. by left. }
  rewrite !Hid by set_solver. done.
Qed.

Lemma coalesced_around l1 b l2 : coalesced (l1 ++ b :: l2) = true <->
  coalesced l1 = true /\ coalesced l2 = true /\ (is_free b = true -> open_end l1 = true /\ absorbs l2 = false).
Proof.
  rewrite coalesced_app, !andb_true_iff.
  assert (coalesced (b :: l2) = true <-> coalesced l2 = true /\ (is_free b = true -> absorbs l2 = false)) as ->.
  { destruct l2 as [|c l2]; [simpl; tauto|]. change (coalesced (b :: c :: l2)) with (negb (is_free b && is_free c) && coalesced (c :: l2))%bool.
    rewrite andb_true_iff, negb_true_iff. simpl absorbs. destruct (is_free b), (is_free c); simpl; intuition congruence. }
  unfold open_end. change (head (b :: l2)) with (Some b). destruct (last l1) as [c|]; [|tauto].
  cbv iota. rewrite !negb_true_iff. destruct (is_free b), (is_free c); simpl; intuition congruence.
Qed.
Lemma split_low_coalesced l1 b l2 bytes : coalesced (l1 ++ b :: l2) = true -> is_free b = true ->
  coalesced (l1 ++ split_low bytes b ++ l2) = true.
Proof.
  intros (H1 & H2 & H3)%coalesced_around Hb. unfold split_low. cbn [app]. apply coalesced_around. split_and!; [done| |done].
  destruct (bytes =? size b); cbn [app]; [done|]. apply (coalesced_around []). split_and!; [done..|]. intros _. split; [done|by apply H3].
Qed.
Lemma split_high_coalesced l1 b l2 bytes : coalesced (l1 ++ b :: l2) = true -> is_free b = true ->
  coalesced (l1 ++ split_high bytes b ++ l2) = true.
Proof.
  intros (H1 & H2 & H3)%coalesced_around Hb. unfold split_high. rewrite <- app_assoc, app_assoc. cbn [app]. apply coalesced_around. split_and!; [|done|done].
  destruct (bytes =? size b); [by rewrite app_nil_r|]. apply (coalesced_around l1 _ []). split_and!; [done..|]. intros _. split; [by apply H3|done].
Qed.
Lemma split_low_free_size bytes b : free_size (split_low bytes b) = size b - bytes.
Proof.
  unfold split_low. rewrite free_size_cons. destruct (Z.eqb_spec bytes (size b)) as [->|]; [change (free_size []) with 0; simpl; lia|].
  rewrite free_size_cons. change (free_size []) with 0. unfold is_free, size. simpl. lia.
Qed.
Lemma split_high_free_size bytes b : free_size (split_high bytes b) = size b - bytes.
Proof.
  unfold split_high. rewrite free_size_app. destruct (Z.eqb_spec bytes (size b)) as [->|];
    rewrite !free_size_cons; change (free_size []) with 0; unfold is_free, size; simpl; lia.
Qed.

Lemma heap_alloc_step h bs bytes : heap_ok h bs -> 0 < bytes ->
  match alloc_abs bytes bs with
  | Some (p, bs') => exists h', alloc bytes h = Ret (h', Some p) /\ heap_ok h' bs' /\ pool h' = pool h /\ length_ h' = length_ h /\ high h' = high h
  | None => alloc bytes h = Ret (h, None)
  end.
Proof.
  intros Hok Hpos. pose proof (heap_range _ _ Hok) as Hrg. destruct Hok as [Hs Hc Ht [Hh1 Hh2]]. pose proof (shape_size _ _ _ _ _ Hs) as Hsz.
  unfold alloc. erewrite bind_ret by done. rewrite (proj2 (Z.eqb_neq bytes 0)), orb_false_r, Ht by lia.
  assert (forall f : option Z -> M (option Z), (let* current := firstfree in let* fuel := gets (fun h => base.size (memory h)) in
     let* o := first_fit fuel bytes current in f o) h = f (addr <$> head (fitting bytes bs)) h) as Hwalk.
  { intros f. rewrite <- (set_memory_id h) at 1. erewrite bind_ret by (by eapply firstfree_run). erewrite bind_ret by done.
    erewrite bind_ret by (apply (first_fit_run _ _ (pool h) (pool h + length_ h) bytes [] bs); [done|simpl; lia]).
    by rewrite set_memory_id. }
  destruct (alloc_abs bytes bs) as [[p bs']|] eqn:Ea.
  - apply alloc_abs_spec in Ea as (l1 & b & l2 & -> & Hf & Hno & -> & ->).
    pose proof Hf as [Hb Hle%Z.leb_le]%andb_true_iff.
    rewrite free_size_mid, Hb in *. pose proof (tile_split _ _ _ _ _ (s_tile _ _ _ _ _ Hs)) as (T1 & _ & T2).
    pose proof (free_size_range _ _ _ T1). pose proof (free_size_range _ _ _ T2).
    rewrite (proj2 (Z.ltb_ge _ _)) by lia. rewrite Hwalk, fitting_app, fitting_cons, Hf, fitting_none by done. cbn [app head fmap option_fmap option_map].
    destruct (take_low_run _ h _ _ _ _ _ _ Hs Hf Hpos) as (m' & Hr & Hs'). rewrite set_memory_id in Hr.
    erewrite bind_ret by exact Hr. eexists. split; [done|]. split; [|done]. constructor; cbn [total_free set_memory set_total memory pool length_ high set_high].
    + exact Hs'.
    + by apply split_low_coalesced.
    + rewrite Ht, u64_small, !free_size_app, split_low_free_size by lia. lia.
    + split; [done|]. intros p [->|Hp]%Hh2; [by left|right]. rewrite used_mid, Hb in Hp. rewrite !used_app, used_split_low. set_solver.
  - destruct (free_size bs <? bytes); [done|]. rewrite Hwalk, fitting_none by (by apply alloc_abs_none). done.
Qed.
Lemma heap_alloc_high_step h bs bytes : heap_ok h bs -> 0 < bytes ->
  match alloc_high_abs bytes bs with
  | Some (p, bs') => exists h', alloc_high bytes h = Ret (h', Some p) /\ heap_ok h' bs' /\ pool h' = pool h /\ length_ h' = length_ h /\ high h' = {[ p ]} ∪ high h
  | None => alloc_high bytes h = Ret (h, None)
  end.
Proof.
  intros Hok Hpos. pose proof (heap_range _ _ Hok) as Hrg. destruct Hok as [Hs Hc Ht [Hh1 Hh2]]. pose proof (shape_size _ _ _ _ _ Hs) as Hsz.
  unfold alloc_high. erewrite bind_ret by done. rewrite (proj2 (Z.eqb_neq bytes 0)), orb_false_r, Ht by lia.
  assert (forall f : option Z -> M (option Z), (let* current := lastfree in let* fuel := gets (fun h => base.size (memory h)) in
     let* o := last_fit fuel bytes current in f o) h = f (addr <$> last (fitting bytes bs)) h) as Hwalk.
  { intros f. rewrite <- (set_memory_id h) at 1. erewrite bind_ret by (by eapply lastfree_run). erewrite bind_ret by done.
    erewrite bind_ret by (apply (last_fit_run _ _ (pool h) (pool h + length_ h) bytes bs []); [by rewrite app_nil_r|simpl; lia]).
    by rewrite set_memory_id. }
  destruct (alloc_high_abs bytes bs) as [[p bs']|] eqn:Ea.
  - apply alloc_high_abs_spec in Ea as (l1 & b & l2 & -> & Hf & Hno & -> & ->).
    pose proof Hf as [Hb Hle%Z.leb_le]%andb_true_iff.
    rewrite free_size_mid, Hb in *. pose proof (tile_split _ _ _ _ _ (s_tile _ _ _ _ _ Hs)) as (T1 & _ & T2).
    pose proof (free_size_range _ _ _ T1). pose proof (free_size_range _ _ _ T2).
    rewrite (proj2 (Z.ltb_ge _ _)) by lia. rewrite Hwalk, fitting_app, fitting_cons, Hf, (fitting_none _ l2), last_snoc by done. cbn [fmap option_fmap option_map].
    destruct (take_high_run _ h _ _ _ _ _ _ Hs Hf Hpos) as (m' & Hr & Hs'). rewrite set_memory_id in Hr.
    erewrite bind_ret by exact Hr. eexists. split; [done|]. split; [|done]. constructor; cbn [total_free set_memory set_total memory pool length_ high set_high].
    + exact Hs'.
    + by apply split_high_coalesced.
    + rewrite Ht, u64_small, !free_size_app, split_high_free_size by lia. lia.
    + split; [set_solver|]. intros p. rewrite !used_app, used_split_high, !fmap_app. intros [->%elem_of_singleton|[->|Hp]%Hh2]%elem_of_union.
      * right. unfold addr at 2. simpl. set_solver.
      * by left.
      * right. rewrite used_mid, Hb in Hp. set_solver.
  - destruct (free_size bs <? bytes); [done|]. rewrite Hwalk, fitting_none by (by apply alloc_high_abs_none). done.
Qed.
Lemma heap_free_step h l1 b l2 : heap_ok h (l1 ++ b :: l2) -> is_free b = false ->
  exists h', free (addr b) h = Ret (h', tt) /\ heap_ok h' (free_abs (addr b) (l1 ++ b :: l2)) /\
    pool h' = pool h /\ length_ h' = length_ h /\ high h' = high h ∖ {[ addr b ]}.
Proof.
  intros Hok Hb. pose proof (heap_range _ _ Hok) as Hrg. destruct Hok as [Hs Hc Ht [Hh1 Hh2]].
  pose proof (s_tile _ _ _ _ _ Hs) as Hti. pose proof (shape_addr _ _ _ _ _ b Hs ltac:(set_solver)) as [Ha _].
  destruct (free_run _ h _ _ _ _ _ Hs Hb Hc) as (m' & Hr & Hs'). rewrite set_memory_id in Hr.
  assert (free_size (l1 ++ mark true b :: l2) = free_size (l1 ++ b :: l2) + size b) as Hfs.
  { rewrite !free_size_mid, Hb. unfold mark, is_free, size. simpl. lia. }
  pose proof (free_size_range _ _ _ (tile_mark _ _ _ _ _ true Hti)). pose proof (s_from _ _ _ _ _ Hs). pose proof (s_to _ _ _ _ _ Hs).
  unfold free_abs. rewrite (release_mid _ _ _ _ _ Hti). eexists. split; [exact Hr|]. split; [|done]. constructor; cbn [total_free set_memory set_total memory pool length_ high set_high].
  - exact Hs'.
  - apply coalesce_coalesced.
  - rewrite coalesce_free_size, Hfs, Ht. rewrite u64_small; lia.
  - rewrite coalesce_used. split; [apply elem_of_difference; split; [done|]; rewrite elem_of_singleton; lia|].
    intros p [[->|Hp]%Hh2 Hne%not_elem_of_singleton]%elem_of_difference; [by left|right].
    revert Hp. rewrite !used_mid, Hb. simpl. rewrite !fmap_app. set_solver.
Qed.

(** ** Sequences of calls *)

Inductive call := CAlloc (bytes : Z) | CAllocHigh (bytes : Z) | CFree (ptr : Z).

Definition exec (c : call) : M (option Z) :=
  match c with
  | CAlloc n => alloc n
  | CAllocHigh n => alloc_high n
  | CFree p => free p ;;; ret None
  end.
Fixpoint run_calls (cs : list call) : M (list (option Z)) :=
  match cs with
  | [] => ret []
  | c :: cs => let* r := exec c in let* rs := run_calls cs in ret (r :: rs)
  end.

(** The same on the list of blocks: a pointer that was not handed out is refused. *)
Definition exec_abs (c : call) bs : res (list block * option Z) :=
  match c with
  | CAlloc n => if n =? 0 then Ret (bs, None) else
      Ret (match alloc_abs n bs with Some (p, bs') => (bs', Some p) | None => (bs, None) end)
  | CAllocHigh n => if n =? 0 then Ret (bs, None) else
      Ret (match alloc_high_abs n bs with Some (p, bs') => (bs', Some p) | None => (bs, None) end)
  | CFree p => if p =? 0 then Ret (bs, None)
               else if bool_decide (p ∈ addr <$> used bs) then Ret (free_abs p bs, None) else AssertFail
  end.
Fixpoint run_abs (cs : list call) bs : res (list block * list (option Z)) :=
  match cs with
  | [] => Ret (bs, [])
  | c :: cs => '(bs, r) ← exec_abs c bs; '(bs, rs) ← run_abs cs bs; Ret (bs, r :: rs)
  end.
(** Sizes are [size_t]; the upper guard's address is not passed to [free]. *)
Definition call_ok (c : call) : Prop :=
  match c with CAlloc n | CAllocHigh n => 0 <= n | CFree p => p <> last_key end.

Lemma used_split p bs : p ∈ addr <$> used bs -> exists l1 b l2, bs = l1 ++ b :: l2 /\ is_free b = false /\ p = addr b.
Proof.
  intros (b & -> & [Hb Hin]%list_elem_of_filter)%list_elem_of_fmap. apply list_elem_of_split in Hin as (l1 & l2 & ->). eauto 6.
Qed.
Lemma free_refused h bs p : heap_ok h bs -> p <> 0 -> p <> last_key -> p ∉ addr <$> used bs -> free p h = AssertFail.
Proof.
  intros [Hs _ _ _] Hp Hl Hu. rewrite <- (set_memory_id h). destruct (memory h !! p) as [n|] eqn:E; [|by apply free_unknown].
  assert (is_Some (memory h !! p)) as [?|[?|Hin]]%(s_dom _ _ _ _ _ Hs) by (by eexists); [done..|].
  apply list_elem_of_fmap in Hin as (b & -> & Hin). destruct (is_free b) eqn:Hb.
  - apply list_elem_of_split in Hin as (l1 & l2 & ->). by eapply free_twice.
  - destruct Hu. apply list_elem_of_fmap_2, list_elem_of_filter. done.
Qed.

(** One call. *)
Lemma exec_refines h bs c : heap_ok h bs -> call_ok c ->
  match exec_abs c bs with
  | Ret (bs', r) => exists h', exec c h = Ret (h', r) /\ heap_ok h' bs' /\ pool h' = pool h /\ length_ h' = length_ h
  | AssertFail => exec c h = AssertFail
  | Throw _ => False
  end.
Proof.
  intros Hok Hc. destruct c as [n|n|p]; simpl in Hc |- *.
  - destruct (Z.eqb_spec n 0) as [->|Hn]; [exists h; split; [|done]; unfold alloc, bind, gets, ret; simpl; by rewrite orb_true_r|].
    pose proof (heap_alloc_step h bs n Hok ltac:(lia)) as Ha. destruct (alloc_abs n bs) as [[p bs']|]; naive_solver.
  - destruct (Z.eqb_spec n 0) as [->|Hn]; [exists h; split; [|done]; unfold alloc_high, bind, gets, ret; simpl; by rewrite orb_true_r|].
    pose proof (heap_alloc_high_step h bs n Hok ltac:(lia)) as Ha. destruct (alloc_high_abs n bs) as [[p bs']|]; naive_solver.
  - destruct (Z.eqb_spec p 0) as [->|Hp]; [by exists h|]. case_bool_decide as Hu.
    + apply used_split in Hu as (l1 & b & l2 & -> & Hb & ->).
      destruct (heap_free_step h l1 b l2 Hok Hb) as (h' & Hr & Hok' & ? & ? & _). exists h'. split_and!; [|done..].
      by erewrite bind_ret by exact Hr.
    + unfold bind. by rewrite (free_refused _ _ _ Hok Hp Hc Hu).
Qed.

Lemma run_refines h bs cs : heap_ok h bs -> Forall call_ok cs ->
  match run_abs cs bs with
  | Ret (bs', rs) => exists h', run_calls cs h = Ret (h', rs) /\ heap_ok h' bs' /\ pool h' = pool h /\ length_ h' = length_ h
  | AssertFail => run_calls cs h = AssertFail
  | Throw _ => False
  end.
Proof.
  intros Hok Hcs. revert h bs Hok. induction Hcs as [|c cs Hc _ IH]; intros h bs Hok; simpl; [by exists h|].
  pose proof (exec_refines h bs c Hok Hc) as He. destruct (exec_abs c bs) as [[bs1 r]| |]; simpl; [|by unfold bind; rewrite He|done].
  destruct He as (h1 & Hr & Hok1 & Hp1 & Hl1). specialize (IH h1 bs1 Hok1).
  destruct (run_abs cs bs1) as [[bs2 rs]| |]; simpl; [|by unfold bind; rewrite Hr; simpl; rewrite IH|done].
  destruct IH as (h2 & Hr2 & Hok2 & Hp2 & Hl2). exists h2. erewrite bind_ret by exact Hr. erewrite bind_ret by exact Hr2.
  split_and!; [done|done|congruence..].
Qed.

(** The constructor's heap: one free block. *)
Lemma new_ok base length : 0 < base -> 0 < length -> base + length < last_key ->
  exists h, SmallHeap_new base length = Ret h /\ heap_ok h [(base, length, true)] /\ pool h = base /\ length_ h = length.
Proof.
  intros Hb Hl Ht. unfold SmallHeap_new.
  rewrite (proj2 (Z.eqb_neq base 0)), (proj2 (Z.eqb_neq base last_key)), u64_small, (proj2 (Z.eqb_neq _ _)) by lia.
  eexists. split; [reflexivity|]. split; [|done]. constructor; cbn [total_free memory pool length_ high].
  - constructor; try done; cbn [fmap list_fmap addr fst].
    + intros k. rewrite !lookup_insert_is_Some, lookup_empty. unfold addr. simpl. rewrite list_elem_of_singleton.
      destruct (decide (0 = k)), (decide (base = k)), (decide (last_key = k)); subst; try tauto.
      split; [|intros [?|[?|?]]; subst; tauto]. intros [?|[_ [?|[_ [?|[_ [? ?]]]]]]]; done.
    + unfold ln, pr, nx. rewrite lookup_insert_eq. rewrite !lookup_insert_ne, lookup_insert_eq by lia. done.
    + intros b ->%list_elem_of_singleton. unfold ln, addr. simpl. rewrite lookup_insert_ne, lookup_insert_eq by lia. done.
    + by intros b ->%list_elem_of_singleton.
    + unfold free_list, frees. simpl. unfold addr, link, nx, pr. simpl.
      rewrite lookup_insert_eq. rewrite !(lookup_insert_ne _ 0) by lia. rewrite lookup_insert_eq. rewrite lookup_insert_ne, lookup_insert_eq by lia. done.
  - done.
  - unfold free_size, sumZ, size. simpl. lia.
  - split; [set_solver|]. intros p ->%elem_of_singleton. by left.
Qed.

(** C3: from the constructor on, every sequence of [alloc], [alloc_high] and [free] gives the
    results, and leaves the blocks, that first fit from below, last fit from above and release
    with coalescing give on a list of blocks; a [free] of a pointer that is not handed out
    fails an assertion, and no call fails otherwise. *)
Theorem heap_refines base length cs :
  0 < base -> 0 < length -> base + length < last_key -> Forall call_ok cs ->
  exists h, SmallHeap_new base length = Ret h /\
    match run_abs cs [(base, length, true)] with
    | Ret (bs, rs) => exists h', run_calls cs h = Ret (h', rs) /\ heap_ok h' bs
    | _ => run_calls cs h = AssertFail
    end.
Proof.
  intros Hb Hl Ht Hcs. destruct (new_ok base length Hb Hl Ht) as (h & Hn & Hok & _ & _). exists h. split; [done|].
  pose proof (run_refines h _ cs Hok Hcs) as Hr. destruct (run_abs cs [(base, length, true)]) as [[bs rs]| |]; [|done|done].
  destruct Hr as (h' & ? & ? & _). eauto.
Qed.

(** C24: a block that [alloc] or [alloc_high] hands out lies in the pool, is disjoint from all
    blocks handed out before, has the asked size, and costs just that much. *)
Theorem alloc_separate h bs bytes hi h' p :
  heap_ok h bs -> 0 < bytes -> (if hi : bool then alloc_high bytes else alloc bytes) h = Ret (h', Some p) ->
  pool h <= p /\ p + bytes <= pool h + length_ h /\
  (forall c, c ∈ used bs -> p + bytes <= addr c \/ addr c + size c <= p) /\
  exists bs', heap_ok h' bs' /\ (forall c, c ∈ used bs' <-> c = (p, bytes, false) \/ c ∈ used bs) /\
    remaining h' = remaining h - bytes.
Proof.
  intros Hok Hpos Hr.
  assert (exists l1 b l2 mid, bs = l1 ++ b :: l2 /\ fits_in bytes b = true /\ heap_ok h' (l1 ++ mid ++ l2) /\
    used mid = [(p, bytes, false)] /\ free_size mid = size b - bytes /\ addr b <= p /\ p + bytes <= addr b + size b)
    as (l1 & b & l2 & mid & -> & [Hb Hf%Z.leb_le]%andb_true_iff & Hok' & Hu & Hfs & Hlo & Hhi).
  { destruct hi.
    - pose proof (heap_alloc_high_step h bs bytes Hok Hpos) as Ha. destruct (alloc_high_abs bytes bs) as [[q bs']|] eqn:E; [|congruence].
      destruct Ha as (h1 & Hr' & Hok' & _). rewrite Hr in Hr'. injection Hr' as <- <-.
      apply alloc_high_abs_spec in E as (l1 & b & l2 & -> & Hf & _ & -> & ->). pose proof Hf as [_ Hle%Z.leb_le]%andb_true_iff.
      exists l1, b, l2, (split_high bytes b). rewrite used_split_high, split_high_free_size. split_and!; try done; lia.
    - pose proof (heap_alloc_step h bs bytes Hok Hpos) as Ha. destruct (alloc_abs bytes bs) as [[q bs']|] eqn:E; [|congruence].
      destruct Ha as (h1 & Hr' & Hok' & _). rewrite Hr in Hr'. injection Hr' as <- <-.
      apply alloc_abs_spec in E as (l1 & b & l2 & -> & Hf & _ & -> & ->). pose proof Hf as [_ Hle%Z.leb_le]%andb_true_iff.
      exists l1, b, l2, (split_low bytes b). rewrite used_split_low, split_low_free_size. split_and!; try done; lia. }
  destruct Hok as [Hs _ Ht _]. pose proof (s_tile _ _ _ _ _ Hs) as Hti.
  destruct (tile_in _ _ _ b Hti) as (? & _ & ?); [set_solver|]. apply tile_split in Hti as (T1 & _ & T2).
  split_and!; [lia|lia| |].
  - intros c [Hcu Hc%elem_mid]%list_elem_of_filter. destruct Hc as [->|[Hc|Hc]%elem_of_app]; [congruence| |].
    + apply (tile_in _ _ _ _ T1) in Hc. lia.
    + apply (tile_in _ _ _ _ T2) in Hc. lia.
  - exists (l1 ++ mid ++ l2). split_and!; [done| |].
    + intros c. rewrite used_mid, Hb, !used_app, Hu. set_solver.
    + unfold remaining. rewrite Ht, (ok_total _ _ Hok'), free_size_mid, Hb, !free_size_app, Hfs. lia.
Qed.

(** Releasing what was just cut off restores the block. *)
Lemma rejoin l1 b l2 a s1 s2 : coalesced (l1 ++ b :: l2) = true -> is_free b = true ->
  a = addr b -> s1 + s2 = size b -> coalesce (l1 ++ (a, s1, true) :: (a + s1, s2, true) :: l2) = l1 ++ b :: l2.
Proof.
  intros Hc%coalesced_around Hb -> Hs. destruct Hc as (H1 & H2 & H3). destruct (H3 Hb) as [Ho Ha].
  rewrite coalesce_prefix, join_assoc by done. f_equal.
  replace (joined (addr b, s1, true) (addr b + s1, s2, true)) with b.
  - destruct l2 as [|c l2]; [done|]. simpl in *. by rewrite Ha.
  - destruct b as [[x y] z]. unfold joined, is_free, addr, size in *. simpl in *. congruence.
Qed.
Lemma free_split_low l1 b l2 bytes from to : tile from (l1 ++ b :: l2) to -> coalesced (l1 ++ b :: l2) = true ->
  is_free b = true -> 0 < bytes <= size b -> free_abs (addr b) (l1 ++ split_low bytes b ++ l2) = l1 ++ b :: l2.
Proof.
  intros Ht Hc Hb Hbs. pose proof (tile_split _ _ _ _ _ Ht) as (T1 & Hs & T2). unfold free_abs.
  assert (tile from (l1 ++ split_low bytes b ++ l2) to) as Ht2.
  { apply tile_app. exists (addr b). split; [done|]. apply tile_app. exists (addr b + size b). split; [by apply split_low_tile|done]. }
  unfold split_low in *. cbn [app] in *. pose proof (release_mid _ _ _ _ _ Ht2) as Hr.
  change (addr (addr b, bytes, false)) with (addr b) in Hr. rewrite Hr.
  destruct (Z.eqb_spec bytes (size b)) as [->|Hne]; cbn [app].
  - change (mark true (addr b, size b, false)) with (addr b, size b, true).
    replace (addr b, size b, true) with b by (rewrite <- (mark_eq b true) at 1 by done; done). by apply coalesce_id.
  - apply (rejoin l1 b l2); [done|done|done|]. unfold size. simpl. lia.
Qed.
Lemma free_split_high l1 b l2 bytes from to : tile from (l1 ++ b :: l2) to -> coalesced (l1 ++ b :: l2) = true ->
  is_free b = true -> 0 < bytes <= size b -> free_abs (addr b + size b - bytes) (l1 ++ split_high bytes b ++ l2) = l1 ++ b :: l2.
Proof.
  intros Ht Hc Hb Hbs. pose proof (tile_split _ _ _ _ _ Ht) as (T1 & Hs & T2). unfold free_abs.
  assert (tile from (l1 ++ split_high bytes b ++ l2) to) as Ht2.
  { apply tile_app. exists (addr b). split; [done|]. apply tile_app. exists (addr b + size b). split; [by apply split_high_tile|done]. }
  assert (l1 ++ split_high bytes b ++ l2 =
    (l1 ++ (if bytes =? size b then [] else [(addr b, size b - bytes, true)])) ++ (addr b + size b - bytes, bytes, false) :: l2) as Hsp
    by (unfold split_high; by rewrite <- !app_assoc).
  rewrite Hsp in *. pose proof (release_mid _ _ _ _ _ Ht2) as Hr.
  change (addr (addr b + size b - bytes, bytes, false)) with (addr b + size b - bytes) in Hr.
  transitivity (coalesce ((l1 ++ (if bytes =? size b then [] else [(addr b, size b - bytes, true)])) ++
    mark true (addr b + size b - bytes, bytes, false) :: l2)); [apply (f_equal coalesce), Hr|]. rewrite <- app_assoc.
  destruct (Z.eqb_spec bytes (size b)) as [->|Hne]; cbn [app].
  - replace (mark true (addr b + size b - size b, size b, false)) with b; [by apply coalesce_id|].
    rewrite <- (mark_eq b true) at 1 by done. unfold mark, addr, size. simpl. do 2 f_equal. lia.
  - replace (addr b + size b - bytes) with (addr b + (size b - bytes)) by lia.
    change (mark true (addr b + (size b - bytes), bytes, false)) with (addr b + (size b - bytes), bytes, true).
    apply (rejoin l1 b l2); [done|done|done|]. lia.
Qed.

(** C25: [free] of a block that [alloc] or [alloc_high] has just handed out succeeds and
    restores the blocks of before, whatever was split for it. *)
Theorem alloc_free_roundtrip h bs bytes hi h' p :
  heap_ok h bs -> 0 < bytes -> (if hi : bool then alloc_high bytes else alloc bytes) h = Ret (h', Some p) ->
  exists h2, free p h' = Ret (h2, tt) /\ heap_ok h2 bs.
Proof.
  intros Hok Hpos Hr. pose proof Hok as [Hs Hc _ _]. pose proof (s_tile _ _ _ _ _ Hs) as Hti.
  assert (exists bs', heap_ok h' bs' /\ p ∈ addr <$> used bs' /\ free_abs p bs' = bs) as (bs' & Hok' & Hin & Hf).
  { destruct hi.
    - pose proof (heap_alloc_high_step h bs bytes Hok Hpos) as Ha. destruct (alloc_high_abs bytes bs) as [[q bs']|] eqn:E; [|congruence].
      destruct Ha as (h1 & Hr' & Hok' & _). rewrite Hr in Hr'. injection Hr' as <- <-. exists bs'.
      apply alloc_high_abs_spec in E as (l1 & b & l2 & -> & Hf & _ & -> & ->). apply andb_true_iff in Hf as [Hb Hle%Z.leb_le].
      split_and!; [done|rewrite !used_app, used_split_high, !fmap_app; unfold addr; simpl; set_solver|eapply free_split_high; done || lia].
    - pose proof (heap_alloc_step h bs bytes Hok Hpos) as Ha. destruct (alloc_abs bytes bs) as [[q bs']|] eqn:E; [|congruence].
      destruct Ha as (h1 & Hr' & Hok' & _). rewrite Hr in Hr'. injection Hr' as <- <-. exists bs'.
      apply alloc_abs_spec in E as (l1 & b & l2 & -> & Hf & _ & -> & ->). apply andb_true_iff in Hf as [Hb Hle%Z.leb_le].
      split_and!; [done|rewrite !used_app, used_split_low, !fmap_app; unfold addr; simpl; set_solver|eapply free_split_low; done || lia]. }
  apply used_split in Hin as (l1 & b & l2 & -> & Hb & ->). destruct (heap_free_step _ _ _ _ Hok' Hb) as (h2 & Hr2 & Hok2 & _).
  rewrite Hf in Hok2. eauto.
Qed.

(** All blocks free and no two neighbours free: one block. *)
Lemma all_free_one bs : bs <> [] -> used bs = [] -> coalesced bs = true -> exists b, bs = [b] /\ is_free b = true.
Proof.
  destruct bs as [|b bs]; [done|]. intros _ Hu Hc. exists b.
  pose proof (used_mid [] b bs) as Hm. simpl app in Hm. rewrite Hu in Hm. destruct (is_free b) eqn:Eb; [|done].
  split; [|done]. destruct bs as [|c bs]; [done|]. change (coalesced ([] ++ b :: c :: bs) = true) in Hc.
  apply coalesced_around in Hc as (_ & _ & H3). destruct (H3 Eb) as [_ Hf]. simpl in Hf.
  pose proof (used_mid [] c bs) as Hm2. simpl app in Hm2. rewrite Hf in Hm2. change (used []) with (@nil block) in Hm, Hm2. simpl in Hm, Hm2. congruence.
Qed.

(** Compaction is complete: once everything that was handed out has been given back, the
    pool is one free block again and an [alloc] of any size up to the pool's succeeds. *)
Theorem heap_compacts h bs bytes :
  heap_ok h bs -> 0 < length_ h -> used bs = [] -> 0 < bytes <= length_ h ->
  bs = [(pool h, length_ h, true)] /\ remaining h = length_ h /\ exists h', alloc bytes h = Ret (h', Some (pool h)).
Proof.
  intros Hok Hlen Hu Hb. pose proof Hok as [Hs Hc Ht _]. pose proof (s_tile _ _ _ _ _ Hs) as Hti.
  destruct (all_free_one bs) as (b & -> & Hf); [|done|done|].
  { intros ->. simpl in Hti. lia. }
  destruct Hti as (Ha & _ & He). simpl in He. assert (size b = length_ h) as Hsz by lia.
  assert (b = (pool h, length_ h, true)) as -> by (destruct b as [[x y] z]; unfold addr, size, is_free in *; simpl in *; congruence).
  split_and!; [done| |].
  - unfold remaining. rewrite Ht. unfold free_size, sumZ, size. simpl. lia.
  - pose proof (heap_alloc_step h _ bytes Hok ltac:(lia)) as Hal. simpl in Hal. unfold fits_in in Hal. simpl in Hal.
    unfold size in Hal at 1. simpl in Hal. rewrite (proj2 (Z.leb_le _ _)) in Hal by lia. destruct Hal as (h' & Hr & _). eauto.
Qed.

(** ** Witnesses *)

Definition ex_heap : SmallHeap := match SmallHeap_new 4096 100 with Ret h => h | _ => mkHeap 0 0 0 ∅ ∅ end.
Lemma ex_heap_ok : heap_ok ex_heap [(4096, 100, true)].
Proof. destruct (new_ok 4096 100) as (h & Hn & Hok & _); [done..|]. unfold ex_heap. by rewrite Hn. Qed.
Lemma ex_alloc : exists h', alloc 10 ex_heap = Ret (h', Some 4096).
Proof. eexists. vm_compute. reflexivity. Qed.
Definition ex_calls : list call := [CAlloc 10; CAlloc 20; CAllocHigh 30; CFree 4096; CFree 4106; CAlloc 25; CFree 0].
Example ex_calls_run : run_abs ex_calls [(4096, 100, true)] =
  Ret ([(4096, 25, false); (4121, 45, true); (4166, 30, false)], [Some 4096; Some 4106; Some 4166; None; None; Some 4096; None]).
Proof. vm_compute. reflexivity. Qed.

Lemma heap_refines_witness : exists h h', SmallHeap_new 4096 100 = Ret h /\
  run_calls ex_calls h = Ret (h', [Some 4096; Some 4106; Some 4166; None; None; Some 4096; None]).
Proof.
  destruct (heap_refines 4096 100 ex_calls) as (h & Hn & Hr); [done|done|done|unfold ex_calls; rewrite !Forall_cons; unfold call_ok, last_key; split_and!; try lia; apply Forall_nil_2|].
  rewrite ex_calls_run in Hr. destruct Hr as (h' & Hr & _). by exists h, h'.
Defined.
Lemma alloc_separate_witness : exists h', alloc 10 ex_heap = Ret (h', Some 4096) /\ remaining h' = 90.
Proof.
  destruct ex_alloc as [h' Hr]. exists h'. split; [done|].
  destruct (alloc_separate ex_heap _ 10 false h' 4096 ex_heap_ok eq_refl Hr) as (_ & _ & _ & _ & _ & _ & ->). vm_compute. reflexivity.
Defined.
Lemma alloc_free_roundtrip_witness : exists h' h2, alloc 10 ex_heap = Ret (h', Some 4096) /\ free 4096 h' = Ret (h2, tt) /\
  heap_ok h2 [(4096, 100, true)].
Proof.
  destruct ex_alloc as [h' Hr].
  destruct (alloc_free_roundtrip ex_heap _ 10 false h' 4096 ex_heap_ok eq_refl Hr) as (h2 & Hf & Hok).
  exists h', h2. exact (conj Hr (conj Hf Hok)).
Defined.
Lemma heap_compacts_witness : remaining ex_heap = 100 /\ exists h', alloc 100 ex_heap = Ret (h', Some 4096).
Proof. apply (heap_compacts ex_heap _ 100 ex_heap_ok); done. Defined.
