(* ===== verification/Signal.v ===== *)
(** Signals: [include/core/ISignal.h], [src/core/ISignal.cpp], [DefaultSignal.cpp] and
    [InterruptSignal.cpp], with the map of shared signals of [src/core/Stream.cpp] and the
    events that [src/core/EventPool.cpp] hands to them.

    A signal lives in a store under its address, which is also its handle; 0 is the null
    handle.  Its value is a cell of [Atomic.v] of 64 bits, seen through [signal_value_t], which
    is [int32_t] ([CO_LARGE_MODEL] is not set).  The use of a signal that was deleted and an
    [assert] that fails are [AssertFail].  [IDevice] is an interface: whether its [n]-th
    [CreateEvent] succeeds is a parameter, and its [SetEvent] is recorded. *)
From S2P Require Import Prelude Atomic.
Local Open Scope Z_scope.

(** ** Data *)

Inductive sclass := BusyWait | Interrupt.
#[export] Instance sclass_eq_dec : EqDecision sclass.
Proof. solve_decision. Defined.

Definition SIGNAL_KIND_INVALID : Z := 0.
Definition SIGNAL_KIND_USER : Z := 1.
Definition SIGNAL_GPU_ONLY : Z := 1.
Definition SIGNAL_IPC : Z := 2.

(** [core_signal] is the field of the shared block: null for a signal shared between
    processes. *)
Record ISignal := mkSignal {
  cls : sclass; value : cell; kind : Z; core_signal : option nat;
  waiting_ : Z; refcount_ : Z; retained_ : Z;
  event_ : option nat; free_event_ : bool }.

Record EventPool := mkPool { events_ : list nat; allEventsAllocated : bool; created : nat; create_event : nat -> bool }.

(** [next]: the address of the next object. *)
Record World := mkWorld { sigs : gmap nat ISignal; ipcMap_ : gmap nat nat; pool : EventPool; sets : list nat; next : nat }.
Definition M (A : Type) : Type := st World A.

Definition with_sigs (m : gmap nat ISignal) (w : World) : World := mkWorld m (ipcMap_ w) (pool w) (sets w) (next w).
Definition with_ipc (m : gmap nat nat) (w : World) : World := mkWorld (sigs w) m (pool w) (sets w) (next w).
Definition with_pool (p : EventPool) (w : World) : World := mkWorld (sigs w) (ipcMap_ w) p (sets w) (next w).
Definition with_sets (l : list nat) (w : World) : World := mkWorld (sigs w) (ipcMap_ w) (pool w) l (next w).

Definition set_value (c : cell) (s : ISignal) : ISignal :=
  mkSignal (cls s) c (kind s) (core_signal s) (waiting_ s) (refcount_ s) (retained_ s) (event_ s) (free_event_ s).
Definition set_waiting (z : Z) (s : ISignal) : ISignal :=
  mkSignal (cls s) (value s) (kind s) (core_signal s) z (refcount_ s) (retained_ s) (event_ s) (free_event_ s).
Definition set_refcount (z : Z) (s : ISignal) : ISignal :=
  mkSignal (cls s) (value s) (kind s) (core_signal s) (waiting_ s) z (retained_ s) (event_ s) (free_event_ s).
Definition set_retained (z : Z) (s : ISignal) : ISignal :=
  mkSignal (cls s) (value s) (kind s) (core_signal s) (waiting_ s) (refcount_ s) z (event_ s) (free_event_ s).
Definition set_kind (z : Z) (s : ISignal) : ISignal :=
  mkSignal (cls s) (value s) z (core_signal s) (waiting_ s) (refcount_ s) (retained_ s) (event_ s) (free_event_ s).

Definition sig (i : nat) : M ISignal := fun w => s ← deref (sigs w !! i); Ret (w, s).
Definition put (i : nat) (s : ISignal) : M unit := modify (fun w => with_sigs (<[i := s]> (sigs w)) w).
Definition upd (i : nat) (f : ISignal -> ISignal) : M unit := let* s := sig i in put i (f s).
Definition ensure (b : bool) : M unit := if b then ret tt else failed.

(** ** Events *)

Module EventPool.

(** [CreateEvent(EVENTTYPE_SIGNAL, false)] of the device, and the event's number. *)
Definition CreateEvent : M (option nat) := fun w =>
  let p := pool w in
  let w' := with_pool (mkPool (events_ p) (allEventsAllocated p) (S (created p)) (create_event p)) w in
  Ret (w', if create_event p (created p) then Some (created p) else None).
Definition alloc : M (option nat) :=
  let* p := gets pool in
  match last (events_ p) with
  | None =>
      if negb (allEventsAllocated p) then
        let* evt := CreateEvent in
        (match evt with
         | None => modify (fun w => let p := pool w in with_pool (mkPool (events_ p) true (created p) (create_event p)) w)
         | Some _ => ret tt
         end) ;;;
        ret evt
      else ret None
  | Some e =>
      modify (fun w => let p := pool w in with_pool (mkPool (removelast (events_ p)) (allEventsAllocated p) (created p) (create_event p)) w) ;;;
      ret (Some e)
  end.
Definition free (evt : option nat) : M unit :=
  match evt with
  | None => ret tt
  | Some e => modify (fun w => let p := pool w in with_pool (mkPool (events_ p ++ [e]) (allEventsAllocated p) (created p) (create_event p)) w)
  end.
End EventPool.

(** ** The value *)

(** [signal_value_t(...)] of the 64 bit value, and the value itself as [int64_t]. *)
Definition signal_value (z : Z) : Z := sgn 32 z.
Definition int64 (c : cell) : Z := sgn 64 (val c).

Inductive sig_op :=
| OpLoad | OpStore (v : Z) | OpAnd (v : Z) | OpOr (v : Z) | OpXor (v : Z) | OpAdd (v : Z) | OpSub (v : Z)
| OpExch (v : Z) | OpCas (expected v : Z).
(** The operation of [atomic_helpers.h] a method calls. *)
Definition atomic_of (op : sig_op) : atomic_op :=
  match op with
  | OpLoad => ALoad | OpStore v => AStore v | OpAnd v => AAnd v | OpOr v => AOr v | OpXor v => AXor v
  | OpAdd v => AAdd v | OpSub v => ASub v | OpExch v => AExchange v | OpCas e v => ACas v e
  end.
(** The result of those methods that have one. *)
Definition returns (op : sig_op) : bool := match op with OpLoad | OpExch _ | OpCas _ _ => true | _ => false end.
Definition is_load (op : sig_op) : bool := match op with OpLoad => true | _ => false end.

Definition atomic (op : sig_op) (order : memory_order) (i : nat) : M (option Z) :=
  let* s := sig i in
  let '(r, c) := run_op 64 (atomic_of op) order (value s) in
  put i (set_value c s) ;;;
  ret (if returns op then signal_value <$> r else None).

Definition BusyWait_op := atomic.

Definition InWaiting (i : nat) : M bool := let* s := sig i in ret (negb (waiting_ s =? 0)).
(** [IDevice::SetEvent] of a null event does nothing. *)
Definition SetEvent (i : nat) : M unit :=
  let* b := InWaiting i in
  if b then
    let* s := sig i in
    match event_ s with Some e => modify (fun w => with_sets (sets w ++ [e]) w) | None => ret tt end
  else ret tt.
Definition Interrupt_op (op : sig_op) (order : memory_order) (i : nat) : M (option Z) :=
  let* r := atomic op order i in
  if is_load op then ret r else SetEvent i ;;; ret r.

Definition op (o : sig_op) (order : memory_order) (i : nat) : M (option Z) :=
  let* s := sig i in
  match cls s with
  | BusyWait => BusyWait_op o order i
  | Interrupt => Interrupt_op o order i
  end.

(** ** The life of a signal *)

Definition IsValid (s : ISignal) : bool := negb (refcount_ s =? 0).
(** [SharedSignal::IsIPC]. *)
Definition IsIPC (s : ISignal) : bool := match core_signal s with None => true | Some _ => false end.

Definition Retain (i : nat) : M unit := upd i (fun s => set_retained (u32 (retained_ s + 1)) s).

(** [StreamPool::RegisterIpc], [DeRegisterIpc], [lookupIpc] and [duplicateIpc], each under
    [ipcLock_]. *)
Definition RegisterIpc (i : nat) : M unit :=
  let* m := gets ipcMap_ in
  ensure (match m !! i with None => true | Some _ => false end) ;;;
  modify (fun w => with_ipc (<[i := i]> (ipcMap_ w)) w).
Definition DeRegisterIpc (i : nat) : M bool :=
  let* s := sig i in
  if negb (refcount_ s =? 0) then ret false
  else
    let* m := gets ipcMap_ in
    ensure (match m !! i with None => false | Some _ => true end) ;;;
    modify (fun w => with_ipc (delete i (ipcMap_ w)) w) ;;;
    ret true.
Definition lookupIpc (handle : nat) : M (option nat) := gets (fun w => ipcMap_ w !! handle).
Definition duplicateIpc (handle : nat) : M (option nat) :=
  let* o := lookupIpc handle in
  match o with
  | None => ret None
  | Some i => upd i (fun s => set_refcount (u32 (refcount_ s + 1)) s) ;;; Retain i ;;; ret (Some i)
  end.

(** The destructors: that of the class, then [~ISignal]. *)
Definition ISignal_dtor (i : nat) : M unit :=
  upd i (set_kind SIGNAL_KIND_INVALID) ;;;
  let* s := sig i in
  if ((refcount_ s =? 1) && IsIPC s)%bool then
    upd i (set_refcount 0) ;;; let* _b := DeRegisterIpc i in ret tt
  else ret tt.
Definition doDestroySignal (i : nat) : M unit :=
  let* s := sig i in
  (match cls s with
   | Interrupt => if free_event_ s then EventPool.free (event_ s) else ret tt
   | BusyWait => ret tt
   end) ;;;
  ISignal_dtor i ;;;
  modify (fun w => with_sigs (delete i (sigs w)) w).

Definition Release (i : nat) : M unit :=
  upd i (fun s => set_retained (u32 (retained_ s - 1)) s) ;;;
  let* s := sig i in
  if negb (retained_ s =? 0) then ret tt
  else if negb (IsIPC s) then doDestroySignal i
  else let* b := DeRegisterIpc i in if b then doDestroySignal i else ret tt.

Definition DestroySignal (i : nat) : M unit :=
  upd i (fun s => set_refcount (u32 (refcount_ s - 1)) s) ;;;
  let* s := sig i in
  (if refcount_ s =? 0 then let* _r := op (OpCas 0 0) relaxed i in ret tt else ret tt) ;;;
  Release i.

(** [StreamPool::DuplicateSignalHandle] and [Convert].  A handle is followed without a test:
    that of a deleted signal is a stray access, and the [assert]s of [Convert] have a string
    literal for a condition, which always holds. *)
Definition DuplicateSignalHandle (handle : nat) : M (option nat) :=
  if decide (handle = 0%nat) then ret None
  else
    let* s := sig handle in
    match core_signal s with
    | Some i => upd i (fun s => set_refcount (u32 (refcount_ s + 1)) s) ;;; Retain i ;;; ret (Some i)
    | None => duplicateIpc handle
    end.
Definition Convert (handle : nat) : M (option nat) :=
  let* s := sig handle in
  match core_signal s with
  | None => lookupIpc handle
  | Some i => ret (Some i)
  end.

(** The constructors. *)
Definition ISignal_new (c : sclass) (initial_value : Z) (enableIPC : bool) : M nat :=
  let* i := gets next in
  modify (fun w => mkWorld (<[i := mkSignal c (mkCell (wrap 64 initial_value) []) SIGNAL_KIND_INVALID
                                    (if enableIPC then None else Some i) 0 1 1 None false]> (sigs w))
                     (ipcMap_ w) (pool w) (sets w) (S i)) ;;;
  (if enableIPC then RegisterIpc i else ret tt) ;;;
  ret i.
Definition DefaultSignal_new (initial_value : Z) (enableIPC : bool) : M nat :=
  let* i := ISignal_new BusyWait initial_value enableIPC in
  upd i (set_kind SIGNAL_KIND_USER) ;;;
  ret i.
Definition InterruptSignal_new (initial_value : Z) (use_event : option nat) : M nat :=
  let* i := ISignal_new Interrupt initial_value false in
  let* p := match use_event with Some e => ret (Some e, false) | None => let* e := EventPool.alloc in ret (e, true) end in
  upd i (fun s => mkSignal (cls s) (value s) SIGNAL_KIND_USER (core_signal s) (waiting_ s) (refcount_ s) (retained_ s) p.1 p.2) ;;;
  ret i.

(** [StreamPool::CreateSignal].  Agents are numbers; [SUCCESS] with the signal, or
    [ERROR_INVALID_ARGUMENT]. *)
Inductive status_t := SUCCESS | ERROR | ERROR_INVALID_ARGUMENT.
Definition flag (attributes bit : Z) : bool := negb (Z.land attributes bit =? 0).
Definition CreateSignal (use_interrupt_wait : bool) (cpu_agents : list nat)
    (initial_value : Z) (consumers : list nat) (attributes : Z) : M (status_t * option nat) :=
  let enable_ipc := flag attributes SIGNAL_IPC in
  let use_default := (enable_ipc || flag attributes SIGNAL_GPU_ONLY || negb use_interrupt_wait)%bool in
  let create (d : bool) : M (status_t * option nat) :=
    let* i := if d then DefaultSignal_new initial_value enable_ipc else InterruptSignal_new initial_value None in
    ret (SUCCESS, Some i) in
  if (negb use_default && negb (bool_decide (consumers = [])))%bool then
    let consumer_set : gset nat := list_to_set consumers in
    if negb (base.size consumer_set =? length consumers)%nat then ret (ERROR_INVALID_ARGUMENT, None)
    else create (forallb (fun a => negb (bool_decide (a ∈ consumer_set))) cpu_agents)
  else create use_default.

(** ** Waiting *)

Definition CONDITION_EQ : Z := 0.
Definition CONDITION_NE : Z := 1.
Definition CONDITION_LT : Z := 2.
Definition CONDITION_GTE : Z := 3.
(** The [switch]; [None] is [default]. *)
Definition condition_met (condition value compare_value : Z) : option bool :=
  if condition =? CONDITION_EQ then Some (value =? compare_value)
  else if condition =? CONDITION_NE then Some (negb (value =? compare_value))
  else if condition =? CONDITION_GTE then Some (compare_value <=? value)
  else if condition =? CONDITION_LT then Some (value <? compare_value)
  else None.

(** The head and the scope guards of a wait. *)
Definition wait_begin (i : nat) : M Z :=
  Retain i ;;;
  let* s := sig i in
  put i (set_waiting (u32 (waiting_ s + 1)) s) ;;;
  ret (waiting_ s).
Definition wait_end (i : nat) : M unit :=
  upd i (fun s => set_waiting (u32 (waiting_ s - 1)) s) ;;;
  Release i.

Example signal_example :
  let w0 := mkWorld ∅ ∅ (mkPool [] false 0 (fun _ => true)) [] 1 in
  match (let* r := CreateSignal true [7%nat] 5 [7%nat] 0 in
         let i := default 0%nat r.2 in
         let* _p := wait_begin i in
         let* v := op (OpAdd (-2)) acq_rel i in
         let* x := op OpLoad relaxed i in
         DestroySignal i ;;; wait_end i ;;; ret (r, v, x)) w0 with
  | Ret (w, (r, v, x)) => bool_decide (r.2 = Some 1%nat /\ v = None /\ x = Some 3 /\ sets w = [0%nat; 0%nat] /\ sigs w = ∅ /\ events_ (pool w) = [0%nat])
  | _ => false
  end = true.
Proof. vm_compute. reflexivity. Qed.
