(* ===== verification/SignalWait.v ===== *)
(** The waits: [WaitRelaxed] of [src/core/DefaultSignal.cpp] and [InterruptSignal.cpp], and
    [StreamPool::WaitAnySignal] of [src/core/Stream.cpp].

    The loops poll: what they see in their [n]-th round, the value included, is up to the other
    threads and the clock, so it is given as a function of [n].  Times are integers, in
    picoseconds as [fast_clock] has them; the rounding of its [double]s is not modelled. *)
From S2P Require Import Prelude Atomic Signal.
From stdpp Require Import sorting.
Local Open Scope Z_scope.

(** What round [n] of a wait reads: [IsValid], the value, the time, and the value once more for
    the answer after a timeout. *)
Record obs := mkObs { o_valid : bool; o_value : Z; o_time : Z; o_last : Z }.
(** What a round does before the next. *)
Inductive pause := Spin | Sleep (ms : Z) | WaitOnEvent (ms : Z).
Inductive wait_state_t := BLOCKED | ACTIVE.

Definition kMaxElapsed : Z := 200 * 10 ^ 6.
Definition per_ms : Z := 10 ^ 9.

(** ** One signal *)

Section wait.
Context (env : nat -> obs) (condition compare_value start_time fast_timeout : Z).

(** The head of a round: an answer, or the time that has passed. *)
Definition round (o : obs) : Z + Z :=
  if negb (o_valid o) then inl 0
  else match condition_met condition (o_value o) compare_value with
       | None => inl 0
       | Some true => inl (signal_value (o_value o))
       | Some false =>
           if fast_timeout <? o_time o - start_time then inl (signal_value (o_last o))
           else inr (o_time o - start_time)
       end.

Definition busy_pause (elapsed : Z) : pause := if kMaxElapsed <? elapsed then Sleep 20 else Spin.
(** The time left, in milliseconds, below the value that stands for no limit. *)
Definition wait_ms (elapsed : Z) : Z :=
  let ct := u64 (Z.quot (fast_timeout - elapsed) per_ms) in
  if 0xFFFFFFFE <? ct then 0xFFFFFFFE else ct.
Definition interrupt_pause (wait_hint : wait_state_t) (elapsed : Z) : pause :=
  match wait_hint with
  | ACTIVE => Spin
  | BLOCKED => if elapsed <? kMaxElapsed then Sleep 20 else WaitOnEvent (wait_ms elapsed)
  end.

(** The loop, with the pauses it makes; [None] when it goes on for longer than [fuel]. *)
Fixpoint wait_loop (pausing : Z -> pause) (fuel n : nat) : option (Z * list pause) :=
  match fuel with
  | O => None
  | S fuel =>
      match round (env n) with
      | inl r => Some (r, [])
      | inr elapsed => '(r, ps) ← wait_loop pausing fuel (S n); Some (r, pausing elapsed :: ps)
      end
  end.
Definition BusyWait_WaitRelaxed (fuel : nat) : option (Z * list pause) := wait_loop busy_pause fuel 0.
Definition Interrupt_WaitRelaxed (prior : Z) (wait_hint : wait_state_t) (fuel : nat) : option (Z * list pause) :=
  wait_loop (interrupt_pause (if negb (prior =? 0) then ACTIVE else wait_hint)) fuel 0.
End wait.

(** ** Several signals *)

(** What a round reads of one signal: [IsValid], whether its event is a fatal memory fault, and
    the value. *)
Record sobs := mkSobs { s_valid : bool; s_fatal : bool; s_value : Z }.
Definition minus_one : Z := 2 ^ 32 - 1.

(** The [for] loop of a round: what to return, and the value for [satisfying_value]. *)
Fixpoint scan_signals (i : Z) (os : list sobs) (conds : list (Z * Z)) : option (Z * option Z) :=
  match os, conds with
  | o :: os, (c, v) :: conds =>
      if negb (s_valid o) then Some (minus_one, None)
      else if s_fatal o then Some (i, None)
      else match condition_met c (s_value o) v with
           | None => Some (minus_one, None)
           | Some true => Some (i, Some (signal_value (s_value o)))
           | Some false => scan_signals (i + 1) os conds
           end
  | _, _ => None
  end.

Definition any_pause (start_time fast_timeout : Z) (wait_hint : wait_state_t) (time : Z) : pause :=
  match wait_hint with
  | ACTIVE => Spin
  | BLOCKED => if time - start_time <? kMaxElapsed then Spin
               else WaitOnEvent (wait_ms fast_timeout (time - start_time))
  end.
Fixpoint any_loop (env : nat -> list sobs * Z) (conds : list (Z * Z)) (start_time fast_timeout : Z) (wait_hint : wait_state_t)
    (fuel n : nat) : option (Z * option Z * list pause) :=
  match fuel with
  | O => None
  | S fuel =>
      let '(os, time) := env n in
      match scan_signals 0 os conds with
      | Some (r, sat) => Some (r, sat, [])
      | None =>
          if fast_timeout <? time - start_time then Some (minus_one, None, [])
          else '(r, sat, ps) ← any_loop env conds start_time fast_timeout wait_hint fuel (S n);
               Some (r, sat, any_pause start_time fast_timeout wait_hint time :: ps)
      end
  end.

(** [std::unique] of a sorted range. *)
Fixpoint unique (l : list nat) : list nat :=
  match l with
  | x :: (y :: _) as l => if decide (x = y) then unique l else x :: unique l
  | _ => l
  end.
(** The hint in force and the events to sleep on. *)
Definition any_hint (prior : Z) (events : list (option nat)) (wait_hint : wait_state_t) : wait_state_t :=
  if (negb (prior =? 0) || existsb (fun e => negb (bool_decide (is_Some e))) events)%bool then ACTIVE else wait_hint.
Definition any_events (wait_hint : wait_state_t) (events : list (option nat)) : list nat :=
  match wait_hint with ACTIVE => [] | BLOCKED => unique (merge_sort le (omap id events)) end.

(** The head and the scope guards of [WaitAnySignal]; a signal may be listed more than once. *)
Fixpoint max_prior (prior : Z) (signals : list nat) : M Z :=
  match signals with
  | [] => ret prior
  | i :: signals =>
      let* s := sig i in
      put i (set_waiting (u32 (waiting_ s + 1)) s) ;;;
      max_prior (Z.max prior (waiting_ s)) signals
  end.
Definition any_begin (signals : list nat) : M Z :=
  for_each Retain signals ;;;
  max_prior 0 signals.
Definition any_end (signals : list nat) : M unit :=
  for_each (fun i => upd i (fun s => set_waiting (u32 (waiting_ s - 1)) s)) signals ;;;
  for_each Release signals.
Definition WaitAnySignal (env : nat -> list sobs * Z) (conds : list (Z * Z)) (start_time fast_timeout : Z)
    (prior : Z) (events : list (option nat)) (wait_hint : wait_state_t) (fuel : nat) : option (Z * option Z * list pause) :=
  any_loop env conds start_time fast_timeout (any_hint prior events wait_hint) fuel 0.

Example wait_example :
  let env n := mkObs true (Z.of_nat n - 3) (Z.of_nat n * 10 ^ 8) 0 in
  Interrupt_WaitRelaxed env CONDITION_GTE 1 0 (10 ^ 10) 0 BLOCKED 10 =
    Some (1, [Sleep 20; Sleep 20; WaitOnEvent 9; WaitOnEvent 9]).
Proof. vm_compute. reflexivity. Qed.
