(* ===== verification/SignalSpec.v ===== *)
(** The life of signals: counts, handles and the map of shared signals.  In every world that the
    calls reach, each call returns, a signal is alive exactly while a handle or a wait names
    it, its counts are exact, and no event belongs to two signals. *)
From S2P Require Import Prelude Atomic Signal SignalWait.
Local Open Scope Z_scope.
Implicit Types (w : World) (i j : nat) (s : ISignal).

(** ** The invariant *)

Definition counts : Type := nat -> Z.
Definition bump (i : nat) (d : Z) (f : counts) : counts := fun j => if decide (j = i) then f j + d else f j.
Lemma bump_eq i d f : bump i d f i = f i + d.
Proof. unfold bump. by rewrite decide_True. Qed.
Lemma bump_ne i d f j : j <> i -> bump i d f j = f j.
Proof. intros. unfold bump. by rewrite decide_False. Qed.

(** The event a signal must give back. *)
Definition owned s : option nat := if free_event_ s then event_ s else None.

(** [H]: handles, [R]: retains, [W]: waits of each signal. *)
Record sig_ok w (H R W : counts) : Prop := {
  k_nonneg : forall i, 0 <= H i /\ 0 <= W i <= R i /\ H i + R i < 2 ^ 32;
  k_live : forall i, is_Some (sigs w !! i) <-> 0 < H i + R i;
  k_counts : forall i s, sigs w !! i = Some s ->
    refcount_ s = H i /\ retained_ s = H i + R i /\ waiting_ s = W i /\ (core_signal s = None \/ core_signal s = Some i) /\
    (cls s = BusyWait -> owned s = None);
  k_ipc : forall i j, ipcMap_ w !! i = Some j <-> j = i /\ exists s, sigs w !! i = Some s /\ core_signal s = None;
  k_next : (0 < next w)%nat /\ forall i, is_Some (sigs w !! i) -> (0 < i < next w)%nat;
  k_pool : NoDup (events_ (pool w)) /\ forall e, e ∈ events_ (pool w) -> (e < created (pool w))%nat;
  k_owned : forall i s e, sigs w !! i = Some s -> owned s = Some e ->
    (e < created (pool w))%nat /\ e ∉ events_ (pool w) /\ forall j s', j <> i -> sigs w !! j = Some s' -> owned s' <> Some e }.

Definition null_counts : counts := fun _ => 0.
Definition World_new (create : nat -> bool) : World := mkWorld ∅ ∅ (mkPool [] false 0 create) [] 1.
Lemma world_new_ok create : sig_ok (World_new create) null_counts null_counts null_counts.
Proof.
  constructor; unfold null_counts; simpl.
  - intros i. lia.
  - intros i. rewrite lookup_empty. split; [by intros []|lia].
  - intros i s. by rewrite lookup_empty.
  - intros i j. rewrite lookup_empty. split; [done|]. intros (_ & s & Hs & _). by rewrite lookup_empty in Hs.
  - split; [lia|]. intros i. rewrite lookup_empty. by intros [].
  - split; [apply NoDup_nil_2|]. by intros e ?%elem_of_nil.
  - intros i s e. by rewrite lookup_empty.
Qed.

(** ** Single accesses *)

Lemma upd_sig_run i f w s : sigs w !! i = Some s -> upd i f w = Ret (with_sigs (<[i := f s]> (sigs w)) w, tt).
Proof. intros Hs. unfold upd, bind, sig, put, modify. rewrite Hs. done. Qed.
Lemma sig_run i w s : sigs w !! i = Some s -> sig i w = Ret (w, s).
Proof. intros Hs. unfold sig. by rewrite Hs. Qed.
Lemma u32_small z : 0 <= z < 2 ^ 32 -> u32 z = z.
Proof. intros Hz. by apply wrap_small. Qed.
Lemma live_sig w H R W i : sig_ok w H R W -> 0 < H i + R i -> exists s, sigs w !! i = Some s.
Proof. intros Hk Hp. by apply (k_live _ _ _ _ Hk) in Hp. Qed.

(** A signal replaced by one with the same identity and event. *)
Lemma replace_ok w H R W H' R' W' i s s' :
  sig_ok w H R W -> sigs w !! i = Some s -> core_signal s' = core_signal s -> owned s' = owned s -> cls s' = cls s ->
  (forall j, j <> i -> H' j = H j /\ R' j = R j /\ W' j = W j) ->
  0 <= H' i -> 0 <= W' i <= R' i -> 0 < H' i + R' i < 2 ^ 32 ->
  refcount_ s' = H' i -> retained_ s' = H' i + R' i -> waiting_ s' = W' i ->
  sig_ok (with_sigs (<[i := s']> (sigs w)) w) H' R' W'.
Proof.
  intros [Kn Kl Kc Ki Kx Kp Ko] Hs Hco Hev Hcl Hne H1 H2 H3 E1 E2 E3.
  destruct (Kc i s Hs) as (_ & _ & _ & Hcs & Hbw).
  constructor; simpl.
  - intros j. destruct (decide (j = i)) as [->|Hj]; [lia|]. destruct (Hne j Hj) as (-> & -> & ->). apply Kn.
  - intros j. destruct (decide (j = i)) as [->|Hj].
    + rewrite lookup_insert_eq. split; [lia|by eexists].
    + rewrite lookup_insert_ne by done. destruct (Hne j Hj) as (-> & -> & _). apply Kl.
  - intros j t. destruct (decide (j = i)) as [->|Hj].
    + rewrite lookup_insert_eq. intros [= <-]. rewrite Hco, Hev, Hcl. by split_and!.
    + rewrite lookup_insert_ne by done. destruct (Hne j Hj) as (-> & -> & ->). apply Kc.
  - intros a b. rewrite Ki. apply and_iff_compat_l. destruct (decide (a = i)) as [->|Ha].
    + rewrite lookup_insert_eq, Hs. split; intros (t & [= <-] & E); eexists; (split; [done|congruence]).
    + by rewrite lookup_insert_ne.
  - destruct Kx as [? Kx]. split; [done|]. intros j Hj. apply Kx. destruct (decide (j = i)) as [->|]; [by eexists|].
    by rewrite lookup_insert_ne in Hj.
  - done.
  - assert (forall j t, <[i := s']> (sigs w) !! j = Some t -> exists t0, sigs w !! j = Some t0 /\ owned t = owned t0) as Hback.
    { intros j t. destruct (decide (j = i)) as [->|Hj].
      - rewrite lookup_insert_eq. intros [= <-]. eauto.
      - rewrite lookup_insert_ne by done. eauto. }
    intros j t e (t0 & Ht & E)%Hback Ho. rewrite E in Ho. destruct (Ko j t0 e Ht Ho) as (? & ? & Hd). split_and!; [done..|].
    intros k u Hk (u0 & Hu & Eu)%Hback. rewrite Eu. by eapply Hd.
Qed.

(** The events of the pool and the log do not matter to the rest. *)
Lemma sets_ok w H R W l : sig_ok w H R W -> sig_ok (with_sets l w) H R W.
Proof. by intros []. Qed.

Lemma Retain_ok w H R W i : sig_ok w H R W -> 0 < H i + R i -> H i + R i + 1 < 2 ^ 32 ->
  exists w', Retain i w = Ret (w', tt) /\ sig_ok w' H (bump i 1 R) W.
Proof.
  intros Hk Hp Hb. destruct (live_sig _ _ _ _ _ Hk Hp) as [s Hs]. unfold Retain. rewrite (upd_sig_run _ _ _ _ Hs).
  eexists. split; [done|]. destruct (k_counts _ _ _ _ Hk i s Hs) as (E1 & E2 & E3 & _ & _). destruct (k_nonneg _ _ _ _ Hk i) as (? & ? & ?).
  apply (replace_ok w H R W _ _ _ i s); simpl; rewrite ?bump_eq; try done; try lia.
  - intros j Hj. by rewrite bump_ne.
  - rewrite E2, u32_small; lia.
Qed.
Lemma wait_inc_ok w H R W i s : sig_ok w H R W -> sigs w !! i = Some s -> W i < R i ->
  sig_ok (with_sigs (<[i := set_waiting (u32 (waiting_ s + 1)) s]> (sigs w)) w) H R (bump i 1 W).
Proof.
  intros Hk Hs Hw. destruct (k_counts _ _ _ _ Hk i s Hs) as (E1 & E2 & E3 & _ & _). destruct (k_nonneg _ _ _ _ Hk i) as (? & ? & ?).
  assert (0 < H i + R i) by (apply (k_live _ _ _ _ Hk); by eexists).
  apply (replace_ok w H R W _ _ _ i s); simpl; rewrite ?bump_eq; try done; try lia.
  - intros j Hj. by rewrite bump_ne.
  - rewrite E3, u32_small; lia.
Qed.
Lemma wait_dec_ok w H R W i : sig_ok w H R W -> 0 < W i ->
  exists w', upd i (fun s => set_waiting (u32 (waiting_ s - 1)) s) w = Ret (w', tt) /\ sig_ok w' H R (bump i (-1) W).
Proof.
  intros Hk Hw. destruct (k_nonneg _ _ _ _ Hk i) as (? & ? & ?). destruct (live_sig w H R W i Hk) as [s Hs]; [lia|].
  rewrite (upd_sig_run _ _ _ _ Hs). eexists. split; [done|]. destruct (k_counts _ _ _ _ Hk i s Hs) as (E1 & E2 & E3 & _ & _).
  apply (replace_ok w H R W _ _ _ i s); simpl; rewrite ?bump_eq; try done; try lia.
  - intros j Hj. by rewrite bump_ne.
  - rewrite E3, u32_small; lia.
Qed.

(** ** Deletion *)

Definition give_back s : list nat := match owned s with Some e => [e] | None => [] end.
Definition removed i s w : World :=
  mkWorld (delete i (sigs w)) (ipcMap_ w)
    (mkPool (events_ (pool w) ++ give_back s) (allEventsAllocated (pool w)) (created (pool w)) (create_event (pool w))) (sets w) (next w).

Lemma doDestroySignal_run w i s : sigs w !! i = Some s -> refcount_ s = 0 -> (cls s = BusyWait -> owned s = None) ->
  doDestroySignal i w = Ret (removed i s w, tt).
Proof.
  intros Hs Hr Hb. unfold doDestroySignal. erewrite bind_ret by (by apply sig_run).
  assert ((match cls s with Interrupt => if free_event_ s then EventPool.free (event_ s) else ret tt | BusyWait => ret tt end) w =
    Ret (with_pool (mkPool (events_ (pool w) ++ give_back s) (allEventsAllocated (pool w)) (created (pool w)) (create_event (pool w))) w, tt)) as Hf.
  { unfold give_back, owned in *. destruct (cls s).
    - destruct (free_event_ s); [rewrite (Hb eq_refl)|]; rewrite app_nil_r; unfold ret; by destruct w as [? ? [] ? ?].
    - destruct (free_event_ s); [destruct (event_ s) as [e|]|]; rewrite ?app_nil_r; unfold ret; simpl; try done; by destruct w as [? ? [] ? ?]. }
  erewrite bind_ret by exact Hf. unfold ISignal_dtor. erewrite bind_ret; cycle 1.
  { erewrite bind_ret by (by apply upd_sig_run). erewrite bind_ret by (apply sig_run; simpl; apply lookup_insert_eq).
    simpl. rewrite Hr. done. }
  unfold modify, removed, with_sigs, with_pool. simpl. by rewrite delete_insert_eq.
Qed.

Lemma removed_ok w H R W H' R' W' i s :
  sig_ok w H R W -> sigs w !! i = Some s ->
  (forall j, j <> i -> H' j = H j /\ R' j = R j /\ W' j = W j) -> H' i = 0 -> R' i = 0 -> W' i = 0 ->
  sig_ok (with_ipc (delete i (ipcMap_ w)) (removed i s w)) H' R' W'.
Proof.
  intros [Kn Kl Kc Ki Kx Kp Ko] Hs Hne E1 E2 E3.
  constructor; simpl.
  - intros j. destruct (decide (j = i)) as [->|Hj]; [lia|]. destruct (Hne j Hj) as (-> & -> & ->). apply Kn.
  - intros j. destruct (decide (j = i)) as [->|Hj].
    + rewrite lookup_delete_eq. split; [by intros []|lia].
    + rewrite lookup_delete_ne by done. destruct (Hne j Hj) as (-> & -> & _). apply Kl.
  - intros j t. destruct (decide (j = i)) as [->|Hj]; [by rewrite lookup_delete_eq|].
    rewrite lookup_delete_ne by done. destruct (Hne j Hj) as (-> & -> & ->). apply Kc.
  - intros a b. destruct (decide (a = i)) as [->|Ha].
    + rewrite !lookup_delete_eq. split; [done|]. by intros (_ & t & Ht & _).
    + rewrite !lookup_delete_ne by done. apply Ki.
  - destruct Kx as [? Kx]. split; [done|]. intros j Hj. apply Kx. destruct (decide (j = i)) as [->|].
    + rewrite lookup_delete_eq in Hj. by destruct Hj.
    + by rewrite lookup_delete_ne in Hj.
  - destruct Kp as [Kp1 Kp2]. unfold give_back. destruct (owned s) as [e|] eqn:Eo; [|rewrite app_nil_r; done].
    destruct (Ko i s e Hs Eo) as (Hlt & Hnot & _). split.
    + apply NoDup_app. split_and!; [done| |apply NoDup_singleton]. intros x Hx ->%list_elem_of_singleton. done.
    + intros x [Hx|Hx]%elem_of_app; [auto|]. apply list_elem_of_singleton in Hx as ->. done.
  - intros j t e Ht Ho. destruct (decide (j = i)) as [->|Hj]; [by rewrite lookup_delete_eq in Ht|].
    rewrite lookup_delete_ne in Ht by done. destruct (Ko j t e Ht Ho) as (Hlt & Hnot & Hd). split_and!; [done| |].
    + rewrite elem_of_app. intros [?|Hg]; [done|]. unfold give_back in Hg. destruct (owned s) as [e'|] eqn:Eo; [|by apply elem_of_nil in Hg].
      apply list_elem_of_singleton in Hg as ->. by apply (Hd i s).
    + intros k u Hk Hu. destruct (decide (k = i)) as [->|]; [by rewrite lookup_delete_eq in Hu|].
      rewrite lookup_delete_ne in Hu by done. by eapply Hd.
Qed.

Lemma Release_ok w H R W i : sig_ok w H R W -> W i < R i ->
  exists w', Release i w = Ret (w', tt) /\ sig_ok w' H (bump i (-1) R) W.
Proof.
  intros Hk Hw. destruct (k_nonneg _ _ _ _ Hk i) as (? & ? & ?). destruct (live_sig w H R W i Hk) as [s Hs]; [lia|].
  destruct (k_counts _ _ _ _ Hk i s Hs) as (E1 & E2 & E3 & Ec & Eb).
  unfold Release. erewrite bind_ret by (by apply upd_sig_run). erewrite bind_ret by (apply sig_run; simpl; apply lookup_insert_eq).
  rewrite E2, u32_small by lia. set (s' := set_retained (H i + R i - 1) s).
  assert (retained_ s' = H i + R i - 1) as Hr' by done.
  destruct (Z.eqb_spec (retained_ s') 0) as [Hz|Hz]; cbn [negb]; cbv iota.
  - (* the last *)
    set (w1 := with_sigs (<[i:=s']> (sigs w)) w).
    assert (sigs w1 !! i = Some s') as Hs1 by apply lookup_insert_eq.
    assert (forall w2, sigs w2 = sigs w1 -> doDestroySignal i w2 = Ret (removed i s' w2, tt)) as Hdel.
    { intros w2 Hw2. apply doDestroySignal_run; [by rewrite Hw2|simpl; lia|done]. }
    assert (sig_ok (with_ipc (delete i (ipcMap_ w)) (removed i s w)) H (bump i (-1) R) W) as Hfin.
    { apply (removed_ok w H R W); rewrite ?bump_eq; try done; try lia. intros j Hj. by rewrite bump_ne. }
    unfold IsIPC. change (core_signal s') with (core_signal s). fold w1. destruct (core_signal s) as [c|] eqn:Ecs; cbn [negb]; cbv iota.
    + rewrite Hdel by done. eexists. split; [done|]. destruct Ec as [Ec|Ec]; [done|]. injection Ec as ->.
      assert (ipcMap_ w !! i = None) as Hno.
      { destruct (ipcMap_ w !! i) as [j|] eqn:E; [|done]. apply (k_ipc _ _ _ _ Hk) in E as (-> & t & Ht & ?). congruence. }
      revert Hfin. unfold removed, with_ipc, w1, with_sigs. simpl. rewrite delete_insert_eq, (delete_id (ipcMap_ w)) by done. exact id.
    + assert (ipcMap_ w1 !! i = Some i) as Hin by (apply (k_ipc _ _ _ _ Hk); eauto).
      erewrite bind_ret; cycle 1.
      { unfold DeRegisterIpc. erewrite bind_ret by (by apply sig_run). change (refcount_ s') with (refcount_ s). replace (refcount_ s) with 0 by lia. cbn [Z.eqb negb]. cbv iota.
        erewrite bind_ret by done. rewrite Hin. erewrite bind_ret by done. erewrite bind_ret by done. done. }
      cbv beta iota. rewrite Hdel by done. eexists. split; [done|].
      revert Hfin. unfold removed, with_ipc, w1, with_sigs. simpl. rewrite delete_insert_eq. exact id.
  - (* not the last *)
    eexists. split; [done|].
    apply (replace_ok w H R W _ _ _ i s); simpl; rewrite ?bump_eq; try done; try lia.
    + intros j Hj. by rewrite bump_ne.
Qed.

Lemma same_ok w H R W i s s' : sig_ok w H R W -> sigs w !! i = Some s ->
  core_signal s' = core_signal s -> owned s' = owned s -> cls s' = cls s ->
  refcount_ s' = refcount_ s -> retained_ s' = retained_ s -> waiting_ s' = waiting_ s ->
  sig_ok (with_sigs (<[i := s']> (sigs w)) w) H R W.
Proof.
  intros Hk Hs ? ? ? Er Et Ew. destruct (k_counts _ _ _ _ Hk i s Hs) as (E1 & E2 & E3 & _ & _). destruct (k_nonneg _ _ _ _ Hk i) as (? & ? & ?).
  assert (0 < H i + R i) by (apply (k_live _ _ _ _ Hk); by eexists).
  apply (replace_ok w H R W _ _ _ i s); try done; congruence || lia.
Qed.
Lemma op_ok w H R W i o order : sig_ok w H R W -> 0 < H i + R i ->
  exists w' r, op o order i w = Ret (w', r) /\ sig_ok w' H R W.
Proof.
  intros Hk Hp. destruct (live_sig _ _ _ _ _ Hk Hp) as [s Hs]. unfold op. erewrite bind_ret by (by apply sig_run).
  assert (exists w' r s', atomic o order i w = Ret (w', r) /\ sig_ok w' H R W /\ sigs w' !! i = Some s') as (w1 & r & s1 & Hr & Hk1 & Hs1).
  { unfold atomic. erewrite bind_ret by (by apply sig_run). destruct (run_op 64 (atomic_of o) order (value s)) as [r c].
    do 3 eexists. split; [done|]. split; [by apply (same_ok w H R W i s)|]. simpl. apply lookup_insert_eq. }
  destruct (cls s); [by exists w1, r|]. unfold Interrupt_op. erewrite bind_ret by exact Hr. destruct (is_load o); [by exists w1, r|].
  exists (if negb (waiting_ s1 =? 0) then match event_ s1 with Some e => with_sets (sets w1 ++ [e]) w1 | None => w1 end else w1), r. split.
  - erewrite bind_ret; [done|]. unfold SetEvent, InWaiting. erewrite bind_ret by (erewrite bind_ret by (by apply sig_run); done).
    destruct (negb (waiting_ s1 =? 0)); [|done]. erewrite bind_ret by (by apply sig_run). by destruct (event_ s1).
  - destruct (negb _); [|done]. destruct (event_ s1); [by apply sets_ok|done].
Qed.

Lemma DestroySignal_ok w H R W i : sig_ok w H R W -> 0 < H i ->
  exists w', DestroySignal i w = Ret (w', tt) /\ sig_ok w' (bump i (-1) H) R W.
Proof.
  intros Hk Hp. destruct (k_nonneg _ _ _ _ Hk i) as (? & ? & ?). destruct (live_sig w H R W i Hk) as [s Hs]; [lia|].
  destruct (k_counts _ _ _ _ Hk i s Hs) as (E1 & E2 & E3 & _ & _). unfold DestroySignal.
  (* a handle becomes a retain *)
  assert (sig_ok (with_sigs (<[i := set_refcount (u32 (refcount_ s - 1)) s]> (sigs w)) w) (bump i (-1) H) (bump i 1 R) W) as Hk1.
  { apply (replace_ok w H R W _ _ _ i s); simpl; rewrite ?bump_eq; try done; try lia.
    - intros j Hj. by rewrite !bump_ne.
    - rewrite E1, u32_small; lia. }
  erewrite bind_ret by (by apply upd_sig_run). erewrite bind_ret by (apply sig_run; simpl; apply lookup_insert_eq).
  assert (forall w1, sig_ok w1 (bump i (-1) H) (bump i 1 R) W -> exists w', Release i w1 = Ret (w', tt) /\ sig_ok w' (bump i (-1) H) R W) as Hrel.
  { intros w1 Hw1. destruct (Release_ok _ _ _ _ i Hw1) as (w' & Hr & Hw'); [rewrite bump_eq; lia|]. exists w'. split; [done|].
    destruct Hw' as [Kn Kl Kc Ki Kx Kp Ko].
    assert (forall j, bump i (-1) (bump i 1 R) j = R j) as Heq by (intros j; unfold bump; case_decide; lia).
    constructor; try done; intros j; [pose proof (Kn j)|pose proof (Kl j)|intros t Ht; pose proof (Kc j t Ht)]; rewrite Heq in *; done. }
  destruct (refcount_ (set_refcount (u32 (refcount_ s - 1)) s) =? 0).
  - destruct (op_ok _ _ _ _ i (OpCas 0 0) relaxed Hk1) as (w1 & r & Hr & Hk2); [rewrite !bump_eq; lia|].
    erewrite bind_ret by (erewrite bind_ret by exact Hr; done). by apply Hrel.
  - erewrite bind_ret by done. by apply Hrel.
Qed.

(** ** New handles *)

Lemma more_ok w H R W i s : sig_ok w H R W -> sigs w !! i = Some s -> H i + R i + 1 < 2 ^ 32 ->
  exists w', (upd i (fun s => set_refcount (u32 (refcount_ s + 1)) s) ;;; Retain i ;;; ret (Some i)) w = Ret (w', Some i) /\
    sig_ok w' (bump i 1 H) R W.
Proof.
  intros Hk Hs Hb. destruct (k_counts _ _ _ _ Hk i s Hs) as (E1 & E2 & E3 & _ & _). destruct (k_nonneg _ _ _ _ Hk i) as (? & ? & ?).
  assert (0 < H i + R i) by (apply (k_live _ _ _ _ Hk); by eexists).
  erewrite bind_ret by (by apply upd_sig_run). unfold Retain.
  erewrite bind_ret by (apply upd_sig_run; simpl; apply lookup_insert_eq). eexists. split; [done|].
  simpl. rewrite insert_insert_eq.
  apply (replace_ok w H R W _ _ _ i s); simpl; rewrite ?bump_eq; try done; try lia.
  - intros j Hj. by rewrite bump_ne.
  - rewrite E1, u32_small; lia.
  - rewrite E2, u32_small; lia.
Qed.
Lemma DuplicateSignalHandle_ok w H R W i : sig_ok w H R W -> 0 < H i + R i -> H i + R i + 1 < 2 ^ 32 ->
  exists w', DuplicateSignalHandle i w = Ret (w', Some i) /\ sig_ok w' (bump i 1 H) R W.
Proof.
  intros Hk Hp Hb. destruct (live_sig _ _ _ _ _ Hk Hp) as [s Hs]. unfold DuplicateSignalHandle.
  rewrite decide_False by (destruct (k_next _ _ _ _ Hk) as [_ Hn]; specialize (Hn i ltac:(by eexists)); lia).
  erewrite bind_ret by (by apply sig_run). destruct (k_counts _ _ _ _ Hk i s Hs) as (_ & _ & _ & Hc & _).
  destruct (core_signal s) as [c|] eqn:Ec.
  - destruct Hc as [Hc|Hc]; [done|]. injection Hc as ->. by apply (more_ok w H R W i s).
  - unfold duplicateIpc. erewrite bind_ret by done.
    assert (ipcMap_ w !! i = Some i) as -> by (apply (k_ipc _ _ _ _ Hk); eauto). by apply (more_ok w H R W i s).
Qed.

Lemma add_ok w H R W s sets' p' ipc' :
  sig_ok w H R W -> let i := next w in
  refcount_ s = 1 -> retained_ s = 1 -> waiting_ s = 0 -> core_signal s = None \/ core_signal s = Some i ->
  (cls s = BusyWait -> owned s = None) ->
  ipc' = (if IsIPC s then <[i := i]> (ipcMap_ w) else ipcMap_ w) ->
  NoDup (events_ p') /\ (forall e, e ∈ events_ p' -> e ∈ events_ (pool w) /\ owned s <> Some e) ->
  (created (pool w) <= created p')%nat ->
  (forall e, owned s = Some e -> (e < created p')%nat /\ (e ∈ events_ (pool w) \/ (created (pool w) <= e)%nat)) ->
  sig_ok (mkWorld (<[i := s]> (sigs w)) ipc' p' sets' (S i)) (bump i 1 H) R W.
Proof.
  intros [Kn Kl Kc Ki Kx Kp Ko] i Hr Ht Hw Hc Hb -> [Hn He] Hcr Ho.
  assert (sigs w !! i = None) as Hno.
  { destruct (sigs w !! i) eqn:E; [|done]. destruct Kx as [_ Kx]. specialize (Kx i ltac:(by eexists)). unfold i in Kx. lia. }
  assert (H i = 0 /\ R i = 0 /\ W i = 0) as (H0 & R0 & W0).
  { destruct (Kn i) as (? & ? & ?). assert (~ 0 < H i + R i) by (rewrite <- Kl, Hno; by intros []). lia. }
  constructor; simpl.
  - intros j. destruct (decide (j = i)) as [->|Hj]; [rewrite bump_eq; lia|]. rewrite bump_ne by done. apply Kn.
  - intros j. destruct (decide (j = i)) as [->|Hj].
    + rewrite lookup_insert_eq, bump_eq. split; [lia|by eexists].
    + rewrite lookup_insert_ne, bump_ne by done. apply Kl.
  - intros j t. destruct (decide (j = i)) as [->|Hj].
    + rewrite lookup_insert_eq, bump_eq. intros [= <-]. split_and!; try done; lia.
    + rewrite lookup_insert_ne, bump_ne by done. apply Kc.
  - intros a b. destruct (decide (a = i)) as [->|Ha].
    + rewrite lookup_insert_eq. unfold IsIPC. destruct (core_signal s) as [c|] eqn:Ec; simpl.
      * split; [intros Hab%Ki; destruct Hab as (_ & t & ? & _); congruence|]. intros (_ & t & [= <-] & ?). congruence.
      * rewrite lookup_insert_eq. split; [intros [= <-]; eauto|by intros (-> & _)].
    + rewrite lookup_insert_ne by done. unfold IsIPC. destruct (core_signal s); [apply Ki|]. rewrite lookup_insert_ne by done. apply Ki.
  - split; [lia|]. intros j Hj. destruct (decide (j = i)) as [->|Hne]; [unfold i; destruct Kx; lia|].
    rewrite lookup_insert_ne in Hj by done. destruct Kx as [_ Kx]. specialize (Kx j Hj). unfold i. lia.
  - split; [done|]. intros e Hin. destruct (He e Hin) as [Hin' _]. destruct Kp as [_ Kp]. specialize (Kp e Hin'). lia.
  - intros j t e Hj Hoe. destruct (decide (j = i)) as [->|Hne].
    + rewrite lookup_insert_eq in Hj. injection Hj as <-. destruct (Ho e Hoe) as [Hlt Hwhere]. split_and!; [done| |].
      * intros [_ Hx]%He. by apply Hx.
      * intros k u Hk Hu Hou. rewrite lookup_insert_ne in Hu by done. destruct (Ko k u e Hu Hou) as (? & Hnot & _).
        destruct Hwhere; [done|lia].
    + rewrite lookup_insert_ne in Hj by done. destruct (Ko j t e Hj Hoe) as (Hlt & Hnot & Hd). split_and!; [lia| |].
      * intros [Hx _]%He. done.
      * intros k u Hk Hu. destruct (decide (k = i)) as [->|Hki].
        -- rewrite lookup_insert_eq in Hu. injection Hu as <-. intros Hos. destruct (Ho e Hos) as [_ [?|?]]; [done|lia].
        -- rewrite lookup_insert_ne in Hu by done. by eapply Hd.
Qed.

Lemma alloc_run w : NoDup (events_ (pool w)) -> exists p' e, EventPool.alloc w = Ret (with_pool p' w, e) /\
  NoDup (events_ p') /\ (created (pool w) <= created p')%nat /\
  (forall x, x ∈ events_ p' -> x ∈ events_ (pool w) /\ e <> Some x) /\
  ((forall x, x ∈ events_ (pool w) -> (x < created (pool w))%nat) ->
   forall x, e = Some x -> (x < created p')%nat /\ (x ∈ events_ (pool w) \/ (created (pool w) <= x)%nat)).
Proof.
  intros Hn. unfold EventPool.alloc. erewrite bind_ret by done. destruct (last (events_ (pool w))) as [x|] eqn:El.
  - apply last_Some in El as [l Hl]. erewrite bind_ret by done. eexists _, _. split; [done|]. rewrite Hl in *.
    rewrite removelast_last. apply NoDup_app in Hn as (Hn & Hd & _). split_and!; [done|done| |].
    + intros y Hy. split; [set_solver|]. intros [= ->]. apply (Hd y Hy). set_solver.
    + intros Hlt y [= <-]. simpl. split; [apply Hlt|left]; set_solver.
  - destruct (allEventsAllocated (pool w)); cbn [negb].
    + exists (pool w), None. split_and!; try done. by destruct w.
    + unfold EventPool.CreateEvent, bind. simpl. destruct (create_event (pool w) (created (pool w))) eqn:Ec; simpl.
      * eexists _, _. split; [done|]. simpl. split_and!; try done; try lia.
        -- intros y Hy. split; [done|]. apply last_None in El. rewrite El in Hy. by apply elem_of_nil in Hy.
        -- intros _ y [= <-]. lia.
      * eexists _, _. split; [done|]. simpl. split_and!; try done; lia.
Qed.

Lemma fresh_ipc w H R W : sig_ok w H R W -> ipcMap_ w !! next w = None.
Proof.
  intros Hk. destruct (ipcMap_ w !! next w) as [j|] eqn:E; [|done]. apply (k_ipc _ _ _ _ Hk) in E as (_ & s & Hs & _).
  destruct (k_next _ _ _ _ Hk) as [_ Hn]. specialize (Hn _ ltac:(by eexists)). lia.
Qed.
Lemma fresh_zero w H R W : sig_ok w H R W -> H (next w) = 0.
Proof.
  intros Hk. destruct (k_nonneg _ _ _ _ Hk (next w)) as (? & ? & ?). destruct (k_next _ _ _ _ Hk) as [_ Hn].
  assert (~ 0 < H (next w) + R (next w)); [|lia]. rewrite <- (k_live _ _ _ _ Hk). intros Hs%Hn. lia.
Qed.
Lemma DefaultSignal_new_ok w H R W v ipc : sig_ok w H R W ->
  exists w', DefaultSignal_new v ipc w = Ret (w', next w) /\ sig_ok w' (bump (next w) 1 H) R W.
Proof.
  intros Hk. pose proof (fresh_ipc _ _ _ _ Hk) as Hf. destruct (k_pool _ _ _ _ Hk) as [Hp1 Hp2].
  set (s := mkSignal BusyWait (mkCell (wrap 64 v) []) SIGNAL_KIND_USER (if ipc then None else Some (next w)) 0 1 1 None false).
  exists (mkWorld (<[next w := s]> (sigs w)) (if IsIPC s then <[next w := next w]> (ipcMap_ w) else ipcMap_ w) (pool w) (sets w) (S (next w))). split.
  - unfold DefaultSignal_new, ISignal_new, upd, RegisterIpc, put, sig, modify, gets, ensure, bind, ret. simpl.
    destruct ipc; simpl; rewrite ?Hf; simpl; rewrite lookup_insert_eq; simpl; unfold with_sigs, with_ipc; simpl; by rewrite insert_insert_eq.
  - apply (add_ok w H R W); try done. by destruct ipc; [left|right].
Qed.
Lemma InterruptSignal_new_ok w H R W v : sig_ok w H R W ->
  exists w', InterruptSignal_new v None w = Ret (w', next w) /\ sig_ok w' (bump (next w) 1 H) R W.
Proof.
  intros Hk. destruct (k_pool _ _ _ _ Hk) as [Hp1 Hp2].
  set (s0 := mkSignal Interrupt (mkCell (wrap 64 v) []) SIGNAL_KIND_INVALID (Some (next w)) 0 1 1 None false).
  set (w1 := mkWorld (<[next w := s0]> (sigs w)) (ipcMap_ w) (pool w) (sets w) (S (next w))).
  destruct (alloc_run w1 Hp1) as (p' & e & Ha & Hn & Hc & He & Ho).
  set (s := mkSignal Interrupt (mkCell (wrap 64 v) []) SIGNAL_KIND_USER (Some (next w)) 0 1 1 e true).
  exists (mkWorld (<[next w := s]> (sigs w)) (ipcMap_ w) p' (sets w) (S (next w))). split.
  - unfold InterruptSignal_new. erewrite bind_ret; cycle 1.
    { unfold ISignal_new. erewrite bind_ret by done. erewrite bind_ret by done. done. }
    cbv beta. erewrite bind_ret by (erewrite bind_ret by exact Ha; done). cbv beta.
    erewrite bind_ret by (apply upd_sig_run; simpl; apply lookup_insert_eq). unfold ret, with_sigs. simpl. by rewrite insert_insert_eq.
  - apply (add_ok w H R W); try done.
    + by right.
    + intros x Hx. by apply Ho.
Qed.
Lemma CreateSignal_ok w H R W uiw cpus v cons attrs : sig_ok w H R W ->
  (CreateSignal uiw cpus v cons attrs w = Ret (w, (ERROR_INVALID_ARGUMENT, None))) \/
  (exists w', CreateSignal uiw cpus v cons attrs w = Ret (w', (SUCCESS, Some (next w))) /\ sig_ok w' (bump (next w) 1 H) R W).
Proof.
  intros Hk.
  assert (forall (d : bool), exists w', (let* i := if d then DefaultSignal_new v (flag attrs SIGNAL_IPC) else InterruptSignal_new v None in
     ret (SUCCESS, Some i)) w = Ret (w', (SUCCESS, Some (next w))) /\ sig_ok w' (bump (next w) 1 H) R W) as Hcr.
  { intros [].
    - destruct (DefaultSignal_new_ok w H R W v (flag attrs SIGNAL_IPC) Hk) as (w' & Hr & ?). exists w'. by erewrite bind_ret by exact Hr.
    - destruct (InterruptSignal_new_ok w H R W v Hk) as (w' & Hr & ?). exists w'. by erewrite bind_ret by exact Hr. }
  unfold CreateSignal. destruct (_ && _)%bool; [|by right]. destruct (negb _); [by left|by right].
Qed.

(** ** Waits on lists of signals *)

Definition cnt (j : nat) (l : list nat) : Z := Z.of_nat (count (fun i => bool_decide (i = j)) l).
Definition plus (f : counts) (l : list nat) : counts := fun j => f j + cnt j l.
Definition minus (f : counts) (l : list nat) : counts := fun j => f j - cnt j l.

Lemma cnt_cons j i l : cnt j (i :: l) = (if decide (j = i) then 1 else 0) + cnt j l.
Proof. unfold cnt. rewrite count_cons. case_decide; [subst; rewrite bool_decide_true by done; lia|rewrite bool_decide_false by done; lia]. Qed.
Lemma cnt_nil j : cnt j [] = 0.
Proof. done. Qed.
Lemma cnt_nonneg j l : 0 <= cnt j l.
Proof. unfold cnt. lia. Qed.
Lemma cnt_in i l : i ∈ l -> 1 <= cnt i l.
Proof. intros Hi. apply list_elem_of_split in Hi as (l1 & l2 & ->). unfold cnt. rewrite count_app, count_cons, bool_decide_true by done. lia. Qed.
Lemma sig_ok_ext w H R W H' R' W' : sig_ok w H R W -> (forall j, H' j = H j) -> (forall j, R' j = R j) -> (forall j, W' j = W j) -> sig_ok w H' R' W'.
Proof.
  intros [Kn Kl Kc Ki Kx Kp Ko] EH ER EW. constructor; try done.
  - intros j. rewrite EH, ER, EW. apply Kn.
  - intros j. rewrite EH, ER. apply Kl.
  - intros j t Ht. rewrite EH, ER, EW. by apply Kc.
Qed.

Lemma retains_ok l w H R W : sig_ok w H R W -> (forall i, i ∈ l -> 0 < H i + R i) -> (forall i, H i + R i + cnt i l < 2 ^ 32) ->
  exists w', for_each Retain l w = Ret (w', tt) /\ sig_ok w' H (plus R l) W.
Proof.
  revert w R. induction l as [|i l IH]; intros w R Hk Hl Hb; simpl.
  - exists w. split; [done|]. apply (sig_ok_ext _ _ _ _ _ _ _ Hk); try done. intros j. unfold plus. rewrite cnt_nil. lia.
  - destruct (Retain_ok w H R W i Hk) as (w1 & Hr & Hk1); [apply Hl; by left| |].
    { specialize (Hb i). rewrite cnt_cons, decide_True in Hb by done. pose proof (cnt_nonneg i l). lia. }
    erewrite bind_ret by exact Hr. destruct (IH w1 _ Hk1) as (w2 & Hr2 & Hk2).
    + intros j Hj. specialize (Hl j ltac:(by right)). unfold bump. case_decide; lia.
    + intros j. specialize (Hb j). rewrite cnt_cons in Hb. unfold bump. case_decide; lia.
    + exists w2. split; [done|]. apply (sig_ok_ext _ _ _ _ _ _ _ Hk2); try done.
      intros j. unfold plus. rewrite cnt_cons. unfold bump. case_decide; lia.
Qed.
Lemma max_prior_ok l w H R W p : sig_ok w H R W -> (forall i, i ∈ l -> W i + cnt i l <= R i) ->
  exists w' p', max_prior p l w = Ret (w', p') /\ sig_ok w' H R (plus W l).
Proof.
  revert w W p. induction l as [|i l IH]; intros w W p Hk Hl; simpl.
  - exists w, p. split; [done|]. apply (sig_ok_ext _ _ _ _ _ _ _ Hk); try done. intros j. unfold plus. rewrite cnt_nil. lia.
  - pose proof (Hl i ltac:(by left)) as Hi. rewrite cnt_cons, decide_True in Hi by done. pose proof (cnt_nonneg i l).
    destruct (k_nonneg _ _ _ _ Hk i) as (? & ? & ?). destruct (live_sig w H R W i Hk) as [s Hs]; [lia|].
    erewrite bind_ret by (by apply sig_run). erewrite bind_ret by done.
    pose proof (wait_inc_ok w H R W i s Hk Hs ltac:(lia)) as Hk1.
    destruct (IH _ _ (Z.max p (waiting_ s)) Hk1) as (w2 & p2 & Hr2 & Hk2).
    + intros j Hj. specialize (Hl j ltac:(by right)). rewrite cnt_cons in Hl. unfold bump. case_decide; lia.
    + exists w2, p2. split; [exact Hr2|]. apply (sig_ok_ext _ _ _ _ _ _ _ Hk2); try done.
      intros j. unfold plus. rewrite cnt_cons. unfold bump. case_decide; lia.
Qed.
Lemma decs_ok l w H R W : sig_ok w H R W -> (forall i, cnt i l <= W i) ->
  exists w', for_each (fun i => upd i (fun s => set_waiting (u32 (waiting_ s - 1)) s)) l w = Ret (w', tt) /\ sig_ok w' H R (minus W l).
Proof.
  revert w W. induction l as [|i l IH]; intros w W Hk Hl; simpl.
  - exists w. split; [done|]. apply (sig_ok_ext _ _ _ _ _ _ _ Hk); try done. intros j. unfold minus. rewrite cnt_nil. lia.
  - pose proof (Hl i) as Hi. rewrite cnt_cons, decide_True in Hi by done. pose proof (cnt_nonneg i l).
    destruct (wait_dec_ok w H R W i Hk) as (w1 & Hr & Hk1); [lia|].
    erewrite bind_ret by exact Hr. destruct (IH w1 _ Hk1) as (w2 & Hr2 & Hk2).
    + intros j. specialize (Hl j). rewrite cnt_cons in Hl. unfold bump. case_decide; lia.
    + exists w2. split; [done|]. apply (sig_ok_ext _ _ _ _ _ _ _ Hk2); try done.
      intros j. unfold minus. rewrite cnt_cons. unfold bump. case_decide; lia.
Qed.
Lemma releases_ok l w H R W : sig_ok w H R W -> (forall i, W i + cnt i l <= R i) ->
  exists w', for_each Release l w = Ret (w', tt) /\ sig_ok w' H (minus R l) W.
Proof.
  revert w R. induction l as [|i l IH]; intros w R Hk Hl; simpl.
  - exists w. split; [done|]. apply (sig_ok_ext _ _ _ _ _ _ _ Hk); try done. intros j. unfold minus. rewrite cnt_nil. lia.
  - pose proof (Hl i) as Hi. rewrite cnt_cons, decide_True in Hi by done. pose proof (cnt_nonneg i l).
    destruct (Release_ok w H R W i Hk) as (w1 & Hr & Hk1); [lia|].
    erewrite bind_ret by exact Hr. destruct (IH w1 _ Hk1) as (w2 & Hr2 & Hk2).
    + intros j. specialize (Hl j). rewrite cnt_cons in Hl. unfold bump. case_decide; lia.
    + exists w2. split; [done|]. apply (sig_ok_ext _ _ _ _ _ _ _ Hk2); try done.
      intros j. unfold minus. rewrite cnt_cons. unfold bump. case_decide; lia.
Qed.

(** ** The clients *)

(** What threads do with signals, each call a step: a handle is used only while it is held or
    while a wait keeps its signal, and a wait ends only if it began. *)
Inductive label :=
| LCreate (use_interrupt_wait : bool) (cpus : list nat) (v : Z) (consumers : list nat) (attributes : Z)
| LDup (i : nat) | LDestroy (i : nat) | LOp (o : sig_op) (order : memory_order) (i : nat)
| LBegin (l : list nat) | LEnd (l : list nat).

(** The world, the handles the clients hold and the waits under way. *)
Record Clients := mkClients { world : World; handles : counts; waits : counts }.

(** [P]: retains that are not waits. *)
Definition enabled_with (P : counts) (c : Clients) (lb : label) : Prop :=
  let H := handles c in let W := waits c in
  match lb with
  | LCreate _ _ _ _ _ => True
  | LDup i => 0 < H i + W i /\ H i + W i + P i + 1 < 2 ^ 32
  | LDestroy i => 0 < H i
  | LOp _ _ i => 0 < H i + W i
  | LBegin l => (forall i, i ∈ l -> 0 < H i) /\ forall i, H i + W i + P i + cnt i l < 2 ^ 32
  | LEnd l => forall i, cnt i l <= W i
  end.
Definition enabled : Clients -> label -> Prop := enabled_with null_counts.
Definition exec (lb : label) (c : Clients) : res Clients :=
  let H := handles c in let W := waits c in
  match lb with
  | LCreate u cpus v cs attrs =>
      '(w, r) ← CreateSignal u cpus v cs attrs (world c);
      Ret (mkClients w (match r.2 with Some i => bump i 1 H | None => H end) W)
  | LDup i => '(w, r) ← DuplicateSignalHandle i (world c); Ret (mkClients w (match r with Some i => bump i 1 H | None => H end) W)
  | LDestroy i => '(w, _) ← DestroySignal i (world c); Ret (mkClients w (bump i (-1) H) W)
  | LOp o order i => '(w, _) ← op o order i (world c); Ret (mkClients w H W)
  | LBegin l => '(w, _) ← any_begin l (world c); Ret (mkClients w H (plus W l))
  | LEnd l => '(w, _) ← any_end l (world c); Ret (mkClients w H (minus W l))
  end.
Inductive clients_reach (create : nat -> bool) : Clients -> Prop :=
| reach_start : clients_reach create (mkClients (World_new create) null_counts null_counts)
| reach_step c lb c' : clients_reach create c -> enabled c lb -> exec lb c = Ret c' -> clients_reach create c'.

Definition clients_ok (c : Clients) : Prop := sig_ok (world c) (handles c) (waits c) (waits c).
Lemma exec_retained (P : counts) c lb :
  sig_ok (world c) (handles c) (fun i => waits c i + P i) (waits c) -> (forall i, 0 <= P i) -> enabled_with P c lb ->
  exists c', exec lb c = Ret c' /\ sig_ok (world c') (handles c') (fun i => waits c' i + P i) (waits c').
Proof.
  intros Hk HP He. destruct c as [w H W]. simpl in *. destruct lb as [u cpus v cs attrs|i|i|o order i|l|l]; simpl in *.
  - destruct (CreateSignal_ok _ _ _ _ u cpus v cs attrs Hk) as [Hr|(w' & Hr & Hk')]; rewrite Hr; simpl; eexists; (split; [done|done]).
  - destruct He, (k_nonneg _ _ _ _ Hk i). destruct (DuplicateSignalHandle_ok _ _ _ _ i Hk) as (w' & Hr & Hk'); [specialize (HP i); lia|lia|].
    rewrite Hr. simpl. eexists. split; done.
  - destruct (DestroySignal_ok _ _ _ _ i Hk He) as (w' & Hr & Hk'). rewrite Hr. simpl. eexists. split; done.
  - destruct (op_ok _ _ _ _ i o order Hk) as (w' & r & Hr & Hk'); [specialize (HP i); lia|]. rewrite Hr. simpl. eexists. split; done.
  - destruct He as [Hl Hb]. destruct (retains_ok l _ _ _ _ Hk) as (w1 & Hr1 & Hk1).
    { intros i Hi. specialize (Hl i Hi). destruct (k_nonneg _ _ _ _ Hk i). lia. }
    { intros i. specialize (Hb i). lia. }
    destruct (max_prior_ok l w1 H _ W 0 Hk1) as (w2 & p & Hr2 & Hk2); [unfold plus; intros i; specialize (HP i); lia|].
    unfold any_begin. erewrite bind_ret by exact Hr1. rewrite Hr2. simpl. eexists. split; [done|].
    apply (sig_ok_ext _ _ _ _ _ _ _ Hk2); [done|simpl; unfold plus; lia|done].
  - destruct (decs_ok l _ _ _ _ Hk He) as (w1 & Hr1 & Hk1).
    destruct (releases_ok l w1 H _ _ Hk1) as (w2 & Hr2 & Hk2); [unfold minus; intros i; specialize (HP i); lia|].
    unfold any_end. erewrite bind_ret by exact Hr1. rewrite Hr2. simpl. eexists. split; [done|].
    apply (sig_ok_ext _ _ _ _ _ _ _ Hk2); [done|simpl; unfold minus; lia|done].
Qed.
Lemma clients_ok_retained c : clients_ok c <-> sig_ok (world c) (handles c) (fun i => waits c i + null_counts i) (waits c).
Proof. split; intros Hk; apply (sig_ok_ext _ _ _ _ _ _ _ Hk); try done; unfold null_counts; lia. Qed.
Lemma exec_ok c lb : clients_ok c -> enabled c lb -> exists c', exec lb c = Ret c' /\ clients_ok c'.
Proof.
  intros Hk%clients_ok_retained He. destruct (exec_retained null_counts c lb Hk) as (c' & Hx & Hk'); [done|done|].
  exists c'. split; [done|by apply clients_ok_retained].
Qed.
Lemma clients_reach_ok create c : clients_reach create c -> clients_ok c.
Proof.
  intros Hr. induction Hr as [|c lb c' _ IH He Hx]; [apply world_new_ok|].
  destruct (exec_ok c lb IH He) as (c1 & Hx1 & Hk). congruence.
Qed.

(** C5: whatever clients do with signals they hold or wait on, every call returns (no assertion
    fails, no deleted signal is used), a signal is alive exactly while a handle or a wait names
    it, its three counts are exact, and the shared signals alive are exactly those in the map. *)
Theorem signals_live create c lb :
  clients_reach create c -> enabled c lb ->
  (exists c', exec lb c = Ret c') /\
  (forall i, is_Some (sigs (world c) !! i) <-> 0 < handles c i + waits c i) /\
  (forall i s, sigs (world c) !! i = Some s ->
     refcount_ s = handles c i /\ waiting_ s = waits c i /\ retained_ s = handles c i + waits c i /\
     (IsIPC s = true <-> ipcMap_ (world c) !! i = Some i)).
Proof.
  intros Hr%clients_reach_ok He. destruct (exec_ok c lb Hr He) as (c' & Hx & _). destruct Hr as [Kn Kl Kc Ki _ _ _].
  split_and!; [by exists c'|exact Kl|]. intros i s Hs. destruct (Kc i s Hs) as (-> & -> & -> & _). split_and!; [done..|].
  rewrite Ki. unfold IsIPC. destruct (core_signal s) eqn:E; split; try done.
  - intros (_ & t & Ht & Hn). congruence.
  - eauto.
Qed.

(** No event belongs to two signals, nor to a signal and the free list of the pool. *)
Theorem events_unshared create c i j s s' e :
  clients_reach create c -> i <> j -> sigs (world c) !! i = Some s -> sigs (world c) !! j = Some s' ->
  owned s = Some e -> owned s' <> Some e /\ e ∉ events_ (pool (world c)) /\ NoDup (events_ (pool (world c))).
Proof.
  intros Hr%clients_reach_ok Hij Hs Hs' He. destruct (k_owned _ _ _ _ Hr i s e Hs He) as (_ & Hn & Hd).
  destruct (k_pool _ _ _ _ Hr). split_and!; [by eapply Hd|done|done].
Qed.

(** ** Witnesses *)

Definition ex_create : label := LCreate true [7%nat] 5 [] 0.
Definition ex_one : Clients := match exec ex_create (mkClients (World_new (fun _ => true)) null_counts null_counts) with Ret c => c | _ => mkClients (World_new (fun _ => true)) null_counts null_counts end.
Definition ex_two : Clients := match exec ex_create ex_one with Ret c => c | _ => ex_one end.
Lemma ex_one_reach : clients_reach (fun _ => true) ex_one.
Proof. eapply (reach_step _ _ ex_create); [apply reach_start|done|reflexivity]. Qed.
Lemma ex_two_reach : clients_reach (fun _ => true) ex_two.
Proof. eapply (reach_step _ _ ex_create); [apply ex_one_reach|done|reflexivity]. Qed.

Lemma signals_live_witness : exists c', exec (LDestroy 2) ex_two = Ret c'.
Proof. destruct (signals_live (fun _ => true) ex_two (LDestroy 2) ex_two_reach eq_refl) as [Hx _]. exact Hx. Defined.
Lemma events_unshared_witness : exists s s', sigs (world ex_two) !! 1%nat = Some s /\ owned s = Some 0%nat /\
  sigs (world ex_two) !! 2%nat = Some s' /\ owned s' <> Some 0%nat.
Proof.
  do 2 eexists. split; [reflexivity|]. split; [reflexivity|]. split; [reflexivity|].
  refine (proj1 (events_unshared (fun _ => true) ex_two 1 2 _ _ 0 ex_two_reach _ _ _ _)); [done|reflexivity|reflexivity|reflexivity].
Defined.

(** ** The operations against a reference *)

(** What an operation answers for the value it finds, and the value it leaves. *)
Definition answer (o : sig_op) (x : Z) : option Z := if returns o then Some (signal_value x) else None.
Definition left_by (o : sig_op) (x : Z) : Z := op_new 64 (atomic_of o) x.
Fixpoint answers (l : list (sig_op * memory_order)) (x : Z) : list (option Z) :=
  match l with [] => [] | o :: l => answer o.1 x :: answers l (left_by o.1 x) end.
Definition final (l : list (sig_op * memory_order)) (x : Z) : Z := fold_left (fun x o => left_by o.1 x) l x.
(** The events that a signal with waiters sets. *)
Definition signalled s (l : list (sig_op * memory_order)) : list nat :=
  match cls s, event_ s with
  | Interrupt, Some e => if waiting_ s =? 0 then [] else map (fun _ => e) (filter (fun o => is_load o.1 = false) l)
  | _, _ => []
  end.
Fixpoint run_ops (i : nat) (l : list (sig_op * memory_order)) : M (list (option Z)) :=
  match l with
  | [] => ret []
  | o :: l => let* r := op o.1 o.2 i in let* rs := run_ops i l in ret (r :: rs)
  end.

Lemma run_op_answer o order c :
  (if returns o then signal_value <$> (run_op 64 (atomic_of o) order c).1 else None) = answer o (val c).
Proof. by destruct o. Qed.
Lemma signalled_one s o order : cls s = Interrupt ->
  signalled s [(o, order)] = match event_ s with Some e => if (is_load o || (waiting_ s =? 0))%bool then [] else [e] | None => [] end.
Proof. intros Hc. unfold signalled. rewrite Hc. destruct (event_ s); [|done]. destruct (waiting_ s =? 0), o; done. Qed.
Lemma op_run w i s o order : sigs w !! i = Some s ->
  let c := (run_op 64 (atomic_of o) order (value s)).2 in
  op o order i w = Ret (with_sets (sets w ++ signalled s [(o, order)]) (with_sigs (<[i := set_value c s]> (sigs w)) w), answer o (val (value s))).
Proof.
  intros Hs c. unfold op. rewrite (bind_ret _ _ _ _ _ (sig_run i w s Hs)).
  assert (atomic o order i w = Ret (with_sigs (<[i := set_value c s]> (sigs w)) w, answer o (val (value s)))) as Ha.
  { unfold atomic. rewrite (bind_ret _ _ _ _ _ (sig_run i w s Hs)). rewrite <- (run_op_answer o order). subst c.
    by destruct (run_op 64 (atomic_of o) order (value s)) as [r c]. }
  assert (with_sets (sets w ++ []) (with_sigs (<[i := set_value c s]> (sigs w)) w) = with_sigs (<[i := set_value c s]> (sigs w)) w) as Hnil
    by (unfold with_sets, with_sigs; simpl; by rewrite app_nil_r).
  destruct (cls s) eqn:Hcls; [unfold signalled; rewrite Hcls; by rewrite Hnil|]. rewrite (signalled_one s o order Hcls).
  unfold Interrupt_op. rewrite (bind_ret _ _ _ _ _ Ha). destruct (is_load o); cbn [orb]; [destruct (event_ s); by rewrite Hnil|].
  unfold SetEvent, InWaiting, bind, sig. cbn [sigs with_sigs]. rewrite lookup_insert_eq.
  cbn [deref mbind res_bind set_value waiting_ event_ ret]. destruct (waiting_ s =? 0); cbn [negb]; [destruct (event_ s); by rewrite Hnil|].
  unfold sig. cbn [sigs with_sigs]. rewrite lookup_insert_eq. cbn [deref mbind res_bind event_ set_value].
  destruct (event_ s); [done|by rewrite Hnil].
Qed.

