(* ===== verification/SignalWaitSpec.v ===== *)
(** What the waits promise: the answer is that of the first round that has one, a wait ends when
    the clock passes its timeout, and the time slept on an event is within what is left. *)
From S2P Require Import Prelude Atomic Signal SignalWait.
From stdpp Require Import sorting.
Local Open Scope Z_scope.

(** ** One signal *)

Section wait.
Context (env : nat -> obs) (condition compare_value start_time fast_timeout : Z) (pausing : Z -> pause).
Abbreviation loop := (wait_loop env condition compare_value start_time fast_timeout pausing).
Abbreviation round := (round condition compare_value start_time fast_timeout).

(** A round that goes on. *)
Definition unmet (o : obs) : Prop :=
  o_valid o = true /\ condition_met condition (o_value o) compare_value = Some false /\ o_time o - start_time <= fast_timeout.
(** A round that answers [r]. *)
Definition answers (o : obs) (r : Z) : Prop :=
  (o_valid o = true /\ condition_met condition (o_value o) compare_value = Some true /\ r = signal_value (o_value o)) \/
  (o_valid o = true /\ condition_met condition (o_value o) compare_value = Some false /\
     fast_timeout < o_time o - start_time /\ r = signal_value (o_last o)) \/
  (r = 0 /\ (o_valid o = false \/ condition_met condition (o_value o) compare_value = None)).

Lemma round_spec o : match round o with inl r => answers o r | inr e => unmet o /\ e = o_time o - start_time end.
Proof.
  unfold SignalWait.round, unmet, answers. destruct (o_valid o); simpl; [|tauto].
  destruct (condition_met _ _ _) as [[]|]; [tauto| |tauto]. destruct (Z.ltb_spec fast_timeout (o_time o - start_time)); [tauto|].
  split_and!; done || lia.
Qed.
Lemma loop_answers fuel n r ps : loop fuel n = Some (r, ps) ->
  (forall j, (j < length ps)%nat -> unmet (env (n + j)) /\ ps !! j = Some (pausing (o_time (env (n + j)%nat) - start_time))) /\
  answers (env (n + length ps)) r.
Proof.
  revert n ps. induction fuel as [|fuel IH]; intros n ps; simpl; [done|].
  pose proof (round_spec (env n)) as Hr. destruct (round (env n)) as [r'|e].
  - intros [= -> <-]. simpl. rewrite Nat.add_0_r. split; [intros j; lia|done].
  - destruct (loop fuel (S n)) as [[r1 ps1]|] eqn:El; simpl; [|done]. intros [= -> <-].
    destruct (IH _ _ El) as [H1 H2]. destruct Hr as [Hu ->]. split.
    + intros [|j] Hj; [by rewrite Nat.add_0_r|]. simpl in Hj. replace (n + S j)%nat with (S n + j)%nat by lia.
      apply (H1 j). lia.
    + simpl. by replace (n + S (length ps1))%nat with (S n + length ps1)%nat by lia.
Qed.
Lemma loop_ends k n : fast_timeout < o_time (env (n + k)) - start_time -> exists r ps, loop (S k) n = Some (r, ps) /\ (length ps <= k)%nat.
Proof.
  revert n. induction k as [|k IH]; intros n Ht.
  - rewrite Nat.add_0_r in Ht. simpl. pose proof (round_spec (env n)) as Hr. destruct (round (env n)) as [r|e]; [exists r, []; split; [done|simpl; lia]|].
    destruct Hr as [(_ & _ & ?) _]. lia.
  - change (loop (S (S k)) n) with (match round (env n) with inl r => Some (r, []) | inr e => '(r, ps) ← loop (S k) (S n); Some (r, pausing e :: ps) end).
    destruct (round (env n)) as [r|e]; [exists r, []; split; [done|simpl; lia]|].
    destruct (IH (S n)) as (r & ps & -> & Hl); [by replace (S n + k)%nat with (n + S k)%nat by lia|].
    simpl. eexists _, _. split; [done|]. simpl. lia.
Qed.
End wait.

(** A wait answers at the first round in which the signal is gone, the condition holds (as
    the 64 bit value has it) or the time is up; the answer is the value of that round. *)
Theorem wait_answers env condition compare_value start_time fast_timeout prior wait_hint fuel r ps :
  Interrupt_WaitRelaxed env condition compare_value start_time fast_timeout prior wait_hint fuel = Some (r, ps) \/
  BusyWait_WaitRelaxed env condition compare_value start_time fast_timeout fuel = Some (r, ps) ->
  (forall j, (j < length ps)%nat -> unmet condition compare_value start_time fast_timeout (env j)) /\
  answers condition compare_value start_time fast_timeout (env (length ps)) r.
Proof. intros [Hl|Hl]; apply loop_answers in Hl as [Hu Ha]; (split; [|exact Ha]); intros j Hj; by apply (Hu j). Qed.

(** C26: a wait ends: when the clock has passed the timeout in round [k], it has answered by then. *)
Theorem wait_returns env condition compare_value start_time fast_timeout prior wait_hint k :
  fast_timeout < o_time (env k) - start_time ->
  (exists r ps, Interrupt_WaitRelaxed env condition compare_value start_time fast_timeout prior wait_hint (S k) = Some (r, ps) /\ (length ps <= k)%nat) /\
  exists r ps, BusyWait_WaitRelaxed env condition compare_value start_time fast_timeout (S k) = Some (r, ps) /\ (length ps <= k)%nat.
Proof. intros Ht. split; by apply (loop_ends _ _ _ _ _ _ k 0). Qed.

Lemma wait_ms_bounds fast_timeout elapsed : 0 <= elapsed <= fast_timeout -> fast_timeout < 2 ^ 64 * per_ms ->
  0 <= wait_ms fast_timeout elapsed <= 0xFFFFFFFE /\ wait_ms fast_timeout elapsed * per_ms <= fast_timeout - elapsed.
Proof.
  intros He Ht. unfold wait_ms. rewrite Z.quot_div_nonneg by (unfold per_ms; lia).
  assert (0 <= (fast_timeout - elapsed) / per_ms < 2 ^ 64) as Hq.
  { split; [apply Z.div_pos; unfold per_ms; lia|]. apply Z.div_lt_upper_bound; unfold per_ms in *; lia. }
  unfold u64. rewrite wrap_small by exact Hq.
  pose proof (Z.mul_div_le (fast_timeout - elapsed) per_ms ltac:(unfold per_ms; lia)).
  destruct (Z.ltb_spec 0xFFFFFFFE ((fast_timeout - elapsed) / per_ms)); unfold per_ms in *; lia.
Qed.

(** A wait sleeps on its event only as the first waiter, if it may block, after 200
    microseconds of polling, and for no longer than what is left of its timeout; the sleep is
    never the unlimited one. *)
Theorem wait_sleeps_within env condition compare_value start_time fast_timeout prior wait_hint fuel r ps j ms :
  Interrupt_WaitRelaxed env condition compare_value start_time fast_timeout prior wait_hint fuel = Some (r, ps) ->
  fast_timeout < 2 ^ 64 * per_ms -> ps !! j = Some (WaitOnEvent ms) ->
  prior = 0 /\ wait_hint = BLOCKED /\ kMaxElapsed <= o_time (env j) - start_time /\
  0 <= ms < 0xFFFFFFFF /\ o_time (env j) - start_time + ms * per_ms <= fast_timeout.
Proof.
  intros Hl Hb Hj. apply loop_answers in Hl as [Hu _].
  destruct (Hu j) as [(_ & _ & Ht) Hp]; [by apply lookup_lt_Some in Hj|]. simpl in Ht, Hp. rewrite Hj in Hp. injection Hp as Hp.
  unfold interrupt_pause in Hp. destruct (Z.eqb_spec prior 0); [|done]. cbn [negb] in Hp. destruct wait_hint; [|done].
  destruct (Z.ltb_spec (o_time (env j) - start_time) kMaxElapsed); [done|]. injection Hp as ->.
  destruct (wait_ms_bounds fast_timeout (o_time (env j) - start_time)); [unfold kMaxElapsed in *; lia|done|]. split_and!; lia || done.
Qed.

(** The comparison sees 64 bits and the answer 32 ([signal_value_t]): a wait for at least 1
    can answer with a negative number, after two additions of [INT32_MAX]. *)
Theorem wait_answer_truncated : exists (v : Z) (env : nat -> obs),
  v = op_new 64 (atomic_of (OpAdd (2 ^ 31 - 1))) (op_new 64 (atomic_of (OpAdd (2 ^ 31 - 1))) 0) /\
  (forall n, o_value (env n) = v) /\
  BusyWait_WaitRelaxed env CONDITION_GTE 1 0 100 1 = Some (-2, []).
Proof. exists (2 ^ 32 - 2), (fun n => mkObs true (2 ^ 32 - 2) (Z.of_nat n) 0). split; [|split]; [reflexivity|done|reflexivity]. Qed.

(** ** Several signals *)

(** Signal [o] does not end the round; signal [k] of the list ends it. *)
Definition passes (o : sobs) (c : Z * Z) : Prop :=
  s_valid o = true /\ s_fatal o = false /\ condition_met c.1 (s_value o) c.2 = Some false.
Definition stops (k : Z) (o : sobs) (c : Z * Z) (r : Z) (sat : option Z) : Prop :=
  (s_valid o = true /\ s_fatal o = true /\ r = k /\ sat = None) \/
  (s_valid o = true /\ s_fatal o = false /\ condition_met c.1 (s_value o) c.2 = Some true /\
     r = k /\ sat = Some (signal_value (s_value o))) \/
  (r = minus_one /\ sat = None /\ (s_valid o = false \/ condition_met c.1 (s_value o) c.2 = None)).

Lemma scan_spec i os conds : length os = length conds ->
  match scan_signals i os conds with
  | None => Forall2 passes os conds
  | Some (r, sat) => exists k o c, os !! k = Some o /\ conds !! k = Some c /\
      Forall2 passes (take k os) (take k conds) /\ stops (i + Z.of_nat k) o c r sat
  end.
Proof.
  revert i conds. induction os as [|o os IH]; intros i conds Hlen; destruct conds as [|[c v] conds]; try done; simpl.
  { constructor. }
  injection Hlen as Hlen. unfold stops. destruct (s_valid o) eqn:Ev; cbn [negb].
  2:{ exists 0%nat, o, (c, v). rewrite Ev. split_and!; try done; simpl; tauto. }
  destruct (s_fatal o) eqn:Ef.
  { exists 0%nat, o, (c, v). rewrite Ev, Ef, Z.add_0_r. split_and!; try done; simpl; tauto. }
  destruct (condition_met c (s_value o) v) as [[]|] eqn:Em.
  - exists 0%nat, o, (c, v). rewrite Ev, Ef, Z.add_0_r. split_and!; try done; simpl; rewrite Em; tauto.
  - specialize (IH (i + 1) conds Hlen). destruct (scan_signals (i + 1) os conds) as [[r sat]|].
    + destruct IH as (k & o' & c' & H1 & H2 & H3 & H4). exists (S k), o', c'. split_and!; try done; [by constructor|].
      by replace (i + Z.of_nat (S k)) with (i + 1 + Z.of_nat k) by lia.
    + by constructor.
  - exists 0%nat, o, (c, v). rewrite Ev, Ef. split_and!; try done; simpl; rewrite Em; tauto.
Qed.

Lemma any_loop_spec (env : nat -> list sobs * Z) conds start_time fast_timeout hint fuel n r sat ps :
  (forall k, length (env k).1 = length conds) ->
  any_loop env conds start_time fast_timeout hint fuel n = Some (r, sat, ps) ->
  (forall j, (j < length ps)%nat -> Forall2 passes (env (n + j)%nat).1 conds /\ (env (n + j)%nat).2 - start_time <= fast_timeout) /\
  let '(os, time) := env (n + length ps)%nat in
  (Forall2 passes os conds /\ fast_timeout < time - start_time /\ r = minus_one /\ sat = None) \/
  exists k o c, os !! k = Some o /\ conds !! k = Some c /\ Forall2 passes (take k os) (take k conds) /\ stops (Z.of_nat k) o c r sat.
Proof.
  intros Hlen. revert n ps. induction fuel as [|fuel IH]; intros n ps; simpl; [done|].
  specialize (Hlen n) as Hl. destruct (env n) as [os time] eqn:En. pose proof (scan_spec 0 os conds Hl) as Hsc.
  destruct (scan_signals 0 os conds) as [[r1 sat1]|].
  - intros [= -> -> <-]. simpl. split; [lia|]. rewrite Nat.add_0_r, En. by right.
  - destruct (Z.ltb_spec fast_timeout (time - start_time)).
    + intros [= <- <- <-]. simpl. split; [lia|]. rewrite Nat.add_0_r, En. left. by split_and!.
    + destruct (any_loop _ _ _ _ _ fuel (S n)) as [[[r1 sat1] ps1]|] eqn:El; simpl; [|done]. intros [= -> -> <-].
      destruct (IH (S n) ps1 El) as [H1 H2]. simpl. split.
      * intros [|j] Hj; [rewrite Nat.add_0_r, En; by split|]. replace (n + S j)%nat with (S n + j)%nat by lia. apply H1. lia.
      * by replace (n + S (length ps1))%nat with (S n + length ps1)%nat by lia.
Qed.

(** [WaitAnySignal] answers with the first signal of the list that is satisfied, in the
    first round in which one is; before, every signal was valid and unsatisfied and the time was
    not up; it answers -1 only for a timeout, a signal that is gone or a bad condition. *)
Theorem wait_any_first (env : nat -> list sobs * Z) conds start_time fast_timeout prior events wait_hint fuel r sat ps :
  (forall k, length (env k).1 = length conds) ->
  WaitAnySignal env conds start_time fast_timeout prior events wait_hint fuel = Some (r, sat, ps) ->
  (forall j, (j < length ps)%nat -> Forall2 passes (env j).1 conds /\ (env j).2 - start_time <= fast_timeout) /\
  let '(os, time) := env (length ps) in
  (Forall2 passes os conds /\ fast_timeout < time - start_time /\ r = minus_one /\ sat = None) \/
  exists k o c, os !! k = Some o /\ conds !! k = Some c /\ Forall2 passes (take k os) (take k conds) /\ stops (Z.of_nat k) o c r sat.
Proof. apply any_loop_spec. Qed.

Lemma unique_spec l : StronglySorted le l -> NoDup (unique l) /\ (forall x, x ∈ unique l <-> x ∈ l) /\
  (forall x, x ∈ unique l -> forall y, head l = Some y -> (y <= x)%nat).
Proof.
  induction l as [|x l IH]; intros Hs; [split_and!; [constructor|done|by intros ? ?%elem_of_nil]|].
  inversion Hs as [|? ? Hs' Hx]; subst. destruct (IH Hs') as (Hn & He & Hh). clear IH.
  rewrite Forall_forall in Hx. destruct l as [|y l].
  { split_and!; [apply NoDup_singleton|done|]. intros z Hz%list_elem_of_singleton w [= <-]. lia. }
  change (unique (x :: y :: l)) with (if decide (x = y) then unique (y :: l) else x :: unique (y :: l)). case_decide as Hxy.
  - subst y. split_and!; [done| |].
    + intros z. rewrite He, !elem_of_cons. tauto.
    + intros z Hz w [= <-]. by apply (Hh z).
  - split_and!.
    + apply NoDup_cons. split; [|done]. intros Hin. pose proof (Hh x Hin y eq_refl). pose proof (Hx y ltac:(by left)). lia.
    + intros z. pose proof (He z) as Hz. rewrite !elem_of_cons in *. tauto.
    + intros z [->|Hz]%elem_of_cons w [= <-]; [done|]. apply Hx. by apply He.
Qed.
(** It sleeps only if no other waiter is on any of the signals and each has an event, and
    then on the events of the signals, each once. *)
Theorem wait_any_events prior events wait_hint :
  let evts := any_events (any_hint prior events wait_hint) events in
  NoDup evts /\
  (any_hint prior events wait_hint = BLOCKED ->
     prior = 0 /\ wait_hint = BLOCKED /\ forall o, o ∈ events <-> exists e, o = Some e /\ e ∈ evts).
Proof.
  unfold any_hint. destruct (negb (prior =? 0) || existsb _ events)%bool eqn:Eb.
  { split; [constructor|done]. }
  apply orb_false_iff in Eb as [Hp%negb_false_iff%Z.eqb_eq He]. destruct wait_hint; [|split; [constructor|done]]. simpl.
  destruct (unique_spec (merge_sort le (omap id events))) as (Hn & Hin & _).
  { apply StronglySorted_merge_sort; [intros ? ? ?; apply Nat.le_trans|intros ? ?; lia]. }
  split; [exact Hn|]. intros _. split_and!; [done|done|]. intros o. split.
  - intros Ho. assert (is_Some o) as [e ->].
    { destruct o; [by eexists|]. exfalso. apply Bool.not_true_iff_false in He. apply He. apply existsb_exists.
      exists None. split; [by apply list_elem_of_In|done]. }
    exists e. split; [done|]. apply Hin. rewrite merge_sort_Permutation. apply list_elem_of_omap. by exists (Some e).
  - intros (e & -> & Hev%Hin). rewrite merge_sort_Permutation in Hev. apply list_elem_of_omap in Hev as (o & Ho & Hoe).
    destruct o; simpl in Hoe; [|done]. by injection Hoe as ->.
Qed.

(** ** Witnesses *)

(** The value rises by one and the time by 100 microseconds each round. *)
Definition ex_env (n : nat) : obs := mkObs true (Z.of_nat n - 3) (Z.of_nat n * 10 ^ 8) 0.
Lemma ex_run : Interrupt_WaitRelaxed ex_env CONDITION_GTE 1 0 (10 ^ 10) 0 BLOCKED 10 =
  Some (1, [Sleep 20; Sleep 20; WaitOnEvent 9; WaitOnEvent 9]).
Proof. vm_compute. reflexivity. Qed.
Lemma wait_answers_witness : answers CONDITION_GTE 1 0 (10 ^ 10) (ex_env 4) 1.
Proof. exact (proj2 (wait_answers ex_env CONDITION_GTE 1 0 (10 ^ 10) 0 BLOCKED 10 1 _ (or_introl ex_run))). Defined.
Lemma wait_returns_witness : exists r ps, BusyWait_WaitRelaxed ex_env CONDITION_GTE 50 0 (10 ^ 9) 12 = Some (r, ps) /\ (length ps <= 11)%nat.
Proof. apply (wait_returns ex_env CONDITION_GTE 50 0 (10 ^ 9) 0 BLOCKED 11). vm_compute. reflexivity. Defined.
Lemma wait_sleeps_within_witness : o_time (ex_env 2) - 0 + 9 * per_ms <= 10 ^ 10.
Proof.
  assert (10 ^ 10 < 2 ^ 64 * per_ms) as Hb by (vm_compute; reflexivity).
  destruct (wait_sleeps_within ex_env CONDITION_GTE 1 0 (10 ^ 10) 0 BLOCKED 10 1 _ 2 9 ex_run Hb eq_refl) as (_ & _ & _ & _ & H). exact H.
Defined.
Definition ex_any (n : nat) : list sobs * Z := ([mkSobs true false 0; mkSobs true false (Z.of_nat n)], Z.of_nat n * 10 ^ 8).
Definition ex_conds : list (Z * Z) := [(CONDITION_NE, 0); (CONDITION_GTE, 2)].
Lemma wait_any_first_witness : exists k o c, (ex_any 2).1 !! k = Some o /\ ex_conds !! k = Some c /\ stops (Z.of_nat k) o c 1 (Some 2).
Proof.
  assert (WaitAnySignal ex_any ex_conds 0 (10 ^ 10) 0 [] ACTIVE 5 = Some (1, Some 2, [Spin; Spin])) as Hr by (vm_compute; reflexivity).
  destruct (wait_any_first ex_any ex_conds 0 (10 ^ 10) 0 [] ACTIVE 5 1 (Some 2) _ (fun _ => eq_refl) Hr) as [_ [(_ & _ & H & _)|(k & o & c & H1 & H2 & _ & H4)]].
  - vm_compute in H. discriminate H.
  - exists k, o, c. exact (conj H1 (conj H2 H4)).
Defined.
