(* ===== verification/SignalRace.v ===== *)
(** Two races of signals, access by access.

    [Ipc]: [DuplicateSignalHandle] of a shared signal against [DestroySignal].  The counts are
    atomics of their own; only [duplicateIpc] and [DeRegisterIpc] run under [ipcLock_].

    [Wake]: the stores of an [InterruptSignal] against its waiters: [StoreRelaxed] writes the
    value and sets the event only if it sees a waiter ([SetEvent] has a compiler fence between
    the two, which orders nothing for the hardware). *)
From S2P Require Import Prelude.

(** ** Duplicating and releasing a shared signal *)

Module Ipc.

(** A thread between its accesses.  [Holding n]: it has [n] handles and is about to destroy
    one; [DupStart n]: it has [n] and calls [duplicateIpc]. *)
Inductive pc :=
| DupStart (n : nat) | DupFind (n : nat) | DupRef (n : nat) | DupRet (n : nat)
| Holding (n : nat) | CasValue (n : nat) | DecRetained (n : nat) | TestIpc (n : nat)
| LockMap (n : nat) | TestRef (n : nat) | Erase (n : nat) | Delete (n : nat) | Finished.
#[export] Instance pc_eq_dec : EqDecision pc.
Proof. solve_decision. Defined.

Record ipc := mkIpc { refcount_ : nat; retained_ : nat; in_map : bool; alive : bool; stray : bool; lock : option nat; threads : list pc }.
#[export] Instance ipc_eq_dec : EqDecision ipc.
Proof. solve_decision. Defined.

Definition rest (n : nat) : pc := match n with O => Finished | S _ => Holding n end.
(** Thread [t] moves to [p]; [touch]: it uses the signal's memory. *)
Definition go (t : nat) (p : pc) (touch : bool) (s : ipc) : ipc :=
  mkIpc (refcount_ s) (retained_ s) (in_map s) (alive s) (stray s || (touch && negb (alive s)))%bool (lock s) (<[t := p]> (threads s)).
Definition counts (r c : nat) (s : ipc) : ipc := mkIpc r c (in_map s) (alive s) (stray s) (lock s) (threads s).
Definition locked (o : option nat) (s : ipc) : ipc := mkIpc (refcount_ s) (retained_ s) (in_map s) (alive s) (stray s) o (threads s).
Definition unmapped (s : ipc) : ipc := mkIpc (refcount_ s) (retained_ s) false (alive s) (stray s) (lock s) (threads s).
Definition deleted (s : ipc) : ipc := mkIpc (refcount_ s) (retained_ s) (in_map s) false (stray s) (lock s) (threads s).

(** The next access of thread [t]; none while the lock is taken. *)
Definition step (t : nat) (s : ipc) : list ipc :=
  let r := refcount_ s in let c := retained_ s in
  match threads s !! t with
  | None | Some Finished => []
  (* duplicateIpc *)
  | Some (DupStart n) => match lock s with None => [go t (DupFind n) false (locked (Some t) s)] | _ => [] end
  | Some (DupFind n) => if in_map s then [go t (DupRef n) false s] else [go t (rest n) false (locked None s)]
  | Some (DupRef n) => [go t (DupRet n) true (counts (S r) c s)]
  | Some (DupRet n) => [go t (Holding (S n)) true (locked None (counts r (S c) s))]
  (* DestroySignal *)
  | Some (Holding n) => [go t (if decide (pred r = O) then CasValue (pred n) else DecRetained (pred n)) true (counts (pred r) c s)]
  | Some (CasValue n) => [go t (DecRetained n) true s]
  (* Release *)
  | Some (DecRetained n) => [go t (if decide (pred c = O) then TestIpc n else rest n) true (counts r (pred c) s)]
  | Some (TestIpc n) => [go t (LockMap n) true s]
  (* DeRegisterIpc *)
  | Some (LockMap n) => match lock s with None => [go t (TestRef n) false (locked (Some t) s)] | _ => [] end
  | Some (TestRef n) => if decide (r = O) then [go t (Erase n) true s] else [go t (rest n) true (locked None s)]
  | Some (Erase n) => [go t (Delete n) false (locked None (unmapped s))]
  | Some (Delete n) => [deleted (go t (rest n) true s)]
  end.
Definition succs (s : ipc) : list ipc := step 0 s ++ step 1 s.
Definition Step (x y : ipc) : Prop := y ∈ succs x.

(** Thread 0 has the only handle and destroys it; thread 1 knows the number of the signal and
    duplicates it.  In [shared], thread 1 has a handle of its own. *)
Definition unshared : ipc := mkIpc 1 1 true true false None [Holding 1; DupStart 0].
Definition shared : ipc := mkIpc 2 2 true true false None [Holding 1; DupStart 1].

Definition finished (s : ipc) : bool := forallb (fun p => bool_decide (p = Finished)) (threads s).

Lemma explored_from init P : forallb (fun x => bool_decide (x ∈ explore succs 3000 [] [init])) [init] = true ->
  closed_under succs (explore succs 3000 [] [init]) = true -> forallb P (explore succs 3000 [] [init]) = true ->
  forall s, rtc Step init s -> P s = true.
Proof.
  intros H1 H2 H3 s Hs. apply (explored succs [init] _ P H1 H2 H3). exists init. split; [by left|exact Hs].
Qed.
Lemma found_from init s : bool_decide (s ∈ explore succs 3000 [] [init]) = true -> rtc Step init s.
Proof.
  intros Hin%bool_decide_eq_true. eapply (explore_sound succs init 3000 [] [init]); [|exact Hin].
  intros y Hy%list_elem_of_singleton. subst y. apply rtc_refl.
Qed.

Definition stray_state : option ipc := List.find stray (explore succs 3000 [] [unshared]).

(** A thread that duplicates a shared signal it has no handle to races with the destruction
    of the last handle: the signal is used after it was deleted. *)
Theorem ipc_release_race : exists s, rtc Step unshared s /\ stray s = true.
Proof.
  destruct stray_state as [s|] eqn:E; [|by vm_compute in E].
  pose proof E as Hs. unfold stray_state in Hs. apply List.find_some in Hs as [Hin Hst]. exists s. split; [|done].
  apply found_from, bool_decide_eq_true. by apply list_elem_of_In.
Qed.

(** With a handle of its own it is safe: in every interleaving no deleted signal is used, a
    thread can move until both have finished, and then the signal is deleted and not in the map. *)
Theorem ipc_duplicate_safe s : rtc Step shared s ->
  stray s = false /\ (finished s = false -> exists s', Step s s') /\ (finished s = true -> alive s = false /\ in_map s = false).
Proof.
  intros Hs.
  assert ((negb (stray s) && (if finished s then negb (alive s) && negb (in_map s) else negb (bool_decide (succs s = []))))%bool = true) as Hb.
  { revert s Hs. apply explored_from; vm_compute; reflexivity. }
  apply andb_true_iff in Hb as [Hst Hf]. apply negb_true_iff in Hst. split; [done|]. destruct (finished s).
  - split; [done|]. intros _. apply andb_true_iff in Hf as [Ha Hm]. by apply negb_true_iff in Ha, Hm.
  - split; [|done]. intros _. apply negb_true_iff, bool_decide_eq_false in Hf. unfold Step. destruct (succs s) as [|s' l]; [done|].
    exists s'. by left.
Qed.
Lemma ipc_duplicate_safe_witness : stray shared = false.
Proof. exact (proj1 (ipc_duplicate_safe shared (rtc_refl _ _))). Defined.

End Ipc.

(** ** Stores and sleeping waiters *)

Module Wake.

(** A waiter: before [waiting_++], about to read the value (and whether it may sleep: only the
    first waiter may), asleep in [WaitOnEvent], about to do [waiting_--]. *)
Inductive wpc := WStart | WTest (sleeper : bool) | WAsleep | WLeave | WDone.
(** A setter: before its write, before its test of [waiting_], about to set the event. *)
Inductive spc := SStart | SWritten | SSetEvent | SDone.

(** [met]: the value satisfies the condition; [pending]: what a plain store has not yet made
    visible, per setter. *)
Record wake := mkWake { met : bool; waiting_ : nat; event : bool; waiters : list wpc; setters : list spc; pending : list (option bool) }.

Definition w_move (i : nat) (p : wpc) (s : wake) : wake := mkWake (met s) (waiting_ s) (event s) (<[i := p]> (waiters s)) (setters s) (pending s).
Definition s_move (j : nat) (p : spc) (s : wake) : wake := mkWake (met s) (waiting_ s) (event s) (waiters s) (<[j := p]> (setters s)) (pending s).
Definition set_met (b : bool) (s : wake) : wake := mkWake b (waiting_ s) (event s) (waiters s) (setters s) (pending s).
Definition set_waiting (n : nat) (s : wake) : wake := mkWake (met s) n (event s) (waiters s) (setters s) (pending s).
Definition set_event (b : bool) (s : wake) : wake := mkWake (met s) (waiting_ s) b (waiters s) (setters s) (pending s).
Definition set_pending (j : nat) (o : option bool) (s : wake) : wake := mkWake (met s) (waiting_ s) (event s) (waiters s) (setters s) (<[j := o]> (pending s)).

(** [InterruptSignal::WaitRelaxed], access by access; an event wakes one waiter and is reset, and
    the sleep may also time out. *)
Inductive wait_step (i : nat) (s : wake) : wake -> Prop :=
| w_enter : waiters s !! i = Some WStart ->
    wait_step i s (w_move i (WTest (bool_decide (waiting_ s = O))) (set_waiting (S (waiting_ s)) s))
| w_met b : waiters s !! i = Some (WTest b) -> met s = true -> wait_step i s (w_move i WLeave s)
| w_spin : waiters s !! i = Some (WTest false) -> met s = false -> wait_step i s s
| w_sleep : waiters s !! i = Some (WTest true) -> met s = false -> wait_step i s (w_move i WAsleep s)
| w_woken : waiters s !! i = Some WAsleep -> event s = true -> wait_step i s (w_move i (WTest true) (set_event false s))
| w_timeout : waiters s !! i = Some WAsleep -> wait_step i s (w_move i (WTest true) s)
| w_leave : waiters s !! i = Some WLeave -> wait_step i s (w_move i WDone (set_waiting (pred (waiting_ s)) s)).

(** A call that changes the value and then [SetEvent].  [buffered]: a plain store, which the
    processor may hold back past the read of [waiting_]; the other operations are locked. *)
Inductive set_step (buffered : bool) (j : nat) (s : wake) : wake -> Prop :=
| s_write v : setters s !! j = Some SStart -> buffered = false -> set_step buffered j s (s_move j SWritten (set_met v s))
| s_store v : setters s !! j = Some SStart -> buffered = true -> set_step buffered j s (s_move j SWritten (set_pending j (Some v) s))
| s_flush v : pending s !! j = Some (Some v) -> set_step buffered j s (set_pending j None (set_met v s))
| s_see : setters s !! j = Some SWritten -> waiting_ s <> O -> set_step buffered j s (s_move j SSetEvent s)
| s_skip : setters s !! j = Some SWritten -> waiting_ s = O -> set_step buffered j s (s_move j SDone s)
| s_set : setters s !! j = Some SSetEvent -> set_step buffered j s (s_move j SDone (set_event true s)).

Definition Step (buffered : bool) (s s' : wake) : Prop := (exists i, wait_step i s s') \/ exists j, set_step buffered j s s'.
Definition start (n k : nat) : wake := mkWake false 0 false (replicate n WStart) (replicate k SStart) (replicate k None).

(** Some waiter sleeps although the condition holds and nobody will set the event. *)
Definition lost (s : wake) : Prop :=
  (exists i, waiters s !! i = Some WAsleep) /\ met s = true /\ event s = false /\
  forall j, setters s !! j = None \/ setters s !! j = Some SDone \/ setters s !! j = Some SStart.

Definition inside (p : wpc) : bool := match p with WTest _ | WAsleep | WLeave => true | _ => false end.
Definition may_sleep (p : wpc) : bool := match p with WTest true | WAsleep => true | _ => false end.

Record wake_ok (s : wake) : Prop := {
  v_waiting : waiting_ s = count inside (waiters s);
  v_one : (count may_sleep (waiters s) <= 1)%nat;
  v_pending : forall j v, pending s !! j <> Some (Some v);
  v_coming : (exists i, waiters s !! i = Some WAsleep) -> met s = true ->
     event s = true \/ exists j, setters s !! j = Some SWritten \/ setters s !! j = Some SSetEvent }.

Lemma count_mono {A} (f g : A -> bool) l : (forall x, f x = true -> g x = true) -> (count f l <= count g l)%nat.
Proof.
  intros Hfg. induction l as [|x l IH]; [done|]. rewrite !count_cons. specialize (Hfg x). destruct (f x); [rewrite Hfg by done; lia|].
  destruct (g x); lia.
Qed.
Lemma sleeper_inside p : may_sleep p = true -> inside p = true.
Proof. by destruct p as [|[]| | |]. Qed.

Lemma asleep_counted s i : wake_ok s -> waiters s !! i = Some WAsleep -> waiting_ s <> O.
Proof.
  intros Hk Hi. rewrite (v_waiting _ Hk). assert (0 < count inside (waiters s))%nat; [|lia]. apply count_pos. eauto.
Qed.

(** A waiter that moves: the counts, and who sleeps afterwards. *)
Lemma moved_ok s i p p' (e : bool) (n : nat) :
  wake_ok s -> waiters s !! i = Some p ->
  (n + (if inside p then 1 else 0) = waiting_ s + (if inside p' then 1 else 0))%nat ->
  (may_sleep p' = true -> may_sleep p = false -> count may_sleep (waiters s) = 0%nat) ->
  (p' = WAsleep -> met s = false) ->
  (e = event s \/ may_sleep p = true) ->
  wake_ok (w_move i p' (set_waiting n (set_event e s))).
Proof.
  intros Hk Hi Hn Hone Hsl He. destruct Hk as [Kw Ko Kp Kc]. constructor; simpl.
  - pose proof (count_insert inside (waiters s) i p p' Hi). lia.
  - pose proof (count_insert may_sleep (waiters s) i p p' Hi). destruct (may_sleep p') eqn:E1, (may_sleep p) eqn:E2; try lia.
  - done.
  - intros [k Hk] Hm. destruct (decide (k = i)) as [->|Hki].
    + rewrite list_lookup_insert_eq in Hk by (by apply lookup_lt_Some in Hi). injection Hk as ->. specialize (Hsl eq_refl). congruence.
    + rewrite list_lookup_insert_ne in Hk by done. destruct He as [->|Hp]; [apply Kc; eauto|].
      (* the event is taken by the only sleeper *)
      exfalso. assert (2 <= count may_sleep (waiters s))%nat; [|lia].
      pose proof (count_insert may_sleep (waiters s) i p WDone Hi) as Hc. simpl in Hc. rewrite Hp in Hc.
      assert (0 < count may_sleep (<[i := WDone]> (waiters s)))%nat; [|lia]. apply count_pos. exists k, WAsleep. split; [|done].
      by rewrite list_lookup_insert_ne.
Qed.

Lemma wait_step_ok i s s' : wake_ok s -> wait_step i s s' -> wake_ok s'.
Proof.
  intros Hk Hst. pose proof (v_one _ Hk) as Ho. pose proof (v_waiting _ Hk) as Hw.
  destruct Hst as [Hi|b Hi Hm|Hi Hm|Hi Hm|Hi He|Hi|Hi].
  - apply (moved_ok s i WStart _ (event s)); try done; simpl; [lia| |by left].
    intros Hb _. case_bool_decide as H0; [|done]. pose proof (count_mono may_sleep inside (waiters s) sleeper_inside). lia.
  - apply (moved_ok s i (WTest b) WLeave (event s) (waiting_ s)); try done; by left.
  - done.
  - apply (moved_ok s i (WTest true) WAsleep (event s) (waiting_ s)); try done; by left.
  - apply (moved_ok s i WAsleep (WTest true) false (waiting_ s)); try done; by right.
  - apply (moved_ok s i WAsleep (WTest true) (event s) (waiting_ s)); try done; by left.
  - apply (moved_ok s i WLeave WDone (event s)); try done; [|by left].
    simpl. assert (0 < count inside (waiters s))%nat by (apply count_pos; eauto). lia.
Qed.
Lemma set_step_ok j s s' : wake_ok s -> set_step false j s s' -> wake_ok s'.
Proof.
  intros Hk Hst. pose proof Hk as [Kw Ko Kp Kc].
  assert (forall p k, setters s !! j = Some p -> <[j := k]> (setters s) !! j = Some k) as Hat.
  { intros p k Hj. by rewrite list_lookup_insert_eq by (by apply lookup_lt_Some in Hj). }
  destruct Hst as [v Hj _|v Hj ?|v Hj|Hj Hw|Hj Hw|Hj]; [|done|by destruct (Kp j v)|..]; constructor; try done; simpl.
  - intros _ _. right. exists j. left. by eapply Hat.
  - intros Ha Hm. right. exists j. right. by eapply Hat.
  - intros [i Hi] _. by destruct (asleep_counted _ _ Hk Hi).
  - intros _ _. by left.
Qed.
Lemma wake_start_ok n k : wake_ok (start n k).
Proof.
  constructor; simpl.
  - by rewrite count_replicate.
  - rewrite count_replicate. simpl. lia.
  - intros j v Hj. apply lookup_replicate in Hj as [? _]. done.
  - done.
Qed.


(** With a plain store a wake-up can be lost: the setter reads [waiting_] while its store is
    still held back, and the waiter, which read the old value, sleeps for good. *)
Theorem interrupt_store_lost_wakeup : exists s, rtc (Step true) (start 1 1) s /\ lost s.
Proof.
  exists (mkWake true 1 false [WAsleep] [SDone] [None]). split.
  - eapply rtc_l; [right; exists 0%nat; by eapply (s_store _ _ _ true)|].
    eapply rtc_l; [right; exists 0%nat; by eapply s_skip|].
    eapply rtc_l; [left; exists 0%nat; by eapply w_enter|].
    eapply rtc_l; [left; exists 0%nat; by eapply w_sleep|].
    eapply rtc_l; [right; exists 0%nat; by eapply (s_flush _ _ _ true)|].
    apply rtc_refl.
  - split_and!; [by exists 0%nat|done|done|]. intros [|j]; [by right; left|by left].
Qed.

End Wake.
