(* ===== verification/HardQueue.v ===== *)
(** [include/HardQueue.h] and [src/core/HardQueue.cpp]: the constructor of a hardware queue with
    the sizes it computes, the index operations, and the doorbell with its legacy protocol.

    The device's buffer allocator is a parameter: the address of a buffer of so many bytes, or
    null.  The packets are those of [include/stream_api.h]; [sizeof(AqlPacket)] comes from
    [TaskRing.v], which has their layout. *)
From S2P Require Import Prelude Atomic TaskRing.
Local Open Scope Z_scope.

Definition min_bytes : Z := 0x400.
Definition max_bytes : Z := 0x100000000.
Definition HSA_PACKET_ALIGN_BYTES : Z := 64.
Definition kInvalidHeader : Z := Z.shiftl PACKET_TYPE_INVALID 0.

(** What is thrown: [co_exception(ERROR_INVALID_QUEUE_CREATION)] and [std::bad_alloc]. *)
Definition invalid_queue_creation : nat := 5.
Definition bad_alloc : nat := 6.

(** [headers]: the headers of the packets of the buffer; [doorbell]: the doorbell register. *)
Record HardQueue := mkHQ {
  queue_address_ : Z; queue_size_pkts_ : Z; queue_size_bytes_ : Z; headers : list Z;
  write_dispatch_id : Z; read_dispatch_id : Z; max_legacy_doorbell_dispatch_id_plus_1 : Z;
  legacy_doorbell_lock : Z; size : Z; doorbell : option Z; doorbell_type_ : Z; active_ : bool; queue_id : Z }.

(** ** The constructor *)

Section new.
(** [packet] is [sizeof(AqlPacket)]; [queue_size_bytes_] is a [uint32_t]. *)
Context (packet : Z) (QueueBufferAllocator : Z -> Z -> option Z).

Definition queue_packets (ring_size : Z) : Z :=
  let min_pkts := min_bytes / packet in
  let max_pkts := max_bytes / packet in
  Z.max (Z.min ring_size max_pkts) min_pkts.
(** The headers are written packet by packet; a write behind the buffer's end is a stray one. *)
Definition fill_headers (pkts bytes : Z) : res (list Z) :=
  if bytes <? pkts * packet then AssertFail else Ret (replicate (Z.to_nat pkts) kInvalidHeader).
Definition HardQueue_with (ring_size doorbell_type id : Z) : res HardQueue :=
  let pkts := queue_packets ring_size in
  let bytes := u32 (pkts * packet) in
  if negb (Z.land bytes (u32 (bytes - 1)) =? 0) then Throw invalid_queue_creation
  else
    match QueueBufferAllocator bytes HSA_PACKET_ALIGN_BYTES with
    | None => Throw bad_alloc
    | Some a =>
        _ ← assert_ (a mod HSA_PACKET_ALIGN_BYTES =? 0);
        hs ← fill_headers pkts bytes;
        Ret (mkHQ a pkts bytes hs 0 0 0 0 pkts None doorbell_type true id)
    end.
End new.

Definition HardQueue_new := HardQueue_with (union_sizeof AqlPacket).

(** ** The indices *)

Definition LoadReadIndex (q : HardQueue) : Z := read_dispatch_id q.
Definition LoadWriteIndex (q : HardQueue) : Z := write_dispatch_id q.
Definition set_write (v : Z) (q : HardQueue) : HardQueue :=
  mkHQ (queue_address_ q) (queue_size_pkts_ q) (queue_size_bytes_ q) (headers q) (u64 v) (read_dispatch_id q)
    (max_legacy_doorbell_dispatch_id_plus_1 q) (legacy_doorbell_lock q) (size q) (doorbell q) (doorbell_type_ q) (active_ q) (queue_id q).
(** "assert(false)": only the hardware moves the read index. *)
Definition StoreReadIndex (v : Z) (q : HardQueue) : res HardQueue := AssertFail.
Definition StoreWriteIndex (v : Z) (q : HardQueue) : HardQueue := set_write v q.
Definition CasWriteIndex (expected v : Z) (q : HardQueue) : HardQueue * Z :=
  (if write_dispatch_id q =? u64 expected then set_write v q else q, write_dispatch_id q).
Definition AddWriteIndex (v : Z) (q : HardQueue) : HardQueue * Z :=
  (set_write (write_dispatch_id q + v) q, write_dispatch_id q).

(** ** The doorbell *)

Definition ring (max : Z) (bell : option Z) (q : HardQueue) : HardQueue :=
  mkHQ (queue_address_ q) (queue_size_pkts_ q) (queue_size_bytes_ q) (headers q) (write_dispatch_id q) (read_dispatch_id q)
    max (legacy_doorbell_lock q) (size q) bell (doorbell_type_ q) (active_ q) (queue_id q).
Definition set_lock (l : Z) (q : HardQueue) : HardQueue :=
  mkHQ (queue_address_ q) (queue_size_pkts_ q) (queue_size_bytes_ q) (headers q) (write_dispatch_id q) (read_dispatch_id q)
    (max_legacy_doorbell_dispatch_id_plus_1 q) l (size q) (doorbell q) (doorbell_type_ q) (active_ q) (queue_id q).

(** The small machine model ignores the value and takes the write index, clamped to a full queue
    behind the read index. *)
Definition legacy_dispatch_id (q : HardQueue) : Z :=
  Z.min (write_dispatch_id q) (u64 (read_dispatch_id q + size q)).
(** The section under [legacy_doorbell_lock]. *)
Definition legacy_doorbell (q : HardQueue) : res HardQueue :=
  let id := legacy_dispatch_id q in
  if max_legacy_doorbell_dispatch_id_plus_1 q <? id then
    if doorbell_type_ q =? 1 then Ret (ring id (Some (u32 id)) q)
    else AssertFail
  else Ret q.
(** [None]: the lock is taken, and the call spins. *)
Definition StoreRelaxed (value : Z) (q : HardQueue) : option (res HardQueue) :=
  if doorbell_type_ q =? 2 then Some (Ret (ring (max_legacy_doorbell_dispatch_id_plus_1 q) (Some (u64 value)) q))
  else if legacy_doorbell_lock q =? 0 then
    Some (q ← legacy_doorbell (set_lock 1 q); Ret (set_lock 0 q))
  else None.
Definition StoreRelease := StoreRelaxed.

(** [Inactivate], with what it does to the device: whether it destroys the hardware queue. *)
Definition Inactivate (q : HardQueue) : HardQueue * bool :=
  (mkHQ (queue_address_ q) (queue_size_pkts_ q) (queue_size_bytes_ q) (headers q) (write_dispatch_id q) (read_dispatch_id q)
    (max_legacy_doorbell_dispatch_id_plus_1 q) (legacy_doorbell_lock q) (size q) (doorbell q) (doorbell_type_ q) false (queue_id q), active_ q).
(** [~HardQueue]: [Inactivate], then the queue is destroyed once more. *)
Definition HardQueue_dtor (q : HardQueue) : list bool := [snd (Inactivate q); true].

(** "This operation is illegal": every operation of a doorbell but the stores. *)
Inductive doorbell_op := DLoad | DWait | DAnd | DOr | DXor | DAdd | DSub | DExch | DCas | DValueLocation | DEopEvent | DdoDestroySignal.
Definition DoorbellSignal_op (o : doorbell_op) (q : HardQueue) : res (HardQueue * Z) := AssertFail.

Example hard_queue_64 : match HardQueue_with 64 (fun _ _ => Some 4096) 128 1 0 with
  | Ret q => (queue_size_pkts_ q, queue_size_bytes_ q, length (headers q)) = (128, 8192, 128%nat) | _ => False end.
Proof. vm_compute. reflexivity. Qed.
