(* ===== verification/HardQueueSpec.v ===== *)
(** [HardQueue]: no hardware queue can be made with the packets of this repository, and would
    be with packets of 64 bytes; the legacy doorbell never runs ahead of what was written nor of
    a full queue, whichever threads ring it. *)
From S2P Require Import Prelude IntMath TaskRing HardQueue.
Local Open Scope Z_scope.

(** ** The constructor *)

Lemma pow2_not_mult3 k : 0 <= k -> 2 ^ k mod 3 <> 0.
Proof.
  intros Hk. pattern k. apply natlike_ind; [vm_compute; discriminate| |done].
  intros x Hx IH. rewrite Z.pow_succ_r, Z.mul_mod by lia. pose proof (Z.mod_pos_bound (2 ^ x) 3 ltac:(lia)).
  assert (2 ^ x mod 3 = 1 \/ 2 ^ x mod 3 = 2) as [-> | ->] by lia; done.
Qed.
Lemma power_test b : 0 < b < 2 ^ 32 -> (Z.land b (u32 (b - 1)) =? 0) = true <-> b = 2 ^ Z.log2 b.
Proof. intros Hb. exact (isPowerOf2_iff 32 b ltac:(lia) Hb). Qed.

Lemma packets_72 ring_size : 14 <= queue_packets 72 ring_size <= 59652323.
Proof. unfold queue_packets. change (min_bytes / 72) with 14. change (max_bytes / 72) with 59652323. lia. Qed.

Lemma hard_queue_throws QueueBufferAllocator ring_size doorbell_type id :
  HardQueue_new QueueBufferAllocator ring_size doorbell_type id = Throw invalid_queue_creation.
Proof.
  unfold HardQueue_new, HardQueue_with. change (union_sizeof AqlPacket) with 72.
  pose proof (packets_72 ring_size) as Hp. set (p := queue_packets 72 ring_size) in *.
  assert (u32 (p * 72) = p * 72) as -> by (apply wrap_small; unfold fits; lia).
  destruct (Z.land (p * 72) (u32 (p * 72 - 1)) =? 0) eqn:E; [exfalso|done].
  apply power_test in E; [|lia]. apply (pow2_not_mult3 (Z.log2 (p * 72))); [apply Z.log2_nonneg|].
  rewrite <- E. replace (p * 72) with (p * 24 * 3) by lia. apply Z.mod_mul. lia.
Qed.

(** The constructor always throws: a packet has 72 bytes, and no multiple of 72 is a power of
    two, which the size in bytes must be. *)
Theorem hard_queue_never QueueBufferAllocator ring_size doorbell_type id :
  HardQueue_new QueueBufferAllocator ring_size doorbell_type id = Throw invalid_queue_creation.
Proof. apply hard_queue_throws. Qed.

(** With packets of 64 bytes, as the sizes in the code assume, the constructor makes a queue
    of the size asked for, between 16 and 2^26 packets, if that is a power of two; but at 2^26 the
    byte count wraps to 0, and the headers are written outside the buffer. *)
Theorem hard_queue_64_sizes QueueBufferAllocator ring_size doorbell_type id a :
  (forall n, QueueBufferAllocator n HSA_PACKET_ALIGN_BYTES = Some (64 * a)) ->
  let p := queue_packets 64 ring_size in
  16 <= p <= 2 ^ 26 /\
  (p = 2 ^ 26 -> HardQueue_with 64 QueueBufferAllocator ring_size doorbell_type id = AssertFail) /\
  (p < 2 ^ 26 -> p = 2 ^ Z.log2 p -> exists q, HardQueue_with 64 QueueBufferAllocator ring_size doorbell_type id = Ret q /\
     queue_size_pkts_ q = p /\ queue_size_bytes_ q = 64 * p /\ Z.of_nat (length (headers q)) = p) /\
  (p < 2 ^ 26 -> p <> 2 ^ Z.log2 p -> HardQueue_with 64 QueueBufferAllocator ring_size doorbell_type id = Throw invalid_queue_creation).
Proof.
  intros Ha p. unfold HardQueue_with. fold p. rewrite Ha.
  assert (16 <= p <= 2 ^ 26) as Hp.
  { unfold p, queue_packets. change (min_bytes / 64) with 16. change (max_bytes / 64) with (2 ^ 26). lia. }
  replace (64 * a) with (a * 64) by lia. unfold HSA_PACKET_ALIGN_BYTES. rewrite Z.mod_mul by lia. cbn [Z.eqb assert_].
  assert (p < 2 ^ 26 -> u32 (p * 64) = p * 64) as Hb by (intros; apply wrap_small; unfold fits; lia).
  assert (forall k, p = 2 ^ k -> 0 <= k -> p * 64 = 2 ^ Z.log2 (p * 64)) as Hpow.
  { intros k -> Hk. change 64 with (2 ^ 6). rewrite <- Z.pow_add_r by lia. by rewrite Z.log2_pow2 by lia. }
  split_and!; [lia|lia| | |].
  - intros E. rewrite E. reflexivity.
  - intros Hlt E. rewrite Hb by done. rewrite (proj2 (power_test (p * 64) ltac:(lia))) by (apply (Hpow (Z.log2 p)); [done|apply Z.log2_nonneg]).
    unfold fill_headers. rewrite (proj2 (Z.ltb_ge _ _)) by lia. eexists. split; [reflexivity|]. simpl.
    split_and!; [done|lia|]. rewrite length_replicate. lia.
  - intros Hlt Hn. rewrite Hb by done. destruct (Z.land (p * 64) (u32 (p * 64 - 1)) =? 0) eqn:E; [exfalso|done].
    apply power_test in E; [|lia]. apply Hn. assert (6 <= Z.log2 (p * 64)) as H6 by (apply Z.log2_le_pow2; lia).
    assert (p = 2 ^ (Z.log2 (p * 64) - 6)) as Hp2.
    { apply (Z.mul_cancel_r _ _ 64); [lia|]. rewrite E at 1. change 64 with (2 ^ 6) at 3. rewrite <- Z.pow_add_r by lia. f_equal. lia. }
    rewrite Hp2 at 2. rewrite Z.log2_pow2 by lia. exact Hp2.
Qed.
Lemma hard_queue_64_sizes_witness : exists q, HardQueue_with 64 (fun _ _ => Some 4096) 128 1 0 = Ret q /\ queue_size_bytes_ q = 8192.
Proof.
  destruct (hard_queue_64_sizes (fun _ _ => Some 4096) 128 1 0 64 (fun _ => eq_refl)) as (_ & _ & H & _).
  destruct H as (q & Hq & _ & Hs & _); [vm_compute; reflexivity|vm_compute; reflexivity|]. exists q. split; [exact Hq|exact Hs].
Defined.

(** ** The legacy doorbell, access by access *)

(** A thread in [StoreRelaxed]: before it has the lock, before its read of the write index, of the
    read index, of the published index, and before the doorbell register and the unlock. *)
Inductive pc := Waiting | ReadWrite | ReadRead (w : Z) | Compare (id : Z) | Ring (id : Z) | Unlock (id : Z) | Finished (id : Z).

Record state := mkState { q_write : Z; q_read : Z; q_size : Z; q_max : Z; q_lock : bool; q_bell : Z; q_threads : list pc }.
Definition go (t : nat) (p : pc) (s : state) : state :=
  mkState (q_write s) (q_read s) (q_size s) (q_max s) (q_lock s) (q_bell s) (<[t := p]> (q_threads s)).
Definition lock_to (b : bool) (s : state) : state := mkState (q_write s) (q_read s) (q_size s) (q_max s) b (q_bell s) (q_threads s).
Definition publish (id : Z) (s : state) : state := mkState (q_write s) (q_read s) (q_size s) id (q_lock s) (q_bell s) (q_threads s).
Definition bell_to (b : Z) (s : state) : state := mkState (q_write s) (q_read s) (q_size s) (q_max s) (q_lock s) b (q_threads s).

(** Producers write packets (the write index may run more than a queue ahead), the hardware takes
    packets that were published, and threads ring. *)
Inductive Step (s : state) : state -> Prop :=
| st_write n : 0 <= n -> q_write s + n < 2 ^ 63 -> Step s (mkState (q_write s + n) (q_read s) (q_size s) (q_max s) (q_lock s) (q_bell s) (q_threads s))
| st_take : q_read s < q_max s -> Step s (mkState (q_write s) (q_read s + 1) (q_size s) (q_max s) (q_lock s) (q_bell s) (q_threads s))
| st_lock t : q_threads s !! t = Some Waiting -> q_lock s = false -> Step s (go t ReadWrite (lock_to true s))
| st_read t : q_threads s !! t = Some ReadWrite -> Step s (go t (ReadRead (q_write s)) s)
| st_clamp t w : q_threads s !! t = Some (ReadRead w) -> Step s (go t (Compare (Z.min w (u64 (q_read s + q_size s)))) s)
| st_publish t id : q_threads s !! t = Some (Compare id) -> q_max s < id -> Step s (go t (Ring id) (publish id s))
| st_discard t id : q_threads s !! t = Some (Compare id) -> id <= q_max s -> Step s (go t (Unlock id) s)
| st_ring t id : q_threads s !! t = Some (Ring id) -> Step s (go t (Unlock id) (bell_to (u32 id) s))
| st_unlock t id : q_threads s !! t = Some (Unlock id) -> Step s (go t (Finished id) (lock_to false s)).
Definition start (sz : Z) (n : nat) : state := mkState 0 0 sz 0 false 0 (replicate n Waiting).

Definition busy (p : pc) : bool := match p with Waiting | Finished _ => false | _ => true end.
(** What a thread knows. *)
Definition known (s : state) (p : pc) : Prop :=
  match p with
  | Waiting | ReadWrite => True
  | ReadRead w => w <= q_write s
  | Compare id => id <= q_write s /\ id <= q_read s + q_size s
  | Ring id => id = q_max s
  | Unlock id | Finished id => id <= q_max s
  end.
Record bell_ok (s : state) : Prop := {
  b_order : 0 <= q_read s <= q_max s /\ q_max s <= q_write s < 2 ^ 63;
  b_full : q_max s <= q_read s + q_size s;
  b_size : 0 < q_size s < 2 ^ 32;
  b_lock : count busy (q_threads s) = if q_lock s then 1%nat else 0%nat;
  b_known : forall t p, q_threads s !! t = Some p -> known s p;
  b_bell : q_bell s = u32 (q_max s) \/ exists t, q_threads s !! t = Some (Ring (q_max s)) }.

Lemma bell_start_ok sz n : 0 < sz < 2 ^ 32 -> bell_ok (start sz n).
Proof.
  intros Hsz. constructor; simpl; try lia.
  - by rewrite count_replicate.
  - by intros t p [-> _]%lookup_replicate.
  - by left.
Qed.
(** The lock is exclusive. *)
Lemma one_busy s t t' p p' : bell_ok s -> q_threads s !! t = Some p -> q_threads s !! t' = Some p' -> busy p = true -> busy p' = true -> t = t'.
Proof.
  intros Hk Ht Ht' Hb Hb'. destruct (decide (t = t')) as [|Hne]; [done|exfalso].
  pose proof (count_insert busy (q_threads s) t p Waiting Ht) as Hc. rewrite Hb in Hc. simpl in Hc.
  assert (0 < count busy (<[t := Waiting]> (q_threads s)))%nat as H0.
  { apply count_pos. exists t', p'. by rewrite list_lookup_insert_ne. }
  rewrite (b_lock _ Hk) in Hc. destruct (q_lock s); lia.
Qed.
(** A thread moves: the lock count and what the others know. *)
Lemma moved_count s t p p' : q_threads s !! t = Some p ->
  (count busy (<[t := p']> (q_threads s)) + (if busy p then 1 else 0) = count busy (q_threads s) + (if busy p' then 1 else 0))%nat.
Proof. apply count_insert. Qed.
Lemma moved_known s s' t p' :
  (forall u p, u <> t -> q_threads s !! u = Some p -> known s' p) -> known s' p' ->
  forall u p, <[t := p']> (q_threads s) !! u = Some p -> known s' p.
Proof.
  intros Ho Hp u p Hu. destruct (decide (u = t)) as [->|Hne].
  - assert (t < length (q_threads s))%nat by (apply lookup_lt_Some in Hu; by rewrite length_insert in Hu).
    rewrite list_lookup_insert_eq in Hu by done. by injection Hu as <-.
  - rewrite list_lookup_insert_ne in Hu by done. by eapply Ho.
Qed.
Lemma known_mono s s' p : known s p -> q_write s <= q_write s' -> q_read s <= q_read s' -> q_size s' = q_size s -> q_max s' = q_max s -> known s' p.
Proof. intros Hk Hw Hr Hs Hm. destruct p; simpl in *; rewrite ?Hm, ?Hs; lia || done. Qed.

Lemma step_ok s s' : bell_ok s -> Step s s' -> bell_ok s'.
Proof.
  intros Hk Hst. pose proof Hk as [Ho Hf Hz Hl Hkn Hb].
  assert (forall t p, q_threads s !! t = Some p -> busy p = true -> q_lock s = true) as Hlocked.
  { intros t p Ht Hp. destruct (q_lock s); [done|]. assert (0 < count busy (q_threads s))%nat by (apply count_pos; eauto). lia. }
  destruct Hst as [n Hn Hlt|Hlt|t Ht Hlk|t Ht|t w Ht|t id Ht Hlt|t id Ht Hle|t id Ht|t id Ht]; constructor; simpl; try done; try lia.
  - intros t p Ht. eapply known_mono; [by eapply Hkn|..]; simpl; lia.
  - intros t p Ht. eapply known_mono; [by eapply Hkn|..]; simpl; lia.
  - pose proof (moved_count s t Waiting ReadWrite Ht) as Hc. simpl in Hc. rewrite Hl, Hlk in Hc. lia.
  - apply (moved_known s _ t ReadWrite); [|done]. intros u p _ Hu. eapply known_mono; [by eapply Hkn|..]; simpl; lia.
  - destruct Hb as [?|[u Hu]]; [by left|right]. exists u. rewrite list_lookup_insert_ne; [done|]. intros ->. congruence.
  - pose proof (moved_count s t _ (ReadRead (q_write s)) Ht) as Hc. simpl in Hc. rewrite <- Hl. lia.
  - apply (moved_known s _ t (ReadRead (q_write s))); [|simpl; lia]. intros u p _ Hu. eapply known_mono; [by eapply Hkn|..]; simpl; lia.
  - destruct Hb as [?|[u Hu]]; [by left|right]. exists u. rewrite list_lookup_insert_ne; [done|]. intros ->. congruence.
  - pose proof (moved_count s t _ (Compare (Z.min w (u64 (q_read s + q_size s)))) Ht) as Hc. simpl in Hc. rewrite <- Hl. lia.
  - apply (moved_known s _ t (Compare (Z.min w (u64 (q_read s + q_size s))))); [|].
    + intros u p _ Hu. eapply known_mono; [by eapply Hkn|..]; simpl; lia.
    + pose proof (Hkn _ _ Ht) as Hw. simpl in *. unfold u64. rewrite wrap_small by (unfold fits; lia). lia.
  - destruct Hb as [?|[u Hu]]; [by left|right]. exists u. rewrite list_lookup_insert_ne; [done|]. intros ->. congruence.
  - pose proof (Hkn _ _ Ht). simpl in *. lia.
  - pose proof (Hkn _ _ Ht). simpl in *. lia.
  - pose proof (moved_count s t _ (Ring id) Ht) as Hc. simpl in Hc. rewrite <- Hl. lia.
  - apply (moved_known s _ t (Ring id)); [|done]. intros u p Hne Hu. pose proof (Hkn u p Hu) as Hp.
    destruct (busy p) eqn:Eb; [destruct Hne; by eapply (one_busy s u t)|]. destruct p; simpl in *; try done; lia.
  - right. exists t. by rewrite list_lookup_insert_eq by (by apply lookup_lt_Some in Ht).
  - pose proof (moved_count s t _ (Unlock id) Ht) as Hc. simpl in Hc. rewrite <- Hl. lia.
  - apply (moved_known s _ t (Unlock id)); [|done]. intros u p _ Hu. eapply known_mono; [by eapply Hkn|..]; simpl; lia.
  - destruct Hb as [?|[u Hu]]; [by left|right]. exists u. rewrite list_lookup_insert_ne; [done|]. intros ->. congruence.
  - pose proof (moved_count s t _ (Unlock id) Ht) as Hc. simpl in Hc. rewrite <- Hl. lia.
  - pose proof (Hkn _ _ Ht) as Hid. simpl in Hid. apply (moved_known s _ t (Unlock id)); [|simpl; lia].
    intros u p _ Hu. eapply known_mono; [by eapply Hkn|..]; simpl; lia.
  - left. pose proof (Hkn _ _ Ht) as Hid. simpl in Hid. by rewrite Hid.
  - pose proof (moved_count s t _ (Finished id) Ht) as Hc. simpl in Hc. rewrite Hl, (Hlocked _ _ Ht) in Hc by done. lia.
  - pose proof (Hkn _ _ Ht) as Hid. simpl in Hid. apply (moved_known s _ t (Finished id)); [|done].
    intros u p _ Hu. eapply known_mono; [by eapply Hkn|..]; simpl; lia.
  - destruct Hb as [?|[u Hu]]; [by left|right]. exists u. rewrite list_lookup_insert_ne; [done|]. intros ->. congruence.
Qed.

