(* ===== verification/StreamPool.v ===== *)
(** [src/core/Stream.cpp]: the queues of a [StreamPool].  [AcquireQueue] and [ReleaseQueue] count
    the users of the queues in [queue_pool_]; [CreateQueue] makes a hardware queue for an agent
    and a [SoftQueue] without one.

    [IsPowerOfTwo] and the agents are not part of the repository: the former is a parameter, and an
    agent is what its [GetInfo] answers.  The use of a null agent or of a queue that was destroyed is
    [AssertFail]. *)
From S2P Require Import Prelude TaskRing Signal HardQueue.
Local Open Scope Z_scope.

Definition QUEUE_TYPE_MULTI : Z := 0.
Definition QUEUE_TYPE_SINGLE : Z := 1.
Definition QUEUE_TYPE_COOPERATIVE : Z := 2.

(** [GetInfo(QUEUE_MAX_SIZE)], or its failure, and [GetInfo(QUEUE_TYPE)]; the doorbell's kind. *)
Record Agent := mkAgent { max_packets : option Z; queue_type : Z; agent_doorbell : Z }.

Inductive IQueue := Soft (ring_size type : Z) (doorbell_signal : nat) | Hard (q : HardQueue).
(** [QueueInfo()]: all zero. *)
Record QueueInfo := mkInfo { agent : nat; ref_count : Z }.
Record StreamPool := mkStreams { queue_pool_ : gmap nat QueueInfo; queues : gmap nat IQueue; next_queue : nat; signals : World; destroyed : list nat }.
Definition M (A : Type) : Type := st StreamPool A.

Definition with_pool (m : gmap nat QueueInfo) (s : StreamPool) : StreamPool := mkStreams m (queues s) (next_queue s) (signals s) (destroyed s).
Definition with_queues (m : gmap nat IQueue) (n : nat) (s : StreamPool) : StreamPool := mkStreams (queue_pool_ s) m n (signals s) (destroyed s).
Definition ensure (b : bool) : M unit := if b then ret tt else failed.
Definition fail {A} (r : res A) : M A := fun s => a ← r; Ret (s, a).
(** A call on the signals. *)
Definition on_signals {A} (m : st World A) : M A := fun s =>
  '(w, a) ← m (signals s); Ret (mkStreams (queue_pool_ s) (queues s) (next_queue s) w (destroyed s), a).

Definition out_of_resources : nat := 7.

Section streams.
(** The agents by their address, 0 being null; the memory allocators. *)
Context (IsPowerOfTwo : Z -> bool) (agents : nat -> option Agent) (use_interrupt_wait : bool) (cpu_agents : list nat)
  (AllocateMemory : Z -> bool) (QueueBufferAllocator : Z -> Z -> option Z).

Definition new_queue (q : IQueue) : M nat :=
  let* i := gets next_queue in
  modify (fun s => with_queues (<[i := q]> (queues s)) (S i) s) ;;;
  ret i.

Definition CreateQueue (ag : nat) (size type : Z) : M (status_t * option nat) :=
  if ((size =? 0) || negb (IsPowerOfTwo size) || (QUEUE_TYPE_COOPERATIVE <? type))%bool then ret (ERROR_INVALID_ARGUMENT, None)
  else if decide (ag <> 0%nat) then
    let* a := fail (deref (agents ag)) in
    ensure ((queue_type a =? QUEUE_TYPE_SINGLE) && negb (type =? QUEUE_TYPE_SINGLE))%bool ;;;
    let* i := gets next_queue in
    let* q := fail (HardQueue_new QueueBufferAllocator size (agent_doorbell a) (Z.of_nat i)) in
    let* i := new_queue (Hard q) in
    ret (SUCCESS, Some i)
  else
    let* r := on_signals (CreateSignal use_interrupt_wait cpu_agents 0 [] 0) in
    let* signal := fail (deref r.2) in
    (if AllocateMemory (size_bytes size) then ret tt else fun _ => Throw out_of_resources) ;;;
    let* i := new_queue (Soft size type signal) in
    ret (SUCCESS, Some i).

(** The search of [AcquireQueue]; a queue that is found is returned as it is. *)
Definition find_unused (ag : nat) (pool : list (nat * QueueInfo)) : option nat :=
  fst <$> List.find (fun p => (bool_decide (agent p.2 = ag) && negb (0 <? ref_count p.2))%bool) pool.
Definition AcquireQueue (ag : nat) (queue_size_hint : Z) : M (status_t * option nat) :=
  let* found := gets (fun s => find_unused ag (map_to_list (queue_pool_ s))) in
  match found with
  | Some q => ret (SUCCESS, Some q)
  | None =>
      let* a := fail (deref (if decide (ag = 0%nat) then None else agents ag)) in
      match max_packets a with
      | None => ret (ERROR, None)
      | Some queue_max_packets =>
          let queue_size := if queue_max_packets <? queue_size_hint then queue_max_packets else queue_size_hint in
          let* r := CreateQueue ag queue_size QUEUE_TYPE_MULTI in
          match r with
          | (SUCCESS, Some q) =>
              modify (fun s => with_pool (match queue_pool_ s !! q with
                | None => <[q := mkInfo 0 1]> (queue_pool_ s)
                | Some i => <[q := mkInfo (agent i) 1]> (queue_pool_ s) end) s) ;;;
              ret (SUCCESS, Some q)
          | (st, _) => ret (st, None)
          end
      end
  end.

(** [Destroy] deletes the queue. *)
Definition DestroyQueue (q : nat) : M unit :=
  let* o := gets (fun s => queues s !! q) in
  ensure (match o with Some _ => true | None => false end) ;;;
  modify (fun s => mkStreams (queue_pool_ s) (delete q (queues s)) (next_queue s) (signals s) (destroyed s ++ [q])).
Definition ReleaseQueue (q : nat) : M unit :=
  let* o := gets (fun s => queue_pool_ s !! q) in
  match o with
  | None => failed
  | Some i =>
      ensure (0 <? ref_count i) ;;;
      modify (fun s => with_pool (<[q := mkInfo (agent i) (ref_count i - 1)]> (queue_pool_ s)) s) ;;;
      if negb (ref_count i - 1 =? 0) then ret tt
      else
        DestroyQueue q ;;;
        modify (fun s => with_pool (delete q (queue_pool_ s)) s)
  end.

Inductive pool_call := CAcquire (ag : nat) (hint : Z) | CRelease (q : nat) | CCreate (ag : nat) (size type : Z).
Definition exec (c : pool_call) : M (status_t * option nat) :=
  match c with
  | CAcquire ag hint => AcquireQueue ag hint
  | CRelease q => ReleaseQueue q ;;; ret (SUCCESS, None)
  | CCreate ag size type => CreateQueue ag size type
  end.
End streams.
