(* ===== verification/StreamPoolSpec.v ===== *)
(** [StreamPool]: through [AcquireQueue] no queue is ever handed out, as every way to a hardware
    queue fails; without an agent [CreateQueue] makes a [SoftQueue] with a doorbell of its own. *)
From S2P Require Import Prelude TaskRing Signal SignalSpec HardQueue HardQueueSpec StreamPool.
Local Open Scope Z_scope.

Section streams.
Context (pow2 : Z -> bool) (agents : nat -> option Agent) (uiw : bool) (cpus : list nat)
  (AllocateMemory : Z -> bool) (QueueBufferAllocator : Z -> Z -> option Z).
Abbreviation CreateQueue := (CreateQueue pow2 agents uiw cpus AllocateMemory QueueBufferAllocator).
Abbreviation AcquireQueue := (AcquireQueue pow2 agents uiw cpus AllocateMemory QueueBufferAllocator).
Abbreviation exec := (exec pow2 agents uiw cpus AllocateMemory QueueBufferAllocator).

(** With an agent, [CreateQueue] rejects its arguments or does not return. *)
Lemma create_hard ag size type s s' r : ag <> 0%nat -> CreateQueue ag size type s = Ret (s', r) ->
  s' = s /\ r = (ERROR_INVALID_ARGUMENT, None).
Proof.
  intros Hag. unfold StreamPool.CreateQueue. destruct (_ || _)%bool; [by intros [= <- <-]|].
  rewrite decide_True by done. intros (s1 & a & Ha & H)%bind_inv_st.
  apply bind_inv_st in H as (s2 & [] & _ & H). apply bind_inv_st in H as (s3 & i & _ & H).
  apply bind_inv_st in H as (s4 & q & Hq & _). unfold fail in Hq.
  unfold HardQueue_new in Hq. pose proof (hard_queue_throws QueueBufferAllocator size (agent_doorbell a) (Z.of_nat i)) as Ht.
  unfold HardQueue_new in Ht. by rewrite Ht in Hq.
Qed.
Lemma create_pool ag size type s s' r : CreateQueue ag size type s = Ret (s', r) -> queue_pool_ s' = queue_pool_ s.
Proof.
  destruct (decide (ag = 0%nat)) as [->|Hag]; [|by intros [-> _]%create_hard].
  unfold StreamPool.CreateQueue. destruct (_ || _)%bool; [by intros [= <- _]|].
  rewrite decide_False by lia. intros (s1 & a & Ha & H)%bind_inv_st. unfold on_signals in Ha.
  destruct (CreateSignal uiw cpus 0 [] 0 (signals s)) as [[w x]| |]; [|done|done]. injection Ha as <- <-.
  apply bind_inv_st in H as (s2 & sg & Hs & H). unfold fail in Hs. destruct (deref _); [|done|done]. injection Hs as <- _.
  apply bind_inv_st in H as (s3 & [] & Hm & H). destruct (AllocateMemory _); [|done]. injection Hm as <-.
  apply bind_inv_st in H as (s4 & i & Hn & H). injection H as <- _. unfold new_queue, bind in Hn. simpl in Hn. by injection Hn as <- _.
Qed.

(** The pool stays empty. *)
Lemma acquire_empty ag hint s s' r : queue_pool_ s = ∅ -> AcquireQueue ag hint s = Ret (s', r) -> s' = s /\ exists st, r = (st, None) /\ st <> SUCCESS.
Proof.
  intros He. unfold StreamPool.AcquireQueue. erewrite bind_ret by done. rewrite He, map_to_list_empty. simpl find_unused. cbn [fmap option_fmap option_map List.find].
  intros (s1 & a & Ha & H)%bind_inv_st. unfold fail in Ha. case_decide as Hag; [done|].
  destruct (agents ag) as [a'|]; [|done]. injection Ha as <- <-. destruct (max_packets a'); [|injection H as <- <-; by eauto].
  apply bind_inv_st in H as (s2 & r2 & Hc & H). apply create_hard in Hc as [-> ->]; [|done]. injection H as <- <-. by eauto.
Qed.
Lemma exec_empty c s s' r : queue_pool_ s = ∅ -> exec c s = Ret (s', r) -> queue_pool_ s' = ∅.
Proof.
  intros He. destruct c as [ag hint|q|ag size type]; simpl.
  - by intros [-> _]%acquire_empty.
  - intros (s1 & [] & Hr & _)%bind_inv_st. unfold ReleaseQueue in Hr. erewrite bind_ret in Hr by done. rewrite He, lookup_empty in Hr. done.
  - intros Hc%create_pool. congruence.
Qed.
Inductive pool_reach (s0 : StreamPool) : StreamPool -> Prop :=
| pool_start : pool_reach s0 s0
| pool_step s c s' r : pool_reach s0 s -> exec c s = Ret (s', r) -> pool_reach s0 s'.

(** From an empty pool on, whatever was called before, [AcquireQueue] hands out no queue:
    it answers with an error, throws, or fails an assertion or on the null agent. *)
Theorem acquire_queue_never s0 s ag hint :
  queue_pool_ s0 = ∅ -> pool_reach s0 s ->
  match AcquireQueue ag hint s with
  | Ret (s', (st, q)) => s' = s /\ st <> SUCCESS /\ q = None
  | _ => True
  end /\
  (ag = 0%nat -> AcquireQueue ag hint s = AssertFail).
Proof.
  intros H0 Hr. assert (queue_pool_ s = ∅) as He by (induction Hr as [|s c s' r _ IH Hx]; [done|by eapply exec_empty]).
  split.
  - destruct (AcquireQueue ag hint s) as [[s' [st q]]| |] eqn:Ea; [|done|done].
    apply acquire_empty in Ea as (-> & st' & [= -> ->] & ?); done.
  - intros ->. unfold StreamPool.AcquireQueue. erewrite bind_ret by done. rewrite He, map_to_list_empty. done.
Qed.

(** Without an agent [CreateQueue] makes a [SoftQueue] with a new signal as its doorbell:
    the signal has one handle, and the other signals and queues stay as they were. *)
Theorem create_soft_queue s H R W size type :
  sig_ok (signals s) H R W -> size <> 0 -> pow2 size = true -> type <= QUEUE_TYPE_COOPERATIVE -> AllocateMemory (size_bytes size) = true ->
  exists w', let i := next_queue s in let sg := next (signals s) in
    CreateQueue 0 size type s =
      Ret (mkStreams (queue_pool_ s) (<[i := Soft size type sg]> (queues s)) (S i) w' (destroyed s), (SUCCESS, Some i)) /\
    sig_ok w' (bump sg 1 H) R W.
Proof.
  intros Hk Hsz Hp Ht Hm. unfold StreamPool.CreateQueue.
  rewrite (proj2 (Z.eqb_neq size 0)), Hp, (proj2 (Z.ltb_ge _ _)) by done. cbn [negb orb].
  rewrite decide_False by lia.
  destruct (CreateSignal_ok (signals s) H R W uiw cpus 0 [] 0 Hk) as [Hc|(w' & Hc & Hk')].
  { exfalso. unfold CreateSignal in Hc. rewrite bool_decide_true in Hc by done. cbn [negb] in Hc. rewrite andb_false_r in Hc.
    apply bind_inv_st in Hc as (w1 & i & _ & Hc). done. }
  exists w'. split; [|exact Hk'].
  erewrite bind_ret by (unfold on_signals; rewrite Hc; done). erewrite bind_ret by done.
  erewrite bind_ret by (by rewrite Hm). erewrite bind_ret by done. done.
Qed.
End streams.

(** ** Witnesses *)

Definition ex_streams : StreamPool := mkStreams ∅ ∅ 1 (World_new (fun _ => true)) [].
Definition ex_agents (i : nat) : option Agent := if decide (i = 5%nat) then Some (mkAgent (Some 1024) QUEUE_TYPE_SINGLE 1) else None.
Lemma acquire_queue_never_witness :
  StreamPool.AcquireQueue (fun z => z =? 1024) ex_agents false [] (fun _ => true) (fun _ _ => Some 0) 0 1024 ex_streams = AssertFail.
Proof.
  refine (proj2 (acquire_queue_never (fun z => z =? 1024) ex_agents false [] (fun _ => true) (fun _ _ => Some 0) ex_streams ex_streams 0 1024 _ _) _);
    [reflexivity|apply pool_start|reflexivity].
Defined.
Lemma create_soft_queue_witness : exists w',
  StreamPool.CreateQueue (fun z => z =? 1024) ex_agents false [] (fun _ => true) (fun _ _ => Some 0) 0 1024 QUEUE_TYPE_MULTI ex_streams =
    Ret (mkStreams ∅ {[ 1%nat := Soft 1024 0 1 ]} 2 w' [], (SUCCESS, Some 1%nat)).
Proof.
  destruct (create_soft_queue (fun z => z =? 1024) ex_agents false [] (fun _ => true) (fun _ _ => Some 0) ex_streams
    null_counts null_counts null_counts 1024 QUEUE_TYPE_MULTI) as (w' & H & _);
    [apply SignalSpec.world_new_ok|discriminate|reflexivity|discriminate|reflexivity|].
  exists w'. exact H.
Defined.
