(* ===== verification/SharedPool.v ===== *)
(** [SharedSignalPool] of [src/core/ISignal.cpp]: blocks of shared objects of doubling size, with
    a free list; every call is one step under [lock_].

    [allocate_] and [free_] are set from outside: a call of [allocate_] takes the next answer of a
    given sequence, an address or null. *)
From S2P Require Import Prelude.
Local Open Scope Z_scope.

(** [bytes]: [sizeof(SharedSignal)]. *)
Record SharedPool := mkSP { free_list_ : list Z; block_list_ : list (Z * Z); block_size_ : Z; answers : list (option Z); freed : list Z }.
Definition M (A : Type) : Type := st SharedPool A.
Definition bad_alloc : nat := 6.

Section pool.
Context (bytes : Z).
Definition minblock_ : Z := 4096 / bytes.
Definition SharedPool_new (answers : list (option Z)) : SharedPool := mkSP [] [] minblock_ answers [].

Definition allocate_ : M (option Z) := fun p =>
  match answers p with
  | a :: l => Ret (mkSP (free_list_ p) (block_list_ p) (block_size_ p) l (freed p), a)
  | [] => Ret (p, None)
  end.
Definition set_block_size (n : Z) : M unit := modify (fun p => mkSP (free_list_ p) (block_list_ p) n (answers p) (freed p)).

(** [&block[0]], [&block[1]], ... *)
Definition objects (block n : Z) : list Z := map (fun i => block + Z.of_nat i * bytes) (seq 0 (Z.to_nat n)).
(** A second try with the least size. *)
Definition new_block : M Z :=
  let* o := allocate_ in
  match o with
  | Some b => ret b
  | None =>
      set_block_size minblock_ ;;;
      let* o := allocate_ in
      match o with Some b => ret b | None => fun _ => Throw bad_alloc end
  end.
Definition alloc : M Z :=
  let* l := gets free_list_ in
  (match l with
   | [] =>
       let* block := new_block in
       let* n := gets block_size_ in
       modify (fun p => mkSP (free_list_ p ++ objects block n) (block_list_ p ++ [(block, n)]) (u64 (n * 2)) (answers p) (freed p))
   | _ => ret tt
   end) ;;;
  let* l := gets free_list_ in
  match last l with
  | None => failed
  | Some r =>
      modify (fun p => mkSP (removelast (free_list_ p)) (block_list_ p) (block_size_ p) (answers p) (freed p)) ;;;
      ret r
  end.

(** The check of the debug build. *)
Definition in_block (ptr : Z) (b : Z * Z) : bool := ((b.1 <=? ptr) && (ptr <? u64 (b.1 + b.2 * bytes)))%bool.
Definition free (ptr : Z) : M unit :=
  if ptr =? 0 then ret tt
  else
    let* bs := gets block_list_ in
    (if existsb (in_block ptr) bs then ret tt else failed) ;;;
    modify (fun p => mkSP (free_list_ p ++ [ptr]) (block_list_ p) (block_size_ p) (answers p) (freed p)).
Definition clear : M unit := modify (fun p => mkSP [] [] (block_size_ p) (answers p) (freed p ++ map fst (block_list_ p))).
End pool.

Example pool_example :
  match (let* a := alloc 1024 in let* b := alloc 1024 in free 1024 a ;;; let* c := alloc 1024 in ret (a, b, c)) (SharedPool_new 1024 [Some 8192]) with
  | Ret (p, r) => bool_decide (r = (11264, 10240, 11264) /\ free_list_ p = [8192; 9216] /\ block_size_ p = 8)
  | _ => false
  end = true.
Proof. vm_compute. reflexivity. Qed.
