(* ===== verification/SharedPoolSpec.v ===== *)
(** [SharedSignalPool]: what is handed out is pairwise apart and apart from the free list, always
    inside a block, and what is given back is accepted. *)
From S2P Require Import Prelude SharedPool.
Local Open Scope Z_scope.

Section pool.
Context (bytes : Z).
Hypothesis Hbytes : 2 <= bytes <= 4096.
Abbreviation objects := (objects bytes).
Abbreviation alloc := (alloc bytes).
Abbreviation free := (free bytes).

Definition all_objects (bs : list (Z * Z)) : list Z := flat_map (fun b => objects b.1 b.2) bs.
Definition apart (b c : Z * Z) : Prop := b.1 + b.2 * bytes <= c.1 \/ c.1 + c.2 * bytes <= b.1.
Definition block_ok (b : Z * Z) : Prop := 0 < b.1 /\ 0 < b.2 /\ b.1 + b.2 * bytes < 2 ^ 64.

(** [out]: the objects handed out. *)
Record pool_ok (p : SharedPool) (out : list Z) : Prop := {
  p_all : free_list_ p ++ out ≡ₚ all_objects (block_list_ p);
  p_blocks : Forall block_ok (block_list_ p);
  p_apart : forall i j b c, i <> j -> block_list_ p !! i = Some b -> block_list_ p !! j = Some c -> apart b c;
  p_size : 0 < block_size_ p < 2 ^ 64 }.

Lemma elem_objects b n x : x ∈ objects b n <-> exists i, 0 <= i < n /\ x = b + i * bytes.
Proof using Type.
  unfold SharedPool.objects. rewrite list_elem_of_In, in_map_iff. split.
  - intros (i & <- & Hi%in_seq). exists (Z.of_nat i). lia.
  - intros (i & Hi & ->). exists (Z.to_nat i). rewrite Z2Nat.id by lia. split; [done|]. apply in_seq. lia.
Qed.
Lemma nodup_objects b n : NoDup (objects b n).
Proof using Hbytes.
  unfold SharedPool.objects. assert (Inj eq eq (fun i => b + Z.of_nat i * bytes)) by (intros x y Hxy; nia).
  apply (NoDup_fmap_2 (fun i => b + Z.of_nat i * bytes)), NoDup_seq.
Qed.
Lemma elem_all bs x : x ∈ all_objects bs <-> exists b, b ∈ bs /\ x ∈ objects b.1 b.2.
Proof using Type. unfold all_objects. rewrite list_elem_of_In, in_flat_map. setoid_rewrite list_elem_of_In. done. Qed.
(** Distinct objects are [bytes] apart. *)
Lemma objects_spaced bs x y : Forall block_ok bs ->
  (forall i j b c, i <> j -> bs !! i = Some b -> bs !! j = Some c -> apart b c) ->
  x ∈ all_objects bs -> y ∈ all_objects bs -> x <> y -> x + bytes <= y \/ y + bytes <= x.
Proof using Hbytes.
  intros _ Ha (b & Hb & (i & Hi & ->)%elem_objects)%elem_all (c & Hc & (j & Hj & ->)%elem_objects)%elem_all Hne.
  apply list_elem_of_lookup in Hb as [k Hk]. apply list_elem_of_lookup in Hc as [l Hl]. destruct (decide (k = l)) as [<-|Hkl].
  - rewrite Hk in Hl. injection Hl as <-. assert (i <> j) by congruence. nia.
  - destruct (Ha k l b c Hkl Hk Hl); nia.
Qed.
Lemma nodup_all bs : (forall i j b c, i <> j -> bs !! i = Some b -> bs !! j = Some c -> apart b c) -> NoDup (all_objects bs).
Proof using Hbytes.
  induction bs as [|b bs IH]; intros Ha; [apply NoDup_nil_2|]. simpl. apply NoDup_app. split_and!; [apply nodup_objects| |].
  - intros x (i & Hi & ->)%elem_objects (c & Hc & (j & Hj & He)%elem_objects)%elem_all.
    apply list_elem_of_lookup in Hc as [k Hk]. destruct (Ha 0%nat (S k) b c); [done..|nia|nia].
  - apply IH. intros i j c d Hij Hc Hd. by apply (Ha (S i) (S j)); [congruence|..].
Qed.

Lemma new_pool_ok l : pool_ok (SharedPool_new bytes l) [].
Proof using Hbytes.
  constructor; simpl; [done|constructor|done|]. unfold minblock_. assert (1 <= 4096 / bytes) by (apply Z.div_le_lower_bound; lia).
  pose proof (Z.div_le_upper_bound 4096 bytes 4096 ltac:(lia)). nia.
Qed.

(** What the allocator promises: a block it returns is of the size asked for, and apart from the
    blocks that are not given back. *)
Definition fresh (p : SharedPool) : Prop :=
  free_list_ p = [] -> forall p' b, new_block bytes p = Ret (p', b) ->
    block_ok (b, block_size_ p') /\ forall c, c ∈ block_list_ p -> apart (b, block_size_ p') c.

Lemma new_block_run p : 0 < block_size_ p < 2 ^ 64 ->
  new_block bytes p = Throw bad_alloc \/ exists p' b, new_block bytes p = Ret (p', b) /\
    free_list_ p' = free_list_ p /\ block_list_ p' = block_list_ p /\ 0 < block_size_ p' < 2 ^ 64.
Proof using Hbytes.
  intros Hs. assert (0 < minblock_ bytes < 2 ^ 64) by apply (new_pool_ok []).
  unfold new_block, allocate_, set_block_size, bind, modify, ret. destruct p as [fl bl n an fr]. simpl.
  destruct an as [|[b|] an]; simpl; [by left|right; by do 2 eexists|].
  destruct an as [|[b|] an]; simpl; [by left|right; by do 2 eexists|by left].
Qed.

Lemma take_last p out : pool_ok p out -> free_list_ p <> [] ->
  exists p' r, (let* l := gets free_list_ in
    match last l with None => failed | Some r =>
      modify (fun p => mkSP (removelast (free_list_ p)) (block_list_ p) (block_size_ p) (answers p) (freed p)) ;;; ret r end) p = Ret (p', r) /\
    pool_ok p' (r :: out).
Proof using Type.
  intros [Ha Hb Hap Hs] Hne. erewrite bind_ret by done. destruct (last (free_list_ p)) as [r|] eqn:El; [|by apply last_None in El].
  apply last_Some in El as [l El]. eexists _, r. split; [done|]. constructor; simpl; [|done..].
  rewrite El in *. rewrite removelast_last. rewrite <- app_assoc in Ha. exact Ha.
Qed.
Lemma alloc_ok p out : pool_ok p out -> fresh p ->
  alloc p = Throw bad_alloc \/ exists p' r, alloc p = Ret (p', r) /\ pool_ok p' (r :: out).
Proof using Hbytes.
  intros Hk Hf. unfold SharedPool.alloc. erewrite bind_ret by done. destruct (free_list_ p) as [|x l] eqn:El.
  - destruct (new_block_run p (p_size _ _ Hk)) as [Ht|(p1 & b & Hr & Hfl & Hbl & Hs1)].
    { left. unfold bind. by rewrite Ht. }
    right. destruct (Hf El p1 b Hr) as [Hbok Hapart].
    assert (pool_ok (mkSP (free_list_ p1 ++ objects b (block_size_ p1)) (block_list_ p1 ++ [(b, block_size_ p1)]) (u64 (block_size_ p1 * 2)) (answers p1) (freed p1)) out) as Hk2.
    { destruct Hk as [Ha Hb Hap Hs]. constructor; simpl; rewrite ?Hfl, ?Hbl, ?El in *.
      - unfold all_objects. rewrite flat_map_app. simpl. rewrite app_nil_r. unfold all_objects in Ha. simpl in Ha |- *.
        rewrite Ha. apply Permutation_app_comm.
      - apply Forall_app. by split; [|apply Forall_singleton].
      - intros i j c d Hij Hc Hd. rewrite lookup_app_Some in Hc, Hd.
        destruct Hc as [Hc|[Hi Hc]], Hd as [Hd|[Hj Hd]]; [by eapply Hap| | |].
        + apply list_lookup_singleton_Some in Hd as [_ <-]. destruct (Hapart c) as [?|?]; [by eapply list_elem_of_lookup_2| |]; [by right|by left].
        + apply list_lookup_singleton_Some in Hc as [_ <-]. apply Hapart. by eapply list_elem_of_lookup_2.
        + apply list_lookup_singleton_Some in Hc as [? _], Hd as [? _]. lia.
      - destruct Hbok as (H1 & H2 & H3). simpl in *. unfold u64. rewrite wrap_small by (unfold fits; nia). nia. }
    destruct (take_last _ _ Hk2) as (p2 & r & Hr2 & Hk3).
    { simpl. intros [_ Hnil]%app_eq_nil. destruct Hbok as (_ & Hn & _). simpl in Hn.
      assert (b ∈ objects b (block_size_ p1)) as Hin by (apply elem_objects; exists 0; lia). rewrite Hnil in Hin. by apply elem_of_nil in Hin. }
    exists p2, r. split; [|done]. erewrite bind_ret; [exact Hr2|]. erewrite bind_ret by exact Hr. by erewrite bind_ret by done.
  - right. destruct (take_last p out Hk) as (p' & r & Hr & Hk'); [by rewrite El|]. exists p', r. split; [|done].
    erewrite bind_ret by done. exact Hr.
Qed.
Lemma free_ok p out1 r out2 : pool_ok p (out1 ++ r :: out2) -> exists p', free r p = Ret (p', tt) /\ pool_ok p' (out1 ++ out2).
Proof using Hbytes.
  intros [Ha Hb Hap Hs].
  assert (r ∈ all_objects (block_list_ p)) as (b & Hin & (i & Hi & ->)%elem_objects)%elem_all by (rewrite <- Ha; set_solver).
  assert (block_ok b) as (H1 & H2 & H3) by (by eapply Forall_forall in Hb).
  unfold SharedPool.free. rewrite (proj2 (Z.eqb_neq _ _)) by nia. erewrite bind_ret by done.
  assert (existsb (in_block bytes (b.1 + i * bytes)) (block_list_ p) = true) as ->.
  { apply existsb_exists. exists b. split; [by apply list_elem_of_In|]. unfold in_block, u64. rewrite wrap_small by (unfold fits; nia).
    apply andb_true_iff. split; [apply Z.leb_le; nia|apply Z.ltb_lt; nia]. }
  erewrite bind_ret by done. eexists. split; [done|]. constructor; simpl; [|done..].
  rewrite <- Ha, <- app_assoc. apply Permutation_app_head. simpl. apply Permutation_middle.
Qed.

(** The calls of clients that give back what they got. *)
Inductive pool_reach (l : list (option Z)) : SharedPool -> list Z -> Prop :=
| reach_new : pool_reach l (SharedPool_new bytes l) []
| reach_alloc p out p' r : pool_reach l p out -> fresh p -> alloc p = Ret (p', r) -> pool_reach l p' (r :: out)
| reach_free p out1 r out2 p' : pool_reach l p (out1 ++ r :: out2) -> free r p = Ret (p', tt) -> pool_reach l p' (out1 ++ out2).
Lemma pool_reach_ok l p out : pool_reach l p out -> pool_ok p out.
Proof using Hbytes.
  induction 1 as [|p out p' r _ IH Hf Ha|p out1 r out2 p' _ IH Hx].
  - apply new_pool_ok.
  - destruct (alloc_ok p out IH Hf) as [Ht|(p1 & r1 & Hr & Hk)]; [congruence|]. rewrite Ha in Hr. by injection Hr as -> ->.
  - destruct (free_ok p out1 r out2 IH) as (p1 & Hr & Hk). rewrite Hx in Hr. by injection Hr as ->.
Qed.
End pool.

(** C29: as long as the allocator's blocks are apart, the objects handed out are distinct, [bytes]
    apart from each other and from the free ones; [alloc] returns unless the allocator has
    failed twice, and [free] accepts what was handed out. *)
Theorem pool_separate bytes l p out :
  2 <= bytes <= 4096 -> pool_reach bytes l p out ->
  NoDup (free_list_ p ++ out) /\
  (forall x y, x ∈ free_list_ p ++ out -> y ∈ free_list_ p ++ out -> x <> y -> x + bytes <= y \/ y + bytes <= x) /\
  (fresh bytes p -> alloc bytes p = Throw bad_alloc \/ exists p' r, alloc bytes p = Ret (p', r) /\ r ∉ out) /\
  (forall r, r ∈ out -> exists p', free bytes r p = Ret (p', tt)).
Proof.
  intros Hb Hk%(pool_reach_ok bytes Hb). pose proof Hk as [Ha Hbl Hap Hs]. split_and!.
  - rewrite Ha. by apply (nodup_all bytes Hb).
  - intros x y Hx Hy. rewrite Ha in Hx, Hy. by apply (objects_spaced bytes Hb (block_list_ p)).
  - intros Hf. destruct (alloc_ok bytes Hb p out Hk Hf) as [?|(p' & r & Hr & Hk')]; [by left|right]. exists p', r. split; [done|].
    assert (NoDup (free_list_ p' ++ r :: out)) as Hn by (rewrite (p_all _ _ _ Hk'); apply (nodup_all bytes Hb), Hk').
    apply NoDup_app in Hn as (_ & _ & Hn). by apply NoDup_cons in Hn as [? _].
  - intros r Hr. apply list_elem_of_split in Hr as (o1 & o2 & ->). destruct (free_ok bytes Hb p o1 r o2 Hk) as (p' & ? & _). eauto.
Qed.
Lemma pool_separate_witness : exists p' r, alloc 1024 (SharedPool_new 1024 [Some 8192]) = Ret (p', r) /\ r ∉ [].
Proof.
  destruct (pool_separate 1024 [Some 8192] (SharedPool_new 1024 [Some 8192]) [] ltac:(lia) (reach_new 1024 [Some 8192])) as (_ & _ & H & _).
  destruct H as [H|H]; [| |exact H].
  - intros _ p' b Hr. vm_compute in Hr. injection Hr as <- <-. split; [split_and!; vm_compute; done|]. intros c Hc%elem_of_nil. destruct Hc.
  - vm_compute in H. discriminate H.
Defined.
