(* ===== verification/SharedOwner.v ===== *)
(** [include/Shared.h]: the owners of an object or of an array in memory of the allocator that is
    set from outside.

    [allocate_], [free_] (which are set) and the pools are outside: each call of an allocator is given with its
    answer.  Memory is used as it may be: taking back what is not there, or what came from another
    allocator, and the destruction of an object that is not constructed are [AssertFail]. *)
From S2P Require Import Prelude IntMath.
Local Open Scope Z_scope.

(** ** [Shared] *)

Module Shared.
(** What an allocation comes to: [Null]: there is no memory, and [Throws]: the constructor of the
    object throws.  Both end in an exception. *)
Inductive answer := Answer | Null | Throws.
Inductive exn := bad_alloc | of_constructor.
(** [alive]: the objects with their allocator, [None] for whole pages; [owners]: the variables with
    [shared_object_] and [pool_]. *)
Record world := mkWorld { alive : gmap nat (option nat); owners : gmap nat (option nat * option nat); fresh : nat }.
Definition empty_world : world := mkWorld ∅ ∅ 0.
Definition set_owner (v : nat) (o : option nat * option nat) (w : world) : world := mkWorld (alive w) (<[v := o]> (owners w)) (fresh w).

(** The memory that was taken is given back when the constructor throws. *)
Definition alloc (pool_ : option nat) (a : answer) (w : world) : world * (nat + exn) :=
  match a with
  | Null => (w, inr bad_alloc)
  | Throws => (mkWorld (alive w) (owners w) (S (fresh w)), inr of_constructor)
  | Answer => (mkWorld (<[fresh w := pool_]> (alive w)) (owners w) (S (fresh w)), inl (fresh w))
  end.
Definition PageAllocator_alloc (a : answer) (w : world) : world * (nat + exn) := alloc None a w.
(** Destruction and release: the object has to be one of this allocator. *)
Definition free_from (pool_ : option nat) (ptr : option nat) (w : world) : res world :=
  match ptr with
  | None => Ret w
  | Some p => if bool_decide (alive w !! p = Some pool_) then Ret (mkWorld (delete p (alive w)) (owners w) (fresh w)) else AssertFail
  end.
Definition PageAllocator_free (ptr : option nat) (w : world) : res world := free_from None ptr w.

(** [Shared(pool, flags)]: the variable exists unless the constructor throws. *)
Definition Shared_new (v : nat) (pool_ : option nat) (a : answer) (w : world) : world * option exn :=
  let '(w, r) := match pool_ with Some p => alloc (Some p) a w | None => PageAllocator_alloc a w end in
  match r with inl p => (set_owner v (Some p, pool_) w, None) | inr e => (w, Some e) end.
(** The body of the destructor: the members keep their values. *)
Definition Shared_destructor (o : option nat * option nat) (w : world) : res world :=
  match o.2 with Some p => free_from (Some p) o.1 w | None => PageAllocator_free o.1 w end.
Definition Shared_delete (v : nat) (w : world) : res world :=
  o ← deref (owners w !! v);
  w ← Shared_destructor o w;
  Ret (mkWorld (alive w) (delete v (owners w)) (fresh w)).
(** The common part of both moves: [o]: what [this] holds before. *)
Definition Shared_move (v : nat) (o : option nat * option nat) (rhs : nat) (w : world) : res world :=
  w ← Shared_destructor o w;
  r ← deref (owners w !! rhs);
  let w := set_owner v (r.1, o.2) w in
  x ← deref (owners w !! rhs);
  let w := set_owner rhs (None, x.2) w in
  x ← deref (owners w !! v);
  r ← deref (owners w !! rhs);
  let w := set_owner v (x.1, r.2) w in
  x ← deref (owners w !! rhs);
  Ret (set_owner rhs (x.1, None) w).
Definition Shared_assign (v rhs : nat) (w : world) : res world :=
  o ← deref (owners w !! v); Shared_move v o rhs w.
(** The constructor begins in memory that holds whatever was there. *)
Definition Shared_move_new (v : nat) (garbage : option nat * option nat) (rhs : nat) (w : world) : res world :=
  Shared_move v garbage rhs w.
Definition shared_object (v : nat) (w : world) : option nat := owners w !! v ≫= fst.

(** What a program may do: new variables have new names. *)
Inductive call := New (v : nat) (pool_ : option nat) (a : answer) | Delete (v : nat) | Assign (v rhs : nat).
Definition legal (c : call) (w : world) : Prop :=
  match c with
  | New v _ _ => owners w !! v = None
  | Delete v => is_Some (owners w !! v)
  | Assign v rhs => is_Some (owners w !! v) /\ is_Some (owners w !! rhs)
  end.
Definition run (c : call) (w : world) : res world :=
  match c with New v p a => Ret (Shared_new v p a w).1 | Delete v => Shared_delete v w | Assign v rhs => Shared_assign v rhs w end.
Definition Step (w w' : world) : Prop := exists c, legal c w /\ run c w = Ret w'.
End Shared.

(** ** [SharedArray] *)

Module SharedArray.
Inductive cell := Raw | Live | Dead.
#[export] Instance cell_eq_dec : EqDecision cell.
Proof. solve_decision. Defined.
Record memory := mkMem { cells : list cell; freed : bool }.

Definition construct_at (i : nat) (m : memory) : res memory :=
  if (bool_decide (i < length (cells m))%nat && negb (freed m))%bool then Ret (mkMem (<[i := Live]> (cells m)) (freed m)) else AssertFail.
Definition destroy_at (i : nat) (m : memory) : res memory :=
  if (bool_decide (cells m !! i = Some Live) && negb (freed m))%bool then Ret (mkMem (<[i := Dead]> (cells m)) (freed m)) else AssertFail.
Definition free_ (m : memory) : res memory := if freed m then AssertFail else Ret (mkMem (cells m) true).

(** [size]: [sizeof(T)].  The number of bytes is computed in 64 bits. *)
Definition allocate_ (size length : Z) : memory := mkMem (replicate (Z.to_nat (u64 (size * length) / size)) Raw) false.
(** [for (; i < length; i++) new (&shared_object_[i]) T], with the index whose constructor throws. *)
Fixpoint construct_loop (throws : nat -> bool) (n i : nat) (m : memory) : res (memory * option nat) :=
  match n with
  | O => Ret (m, None)
  | S n => if throws i then Ret (m, Some i) else m ← construct_at i m; construct_loop throws n (S i) m
  end.
(** [for (size_t t = 0; t < bound; t++) shared_object_[t].~T()]: it does not pass the end of the
    memory, so the number of cells is enough fuel. *)
Fixpoint destroy_loop (fuel t : nat) (bound : Z) (m : memory) : res memory :=
  if Z.of_nat t <? bound then
    m ← destroy_at t m;
    match fuel with O => AssertFail | S fuel => destroy_loop fuel (S t) bound m end
  else Ret m.
(** [loopGuard]: [i - 1] is unsigned. *)
Definition loopGuard (i : nat) (m : memory) : res memory :=
  m ← destroy_loop (length (cells m)) 0 (u64 (Z.of_nat i - 1)) m; free_ m.

Record array := mkArray { shared_object_ : option memory; len : Z }.
(** What the constructor leaves: an array, or an exception and the memory. *)
Inductive outcome := Made (a : array) | BadAlloc | Thrown (m : memory).
Definition SharedArray_new (size : Z) (throws : nat -> bool) (answer : bool) (length : Z) : res outcome :=
  if negb answer then Ret BadAlloc
  else
    r ← construct_loop throws (Z.to_nat length) 0 (allocate_ size length);
    match r.2 with
    | None => Ret (Made (mkArray (Some r.1) length))
    | Some i => m ← loopGuard i r.1; Ret (Thrown m)
    end.
(** [SharedArray()] leaves [len] to chance. *)
Definition SharedArray_default (garbage : Z) : array := mkArray None garbage.
(** The memory that is given back. *)
Definition SharedArray_destructor (a : array) : res (option memory) :=
  match shared_object_ a with
  | None => Ret None
  | Some m => m ← destroy_loop (length (cells m)) 0 (len a) m; m ← free_ m; Ret (Some m)
  end.
(** Assignment of another array: both afterwards, and what was given back. *)
Definition SharedArray_assign (a rhs : array) : res (array * array * option memory) :=
  m ← SharedArray_destructor a; Ret (mkArray (shared_object_ rhs) (len rhs), mkArray None (len rhs), m).
(** [a = std::move(a)]. *)
Definition SharedArray_assign_self (a : array) : res (array * option memory) :=
  m ← SharedArray_destructor a; Ret (mkArray None (len a), m).
(** [operator[]]: the object is there to be used. *)
Definition at_ (a : array) (index : Z) : res cell :=
  assert_ (index <? len a);;
  m ← deref (shared_object_ a);
  deref (cells m !! Z.to_nat index).
End SharedArray.

Example array_example :
  match SharedArray.SharedArray_new 8 (fun _ => false) true 3 with
  | Ret (SharedArray.Made a) =>
      match SharedArray.at_ a 2, SharedArray.at_ a 3 with Ret SharedArray.Live, AssertFail => true | _, _ => false end
  | _ => false
  end = true.
Proof. vm_compute. reflexivity. Qed.
