(* ===== verification/SharedOwnerSpec.v ===== *)
(** The owners of [Shared.h]: each object has one owner and its own allocator takes it back, except
    when an owner is made by a move; arrays construct and destroy every element, except when a
    constructor throws or the size does not fit. *)
From S2P Require Import Prelude SharedOwner.
Local Open Scope Z_scope.

Module Shared.
Import SharedOwner.Shared.
Implicit Types (w : world) (v u p : nat).

(** ** One owner for every object *)

Record owned w : Prop := {
  o_alive : forall v p q, owners w !! v = Some (Some p, q) -> alive w !! p = Some q;
  o_one : forall u v p q r, owners w !! u = Some (Some p, q) -> owners w !! v = Some (Some p, r) -> u = v;
  o_owner : forall p q, alive w !! p = Some q -> exists v, owners w !! v = Some (Some p, q);
  o_fresh : forall p, (fresh w <= p)%nat -> alive w !! p = None }.

Definition without (ptr : option nat) w : world := mkWorld (match ptr with Some p => delete p (alive w) | None => alive w end) (owners w) (fresh w).
Lemma destructor_ok o w : (forall p, o.1 = Some p -> alive w !! p = Some o.2) -> Shared_destructor o w = Ret (without o.1 w).
Proof.
  intros Ho. destruct o as [[p|] [q|]]; unfold Shared_destructor, PageAllocator_free, free_from; simpl in *.
  all: try (rewrite bool_decide_eq_true_2 by (by apply Ho)); try done; by destruct w.
Qed.
(** The owners after a move. *)
Definition moved v rhs (r : option nat * option nat) (m : gmap nat (option nat * option nat)) := <[rhs := (None, None)]> (<[v := r]> m).
Lemma shared_move_ok v o rhs r w : (forall p, o.1 = Some p -> alive w !! p = Some o.2) -> owners w !! rhs = Some r ->
  Shared_move v o rhs w = Ret (mkWorld (alive (without o.1 w)) (moved v rhs r (owners w)) (fresh w)).
Proof.
  intros Ho Hr. unfold Shared_move. rewrite destructor_ok by done. cbn [mbind res_bind without owners alive fresh]. rewrite Hr.
  destruct w as [al ow fr]. cbn [owners] in Hr. unfold set_owner, moved. cbn [mbind res_bind deref owners alive fresh without].
  destruct (decide (v = rhs)) as [<-|Hn].
  - repeat (rewrite lookup_insert_eq; cbn [mbind res_bind deref fst snd owners alive fresh]). by rewrite !insert_insert_eq.
  - repeat (first [rewrite lookup_insert_eq|rewrite lookup_insert_ne by done|rewrite Hr]; cbn [mbind res_bind deref fst snd owners alive fresh]).
    do 2 f_equal. apply map_eq. intros k. rewrite !lookup_insert. destruct r. repeat case_decide; subst; done.
Qed.

Lemma new_owned v pool_ a w : owned w -> owners w !! v = None -> owned (Shared_new v pool_ a w).1.
Proof.
  intros [Ha Ho Hw Hf] Hv. destruct a.
  - replace (Shared_new v pool_ Answer w).1 with (mkWorld (<[fresh w := pool_]> (alive w)) (<[v := (Some (fresh w), pool_)]> (owners w)) (S (fresh w)))
      by (by destruct pool_).
    assert (forall u q r, owners w !! u = Some (Some q, r) -> q <> fresh w) as Hold by (intros u q r Hu%Ha ->; rewrite Hf in Hu by lia; done).
    constructor; cbn [alive owners fresh].
    + intros u p q. rewrite !lookup_insert. repeat case_decide; naive_solver.
    + intros u u' p q r. rewrite !lookup_insert. repeat case_decide; naive_solver.
    + intros p q. rewrite lookup_insert. case_decide as E.
      * intros [= ->]. exists v. by rewrite lookup_insert_eq, E.
      * intros [u Hu]%Hw. exists u. rewrite lookup_insert_ne; [done|]. intros <-. congruence.
    + intros p Hp. rewrite lookup_insert_ne by lia. apply Hf. lia.
  - by replace (Shared_new v pool_ Null w).1 with w by (by destruct pool_).
  - replace (Shared_new v pool_ Throws w).1 with (mkWorld (alive w) (owners w) (S (fresh w))) by (by destruct pool_).
    constructor; try done. intros p Hp. simpl in Hp. apply Hf. lia.
Qed.
Lemma delete_owned v o w : owned w -> owners w !! v = Some o -> owned (mkWorld (alive (without o.1 w)) (delete v (owners w)) (fresh w)).
Proof.
  intros [Ha Ho Hw Hf] Hv. destruct o as [ptr pl].
  assert (forall p q, alive (without ptr w) !! p = Some q -> alive w !! p = Some q /\ ptr <> Some p) as Hal.
  { intros p q. destruct ptr as [x|]; simpl; [|done]. rewrite lookup_delete. case_decide; naive_solver. }
  constructor; cbn [alive owners fresh fst].
  - intros u p q. rewrite lookup_delete. case_decide; [done|]. intros Hu. destruct ptr as [x|]; simpl; [|by eapply Ha].
    rewrite lookup_delete. case_decide as E; [|by eapply Ha]. subst x. naive_solver.
  - intros u u' p q r. rewrite !lookup_delete. repeat case_decide; naive_solver.
  - intros p q [[u Hu]%Hw Hp]%Hal. exists u. rewrite lookup_delete_ne; [done|]. intros <-. naive_solver.
  - intros p Hp. destruct ptr as [x|]; simpl; [|by apply Hf]. rewrite lookup_delete. case_decide; [done|]. by apply Hf.
Qed.
Lemma assign_owned v rhs o r w : owned w -> owners w !! v = Some o -> owners w !! rhs = Some r ->
  owned (mkWorld (alive (without o.1 w)) (moved v rhs r (owners w)) (fresh w)).
Proof.
  intros Hw Hv Hr. pose proof (delete_owned v o w Hw Hv) as [Ha Ho Hd Hf]. cbn [alive owners fresh] in *.
  constructor; cbn [alive owners fresh]; unfold moved.
  - intros u p q. rewrite !lookup_insert. repeat case_decide; intros [=]; subst.
    + apply (Ha rhs). by rewrite lookup_delete_ne.
    + apply (Ha u). by rewrite lookup_delete_ne.
  - assert (forall a b x y z, v <> a -> v <> b -> owners w !! a = Some (Some x, y) -> owners w !! b = Some (Some x, z) -> a = b) as Ho'.
    { intros a b x y z Hva Hvb Hx Hy. by apply (Ho a b x y z); rewrite lookup_delete_ne. }
    clear Ho. intros u u' p q q' Hu Hu'. rewrite !lookup_insert in Hu, Hu'. repeat case_decide; simplify_eq; try done.
    + naive_solver.
    + naive_solver.
    + by eapply Ho'.
  - intros p q [u Hu]%Hd. rewrite lookup_delete in Hu. case_decide as Hn; [done|].
    destruct (decide (u = rhs)) as [->|Hu'].
    + exists v. rewrite lookup_insert_ne by done. rewrite lookup_insert_eq. congruence.
    + exists u. by rewrite !lookup_insert_ne.
  - done.
Qed.

(** Whatever a program does with owners, short of making one by a move, every call returns, an
    object is there exactly while an owner has it, it has one owner, and its own allocator takes it
    back. *)
Theorem owners_exact w : rtc Step empty_world w ->
  (forall c, legal c w -> exists w', run c w = Ret w') /\
  (forall p q, alive w !! p = Some q <-> exists v, owners w !! v = Some (Some p, q)) /\
  (forall u v p q r, owners w !! u = Some (Some p, q) -> owners w !! v = Some (Some p, r) -> u = v).
Proof.
  intros Hr. assert (forall x c, owned x -> legal c x -> exists x', run c x = Ret x' /\ owned x') as Hstep.
  { intros x c Hx Hl. pose proof Hx as [Ha _ _ _]. destruct c as [v q a|v|v rhs]; simpl in *.
    - eexists. split; [done|]. by apply new_owned.
    - destruct Hl as [o Hv]. unfold Shared_delete. rewrite Hv. cbn [mbind res_bind deref].
      rewrite destructor_ok; [|intros p Hp; apply (Ha v); rewrite Hv; by destruct o; simplify_eq/=]. cbn [mbind res_bind].
      eexists. split; [done|]. exact (delete_owned v o x Hx Hv).
    - destruct Hl as [[o Hv] [r Hr']]. unfold Shared_assign. rewrite Hv. cbn [mbind res_bind deref].
      erewrite shared_move_ok; [|intros p Hp; apply (Ha v); rewrite Hv; by destruct o; simplify_eq/=|done].
      eexists. split; [done|]. exact (assign_owned v rhs o r x Hx Hv Hr'). }
  assert (owned w) as Hw.
  { apply (reachable_inv Step (fun x => x = empty_world) owned); [intros ? ->; constructor; simpl; intros *; by rewrite ?lookup_empty| |by exists empty_world].
    intros x y Hx (c & Hl & Hc). destruct (Hstep x c Hx Hl) as (x' & Hx' & Ho). congruence. }
  destruct Hw as [Ha Ho Hd Hf]. split_and!.
  - intros c Hl. destruct (Hstep w c) as (x & Hx & _); [done..|]. by exists x.
  - intros p q. split; [apply Hd|]. intros [v Hv]. by eapply Ha.
  - done.
Qed.
Lemma owners_exact_witness : exists w, rtc Step empty_world w /\ owners w !! 1%nat = Some (Some 0%nat, Some 7%nat) /\ alive w !! 0%nat = Some (Some 7%nat).
Proof.
  set (w1 := (Shared_new 0 (Some 7%nat) Answer empty_world).1). set (w2 := (Shared_new 1 None Answer w1).1).
  set (w := mkWorld (delete 1%nat (alive w2)) (moved 1 0 (Some 0%nat, Some 7%nat) (owners w2)) 2).
  assert (rtc Step empty_world w) as Hr.
  { eapply rtc_l; [exists (New 0 (Some 7%nat) Answer); split; reflexivity|].
    eapply rtc_l; [exists (New 1 None Answer); split; reflexivity|].
    eapply rtc_l; [exists (Assign 1 0); split; [split; eexists; reflexivity|vm_compute; reflexivity]|]. apply rtc_refl. }
  exists w. split; [exact Hr|]. split; [reflexivity|].
  apply (proj1 (proj2 (owners_exact w Hr)) 0%nat (Some 7%nat)). exists 1%nat. reflexivity.
Defined.

(** Moving an owner hands on the object and its allocator and takes back what the other had. *)
Theorem assign_hands_on v rhs o r w : owned w -> owners w !! v = Some o -> owners w !! rhs = Some r -> v <> rhs ->
  exists w', run (Assign v rhs) w = Ret w' /\ owners w' !! v = Some r /\ owners w' !! rhs = Some (None, None) /\
      (forall p, o.1 = Some p -> alive w' !! p = None) /\ (forall p, o.1 <> Some p -> alive w' !! p = alive w !! p).
Proof.
  intros [Ha _ _ _] Hv Hr Hn. simpl. unfold Shared_assign. rewrite Hv. cbn [mbind res_bind deref].
  erewrite shared_move_ok; [|intros p Hp; apply (Ha v); rewrite Hv; by destruct o; simplify_eq/=|done].
  eexists. split; [done|]. cbn [alive owners]. unfold moved. split_and!.
  - rewrite lookup_insert_ne by done. by rewrite lookup_insert_eq.
  - by rewrite lookup_insert_eq.
  - intros p Hp. rewrite Hp. simpl. by rewrite lookup_delete_eq.
  - intros p Hp. destruct o as [[q|] ?]; simpl in *; [|done]. apply lookup_delete_ne. congruence.
Qed.

(** Assigning an owner to itself destroys its object. *)
Theorem assign_self_destroys v p q w : owned w -> owners w !! v = Some (Some p, q) ->
  exists w', run (Assign v v) w = Ret w' /\ owners w' !! v = Some (None, None) /\ alive w' !! p = None.
Proof.
  intros [Ha _ _ _] Hv. simpl. unfold Shared_assign. rewrite Hv. cbn [mbind res_bind deref].
  erewrite shared_move_ok; [|intros x [= <-]; by apply (Ha v)|done].
  eexists. split; [done|]. cbn [alive owners fst without]. unfold moved. by rewrite lookup_insert_eq, lookup_delete_eq.
Qed.

(** The move constructor first destroys what its own memory happens to name: either that is no
    object of the allocator, or it takes away the object of another owner. *)
Theorem move_new_destroys v rhs r p q w : owned w -> owners w !! v = None -> owners w !! rhs = Some r ->
  match Shared_move_new v (Some p, q) rhs w with
  | Ret w' => exists u, owners w !! u = Some (Some p, q) /\ alive w' !! p = None /\
        (owners w' !! u = Some (Some p, q) \/ owners w' !! v = Some (Some p, q))
  | AssertFail => alive w !! p <> Some q
  | Throw _ => False
  end.
Proof.
  intros [Ha _ Hd _] Hv Hr. unfold Shared_move_new. destruct (decide (alive w !! p = Some q)) as [Hp|Hp].
  - erewrite shared_move_ok; [|by intros x [= <-]|done]. destruct (Hd p q Hp) as [u Hu]. exists u. cbn [alive owners fst without]. split_and!; [done|by rewrite lookup_delete_eq|].
    unfold moved. destruct (decide (u = rhs)) as [->|Hn].
    + right. rewrite lookup_insert_ne by congruence. rewrite lookup_insert_eq. congruence.
    + left. by rewrite !lookup_insert_ne by congruence.
  - unfold Shared_move, Shared_destructor, PageAllocator_free, free_from. destruct q as [q|]; simpl; by rewrite bool_decide_eq_false_2.
Qed.
End Shared.

(** ** Arrays *)

Module SharedArray.
Import SharedOwner.SharedArray.
Implicit Types (m : memory) (i n k : nat).

Lemma fill {A} (x y : A) i (l : list A) : <[i := y]> (replicate i y ++ x :: l) = replicate (S i) y ++ l.
Proof. rewrite insert_app_r_alt by (rewrite length_replicate; lia). rewrite length_replicate, Nat.sub_diag, replicate_S_end, <- app_assoc. done. Qed.
Lemma construct_front throws n i l : (forall j, (i <= j < i + n)%nat -> throws j = false) ->
  forall n', construct_loop throws (n + n') i (mkMem (replicate i Live ++ replicate n Raw ++ l) false) =
  construct_loop throws n' (i + n) (mkMem (replicate (i + n) Live ++ l) false).
Proof.
  revert i. induction n as [|n IH]; intros i Ht n'; [by rewrite Nat.add_0_r|]. cbn [Nat.add construct_loop]. rewrite Ht by lia.
  unfold construct_at. cbn [cells freed]. rewrite bool_decide_eq_true_2 by (rewrite length_app, length_replicate; simpl; lia). cbn [andb negb mbind res_bind replicate app].
  rewrite fill, IH by (intros; apply Ht; lia). by rewrite Nat.add_succ_comm.
Qed.
Lemma destroy_front fuel n t l : (n <= fuel)%nat ->
  destroy_loop fuel t (Z.of_nat (t + n)) (mkMem (replicate t Dead ++ replicate n Live ++ l) false) = Ret (mkMem (replicate (t + n) Dead ++ l) false).
Proof.
  revert n t. induction fuel as [|fuel IH]; intros n t Hn; simpl.
  - replace n with 0%nat by lia. by rewrite (proj2 (Z.ltb_ge _ _)), Nat.add_0_r by lia.
  - destruct n as [|n]; [by rewrite (proj2 (Z.ltb_ge _ _)), Nat.add_0_r by lia|]. rewrite (proj2 (Z.ltb_lt _ _)) by lia.
    unfold destroy_at. cbn [cells freed]. rewrite bool_decide_eq_true_2 by (rewrite lookup_app_r; rewrite length_replicate; [by rewrite Nat.sub_diag|lia]).
    cbn [andb negb mbind res_bind replicate app]. rewrite fill, <- Nat.add_succ_comm. apply IH. lia.
Qed.
Lemma allocate_exact size length : 0 < size -> 0 <= length -> size * length < 2 ^ 64 -> allocate_ size length = mkMem (replicate (Z.to_nat length) Raw) false.
Proof. intros. unfold allocate_, u64. rewrite wrap_small by (unfold fits; lia). by rewrite (Z.mul_comm size), Z.div_mul by lia. Qed.

(** An array whose size fits in 64 bits has every element constructed once; indices are checked
    against its length; its destructor destroys every element once and gives the memory back. *)
Theorem array_whole size length : 0 < size -> 0 <= length -> size * length < 2 ^ 64 ->
  exists a, SharedArray_new size (fun _ => false) true length = Ret (Made a) /\
    (forall i : Z, 0 <= i -> at_ a i = if i <? length then Ret Live else AssertFail) /\
    SharedArray_destructor a = Ret (Some (mkMem (replicate (Z.to_nat length) Dead) true)).
Proof.
  intros Hs Hl Hb. exists (mkArray (Some (mkMem (replicate (Z.to_nat length) Live) false)) length). split_and!.
  - unfold SharedArray_new. rewrite allocate_exact by done. cbn [negb].
    pose proof (construct_front (fun _ => false) (Z.to_nat length) 0 [] ltac:(done) 0) as H. rewrite !app_nil_r, Nat.add_0_r in H. cbn [app replicate Nat.add] in H.
    rewrite H. reflexivity.
  - intros i Hi. unfold at_. cbn [shared_object_ len]. destruct (Z.ltb_spec i length); cbn [assert_ mbind res_bind deref cells]; [|done].
    rewrite lookup_replicate_2 by lia. done.
  - unfold SharedArray_destructor. cbn [shared_object_ len cells].
    pose proof (destroy_front (Z.to_nat length) (Z.to_nat length) 0 [] ltac:(lia)) as H. cbn [app replicate Nat.add] in H. rewrite !app_nil_r, Z2Nat.id in H by done.
    rewrite length_replicate, H. reflexivity.
Qed.

(** When the constructor of an element throws: the first one makes the array destroy what it never
    constructed; a later one leaves the element before it constructed in the memory given back. *)
Theorem array_throws size length throws k : 0 < size -> 0 <= length -> size * length < 2 ^ 64 -> Z.of_nat k < length ->
  throws k = true -> (forall j, (j < k)%nat -> throws j = false) ->
  SharedArray_new size throws true length =
    match k with
    | O => AssertFail
    | S j => Ret (Thrown (mkMem (replicate j Dead ++ Live :: replicate (Z.to_nat length - k) Raw) true))
    end.
Proof.
  intros Hs Hl Hb Hk Ht Hf. unfold SharedArray_new. rewrite allocate_exact by done. cbn [negb].
  replace (Z.to_nat length) with (k + S (Z.to_nat length - k - 1))%nat at 1 by lia.
  replace (replicate (Z.to_nat length) Raw) with (replicate 0 Live ++ replicate k Raw ++ replicate (Z.to_nat length - k) Raw)
    by (simpl; rewrite <- replicate_add; f_equal; lia).
  rewrite construct_front by (intros; apply Hf; lia). cbn [Nat.add construct_loop]. rewrite Ht. cbn [mbind res_bind fst snd]. unfold loopGuard. cbn [cells].
  destruct k as [|j].
  - replace (Z.to_nat length - 0)%nat with (S (Z.to_nat length - 1)) by lia. cbn [replicate app List.length destroy_loop]. reflexivity.
  - replace (u64 (Z.of_nat (S j) - 1)) with (Z.of_nat (0 + j)) by (unfold u64; rewrite wrap_small; [lia|unfold fits; nia]).
    rewrite replicate_S_end, <- app_assoc.
    pose proof (destroy_front (List.length (replicate j Live ++ [Live] ++ replicate (Z.to_nat length - S j) Raw)) j 0 ([Live] ++ replicate (Z.to_nat length - S j) Raw)) as H.
    cbn [replicate app] in H |- *. rewrite H by (rewrite length_app, length_replicate; lia). reflexivity.
Qed.

(** The size of the memory is computed in 64 bits: an array that does not fit is constructed past
    the end of what it got. *)
Theorem array_overflow size length : 0 < size -> 0 <= length < 2 ^ 64 -> 2 ^ 64 <= size * length ->
  SharedArray_new size (fun _ => false) true length = AssertFail.
Proof.
  intros Hs Hl Hb. unfold SharedArray_new, allocate_. cbn [negb]. set (c := u64 (size * length) / size).
  assert (0 <= c < length) as [Hc0 Hc].
  { unfold c, u64. pose proof (wrap_range 64 (size * length) ltac:(lia)) as [H1 H2]. split; [by apply Z.div_pos|]. apply Z.div_lt_upper_bound; lia. }
  replace (Z.to_nat length) with (Z.to_nat c + S (Z.to_nat length - Z.to_nat c - 1))%nat by lia.
  pose proof (construct_front (fun _ => false) (Z.to_nat c) 0 [] ltac:(done)) as H. rewrite !app_nil_r in H. cbn [replicate app Nat.add] in H.
  rewrite H. cbn [construct_loop]. unfold construct_at. cbn [cells freed]. rewrite bool_decide_eq_false_2 by (rewrite length_replicate; lia). reflexivity.
Qed.

(** An array that was moved from keeps its length: the check of an index passes and null is used. *)
Theorem moved_index_fails a rhs a' rhs' f (i : Z) : SharedArray_assign a rhs = Ret (a', rhs', f) -> a' = rhs /\ len rhs' = len rhs /\ at_ rhs' i = AssertFail.
Proof.
  unfold SharedArray_assign. destruct (SharedArray_destructor a) as [m| |]; try done. cbn [mbind res_bind]. intros [= <- <- <-].
  split_and!; [by destruct rhs|done|]. unfold at_. by destruct (i <? _).
Qed.
End SharedArray.
