(* ===== verification/AsyncEvents.v ===== *)
(** [src/core/EventPool.cpp]: the handlers of asynchronous signals: [SetAsyncSignalHandler], the
    thread's loop [AsyncEventsLoop] and [Shutdown].

    The five vectors of an [AsyncEvents] always grow and shrink together and are one list of
    entries.  A handler is a number, 0 being null; its call is recorded, and its answer is an
    argument of the round, as are the index and the value with which [WaitAnySignal] returns
    (between its two ends other threads act).  What else a handler does is done by the clients. *)
From S2P Require Import Prelude Atomic Signal SignalWait.
Local Open Scope Z_scope.

Record entry := mkEntry { e_signal : option nat; e_cond : Z; e_value : Z; e_handler : nat; e_arg : Z }.
#[export] Instance entry_eq_dec : EqDecision entry.
Proof. solve_decision. Defined.

(** ** [AsyncEvents] *)

Definition PushBack (e : entry) (l : list entry) : list entry := l ++ [e].
(** Outside the vectors: a stray access. *)
Definition CopyIndex (dst src : nat) (l : list entry) : res (list entry) :=
  e ← deref (l !! src);
  _ ← deref (l !! dst);
  Ret (<[dst := e]> l).
Definition Size (l : list entry) : nat := length l.
Definition PopBack (l : list entry) : res (list entry) := _ ← deref (last l); Ret (removelast l).
Definition Clear (l : list entry) : list entry := [].

(** ** [AsyncEventsControl] and the lists *)

(** [thread]: whether [async_events_thread_] is set; [calls]: the calls of handlers with value and
    argument, and of plain functions. *)
Inductive called := Handler (h : nat) (value arg : Z) | Function_ (h : nat) (arg : Z).
#[export] Instance called_eq_dec : EqDecision called.
Proof. solve_decision. Defined.
Record Async := mkAsync {
  signals : World; wake : nat; thread : bool; exit_ : bool;
  async_events_ : list entry; new_async_events_ : list entry; calls : list called }.
Definition M (A : Type) : Type := st Async A.

Definition set_events (l : list entry) (a : Async) : Async := mkAsync (signals a) (wake a) (thread a) (exit_ a) l (new_async_events_ a) (calls a).
Definition set_new (l : list entry) (a : Async) : Async := mkAsync (signals a) (wake a) (thread a) (exit_ a) (async_events_ a) l (calls a).
Definition set_calls (l : list called) (a : Async) : Async := mkAsync (signals a) (wake a) (thread a) (exit_ a) (async_events_ a) (new_async_events_ a) l.
Definition set_control (k : nat) (t x : bool) (a : Async) : Async := mkAsync (signals a) k t x (async_events_ a) (new_async_events_ a) (calls a).

Definition on_signals {A} (m : st World A) : M A := fun a =>
  '(w, x) ← m (signals a);
  Ret (mkAsync w (wake a) (thread a) (exit_ a) (async_events_ a) (new_async_events_ a) (calls a), x).
Definition fail {A} (r : res A) : M A := fun a => x ← r; Ret (a, x).
Definition call (c : called) : M unit := modify (fun a => set_calls (calls a ++ [c]) a).

(** The lazy initializer: the call that creates the thread is commented out, so
    [async_events_thread_] stays null and the assertion fails. *)
Definition lazy_initializer (use_interrupt_wait : bool) (cpu_agents : list nat) : M unit :=
  let* r := on_signals (CreateSignal use_interrupt_wait cpu_agents 0 [] 0) in
  let* w := fail (deref r.2) in
  modify (fun a => set_events (PushBack (mkEntry (Some w) CONDITION_NE 0 0 0) (async_events_ a)) a) ;;;
  modify (fun a => set_control w (thread a) false a) ;;;
  let* t := gets thread in
  if t then ret tt else failed.
Definition SetAsyncSignalHandler (use_interrupt_wait : bool) (cpu_agents : list nat) (e : entry) : M unit :=
  (match e_signal e with Some i => on_signals (Retain i) | None => ret tt end) ;;;
  let* t := gets thread in
  (if t then ret tt else lazy_initializer use_interrupt_wait cpu_agents) ;;;
  modify (fun a => set_new (PushBack e (new_async_events_ a)) a) ;;;
  let* w := gets wake in
  let* _v := on_signals (op (OpStore 1) release w) in
  ret tt.

(** ** The loop *)

(** The signals of the entries; a null one would be used. *)
Fixpoint signals_of (l : list entry) : res (list nat) :=
  match l with
  | [] => Ret []
  | e :: l => i ← deref (e_signal e); r ← signals_of l; Ret (i :: r)
  end.
(** The two ends of [WaitAnySignal]. *)
Definition loop_begin : M Z :=
  let* l := gets async_events_ in
  let* ss := fail (signals_of l) in
  on_signals (any_begin ss).
Definition loop_awake : M unit :=
  let* l := gets async_events_ in
  let* ss := fail (signals_of l) in
  on_signals (any_end ss).

(** [signal_[index]->Release()], then the last entry takes the place of this one. *)
Definition drop_entry (index : nat) : M unit :=
  let* l := gets async_events_ in
  let* i := fail (deref (l !! index ≫= e_signal)) in
  on_signals (Release i) ;;;
  let* l := fail (CopyIndex index (Size l - 1) l) in
  let* l := fail (PopBack l) in
  modify (set_events l).
Definition dispatch (index value : Z) (keep : bool) : M unit :=
  if index =? 0 then
    let* w := gets wake in
    let* _v := on_signals (op (OpStore 0) relaxed w) in
    ret tt
  else if negb (index =? minus_one) then
    let* l := gets async_events_ in
    let* e := fail (deref (l !! Z.to_nat index)) in
    if decide (e_handler e = 0%nat) then failed
    else
      call (Handler (e_handler e) value (e_arg e)) ;;;
      if negb keep then drop_entry (Z.to_nat index) else ret tt
  else ret tt.
(** "Check for dead signals".  Every turn drops an entry or goes on to the next, so [fuel], the
    size of the list, is enough. *)
Fixpoint sweep (fuel index : nat) : M unit :=
  match fuel with
  | O => ret tt
  | S fuel =>
      let* l := gets async_events_ in
      if decide (index = Size l) then ret tt
      else
        let* i := fail (deref (l !! index ≫= e_signal)) in
        let* s := on_signals (sig i) in
        if negb (IsValid s) then drop_entry index ;;; sweep fuel index
        else sweep fuel (S index)
  end.
(** "Insert new signals and find plain functions", then call these. *)
Definition is_function (e : entry) : bool := match e_signal e with None => true | Some _ => false end.
Definition insert_new : M unit :=
  let* new := gets new_async_events_ in
  modify (fun a => set_events (async_events_ a ++ List.filter (fun e => negb (is_function e)) new) a) ;;;
  modify (set_new (Clear new)) ;;;
  for_each (fun e => call (Function_ (e_handler e) (e_arg e))) (List.filter is_function new).
Definition loop_round (index value : Z) (keep : bool) : M unit :=
  loop_awake ;;;
  dispatch index value keep ;;;
  let* l := gets async_events_ in
  sweep (Size l) 0 ;;;
  insert_new.
(** "Release wait count of all pending signals". *)
Definition release_entry (e : entry) : M unit :=
  let* i := fail (deref (e_signal e)) in
  on_signals (Release i).
Definition loop_end : M unit :=
  let* l := gets async_events_ in
  for_each release_entry (drop 1 l) ;;;
  modify (set_events (Clear l)) ;;;
  let* new := gets new_async_events_ in
  for_each release_entry new ;;;
  modify (set_new (Clear new)).

(** [Shutdown], before and after it waits for the thread. *)
Definition shutdown_begin : M unit :=
  let* t := gets thread in
  if t then
    modify (fun a => set_control (wake a) (thread a) true a) ;;;
    let* w := gets wake in
    let* _v := on_signals (op (OpStore 1) relaxed w) in
    ret tt
  else ret tt.
Definition shutdown_end : M unit :=
  let* t := gets thread in
  if t then
    modify (fun a => set_control (wake a) false (exit_ a) a) ;;;
    let* w := gets wake in
    on_signals (DestroySignal w)
  else ret tt.

(** The state after the first call, were the thread created. *)
Definition Async_started (w : World) (k : nat) : Async := mkAsync w k true false [mkEntry (Some k) CONDITION_NE 0 0 0] [] [].

Example async_example :
  let w0 := mkWorld ∅ ∅ (mkPool [] false 0 (fun _ => true)) [] 1 in
  match (let* k := DefaultSignal_new 0 false in let* i := DefaultSignal_new 7 false in ret (k, i)) w0 with
  | Ret (w, (k, i)) =>
      match (SetAsyncSignalHandler true [] (mkEntry (Some i) CONDITION_LT 5 3 42) ;;;
             SetAsyncSignalHandler true [] (mkEntry None 0 0 8 43) ;;;
             let* _p := loop_begin in loop_round 0 1 true ;;;
             let* _p := loop_begin in loop_round 1 4 false) (Async_started w k) with
      | Ret (a, _) => bool_decide (calls a = [Function_ 8 43; Handler 3 4 42] /\ length (async_events_ a) = 1%nat
                        /\ (retained_ <$> sigs (signals a) !! i) = Some 1)
      | _ => false
      end
  | _ => false
  end = true.
Proof. vm_compute. reflexivity. Qed.
