(* ===== verification/AsyncEventsSpec.v ===== *)
(** The handlers of asynchronous signals: every call of the thread's loop, of [SetAsyncSignalHandler]
    and of the clients returns, each pending entry retains its signal exactly once, a round
    calls exactly the handler of the signal that answered and drops exactly the dead entries, and
    no registration is missed while the loop sleeps. *)
From S2P Require Import Prelude Atomic Signal SignalWait SignalSpec AsyncEvents.
Local Open Scope Z_scope.
Implicit Types (a : Async) (e : entry) (l d r : list entry) (w : World) (H R W : counts).

Definition with_signals w a : Async := mkAsync w (wake a) (thread a) (exit_ a) (async_events_ a) (new_async_events_ a) (calls a).
Lemma with_signals_id a : with_signals (signals a) a = a.
Proof. by destruct a. Qed.
Lemma on_signals_run {A} (m : st World A) a w' (x : A) : m (signals a) = Ret (w', x) -> on_signals m a = Ret (with_signals w' a, x).
Proof. intros Hm. unfold on_signals. by rewrite Hm. Qed.

(** ** Dropping entries *)

Definition rot r : list entry := match last r with Some z => z :: removelast r | None => [] end.
Lemma rot_perm r : rot r ≡ₚ r.
Proof.
  unfold rot. destruct (last r) as [z|] eqn:E; [|by apply last_None in E as ->].
  apply last_Some in E as [r' ->]. rewrite removelast_last. apply Permutation_cons_append.
Qed.
Lemma drop_entry_run a d e r i w' : async_events_ a = d ++ e :: r -> e_signal e = Some i ->
  Release i (signals a) = Ret (w', tt) ->
  drop_entry (length d) a = Ret (set_events (d ++ rot r) (with_signals w' a), tt).
Proof.
  intros Hl Hi Hr. unfold drop_entry. erewrite bind_ret by done. rewrite Hl.
  erewrite bind_ret; cycle 1. { unfold fail. rewrite list_lookup_middle by done. simpl. by rewrite Hi. }
  erewrite bind_ret by (by apply on_signals_run).
  unfold CopyIndex, PopBack, Size, rot. destruct (last r) as [z|] eqn:E.
  - apply last_Some in E as [r' ->]. rewrite removelast_last. erewrite bind_ret; cycle 1.
    { unfold fail. rewrite length_app. simpl. rewrite length_app. simpl. rewrite list_lookup_middle by done.
      replace (d ++ e :: r' ++ [z]) with ((d ++ e :: r') ++ [z]) by (by rewrite <- app_assoc).
      rewrite list_lookup_middle by (rewrite length_app; simpl; lia). simpl. rewrite <- app_assoc. simpl.
      rewrite insert_app_r_alt by lia. rewrite Nat.sub_diag. done. }
    simpl. erewrite bind_ret; cycle 1.
    { unfold fail. replace (d ++ z :: r' ++ [z]) with ((d ++ z :: r') ++ [z]) by (by rewrite <- app_assoc).
      rewrite last_snoc. simpl. rewrite removelast_last. done. }
    done.
  - apply last_None in E as ->. erewrite bind_ret; cycle 1.
    { unfold fail. rewrite length_app. simpl. replace (length d + 1 - 1)%nat with (length d) by lia.
      rewrite list_lookup_middle by done. simpl. rewrite list_insert_id by (by apply list_lookup_middle). done. }
    erewrite bind_ret; cycle 1. { unfold fail. rewrite last_snoc. simpl. rewrite removelast_last. done. }
    by rewrite app_nil_r.
Qed.

(** Whether the signal of an entry has handles left. *)
Definition live H e : bool := match e_signal e with Some i => 0 <? H i | None => false end.
Definition sigs_of l : list nat := omap e_signal l.
#[local] Arguments sigs_of : simpl never.
Lemma cnt_app i (l1 l2 : list nat) : cnt i (l1 ++ l2) = cnt i l1 + cnt i l2.
Proof. unfold cnt. rewrite count_app. lia. Qed.
Lemma cnt_perm i (l1 l2 : list nat) : l1 ≡ₚ l2 -> cnt i l1 = cnt i l2.
Proof. induction 1; rewrite ?cnt_cons in *; lia. Qed.
Lemma sigs_of_app l1 l2 : sigs_of (l1 ++ l2) = sigs_of l1 ++ sigs_of l2.
Proof. apply omap_app. Qed.
Lemma sigs_of_perm l1 l2 : l1 ≡ₚ l2 -> sigs_of l1 ≡ₚ sigs_of l2.
Proof. intros Hp. unfold sigs_of. by rewrite Hp. Qed.
Lemma filter_perm (f : entry -> bool) l1 l2 : l1 ≡ₚ l2 -> List.filter f l1 ≡ₚ List.filter f l2.
Proof.
  induction 1 as [|x l1 l2 _ IH|x y l1|l1 l2 l3 _ IH1 _ IH2]; simpl; [done| | |by etransitivity].
  - destruct (f x); [by constructor|done].
  - destruct (f x), (f y); try done. by constructor.
Qed.
Lemma sigs_of_cons e r i : e_signal e = Some i -> sigs_of (e :: r) = i :: sigs_of r.
Proof. intros He. unfold sigs_of. simpl. by rewrite He. Qed.

Lemma IsValid_live w H R W i s : sig_ok w H R W -> sigs w !! i = Some s -> IsValid s = (0 <? H i).
Proof.
  intros Hk Hs. destruct (k_counts _ _ _ _ Hk i s Hs) as (E & _). destruct (k_nonneg _ _ _ _ Hk i). unfold IsValid. rewrite E.
  destruct (Z.ltb_spec 0 (H i)); [by rewrite (proj2 (Z.eqb_neq _ _)) by lia|by rewrite (proj2 (Z.eqb_eq _ _)) by lia].
Qed.

(** ** The check for dead signals *)

Definition dead H l : list entry := List.filter (fun e => negb (live H e)) l.
Lemma sweep_next n d e r a H R W i : async_events_ a = d ++ e :: r -> e_signal e = Some i ->
  sig_ok (signals a) H R W -> 0 < H i + R i ->
  sweep (S n) (length d) a =
    (if live H e then sweep n (S (length d)) else drop_entry (length d) ;;; sweep n (length d)) a.
Proof.
  intros Hl Hi Hk Hp. destruct (live_sig _ _ _ _ _ Hk Hp) as [s Hs]. simpl. erewrite bind_ret by done. rewrite Hl.
  rewrite decide_False by (unfold Size; rewrite length_app; simpl; lia).
  erewrite bind_ret; cycle 1. { unfold fail. rewrite list_lookup_middle by done. simpl. by rewrite Hi. }
  erewrite bind_ret by (apply on_signals_run, sig_run; exact Hs). rewrite with_signals_id.
  rewrite (IsValid_live _ _ _ _ _ _ Hk Hs). unfold live. rewrite Hi. by destruct (0 <? H i).
Qed.
Lemma sweep_run n r d a H R W : length r = n -> async_events_ a = d ++ r -> sig_ok (signals a) H R W ->
  (forall e, e ∈ r -> is_Some (e_signal e)) -> (forall i, W i + cnt i (sigs_of (dead H r)) <= R i) ->
  exists w' r', sweep n (length d) a = Ret (set_events (d ++ r') (with_signals w' a), tt) /\
    r' ≡ₚ List.filter (live H) r /\ sig_ok w' H (minus R (sigs_of (dead H r))) W.
Proof.
  revert r d a R. induction n as [|n IH]; intros r d a R Hn Hl Hk Hsome Hc.
  - destruct r; [|done]. exists (signals a), []. rewrite with_signals_id. split_and!; [simpl; rewrite <- Hl; by destruct a|done|].
    apply (sig_ok_ext _ _ _ _ _ _ _ Hk); try done. intros i. unfold minus. rewrite cnt_nil. lia.
  - destruct r as [|e r]; [done|]. injection Hn as Hn. destruct (Hsome e) as [i Hi]; [by left|].
    destruct (k_nonneg _ _ _ _ Hk i) as (? & ? & ?).
    destruct (live H e) eqn:El.
    + assert (0 < H i) as HHi by (unfold live in El; rewrite Hi in El; by apply Z.ltb_lt).
      rewrite (sweep_next n d e r a H R W i) by (done || lia). rewrite El.
      destruct (IH r (d ++ [e]) a R) as (w' & r' & Hr & Hp & Hk'); [done|by rewrite <- app_assoc|done|..].
      { intros x Hx. apply Hsome. by right. }
      { intros j. specialize (Hc j). unfold dead in *. simpl in Hc. by rewrite El in Hc. }
      exists w', (e :: r'). rewrite length_app in Hr. simpl in Hr. rewrite Nat.add_1_r in Hr. split_and!.
      * rewrite Hr. by rewrite <- app_assoc.
      * simpl. rewrite El. by constructor.
      * unfold dead in *. simpl. by rewrite El.
    + assert (dead H (e :: r) = e :: dead H r) as Hd by (unfold dead; simpl; by rewrite El).
      rewrite Hd in *. rewrite (sigs_of_cons e _ i Hi) in *.
      assert (W i < R i) as HW. { specialize (Hc i). rewrite cnt_cons, decide_True in Hc by done. pose proof (cnt_nonneg i (sigs_of (dead H r))). lia. }
      rewrite (sweep_next n d e r a H R W i) by (done || lia). rewrite El.
      destruct (Release_ok _ _ _ _ i Hk HW) as (w1 & Hr1 & Hk1).
      erewrite bind_ret by (by eapply drop_entry_run).
      assert (dead H (rot r) ≡ₚ dead H r) as Hpd by (apply filter_perm, rot_perm).
      destruct (IH (rot r) d (set_events (d ++ rot r) (with_signals w1 a)) (bump i (-1) R)) as (w' & r' & Hr & Hp & Hk').
      { by rewrite (Permutation_length (rot_perm r)). }
      { done. }
      { exact Hk1. }
      { intros x Hx. apply Hsome. right. by rewrite <- (rot_perm r). }
      { intros j. rewrite (cnt_perm j _ _ (sigs_of_perm _ _ Hpd)). specialize (Hc j). rewrite cnt_cons in Hc. unfold bump. case_decide; lia. }
      exists w', r'. split_and!.
      * exact Hr.
      * rewrite Hp. simpl. rewrite El. apply filter_perm, rot_perm.
      * apply (sig_ok_ext _ _ _ _ _ _ _ Hk'); try done. intros j. unfold minus. rewrite (cnt_perm j _ _ (sigs_of_perm _ _ Hpd)), cnt_cons.
        unfold bump. case_decide; lia.
Qed.

(** ** A round *)

Definition wake_entry a : entry := mkEntry (Some (wake a)) CONDITION_NE 0 0 0.
Definition entry_ok e : Prop := is_Some (e_signal e) /\ e_handler e <> 0%nat.
(** The entry whose signal answered, and what stays of the entries behind the first. *)
Definition answered (index : Z) l : option entry :=
  if (index =? 0) || (index =? minus_one) then None else l !! (Z.to_nat index - 1)%nat.
Definition kept (index : Z) (keep : bool) l : list entry :=
  match answered index l with Some _ => if keep then l else delete (Z.to_nat index - 1)%nat l | None => l end.
Definition handler_calls (index value : Z) l : list called :=
  match answered index l with Some e => [Handler (e_handler e) value (e_arg e)] | None => [] end.
Definition functions l : list called := map (fun e => Function_ (e_handler e) (e_arg e)) (List.filter is_function l).

Lemma signals_of_run l : (forall e, e ∈ l -> is_Some (e_signal e)) -> signals_of l = Ret (sigs_of l).
Proof.
  induction l as [|e l IH]; intros Hl; [done|]. destruct (Hl e) as [i Hi]; [by left|].
  rewrite (sigs_of_cons e l i Hi). simpl. rewrite Hi. simpl. by rewrite IH by (intros x Hx; apply Hl; by right).
Qed.
Lemma ok_some a l : Forall entry_ok l -> forall e, e ∈ wake_entry a :: l -> is_Some (e_signal e).
Proof. intros Hl e [->|He]%elem_of_cons; [by eexists|]. rewrite Forall_forall in Hl. by apply Hl. Qed.
Lemma awake_run a H R W : sig_ok (signals a) H R W -> (forall e, e ∈ async_events_ a -> is_Some (e_signal e)) ->
  (forall i, cnt i (sigs_of (async_events_ a)) <= W i) ->
  exists w', loop_awake a = Ret (with_signals w' a, tt) /\
    sig_ok w' H (minus R (sigs_of (async_events_ a))) (minus W (sigs_of (async_events_ a))).
Proof.
  intros Hk Hs Hc. unfold loop_awake. erewrite bind_ret by done. erewrite bind_ret by (unfold fail; by rewrite signals_of_run).
  destruct (decs_ok _ _ _ _ _ Hk Hc) as (w1 & Hr1 & Hk1).
  destruct (releases_ok (sigs_of (async_events_ a)) w1 H R _ Hk1) as (w2 & Hr2 & Hk2).
  { intros i. destruct (k_nonneg _ _ _ _ Hk i) as (? & ? & ?). unfold minus. lia. }
  exists w2. split; [|done]. apply on_signals_run. unfold any_end. by erewrite bind_ret by exact Hr1.
Qed.
Lemma begin_run a H R W : sig_ok (signals a) H R W -> (forall e, e ∈ async_events_ a -> is_Some (e_signal e)) ->
  (forall i, i ∈ sigs_of (async_events_ a) -> 0 < H i + R i) -> (forall i, H i + R i + cnt i (sigs_of (async_events_ a)) < 2 ^ 32) ->
  exists w' p, loop_begin a = Ret (with_signals w' a, p) /\
    sig_ok w' H (plus R (sigs_of (async_events_ a))) (plus W (sigs_of (async_events_ a))).
Proof.
  intros Hk Hs Hl Hb. unfold loop_begin. erewrite bind_ret by done. erewrite bind_ret by (unfold fail; by rewrite signals_of_run).
  destruct (retains_ok _ _ _ _ _ Hk Hl Hb) as (w1 & Hr1 & Hk1).
  destruct (max_prior_ok (sigs_of (async_events_ a)) w1 H _ W 0 Hk1) as (w2 & p & Hr2 & Hk2).
  { intros i _. destruct (k_nonneg _ _ _ _ Hk i) as (? & ? & ?). unfold plus. lia. }
  exists w2, p. split; [|done]. apply on_signals_run. unfold any_begin. by erewrite bind_ret by exact Hr1.
Qed.

Lemma dispatch_run a l index value keep H W (Q : counts) :
  async_events_ a = wake_entry a :: l -> Forall entry_ok l ->
  sig_ok (signals a) H (fun j => W j + cnt j (sigs_of l) + Q j) W -> (forall j, 0 <= Q j) -> 0 < H (wake a) ->
  index = minus_one \/ 0 <= index <= Z.of_nat (length l) ->
  exists w' l', dispatch index value keep a =
      Ret (set_calls (calls a ++ handler_calls index value l) (set_events (wake_entry a :: l') (with_signals w' a)), tt) /\
    l' ≡ₚ kept index keep l /\ sig_ok w' H (fun j => W j + cnt j (sigs_of l') + Q j) W.
Proof.
  intros Hl Hok Hk HQ Hw Hi. destruct (k_nonneg _ _ _ _ Hk (wake a)) as (? & ? & ?). pose proof (cnt_nonneg (wake a) (sigs_of l)).
  unfold dispatch, handler_calls, kept, answered. destruct (Z.eqb_spec index 0) as [->|Hi0]; simpl.
  { destruct (op_ok _ _ _ _ (wake a) (OpStore 0) relaxed Hk) as (w' & r & Hr & Hk'); [specialize (HQ (wake a)); lia|].
    exists w', l. split_and!; [|done|done]. erewrite bind_ret by done. erewrite bind_ret by (by apply on_signals_run).
    rewrite app_nil_r. unfold ret, set_calls, set_events, with_signals. simpl. by rewrite Hl. }
  destruct (Z.eqb_spec index minus_one) as [->|Him]; simpl.
  { exists (signals a), l. rewrite with_signals_id, app_nil_r. split_and!; [|done|done]. unfold ret, set_calls, set_events. simpl. rewrite <- Hl. by destruct a. }
  destruct Hi as [?|Hi]; [done|]. set (k := (Z.to_nat index - 1)%nat).
  destruct (lookup_lt_is_Some_2 l k) as [e He]; [unfold k; lia|]. rewrite He.
  assert (Z.to_nat index = S k) as -> by (unfold k; lia).
  pose proof (proj1 (Forall_lookup _ _) Hok k e He) as [[i Hsi] Hh].
  erewrite bind_ret by done. rewrite Hl. erewrite bind_ret; cycle 1. { unfold fail. simpl. by rewrite He. }
  rewrite decide_False by done. erewrite bind_ret by done. set (a1 := set_calls _ a).
  destruct keep; cbn [negb]; cbv iota.
  - exists (signals a), l. rewrite with_signals_id. split_and!; [|done|done]. unfold ret, a1, set_calls, set_events. simpl. by rewrite <- Hl.
  - pose proof (take_drop_middle l k e He) as Hsp. pose proof (delete_Permutation l k e He) as Hd.
    assert (forall j, cnt j (sigs_of l) = (if decide (j = i) then 1 else 0) + cnt j (sigs_of (delete k l))) as Hcnt.
    { intros j. by rewrite (cnt_perm j _ _ (sigs_of_perm _ _ Hd)), (sigs_of_cons e _ i Hsi), cnt_cons. }
    destruct (Release_ok _ _ _ _ i Hk) as (w' & Hr & Hk').
    { specialize (HQ i). rewrite Hcnt, decide_True by done. pose proof (cnt_nonneg i (sigs_of (delete k l))). lia. }
    exists w', (take k l ++ rot (drop (S k) l)).
    assert (take k l ++ rot (drop (S k) l) ≡ₚ delete k l) as Hp.
    { rewrite delete_take_drop. by rewrite (rot_perm (drop (S k) l)). }
    split_and!; [|done|].
    + pose proof (drop_entry_run a1 (wake_entry a :: take k l) e (drop (S k) l) i w') as Hx.
      assert (length (wake_entry a :: take k l) = S k) as Hlen by (simpl; rewrite length_take; apply lookup_lt_Some in He; lia).
      rewrite Hlen in Hx. rewrite Hx; [done| |done|done]. unfold a1. simpl. rewrite Hl. simpl. by rewrite Hsp.
    + apply (sig_ok_ext _ _ _ _ _ _ _ Hk'); try done. intros j. rewrite (cnt_perm j _ _ (sigs_of_perm _ _ Hp)).
      unfold bump. rewrite Hcnt. case_decide; lia.
Qed.

Lemma calls_run es a :
  for_each (fun e => call (Function_ (e_handler e) (e_arg e))) es a =
    Ret (set_calls (calls a ++ map (fun e => Function_ (e_handler e) (e_arg e)) es) a, tt).
Proof.
  revert a. induction es as [|e es IH]; intros a; simpl.
  - rewrite app_nil_r. by destruct a.
  - erewrite bind_ret by done. rewrite IH. unfold set_calls. simpl. by rewrite <- app_assoc.
Qed.
Definition with_signal l : list entry := List.filter (fun e => negb (is_function e)) l.
Lemma insert_new_run a : insert_new a =
  Ret (set_calls (calls a ++ functions (new_async_events_ a))
        (set_new [] (set_events (async_events_ a ++ with_signal (new_async_events_ a)) a)), tt).
Proof. unfold insert_new. erewrite !bind_ret by done. by rewrite calls_run. Qed.
Lemma with_signal_sigs l : sigs_of (with_signal l) = sigs_of l.
Proof.
  induction l as [|e l IH]; [done|]. unfold with_signal, is_function in *. simpl.
  destruct (e_signal e) as [i|] eqn:E; simpl; [rewrite (sigs_of_cons e _ i E), (sigs_of_cons e _ i E); by f_equal|].
  rewrite IH. unfold sigs_of. simpl. by rewrite E.
Qed.
Lemma live_dead H l j : (forall e, e ∈ l -> is_Some (e_signal e)) ->
  cnt j (sigs_of l) = cnt j (sigs_of (List.filter (live H) l)) + cnt j (sigs_of (dead H l)).
Proof.
  induction l as [|e l IH]; intros Hs; [done|]. destruct (Hs e) as [i Hi]; [by left|].
  unfold dead in *. simpl. rewrite (sigs_of_cons e l i Hi), cnt_cons, IH by (intros x Hx; apply Hs; by right).
  destruct (live H e); simpl; rewrite (sigs_of_cons e _ i Hi), cnt_cons; lia.
Qed.
Lemma filter_live_ok H l : Forall entry_ok l -> Forall entry_ok (List.filter (live H) l).
Proof. rewrite !Forall_forall. intros Hl x Hx%list_elem_of_In. apply filter_In in Hx as [Hx _]. apply Hl. by apply list_elem_of_In. Qed.
Lemma kept_ok index keep l : Forall entry_ok l -> Forall entry_ok (kept index keep l).
Proof. intros Hl. unfold kept. destruct (answered index l); [|done]. destruct keep; [done|]. by apply Forall_delete. Qed.

(** Everything a round does. *)
Definition after_round (index value : Z) l w' l' a : Async :=
  mkAsync w' (wake a) (thread a) (exit_ a) (wake_entry a :: l') []
    (calls a ++ handler_calls index value l ++ functions (new_async_events_ a)).
Lemma round_run a l index value keep H W :
  async_events_ a = wake_entry a :: l -> Forall entry_ok l ->
  sig_ok (signals a) H (fun j => W j + cnt j (sigs_of l) + cnt j (sigs_of (new_async_events_ a))) W -> 0 < H (wake a) ->
  (forall i, cnt i (sigs_of (async_events_ a)) <= W i) ->
  index = minus_one \/ 0 <= index <= Z.of_nat (length l) ->
  let W' := minus W (sigs_of (async_events_ a)) in
  exists w' l', loop_round index value keep a = Ret (after_round index value l w' l' a, tt) /\
    l' ≡ₚ List.filter (live H) (kept index keep l) ++ with_signal (new_async_events_ a) /\
    sig_ok w' H (fun j => W' j + cnt j (sigs_of l')) W'.
Proof.
  intros Hl Hok Hk Hw Hc Hi W'. set (Q := fun j => cnt j (sigs_of (new_async_events_ a))).
  assert (forall j, 0 <= Q j) as HQ by (intros j; apply cnt_nonneg).
  destruct (awake_run a _ _ _ Hk) as (w1 & Hr1 & Hk1); [rewrite Hl; by apply ok_some|done|].
  fold W' in Hk1. apply (sig_ok_ext _ _ _ _ H (fun j => W' j + cnt j (sigs_of l) + Q j) W') in Hk1; [|done|unfold minus, W', Q; unfold minus; lia|done].
  destruct (dispatch_run (with_signals w1 a) l index value keep H W' Q) as (w2 & l2 & Hr2 & Hp2 & Hk2); [done..|].
  assert (Forall entry_ok l2) as Hok2 by (rewrite Hp2; by apply kept_ok).
  set (a2 := set_calls _ _) in Hr2. destruct (k_nonneg _ _ _ _ Hk2 (wake a)) as (? & ? & ?).
  destruct (sweep_run (length l2) l2 [wake_entry a] a2 H _ W' eq_refl eq_refl Hk2) as (w3 & l3 & Hr3 & Hp3 & Hk3).
  { intros e He. rewrite Forall_forall in Hok2. by apply Hok2. }
  { intros i. rewrite (live_dead H l2 i) by (intros e He; rewrite Forall_forall in Hok2; by apply Hok2).
    pose proof (cnt_nonneg i (sigs_of (List.filter (live H) l2))). specialize (HQ i). lia. }
  exists w3, (l3 ++ with_signal (new_async_events_ a)). split_and!.
  - unfold loop_round. erewrite bind_ret by exact Hr1. erewrite bind_ret by exact Hr2. erewrite bind_ret by done.
    change (Size (async_events_ a2)) with (S (length l2)).
    erewrite bind_ret; cycle 1.
    { change 0%nat with (length (@nil entry)).
      rewrite (sweep_next (length l2) [] (wake_entry a) l2 a2 H _ W' (wake a) eq_refl eq_refl Hk2) by lia.
      unfold live. simpl. rewrite (proj2 (Z.ltb_lt _ _)) by done. exact Hr3. }
    rewrite insert_new_run. unfold after_round, set_calls, set_new, set_events, with_signals, a2. simpl. by rewrite <- app_assoc.
  - by rewrite Hp3, (filter_perm (live H) _ _ Hp2).
  - apply (sig_ok_ext _ _ _ _ _ _ _ Hk3); try done. intros j. rewrite sigs_of_app, with_signal_sigs, cnt_app. unfold minus.
    rewrite (cnt_perm j _ _ (sigs_of_perm _ _ Hp3)).
    rewrite (live_dead H l2 j) by (intros e He; rewrite Forall_forall in Hok2; by apply Hok2). unfold Q. lia.
Qed.

(** ** The other calls *)

Lemma release_entries_run l a H R W : sig_ok (signals a) H R W -> (forall e, e ∈ l -> is_Some (e_signal e)) ->
  (forall i, W i + cnt i (sigs_of l) <= R i) ->
  exists w', for_each release_entry l a = Ret (with_signals w' a, tt) /\ sig_ok w' H (minus R (sigs_of l)) W.
Proof.
  revert a R. induction l as [|e l IH]; intros a R Hk Hs Hc; simpl.
  - exists (signals a). rewrite with_signals_id. split; [done|]. apply (sig_ok_ext _ _ _ _ _ _ _ Hk); try done.
    intros j. unfold minus. change (sigs_of []) with (@nil nat). rewrite cnt_nil. lia.
  - destruct (Hs e) as [i Hi]; [by left|]. rewrite (sigs_of_cons e l i Hi) in *.
    destruct (Release_ok _ _ _ _ i Hk) as (w1 & Hr1 & Hk1).
    { specialize (Hc i). rewrite cnt_cons, decide_True in Hc by done. pose proof (cnt_nonneg i (sigs_of l)). lia. }
    destruct (IH (with_signals w1 a) (bump i (-1) R)) as (w2 & Hr2 & Hk2); [done|by intros x Hx; apply Hs; right|..].
    { intros j. specialize (Hc j). rewrite cnt_cons in Hc. unfold bump. case_decide; lia. }
    exists w2. split.
    + erewrite bind_ret; [exact Hr2|]. unfold release_entry. rewrite Hi. erewrite bind_ret by done. by apply on_signals_run.
    + apply (sig_ok_ext _ _ _ _ _ _ _ Hk2); try done. intros j. unfold minus. rewrite cnt_cons. unfold bump. case_decide; lia.
Qed.
Lemma loop_end_run a l H W :
  async_events_ a = wake_entry a :: l -> Forall entry_ok l -> (forall e, e ∈ new_async_events_ a -> is_Some (e_signal e)) ->
  sig_ok (signals a) H (fun j => W j + cnt j (sigs_of l) + cnt j (sigs_of (new_async_events_ a))) W ->
  exists w', loop_end a = Ret (set_new [] (set_events [] (with_signals w' a)), tt) /\ sig_ok w' H W W.
Proof.
  intros Hl Hok Hn Hk.
  destruct (release_entries_run l a _ _ _ Hk) as (w1 & Hr1 & Hk1).
  { rewrite Forall_forall in Hok. intros e He. by apply Hok. }
  { intros i. pose proof (cnt_nonneg i (sigs_of (new_async_events_ a))). lia. }
  destruct (release_entries_run (new_async_events_ a) (set_events [] (with_signals w1 a)) _ _ _ Hk1) as (w2 & Hr2 & Hk2); [done|unfold minus; lia|].
  exists w2. split.
  - unfold loop_end. erewrite bind_ret by done. rewrite Hl. cbn [drop]. erewrite bind_ret by exact Hr1. erewrite bind_ret by done.
    erewrite bind_ret by done. by erewrite bind_ret by exact Hr2.
  - apply (sig_ok_ext _ _ _ _ _ _ _ Hk2); try done. unfold minus. lia.
Qed.

Lemma register_run uiw cpus a e H R W : thread a = true -> sig_ok (signals a) H R W -> 0 < H (wake a) ->
  (forall i, e_signal e = Some i -> 0 < H i + R i /\ H i + R i + 1 < 2 ^ 32) ->
  exists w', SetAsyncSignalHandler uiw cpus e a = Ret (set_new (new_async_events_ a ++ [e]) (with_signals w' a), tt) /\
    sig_ok w' H (fun j => R j + cnt j (sigs_of [e])) W.
Proof.
  intros Ht Hk Hw Hi. unfold SetAsyncSignalHandler.
  assert (exists w1, (match e_signal e with Some i => on_signals (Retain i) | None => ret tt end) a = Ret (with_signals w1 a, tt) /\
            sig_ok w1 H (fun j => R j + cnt j (sigs_of [e])) W) as (w1 & Hr1 & Hk1).
  { unfold sigs_of. simpl. destruct (e_signal e) as [i|] eqn:E.
    - destruct (Hi i eq_refl) as [Hp Hb]. destruct (Retain_ok _ _ _ _ i Hk Hp Hb) as (w1 & Hr1 & Hk1). exists w1.
      split; [by apply on_signals_run|]. apply (sig_ok_ext _ _ _ _ _ _ _ Hk1); try done. intros j. rewrite cnt_cons, cnt_nil. unfold bump. case_decide; lia.
    - exists (signals a). rewrite with_signals_id. split; [done|]. apply (sig_ok_ext _ _ _ _ _ _ _ Hk); try done. intros j. rewrite cnt_nil. lia. }
  destruct (k_nonneg _ _ _ _ Hk1 (wake a)) as (? & ? & ?).
  destruct (op_ok _ _ _ _ (wake a) (OpStore 1) release Hk1) as (w2 & r & Hr2 & Hk2); [lia|].
  exists w2. split; [|done].
  erewrite bind_ret by exact Hr1. erewrite bind_ret by done. cbn [thread with_signals]. rewrite Ht.
  erewrite bind_ret by done. erewrite bind_ret by done. erewrite bind_ret by done. erewrite bind_ret; cycle 1. { exact (on_signals_run _ (set_new _ (with_signals w1 a)) _ _ Hr2). } done.
Qed.
Lemma shutdown_begin_run a H R W : thread a = true -> sig_ok (signals a) H R W -> 0 < H (wake a) ->
  exists w', shutdown_begin a = Ret (set_control (wake a) (thread a) true (with_signals w' a), tt) /\ sig_ok w' H R W.
Proof.
  intros Ht Hk Hw. destruct (k_nonneg _ _ _ _ Hk (wake a)) as (? & ? & ?).
  destruct (op_ok _ _ _ _ (wake a) (OpStore 1) relaxed Hk) as (w2 & r & Hr2 & Hk2); [lia|].
  exists w2. split; [|done]. unfold shutdown_begin. erewrite bind_ret by done. rewrite Ht. erewrite bind_ret by done. erewrite bind_ret by done.
  erewrite bind_ret; cycle 1. { exact (on_signals_run _ (set_control _ _ _ a) _ _ Hr2). } by rewrite Ht.
Qed.
Lemma shutdown_end_run a H R W : thread a = true -> sig_ok (signals a) H R W -> 0 < H (wake a) ->
  exists w', shutdown_end a = Ret (set_control (wake a) false (exit_ a) (with_signals w' a), tt) /\ sig_ok w' (bump (wake a) (-1) H) R W.
Proof.
  intros Ht Hk Hw. destruct (DestroySignal_ok _ _ _ _ _ Hk Hw) as (w2 & Hr2 & Hk2).
  exists w2. split; [|done]. unfold shutdown_end. erewrite bind_ret by done. rewrite Ht. erewrite bind_ret by done. erewrite bind_ret by done.
  exact (on_signals_run _ (set_control _ _ _ a) _ _ Hr2).
Qed.
(** As written, the first registration fails its assertion. *)
Lemma lazy_initializer_fails uiw cpus a H R W : thread a = false -> sig_ok (signals a) H R W -> lazy_initializer uiw cpus a = AssertFail.
Proof.
  intros Ht Hk. unfold lazy_initializer.
  destruct (CreateSignal_ok _ _ _ _ uiw cpus 0 [] 0 Hk) as [Hr|(w' & Hr & Hk')].
  - unfold bind, on_signals. rewrite Hr. done.
  - erewrite bind_ret by (by apply on_signals_run). unfold bind, fail, modify, gets. simpl. by rewrite Ht.
Qed.

(** ** The clients, the thread and [Shutdown] *)

(** What is pending retains its signal. *)
Definition pending a : counts := fun j => cnt j (sigs_of (drop 1 (async_events_ a))) + cnt j (sigs_of (new_async_events_ a)).
(** [held]: all handles, that of [wake] included; [during]: the thread is in [WaitAnySignal]. *)
Record AClients := mkAC { async : Async; held : counts; waiting : counts; during : bool }.
Implicit Types (c : AClients).

(** [AFinish] is the end of the loop with the rest of [Shutdown]; nobody registers in between. *)
Inductive alabel :=
| AClient (lb : label) | ASet (e : entry) | ABegin | ARound (index value : Z) (keep : bool) | AStop | AFinish.

Section clients.
Context (uiw : bool) (cpus : list nat).

(** Clients do not destroy the handle of [wake] nor end a wait of the thread.  The indices are
    those that [WaitAnySignal] can answer with. *)
Definition aenabled c (lb : alabel) : Prop :=
  let a := async c in let H := held c in let W := waiting c in
  match lb with
  | AClient lb => enabled_with (pending a) (mkClients (signals a) H W) lb /\
      match lb with
      | LDestroy i => thread a = true -> i = wake a -> 1 < H i
      | LEnd l => during c = true -> forall i, cnt i l + cnt i (sigs_of (async_events_ a)) <= W i
      | _ => True
      end
  | ASet e => thread a = true /\ (e_signal e <> None -> e_handler e <> 0%nat) /\
      forall i, e_signal e = Some i -> 0 < H i + W i /\ H i + W i + pending a i + 1 < 2 ^ 32
  | ABegin => thread a = true /\ during c = false /\ exit_ a = false /\
      forall i, H i + W i + pending a i + cnt i (sigs_of (async_events_ a)) < 2 ^ 32
  | ARound index _ _ => during c = true /\ (index = minus_one \/ 0 <= index < Z.of_nat (Size (async_events_ a)))
  | AStop => thread a = true
  | AFinish => thread a = true /\ during c = false /\ exit_ a = true /\ List.filter is_function (new_async_events_ a) = []
  end.
Definition aexec (lb : alabel) c : res AClients :=
  let a := async c in let H := held c in let W := waiting c in
  match lb with
  | AClient lb => x ← exec lb (mkClients (signals a) H W); Ret (mkAC (with_signals (world x) a) (handles x) (waits x) (during c))
  | ASet e => '(a', _) ← SetAsyncSignalHandler uiw cpus e a; Ret (mkAC a' H W (during c))
  | ABegin => '(a', _) ← loop_begin a; Ret (mkAC a' H (plus W (sigs_of (async_events_ a))) true)
  | ARound index value keep => '(a', _) ← loop_round index value keep a; Ret (mkAC a' H (minus W (sigs_of (async_events_ a))) false)
  | AStop => '(a', _) ← shutdown_begin a; Ret (mkAC a' H W (during c))
  | AFinish => '(a', _) ← (loop_end ;;; shutdown_end) a; Ret (mkAC a' (bump (wake a) (-1) H) W false)
  end.
Inductive areach (create : nat -> bool) : AClients -> Prop :=
| areach_start w k : CreateSignal uiw cpus 0 [] 0 (World_new create) = Ret (w, (SUCCESS, Some k)) ->
    areach create (mkAC (Async_started w k) (bump k 1 null_counts) null_counts false)
| areach_step c lb c' : areach create c -> aenabled c lb -> aexec lb c = Ret c' -> areach create c'.

Record async_ok c : Prop := {
  a_sig : sig_ok (signals (async c)) (held c) (fun j => waiting c j + pending (async c) j) (waiting c);
  a_events : if thread (async c)
    then 0 < held c (wake (async c)) /\ exists l, async_events_ (async c) = wake_entry (async c) :: l /\ Forall entry_ok l
    else async_events_ (async c) = [] /\ new_async_events_ (async c) = [] /\ during c = false;
  a_new : Forall (fun e => e_signal e <> None -> e_handler e <> 0%nat) (new_async_events_ (async c));
  a_during : during c = true -> forall i, cnt i (sigs_of (async_events_ (async c))) <= waiting c i }.

Lemma pending_old w k t x e l cs j : pending (mkAsync w k t x (e :: l) [] cs) j = cnt j (sigs_of l).
Proof. unfold pending. simpl. rewrite drop_0. change (cnt j (sigs_of [])) with 0. lia. Qed.
Lemma pending_nonneg a j : 0 <= pending a j.
Proof. unfold pending. pose proof (cnt_nonneg j (sigs_of (drop 1 (async_events_ a)))). pose proof (cnt_nonneg j (sigs_of (new_async_events_ a))). lia. Qed.
Lemma with_signal_ok l : Forall (fun e => e_signal e <> None -> e_handler e <> 0%nat) l -> Forall entry_ok (with_signal l).
Proof.
  rewrite !Forall_forall. intros Hl x Hx%list_elem_of_In. apply filter_In in Hx as [Hx Hf]. specialize (Hl x). unfold is_function in Hf.
  destruct (e_signal x) as [i|] eqn:E; [|done]. split; [by eexists|]. apply Hl; [by apply list_elem_of_In|congruence].
Qed.
Lemma no_functions l : List.filter is_function l = [] -> forall e, e ∈ l -> is_Some (e_signal e).
Proof.
  intros Hf e He%list_elem_of_In. destruct (e_signal e) as [i|] eqn:E; [by eexists|]. exfalso.
  assert (In e (List.filter is_function l)) as Hin by (apply filter_In; split; [done|unfold is_function; by rewrite E]). by rewrite Hf in Hin.
Qed.
Lemma started_ok create w k : CreateSignal uiw cpus 0 [] 0 (World_new create) = Ret (w, (SUCCESS, Some k)) ->
  async_ok (mkAC (Async_started w k) (bump k 1 null_counts) null_counts false).
Proof.
  intros Hc. destruct (CreateSignal_ok _ _ _ _ uiw cpus 0 [] 0 (world_new_ok create)) as [Hr|(w' & Hr & Hk)]; [congruence|].
  rewrite Hc in Hr. injection Hr as <- ->. constructor; simpl; [|split; [rewrite bump_eq; done|by exists []]|done|done].
  apply (sig_ok_ext _ _ _ _ _ _ _ Hk); try done.
Qed.

Lemma exec_counts lb (cl cl' : Clients) i : exec lb cl = Ret cl' ->
  handles cl i - (match lb with LDestroy j => if decide (i = j) then 1 else 0 | _ => 0 end) <= handles cl' i /\
  waits cl i - (match lb with LEnd l => cnt i l | _ => 0 end) <= waits cl' i.
Proof.
  destruct lb as [u cs v ag at'|j|j|o order j|l|l]; simpl; intros Hx;
    match type of Hx with (?m ≫= _) = _ => destruct m as [[w r]| |]; simpl in Hx; try done end; injection Hx as <-; simpl.
  - destruct r.2; simpl; [unfold bump; case_decide; lia|lia].
  - destruct r; simpl; [unfold bump; case_decide; lia|lia].
  - unfold bump. case_decide; lia.
  - lia.
  - unfold plus. pose proof (cnt_nonneg i l). lia.
  - unfold minus. lia.
Qed.
Lemma client_ok c lb : async_ok c -> aenabled c (AClient lb) -> exists c', aexec (AClient lb) c = Ret c' /\ async_ok c'.
Proof.
  intros [Ks Ke Kn Kd] [He Hg]. destruct c as [a H W du]. simpl in *.
  destruct (exec_retained (pending a) (mkClients (signals a) H W) lb Ks (pending_nonneg a) He) as (x & Hx & Hk).
  rewrite Hx. simpl. eexists. split; [done|]. constructor; simpl; [exact Hk| |done|].
  - destruct (thread a); [|done]. destruct Ke as [Hw Hl]. split; [|exact Hl].
    destruct (exec_counts lb _ _ (wake a) Hx) as [Hh _]. simpl in Hh. destruct lb; try lia. case_decide; [|lia]. specialize (Hg eq_refl). subst. specialize (Hg eq_refl). lia.
  - intros Hdu i. destruct (exec_counts lb _ _ i Hx) as [_ Hh]. simpl in Hh. specialize (Kd Hdu i). destruct lb; try lia.
    specialize (Hg Hdu i). lia.
Qed.
(** What the thread sees of the counts. *)
Lemma started_counts c : async_ok c -> thread (async c) = true -> exists l,
  async_events_ (async c) = wake_entry (async c) :: l /\ Forall entry_ok l /\ 0 < held c (wake (async c)) /\
  (forall j, pending (async c) j = cnt j (sigs_of l) + cnt j (sigs_of (new_async_events_ (async c)))) /\
  (forall j, cnt j (sigs_of (async_events_ (async c))) = (if decide (j = wake (async c)) then 1 else 0) + cnt j (sigs_of l)).
Proof.
  intros [_ Ke _ _] Ht. rewrite Ht in Ke. destruct Ke as (Hw & l & Hl & Hok). exists l. split_and!; try done.
  - intros j. unfold pending. by rewrite Hl.
  - intros j. rewrite Hl. by rewrite (sigs_of_cons (wake_entry (async c)) l (wake (async c)) eq_refl), cnt_cons.
Qed.
Lemma set_ok c e : async_ok c -> aenabled c (ASet e) -> exists c', aexec (ASet e) c = Ret c' /\ async_ok c'.
Proof.
  intros Hk (Ht & Hh & Hi). destruct (started_counts c Hk Ht) as (l & Hl & Hok & Hw & _). destruct Hk as [Ks Ke Kn Kd]. destruct c as [a H W du]. simpl in *.
  destruct (register_run uiw cpus a e _ _ _ Ht Ks Hw) as (w' & Hr & Hk').
  { intros i Hsi. specialize (Hi i Hsi). pose proof (pending_nonneg a i). lia. }
  rewrite Hr. simpl. eexists. split; [done|]. constructor; simpl; [|by rewrite Ht; split; [|by exists l]|by apply Forall_app; split; [|apply Forall_singleton]|done].
  apply (sig_ok_ext _ _ _ _ _ _ _ Hk'); try done. intros j. unfold pending. simpl. rewrite sigs_of_app, cnt_app. lia.
Qed.
Lemma begin_ok c : async_ok c -> aenabled c ABegin -> exists c', aexec ABegin c = Ret c' /\ async_ok c'.
Proof.
  intros Hk (Ht & Hd & _ & Hb). destruct (started_counts c Hk Ht) as (l & Hl & Hok & Hw & Hp & Hc). destruct Hk as [Ks Ke Kn Kd]. destruct c as [a H W du]. simpl in *.
  destruct (begin_run a _ _ _ Ks) as (w' & p & Hr & Hk').
  - rewrite Hl. by apply ok_some.
  - intros i Hi%cnt_in. rewrite Hc in Hi. rewrite Hp. destruct (k_nonneg _ _ _ _ Ks i) as (? & ? & ?). pose proof (cnt_nonneg i (sigs_of (new_async_events_ a))).
    case_decide; [subst; pose proof (cnt_nonneg (wake a) (sigs_of l)); lia|lia].
  - intros i. specialize (Hb i). lia.
  - rewrite Hr. simpl. eexists. split; [done|]. constructor; simpl; [|by rewrite Ht; split; [|by exists l]|done|].
    + apply (sig_ok_ext _ _ _ _ _ _ _ Hk'); try done. intros j. unfold plus. simpl. change (pending (with_signals w' a) j) with (pending a j). lia.
    + intros _ i. unfold plus. destruct (k_nonneg _ _ _ _ Ks i) as (? & ? & ?). lia.
Qed.

Lemma round_ok c index value keep : async_ok c -> during c = true -> index = minus_one \/ 0 <= index < Z.of_nat (Size (async_events_ (async c))) ->
  exists l w' l', async_events_ (async c) = wake_entry (async c) :: l /\
    loop_round index value keep (async c) = Ret (after_round index value l w' l' (async c), tt) /\
    l' ≡ₚ List.filter (live (held c)) (kept index keep l) ++ with_signal (new_async_events_ (async c)) /\
    async_ok (mkAC (after_round index value l w' l' (async c)) (held c) (minus (waiting c) (sigs_of (async_events_ (async c)))) false).
Proof.
  intros Hk Hd Hi. pose proof (a_events c Hk) as Ke.
  assert (thread (async c) = true) as Ht by (destruct (thread (async c)); [done|destruct Ke as (_ & _ & ?); congruence]).
  destruct (started_counts c Hk Ht) as (l & Hl & Hok & Hw & Hp & Hc). destruct Hk as [Ks _ Kn Kd].
  destruct (round_run (async c) l index value keep (held c) (waiting c) Hl Hok) as (w' & l' & Hr & Hpl & Hk').
  { apply (sig_ok_ext _ _ _ _ _ _ _ Ks); try done. intros j. rewrite Hp. lia. }
  { done. }
  { by apply Kd. }
  { rewrite Hl in Hi. unfold Size in Hi. simpl in Hi. destruct Hi as [?|?]; [by left|right; lia]. }
  exists l, w', l'. split_and!; [done..|]. constructor; simpl.
  - apply (sig_ok_ext _ _ _ _ _ _ _ Hk'); try done. intros j. unfold after_round. by rewrite pending_old.
  - rewrite Ht. split; [done|]. exists l'. split; [done|]. rewrite Hpl. apply Forall_app. split; [by apply filter_live_ok, kept_ok|by apply with_signal_ok].
  - constructor.
  - done.
Qed.
Lemma stop_ok c : async_ok c -> aenabled c AStop -> exists c', aexec AStop c = Ret c' /\ async_ok c'.
Proof.
  intros Hk Ht. destruct (started_counts c Hk Ht) as (l & Hl & Hok & Hw & _). destruct Hk as [Ks Ke Kn Kd]. destruct c as [a H W du]. simpl in *.
  destruct (shutdown_begin_run a _ _ _ Ht Ks Hw) as (w' & Hr & Hk'). rewrite Hr. simpl. eexists. split; [done|].
  constructor; simpl; [exact Hk'|rewrite Ht; split; [done|by exists l]|done|done].
Qed.
Lemma finish_ok c : async_ok c -> aenabled c AFinish -> exists c', aexec AFinish c = Ret c' /\ async_ok c'.
Proof.
  intros Hk (Ht & Hd & _ & Hf). destruct (started_counts c Hk Ht) as (l & Hl & Hok & Hw & Hp & _). destruct Hk as [Ks Ke Kn Kd]. destruct c as [a H W du]. simpl in *.
  destruct (loop_end_run a l H W Hl Hok) as (w1 & Hr1 & Hk1).
  { by apply no_functions. }
  { apply (sig_ok_ext _ _ _ _ _ _ _ Ks); try done. intros j. rewrite Hp. lia. }
  destruct (shutdown_end_run (set_new [] (set_events [] (with_signals w1 a))) H W W Ht Hk1 Hw) as (w2 & Hr2 & Hk2).
  erewrite bind_ret by exact Hr1. rewrite Hr2. simpl. eexists. split; [done|].
  constructor; simpl; [|done|constructor|done]. apply (sig_ok_ext _ _ _ _ _ _ _ Hk2); try done. intros j. unfold pending. simpl. change (sigs_of []) with (@nil nat). rewrite cnt_nil. lia.
Qed.
Lemma aexec_ok c lb : async_ok c -> aenabled c lb -> exists c', aexec lb c = Ret c' /\ async_ok c'.
Proof.
  intros Hk He. destruct lb as [lb|e| |index value keep| |].
  - by apply client_ok.
  - by apply set_ok.
  - by apply begin_ok.
  - destruct He as [Hd Hi]. destruct (round_ok c index value keep Hk Hd Hi) as (l & w' & l' & _ & Hr & _ & Hk').
    simpl. rewrite Hr. eexists. split; done.
  - by apply stop_ok.
  - by apply finish_ok.
Qed.
Lemma areach_ok create c : areach create c -> async_ok c.
Proof.
  intros Hr. induction Hr as [w k Hc|c lb c' _ IH He Hx]; [by eapply started_ok|]. destruct (aexec_ok c lb IH He) as (c1 & Hx1 & Hk). congruence.
Qed.
End clients.



(** As written no handler can be registered: the thread is never created, and the first
    registration fails its assertion. *)
Theorem async_never_starts uiw cpus a e H R W :
  thread a = false -> sig_ok (signals a) H R W ->
  (forall i, e_signal e = Some i -> 0 < H i + R i /\ H i + R i + 1 < 2 ^ 32) ->
  SetAsyncSignalHandler uiw cpus e a = AssertFail.
Proof.
  intros Ht Hk Hi. unfold SetAsyncSignalHandler. destruct (e_signal e) as [i|] eqn:E.
  - destruct (Hi i eq_refl) as [Hp Hb]. destruct (Retain_ok _ _ _ _ i Hk Hp Hb) as (w1 & Hr1 & Hk1).
    erewrite bind_ret by (by apply on_signals_run). erewrite bind_ret by done. cbn [thread with_signals]. rewrite Ht.
    unfold bind. by rewrite (lazy_initializer_fails uiw cpus (with_signals w1 a) _ _ _ Ht Hk1).
  - erewrite bind_ret by done. erewrite bind_ret by done. rewrite Ht. unfold bind. by rewrite (lazy_initializer_fails _ _ _ _ _ _ Ht Hk).
Qed.

(** ** Registrations while the thread waits *)

Module Wakeup.

(** The loop: before its test of [exit], in [WaitAnySignal], before it resets [wake], before it takes
    the lock, before it takes the new entries. *)
Inductive lpc := LTop | LWait | LReset | LLock | LDrain | LEnded.
(** A registration: before it takes the lock, the push, the store to [wake] and the unlock. *)
Inductive spc := SStart | SPush | SStore | SUnlock | SDone.
(** [Shutdown]: before it sets [exit], before its store to [wake]. *)
Inductive tpc := TStart | TStore | TDone.
(** [fresh]: the number of new entries; [woken]: [wake] is not zero. *)
Record reg := mkReg { fresh : nat; woken : bool; leave : bool; locked : bool; loop : lpc; setters : list spc; stopper : tpc }.

Inductive Step (s : reg) : reg -> Prop :=
| l_go : loop s = LTop -> leave s = false -> Step s (mkReg (fresh s) (woken s) (leave s) (locked s) LWait (setters s) (stopper s))
| l_leave : loop s = LTop -> leave s = true -> Step s (mkReg (fresh s) (woken s) (leave s) (locked s) LEnded (setters s) (stopper s))
| l_woken : loop s = LWait -> woken s = true -> Step s (mkReg (fresh s) (woken s) (leave s) (locked s) LReset (setters s) (stopper s))
| l_other : loop s = LWait -> Step s (mkReg (fresh s) (woken s) (leave s) (locked s) LLock (setters s) (stopper s))
| l_reset : loop s = LReset -> Step s (mkReg (fresh s) false (leave s) (locked s) LLock (setters s) (stopper s))
| l_lock : loop s = LLock -> locked s = false -> Step s (mkReg (fresh s) (woken s) (leave s) true LDrain (setters s) (stopper s))
| l_drain : loop s = LDrain -> Step s (mkReg 0 (woken s) (leave s) false LTop (setters s) (stopper s))
| s_lock j : setters s !! j = Some SStart -> locked s = false -> Step s (mkReg (fresh s) (woken s) (leave s) true (loop s) (<[j := SPush]> (setters s)) (stopper s))
| s_push j : setters s !! j = Some SPush -> Step s (mkReg (S (fresh s)) (woken s) (leave s) (locked s) (loop s) (<[j := SStore]> (setters s)) (stopper s))
| s_store j : setters s !! j = Some SStore -> Step s (mkReg (fresh s) true (leave s) (locked s) (loop s) (<[j := SUnlock]> (setters s)) (stopper s))
| s_unlock j : setters s !! j = Some SUnlock -> Step s (mkReg (fresh s) (woken s) (leave s) false (loop s) (<[j := SDone]> (setters s)) (stopper s))
| t_exit : stopper s = TStart -> Step s (mkReg (fresh s) (woken s) true (locked s) (loop s) (setters s) TStore)
| t_store : stopper s = TStore -> Step s (mkReg (fresh s) true (leave s) (locked s) (loop s) (setters s) TDone).
Definition start (n : nat) : reg := mkReg 0 false false false LTop (replicate n SStart) TStart.

Definition draining (p : lpc) : Prop := p = LLock \/ p = LDrain.
Definition storing (s : reg) : Prop := exists j, setters s !! j = Some SStore.
Record reg_ok (s : reg) : Prop := {
  r_fresh : (0 < fresh s)%nat -> woken s = true \/ storing s \/ draining (loop s);
  r_leave : leave s = true -> woken s = true \/ stopper s = TStore \/ draining (loop s) \/ loop s = LTop \/ loop s = LEnded }.
Lemma storing_insert s j p q : setters s !! j = Some p -> p <> SStore -> storing s ->
  exists i, <[j := q]> (setters s) !! i = Some SStore.
Proof. intros Hj Hp [i Hi]. exists i. rewrite list_lookup_insert_ne; [done|]. intros ->. congruence. Qed.
Lemma reg_step s s' : reg_ok s -> Step s s' -> reg_ok s'.
Proof.
  unfold draining. intros [Hf Hl] Hst. destruct Hst as [Hp He|Hp He|Hp Hw|Hp|Hp|Hp Hk|Hp|j Hj Hk|j Hj|j Hj|j Hj|Hp|Hp];
    constructor; unfold draining, storing in *; simpl; intros H; try specialize (Hf H); try specialize (Hl H);
    try (naive_solver congruence); try lia.
  all: try (destruct Hf as [?|[?|?]]; [by left|right; left; by eapply storing_insert|by right; right]).
  right; left; exists j. by rewrite list_lookup_insert_eq by (by eapply lookup_lt_Some).
Qed.
Lemma reg_reach n s : rtc Step (start n) s -> reg_ok s.
Proof.
  intros Hr. refine (reachable_inv Step (fun x => x = start n) reg_ok _ reg_step s _).
  - intros ? ->. constructor; simpl; [lia|done].
  - by exists (start n).
Qed.
End Wakeup.


(** ** Witnesses *)

Definition ex_world : World := match CreateSignal true [] 0 [] 0 (World_new (fun _ => true)) with Ret (w, _) => w | _ => World_new (fun _ => true) end.
Definition ex_first : AClients := mkAC (Async_started ex_world 1) (bump 1 1 null_counts) null_counts false.
Definition ex_waiting : AClients := match aexec true [] ABegin ex_first with Ret c => c | _ => ex_first end.
Lemma ex_first_reach : areach true [] (fun _ => true) ex_first.
Proof. apply areach_start. vm_compute. reflexivity. Qed.
Lemma ex_waiting_reach : areach true [] (fun _ => true) ex_waiting.
Proof.
  eapply (areach_step _ _ _ _ ABegin); [apply ex_first_reach| |vm_compute; reflexivity].
  split_and!; [done..|]. intros i. simpl. unfold pending, bump, null_counts. simpl. change (sigs_of []) with (@nil nat).
  change (sigs_of [_]) with [1%nat]. rewrite cnt_cons, cnt_nil. case_decide; lia.
Qed.
Lemma async_never_starts_witness :
  SetAsyncSignalHandler true [] (mkEntry None 0 0 8 43) (mkAsync (World_new (fun _ => true)) 0 false false [] [] []) = AssertFail.
Proof. refine (async_never_starts true [] (mkAsync (World_new (fun _ => true)) 0 false false [] [] []) _ _ _ _ _ (world_new_ok (fun _ => true)) _); [reflexivity|discriminate]. Defined.
Definition ex_pushed : Wakeup.reg := Wakeup.mkReg 1 false false true Wakeup.LWait [Wakeup.SStore] Wakeup.TStart.
