(* ===== verification/OsEvent.v ===== *)
(** [src/core/util/lnx/os_linux.cpp]: events, as a mutex, a condition variable and a flag, and the
    creation of threads.

    A call on an event is a thread that goes through its accesses one by one.  The POSIX calls
    behave as documented: the mutex is not recursive, so its owner blocks for good on a second
    lock; [pthread_cond_timedwait] releases the mutex while it waits, may wake without a signal,
    and fails at once with [EINVAL] for a time out of range; [pthread_cond_signal] wakes one of the
    threads that wait. *)
From S2P Require Import Prelude IntMath.
Local Open Scope Z_scope.

(** ** The time limit *)

Record timespec := mkTs { tv_sec : Z; tv_nsec : Z }.
(** [sec] and [usec]: the answer of [gettimeofday]. *)
Definition deadline (sec usec milli_seconds : Z) : timespec :=
  let s := sec + milli_seconds / 1000 in
  let n := usec * 1000 + u32 (milli_seconds mod 1000 * 1000000) in
  if 1000000000 <? n then mkTs (s + 1) (n - 1000000000) else mkTs s n.
(** What [pthread_cond_timedwait] accepts. *)
Definition valid_timespec (ts : timespec) : bool := ((0 <=? tv_nsec ts) && (tv_nsec ts <? 1000000000))%bool.

Definition EINVAL : Z := 22.
Definition ETIMEDOUT : Z := 110.
(** [ret_code] after the wait. *)
Definition timed_result (ret_code : Z) : Z := if ret_code =? ETIMEDOUT then 0x14003 else ret_code.

(** ** Calls on an event *)

(** A thread before its next access.  [WSleep]: in [pthread_cond_timedwait]; [WRelock r]: woken, with
    the result [r], and about to lock the mutex again. *)
Inductive pc :=
| WStart (ms : Z) | WLock (ms : Z) | WTest (ms : Z) | WSleep | WRelock (r : Z) | WUnlock (r : Z)
| SLock | SSet | SUnlock | SSignal
| RLock | RReset | RUnlock
| Done (r : Z).
#[export] Instance pc_eq_dec : EqDecision pc.
Proof. solve_decision. Defined.

Record EventDescriptor := mkEvent { mutex : option nat; state : bool; auto_reset : bool; threads : list pc }.
#[export] Instance event_eq_dec : EqDecision EventDescriptor.
Proof. solve_decision. Defined.

(** [CreateOsEvent], with the calls to be made on the event. *)
Definition CreateOsEvent (auto_reset init_state : bool) (calls : list pc) : EventDescriptor :=
  mkEvent None init_state auto_reset calls.

Definition go (t : nat) (p : pc) (e : EventDescriptor) : EventDescriptor := mkEvent (mutex e) (state e) (auto_reset e) (<[t := p]> (threads e)).
Definition set_mutex (o : option nat) (e : EventDescriptor) : EventDescriptor := mkEvent o (state e) (auto_reset e) (threads e).
Definition set_state (b : bool) (e : EventDescriptor) : EventDescriptor := mkEvent (mutex e) b (auto_reset e) (threads e).

Definition lock (t : nat) (p : pc) (e : EventDescriptor) : list EventDescriptor :=
  match mutex e with None => [go t p (set_mutex (Some t) e)] | Some _ => [] end.
Definition unlock (t : nat) (p : pc) (e : EventDescriptor) : EventDescriptor := go t p (set_mutex None e).
(** The wait has a valid time limit unless the clock makes [tv_nsec] a full second, which takes a
    time that is not whole seconds. *)
Definition may_be_invalid (ms : Z) : bool := negb (ms mod 1000 =? 0).
(** [if (ret_code == 0 && auto_reset) state = false]. *)
Definition consume (r : Z) (e : EventDescriptor) : EventDescriptor :=
  if ((r =? 0) && auto_reset e)%bool then set_state false e else e.
Definition sleepers (e : EventDescriptor) : list nat :=
  List.filter (fun t => bool_decide (threads e !! t = Some WSleep)) (seq 0 (length (threads e))).

Definition step (t : nat) (e : EventDescriptor) : list EventDescriptor :=
  match threads e !! t with
  | None | Some (Done _) => []
  (* WaitForOsEvent *)
  | Some (WStart ms) =>
      if ms =? 0 then match mutex e with Some _ => [go t (Done 1) e] | None => [go t (WLock ms) (set_mutex (Some t) e)] end
      else [go t (WLock ms) e]
  | Some (WLock ms) => lock t (WTest ms) e
  | Some (WTest ms) =>
      if state e then [go t (WUnlock 0) (consume 0 e)]
      else if ms =? 0 then [go t (WUnlock 1) e]
      else go t WSleep (set_mutex None e) :: (if may_be_invalid ms then [go t (WUnlock EINVAL) e] else [])
  | Some WSleep => [go t (WRelock 0) e; go t (WRelock (timed_result ETIMEDOUT)) e]
  | Some (WRelock r) => match mutex e with None => [go t (WUnlock r) (consume r (set_mutex (Some t) e))] | Some _ => [] end
  | Some (WUnlock r) => [unlock t (Done r) e]
  (* SetOsEvent *)
  | Some SLock => lock t SSet e
  | Some SSet => [go t SUnlock (set_state true e)]
  | Some SUnlock => [unlock t SSignal e]
  | Some SSignal =>
      match sleepers e with
      | [] => [go t (Done 0) e]
      | l => map (fun w => go w (WRelock 0) (go t (Done 0) e)) l
      end
  (* ResetOsEvent *)
  | Some RLock => lock t RReset e
  | Some RReset => [go t RUnlock (set_state false e)]
  | Some RUnlock => [unlock t (Done 0) e]
  end.
Definition Step (e e' : EventDescriptor) : Prop := exists t, e' ∈ step t e.

(** The same without wake-ups out of nowhere and without time limits. *)
Definition quiet_step (t : nat) (e : EventDescriptor) : list EventDescriptor :=
  match threads e !! t with Some WSleep => [] | _ => step t e end.

(** ** Threads *)

Definition PTHREAD_STACK_MIN : Z := 16384.
Definition max_stack : Z := 20 * 1024 * 1024.
(** [pthread_create] is given as its result for a stack size.  The answer is the last result and the
    sizes it was called with. *)
Fixpoint grow (pthread_create : Z -> Z) (fuel : nat) (stackSize err : Z) (tried : list Z) : option (Z * list Z) :=
  if max_stack <=? stackSize then Some (err, tried)
  else
    match fuel with
    | O => None
    | S fuel =>
        let stackSize := u32 (stackSize * 2) in
        let err := pthread_create stackSize in
        if negb (err =? EINVAL) then Some (err, tried ++ [stackSize])
        else grow pthread_create fuel stackSize err (tried ++ [stackSize])
    end.
Definition os_thread (pthread_create : Z -> Z) (stackSize : Z) : res (option (Z * list Z)) :=
  size ← (if negb (stackSize =? 0) then alignUp 32 (Z.max PTHREAD_STACK_MIN stackSize) 4096 else Ret 0);
  let err := pthread_create size in
  Ret (if ((err =? EINVAL) && negb (size =? 0))%bool then grow pthread_create 16 size err [size] else Some (err, [size])).
(** [CreateThread]: whether there is a thread. *)
Definition CreateThread (pthread_create : Z -> Z) (stackSize : Z) : res (option bool) :=
  o ← os_thread pthread_create stackSize;
  Ret (match o with Some (err, _) => Some (err =? 0) | None => None end).

Example thread_example : os_thread (fun n => if n <? 100000 then EINVAL else 0) 5000 = Ret (Some (0, [16384; 32768; 65536; 131072])).
Proof. vm_compute. reflexivity. Qed.
