(* ===== verification/OsEventSpec.v ===== *)
(** Events of the operating system layer: mutual exclusion, which wake-ups are safe, the deadlock of
    a wait without time, and the exact time limit. *)
From S2P Require Import Prelude IntMath OsEvent.
Local Open Scope Z_scope.

(** ** The time limit *)

(** The time limit of a wait is exact, and normal except when the nanoseconds come to exactly one
    second, which [pthread_cond_timedwait] refuses. *)
Theorem deadline_exact sec usec ms : 0 <= usec < 10 ^ 6 -> 0 <= ms < 2 ^ 32 ->
  let ts := deadline sec usec ms in
  tv_sec ts * 10 ^ 9 + tv_nsec ts = sec * 10 ^ 9 + usec * 10 ^ 3 + ms * 10 ^ 6 /\
  (valid_timespec ts = false <-> usec * 1000 + ms mod 1000 * 10 ^ 6 = 10 ^ 9) /\
  (valid_timespec ts = false -> may_be_invalid ms = true).
Proof.
  intros Hu Hm. pose proof (Z.mod_pos_bound ms 1000 ltac:(lia)) as Hr. pose proof (Z.div_mod ms 1000 ltac:(lia)) as Hd.
  unfold deadline, valid_timespec, may_be_invalid, u32. rewrite wrap_small by (unfold fits; lia).
  destruct (Z.ltb_spec 1000000000 (usec * 1000 + ms mod 1000 * 1000000)); simpl; (split; [lia|]).
  - rewrite (proj2 (Z.leb_le _ _)), (proj2 (Z.ltb_lt _ _)) by lia. simpl. split; [split; [done|lia]|done].
  - rewrite (proj2 (Z.leb_le _ _)) by lia. simpl. rewrite Z.ltb_ge. split; [lia|].
    intros Hv. destruct (Z.eqb_spec (ms mod 1000) 0); [lia|done].
Qed.
Lemma deadline_exact_witness : valid_timespec (deadline 7 999000 1) = false.
Proof. apply (deadline_exact 7 999000 1); [lia|lia|reflexivity]. Defined.

(** ** The mutex *)

Implicit Types (e : EventDescriptor) (t u : nat) (p : pc).

(** A thread that has the mutex; with no time to wait, from its first access on. *)
Definition owns p : bool :=
  match p with
  | WLock ms => ms =? 0
  | WTest _ | WUnlock _ | SSet | SUnlock | RReset | RUnlock => true
  | _ => false
  end.
Definition starts p : Prop := (exists ms, p = WStart ms) \/ p = SLock \/ p = RLock.
Definition event_ok e : Prop := forall t p, threads e !! t = Some p -> owns p = true <-> mutex e = Some t.

Lemma at_same t p e q : threads e !! t = Some q -> threads (go t p e) !! t = Some p.
Proof. intros Ht. simpl. by rewrite list_lookup_insert_eq by (by eapply lookup_lt_Some). Qed.
Lemma at_other t p e u : u <> t -> threads (go t p e) !! u = threads e !! u.
Proof. intros Hn. simpl. by rewrite list_lookup_insert_ne. Qed.
(** A move of one thread that takes, keeps or gives back the mutex. *)
Lemma os_moved_ok t p q o b e : event_ok e -> threads e !! t = Some q ->
  (owns p = true <-> o = Some t) -> (forall u, u <> t -> mutex e = Some u <-> o = Some u) ->
  event_ok (go t p (set_mutex o (set_state b e))).
Proof.
  intros Hk Ht Ho Hu u r Hr. simpl in *. destruct (decide (u = t)) as [->|Hn].
  - rewrite list_lookup_insert_eq in Hr by (by eapply lookup_lt_Some). injection Hr as <-. exact Ho.
  - rewrite list_lookup_insert_ne in Hr by done. rewrite (Hk u r Hr). by apply Hu.
Qed.
Lemma woken_ok e w r : event_ok e -> threads e !! w = Some WSleep -> event_ok (go w (WRelock r) e).
Proof.
  intros Hk Hw. pose proof (Hk w WSleep Hw) as Hm. simpl in Hm.
  replace (go w (WRelock r) e) with (go w (WRelock r) (set_mutex (mutex e) (set_state (state e) e))) by (by destruct e).
  apply (os_moved_ok w _ WSleep); [done|done|exact Hm|done].
Qed.
Lemma elem_sleepers e w : w ∈ sleepers e <-> threads e !! w = Some WSleep.
Proof.
  unfold sleepers. rewrite list_elem_of_In, filter_In, bool_decide_eq_true. split; [by intros [_ ?]|].
  intros Hw. split; [|done]. apply in_seq. apply lookup_lt_Some in Hw. lia.
Qed.

(** Every step but the wake-up of another thread is such a move. *)
Definition moves t e e' : Prop := exists p o b, e' = go t p (set_mutex o (set_state b e)) /\
  (owns p = true <-> o = Some t) /\ (forall u, u <> t -> mutex e = Some u <-> o = Some u).
Lemma take_moves t p b e : mutex e = None -> owns p = true -> moves t e (go t p (set_mutex (Some t) (set_state b e))).
Proof. intros Hm Hp. exists p, (Some t), b. split_and!; [done|by rewrite Hp|]. intros u Hu. rewrite Hm. split; congruence. Qed.
Lemma give_moves t p b e : mutex e = Some t -> owns p = false -> moves t e (go t p (set_mutex None (set_state b e))).
Proof. intros Hm Hp. exists p, None, b. split_and!; [done|rewrite Hp; split; congruence|]. intros u Hu. rewrite Hm. split; congruence. Qed.
Lemma keep_moves t p b e : (owns p = true <-> mutex e = Some t) -> moves t e (go t p (set_state b e)).
Proof. intros Hp. exists p, (mutex e), b. by destruct e. Qed.
Lemma step_moves t q e e' : event_ok e -> threads e !! t = Some q -> e' ∈ step t e ->
  moves t e e' \/ (q = SSignal /\ exists w, threads e !! w = Some WSleep /\ e' = go w (WRelock 0) (go t (Done 0) e)).
Proof.
  intros Hk Ht He. pose proof (Hk t q Ht) as Hq. unfold step, lock, unlock, consume in He. rewrite Ht in He.
  destruct q as [ms|ms|ms| |r|r| | | | | | | |r]; simpl in Hq.
  - left. destruct (ms =? 0) eqn:E; [destruct (mutex e) eqn:Em|]; apply list_elem_of_singleton in He as ->.
    + apply (keep_moves t _ (state e)). simpl. rewrite Em. done.
    + apply (take_moves t (WLock ms) (state e)); done.
    + apply (keep_moves t _ (state e)). simpl. by rewrite E.
  - left. destruct (mutex e) eqn:Em; [by apply elem_of_nil in He|]. apply list_elem_of_singleton in He as ->. by apply (take_moves t (WTest ms) (state e)).
  - left. destruct (state e); [|destruct (ms =? 0)].
    + apply list_elem_of_singleton in He as ->. simpl. destruct (auto_reset e); [by apply (keep_moves t _ false)|by apply (keep_moves t _ (state e))].
    + apply list_elem_of_singleton in He as ->. by apply (keep_moves t _ (state e)).
    + apply elem_of_cons in He as [->|He]; [apply (give_moves t WSleep (state e)); [by apply Hq|done]|].
      destruct (may_be_invalid ms); [|by apply elem_of_nil in He]. apply list_elem_of_singleton in He as ->. by apply (keep_moves t _ (state e)).
  - left. apply elem_of_cons in He as [->| ->%list_elem_of_singleton]; by apply (keep_moves t _ (state e)).
  - left. destruct (mutex e) eqn:Em; [by apply elem_of_nil in He|]. apply list_elem_of_singleton in He as ->.
    destruct ((r =? 0) && auto_reset _)%bool; [by apply (take_moves t (WUnlock r) false)|by apply (take_moves t (WUnlock r) (state e))].
  - left. apply list_elem_of_singleton in He as ->. apply (give_moves t _ (state e)); [by apply Hq|done].
  - left. destruct (mutex e) eqn:Em; [by apply elem_of_nil in He|]. apply list_elem_of_singleton in He as ->. by apply (take_moves t SSet (state e)).
  - left. apply list_elem_of_singleton in He as ->. by apply (keep_moves t _ true).
  - left. apply list_elem_of_singleton in He as ->. apply (give_moves t _ (state e)); [by apply Hq|done].
  - assert (e' = go t (Done 0) e \/ exists w, w ∈ sleepers e /\ e' = go w (WRelock 0) (go t (Done 0) e)) as [->|(w & Hw & ->)].
    { destruct (sleepers e) as [|s l] eqn:E; [left; by apply list_elem_of_singleton in He|]. right.
      apply list_elem_of_In, in_map_iff in He as (w & <- & Hw). exists w. split; [by apply list_elem_of_In|done]. }
    + left. by apply (keep_moves t _ (state e)).
    + right. split; [done|]. exists w. by apply elem_sleepers in Hw.
  - left. destruct (mutex e) eqn:Em; [by apply elem_of_nil in He|]. apply list_elem_of_singleton in He as ->. by apply (take_moves t RReset (state e)).
  - left. apply list_elem_of_singleton in He as ->. by apply (keep_moves t _ false).
  - left. apply list_elem_of_singleton in He as ->. apply (give_moves t _ (state e)); [by apply Hq|done].
  - by apply elem_of_nil in He.
Qed.
Lemma os_step_ok e e' : event_ok e -> Step e e' -> event_ok e'.
Proof.
  intros Hk [t He]. destruct (threads e !! t) as [q|] eqn:Ht; [|unfold step in He; rewrite Ht in He; by apply elem_of_nil in He].
  destruct (step_moves t q e e' Hk Ht He) as [(p & o & b & -> & Hp & Ho)|(-> & w & Hw & ->)]; [by eapply os_moved_ok|].
  assert (w <> t) by congruence. apply woken_ok; [|by rewrite at_other].
  apply (os_moved_ok t (Done 0) SSignal (mutex e) (state e) e); [done|done| |done]. specialize (Hk t _ Ht). done.
Qed.
Lemma create_ok ar b l : Forall starts l -> event_ok (CreateOsEvent ar b l).
Proof.
  intros Hl t p Ht. simpl in *. rewrite Forall_lookup in Hl. destruct (Hl t p Ht) as [[ms ->]|[->| ->]]; done.
Qed.
Lemma event_reach ar b l e : Forall starts l -> rtc Step (CreateOsEvent ar b l) e -> event_ok e.
Proof.
  intros Hl Hr. refine (reachable_inv Step (fun x => x = CreateOsEvent ar b l) event_ok _ os_step_ok e _).
  - intros ? ->. by apply create_ok.
  - by exists (CreateOsEvent ar b l).
Qed.

(** ** Waits without time *)

Lemma zero_stuck e t : event_ok e -> threads e !! t = Some (WLock 0) -> forall e', rtc Step e e' ->
  event_ok e' /\ threads e' !! t = Some (WLock 0).
Proof.
  intros Hk Ht e' Hr. revert Hk Ht. induction Hr as [|e e1 e' Hst Hr IH]; intros Hk Ht; [done|].
  apply IH; [by eapply os_step_ok|]. destruct Hst as [u He]. pose proof (proj1 (Hk t _ Ht) eq_refl) as Hm.
  destruct (decide (u = t)) as [->|Hn].
  { unfold step, lock in He. rewrite Ht, Hm in He. by apply elem_of_nil in He. }
  destruct (threads e !! u) as [q|] eqn:Hu; [|unfold step in He; rewrite Hu in He; by apply elem_of_nil in He].
  destruct (step_moves u q e e1 Hk Hu He) as [(p & o & b & -> & _)|(-> & w & Hw & ->)].
  - by rewrite at_other.
  - by rewrite !at_other by congruence.
Qed.

(** A wait with no time that finds the mutex free never returns: it locks the mutex a second
    time, and from then on no other call gets it. *)
Theorem os_wait_zero_deadlocks ar b l e t :
  Forall starts l -> rtc Step (CreateOsEvent ar b l) e -> threads e !! t = Some (WStart 0) -> mutex e = None ->
  exists e1, step t e = [e1] /\
    forall e', rtc Step e1 e' -> threads e' !! t = Some (WLock 0) /\ mutex e' = Some t /\ step t e' = [].
Proof.
  intros Hl Hr Ht Hm. pose proof (event_reach _ _ _ _ Hl Hr) as Hk.
  set (e1 := go t (WLock 0) (set_mutex (Some t) e)).
  assert (step t e = [e1]) as Hs by (unfold step; by rewrite Ht, Hm). exists e1. split; [done|]. intros e' Hr'.
  assert (threads e1 !! t = Some (WLock 0)) as Ht1 by (by eapply (at_same t _ (set_mutex (Some t) e))).
  destruct (zero_stuck e1 t) with (e' := e') as [Hk' Ht']; [|done|done|].
  { apply (os_step_ok e); [done|]. exists t. rewrite Hs. by left. }
  pose proof (proj1 (Hk' t _ Ht') eq_refl) as Hm'. split_and!; [done|done|]. unfold step, lock. by rewrite Ht', Hm'.
Qed.
Lemma os_wait_zero_deadlocks_witness : exists e1, step 0 (CreateOsEvent true true [WStart 0; SLock]) = [e1] /\ step 0 e1 = [].
Proof.
  destruct (os_wait_zero_deadlocks true true [WStart 0; SLock] (CreateOsEvent true true [WStart 0; SLock]) 0) as (e1 & Hs & H);
    [|apply rtc_refl|reflexivity|reflexivity|].
  - apply Forall_cons. split; [by left; exists 0|apply Forall_singleton; by right; left].
  - exists e1. split; [exact Hs|]. apply (H e1), rtc_refl.
Defined.

(** ** Wake-ups *)

(** A setter or a waiter that was woken is still on its way. *)
Definition coming e : Prop := exists u p, threads e !! u = Some p /\ (p = SUnlock \/ p = SSignal \/ p = WRelock 0).
Definition awake_ok e : Prop := auto_reset e = true /\ event_ok e /\
  (state e = true -> (exists w, threads e !! w = Some WSleep) -> coming e).
Lemma coming_other t p e : coming e -> (forall q, threads e !! t = Some q -> q <> SUnlock /\ q <> SSignal /\ q <> WRelock 0) ->
  coming (go t p e).
Proof.
  intros (u & q & Hu & Hq) Ht. exists u, q. split; [|done]. rewrite at_other; [done|]. intros ->. destruct (Ht q Hu) as (? & ? & ?). naive_solver.
Qed.
Lemma sleeper_before t p e w : threads (go t p e) !! w = Some WSleep -> p <> WSleep -> threads e !! w = Some WSleep.
Proof.
  simpl. intros Hw Hp. destruct (decide (w = t)) as [->|Hn]; [|by rewrite list_lookup_insert_ne in Hw].
  destruct (decide (t < length (threads e))%nat) as [Hl|Hl].
  - rewrite list_lookup_insert_eq in Hw by done. congruence.
  - rewrite list_insert_ge in Hw by lia. done.
Qed.
Lemma same_coming t p o e :
  (forall q, threads e !! t = Some q -> q <> SUnlock /\ q <> SSignal /\ q <> WRelock 0) -> p <> WSleep ->
  (state e = true -> (exists w, threads e !! w = Some WSleep) -> coming e) ->
  state (go t p (set_mutex o e)) = true -> (exists w, threads (go t p (set_mutex o e)) !! w = Some WSleep) -> coming (go t p (set_mutex o e)).
Proof.
  intros Hq Hp Hk Hs [w Hw]. apply coming_other; [|exact Hq]. apply Hk; [exact Hs|]. exists w. exact (sleeper_before t p (set_mutex o e) w Hw Hp).
Qed.
Lemma now_coming t p e q : threads e !! t = Some q -> p = SUnlock \/ p = SSignal \/ p = WRelock 0 -> coming (go t p e).
Proof. intros Ht Hp. exists t, p. split; [by eapply at_same|done]. Qed.
Ltac no_coming Ht := intros ? ?; rewrite Ht in *; simplify_eq; done.
Lemma awake_moves t q e e' : auto_reset e = true -> threads e !! t = Some q -> e' ∈ step t e ->
  (state e = true -> (exists w, threads e !! w = Some WSleep) -> coming e) ->
  auto_reset e' = true /\ (state e' = true -> (exists w, threads e' !! w = Some WSleep) -> coming e').
Proof.
  intros Ha Ht He Hk. unfold step, lock, unlock, consume in He. rewrite Ht in He.
  destruct q as [ms|ms|ms| |r|r| | | | | | | |r].
  - destruct (ms =? 0); [destruct (mutex e)|]; apply list_elem_of_singleton in He as ->; (split; [done|]).
    + refine (same_coming t _ (mutex e) e _ _ Hk); [no_coming Ht|done].
    + refine (same_coming t _ _ e _ _ Hk); [no_coming Ht|done].
    + refine (same_coming t _ (mutex e) e _ _ Hk); [no_coming Ht|done].
  - destruct (mutex e); [by apply elem_of_nil in He|]. apply list_elem_of_singleton in He as ->. split; [done|].
    refine (same_coming t _ _ e _ _ Hk); [no_coming Ht|done].
  - destruct (state e) eqn:Es; [|destruct (ms =? 0)].
    + apply list_elem_of_singleton in He as ->. rewrite Ha. done.
    + apply list_elem_of_singleton in He as ->. simpl. rewrite Es. done.
    + apply elem_of_cons in He as [->|He]; [simpl; rewrite Es; done|]. destruct (may_be_invalid ms); [|by apply elem_of_nil in He].
      apply list_elem_of_singleton in He as ->. simpl. rewrite Es. done.
  - apply elem_of_cons in He as [->|He].
    + split; [done|]. intros _ _. eapply now_coming; [exact Ht|by right; right].
    + apply list_elem_of_singleton in He as ->. split; [done|]. refine (same_coming t _ (mutex e) e _ _ Hk); [no_coming Ht|done].
  - destruct (mutex e); [by apply elem_of_nil in He|]. apply list_elem_of_singleton in He as ->. change (auto_reset (set_mutex (Some t) e)) with (auto_reset e). rewrite Ha. destruct (Z.eqb_spec r 0) as [->|Hr]; [done|].
    split; [done|]. refine (same_coming t _ _ e _ _ Hk); [intros ? ?; rewrite Ht in *; simplify_eq; naive_solver congruence|done].
  - apply list_elem_of_singleton in He as ->. split; [done|]. refine (same_coming t _ None e _ _ Hk); [no_coming Ht|done].
  - destruct (mutex e); [by apply elem_of_nil in He|]. apply list_elem_of_singleton in He as ->. split; [done|]. refine (same_coming t _ _ e _ _ Hk); [no_coming Ht|done].
  - apply list_elem_of_singleton in He as ->. split; [done|]. intros _ _. eapply now_coming; [exact Ht|by left].
  - apply list_elem_of_singleton in He as ->. split; [done|]. intros _ _. eapply now_coming; [exact Ht|by right; left].
  - destruct (sleepers e) as [|s l] eqn:E.
    + apply list_elem_of_singleton in He as ->. split; [done|]. intros _ [w Hw]. apply sleeper_before in Hw; [|done]. apply elem_sleepers in Hw.
      rewrite E in Hw. by apply elem_of_nil in Hw.
    + apply list_elem_of_In, in_map_iff in He as (w & <- & Hw). split; [done|]. intros _ _.
      assert (threads e !! w = Some WSleep) as Hws by (apply elem_sleepers, list_elem_of_In; rewrite E; done).
      eapply (now_coming w (WRelock 0) (go t (Done 0) e) WSleep); [|by right; right]. rewrite at_other; [done|congruence].
  - destruct (mutex e); [by apply elem_of_nil in He|]. apply list_elem_of_singleton in He as ->. split; [done|]. refine (same_coming t _ _ e _ _ Hk); [no_coming Ht|done].
  - apply list_elem_of_singleton in He as ->. done.
  - apply list_elem_of_singleton in He as ->. split; [done|]. refine (same_coming t _ None e _ _ Hk); [no_coming Ht|done].
  - by apply elem_of_nil in He.
Qed.

(** With an event that resets itself nobody sleeps on while it is set, for any number of waits,
    sets and resets: then a call of [SetOsEvent] is about to wake a thread, or one is awake. *)
Theorem os_auto_reset_wakes b l e w :
  Forall starts l -> rtc Step (CreateOsEvent true b l) e -> state e = true -> threads e !! w = Some WSleep -> coming e.
Proof.
  intros Hl Hr Hs Hw.
  assert (auto_reset e = true /\ (state e = true -> (exists w, threads e !! w = Some WSleep) -> coming e)) as [_ H]; [|by apply H; [|exists w]].
  refine (reachable_inv Step (fun x => x = CreateOsEvent true b l) (fun e => auto_reset e = true /\ (state e = true -> (exists w, threads e !! w = Some WSleep) -> coming e)) _ _ e _).
  - intros ? ->. split; [done|]. intros _ [u Hu]. simpl in Hu. rewrite Forall_lookup in Hl. destruct (Hl u _ Hu) as [[ms ?]|[?|?]]; done.
  - intros x y [Ha Hk] [t He]. destruct (threads x !! t) as [q|] eqn:Ht; [by eapply awake_moves|]. unfold step in He. rewrite Ht in He. by apply elem_of_nil in He.
  - by exists (CreateOsEvent true b l).
Qed.
Definition quiet (e : EventDescriptor) : list EventDescriptor := flat_map (fun t => quiet_step t e) (seq 0 (length (threads e))).
Lemma quiet_Step e e' : e' ∈ quiet e -> Step e e'.
Proof.
  intros (t & _ & He)%list_elem_of_In%in_flat_map. exists t. unfold quiet_step in He. apply list_elem_of_In in He.
  destruct (threads e !! t) as [[]|]; try done. by apply elem_of_nil in He.
Qed.
Lemma quiet_reach e e' : bool_decide (e' ∈ explore quiet 2000 [] [e]) = true -> rtc Step e e'.
Proof.
  intros Hin%bool_decide_eq_true. eapply (rtc_subrel (fun x y => y ∈ quiet x)); [intros x y; apply quiet_Step|].
  eapply (explore_sound quiet e 2000 [] [e]); [|exact Hin]. intros y Hy%list_elem_of_singleton. subst y. apply rtc_refl.
Qed.
Lemma os_auto_reset_wakes_witness : coming (mkEvent None true true [WSleep; SSignal]).
Proof.
  refine (os_auto_reset_wakes false [WStart 1000; SLock] (mkEvent None true true [WSleep; SSignal]) 0 _ _ eq_refl eq_refl).
  - apply Forall_cons. split; [by left; exists 1000|apply Forall_singleton; by right; left].
  - apply quiet_reach. vm_compute. reflexivity.
Defined.

(** But one [SetOsEvent] can satisfy two waits of such an event, since a woken thread does not
    look at the state; and of an event that stays set it wakes only one of the threads that
    sleep, the others sleep on though the event is set. *)
Theorem os_event_wakes_wrong :
  (exists e, rtc Step (CreateOsEvent true false [WStart 1000; WStart 1000; SLock]) e /\ threads e = [Done 0; Done 0; Done 0]) /\
  (exists e, rtc Step (CreateOsEvent false false [WStart 1000; WStart 1000; SLock]) e /\
     threads e = [Done 0; WSleep; Done 0] /\ state e = true /\ quiet e = []).
Proof.
  split.
  - exists (mkEvent None false true [Done 0; Done 0; Done 0]). split; [|done]. apply quiet_reach. vm_compute. reflexivity.
  - exists (mkEvent None true false [Done 0; WSleep; Done 0]). split; [|done]. apply quiet_reach. vm_compute. reflexivity.
Qed.

(** ** Threads *)

Lemma grow_returns create fuel size err tried : 0 < size < 2 ^ 31 -> max_stack <= size * 2 ^ Z.of_nat fuel ->
  exists r, grow create fuel size err tried = Some r.
Proof.
  revert size err tried. induction fuel as [|fuel IH]; intros size err tried Hs Hm; simpl; destruct (Z.leb_spec max_stack size) as [Hle|Hlt]; eauto.
  - rewrite Z.mul_1_r in Hm. lia.
  - unfold u32. unfold max_stack in *. rewrite wrap_small by (unfold fits; lia). destruct (negb _); [eauto|]. apply IH; [lia|].
    rewrite Nat2Z.inj_succ, Z.pow_succ_r in Hm by lia. lia.
Qed.
(** Creating a thread returns, whatever [pthread_create] answers: the stack is doubled at most
    until it has 20 MiB. *)
Theorem create_thread_returns create stackSize : 0 <= stackSize < 2 ^ 32 - 4096 ->
  exists r, CreateThread create stackSize = Ret (Some r).
Proof.
  intros Hs. unfold CreateThread, os_thread. destruct (Z.eqb_spec stackSize 0) as [->|Hn]; cbn [negb mbind res_bind].
  { rewrite andb_false_r. by eexists. }
  destruct (alignUp_least 32 (Z.max PTHREAD_STACK_MIN stackSize) 12) as (size & Hr & _ & Hb & _);
    [lia|lia|unfold fits, PTHREAD_STACK_MIN; lia|unfold PTHREAD_STACK_MIN; lia|].
  change (2 ^ 12) with 4096 in Hr. rewrite Hr. cbn [mbind res_bind]. destruct (_ && _)%bool; [|by eexists].
  destruct (decide (size < 2 ^ 31)) as [Hlt|Hge].
  - assert (16384 <= size) by (unfold PTHREAD_STACK_MIN in Hb; lia).
    destruct (grow_returns create 16 size (create size) [size]) as [[err l] Hg]; [lia|change (2 ^ Z.of_nat 16) with 65536; unfold max_stack; lia|].
    rewrite Hg. by eexists.
  - cbn [grow]. rewrite (proj2 (Z.leb_le _ _)) by (unfold max_stack; lia). by eexists.
Qed.
Lemma create_thread_returns_witness : exists r, CreateThread (fun _ => EINVAL) 1 = Ret (Some r).
Proof. apply (create_thread_returns (fun _ => EINVAL) 1). lia. Defined.
