(* ===== verification/KernelLocks.v ===== *)
(** The locks over the operating system layer: [KernelMutex] and [KernelEvent] of
    [include/util/locks.h], joining a thread ([os_thread::Wait] of [src/core/util/lnx/os_linux.cpp]),
    and [lazy_coptr] of [include/util/lazy_coptr.h], which makes its object at first use.

    A mutex is its owner; a thread that finds it taken waits.  Each access is a step. *)
From S2P Require Import Prelude OsEvent.
Local Open Scope Z_scope.

(** ** Mutexes *)

(** [None] of [Acquire]: the thread waits. *)
Definition TryAcquireMutex (t : nat) (lock : option nat) : bool * option nat :=
  match lock with None => (true, Some t) | Some _ => (false, lock) end.
Definition AcquireMutex (t : nat) (lock : option nat) : option (bool * option nat) :=
  match lock with None => Some (true, Some t) | Some _ => None end.
Definition ReleaseMutex (lock : option nat) : option nat := None.
Definition KernelMutex_Try := TryAcquireMutex.
Definition KernelMutex_Acquire := AcquireMutex.
Definition KernelMutex_Release := ReleaseMutex.

(** ** [KernelEvent]: an event that resets itself and begins set *)

Definition KernelEvent_new (calls : list OsEvent.pc) : EventDescriptor := CreateOsEvent true true calls.
Definition KernelEvent_IsSet : OsEvent.pc := WStart 0.
Definition KernelEvent_WaitForSet : OsEvent.pc := WStart 0xFFFFFFFF.
Definition KernelEvent_Set : OsEvent.pc := SLock.
Definition KernelEvent_Reset : OsEvent.pc := RLock.
(** [... == 0] of the answer. *)
Definition KernelEvent_answer (p : OsEvent.pc) : option bool := match p with OsEvent.Done r => Some (r =? 0) | _ => None end.

(** ** Joining a thread *)

Module Join.
Inductive pc := Start | Lock | Test | Joining | Unlock (success : bool) | Done (success : bool).
(** [ended]: the thread's function has returned; [joins]: how often [pthread_join] has been called
    with success. *)
Record os_thread := mkThread { lock : option nat; finished : bool; ended : bool; joins : nat; threads : list pc }.
Definition new (n : nat) : os_thread := mkThread None false false 0 (replicate n Start).
Definition go (t : nat) (q : pc) (o : option nat) (s : os_thread) : os_thread :=
  mkThread o (finished s) (ended s) (joins s) (<[t := q]> (threads s)).

(** Joining a thread a second time is not defined: the call is taken to fail. *)
Definition step (t : nat) (s : os_thread) : list os_thread :=
  match threads s !! t with
  | Some Start => [go t (if finished s then Done true else Lock) (lock s) s]
  | Some Lock => match AcquireMutex t (lock s) with Some (_, o) => [go t Test o s] | None => [] end
  | Some Test => [go t (if finished s then Unlock true else Joining) (lock s) s]
  | Some Joining =>
      if negb (ended s) then []
      else if (joins s =? 0)%nat then [mkThread (lock s) true (ended s) (S (joins s)) (<[t := Unlock true]> (threads s))]
      else [go t (Unlock false) (lock s) s]
  | Some (Unlock r) => [go t (Done r) (ReleaseMutex (lock s)) s]
  | _ => []
  end.
Inductive Step (s : os_thread) : os_thread -> Prop :=
| s_step t s' : s' ∈ step t s -> Step s s'
| s_end : Step s (mkThread (lock s) (finished s) true (joins s) (threads s)).
End Join.

(** ** [lazy_coptr] *)

Module Lazy.
(** A thread in [operator->] or [operator*] ([block]), or in [touch]; [Thrown]: the constructor threw. *)
Inductive pc :=
| Created (block : bool) | Lock (block : bool) | Test (block : bool) | Construct (block : bool) | Assign (block : bool) (ptr : option nat)
| Clear (block : bool) | Unlock (block : bool) (thrown : bool) | Read | Done (obj : option nat) | Touched | Thrown.
(** [func]: whether there is a constructor still; [made]: how many objects it has returned. *)
Record lazy_coptr := mkLazy { obj : option nat; func : bool; lock : option nat; made : list (option nat); threads : list pc }.
Definition new (calls : list pc) : lazy_coptr := mkLazy None true None [] calls.
Definition go (t : nat) (q : pc) (s : lazy_coptr) : lazy_coptr := mkLazy (obj s) (func s) (lock s) (made s) (<[t := q]> (threads s)).
Definition set_lock (o : option nat) (s : lazy_coptr) : lazy_coptr := mkLazy (obj s) (func s) o (made s) (threads s).
Definition after (block : bool) : pc := if block then Read else Touched.

(** [results]: what the constructor may return, null included; it may throw at every call. *)
Inductive step (results : option nat -> Prop) (t : nat) (s : lazy_coptr) : lazy_coptr -> Prop :=
| s_created b : threads s !! t = Some (Created b) -> step results t s (go t (if func s then Lock b else after b) s)
| s_lock b : threads s !! t = Some (Lock b) -> lock s = None -> step results t s (go t (Test b) (set_lock (Some t) s))
| s_busy u : threads s !! t = Some (Lock false) -> lock s = Some u -> step results t s (go t Touched s)
| s_test b : threads s !! t = Some (Test b) -> step results t s (go t (if func s then Construct b else Unlock b false) s)
| s_throw b : threads s !! t = Some (Construct b) -> step results t s (go t (Unlock b true) s)
| s_construct b p : threads s !! t = Some (Construct b) -> results p ->
    step results t s (go t (Assign b p) (mkLazy (obj s) (func s) (lock s) (made s ++ [p]) (threads s)))
| s_assign b p : threads s !! t = Some (Assign b p) -> step results t s (go t (Clear b) (mkLazy p (func s) (lock s) (made s) (threads s)))
| s_clear b : threads s !! t = Some (Clear b) -> step results t s (go t (Unlock b false) (mkLazy (obj s) false (lock s) (made s) (threads s)))
| s_unlock b th : threads s !! t = Some (Unlock b th) -> step results t s (go t (if th then Thrown else after b) (set_lock None s))
| s_read : threads s !! t = Some Read -> step results t s (go t (Done (obj s)) s).
Definition Step (results : option nat -> Prop) (s s' : lazy_coptr) : Prop := exists t, step results t s s'.
(** [created], [empty], and the assertion of [operator->]. *)
Definition created (s : lazy_coptr) : bool := negb (func s).
Definition empty (s : lazy_coptr) : bool := match obj s with None => true | Some _ => false end.
Definition arrow (o : option nat) : res nat := deref o.
End Lazy.
