(* ===== verification/KernelLocksSpec.v ===== *)
(** Locks over the operating system layer: an object made at first use is made once and seen by
    all, a thread is joined once, and a [KernelEvent] cannot be asked whether it is set. *)
From S2P Require Import Prelude OsEvent OsEventSpec KernelLocks.
Local Open Scope Z_scope.

(** ** Exclusion, for any kind of thread *)

Section excl.
Context {P : Type} (inside : P -> bool).
(** The thread inside is the owner of the lock. *)
Definition excl (lock : option nat) (ts : list P) : Prop := forall t q, ts !! t = Some q -> inside q = true <-> lock = Some t.
Lemma excl_keep lock ts t q q' : excl lock ts -> ts !! t = Some q -> inside q' = inside q -> excl lock (<[t := q']> ts).
Proof.
  intros He Ht Hq u x Hu. destruct (decide (t = u)) as [<-|Hn].
  - rewrite list_lookup_insert_eq in Hu by (by eapply lookup_lt_Some). injection Hu as <-. rewrite Hq. by apply He.
  - rewrite list_lookup_insert_ne in Hu by done. by apply He.
Qed.
Lemma excl_take ts t q q' : excl None ts -> ts !! t = Some q -> inside q' = true -> excl (Some t) (<[t := q']> ts).
Proof.
  intros He Ht Hq u x Hu. destruct (decide (t = u)) as [<-|Hn].
  - rewrite list_lookup_insert_eq in Hu by (by eapply lookup_lt_Some). injection Hu as <-. done.
  - rewrite list_lookup_insert_ne in Hu by done. rewrite (He u x Hu). split; congruence.
Qed.
Lemma excl_give lock ts t q q' : excl lock ts -> ts !! t = Some q -> inside q = true -> inside q' = false -> excl None (<[t := q']> ts).
Proof.
  intros He Ht Hq Hq' u x Hu. destruct (decide (t = u)) as [<-|Hn].
  - rewrite list_lookup_insert_eq in Hu by (by eapply lookup_lt_Some). injection Hu as <-. rewrite Hq'. done.
  - rewrite list_lookup_insert_ne in Hu by done. rewrite (He u x Hu), (proj1 (He t q Ht) Hq). split; congruence.
Qed.
Lemma excl_one lock ts t u q q' : excl lock ts -> ts !! t = Some q -> ts !! u = Some q' -> inside q = true -> inside q' = true -> t = u.
Proof. intros He Ht Hu Hq Hq'. apply (He t q Ht) in Hq. apply (He u q' Hu) in Hq'. congruence. Qed.
End excl.
(** What a lookup in an updated list of threads can be. *)
Lemma updated {P} (ts : list P) t (q q' : P) u x : ts !! t = Some q -> <[t := q']> ts !! u = Some x -> (u = t /\ x = q') \/ (u <> t /\ ts !! u = Some x).
Proof.
  intros Ht Hu. destruct (decide (t = u)) as [<-|Hn].
  - rewrite list_lookup_insert_eq in Hu by (by eapply lookup_lt_Some). injection Hu as <-. by left.
  - rewrite list_lookup_insert_ne in Hu by done. by right.
Qed.

(** ** [lazy_coptr] *)

Module Lazy.
Import KernelLocks.Lazy.
Implicit Types (s : lazy_coptr) (q : pc) (t : nat).

Definition inside q : bool := match q with Test _ | Construct _ | Assign _ _ | Clear _ | Unlock _ _ => true | _ => false end.
(** What a thread knows. *)
Definition knows s q : Prop :=
  match q with
  | Construct _ => func s = true /\ made s = []
  | Assign _ p => func s = true /\ made s = [p]
  | Clear _ => func s = true /\ made s = [obj s]
  | Unlock _ false | Read => func s = false
  | Done o => func s = false /\ obj s = o
  | _ => True
  end.
Definition making q : bool := match q with Assign _ _ | Clear _ => true | _ => false end.
Record lazy_ok (results : option nat -> Prop) s : Prop := {
  l_excl : excl inside (lock s) (threads s);
  l_knows : forall t q, threads s !! t = Some q -> knows s q;
  l_set : func s = false -> made s = [obj s];
  l_unset : func s = true -> (forall t q, threads s !! t = Some q -> making q = false) -> made s = [];
  l_made : forall p, p ∈ made s -> results p }.

Lemma inside_others s t u q q' : excl inside (lock s) (threads s) -> threads s !! t = Some q -> inside q = true ->
  threads s !! u = Some q' -> u <> t -> inside q' = false.
Proof. intros He Ht Hq Hu Hn. destruct (inside q') eqn:E; [|done]. destruct Hn. symmetry. by eapply excl_one. Qed.
(** A step that changes neither the object nor the constructor. *)
Lemma quiet_ok results s t q q' o : lazy_ok results s -> threads s !! t = Some q -> making q = false -> knows s q' -> making q' = false ->
  excl inside o (<[t := q']> (threads s)) -> lazy_ok results (go t q' (set_lock o s)).
Proof.
  intros [He Hk Hs Hu Hm] Ht Hq Hkn Hq' Hex. constructor; cbn [go set_lock obj func lock made threads]; [done| |done| |done].
  - intros u x Hx. destruct (updated _ _ _ _ _ _ Ht Hx) as [[_ ->]|[_ Hx']]; [exact Hkn|]. exact (Hk u x Hx').
  - intros Hf Hn. apply Hu; [done|]. intros u x Hx. destruct (decide (u = t)) as [->|Hne]; [rewrite Ht in Hx; by simplify_eq|].
    apply (Hn u). by rewrite list_lookup_insert_ne.
Qed.
Lemma lazy_step_ok results s s' : lazy_ok results s -> Step results s s' -> lazy_ok results s'.
Proof.
  intros Hs [t Hst]. pose proof Hs as [He Hk Hset Hunset Hm].
  assert (forall x, set_lock (lock x) x = x) as Hid by (by intros []).
  destruct Hst as [b Ht|b Ht Hl|u Ht Hl|b Ht|b Ht|b p Ht Hp|b p Ht|b Ht|b th Ht|Ht]; pose proof (Hk t _ Ht) as Hkn; simpl in Hkn.
  - rewrite <- (Hid s) at 2. eapply quiet_ok; [done|done|done| | |].
    + destruct (func s) eqn:Ef; [done|]. by destruct b.
    + by destruct (func s), b.
    + eapply excl_keep; [done|done|]. by destruct (func s), b.
  - eapply quiet_ok; [done|done|done|done|done|]. rewrite Hl in He. by eapply excl_take.
  - rewrite <- (Hid s). eapply quiet_ok; [done|done|done|done|done|]. by eapply excl_keep.
  - rewrite <- (Hid s) at 2. eapply quiet_ok; [done|done|done| | |].
    + destruct (func s) eqn:Ef; [|done]. split; [done|]. apply Hunset; [done|]. intros u x Hx.
      destruct (decide (u = t)) as [->|Hn]; [rewrite Ht in Hx; by simplify_eq|].
      pose proof (inside_others s t u _ x He Ht eq_refl Hx Hn). by destruct x.
    + by destruct (func s).
    + eapply excl_keep; [done|done|]. by destruct (func s).
  - rewrite <- (Hid s). eapply quiet_ok; [done|done|done|done|done|]. by eapply excl_keep.
  - destruct Hkn as [Hf Hmd]. constructor; cbn [go obj func lock made threads].
    + by eapply excl_keep.
    + intros u x Hx. destruct (updated _ _ _ _ _ _ Ht Hx) as [[_ ->]|[Hn Hx']]; [split; [done|by rewrite Hmd]|].
      pose proof (inside_others s t u _ x He Ht eq_refl Hx' Hn). pose proof (Hk u x Hx') as Hkx. by destruct x as [| | | | | |? []| | | |].
    + congruence.
    + intros _ Hn. specialize (Hn t (Assign b p)). rewrite list_lookup_insert_eq in Hn by (by eapply lookup_lt_Some). by specialize (Hn eq_refl).
    + intros x [Hx| ->%list_elem_of_singleton]%elem_of_app; [by apply Hm|done].
  - destruct Hkn as [Hf Hmd]. constructor; cbn [go obj func lock made threads].
    + by eapply excl_keep.
    + intros u x Hx. destruct (updated _ _ _ _ _ _ Ht Hx) as [[_ ->]|[Hn Hx']]; [done|].
      pose proof (inside_others s t u _ x He Ht eq_refl Hx' Hn). pose proof (Hk u x Hx') as Hkx.
      destruct x as [| | | | | |? []| | | |]; try done. simpl in Hkx. destruct Hkx. congruence.
    + congruence.
    + intros _ Hn. specialize (Hn t (Clear b)). rewrite list_lookup_insert_eq in Hn by (by eapply lookup_lt_Some). by specialize (Hn eq_refl).
    + done.
  - destruct Hkn as [Hf Hmd]. constructor; cbn [go obj func lock made threads].
    + by eapply excl_keep.
    + intros u x Hx. destruct (updated _ _ _ _ _ _ Ht Hx) as [[_ ->]|[Hn Hx']]; [done|].
      pose proof (inside_others s t u _ x He Ht eq_refl Hx' Hn). pose proof (Hk u x Hx') as Hkx.
      destruct x as [| | | | | |? []| | | |]; try done. simpl in Hkx. destruct Hkx. congruence.
    + done.
    + done.
    + done.
  - eapply quiet_ok; [done|done|done| | |].
    + destruct th; [done|]. by destruct b.
    + by destruct th, b.
    + eapply excl_give; [done|done|done|]. by destruct th, b.
  - rewrite <- (Hid s) at 2. eapply quiet_ok; [done|done|done|done|done|]. by eapply excl_keep.
Qed.

(** C38: However threads use a [lazy_coptr] for the first time, the constructor returns once, every
    thread that comes out of [operator->] or [operator*] has what it returned, and [created] says
    that it is there; a thread that waits for the lock waits for one that can go on. *)
Theorem lazy_once (results : option nat -> Prop) (blocks : list bool) s :
  rtc (Step results) (new (Created <$> blocks)) s ->
  (forall t o, threads s !! t = Some (Done o) -> made s = [o] /\ results o) /\
  (created s = true -> made s = [obj s]) /\ (length (made s) <= 1)%nat /\
  (forall t b u, threads s !! t = Some (Lock b) -> lock s = Some u -> (exists p, results p) -> (u < length (threads s))%nat -> exists s', step results u s s').
Proof.
  intros Hr. assert (lazy_ok results s) as Hs.
  { assert (lazy_ok results (new (Created <$> blocks))) as H.
    { assert (forall t q, (Created <$> blocks) !! t = Some q -> exists b, q = Created b) as Hc.
      { intros t q Ht. rewrite list_lookup_fmap in Ht. apply fmap_Some in Ht as (b & _ & ->). by exists b. }
      constructor; simpl; [| |done|done|intros p ?%elem_of_nil; done]; intros t q Ht; by destruct (Hc t q Ht) as [b ->]. }
    revert H. induction Hr as [s|s s1 s' Hst _ IH]; [done|]. intros H. apply IH. by eapply lazy_step_ok. }
  destruct Hs as [He Hk Hset Hunset Hm]. split_and!.
  - intros t o Ht. destruct (Hk t _ Ht) as [Hf <-]. split; [by apply Hset|]. apply Hm. rewrite (Hset Hf). by left.
  - unfold created. intros Hf%negb_true_iff. by apply Hset.
  - destruct (func s) eqn:Ef; [|by rewrite Hset]. destruct (existsb making (threads s)) eqn:Ex.
    + apply existsb_exists in Ex as (q & (t & Ht)%list_elem_of_In%list_elem_of_lookup & Hq). pose proof (Hk t q Ht) as H. destruct q; try done; simpl in H; destruct H as [_ ->]; done.
    + rewrite Hunset; [simpl; lia|done|]. intros t q Ht. destruct (making q) eqn:E; [|done].
      assert (existsb making (threads s) = true); [|congruence]. apply existsb_exists. exists q. split; [|done].
      apply list_elem_of_In. by eapply list_elem_of_lookup_2.
  - intros t b u Ht Hl [p Hp] Hu. destruct (lookup_lt_is_Some_2 _ _ Hu) as [q Hq]. pose proof (proj2 (He u q Hq) Hl) as Hi.
    destruct q; try done; eexists; [by eapply s_test|by eapply s_throw|by eapply s_assign|by eapply s_clear|by eapply s_unlock].
Qed.

Lemma lazy_once_witness : exists s, rtc (Step (fun p => p = Some 7%nat)) (new (Created <$> [true; false])) s /\
  threads s = [Done (Some 7%nat); Touched] /\ made s = [Some 7%nat].
Proof.
  set (s := mkLazy (Some 7%nat) false None [Some 7%nat] [Done (Some 7%nat); Touched]).
  assert (rtc (Step (fun p => p = Some 7%nat)) (new (Created <$> [true; false])) s) as Hr.
  { eapply rtc_l; [exists 0%nat; by eapply s_created|]. eapply rtc_l; [exists 0%nat; by eapply s_lock|]. eapply rtc_l; [exists 1%nat; by eapply s_created|].
    eapply rtc_l; [exists 1%nat; by eapply s_busy|]. eapply rtc_l; [exists 0%nat; by eapply s_test|]. eapply rtc_l; [exists 0%nat; by eapply s_construct|].
    eapply rtc_l; [exists 0%nat; by eapply s_assign|]. eapply rtc_l; [exists 0%nat; by eapply s_clear|]. eapply rtc_l; [exists 0%nat; by eapply s_unlock|].
    eapply rtc_l; [exists 0%nat; by eapply s_read|]. apply rtc_refl. }
  exists s. split; [exact Hr|]. split; [reflexivity|].
  exact (proj1 (proj1 (lazy_once (fun p => p = Some 7%nat) [true; false] s Hr) 0%nat (Some 7%nat) eq_refl)).
Defined.
End Lazy.

(** ** Joining a thread *)

Module Join.
Import KernelLocks.Join.
Implicit Types (s : os_thread) (q : pc) (t : nat).

Definition inside q : bool := match q with Test | Joining | Unlock _ => true | _ => false end.
Definition knows s q : Prop :=
  match q with Joining => finished s = false | Unlock r | Done r => r = true /\ finished s = true | _ => True end.
Record join_ok s : Prop := {
  j_excl : excl inside (lock s) (threads s);
  j_knows : forall t q, threads s !! t = Some q -> knows s q;
  j_once : joins s = if finished s then 1%nat else 0%nat;
  j_ended : finished s = true -> ended s = true }.
Lemma join_step_ok s s' : join_ok s -> Step s s' -> join_ok s'.
Proof.
  intros [He Hk Ho Hend] [t s1 Hin|]; [|constructor; simpl; try done; auto]. unfold step in Hin.
  destruct (threads s !! t) as [q|] eqn:Ht; [|by apply elem_of_nil in Hin]. pose proof (Hk t q Ht) as Hkn.
  assert (forall q' o, excl inside o (<[t := q']> (threads s)) -> knows s q' -> join_ok (go t q' o s)) as Hgo.
  { intros q' o Hex Hkn'. constructor; cbn [go lock finished ended joins threads]; [done| |done|done].
    intros u x Hx. destruct (updated _ _ _ _ _ _ Ht Hx) as [[_ ->]|[_ Hx']]; [exact Hkn'|]. exact (Hk u x Hx'). }
  destruct q; simpl in Hkn; try (by apply elem_of_nil in Hin).
  - apply list_elem_of_singleton in Hin as ->. apply Hgo; [eapply excl_keep; [done|done|by destruct (finished s)]|by destruct (finished s) eqn:E].
  - destruct (lock s) eqn:El; [by apply elem_of_nil in Hin|]. apply list_elem_of_singleton in Hin as ->. apply Hgo; [by eapply excl_take|done].
  - apply list_elem_of_singleton in Hin as ->. apply Hgo; [eapply excl_keep; [done|done|by destruct (finished s)]|by destruct (finished s) eqn:E].
  - rewrite Hkn in Ho. rewrite Ho in Hin. destruct (ended s) eqn:Een; cbn [negb Nat.eqb] in Hin; [|by apply elem_of_nil in Hin].
    apply list_elem_of_singleton in Hin as ->. constructor; cbn [lock finished ended joins threads]; [by eapply excl_keep| |done|done].
    intros u x Hx. destruct (updated _ _ _ _ _ _ Ht Hx) as [[_ ->]|[Hn Hx']]; [done|]. pose proof (Hk u x Hx') as Hkx.
    destruct x; try done.
    + destruct Hn. symmetry. by eapply (excl_one inside).
    + by destruct Hkx.
    + by destruct Hkx.
  - apply list_elem_of_singleton in Hin as ->. apply Hgo; [by eapply excl_give|done].
Qed.

(** Any number of threads may wait for one thread: it is joined once, every wait that returns
    says so, and only after the thread has ended. *)
Theorem join_once (n : nat) s : rtc Step (new n) s ->
  (joins s <= 1)%nat /\ forall t r, threads s !! t = Some (Done r) -> r = true /\ joins s = 1%nat /\ ended s = true.
Proof.
  intros Hr. assert (join_ok s) as [He Hk Ho Hend].
  { assert (join_ok (new n)) as H by (constructor; simpl; [intros t q [-> _]%lookup_replicate|intros t q [-> _]%lookup_replicate| |]; done).
    revert H. induction Hr as [s|s s1 s' Hst _ IH]; [done|]. intros H. apply IH. by eapply join_step_ok. }
  split; [rewrite Ho; destruct (finished s); lia|]. intros t r Ht. destruct (Hk t _ Ht) as [-> Hf]. rewrite Ho, Hf. split_and!; [done|done|by apply Hend].
Qed.
Lemma join_once_witness : exists s, rtc Step (new 1) s /\ threads s = [Done true] /\ joins s = 1%nat.
Proof.
  set (s := mkThread None true true 1 [Done true]).
  assert (rtc Step (new 1) s) as Hr.
  { eapply rtc_l; [by eapply (s_step _ 0), list_elem_of_singleton|]. eapply rtc_l; [by eapply (s_step _ 0), list_elem_of_singleton|].
    eapply rtc_l; [by eapply (s_step _ 0), list_elem_of_singleton|]. eapply rtc_l; [by eapply s_end|].
    eapply rtc_l; [by eapply (s_step _ 0), list_elem_of_singleton|]. eapply rtc_l; [by eapply (s_step _ 0), list_elem_of_singleton|]. apply rtc_refl. }
  exists s. split; [exact Hr|]. split; [reflexivity|]. exact (proj1 (proj2 (proj2 (join_once 1 s Hr) 0%nat true eq_refl))).
Defined.
End Join.

(** ** [KernelEvent] *)

Definition asking (e : EventDescriptor) (t : nat) : Prop :=
  threads e !! t = Some (WStart 0) \/ (threads e !! t = Some (WLock 0) /\ mutex e = Some t) \/ threads e !! t = Some (OsEvent.Done 1).
(** [IsSet] never answers that the event is set: it says no when the mutex is taken, and
    otherwise never returns. *)
Theorem kernel_event_is_set_never calls e t r : Forall starts calls -> calls !! t = Some KernelEvent_IsSet ->
  rtc Step (KernelEvent_new calls) e -> threads e !! t = Some r -> KernelEvent_answer r <> Some true.
Proof.
  intros Hl Hc Hr Ht. assert (event_ok e /\ asking e t) as [_ Ha].
  { refine (reachable_inv Step (fun x => x = KernelEvent_new calls) (fun x => event_ok x /\ asking x t) _ _ e _).
    - intros ? ->. split; [by apply create_ok|]. by left.
    - intros x y [Hk Ha] Hst. split; [by eapply os_step_ok|]. destruct Hst as [u Hy].
      destruct (threads x !! u) as [q|] eqn:Hu; [|unfold step in Hy; rewrite Hu in Hy; by apply elem_of_nil in Hy].
      destruct (decide (u = t)) as [->|Hn].
      + unfold step, lock in Hy. destruct Ha as [Ha|[[Ha Hm]|Ha]]; rewrite Ha in Hy; cbn [Z.eqb] in Hy.
        * destruct (mutex x) eqn:Em; apply list_elem_of_singleton in Hy as ->.
          -- right. right. by eapply at_same.
          -- right. left. split; [by eapply (at_same t _ (set_mutex (Some t) x))|done].
        * rewrite Hm in Hy. by apply elem_of_nil in Hy.
        * by apply elem_of_nil in Hy.
      + destruct (step_moves u q x y Hk Hu Hy) as [(p & o & b & -> & Hp & Ho)|(-> & w & Hw & ->)].
        * assert (threads (go u p (set_mutex o (set_state b x))) !! t = threads x !! t) as E by (by apply (at_other u p (set_mutex o (set_state b x)))).
          unfold asking. rewrite E. destruct Ha as [Ha|[[Ha Hm]|Ha]]; [by left|right; left|by right; right].
          split; [done|]. simpl. apply Ho; [done|done].
        * assert (w <> t) as Hwt. { intros ->. destruct Ha as [Ha|[[Ha _]|Ha]]; congruence. }
          assert (threads (go w (WRelock 0) (go u (OsEvent.Done 0) x)) !! t = threads x !! t) as E by (rewrite at_other by done; by apply at_other).
          unfold asking. rewrite E. by destruct Ha as [Ha|[[Ha Hm]|Ha]]; [left|right; left|right; right].
    - by exists (KernelEvent_new calls). }
  intros Hans. destruct Ha as [Ha|[[Ha _]|Ha]]; rewrite Ht in Ha; simplify_eq; done.
Qed.
Lemma kernel_event_is_set_never_witness : KernelEvent_answer (WStart 0) <> Some true.
Proof.
  apply (kernel_event_is_set_never [KernelEvent_IsSet] (KernelEvent_new [KernelEvent_IsSet]) 0 (WStart 0));
    [apply Forall_singleton; left; exists 0; reflexivity|reflexivity|apply rtc_refl|reflexivity].
Defined.
