(* ===== verification/ConnectionPool.v ===== *)
(** [src/pool/ConnectionPool.h]: a pool that hands out at most [maxConnection_] connections and
    keeps the idle ones in a channel.

    The channel is used by its specification, the line of values of [LockedChannel.v]
    ([LockedChannel.channel_refines]); the pool never closes it.  Connections are numbers in the
    order of their creation.  A thread is in at most one call, whose accesses to [count_] and the
    channel are its steps; what the factory and the two checks answer is up to the environment,
    and [Delete] is one step, since nothing reads what its deleter does. *)
From S2P Require Import Prelude RingBuf LockedChannel.
Local Open Scope Z_scope.

Definition conn : Type := nat.

(** A thread before its next access: in [Get] (or the timed [Get]), holding a connection, in the
    deleter of its pointer, in [Reserve].  [GFailed]: [Get] returned a null pointer. *)
Inductive pc :=
| Idle
| GTry | GCheck (c : conn) | GDelete (c : conn) | GInc | GDec | GFactory | GPop | GWait | GFailed
| Hold (c : conn) | PPush (c : conn) | PDelete (c : conn)
| RCount | RTest (i : Z) | RInc (i : Z) | RDec | RFactory (i : Z) | RPush (i : Z) (c : conn).

Record ConnectionPool := mkPool {
  count_ : Z; maxConnection_ : Z; maxIdleConnection_ : Z; channel_ : Line conn;
  made : nat; gone : list conn; threads : list pc }.

Definition ConnectionPool_new (maxConnection maxIdleConnection : Z) (n : nat) : ConnectionPool :=
  mkPool 0 maxConnection (if maxIdleConnection =? 0 then maxConnection else maxIdleConnection)
    (mkLine false [] [] [] ∅) 0 [] (replicate n Idle).

Definition go (t : nat) (q : pc) (p : ConnectionPool) : ConnectionPool :=
  mkPool (count_ p) (maxConnection_ p) (maxIdleConnection_ p) (channel_ p) (made p) (gone p) (<[t := q]> (threads p)).
Definition set_count (z : Z) (p : ConnectionPool) : ConnectionPool :=
  mkPool z (maxConnection_ p) (maxIdleConnection_ p) (channel_ p) (made p) (gone p) (threads p).
Definition set_channel (a : Line conn) (p : ConnectionPool) : ConnectionPool :=
  mkPool (count_ p) (maxConnection_ p) (maxIdleConnection_ p) a (made p) (gone p) (threads p).

(** [Delete]. *)
Definition Delete (c : conn) (p : ConnectionPool) : ConnectionPool :=
  mkPool (u64 (count_ p - 1)) (maxConnection_ p) (maxIdleConnection_ p) (channel_ p) (made p) (gone p ++ [c]) (threads p).
(** [factory_()] that makes a connection. *)
Definition Factory (p : ConnectionPool) : ConnectionPool :=
  mkPool (count_ p) (maxConnection_ p) (maxIdleConnection_ p) (channel_ p) (S (made p)) (gone p) (threads p).
(** [++count_ > maxConnection_] of [CreateOne]. *)
Definition CreateOne_full (p : ConnectionPool) : bool := maxConnection_ p <? u64 (count_ p + 1).

Definition TryPop (t : nat) (p : ConnectionPool) : option (option conn) * Line conn := line_pop t false false (channel_ p).
Definition Pop (t : nat) (dl : bool) (p : ConnectionPool) : option (option conn) * Line conn := line_pop t true dl (channel_ p).
Definition TryPush (t : nat) (c : conn) (p : ConnectionPool) : option bool * Line conn :=
  line_push (maxIdleConnection_ p) t c false false (channel_ p).

Inductive step (t : nat) (p : ConnectionPool) : ConnectionPool -> Prop :=
(* Get *)
| s_get : threads p !! t = Some Idle -> step t p (go t GTry p)
| s_try c a : threads p !! t = Some GTry -> TryPop t p = (Some (Some c), a) -> step t p (go t (GCheck c) (set_channel a p))
| s_try_empty a : threads p !! t = Some GTry -> TryPop t p = (Some None, a) -> step t p (go t GInc (set_channel a p))
| s_alive c : threads p !! t = Some (GCheck c) -> step t p (go t (Hold c) p)
| s_dead c : threads p !! t = Some (GCheck c) -> step t p (go t (GDelete c) p)
| s_delete c : threads p !! t = Some (GDelete c) -> step t p (go t GTry (Delete c p))
| s_inc : threads p !! t = Some GInc -> step t p (go t (if CreateOne_full p then GDec else GFactory) (set_count (u64 (count_ p + 1)) p))
| s_dec : threads p !! t = Some GDec -> step t p (go t GPop (set_count (u64 (count_ p - 1)) p))
| s_made : threads p !! t = Some GFactory -> step t p (go t (Hold (made p)) (Factory p))
| s_null : threads p !! t = Some GFactory -> step t p (go t GPop p)
| s_pop dl c a : threads p !! t = Some GPop -> Pop t dl p = (Some (Some c), a) -> step t p (go t (GCheck c) (set_channel a p))
| s_wait dl a : threads p !! t = Some GPop -> Pop t dl p = (None, a) -> step t p (go t GWait (set_channel a p))
| s_got c a : threads p !! t = Some GWait -> line_resume t (channel_ p) = Some (true, Some c, a) -> step t p (go t (GCheck c) (set_channel a p))
| s_timeout a : threads p !! t = Some GWait -> line_expire t (channel_ p) = Some a -> step t p (set_channel a p)
| s_failed o a : threads p !! t = Some GWait -> line_resume t (channel_ p) = Some (false, o, a) -> step t p (go t GFailed (set_channel a p))
(* the deleter of the pointer that Get returned *)
| s_put c : threads p !! t = Some (Hold c) -> step t p (go t (PPush c) p)
| s_bad c : threads p !! t = Some (Hold c) -> step t p (go t (PDelete c) p)
| s_push c a : threads p !! t = Some (PPush c) -> TryPush t c p = (Some true, a) -> step t p (go t Idle (set_channel a p))
| s_full c a : threads p !! t = Some (PPush c) -> TryPush t c p = (Some false, a) -> step t p (go t (PDelete c) (set_channel a p))
| s_put_delete c : threads p !! t = Some (PDelete c) -> step t p (go t Idle (Delete c p))
(* Reserve *)
| s_reserve : threads p !! t = Some Idle -> step t p (go t RCount p)
| s_count : threads p !! t = Some RCount -> step t p (go t (RTest (count_ p)) p)
| s_more i : threads p !! t = Some (RTest i) -> step t p (go t (if i <? maxIdleConnection_ p then RInc i else Idle) p)
| s_rinc i : threads p !! t = Some (RInc i) -> step t p (go t (if CreateOne_full p then RDec else RFactory i) (set_count (u64 (count_ p + 1)) p))
| s_rdec : threads p !! t = Some RDec -> step t p (go t Idle (set_count (u64 (count_ p - 1)) p))
| s_rmade i : threads p !! t = Some (RFactory i) -> step t p (go t (RPush i (made p)) (Factory p))
| s_rnull i : threads p !! t = Some (RFactory i) -> step t p (go t Idle p)
| s_rpush i c a : threads p !! t = Some (RPush i c) -> TryPush t c p = (Some true, a) -> step t p (go t (RTest (i + 1)) (set_channel a p))
| s_rfull i c a : threads p !! t = Some (RPush i c) -> TryPush t c p = (Some false, a) -> step t p (go t (PDelete c) (set_channel a p)).
Definition Step (p p' : ConnectionPool) : Prop := exists t, step t p p'.

(** [~ConnectionPool], when no call is under way. *)
Fixpoint destroy (fuel : nat) (p : ConnectionPool) : ConnectionPool :=
  match fuel with
  | O => p
  | S fuel =>
      match TryPop 0 p with
      | (Some (Some c), a) => destroy fuel (Delete c (set_channel a p))
      | _ => p
      end
  end.
