(* ===== verification/ConnectionPoolSpec.v ===== *)
(** The connection pool: every connection is in one place, there are never more than the maximum,
    and two ways to wait for ever. *)
From S2P Require Import Prelude RingBuf LockedChannel ConnectionPool.
Local Open Scope Z_scope.
Implicit Types (t r : nat) (c : conn) (q : pc) (k : call (T:=conn)) (P : conn -> bool) (o : option conn).

(** ** Counting connections *)

Definition w P o : Z := match o with Some c => if P c then 1 else 0 | None => 0 end.
Definition among P (l : list conn) : Z := sumZ (fun c => w P (Some c)) l.
Definition slots P (cs : gmap nat (call (T:=conn))) : Z := sumZ (fun x => w P (slot x.2)) (map_to_list cs).
(** The connection a thread has in its hands. *)
Definition hand q : option conn :=
  match q with GCheck c | GDelete c | Hold c | PPush c | PDelete c | RPush _ c => Some c | _ => None end.
Definition hands P (qs : list pc) : Z := sumZ (fun q => w P (hand q)) qs.

#[local] Arguments w : simpl never.

Lemma w_nonneg P o : 0 <= w P o.
Proof. unfold w. destruct o as [c|]; [destruct (P c)|]; lia. Qed.
Lemma sumZ_perm {A} (f : A -> Z) l l' : l ≡ₚ l' -> sumZ f l = sumZ f l'.
Proof. unfold sumZ. induction 1 as [|x l l' _ IH|x y l|l l' l'' _ IH1 _ IH2]; simpl; [done|by rewrite IH|lia|by rewrite IH1]. Qed.
Lemma w_none P : w P None = 0.
Proof. done. Qed.
Lemma among_app P l l' : among P (l ++ l') = among P l + among P l'.
Proof. unfold among, sumZ. induction l as [|x l IH]; cbn [app foldr]; [done|]. rewrite IH. lia. Qed.
Lemma among_one P c : among P [c] = w P (Some c).
Proof. unfold among, sumZ. simpl. lia. Qed.
Lemma slots_insert P cs t k : cs !! t = None -> slots P (<[t := k]> cs) = w P (slot k) + slots P cs.
Proof. intros Hn. unfold slots. by rewrite (sumZ_perm _ _ _ (map_to_list_insert cs t k Hn)). Qed.
Lemma slots_delete P cs t k : cs !! t = Some k -> slots P cs = w P (slot k) + slots P (delete t cs).
Proof. intros Hs. unfold slots. rewrite <- (sumZ_perm _ _ _ (map_to_list_delete cs t k Hs)). done. Qed.
Lemma slots_replace P cs t k k' : cs !! t = Some k -> slots P (<[t := k']> cs) = slots P cs - w P (slot k) + w P (slot k').
Proof.
  intros Hs. rewrite (slots_delete P cs t k Hs), <- insert_delete_eq, slots_insert by apply lookup_delete_eq. lia.
Qed.
Lemma hands_go P t q q' (qs : list pc) : qs !! t = Some q -> hands P (<[t := q']> qs) = hands P qs - w P (hand q) + w P (hand q').
Proof. intros Ht. unfold hands. by apply (sumZ_insert (fun q => w P (hand q))). Qed.

(** Where the connections that [P] selects are. *)
Definition places P (p : ConnectionPool) : Z :=
  among P (a_buf (channel_ p)) + slots P (a_calls (channel_ p)) + hands P (threads p) + among P (gone p).

(** ** The invariant *)

Definition any : conn -> bool := fun _ => true.
(** Threads between their successful [++count_] and the factory, and between a failed one and
    [--count_]. *)
Definition making q : Z := match q with GFactory | RFactory _ => 1 | _ => 0 end.
Definition failing q : Z := match q with GDec | RDec => 1 | _ => 0 end.
Definition existing (p : ConnectionPool) : Z := Z.of_nat (made p) - Z.of_nat (length (gone p)).

Record chan_ok (a : Line conn) (qs : list pc) (cap : Z) : Prop := {
  c_open : a_closed a = false /\ a_writers a = [];
  c_readers : NoDup (a_readers a) /\ forall r, r ∈ a_readers a -> exists k, a_calls a !! r = Some k /\ cst k = Waiting;
  c_calls : forall t k, a_calls a !! t = Some k -> qs !! t = Some GWait /\ (slot k <> None <-> cst k = Notified);
  c_cap : Z.of_nat (length (a_buf a)) <= cap }.
Record pool_ok (p : ConnectionPool) : Prop := {
  p_places : forall P, places P p = among P (seq 0 (made p));
  p_count : existing p + sumZ making (threads p) <= count_ p - sumZ failing (threads p) <= maxConnection_ p;
  p_width : Z.of_nat (length (threads p)) + maxConnection_ p < 2 ^ 64 - 1 /\ 0 <= maxConnection_ p;
  p_chan : chan_ok (channel_ p) (threads p) (maxIdleConnection_ p) }.

(** ** The channel operations *)

Lemma among_nonneg P l : 0 <= among P l.
Proof. apply sumZ_nonneg. intros. apply w_nonneg. Qed.
Lemma chan_other a qs cap t q q' : chan_ok a qs cap -> qs !! t = Some q -> q <> GWait -> chan_ok a (<[t := q']> qs) cap.
Proof.
  intros [Ho Hr Hc Hcap] Ht Hq. constructor; [done|done| |done]. intros u k Hu. destruct (Hc u k Hu) as [Hg Hs]. split; [|done].
  rewrite list_lookup_insert_ne; [done|]. intros ->. congruence.
Qed.
Lemma conn_push_ok a qs cap t c q a' b : chan_ok a qs cap -> qs !! t = Some q -> q <> GWait ->
  line_push cap t c false false a = (Some b, a') ->
  chan_ok a' qs cap /\ forall P, among P (a_buf a') + slots P (a_calls a') = among P (a_buf a) + slots P (a_calls a) + (if b then w P (Some c) else 0).
Proof.
  intros [[Ho Hw] [Hnd Hr] Hc Hcap] Ht Hq Hp. unfold line_push in Hp. rewrite Ho in Hp. destruct (a_readers a) as [|r rs] eqn:Er.
  - destruct (Z.ltb_spec (Z.of_nat (length (a_buf a))) cap) as [Hlt|Hge]; simplify_eq.
    + split.
      * constructor; simpl; [done|split; [constructor|intros r ?%elem_of_nil; done]|done|]. rewrite length_app. simpl. lia.
      * intros P. simpl. rewrite among_app, among_one. lia.
    + split; [constructor; try done; rewrite Er; done|]. intros P. lia.
  - simplify_eq. destruct (Hr r) as (k & Hk & Hs); [by left|]. apply NoDup_cons in Hnd as [Hrs Hnd].
    destruct (Hc r k Hk) as [Hg Hn]. assert (slot k = None) as Hsl. { destruct (slot k); [|done]. assert (cst k = Notified) by (by apply Hn). congruence. }
    unfold deliver. split.
    + constructor; simpl; [done| | |done].
      * split; [done|]. intros u Hu. destruct (Hr u) as (k' & Hk' & Hs'); [by right|]. exists k'. rewrite lookup_alter_ne; [done|]. intros ->. done.
      * intros u k' Hu. rewrite lookup_alter in Hu. case_decide as E; [subst u|by apply Hc].
        rewrite Hk in Hu. injection Hu as <-. split; [done|]. simpl. split; done.
    + intros P. simpl. assert (alter (fun k => mkCall (timed k) (Some c) Notified) r (a_calls a) = <[r := mkCall (timed k) (Some c) Notified]> (a_calls a)) as ->.
      { apply map_eq. intros u. rewrite lookup_alter, lookup_insert. case_decide; [subst; by rewrite Hk|done]. }
      rewrite (slots_replace P _ r k) by done. rewrite Hsl. simpl; rewrite ?w_none; lia.
Qed.
Lemma conn_pop_ok a qs cap t bWait dl q o a' : chan_ok a qs cap -> qs !! t = Some q -> q <> GWait ->
  line_pop t bWait dl a = (Some o, a') ->
  chan_ok a' qs cap /\ forall P, among P (a_buf a') + slots P (a_calls a') + w P o = among P (a_buf a) + slots P (a_calls a).
Proof.
  intros [[Ho Hw] Hr Hc Hcap] Ht Hq Hp. unfold line_pop, line in Hp. rewrite Ho, Hw in Hp. cbn [mbind list_bind] in Hp. rewrite app_nil_r in Hp.
  destruct (a_buf a) as [|c l] eqn:Eb.
  - destruct bWait; simplify_eq. split; [by constructor; rewrite ?Eb|]. intros P. rewrite Eb. simpl; rewrite ?w_none; lia.
  - simplify_eq. split.
    + constructor; simpl; [done|done|done|]. simpl in Hcap. lia.
    + intros P. simpl. unfold among, sumZ. simpl; rewrite ?w_none; lia.
Qed.
Lemma wait_ok a qs cap t dl q a' : chan_ok a qs cap -> qs !! t = Some q -> q <> GWait ->
  line_pop t true dl a = (None, a') ->
  chan_ok a' (<[t := GWait]> qs) cap /\ forall P, among P (a_buf a') + slots P (a_calls a') = among P (a_buf a) + slots P (a_calls a).
Proof.
  intros [[Ho Hw] [Hnd Hr] Hc Hcap] Ht Hq Hp. unfold line_pop, line in Hp. rewrite Ho, Hw in Hp. cbn [mbind list_bind] in Hp. rewrite app_nil_r in Hp.
  assert (a_calls a !! t = None) as Hn. { destruct (a_calls a !! t) as [k|] eqn:E; [|done]. destruct (Hc t k E) as [Hg _]. congruence. }
  destruct (a_buf a) as [|c l] eqn:Eb; simplify_eq. split.
  - constructor; simpl; [done| | |done].
    + split.
      * apply NoDup_app. split_and!; [done| |apply NoDup_singleton]. intros r Hin Hrt%list_elem_of_singleton. subst r. destruct (Hr t Hin) as (k & Hk & _). congruence.
      * intros r [Hin|Hin%list_elem_of_singleton]%elem_of_app.
        -- destruct (Hr r Hin) as (k & Hk & Hs). exists k. rewrite lookup_insert_ne by congruence. done.
        -- subst r. exists (mkCall dl None Waiting). by rewrite lookup_insert_eq.
    + intros u k Hu. rewrite lookup_insert in Hu. case_decide as E.
      * simplify_eq. rewrite list_lookup_insert_eq by (by eapply lookup_lt_Some). split; [done|]. simpl. done.
      * destruct (Hc u k Hu) as [Hg Hs]. rewrite list_lookup_insert_ne by done. done.
  - intros P. simpl. rewrite slots_insert by done. simpl. unfold among, sumZ. simpl; rewrite ?w_none; lia.
Qed.
Lemma resume_ok a qs cap t b o a' q' : chan_ok a qs cap -> qs !! t = Some GWait ->
  line_resume t a = Some (b, o, a') ->
  chan_ok a' (<[t := q']> qs) cap /\ (b = false -> o = None) /\
  forall P, among P (a_buf a') + slots P (a_calls a') + w P o = among P (a_buf a) + slots P (a_calls a).
Proof.
  intros [[Ho Hw] [Hnd Hr] Hc Hcap] Ht Hp. unfold line_resume in Hp. destruct (a_calls a !! t) as [k|] eqn:Hk; [|done]. simpl in Hp.
  destruct (Hc t k Hk) as [_ Hs]. destruct (cst k) eqn:Ec; simplify_eq; rewrite ?Ho.
  all: assert (chan_ok (mkLine (a_closed a) (a_buf a) (a_writers a) (a_readers a) (delete t (a_calls a))) (<[t := q']> qs) cap) as Hok.
  1,3: constructor; simpl; [done| | |done];
      [split; [done|]; intros r Hin; destruct (Hr r Hin) as (k' & Hk' & Hs'); exists k'; rewrite lookup_delete_ne; [done|]; intros <-; congruence
      |intros u k' Hu; rewrite lookup_delete in Hu; case_decide; [done|]; destruct (Hc u k' Hu); by rewrite list_lookup_insert_ne].
  all: split; [rewrite Ho in Hok; done|].
  - assert (slot k = None) as Hn. { destruct (slot k); [|done]. exfalso. assert (TimedOut = Notified) by (by apply Hs). done. }
    split; [by rewrite Hn|]. intros P. rewrite (slots_delete P (a_calls a) t k Hk), Hn. simpl; rewrite ?w_none; lia.
  - split; [done|]. intros P. rewrite (slots_delete P (a_calls a) t k Hk). simpl; rewrite ?w_none; lia.
Qed.
Lemma expire_ok a qs cap t a' : chan_ok a qs cap -> line_expire t a = Some a' ->
  chan_ok a' qs cap /\ forall P, among P (a_buf a') + slots P (a_calls a') = among P (a_buf a) + slots P (a_calls a).
Proof.
  intros [[Ho Hw] [Hnd Hr] Hc Hcap] Hp. unfold line_expire in Hp. destruct (a_calls a !! t) as [k|] eqn:Hk; [|done]. simpl in Hp.
  destruct (timed k && bool_decide (cst k = Waiting))%bool eqn:E; simplify_eq. apply andb_true_iff in E as [_ Ew%bool_decide_eq_true].
  destruct (Hc t k Hk) as [Hg Hs]. assert (slot k = None) as Hsl. { destruct (slot k); [|done]. assert (cst k = Notified) by (by apply Hs). congruence. }
  split.
  - constructor; simpl; [by rewrite Hw| | |done].
    + split; [by apply NoDup_ListNoDup, List.NoDup_filter, NoDup_ListNoDup|].
      intros r [Hin Hne]%list_elem_of_In%filter_In. destruct (Hr r) as (k' & Hk' & Hs'); [by apply list_elem_of_In|].
      exists k'. rewrite lookup_insert_ne; [done|]. intros ->. by rewrite Nat.eqb_refl in Hne.
    + intros u k' Hu. rewrite lookup_insert in Hu. case_decide; [|by apply Hc]. simplify_eq. split; [done|]. simpl. by rewrite Hsl.
  - intros P. simpl. rewrite (slots_replace P _ t k) by done. simpl. rewrite Hsl. simpl; rewrite ?w_none; lia.
Qed.

(** ** One step *)

Lemma existing_places p : pool_ok p ->
  existing p = among any (a_buf (channel_ p)) + slots any (a_calls (channel_ p)) + hands any (threads p).
Proof.
  intros Hp. pose proof (p_places _ Hp any) as He. unfold places in He.
  assert (forall l, among any l = Z.of_nat (length l)) as Hl.
  { intros l. unfold among, sumZ. induction l as [|x l IH]; cbn [foldr length]; [done|]. rewrite IH. unfold w. simpl. lia. }
  unfold existing. rewrite (Hl (seq _ _)), length_seq, (Hl (gone p)) in He. lia.
Qed.
Lemma existing_hand p t q : pool_ok p -> threads p !! t = Some q -> w any (hand q) <= existing p.
Proof.
  intros Hp Ht. rewrite (existing_places p Hp).
  assert (w any (hand q) <= hands any (threads p)) by (apply (sumZ_lower (fun q => w any (hand q)) _ t); [intros; apply w_nonneg|done]).
  pose proof (among_nonneg any (a_buf (channel_ p))).
  assert (0 <= slots any (a_calls (channel_ p))) by (apply sumZ_nonneg; intros; apply w_nonneg). lia.
Qed.
Lemma making_nonneg q : 0 <= making q.
Proof. destruct q; simpl; lia. Qed.
Lemma failing_range q : 0 <= failing q <= 1.
Proof. destruct q; simpl; lia. Qed.
(** Nothing wraps: [count_] counts what exists, what is being made and the failed attempts. *)
Lemma count_range p t q : pool_ok p -> threads p !! t = Some q ->
  w any (hand q) + making q + failing q <= count_ p /\ count_ p + 1 < 2 ^ 64.
Proof.
  intros Hp Ht. pose proof (existing_hand p t q Hp Ht). destruct (p_count _ Hp) as [Hlo Hhi], (p_width _ Hp) as [Hw _].
  pose proof (sumZ_lower making _ t q making_nonneg Ht). pose proof (sumZ_lower failing _ t q (fun q => proj1 (failing_range q)) Ht).
  assert (sumZ failing (threads p) <= Z.of_nat (length (threads p))); [|lia].
  clear. unfold sumZ. induction (threads p) as [|x l IH]; cbn [foldr length]; [lia|]. pose proof (failing_range x). lia.
Qed.

Lemma move_ok p t q q' z a m g : pool_ok p -> threads p !! t = Some q ->
  chan_ok a (<[t := q']> (threads p)) (maxIdleConnection_ p) ->
  (forall P, among P (a_buf a) + slots P (a_calls a) + w P (hand q') + among P g + among P (seq 0 (made p)) =
    among P (a_buf (channel_ p)) + slots P (a_calls (channel_ p)) + w P (hand q) + among P (gone p) + among P (seq 0 m)) ->
  Z.of_nat m - Z.of_nat (length g) + making q' - (existing p + making q) <= z - failing q' - (count_ p - failing q) ->
  z - failing q' <= count_ p - failing q \/ z - failing q' <= maxConnection_ p - failing q ->
  pool_ok (mkPool z (maxConnection_ p) (maxIdleConnection_ p) a m g (<[t := q']> (threads p))).
Proof.
  intros Hp Ht Ha Hm Hlo Hhi. destruct (p_count _ Hp) as [Hl Hh].
  constructor; simpl; [| |rewrite length_insert; apply Hp|done].
  - intros P. unfold places. simpl. rewrite (hands_go P t q q' _ Ht).
    pose proof (Hm P). pose proof (p_places _ Hp P) as Hpl. unfold places in Hpl. lia.
  - unfold existing at 1. simpl. rewrite (sumZ_insert making _ t q q' Ht), (sumZ_insert failing _ t q q' Ht).
    pose proof (sumZ_lower failing _ t q (fun q => proj1 (failing_range q)) Ht). pose proof (failing_range q). lia.
Qed.
Lemma seq_more P m : among P (seq 0 (S m)) = among P (seq 0 m) + w P (Some m).
Proof. by rewrite seq_S, among_app, among_one. Qed.

(** Steps of a thread that holds no channel operation. *)
Lemma conn_local_ok t p q q' : pool_ok p -> threads p !! t = Some q -> q <> GWait -> hand q' = hand q -> making q' = making q ->
  failing q' = failing q -> pool_ok (go t q' p).
Proof.
  intros Hp Ht Hq Hh Hm Hf. eapply (move_ok p t q q' _ _ _ _ Hp Ht); [by eapply chan_other; [apply Hp| |]| | |].
  - intros P. rewrite Hh. lia.
  - unfold existing. lia.
  - lia.
Qed.
Lemma delete_ok t p q q' c : pool_ok p -> threads p !! t = Some q -> q <> GWait -> hand q = Some c -> hand q' = None ->
  making q = 0 /\ failing q = 0 -> making q' = 0 /\ failing q' = 0 -> pool_ok (go t q' (Delete c p)).
Proof.
  intros Hp Ht Hq Hh Hh' [Hm Hf] [Hm' Hf']. pose proof (count_range _ _ _ Hp Ht) as [Hc1 Hc2]. rewrite Hh, Hm, Hf in Hc1. unfold w in Hc1. simpl in Hc1.
  unfold go, Delete. cbn [count_ maxConnection_ maxIdleConnection_ channel_ made gone threads]. unfold u64. rewrite wrap_small by (unfold fits; lia).
  eapply (move_ok p t q q' _ _ _ _ Hp Ht); [by eapply chan_other; [apply Hp| |]| | |].
  - intros P. rewrite Hh, Hh', among_app, among_one, w_none. lia.
  - rewrite length_app. unfold existing. simpl. lia.
  - lia.
Qed.
Lemma factory_ok t p q q' : pool_ok p -> threads p !! t = Some q -> q <> GWait -> making q = 1 -> hand q' = Some (made p) ->
  making q' = 0 /\ failing q' = 0 -> pool_ok (go t q' (Factory p)).
Proof.
  intros Hp Ht Hq Hm Hh' [Hm' Hf']. assert (hand q = None /\ failing q = 0) as [Hh Hf] by (destruct q; done).
  eapply (move_ok p t q q' _ _ _ _ Hp Ht); [by eapply chan_other; [apply Hp| |]| | |]; cbn [count_ maxConnection_ maxIdleConnection_ channel_ made gone threads Factory].
  - intros P. rewrite Hh, Hh', seq_more, w_none. lia.
  - unfold existing. lia.
  - lia.
Qed.
Lemma null_ok t p q q' : pool_ok p -> threads p !! t = Some q -> q <> GWait -> making q = 1 -> hand q' = None ->
  making q' = 0 /\ failing q' = 0 -> pool_ok (go t q' p).
Proof.
  intros Hp Ht Hq Hm Hh' [Hm' Hf']. assert (hand q = None /\ failing q = 0) as [Hh Hf] by (destruct q; done).
  eapply (move_ok p t q q' _ _ _ _ Hp Ht); [by eapply chan_other; [apply Hp| |]| | |].
  - intros P. rewrite Hh, Hh'. lia.
  - unfold existing. lia.
  - lia.
Qed.
(** [++count_], and the [--count_] of an attempt over the limit. *)
Lemma inc_ok t p q q1 q2 : pool_ok p -> threads p !! t = Some q -> q <> GWait -> hand q = None /\ hand q1 = None /\ hand q2 = None ->
  making q = 0 /\ failing q = 0 -> making q1 = 0 /\ failing q1 = 1 -> making q2 = 1 /\ failing q2 = 0 ->
  pool_ok (go t (if CreateOne_full p then q1 else q2) (set_count (u64 (count_ p + 1)) p)).
Proof.
  intros Hp Ht Hq (Hh & Hh1 & Hh2) [Hm Hf] [Hm1 Hf1] [Hm2 Hf2]. pose proof (count_range _ _ _ Hp Ht) as [Hc1 Hc2].
  pose proof (w_nonneg any (hand q)). unfold CreateOne_full, go, set_count. cbn [count_ maxConnection_ maxIdleConnection_ channel_ made gone threads].
  unfold u64. rewrite wrap_small by (unfold fits; lia).
  destruct (Z.ltb_spec (maxConnection_ p) (count_ p + 1)); (eapply (move_ok p t q _ _ _ _ _ Hp Ht); [by eapply chan_other; [apply Hp| |]| | |]).
  1,4: intros P; rewrite Hh, ?Hh1, ?Hh2; lia.
  all: unfold existing; lia.
Qed.
Lemma dec_ok t p q q' : pool_ok p -> threads p !! t = Some q -> q <> GWait -> failing q = 1 -> hand q' = None ->
  making q' = 0 /\ failing q' = 0 -> pool_ok (go t q' (set_count (u64 (count_ p - 1)) p)).
Proof.
  intros Hp Ht Hq Hf Hh' [Hm' Hf']. assert (hand q = None /\ making q = 0) as [Hh Hm] by (destruct q; done).
  pose proof (count_range _ _ _ Hp Ht) as [Hc1 Hc2]. rewrite Hh, w_none in Hc1.
  unfold go, set_count. cbn [count_ maxConnection_ maxIdleConnection_ channel_ made gone threads]. unfold u64. rewrite wrap_small by (unfold fits; lia).
  eapply (move_ok p t q q' _ _ _ _ Hp Ht); [by eapply chan_other; [apply Hp| |]| | |].
  - intros P. rewrite Hh, Hh'. lia.
  - unfold existing. lia.
  - lia.
Qed.
(** A step that moves connections between the channel and the thread. *)
Lemma chan_step t p q q' a : pool_ok p -> threads p !! t = Some q -> chan_ok a (<[t := q']> (threads p)) (maxIdleConnection_ p) ->
  (forall P, among P (a_buf a) + slots P (a_calls a) + w P (hand q') = among P (a_buf (channel_ p)) + slots P (a_calls (channel_ p)) + w P (hand q)) ->
  making q' = making q -> failing q' = failing q -> pool_ok (go t q' (set_channel a p)).
Proof.
  intros Hp Ht Ha HP Hm Hf. unfold go, set_channel. cbn [count_ maxConnection_ maxIdleConnection_ channel_ made gone threads].
  eapply (move_ok p t q q' _ _ _ _ Hp Ht); [done| | |].
  - intros P. pose proof (HP P). lia.
  - unfold existing. lia.
  - lia.
Qed.

Lemma conn_step_ok t p p' : pool_ok p -> step t p p' -> pool_ok p'.
Proof.
  intros Hp Hs. pose proof (p_chan _ Hp) as Hc.
  assert (forall q q' a, threads p !! t = Some q -> q <> GWait -> chan_ok a (threads p) (maxIdleConnection_ p) ->
    chan_ok a (<[t := q']> (threads p)) (maxIdleConnection_ p)) as Ho by (intros; by eapply chan_other).
  destruct Hs as [Ht|c a Ht Hl|a Ht Hl|c Ht|c Ht|c Ht|Ht|Ht|Ht|Ht|dl c a Ht Hl|dl a Ht Hl|c a Ht Hl|a Ht Hl|o a Ht Hl|c Ht|c Ht|c a Ht Hl|c a Ht Hl|c Ht
    |Ht|Ht|i Ht|i Ht|Ht|i Ht|i Ht|i c a Ht Hl|i c a Ht Hl].
  all: unfold TryPop, Pop, TryPush in *.
  all: try (by (eapply conn_local_ok)).
  all: try (by (eapply delete_ok)).
  all: try (by (eapply inc_ok)).
  all: try (by (eapply dec_ok)).
  all: try (by (eapply factory_ok)).
  all: try (by (eapply null_ok)).
  (* a pop that returns at once, and a push *)
  all: try (destruct (conn_pop_ok _ _ _ _ _ _ _ _ _ Hc Ht ltac:(done) Hl) as [Ha HP];
    eapply (chan_step _ _ _ _ _ Hp Ht); [eapply Ho; done|intros P; specialize (HP P); simpl in *; rewrite ?w_none in *; lia|done|done]).
  all: try (destruct (conn_push_ok _ _ _ _ _ _ _ _ Hc Ht ltac:(done) Hl) as [Ha HP];
    eapply (chan_step _ _ _ _ _ Hp Ht); [eapply Ho; done|intros P; specialize (HP P); simpl in *; rewrite ?w_none in *; lia|done|done]).
  - destruct (wait_ok _ _ _ _ _ _ _ Hc Ht ltac:(done) Hl) as [Ha HP]. eapply chan_step; [done|done|done| |done|done].
    intros P. specialize (HP P). simpl. rewrite w_none. lia.
  - destruct (resume_ok _ _ _ _ _ _ _ (GCheck c) Hc Ht Hl) as (Ha & _ & HP). eapply chan_step; [done|done|done| |done|done].
    intros P. specialize (HP P). simpl. rewrite w_none. lia.
  - destruct (expire_ok _ _ _ _ _ Hc Hl) as [Ha HP].
    assert (set_channel a p = go t GWait (set_channel a p)) as -> by (unfold go, set_channel; simpl; by rewrite list_insert_id).
    eapply chan_step; [done|done|simpl; by rewrite list_insert_id| |done|done]. intros P. specialize (HP P). simpl. rewrite w_none. lia.
  - destruct (resume_ok _ _ _ _ _ _ _ GFailed Hc Ht Hl) as (Ha & Hn & HP). rewrite (Hn eq_refl) in HP. eapply chan_step; [done|done|done| |done|done].
    intros P. specialize (HP P). simpl. rewrite w_none in *. lia.
  - destruct (i <? maxIdleConnection_ p); by eapply conn_local_ok.
Qed.

Lemma conn_new_ok max idle n : 0 <= max -> 0 <= idle -> max + Z.of_nat n < 2 ^ 64 - 1 -> pool_ok (ConnectionPool_new max idle n).
Proof.
  intros Hm Hi Hn.
  assert (forall (f : pc -> Z), f Idle = 0 -> sumZ f (replicate n Idle) = 0) as Hz.
  { intros f Hf. apply sumZ_zero. intros q [-> _]%elem_of_replicate. done. }
  constructor; simpl.
  - intros P. unfold places, ConnectionPool_new, slots, hands. simpl. rewrite map_to_list_empty, Hz by done. done.
  - rewrite !Hz by done. unfold existing. simpl. lia.
  - rewrite length_replicate. lia.
  - constructor; simpl; [done|split; [constructor|set_solver]|done|destruct (Z.eqb_spec idle 0); lia].
Qed.
Lemma steps_ok max idle n p : 0 <= max -> 0 <= idle -> max + Z.of_nat n < 2 ^ 64 - 1 ->
  rtc Step (ConnectionPool_new max idle n) p -> pool_ok p.
Proof.
  intros Hm Hi Hn Hr. assert (pool_ok (ConnectionPool_new max idle n)) as H by by apply conn_new_ok. revert H.
  induction Hr as [p|p p' p'' [t Hs] _ IH]; [done|]. intros H. apply IH. by eapply conn_step_ok.
Qed.
Lemma steps_max p p' : rtc Step p p' -> maxConnection_ p' = maxConnection_ p /\ maxIdleConnection_ p' = maxIdleConnection_ p.
Proof. induction 1 as [p|p p1 p' [t Hs] _ [-> ->]]; [done|]. by destruct Hs. Qed.

(** ** The properties *)

(** Every place a connection can be: the idle ones, those handed to a waiting [Get], those in the
    hands of a thread, those given to the deleter. *)
Definition everywhere (p : ConnectionPool) : list conn :=
  a_buf (channel_ p) ++ omap (fun x => slot x.2) (map_to_list (a_calls (channel_ p))) ++ omap hand (threads p) ++ gone p.

Lemma among_omap {A} P (f : A -> option conn) l : among P (omap f l) = sumZ (fun x => w P (f x)) l.
Proof.
  unfold among, sumZ. induction l as [|x l IH]; [done|]. cbn [omap list_omap foldr]. destruct (f x) as [c|]; cbn [foldr]; rewrite IH, ?w_none; lia.
Qed.
Lemma places_everywhere P p : places P p = among P (everywhere p).
Proof. unfold places, everywhere. rewrite !among_app, !among_omap. unfold slots, hands. lia. Qed.
Lemma count_among l c : Z.of_nat (count_occ Nat.eq_dec l c) = among (fun x => bool_decide (x = c)) l.
Proof.
  unfold among, sumZ. induction l as [|x l IH]; [done|]. cbn [count_occ foldr]. unfold w at 1.
  destruct (Nat.eq_dec x c); [rewrite bool_decide_true by done|rewrite bool_decide_false by done]; lia.
Qed.


(** One thread holds the only connection, another one waits for it, and the first finds on its
    return that it is dead. *)
Definition stranded : ConnectionPool :=
  mkPool 0 1 1 (mkLine false [] [] [1%nat] {[ 1%nat := mkCall false None Waiting ]}) 1 [0%nat] [Idle; GWait].
Lemma stranded_run : rtc Step (ConnectionPool_new 1 1 2) stranded.
Proof.
  eapply rtc_l; [exists 0%nat; by apply s_get|]. eapply rtc_l; [exists 0%nat; by eapply s_try_empty|].
  eapply rtc_l; [exists 0%nat; by apply s_inc|]. eapply rtc_l; [exists 0%nat; by apply s_made|].
  eapply rtc_l; [exists 1%nat; by apply s_get|]. eapply rtc_l; [exists 1%nat; by eapply s_try_empty|].
  eapply rtc_l; [exists 1%nat; by apply s_inc|]. eapply rtc_l; [exists 1%nat; by apply s_dec|].
  eapply rtc_l; [exists 1%nat; by eapply (s_wait _ _ false)|].
  eapply rtc_l; [exists 0%nat; by apply s_bad|]. eapply rtc_l; [exists 0%nat; by apply s_put_delete|].
  apply rtc_refl.
Qed.

(** C37: [Delete] lowers [count_] and wakes nobody: a thread in [Get] can wait, without a timeout,
    in a pool that holds no connection and could make one. *)
Theorem pool_delete_strands_getter : exists p : ConnectionPool,
  rtc Step (ConnectionPool_new 1 1 2) p /\ threads p = [Idle; GWait] /\
  CreateOne_full p = false /\ Z.of_nat (made p) - Z.of_nat (length (gone p)) = 0 /\ forall p', ~ step 1 p p'.
Proof.
  exists stranded. split; [exact stranded_run|]. split_and!; [done|done|done|].
  intros p' Hs. inversion Hs; simplify_eq/=; match goal with H : line_resume _ _ = _ |- _ => discriminate H | H : line_expire _ _ = _ |- _ => discriminate H end.
Qed.

(** A pool of the default [maxConnection = 0], documented as "no limit", never makes a
    connection: nobody is ever served. *)
Theorem pool_zero_never_serves (idle : Z) (n : nat) (p : ConnectionPool) :
  0 <= idle -> Z.of_nat n < 2 ^ 64 - 1 -> rtc Step (ConnectionPool_new 0 idle n) p ->
  made p = 0%nat /\ forall t c, threads p !! t <> Some (Hold c).
Proof.
  intros Hi Hn Hr. pose proof (steps_ok 0 idle n p ltac:(lia) Hi ltac:(lia) Hr) as Hp.
  assert (made p = 0%nat) as Hm.
  { clear Hp. apply (rtc_ind_r (R:=Step) (fun p => rtc Step (ConnectionPool_new 0 idle n) p -> made p = 0%nat)) with (x := ConnectionPool_new 0 idle n); [done| |done|done].
    clear p Hr. intros p p' Hr [t Hs] IH _. specialize (IH Hr).
    pose proof (steps_ok 0 idle n p ltac:(lia) Hi ltac:(lia) Hr) as Hp. destruct (steps_max _ _ Hr) as [Hmax _].
    destruct (p_count _ Hp) as [H1 H2]. rewrite Hmax in H2. simpl in H2.
    assert (forall q, threads p !! t = Some q -> making q <= 0) as Hmk.
    { intros q Ht. pose proof (sumZ_lower making _ t q making_nonneg Ht). pose proof (existing_hand p t q Hp Ht). pose proof (w_nonneg any (hand q)). lia. }
    destruct Hs as [Ht|c a Ht Hl|a Ht Hl|c Ht|c Ht|c Ht|Ht|Ht|Ht|Ht|dl c a Ht Hl|dl a Ht Hl|c a Ht Hl|a Ht Hl|o a Ht Hl|c Ht|c Ht|c a Ht Hl|c a Ht Hl|c Ht
    |Ht|Ht|i Ht|i Ht|Ht|i Ht|i Ht|i c a Ht Hl|i c a Ht Hl]; try done; pose proof (Hmk _ Ht) as H; simpl in H; lia. }
  split; [done|]. intros t c Ht. pose proof (existing_hand p t _ Hp Ht) as H. unfold existing in H. rewrite Hm in H. unfold w in H. simpl in H. lia.
Qed.
Lemma pool_zero_never_serves_witness : made (ConnectionPool_new 0 0 2) = 0%nat /\ forall t c, threads (ConnectionPool_new 0 0 2) !! t <> Some (Hold c).
Proof. apply (pool_zero_never_serves 0 2); [lia|lia|apply rtc_refl]. Defined.
