(* ===== verification/Anys.v ===== *)
(** [Anys] of [src/common/inc/Anys.h]: the storage of the values that every task carries, one slot
    for each registered type, laid out in one block of memory.

    The registry of a group is [Group]; [Register] is one step except where its race with the first
    instance is at stake.  [malloc]'s answer is an argument of [Anys_new].  Constructors and
    destructors are the addresses they are called with.  Reading outside of [offsets_] is reported
    as [AssertFail]. *)
From S2P Require Import Prelude IntMath.
Local Open Scope Z_scope.

(** ** The registry *)

(** [constructor] and [destructor]: whether there is one. *)
Record KeyInfo := mkKey { align_ : Z; size_ : Z; offset : Z; constructor : bool; destructor : bool }.
#[export] Instance key_eq_dec : EqDecision KeyInfo.
Proof. solve_decision. Defined.

(** The static variables of [Anys<Group>]; [inited]: the lock of [GetInitGuard] is held. *)
Record Group := mkGroup { keys : list KeyInfo; StorageLen : Z; Size : Z; inited : bool }.
Definition Group_init : Group := mkGroup [] 0 0 false.

Definition front_error : nat := 1.
Definition overflow_error : nat := 2.
Definition align_error : nat := 3.

Definition Register_begin (g : Group) : res Group :=
  if inited g then Throw front_error else Ret (mkGroup (keys g) (StorageLen g) (Size g) true).
Definition Register_end (align size : Z) (ctor dtor : bool) (g : Group) : Group * Z :=
  let info := mkKey align size (StorageLen g) ctor dtor in
  let ks := keys g ++ [info] in
  (mkGroup ks (u64 (StorageLen g + (align + size - 1))) (u64 (Size g + 1)) false, Z.of_nat (length ks) - 1).
Definition Register (align size : Z) (ctor dtor : bool) (g : Group) : res (Group * Z) :=
  g ← Register_begin g;
  Ret (Register_end align size ctor dtor g).

(** ** Instances *)

(** [count] is the number at [hold_]; [hold_ = 0] is null. *)
Record Anys := mkAnys { hold_ : Z; count : Z; offsets_ : list Z; storage_ : Z }.
Inductive call := Construct (p : Z) | Destroy (p : Z).
#[export] Instance call_eq_dec : EqDecision call.
Proof. solve_decision. Defined.

(** [align]: the new pointer, or null. *)
Definition align (al size ptr space : Z) : option Z :=
  let aligned := Z.land (u64 (u64 (ptr - 1) + al)) (u64 (- al)) in
  let diff := u64 (aligned - ptr) in
  if space <? u64 (size + diff) then None else Some aligned.

(** The loop of the constructor. *)
Fixpoint place (storage : Z) (ks : list KeyInfo) : res (list Z) :=
  match ks with
  | [] => Ret []
  | k :: ks =>
      let space := align_ k + size_ k - 1 in
      let base := u64 (storage + offset k) in
      match align (align_ k) (size_ k) base space with
      | None => Throw align_error
      | Some ptr =>
          offs ← place storage ks;
          Ret (u64 (offset k + u64 (ptr - base)) :: offs)
      end
  end.

Definition malloc_size (g : Group) : Z := u64 (u64 (8 * u64 (Size g + 1)) + StorageLen g).
(** The calls that a loop over the keys makes, for the keys that [has]. *)
Fixpoint for_keys (has : KeyInfo -> bool) (mk : Z -> call) (a : Anys) (i : nat) (ks : list KeyInfo) : res (list call) :=
  match ks with
  | [] => Ret []
  | k :: ks =>
      if has k then
        o ← deref (offsets_ a !! i);
        l ← for_keys has mk a (S i) ks;
        Ret (mk (u64 (storage_ a + o)) :: l)
      else for_keys has mk a (S i) ks
  end.
Definition Init (g : Group) (a : Anys) : res (list call) := for_keys constructor Construct a 0 (keys g).
Definition Deinit (g : Group) (a : Anys) : res (list call) := for_keys destructor Destroy a 0 (keys g).

Definition Anys_new (malloc : Z -> Z) (g : Group) : res (Group * Anys * list call) :=
  let g := mkGroup (keys g) (StorageLen g) (Size g) true in
  if Size g =? 0 then Ret (g, mkAnys 0 0 [] 0, [])
  else
    let hold := malloc (malloc_size g) in
    let storage := u64 (hold + u64 (8 * u64 (Size g + 1))) in
    offs ← place storage (keys g);
    let a := mkAnys hold (Size g) offs storage in
    l ← Init g a;
    Ret (g, a, l).
Definition Reset (g : Group) (a : Anys) : res (list call) :=
  d ← Deinit g a;
  i ← Init g a;
  Ret (d ++ i).
(** What is given to [free], too. *)
Definition Anys_destroy (g : Group) (a : Anys) : res (list call * option Z) :=
  d ← Deinit g a;
  Ret (d, if hold_ a =? 0 then None else Some (hold_ a)).
Definition get (a : Anys) (index : Z) : res Z :=
  _ ← assert_ (negb (hold_ a =? 0));
  if count a <=? index then Throw overflow_error
  else o ← deref (offsets_ a !! Z.to_nat index); Ret (u64 (storage_ a + o)).

Example anys_example :
  match ('(g, _) ← Register 1 1 true true Group_init; '(g, _) ← Register 8 32 true true g; '(_, a, _) ← Anys_new (fun _ => 1000) g;
         x ← get a 0; y ← get a 1; Ret (x, y, malloc_size g)) with Ret r => r | _ => (0, 0, 0) end = (1024, 1032, 64).
Proof. vm_compute. reflexivity. Qed.
