(* ===== verification/AnysSpec.v ===== *)
(** The slots of [Anys]: aligned, apart and inside the block; constructed and destroyed in turn;
    and what a registration that comes too late does. *)
From S2P Require Import Prelude IntMath Anys.
Local Open Scope Z_scope.
Implicit Types (g : Group) (a : Anys) (k : KeyInfo) (ks : list KeyInfo).

(** ** The registry *)

Definition span k : Z := align_ k + size_ k - 1.
(** [T] has a size and an alignment, which is a power of two. *)
Definition key_ok k : Prop := (exists e, 0 <= e < 31 /\ align_ k = 2 ^ e) /\ 0 < size_ k.
(** Keys whose slots follow each other from [off] to [stop]. *)
Fixpoint laid (off : Z) ks (stop : Z) : Prop :=
  match ks with [] => stop = off | k :: ks => offset k = off /\ key_ok k /\ laid (off + span k) ks stop end.
Record group_ok g : Prop := {
  g_laid : laid 0 (keys g) (StorageLen g);
  g_size : Size g = Z.of_nat (length (keys g)) }.

(** A registry after any number of registrations before the first instance. *)
Inductive registered : Group -> Prop :=
| r_none : registered Group_init
| r_more g al sz c d g' i : registered g -> key_ok (mkKey al sz 0 c d) ->
    StorageLen g + (al + sz - 1) < 2 ^ 62 -> Size g + 1 < 2 ^ 32 -> Register al sz c d g = Ret (g', i) -> registered g'.

Lemma key_span k : key_ok k -> 1 <= align_ k < 2 ^ 31 /\ 1 <= span k /\ size_ k <= span k.
Proof.
  intros [(e & He & Ha) Hs]. pose proof (pow2_pos e ltac:(lia)). pose proof (Z.pow_lt_mono_r 2 e 31 ltac:(lia) ltac:(lia) ltac:(lia)).
  unfold span. lia.
Qed.
Lemma laid_range ks : forall off stop, laid off ks stop -> off <= stop.
Proof.
  induction ks as [|k ks IH]; intros off stop; simpl; [intros ->; lia|]. intros (_ & Hk & Hl). apply IH in Hl. pose proof (key_span k Hk). lia.
Qed.
Lemma laid_snoc ks : forall off stop k, laid off ks stop -> offset k = stop -> key_ok k -> laid off (ks ++ [k]) (stop + span k).
Proof.
  induction ks as [|x ks IH]; intros off stop k Hl Hk Hok; simpl in *; [subst; auto|]. destruct Hl as (? & ? & Hl). auto.
Qed.
Lemma registered_ok g : registered g -> group_ok g /\ StorageLen g < 2 ^ 62 /\ Size g < 2 ^ 32.
Proof.
  induction 1 as [|g al sz c d g' i Hg [[Hl Hs] [HL HS]] Hk Hb Hn Hr]; [repeat split; done|].
  unfold Register, Register_begin in Hr. destruct (inited g); [done|]. cbn [mbind res_bind Register_end keys StorageLen Size] in Hr.
  injection Hr as <- _. pose proof (laid_range _ _ _ Hl) as H0. destruct (key_span _ Hk) as (_ & H1 & _). unfold span in H1. simpl in H1.
  cbn [keys StorageLen Size]. unfold u64. rewrite !wrap_small by (unfold fits; lia).
  split; [constructor; cbn [keys StorageLen Size]|lia].
  - replace (al + sz - 1) with (span (mkKey al sz (StorageLen g) c d)) by done. apply laid_snoc; done.
  - rewrite length_app, Hs. simpl. lia.
Qed.

(** ** Placing the slots *)

Lemma align_fits e size ptr : 0 <= e < 31 -> 0 < size -> 0 < ptr -> ptr + (2 ^ e + size - 1) < 2 ^ 63 ->
  exists p, align (2 ^ e) size ptr (2 ^ e + size - 1) = Some p /\ (2 ^ e | p) /\ ptr <= p < ptr + 2 ^ e.
Proof.
  intros He Hs Hp Hb. pose proof (pow2_pos e ltac:(lia)) as H1. pose proof (Z.pow_lt_mono_r 2 e 31 ltac:(lia) ltac:(lia) ltac:(lia)) as H2.
  destruct (roundUp_char ptr e ltac:(lia) ltac:(lia)) as [Hd Hr].
  set (p := (ptr + 2 ^ e - 1) / 2 ^ e * 2 ^ e) in *. exists p. split; [|split; [done|lia]].
  unfold align.
  assert (u64 (u64 (ptr - 1) + 2 ^ e) = ptr + 2 ^ e - 1) as ->.
  { unfold u64. rewrite (wrap_small 64 (ptr - 1)) by (unfold fits; lia). rewrite wrap_small by (unfold fits; lia). lia. }
  assert (u64 (- 2 ^ e) = u64 (Z.lnot (u64 (2 ^ e - 1)))) as ->.
  { unfold u64. rewrite (wrap_small 64 (2 ^ e - 1)) by (unfold fits; lia). f_equal. unfold Z.lnot. lia. }
  assert (Z.land (ptr + 2 ^ e - 1) (u64 (Z.lnot (u64 (2 ^ e - 1)))) = p) as ->.
  { unfold u64. rewrite (wrap_small 64 (2 ^ e - 1)) by (unfold fits; lia). apply land_lnot_mask; [lia|lia|unfold fits; lia]. }
  unfold u64. rewrite (wrap_small 64 (p - ptr)) by (unfold fits; lia). rewrite wrap_small by (unfold fits; lia).
  destruct (Z.ltb_spec (2 ^ e + size - 1) (size + (p - ptr))); [lia|done].
Qed.

(** [o] is where the slot of [k] begins. *)
Definition slot_ok (storage : Z) k (o : Z) : Prop := (align_ k | storage + o) /\ offset k <= o /\ o + size_ k <= offset k + span k.
Lemma place_ok storage ks : forall off stop, laid off ks stop -> 0 <= off -> 0 < storage -> storage + stop < 2 ^ 63 ->
  exists offs, place storage ks = Ret offs /\ Forall2 (slot_ok storage) ks offs.
Proof.
  induction ks as [|k ks IH]; intros off stop Hl Ho Hs Hb; [exists []; done|]. destruct Hl as (Hk & Hok & Hl).
  pose proof (laid_range _ _ _ Hl) as Hr. pose proof (key_span k Hok) as (Ha & Hsp & _).
  destruct (IH _ _ Hl ltac:(lia) Hs Hb) as (offs & Hp & Hf).
  destruct Hok as [(e & He & Hal) Hsz]. unfold span in Hsp, Hr. rewrite Hal in *.
  destruct (align_fits e (size_ k) (storage + off) He Hsz ltac:(lia) ltac:(lia)) as (p & Hp' & Hd & Hpr).
  exists (p - storage :: offs). split.
  - cbn [place]. rewrite Hal, Hk. unfold u64. rewrite (wrap_small 64 (storage + off)) by (unfold fits; lia). rewrite Hp', Hp.
    cbn [mbind res_bind]. rewrite (wrap_small 64 (p - (storage + off))) by (unfold fits; lia). rewrite wrap_small by (unfold fits; lia).
    do 2 f_equal. lia.
  - constructor; [|done]. unfold slot_ok, span. rewrite Hal, Hk. replace (storage + (p - storage)) with p by lia. split; [done|lia].
Qed.
(** Slots of later keys are behind those of earlier ones, and all are before the end. *)
Lemma laid_lookup ks : forall off stop i k, laid off ks stop -> ks !! i = Some k ->
  key_ok k /\ off <= offset k /\ offset k + span k <= stop /\
  forall j k', (i < j)%nat -> ks !! j = Some k' -> offset k + span k <= offset k'.
Proof.
  induction ks as [|x ks IH]; intros off stop i k Hl Hi; [done|]. destruct Hl as (Hx & Hok & Hl).
  pose proof (key_span x Hok) as (_ & Hsp & _). pose proof (laid_range _ _ _ Hl).
  destruct i as [|i]; simpl in Hi.
  - injection Hi as <-. split_and!; [done|lia|lia|]. intros [|j] k' Hij Hj; [lia|]. simpl in Hj.
    destruct (IH _ _ _ _ Hl Hj) as (_ & Hge & _). lia.
  - destruct (IH _ _ _ _ Hl Hi) as (Hk & Hge & Hle & Hn). split_and!; [done|lia|done|].
    intros [|j] k' Hij Hj; [lia|]. apply (Hn j); [lia|done].
Qed.

(** ** The calls of the loops *)

Section calls.
Context (has : KeyInfo -> bool) (mk : Z -> call).
Definition calls_of (storage : Z) ks (offs : list Z) : list call := (fun x => mk (storage + x.2)) <$> filter (fun x => has x.1 = true) (zip ks offs).
Lemma for_keys_ok a ks : forall pre offs, offsets_ a = pre ++ offs -> length ks = length offs -> 0 <= storage_ a ->
  (forall o, o ∈ offs -> 0 <= o /\ storage_ a + o < 2 ^ 64) ->
  for_keys has mk a (length pre) ks = Ret (calls_of (storage_ a) ks offs).
Proof.
  induction ks as [|k ks IH]; intros pre [|o offs] Ha Hl Hs Hb; try done. injection Hl as Hl.
  specialize (IH (pre ++ [o]) offs ltac:(by rewrite <- app_assoc) Hl Hs ltac:(intros; apply Hb; by right)).
  rewrite length_app, Nat.add_1_r in IH. cbn [for_keys]. unfold calls_of. cbn [zip zip_with]. rewrite filter_cons. simpl.
  destruct (has k); [|rewrite decide_False by done; exact IH]. rewrite decide_True by done.
  rewrite Ha, lookup_app_r, Nat.sub_diag by lia. cbn [lookup list_lookup deref mbind res_bind]. rewrite IH. cbn [mbind res_bind fmap list_fmap].
  destruct (Hb o ltac:(by left)). unfold u64. by rewrite wrap_small by (unfold fits; lia).
Qed.
End calls.

Definition addr (c : call) : Z := match c with Construct p | Destroy p => p end.
Definition at_slot (p : Z) (l : list call) : list call := filter (fun c => addr c = p) l.
Section at_slot.
Context (has : KeyInfo -> bool) (mk : Z -> call) (Hmk : forall p, addr (mk p) = p).
Lemma calls_none storage ks offs p : Forall (fun o => storage + o <> p) offs -> at_slot p (calls_of has mk storage ks offs) = [].
Proof.
  revert offs. induction ks as [|k ks IH]; intros [|o offs] Hf; try done. apply Forall_cons in Hf as [Ho Hf].
  unfold calls_of. cbn [zip zip_with]. rewrite filter_cons. specialize (IH offs Hf). unfold calls_of in IH.
  case_decide; [|exact IH]. unfold at_slot. cbn [fmap list_fmap snd]. rewrite filter_cons, decide_False by (by rewrite Hmk). exact IH.
Qed.
Lemma calls_at storage ks : forall off stop offs i k o, laid off ks stop -> Forall2 (slot_ok storage) ks offs ->
  ks !! i = Some k -> offs !! i = Some o ->
  at_slot (storage + o) (calls_of has mk storage ks offs) = if has k then [mk (storage + o)] else [].
Proof.
  induction ks as [|x ks IH]; intros off stop offs i k o Hl Hf Hi Ho; [done|].
  pose proof (laid_lookup _ _ _ 0 x Hl eq_refl) as (Hxok & _ & _ & Hx).
  apply Forall2_cons_inv_l in Hf as (y & offs' & (Hd & Hy1 & Hy2) & Hf & ->). destruct Hl as (_ & _ & Hl).
  unfold calls_of. cbn [zip zip_with]. rewrite filter_cons. cbn [fst].
  destruct i as [|i]; simpl in Hi, Ho.
  - simplify_eq. assert (at_slot (storage + o) (calls_of has mk storage ks offs') = []) as Hn.
    { apply calls_none, Forall_lookup. intros j o' Hj. destruct (Forall2_lookup_r _ _ _ _ _ Hf Hj) as (k' & Hk' & _ & Hge & _).
      pose proof (Hx (S j) k' ltac:(lia) Hk'). destruct Hxok as [_ ?]. lia. }
    unfold calls_of, at_slot in Hn. destruct (has k); [rewrite decide_True by done|rewrite decide_False by done; exact Hn].
    unfold at_slot. cbn [fmap list_fmap snd]. rewrite filter_cons, decide_True by apply Hmk. by f_equal.
  - specialize (IH _ _ _ i k o Hl Hf Hi Ho). unfold calls_of in IH. case_decide; [|exact IH].
    unfold at_slot. cbn [fmap list_fmap snd]. rewrite filter_cons, decide_False; [exact IH|]. rewrite Hmk.
    destruct (Forall2_lookup_l _ _ _ _ _ Hf Hi) as (o' & Ho' & _ & Hge & _). simplify_eq.
    pose proof (Hx (S i) k ltac:(lia) Hi). destruct Hxok as [_ ?]. lia.
Qed.
End at_slot.

(** ** The instance *)

Definition started g : Group := mkGroup (keys g) (StorageLen g) (Size g) true.
Definition fits_memory g (h : Z) : Prop := 0 < h /\ h + 8 * (Size g + 1) + StorageLen g < 2 ^ 63.
Lemma anys_new_ok malloc g : registered g -> Size g <> 0 -> fits_memory g (malloc (malloc_size g)) ->
  let h := malloc (malloc_size g) in let storage := h + 8 * (Size g + 1) in
  malloc_size g = 8 * (Size g + 1) + StorageLen g /\
  exists offs, Forall2 (slot_ok storage) (keys g) offs /\
    let a := mkAnys h (Size g) offs storage in
    let C := calls_of constructor Construct storage (keys g) offs in let D := calls_of destructor Destroy storage (keys g) offs in
    Anys_new malloc g = Ret (started g, a, C) /\ Init (started g) a = Ret C /\ Deinit (started g) a = Ret D.
Proof.
  intros Hr Hn [Hh Hm] h storage. destruct (registered_ok g Hr) as ([Hl Hs] & HL & HS). pose proof (laid_range _ _ _ Hl) as H0.
  assert (malloc_size g = 8 * (Size g + 1) + StorageLen g) as Hsz.
  { unfold malloc_size, u64. rewrite (wrap_small 64 (Size g + 1)), (wrap_small 64 (8 * _)), wrap_small by (unfold fits; lia). done. }
  split; [done|]. destruct (place_ok storage (keys g) 0 (StorageLen g) Hl ltac:(lia) ltac:(lia) ltac:(lia)) as (offs & Hp & Hf).
  exists offs. split; [done|]. cbv zeta.
  assert (forall has mk, for_keys has mk (mkAnys h (Size g) offs storage) 0 (keys g) = Ret (calls_of has mk storage (keys g) offs)) as Hfor.
  { intros has mk. refine (for_keys_ok has mk (mkAnys h (Size g) offs storage) (keys g) [] offs eq_refl _ _ _).
    - by eapply Forall2_length.
    - simpl. lia.
    - intros o (i & Hi)%list_elem_of_lookup. destruct (Forall2_lookup_r _ _ _ _ _ Hf Hi) as (k & Hk & _ & H1 & H2).
      destruct (laid_lookup _ _ _ _ _ Hl Hk) as ([_ Hks] & H3 & H4 & _). simpl. lia. }
  unfold Init, Deinit. cbn [keys started]. rewrite !Hfor. split; [|done].
  unfold Anys_new. cbn [keys StorageLen Size]. rewrite (proj2 (Z.eqb_neq _ _) Hn).
  assert (u64 (malloc (malloc_size (mkGroup (keys g) (StorageLen g) (Size g) true)) + u64 (8 * u64 (Size g + 1))) = storage) as ->.
  { change (malloc_size (mkGroup (keys g) (StorageLen g) (Size g) true)) with (malloc_size g). unfold u64. fold h.
    rewrite (wrap_small 64 (Size g + 1)), (wrap_small 64 (8 * _)), wrap_small by (unfold fits; lia). done. }
  rewrite Hp. cbn [mbind res_bind]. change (malloc_size (mkGroup (keys g) (StorageLen g) (Size g) true)) with (malloc_size g).
  fold h. change (mkGroup (keys g) (StorageLen g) (Size g) true) with (started g). unfold Init. cbn [keys started]. rewrite Hfor. done.
Qed.
Lemma get_slot h n offs storage i o : h <> 0 -> (i < Z.to_nat n)%nat -> offs !! i = Some o -> 0 <= storage + o < 2 ^ 64 ->
  get (mkAnys h n offs storage) (Z.of_nat i) = Ret (storage + o).
Proof.
  intros Hh Hi Ho Hb. unfold get. cbn [hold_ count offsets_ storage_]. rewrite (proj2 (Z.eqb_neq _ _) Hh). cbn [negb assert_ mbind res_bind].
  destruct (Z.leb_spec n (Z.of_nat i)); [lia|]. rewrite Nat2Z.id, Ho. cbn [deref mbind res_bind]. unfold u64. by rewrite wrap_small by (unfold fits; lia).
Qed.

Definition two_types : Group := mkGroup [mkKey 1 1 0 true true; mkKey 8 32 1 true true] 40 2 false.
Lemma two_registered : registered two_types.
Proof.
  eapply (r_more (mkGroup [mkKey 1 1 0 true true] 1 1 false) 8 32 true true _ 1); [eapply (r_more Group_init 1 1 true true _ 0); [apply r_none|..]|..].
  all: try (vm_compute; reflexivity).
  - split; [by exists 0|done].
  - split; [by exists 3|done].
Qed.

(** The values live in turn: creation constructs the value of each slot once, [Reset] destroys
    and constructs it, the end destroys it and frees the block. *)
Theorem anys_lifecycle (malloc : Z -> Z) (g : Group) : registered g -> Size g <> 0 -> fits_memory g (malloc (malloc_size g)) ->
  exists g' a C D, Anys_new malloc g = Ret (g', a, C) /\ Reset g' a = Ret (D ++ C) /\
  Anys_destroy g' a = Ret (D, Some (malloc (malloc_size g))) /\
  forall i k p, keys g !! i = Some k -> get a (Z.of_nat i) = Ret p ->
    at_slot p C = (if constructor k then [Construct p] else []) /\ at_slot p D = (if destructor k then [Destroy p] else []).
Proof.
  intros Hr Hn Hm. destruct (anys_new_ok malloc g Hr Hn Hm) as (Hsz & offs & Hf & Hnew & Hi & Hd). destruct (registered_ok g Hr) as ([Hl Hs] & HL & HS).
  destruct Hm as [Hh Hm]. set (h := malloc (malloc_size g)) in *. set (storage := h + 8 * (Size g + 1)) in *.
  do 4 eexists. split; [exact Hnew|]. split; [unfold Reset; rewrite Hd, Hi; reflexivity|]. split.
  { unfold Anys_destroy. rewrite Hd. cbn [mbind res_bind hold_]. by rewrite (proj2 (Z.eqb_neq _ _)) by lia. }
  intros i k p Hk Hg. destruct (Forall2_lookup_l _ _ _ _ _ Hf Hk) as (o & Ho & _ & H1 & H2).
  destruct (laid_lookup _ _ _ _ _ Hl Hk) as ([_ Hks] & H3 & H4 & _).
  rewrite (get_slot h (Size g) offs storage i o) in Hg; [|lia|apply lookup_lt_Some in Hk; lia|done|lia]. injection Hg as <-.
  split; by eapply calls_at.
Qed.
Lemma anys_lifecycle_witness : exists g' a C D, Anys_new (fun _ => 1000) two_types = Ret (g', a, C) /\ Reset g' a = Ret (D ++ C) /\
  Anys_destroy g' a = Ret (D, Some 1000) /\
  forall i k p, keys two_types !! i = Some k -> get a (Z.of_nat i) = Ret p ->
    at_slot p C = (if constructor k then [Construct p] else []) /\ at_slot p D = (if destructor k then [Destroy p] else []).
Proof. apply (anys_lifecycle (fun _ => 1000) two_types); [exact two_registered|discriminate|split; vm_compute; reflexivity]. Defined.

(** ** Late registration *)

(** After the first instance a registration is refused, unless one was under way when that
    instance was made: its end gives the guard free, the next registration succeeds, and the
    loops of the older instance run over the end of its offsets. *)
Theorem anys_late_register :
  (forall malloc g g' a l al sz c d, Anys_new malloc g = Ret (g', a, l) -> Register al sz c d g' = Throw front_error) /\
  (exists g g1 a l, registered g /\ Register_begin g = Ret g1 /\ Anys_new (fun _ => 1000) g1 = Ret (g1, a, l) /\
     let g2 := (Register_end 8 8 true true g1).1 in
     exists g3 i, Register 8 8 true true g2 = Ret (g3, i) /\ Reset g3 a = AssertFail /\ get a i = Throw overflow_error).
Proof.
  split.
  - intros malloc g g' a l al sz c d Hn. unfold Anys_new in Hn. cbn [keys StorageLen Size] in Hn.
    assert (inited g' = true) as Hg.
    { destruct (Size g =? 0); [by simplify_eq|]. bind_inv. by simplify_eq/=. }
    unfold Register, Register_begin. by rewrite Hg.
  - exists (mkGroup [mkKey 8 32 0 true true] 39 1 false). do 3 eexists. split.
    { eapply (r_more Group_init 8 32 true true _ 0); [apply r_none| |vm_compute; reflexivity..]. split; [by exists 3|done]. }
    split; [reflexivity|]. split; [vm_compute; reflexivity|]. do 2 eexists. split; [vm_compute; reflexivity|]. split; vm_compute; reflexivity.
Qed.
Lemma anys_late_register_witness : Register 8 8 true true (started two_types) = Throw front_error.
Proof. destruct anys_late_register as [H _]. refine (H (fun _ => 1000) two_types (started two_types) _ _ 8 8 true true _). vm_compute. reflexivity. Defined.
