(* ===== verification/CasChannel.v ===== *)
(** [CASChannelImpl] of [include/co/sync/cas_channel_impl.h]: a channel whose readers and writers
    count themselves in one word, [wait_], before they queue.

    A call goes through its accesses to [wait_], [closed_] and the two condition variables one by
    one.  The condition variables are used by their promise ([CondVar.v]): [notify_one] takes
    entries from the front until it finds one that has not timed out, and with [nonblockingCapacity]
    each taken entry lets the waiting writer at [pos_] go on; this and the queueing of an entry with
    its condition are one step each.  The callers are coroutines; the queues stay shorter than the
    length at which [WaitQueue::push] begins to sweep.  [sent] and [received] are the history of the
    channel: the values in the order in which they were queued or handed over, and in which they
    were taken or handed over. *)
From S2P Require Import Prelude.
Local Open Scope Z_scope.

Definition write1 : Z := 1.
Definition writeMask : Z := 0xffffffff.
Definition read1 : Z := Z.shiftl 1 32.
Definition readMask : Z := 0xffffffff00000000.

Section channel.
Context {V : Type}.

(** The entry of a writer waits, or its value is in the buffer, or the writer's time is over. *)
Inductive status := EWait | EBuffered | EDead.
Record WEntry := mkW { writer : nat; value : V; st : status }.
Record REntry := mkR { reader : nat; dead : bool }.

(** A thread before its next access.  [bw]: [bWait]; [dl]: there is a deadline; [Done]: returned. *)
Inductive pc :=
| Idle | Done (ok : bool) (got : option V)
| PStart (v : V) (bw dl : bool) | PLoad (v : V) (bw dl : bool) | PNotify (v : V) (bw dl : bool)
| PSpin (v : V) (bw dl : bool) | PCheck0 (v : V) (bw dl : bool) (w : Z) | PCas (v : V) (bw dl : bool) (w : Z)
| PQueue (v : V) (bw dl : bool) | PWait (dl : bool) | PClosed | PLeave | PTook
| QLoad (bw dl : bool) | QNotify (bw dl : bool) | QClosed (bw dl : bool) (w : option Z) | QCas (bw dl : bool) (w : Z)
| QQueue (dl : bool) | QWait (dl : bool) | QGot (o : option V) | QLeave | QTook (v : V)
| CTest | CReaders | CWriters.

Record Chan := mkChan {
  capacity_ : Z; closed_ : bool; wait_ : Z; wq : list WEntry; pos : option nat; rq : list REntry;
  threads : list pc; sent : list V; received : list V }.
Definition Chan_new (capacity : Z) (n : nat) : Chan := mkChan capacity false 0 [] None [] (replicate n Idle) [] [].

Definition go (t : nat) (q : pc) (s : Chan) : Chan :=
  mkChan (capacity_ s) (closed_ s) (wait_ s) (wq s) (pos s) (rq s) (<[t := q]> (threads s)) (sent s) (received s).
Definition set_wait (w : Z) (s : Chan) : Chan :=
  mkChan (capacity_ s) (closed_ s) w (wq s) (pos s) (rq s) (threads s) (sent s) (received s).
Definition set_wq (l : list WEntry) (o : option nat) (s : Chan) : Chan :=
  mkChan (capacity_ s) (closed_ s) (wait_ s) l o (rq s) (threads s) (sent s) (received s).
Definition set_rq (l : list REntry) (s : Chan) : Chan :=
  mkChan (capacity_ s) (closed_ s) (wait_ s) (wq s) (pos s) l (threads s) (sent s) (received s).
Definition set_closed (s : Chan) : Chan :=
  mkChan (capacity_ s) true (wait_ s) (wq s) (pos s) (rq s) (threads s) (sent s) (received s).
Definition log_sent (v : V) (s : Chan) : Chan :=
  mkChan (capacity_ s) (closed_ s) (wait_ s) (wq s) (pos s) (rq s) (threads s) (sent s ++ [v]) (received s).
Definition log_received (v : V) (s : Chan) : Chan :=
  mkChan (capacity_ s) (closed_ s) (wait_ s) (wq s) (pos s) (rq s) (threads s) (sent s) (received s ++ [v]).

(** ** The condition variables *)

(** [WaitQueue::pop] after the head is gone: the entries from [pos_] on, up to the first that can be
    let go. *)
Fixpoint convert (fuel i : nat) (s : Chan) : Chan :=
  match fuel with
  | O => s
  | S fuel =>
      match wq s !! i with
      | None => set_wq (wq s) None s
      | Some e =>
          let next := if decide (S i < length (wq s))%nat then Some (S i) else None in
          match st e with
          | EWait => go (writer e) PClosed (set_wq (<[i := mkW (writer e) (value e) EBuffered]> (wq s)) next s)
          | EBuffered => set_wq (wq s) next s
          | EDead => convert fuel (S i) s
          end
      end
  end.
(** The head is taken; [pos_] counts from the new head. *)
Definition take_head (q : list WEntry) (s : Chan) : Chan :=
  match pos s with
  | None => set_wq q None s
  | Some i => convert (S (length q)) (pred i) (set_wq q (Some (pred i)) s)
  end.
(** [wq_.notify_one]: the entry whose value is taken. *)
Fixpoint notify_writer (fuel : nat) (s : Chan) : option WEntry * Chan :=
  match fuel, wq s with
  | S fuel, e :: q =>
      let s := take_head q s in
      match st e with
      | EDead => notify_writer fuel s
      | EBuffered => (Some e, s)
      | EWait => (Some e, go (writer e) PClosed s)
      end
  | _, _ => (None, s)
  end.
Definition wq_notify_one (s : Chan) : option WEntry * Chan := notify_writer (length (wq s)) s.
(** [rq_.notify_one]: the reader that is notified, with what [func] does to it. *)
Fixpoint notify_reader (q : pc) (l : list REntry) (s : Chan) : option nat * Chan :=
  match l with
  | [] => (None, set_rq [] s)
  | r :: l => if dead r then notify_reader q l s else (Some (reader r), go (reader r) q (set_rq l s))
  end.
Definition rq_notify_one (q : pc) (s : Chan) : option nat * Chan := notify_reader q (rq s) s.

(** [wq_.wait] up to the wait: [cond] of [Push] under the lock of the queue. *)
Inductive queued := NoQueued | NoWait | Waiting.
Definition push_cond (bw : bool) (s : Chan) : queued :=
  if closed_ s then NoQueued
  else if Z.of_nat (length (wq s)) <? capacity_ s then NoWait
  else if negb bw then NoQueued
  else Waiting.
Definition wq_push (t : nat) (v : V) (x : status) (s : Chan) : Chan :=
  let q := wq s ++ [mkW t v x] in
  set_wq q (if (negb (capacity_ s =? 0) && (Z.of_nat (length q) =? capacity_ s + 1))%bool then Some (length (wq s)) else pos s) s.
(** The queue is shorter than where its sweep begins; [rq_] has a [nonblockingCapacity] of 0. *)
Definition no_sweep (s : Chan) : bool := ((capacity_ s =? 0) || (Z.of_nat (length (wq s)) + 1 <? capacity_ s + 17))%bool.
Definition no_sweep_rq (s : Chan) : bool := (length (rq s) + 1 <? 16)%nat.

(** ** The calls *)

Definition is_writer (t : nat) (e : WEntry) : bool := (Nat.eqb (writer e) t && match st e with EWait => true | _ => false end)%bool.
Definition expire_writer (t : nat) (s : Chan) : Chan :=
  set_wq (map (fun e => if is_writer t e then mkW (writer e) (value e) EDead else e) (wq s)) (pos s) s.
Definition expire_reader (t : nat) (s : Chan) : Chan :=
  set_rq (map (fun r => if Nat.eqb (reader r) t then mkR t true else r) (rq s)) s.

Definition step (t : nat) (s : Chan) : list Chan :=
  match threads s !! t with
  | None | Some Idle | Some (Done _ _) => []
  (* Push *)
  | Some (PStart v bw dl) => [if closed_ s then go t (Done false None) s else go t (PLoad v bw dl) s]
  | Some (PLoad v bw dl) =>
      let wait := wait_ s in
      if negb (Z.land wait readMask =? 0) then [go t (PNotify v bw dl) s]
      else if capacity_ s =? 0 then [go t (PCheck0 v bw dl wait) s]
      else [go t (PCas v bw dl wait) s]
  | Some (PNotify v bw dl) =>
      match rq_notify_one (QGot (Some v)) s with
      | (Some _, s) => [go t PTook (log_sent v (log_received v s))]
      | (None, s) => [go t (if capacity_ s =? 0 then PSpin v bw dl else PLoad v bw dl) s]
      end
  | Some (PSpin v bw dl) => [go t (if (closed_ s || negb bw)%bool then Done false None else PLoad v bw dl) s]
  | Some (PTook) => [go t (Done true None) (set_wait (u64 (wait_ s - read1)) s)]
  | Some (PCheck0 v bw dl w) => [go t (if (closed_ s || negb bw)%bool then Done false None else PCas v bw dl w) s]
  | Some (PCas v bw dl w) =>
      go t (PLoad v bw dl) s ::
      (if wait_ s =? w then [go t (PQueue v bw dl) (set_wait (u64 (w + write1)) s)] else [])
  | Some (PQueue v bw dl) =>
      match push_cond bw s with
      | NoQueued => [go t PLeave s]
      | NoWait => if no_sweep s then [go t PClosed (log_sent v (wq_push t v EBuffered s))] else []
      | Waiting => if no_sweep s then [go t (PWait dl) (log_sent v (wq_push t v EWait s))] else []
      end
  | Some (PWait dl) => if dl then [go t PLeave (expire_writer t s)] else []
  | Some PClosed => [go t (Done (negb (closed_ s)) None) s]
  | Some PLeave => [go t (Done false None) (set_wait (u64 (wait_ s - write1)) s)]
  (* Pop *)
  | Some (QLoad bw dl) =>
      let wait := wait_ s in
      if negb (Z.land wait writeMask =? 0) then [go t (QNotify bw dl) s] else [go t (QClosed bw dl (Some wait)) s]
  | Some (QNotify bw dl) =>
      match wq_notify_one s with
      | (Some e, s) => [go t (QTook (value e)) (log_received (value e) s)]
      | (None, s) => [go t (QClosed bw dl None) s]
      end
  | Some (QTook v) => [go t (Done true (Some v)) (set_wait (u64 (wait_ s - write1)) s)]
  | Some (QClosed bw dl w) =>
      [go t (if (closed_ s || negb bw)%bool then Done false None else match w with Some w => QCas bw dl w | None => QLoad bw dl end) s]
  | Some (QCas bw dl w) =>
      go t (QLoad bw dl) s ::
      (if wait_ s =? w then [go t (QQueue dl) (set_wait (u64 (w + read1)) s)] else [])
  | Some (QQueue dl) => if closed_ s then [go t QLeave s] else if no_sweep_rq s then [go t (QWait dl) (set_rq (rq s ++ [mkR t false]) s)] else []
  | Some (QWait dl) => if dl then [go t QLeave (expire_reader t s)] else []
  | Some (QGot o) => [go t (if closed_ s then Done false None else Done true o) s]
  | Some QLeave => [go t (Done false None) (set_wait (u64 (wait_ s - read1)) s)]
  (* Close *)
  | Some CTest => [if closed_ s then go t (Done true None) s else go t CReaders (set_closed s)]
  | Some CReaders =>
      match rq_notify_one (QGot None) s with
      | (Some _, s) => [s]
      | (None, s) => [go t CWriters s]
      end
  | Some CWriters =>
      match wq_notify_one s with
      | (Some _, s) => [s]
      | (None, s) => [go t (Done true None) s]
      end
  end.
(** A thread that is between calls begins one; [timed]: it may have a deadline. *)
Inductive begin (timed : bool) : pc -> Prop :=
| b_push v bw dl : (dl = true -> timed = true) -> begin timed (PStart v bw dl)
| b_pop bw dl : (dl = true -> timed = true) -> begin timed (QLoad bw dl)
| b_close : begin timed CTest.
Definition resting (q : pc) : bool := match q with Idle | Done _ _ => true | _ => false end.
Inductive Step (timed : bool) (s : Chan) : Chan -> Prop :=
| s_begin t q c : threads s !! t = Some q -> resting q = true -> begin timed c -> Step timed s (go t c s)
| s_step t s' : s' ∈ step t s -> Step timed s s'.

(** [Empty] and [Size]. *)
Definition Empty (s : Chan) : bool := match wq s with [] => true | _ => false end.
(** [wq_.size()] is a [bool]. *)
Definition Size (s : Chan) : Z := Z.min (capacity_ s) (match wq s with [] => 0 | _ => 1 end).
End channel.
