(* ===== verification/CasChannelSpec.v ===== *)
(** [CASChannelImpl]: the channel is a queue of values in which readers and writers never wait at
    the same time, as long as it is open and no call has a deadline; and what goes wrong after
    [Close] and after a writer's time is over. *)
From S2P Require Import Prelude CasChannel.
Local Open Scope Z_scope.

Section spec.
Context {V : Type}.
Implicit Types (s : Chan (V:=V)) (q : pc (V:=V)) (e : WEntry (V:=V)) (t : nat).

(** ** The word [wait_] *)

(** What a thread counts for in the upper and in the lower half of [wait_]; a value in the buffer
    counts for the lower half, too. *)
Definition reads q : Z := match q with QQueue _ | QWait _ | QLeave | PTook => 1 | _ => 0 end.
Definition writes q : Z := match q with PQueue _ _ _ | PWait _ | PLeave | QTook _ => 1 | _ => 0 end.
Definition readers s : Z := sumZ reads (threads s).
Definition writers s : Z := sumZ writes (threads s) + Z.min (capacity_ s) (Z.of_nat (length (wq s))).

Lemma land_readMask x : 0 <= x < 2 ^ 64 -> Z.land x readMask = Z.shiftl (Z.shiftr x 32) 32.
Proof.
  intros Hx. change readMask with (Z.shiftl (Z.ones 32) 32). apply Z.bits_inj'. intros i Hi. rewrite Z.land_spec.
  destruct (decide (i < 32)) as [Hl|Hg]; [by rewrite !Z.shiftl_spec_low, andb_false_r by lia|].
  rewrite !Z.shiftl_spec, Z.shiftr_spec by lia. replace (i - 32 + 32) with i by lia.
  destruct (decide (i < 64)).
  - rewrite Z.ones_spec_low by lia. apply andb_true_r.
  - rewrite Z.ones_spec_high, andb_false_r by lia. symmetry. destruct (decide (x = 0)) as [->|Hn]; [apply Z.bits_0|].
    apply Z.bits_above_log2; [lia|]. apply Z.log2_lt_pow2; [lia|]. apply Z.lt_le_trans with (2 ^ 64); [lia|]. apply Z.pow_le_mono_r; lia.
Qed.
Lemma halves r w : 0 <= r < 2 ^ 32 -> 0 <= w < 2 ^ 32 ->
  (Z.land (r * read1 + w * write1) readMask =? 0) = (r =? 0) /\ (Z.land (r * read1 + w * write1) writeMask =? 0) = (w =? 0).
Proof.
  intros Hr Hw. change read1 with (2 ^ 32). unfold write1. rewrite Z.mul_1_r.
  assert (Z.land (r * 2 ^ 32 + w) writeMask = w) as ->.
  { change writeMask with (Z.ones 32). rewrite Z.land_ones by lia. rewrite Z.add_comm, Z_mod_plus_full. apply Z.mod_small. lia. }
  rewrite land_readMask by lia. rewrite Z.shiftr_div_pow2, Z.shiftl_mul_pow2 by lia.
  replace ((r * 2 ^ 32 + w) / 2 ^ 32) with r by (rewrite Z.div_add_l, Z.div_small by lia; lia).
  split; [|done]. destruct (Z.eqb_spec r 0), (Z.eqb_spec (r * 2 ^ 32) 0); lia.
Qed.

(** ** The invariant of an open channel without deadlines *)

(** The queue of writers: the values in the buffer, then the writers that wait; [pos_] is the first
    of these. *)
Record wq_ok (cap : Z) (q : list WEntry) (o : option nat) (ts : list (pc (V:=V))) : Prop := {
  w_st : forall i e, q !! i = Some e -> st e = (if decide (Z.of_nat i < cap) then EBuffered else EWait);
  w_pos : o = (if decide (cap <> 0 /\ cap < Z.of_nat (length q)) then Some (Z.to_nat cap) else None);
  w_wait : forall i e, q !! i = Some e -> cap <= Z.of_nat i -> ts !! writer e = Some (PWait false);
  w_once : forall i j e e', q !! i = Some e -> q !! j = Some e' -> cap <= Z.of_nat i -> cap <= Z.of_nat j -> writer e = writer e' -> i = j;
  w_all : forall t dl, ts !! t = Some (PWait dl) -> exists i e, q !! i = Some e /\ cap <= Z.of_nat i /\ writer e = t }.
Record rq_ok (l : list REntry) (ts : list (pc (V:=V))) : Prop := {
  r_alive : forall r, r ∈ l -> dead r = false /\ ts !! reader r = Some (QWait false);
  r_once : NoDup (reader <$> l);
  r_all : forall t dl, ts !! t = Some (QWait dl) -> t ∈ reader <$> l }.
(** No deadline, and not in the second half of [Close]. *)
Definition calm q : Prop :=
  match q with
  | PStart _ _ dl | PLoad _ _ dl | PNotify _ _ dl | PSpin _ _ dl | PCheck0 _ _ dl _ | PCas _ _ dl _ | PQueue _ _ dl | PWait dl
  | QLoad _ dl | QNotify _ dl | QClosed _ dl _ | QCas _ dl _ | QQueue dl | QWait dl => dl = false
  | CReaders | CWriters => False
  | _ => True
  end.
(** A thread about to exchange remembers a word without the other half. *)
Definition remembers q : Prop :=
  match q with
  | PCheck0 _ _ _ w | PCas _ _ _ w => Z.land w readMask = 0
  | QClosed _ _ (Some w) | QCas _ _ w => Z.land w writeMask = 0
  | _ => True
  end.
Record open_ok s : Prop := {
  o_cap : 0 <= capacity_ s /\ capacity_ s + Z.of_nat (length (threads s)) < 2 ^ 32;
  o_wait : wait_ s = readers s * read1 + writers s * write1;
  o_one : readers s = 0 \/ writers s = 0;
  o_wq : wq_ok (capacity_ s) (wq s) (pos s) (threads s);
  o_rq : rq_ok (rq s) (threads s);
  o_threads : forall t q, threads s !! t = Some q -> calm q /\ remembers q;
  o_fifo : sent s = received s ++ (value <$> wq s);
  o_open : closed_ s = false }.

Lemma counts_range s : 0 <= capacity_ s -> 
  0 <= readers s <= Z.of_nat (length (threads s)) /\ 0 <= writers s <= capacity_ s + Z.of_nat (length (threads s)).
Proof.
  intros Hc. unfold readers, writers.
  assert (forall (f : pc (V:=V) -> Z), (forall q, 0 <= f q <= 1) -> 0 <= sumZ f (threads s) <= Z.of_nat (length (threads s))) as H.
  { intros f Hf. unfold sumZ. induction (threads s) as [|q l IH]; cbn [foldr length]; [lia|]. specialize (Hf q). lia. }
  pose proof (H reads ltac:(intros []; simpl; lia)). pose proof (H writes ltac:(intros []; simpl; lia)). lia.
Qed.

Definition plain q : Prop := match q with PWait _ | QWait _ => False | _ => True end.
Lemma wq_other cap l o (ts : list (pc (V:=V))) t q q' : wq_ok cap l o ts -> ts !! t = Some q -> plain q -> plain q' -> wq_ok cap l o (<[t := q']> ts).
Proof.
  intros [H1 H2 H3 H4 H5] Ht Hq Hq'. constructor; [done|done| |done|].
  - intros i e Hi Hc. specialize (H3 i e Hi Hc). rewrite list_lookup_insert_ne; [done|]. intros ->. rewrite Ht in H3. by simplify_eq/=.
  - intros u dl. rewrite list_lookup_insert. destruct (decide (t = u /\ _)) as [E|E]; [intros ?; by simplify_eq/=|]. apply H5.
Qed.
Definition not_reading q : Prop := match q with QWait _ => False | _ => True end.
Lemma plain_not_reading q : plain q -> not_reading q.
Proof. by destruct q. Qed.
Lemma rq_move l (ts : list (pc (V:=V))) t q q' : rq_ok l ts -> ts !! t = Some q -> not_reading q -> not_reading q' -> rq_ok l (<[t := q']> ts).
Proof.
  intros [H1 H2 H3] Ht Hq Hq'. constructor; [|done|].
  - intros r Hr. destruct (H1 r Hr) as [Hd Hw]. split; [done|]. rewrite list_lookup_insert_ne; [done|]. intros ->. rewrite Ht in Hw. by simplify_eq/=.
  - intros u dl. rewrite list_lookup_insert. destruct (decide (t = u /\ _)) as [E|E]; [intros ?; by simplify_eq/=|]. apply H3.
Qed.
Lemma rq_other l (ts : list (pc (V:=V))) t q q' : rq_ok l ts -> ts !! t = Some q -> plain q -> plain q' -> rq_ok l (<[t := q']> ts).
Proof. intros. eapply rq_move; eauto using plain_not_reading. Qed.
Lemma threads_go (P : pc -> Prop) (ts : list (pc (V:=V))) t q' : (forall u q, ts !! u = Some q -> P q) -> P q' -> forall u q, <[t := q']> ts !! u = Some q -> P q.
Proof. intros H Hq u q. rewrite list_lookup_insert. destruct (decide (t = u /\ _)) as [E|E]; [intros ?; by simplify_eq/=|]. apply H. Qed.

(** A step of a thread that may count itself in or out. *)
Lemma count_ok s t q q' : open_ok s -> threads s !! t = Some q -> plain q -> plain q' -> calm q' -> remembers q' ->
  readers s + reads q' - reads q = 0 \/ writers s + writes q' - writes q = 0 ->
  open_ok (go t q' (set_wait ((readers s + reads q' - reads q) * read1 + (writers s + writes q' - writes q) * write1) s)).
Proof.
  intros [Hc Hw Ho Hwq Hrq Ht Hf Hop] Hq Hp Hp' Hca Hre Hone.
  assert (forall (f : pc -> Z), sumZ f (<[t := q']> (threads s)) = sumZ f (threads s) + f q' - f q) as Hsum.
  { intros f. rewrite (sumZ_insert f _ t q q' Hq). lia. }
  constructor; unfold readers, writers; cbn [go set_wait capacity_ threads wait_ wq pos rq sent received closed_]; rewrite ?length_insert, ?Hsum.
  - done.
  - unfold readers, writers. f_equal; f_equal; lia.
  - unfold readers, writers in Hone. lia.
  - by eapply wq_other.
  - by eapply rq_other.
  - by apply (threads_go (fun q => calm q /\ remembers q)).
  - done.
  - done.
Qed.
Lemma local_ok s t q q' : open_ok s -> threads s !! t = Some q -> plain q -> plain q' -> calm q' -> remembers q' ->
  reads q' = reads q -> writes q' = writes q -> open_ok (go t q' s).
Proof.
  intros Hs Hq Hp Hp' Hca Hre Hr Hw. pose proof (count_ok s t q q' Hs Hq Hp Hp' Hca Hre) as H. rewrite Hr, Hw in H.
  replace (readers s + reads q - reads q) with (readers s) in H by lia. replace (writers s + writes q - writes q) with (writers s) in H by lia.
  rewrite <- (o_wait _ Hs) in H. destruct s. apply H. apply Hs.
Qed.
(** Counting in and out does not wrap around. *)
Lemma word_step s r w : open_ok s -> 0 <= readers s + r < 2 ^ 32 -> 0 <= writers s + w < 2 ^ 32 ->
  u64 (wait_ s + r * read1 + w * write1) = (readers s + r) * read1 + (writers s + w) * write1.
Proof.
  intros Hs Hr Hw. rewrite (o_wait _ Hs). change read1 with (2 ^ 32). unfold write1. unfold u64. rewrite wrap_small; [lia|]. unfold fits. lia.
Qed.

(** ** The queues *)

Lemma reads_range q : 0 <= reads q <= 1.
Proof. destruct q; simpl; lia. Qed.
Lemma writes_range q : 0 <= writes q <= 1.
Proof. destruct q; simpl; lia. Qed.
Lemma readers_some s t q : threads s !! t = Some q -> reads q <= readers s.
Proof. apply sumZ_lower. apply reads_range. Qed.
Lemma writers_some s t q : open_ok s -> threads s !! t = Some q -> writes q <= writers s.
Proof.
  intros Hs Ht. pose proof (o_cap _ Hs). pose proof (sumZ_lower writes (threads s) t q (fun q => proj1 (writes_range q)) Ht).
  unfold writers. lia.
Qed.
(** A queued value counts as a writer, a queued reader as a reader. *)
Lemma queued_writers s : open_ok s -> wq s <> [] -> 0 < writers s.
Proof.
  intros Hs Hn. pose proof (o_cap _ Hs) as [Hc _]. destruct (wq s) as [|e l] eqn:E; [done|].
  assert (0 <= sumZ writes (threads s)) by (apply sumZ_nonneg, writes_range).
  destruct (decide (capacity_ s = 0)) as [H0|H0]; [|unfold writers; rewrite E; simpl; lia].
  pose proof (o_wq _ Hs) as [_ _ Hw _ _]. specialize (Hw 0%nat e). rewrite E in Hw. specialize (Hw eq_refl ltac:(lia)).
  pose proof (writers_some s _ _ Hs Hw) as Hp. simpl in Hp. lia.
Qed.
Lemma queued_readers s : open_ok s -> rq s <> [] -> 0 < readers s.
Proof.
  intros Hs Hn. destruct (rq s) as [|r l] eqn:E; [done|]. pose proof (o_rq _ Hs) as [Hr _ _]. rewrite E in Hr.
  destruct (Hr r ltac:(by left)) as [_ Ht]. pose proof (readers_some s _ _ Ht) as H. simpl in H. lia.
Qed.

Lemma wq_wake cap l o (ts : list (pc (V:=V))) u dl q' : wq_ok cap l o ts -> ts !! u = Some (QWait dl) -> plain q' -> wq_ok cap l o (<[u := q']> ts).
Proof.
  intros [H1 H2 H3 H4 H5] Ht Hq'. constructor; [done|done| |done|].
  - intros i e Hi Hc. specialize (H3 i e Hi Hc). rewrite list_lookup_insert_ne; [done|]. intros ->. congruence.
  - intros x dl'. rewrite list_lookup_insert. destruct (decide (u = x /\ _)); [intros ?; by simplify_eq/=|]. apply H5.
Qed.
(** A push hands its value to a reader that waits. *)
Lemma notify_reader_ok s r l q' : open_ok s -> rq s = r :: l -> rq_notify_one q' s = (Some (reader r), go (reader r) q' (set_rq l s)).
Proof.
  intros Hs E. unfold rq_notify_one. rewrite E. simpl. pose proof (o_rq _ Hs) as [Hr _ _]. rewrite E in Hr.
  destruct (Hr r ltac:(by left)) as [-> _]. done.
Qed.
Lemma hand_over_ok s t v bw dl r l : open_ok s -> threads s !! t = Some (PNotify v bw dl) -> rq s = r :: l ->
  open_ok (go t PTook (log_sent v (log_received v (go (reader r) (QGot (Some v)) (set_rq l s))))).
Proof.
  intros Hs Ht E. pose proof (queued_readers s Hs ltac:(by rewrite E)) as Hpos. destruct (o_one _ Hs) as [?|Hw0]; [lia|].
  assert (wq s = []) as Ewq. { destruct (wq s) eqn:E'; [done|]. pose proof (queued_writers s Hs ltac:(by rewrite E')). lia. }
  pose proof Hs as [Hc Hw _ Hwq [Hr1 Hr2 Hr3] Hth Hf Hop]. rewrite E in *. destruct (Hr1 r ltac:(by left)) as [_ Hrd].
  set (u := reader r) in *. assert (u <> t) as Hut by congruence.
  assert (<[u := QGot (Some v)]> (threads s) !! t = Some (PNotify v bw dl)) as Ht' by (by rewrite list_lookup_insert_ne).
  assert (forall f : pc -> Z, sumZ f (<[t := PTook]> (<[u := QGot (Some v)]> (threads s))) =
    sumZ f (threads s) - f (QWait false) + f (QGot (Some v)) - f (PNotify v bw dl) + f PTook) as Hsum.
  { intros f. by rewrite (sumZ_insert f _ t _ _ Ht'), (sumZ_insert f _ u _ _ Hrd). }
  rewrite fmap_cons in Hr2, Hr3. apply NoDup_cons in Hr2 as [Hrn Hr2].
  constructor; unfold readers, writers; cbn [go set_rq log_sent log_received capacity_ threads wait_ wq pos rq sent received closed_];
    rewrite ?length_insert, ?Hsum; cbn [reads writes].
  - done.
  - rewrite Hw. unfold readers, writers. f_equal; f_equal; lia.
  - right. unfold writers in Hw0. lia.
  - eapply wq_other; [by eapply wq_wake|done|done|done].
  - eapply rq_other; [|done|done|done]. constructor; [|done|].
    + intros r' Hr'. destruct (Hr1 r' ltac:(by right)) as [? ?]. split; [done|]. rewrite list_lookup_insert_ne; [done|].
      intros Heq. apply Hrn. apply list_elem_of_fmap. exists r'. split; [done|done].
    + intros x dl'. rewrite list_lookup_insert. destruct (decide (u = x /\ _)) as [?|Hn]; [intros ?; by simplify_eq/=|].
      intros Hx. pose proof Hx as Hx'. apply Hr3 in Hx as [->|Hx]%elem_of_cons; [|done]. exfalso. apply Hn. split; [done|by eapply lookup_lt_Some].
  - apply (threads_go (fun q => calm q /\ remembers q)); [|done]. by apply (threads_go (fun q => calm q /\ remembers q)).
  - rewrite Hf, Ewq. simpl. by rewrite !app_nil_r.
  - done.
Qed.

(** The queue of writers after its head is gone. *)
Lemma drop_buffered cap e l o ts : 0 <= cap -> wq_ok cap (e :: l) o ts -> Z.of_nat (length l) + 1 <= cap -> o = None /\ wq_ok cap l None ts.
Proof.
  intros Hc [H1 H2 H3 H4 H5] Hl. cbn [length] in H2. rewrite Nat2Z.inj_succ in H2. split; [rewrite H2, decide_False by lia; done|]. constructor.
  - intros i x Hi. specialize (H1 (S i) x Hi). apply lookup_lt_Some in Hi. rewrite decide_True in H1 by lia. by rewrite decide_True by lia.
  - rewrite decide_False by lia. done.
  - intros i x Hi Hge. apply lookup_lt_Some in Hi. lia.
  - intros i j x y Hi Hj Hge. apply lookup_lt_Some in Hi. lia.
  - intros t dl Ht. destruct (H5 t dl Ht) as (i & x & Hi & Hge & _). apply lookup_lt_Some in Hi. simpl in Hi. lia.
Qed.
Lemma drop_unbuffered e l o ts : wq_ok 0 (e :: l) o ts -> o = None /\ ts !! writer e = Some (PWait false) /\ wq_ok 0 l None (<[writer e := PClosed]> ts).
Proof.
  intros [H1 H2 H3 H4 H5]. split; [rewrite H2, decide_False by lia; done|]. pose proof (H3 0%nat e eq_refl ltac:(lia)) as He. split; [done|]. constructor.
  - intros i x Hi. specialize (H1 (S i) x Hi). rewrite decide_False in H1 by lia. by rewrite decide_False by lia.
  - rewrite decide_False by lia. done.
  - intros i x Hi Hge. rewrite list_lookup_insert_ne; [by apply (H3 (S i))|]. intros Heq.
    assert (0%nat = S i) by (eapply (H4 0%nat (S i)); [done|done|lia|lia|done]). done.
  - intros i j x y Hi Hj ?? Hw. assert (S i = S j); [|lia]. eapply H4; [done|done|lia|lia|done].
  - intros t dl. rewrite list_lookup_insert. destruct (decide (writer e = t /\ _)) as [?|Hn]; [intros ?; by simplify_eq/=|].
    intros Ht. destruct (H5 t dl Ht) as ([|i] & x & Hi & Hge & Hx); [|exists i, x; split_and!; [done|lia|done]].
    simpl in Hi. simplify_eq. exfalso. apply Hn. split; [done|by eapply lookup_lt_Some].
Qed.
Lemma drop_convert cap e l o ts : 0 < cap -> wq_ok cap (e :: l) o ts -> cap <= Z.of_nat (length l) ->
  let i := pred (Z.to_nat cap) in
  o = Some (S i) /\ exists x, l !! i = Some x /\ st x = EWait /\ ts !! writer x = Some (PWait false) /\
  wq_ok cap (<[i := mkW (writer x) (value x) EBuffered]> l) (if decide (S i < length l)%nat then Some (S i) else None) (<[writer x := PClosed]> ts).
Proof.
  intros Hc [H1 H2 H3 H4 H5] Hl i. assert (S i = Z.to_nat cap) as Hi by lia.
  split; [rewrite H2, decide_True by (simpl; lia); by rewrite Hi|].
  destruct (lookup_lt_is_Some_2 l i ltac:(lia)) as [x Hx]. exists x. split; [done|].
  pose proof (H1 (S i) x Hx) as Hst. rewrite decide_False in Hst by lia. split; [done|].
  pose proof (H3 (S i) x Hx ltac:(lia)) as Hw. split; [done|].
  assert (forall j y, cap <= Z.of_nat j -> <[i := mkW (writer x) (value x) EBuffered]> l !! j = Some y -> (e :: l) !! S j = Some y) as Hfar.
  { intros j y Hj. rewrite list_lookup_insert_ne by lia. done. }
  constructor.
  - intros j y. rewrite list_lookup_insert. destruct (decide (i = j /\ _)) as [[<- _]|Hn].
    + intros ?. simplify_eq. rewrite decide_True by lia. done.
    + intros Hy. pose proof (H1 (S j) y Hy) as Hs. assert (i <> j) by (intros ->; apply Hn; split; [done|by eapply lookup_lt_Some]).
      destruct (decide (Z.of_nat j < cap)); [rewrite decide_True in Hs by lia|rewrite decide_False in Hs by lia]; done.
  - rewrite length_insert. destruct (decide (S i < length l)%nat); [rewrite decide_True by lia; by rewrite Hi|rewrite decide_False by lia; done].
  - intros j y Hy Hj. specialize (Hfar j y Hj Hy). rewrite list_lookup_insert_ne; [apply (H3 (S j) y Hfar); lia|]. intros Heq.
    assert (S i = S j); [|lia]. eapply H4; [exact Hx|exact Hfar|lia|lia|done].
  - intros j k y z Hy Hz Hj Hk Hyz. assert (S j = S k); [|lia]. eapply H4; [by apply Hfar|by apply Hfar|lia|lia|done].
  - intros t dl. rewrite list_lookup_insert. destruct (decide (writer x = t /\ _)) as [?|Hn]; [intros ?; by simplify_eq/=|].
    intros Ht. destruct (H5 t dl Ht) as ([|j] & y & Hy & Hge & Hyt); [simpl in Hge; lia|]. simpl in Hy.
    assert (i <> j) as Hij. { intros <-. rewrite Hx in Hy. simplify_eq. apply Hn. split; [done|by eapply lookup_lt_Some]. }
    exists j, y. rewrite list_lookup_insert_ne by done. split_and!; [done|lia|done].
Qed.

Lemma taken_ok s t bw dl e l (q' : list WEntry) o' (ts : list pc) : open_ok s -> wq s = e :: l ->
  wq_ok (capacity_ s) q' o' ts -> rq_ok (rq s) ts -> value <$> q' = value <$> l -> length ts = length (threads s) ->
  ts !! t = Some (QNotify bw dl) -> (forall u q, ts !! u = Some q -> calm q /\ remembers q) ->
  sumZ reads ts = sumZ reads (threads s) ->
  sumZ writes ts + Z.min (capacity_ s) (Z.of_nat (length q')) + 1 = sumZ writes (threads s) + Z.min (capacity_ s) (Z.of_nat (length (wq s))) ->
  open_ok (go t (QTook (value e)) (log_received (value e) (mkChan (capacity_ s) (closed_ s) (wait_ s) q' o' (rq s) ts (sent s) (received s)))).
Proof.
  intros Hs E Hwq Hrq Hv Hlen Ht Hth Hr Hw. pose proof Hs as [Hc Hwt Ho _ _ _ Hf Hop].
  constructor; unfold readers, writers; cbn [go log_received capacity_ threads wait_ wq pos rq sent received closed_];
    rewrite ?length_insert, ?(sumZ_insert _ _ t _ _ Ht), ?Hlen; cbn [reads writes].
  - done.
  - rewrite Hwt. unfold readers, writers. f_equal; f_equal; lia.
  - unfold readers, writers in Ho. lia.
  - by eapply wq_other.
  - by eapply rq_other.
  - by apply (threads_go (fun q => calm q /\ remembers q)).
  - rewrite Hf, E, Hv. cbn [fmap list_fmap]. by rewrite <- app_assoc.
  - done.
Qed.
Lemma pop_ok s t bw dl e l : open_ok s -> threads s !! t = Some (QNotify bw dl) -> wq s = e :: l ->
  exists s1, wq_notify_one s = (Some e, s1) /\ open_ok (go t (QTook (value e)) (log_received (value e) s1)).
Proof.
  intros Hs Ht E. pose proof Hs as [[Hc Hn] Hwt Ho Hwq Hrq Hth Hf Hop]. rewrite E in Hwq.
  assert (forall u : nat, threads s !! u = Some (PWait false) -> <[u := PClosed]> (threads s) !! t = Some (QNotify bw dl)) as Hkeep.
  { intros u Hu. rewrite list_lookup_insert_ne; [done|congruence]. }
  assert (forall u : nat, forall v q, <[u := PClosed]> (threads s) !! v = Some q -> calm q /\ remembers q) as Hcalm.
  { intros u. by apply (threads_go (fun q => calm q /\ remembers q)). }
  unfold wq_notify_one. rewrite E. cbn [length notify_writer]. rewrite E. unfold take_head.
  destruct (decide (capacity_ s = 0)) as [H0|H0].
  - rewrite H0 in Hwq. destruct (drop_unbuffered e l _ _ Hwq) as (-> & Hw & Hwq'). pose proof (w_st _ _ _ _ Hwq 0%nat e eq_refl) as ->.
    rewrite decide_False by lia. eexists. split; [done|]. apply (taken_ok s t bw dl e l l None (<[writer e := PClosed]> (threads s))); try done.
    + by rewrite H0.
    + by eapply rq_move.
    + apply length_insert.
    + by apply Hkeep.
    + apply Hcalm.
    + rewrite (sumZ_insert _ _ _ _ _ Hw). simpl. lia.
    + rewrite (sumZ_insert _ _ _ _ _ Hw), E. simpl. lia.
  - pose proof (w_st _ _ _ _ Hwq 0%nat e eq_refl) as Hst. rewrite decide_True in Hst by lia.
    destruct (decide (Z.of_nat (length l) + 1 <= capacity_ s)) as [Hle|Hgt].
    + destruct (drop_buffered _ e l _ _ Hc Hwq Hle) as [-> Hwq']. rewrite Hst. eexists. split; [done|].
      apply (taken_ok s t bw dl e l l None (threads s)); try done. rewrite E. cbn [length]. lia.
    + destruct (drop_convert (capacity_ s) e l _ _ ltac:(lia) Hwq ltac:(lia)) as (-> & x & Hx & Hxs & Hxw & Hwq'). cbn [pred]. rewrite Hst.
      cbn [convert set_wq wq]. rewrite Hx, Hxs. eexists. split; [done|].
      apply (taken_ok s t bw dl e l _ _ (<[writer x := PClosed]> (threads s)) Hs E Hwq').
      * by eapply rq_move.
      * rewrite list_fmap_insert. cbn [value]. apply list_insert_id. by rewrite list_lookup_fmap, Hx.
      * apply length_insert.
      * by apply Hkeep.
      * apply Hcalm.
      * rewrite (sumZ_insert _ _ _ _ _ Hxw). simpl. lia.
      * rewrite (sumZ_insert _ _ _ _ _ Hxw), E, length_insert. cbn [length writes]. lia.
Qed.

(** A push that queues its value. *)
Lemma queue_ok s t v bw : open_ok s -> threads s !! t = Some (PQueue v bw false) ->
  let n := Z.of_nat (length (wq s)) in
  (n < capacity_ s -> open_ok (go t PClosed (log_sent v (wq_push t v EBuffered s)))) /\
  (capacity_ s <= n -> open_ok (go t (PWait false) (log_sent v (wq_push t v EWait s)))).
Proof.
  intros Hs Ht n. pose proof Hs as [[Hc Hn] Hwt Ho Hwq Hrq Hth Hf Hop].
  assert (value <$> (wq s ++ [mkW t v EWait]) = (value <$> wq s) ++ [v]) as Hv by by rewrite fmap_app.
  assert (value <$> (wq s ++ [mkW t v EBuffered]) = (value <$> wq s) ++ [v]) as Hv' by by rewrite fmap_app.
  assert (Hnot : forall i e, wq s !! i = Some e -> capacity_ s <= Z.of_nat i -> writer e <> t).
  { intros i e Hi Hge <-. pose proof (w_wait _ _ _ _ Hwq i e Hi Hge). congruence. }
  subst n. split; intros Hcase; constructor; unfold readers, writers; unfold go, log_sent, wq_push, set_wq;
    cbn [capacity_ threads wait_ wq pos rq sent received closed_]; rewrite ?length_insert, ?(sumZ_insert _ _ t _ _ Ht), ?length_app; cbn [reads writes length].
  1,9: done.
  1,8: rewrite Hwt; unfold readers, writers; f_equal; f_equal; lia.
  1,7: unfold readers, writers in Ho; lia.
  2,7: by eapply rq_move.
  2,6: by apply (threads_go (fun q => calm q /\ remembers q)).
  2,5: rewrite Hf, ?Hv, ?Hv', app_assoc; done.
  2,4: done.
  - rewrite (proj2 (Z.eqb_neq (Z.of_nat (length (wq s) + 1)) _)) by lia. rewrite andb_false_r.
    pose proof Hwq as [H1 H2 H3 H4 H5]. rewrite decide_False in H2 by lia.
    assert (forall i e, (wq s ++ [mkW t v EBuffered]) !! i = Some e -> Z.of_nat i < capacity_ s) as Hlt.
    { intros i e Hi%lookup_lt_Some. rewrite length_app in Hi. simpl in Hi. lia. }
    constructor.
    + intros i e Hi. pose proof (Hlt i e Hi). rewrite decide_True by lia. apply lookup_snoc_Some in Hi as [[Hi Hl]|[-> <-]]; [|done].
      specialize (H1 i e Hl). by rewrite decide_True in H1 by lia.
    + rewrite length_app, decide_False by (simpl; lia). done.
    + intros i e Hi Hge. pose proof (Hlt i e Hi). lia.
    + intros i j e e' Hi Hj Hge. pose proof (Hlt i e Hi). lia.
    + intros u dl. rewrite list_lookup_insert. destruct (decide (t = u /\ _)); [done|]. intros Hu.
      destruct (H5 u dl Hu) as (i & e & Hi & Hge & _). apply lookup_lt_Some in Hi. lia.
  - pose proof Hwq as [H1 H2 H3 H4 H5]. constructor.
    + intros i e [[Hi Hl]|[-> <-]]%lookup_snoc_Some; [by apply H1|]. by rewrite decide_False by lia.
    + rewrite length_app. cbn [length]. destruct (Z.eqb_spec (capacity_ s) 0) as [H0|H0]; cbn [negb andb].
      * rewrite decide_False by lia. rewrite H2, decide_False by lia. done.
      * destruct (Z.eqb_spec (Z.of_nat (length (wq s) + 1)) (capacity_ s + 1)).
        -- rewrite decide_True by lia. f_equal. lia.
        -- rewrite H2, !decide_True by lia. done.
    + intros i e [[Hi Hl]|[-> <-]]%lookup_snoc_Some Hge.
      * rewrite list_lookup_insert_ne; [by eapply H3|]. pose proof (Hnot i e Hl Hge). done.
      * simpl. apply list_lookup_insert_eq. by eapply lookup_lt_Some.
    + intros i j e e' [[Hi Hl]|[-> <-]]%lookup_snoc_Some [[Hj Hl']|[-> <-]]%lookup_snoc_Some Hge Hge' Hw; simpl in Hw; [by eapply H4| | |done].
      * by destruct (Hnot i e Hl Hge).
      * by destruct (Hnot j e' Hl' Hge').
    + intros u dl. rewrite list_lookup_insert. destruct (decide (t = u /\ _)) as [[<- _]|Hu].
      * intros _. exists (length (wq s)), (mkW t v EWait). split_and!; [|lia|done]. by rewrite lookup_app_r, Nat.sub_diag by lia.
      * intros Hw. destruct (H5 u dl Hw) as (i & e & Hi & Hge & He). exists i, e. split_and!; [|done|done].
        rewrite lookup_app_l; [done|by eapply lookup_lt_Some].
Qed.

(** A pop that queues its reader. *)
Lemma park_ok s t : open_ok s -> threads s !! t = Some (QQueue false) -> open_ok (go t (QWait false) (set_rq (rq s ++ [mkR t false]) s)).
Proof.
  intros Hs Ht. pose proof Hs as [Hc Hwt Ho Hwq [H1 H2 H3] Hth Hf Hop].
  constructor; unfold readers, writers; unfold go, set_rq; cbn [capacity_ threads wait_ wq pos rq sent received closed_];
    rewrite ?length_insert, ?(sumZ_insert _ _ t _ _ Ht); cbn [reads writes].
  - done.
  - rewrite Hwt. unfold readers, writers. f_equal; f_equal; lia.
  - unfold readers, writers in Ho. lia.
  - destruct Hwq as [W1 W2 W3 W4 W5]. constructor; [done|done| |done|].
    + intros i e Hi Hge. rewrite list_lookup_insert_ne; [by eapply W3|]. intros ->. specialize (W3 i e Hi Hge). congruence.
    + intros u dl. rewrite list_lookup_insert. destruct (decide (t = u /\ _)); [done|]. apply W5.
  - constructor.
    + intros r [Hr| ->%list_elem_of_singleton]%elem_of_app.
      * destruct (H1 r Hr) as [Hd Hw]. split; [done|]. rewrite list_lookup_insert_ne; [done|congruence].
      * split; [done|]. simpl. apply list_lookup_insert_eq. by eapply lookup_lt_Some.
    + rewrite fmap_app. apply NoDup_app. split_and!; [done| |apply NoDup_singleton].
      intros u Hu Hut%list_elem_of_singleton. simpl in Hut. subst u. apply list_elem_of_fmap in Hu as (r & -> & Hr).
      destruct (H1 r Hr) as [_ Hw]. congruence.
    + intros u dl. rewrite fmap_app. rewrite list_lookup_insert. destruct (decide (t = u /\ _)) as [[<- _]|Hu].
      * intros _. apply elem_of_app. right. by left.
      * intros Hw. apply elem_of_app. left. by eapply H3.
  - by apply (threads_go (fun q => calm q /\ remembers q)).
  - done.
  - done.
Qed.

(** ** One step *)

Lemma half_zero s : open_ok s ->
  (Z.land (wait_ s) readMask =? 0) = (readers s =? 0) /\ (Z.land (wait_ s) writeMask =? 0) = (writers s =? 0).
Proof.
  intros Hs. pose proof (o_cap _ Hs) as [Hc Hn]. pose proof (counts_range s Hc). rewrite (o_wait _ Hs). apply halves; lia.
Qed.
(** A step after which the word has changed by [r] readers and [w] writers. *)
Lemma word_ok s t q q' r w z : open_ok s -> threads s !! t = Some q -> plain q -> plain q' -> calm q' -> remembers q' ->
  reads q' - reads q = r -> writes q' - writes q = w -> readers s + r = 0 \/ writers s + w = 0 ->
  z = wait_ s + r * read1 + w * write1 -> 0 <= readers s + r -> 0 <= writers s + w -> open_ok (go t q' (set_wait (u64 z) s)).
Proof.
  intros Hs Ht Hp Hp' Hca Hre Hr Hw Ho -> Hr0 Hw0. pose proof (count_ok s t q q' Hs Ht Hp Hp' Hca Hre ltac:(lia)) as H.
  pose proof (o_cap _ Hs) as [Hc Hn]. pose proof (counts_range s Hc). pose proof (reads_range q). pose proof (reads_range q'). pose proof (writes_range q). pose proof (writes_range q').
  pose proof (lookup_lt_Some _ _ _ Ht).
  assert (readers s + r < 2 ^ 32 /\ writers s + w < 2 ^ 32).
  { assert (forall f : pc -> Z, (forall q, 0 <= f q <= 1) -> sumZ f (<[t := q']> (threads s)) <= Z.of_nat (length (threads s))) as Hb.
    { intros f Hf. rewrite <- (length_insert (threads s) t q'). unfold sumZ. induction (<[t := q']> (threads s)) as [|x l IH]; cbn [foldr length]; [lia|]. specialize (Hf x). lia. }
    pose proof (Hb reads reads_range) as Hb1. pose proof (Hb writes writes_range) as Hb2. rewrite (sumZ_insert reads _ _ _ _ Ht) in Hb1. rewrite (sumZ_insert writes _ _ _ _ Ht) in Hb2.
    unfold readers, writers. lia. }
  rewrite word_step by (try done; lia). replace (readers s + r) with (readers s + reads q' - reads q) by lia.
  by replace (writers s + w) with (writers s + writes q' - writes q) by lia.
Qed.
Lemma set_rq_id s : rq s = [] -> set_rq [] s = s.
Proof. intros E. destruct s. simpl in *. by subst. Qed.
Lemma step_open s t s' : open_ok s -> s' ∈ step t s -> closed_ s' = true \/ open_ok s'.
Proof.
  intros Hs Hin. unfold step in Hin. destruct (threads s !! t) as [q|] eqn:Ht; [|by apply elem_of_nil in Hin].
  pose proof (o_threads _ Hs t q Ht) as [Hca Hre]. pose proof (o_open _ Hs) as Hop. destruct (half_zero s Hs) as [Hrz Hwz].
  pose proof (o_cap _ Hs) as [Hc _]. pose proof (counts_range s Hc) as [Hr0 Hw0]. pose proof (readers_some s t q Ht) as Hrs. pose proof (writers_some s t q Hs Ht) as Hws.
  destruct q; simpl in Hca, Hre, Hrs, Hws; subst; rewrite ?Hop in Hin; cbn [orb negb] in Hin; try (by apply elem_of_nil in Hin); try done.
  - (* PStart *) apply list_elem_of_singleton in Hin as ->. right. by eapply local_ok.
  - (* PLoad *) rewrite Hrz in Hin. destruct (Z.eqb_spec (readers s) 0) as [E|E]; cbn [negb] in Hin.
    + assert (Z.land (wait_ s) readMask = 0) by by apply Z.eqb_eq.
      destruct (capacity_ s =? 0); apply list_elem_of_singleton in Hin as ->; right; by eapply local_ok.
    + apply list_elem_of_singleton in Hin as ->. right. by eapply local_ok.
  - (* PNotify *) destruct (rq s) as [|r l] eqn:E.
    + unfold rq_notify_one in Hin. rewrite E in Hin. cbn [notify_reader] in Hin. rewrite set_rq_id in Hin by done.
      apply list_elem_of_singleton in Hin as ->. right. destruct (capacity_ s =? 0); by eapply local_ok.
    + rewrite (notify_reader_ok s r l _ Hs E) in Hin. apply list_elem_of_singleton in Hin as ->. right. by eapply hand_over_ok.
  - (* PSpin *) apply list_elem_of_singleton in Hin as ->. right. destruct bw; by eapply local_ok.
  - (* PCheck0 *) apply list_elem_of_singleton in Hin as ->. right. destruct bw; by eapply local_ok.
  - (* PCas *) apply elem_of_cons in Hin as [->|Hin]; [right; by eapply local_ok|]. destruct (Z.eqb_spec (wait_ s) w) as [Ew|]; [|by apply elem_of_nil in Hin]. subst w.
    apply list_elem_of_singleton in Hin as ->. right. rewrite <- Z.eqb_eq, Hrz, Z.eqb_eq in Hre. eapply (word_ok s t _ _ 0 1); try done; try lia.
  - (* PQueue *) destruct (queue_ok s t v bw Hs Ht) as [Hbuf Hpark]. unfold push_cond in Hin. rewrite Hop in Hin.
    destruct (Z.ltb_spec (Z.of_nat (length (wq s))) (capacity_ s)); [|destruct bw; cbn [negb] in Hin].
    + destruct (no_sweep s); [|by apply elem_of_nil in Hin]. apply list_elem_of_singleton in Hin as ->. right. by apply Hbuf.
    + destruct (no_sweep s); [|by apply elem_of_nil in Hin]. apply list_elem_of_singleton in Hin as ->. right. by apply Hpark.
    + apply list_elem_of_singleton in Hin as ->. right. by eapply local_ok.
  - (* PClosed *) apply list_elem_of_singleton in Hin as ->. right. by eapply local_ok.
  - (* PLeave *) apply list_elem_of_singleton in Hin as ->. right. pose proof (o_one _ Hs). eapply (word_ok s t _ _ 0 (-1)); try done; try lia.
  - (* PTook *) apply list_elem_of_singleton in Hin as ->. right. pose proof (o_one _ Hs). eapply (word_ok s t _ _ (-1) 0); try done; try lia.
  - (* QLoad *) rewrite Hwz in Hin. destruct (Z.eqb_spec (writers s) 0) as [E|E]; cbn [negb] in Hin; apply list_elem_of_singleton in Hin as ->; right.
    + assert (Z.land (wait_ s) writeMask = 0) by by apply Z.eqb_eq. by eapply local_ok.
    + by eapply local_ok.
  - (* QNotify *) destruct (wq s) as [|e l] eqn:E.
    + unfold wq_notify_one in Hin. rewrite E in Hin. cbn [length notify_writer] in Hin.
      apply list_elem_of_singleton in Hin as ->. right. by eapply local_ok.
    + destruct (pop_ok s t bw false e l Hs Ht E) as (s1 & Hn & Hok). rewrite Hn in Hin. apply list_elem_of_singleton in Hin as ->. by right.
  - (* QClosed *) apply list_elem_of_singleton in Hin as ->. right. destruct bw; cbn [negb]; [destruct w|]; by eapply local_ok.
  - (* QCas *) apply elem_of_cons in Hin as [->|Hin]; [right; by eapply local_ok|]. destruct (Z.eqb_spec (wait_ s) w) as [Ew|]; [|by apply elem_of_nil in Hin]. subst w.
    apply list_elem_of_singleton in Hin as ->. right. rewrite <- Z.eqb_eq, Hwz, Z.eqb_eq in Hre. eapply (word_ok s t _ _ 1 0); try done; try lia.
  - (* QQueue *) destruct (no_sweep_rq s); [|by apply elem_of_nil in Hin]. apply list_elem_of_singleton in Hin as ->. right. by apply park_ok.
  - (* QGot *) apply list_elem_of_singleton in Hin as ->. right. by eapply local_ok.
  - (* QLeave *) apply list_elem_of_singleton in Hin as ->. right. pose proof (o_one _ Hs). eapply (word_ok s t _ _ (-1) 0); try done; try lia.
  - (* QTook *) apply list_elem_of_singleton in Hin as ->. right. pose proof (o_one _ Hs). eapply (word_ok s t _ _ 0 (-1)); try done; try lia.
  - (* CTest *) apply list_elem_of_singleton in Hin as ->. by left.
Qed.

Lemma steps_open s s' : (closed_ s = true \/ open_ok s) -> rtc (Step false) s s' -> closed_ s' = true \/ open_ok s'.
Proof.
  intros Hs Hr. revert Hs. induction Hr as [s|s s1 s' Hst _ IH]; [done|]. intros Hs. apply IH. clear IH. destruct Hst as [t q c Ht Hq Hb|t s1 Hin].
  - destruct Hs as [Hs|Hs]; [by left|]. right.
    assert (plain c /\ calm c /\ remembers c /\ reads c = 0 /\ writes c = 0) as (H1 & H2 & H3 & H4 & H5).
    { destruct Hb as [v bw dl Hdl|bw dl Hdl|]; simpl; split_and!; try done; destruct dl; try done; by specialize (Hdl eq_refl). }
    eapply local_ok; [done|done| |done|done|done| |]; destruct q; try done; simpl; lia.
  - destruct Hs as [Hs|Hs]; [|by eapply step_open]. left. unfold step in Hin.
    assert (forall q l, closed_ (notify_reader q l s).2 = true) as Hnr.
    { intros q l. induction l as [|r l IH]; simpl; [done|]. destruct (dead r); done. }
    assert (forall fuel i x, closed_ (V:=V) x = true -> closed_ (convert fuel i x) = true) as Hcv.
    { intros fuel. induction fuel as [|fuel IH]; intros i x Hx; simpl; [done|]. destruct (wq x !! i) as [e|]; [|done]. destruct (st e); [done|done|]. by apply IH. }
    assert (forall fuel x, closed_ (V:=V) x = true -> closed_ (notify_writer fuel x).2 = true) as Hnw.
    { intros fuel. induction fuel as [|fuel IH]; intros x Hx; simpl; [done|]. destruct (wq x) as [|e l]; [done|].
      assert (closed_ (take_head l x) = true) by (unfold take_head; destruct (pos x); [by apply Hcv|done]). destruct (st e); simpl; [done|done|by apply IH]. }
    pose proof (Hnw (length (wq s)) s Hs) as Hw. unfold rq_notify_one, wq_notify_one in Hin.
    destruct (threads s !! t) as [q|]; [|by apply elem_of_nil in Hin].
    destruct q; rewrite ?Hs in Hin;
      repeat match type of Hin with
      | context [notify_reader ?q ?l s] => pose proof (Hnr q l); destruct (notify_reader q l s) as [[]]
      | context [notify_writer ?n s] => destruct (notify_writer n s) as [[]]
      | context [if ?b then _ else _] => destruct b
      | context [push_cond ?b s] => destruct (push_cond b s)
      end; cbn [snd] in *;
      repeat match goal with
      | H : _ ∈ _ :: _ |- _ => apply elem_of_cons in H as [->|H]
      | H : _ ∈ [] |- _ => by apply elem_of_nil in H
      end; done.
Qed.
Lemma new_open cap n : 0 <= cap -> cap + Z.of_nat n < 2 ^ 32 -> open_ok (Chan_new cap n).
Proof.
  intros Hc Hn. assert (forall (f : pc (V:=V) -> Z), f Idle = 0 -> sumZ f (replicate n Idle) = 0) as Hz.
  { intros f Hf. apply sumZ_zero. intros q [-> _]%elem_of_replicate. done. }
  assert (forall t q, replicate n (Idle (V:=V)) !! t = Some q -> q = Idle) as Hi by (intros t q [-> _]%lookup_replicate; done).
  constructor; unfold Chan_new, readers, writers; simpl; rewrite ?length_replicate, ?Hz by done.
  - lia.
  - rewrite Z.min_r by lia. done.
  - by left.
  - constructor; simpl; [done| |done|done|].
    + rewrite decide_False by lia. done.
    + intros t dl Ht. by apply Hi in Ht.
  - constructor; [intros r ?%elem_of_nil; done|constructor|]. intros t dl Ht. by apply Hi in Ht.
  - intros t q ->%Hi. done.
  - done.
  - done.
Qed.

End spec.

(** ** Runs *)

Inductive act := Begin (t : nat) (c : pc (V:=Z)) | Go (t i : nat).
Definition may_begin (timed : bool) (c : pc (V:=Z)) : bool :=
  match c with PStart _ _ dl | QLoad _ dl => implb dl timed | CTest => true | _ => false end.
Definition act_step (timed : bool) (a : act) (s : Chan) : option Chan :=
  match a with
  | Begin t c => q ← threads s !! t; if (resting q && may_begin timed c)%bool then Some (go t c s) else None
  | Go t i => step t s !! i
  end.
Fixpoint run (timed : bool) (l : list act) (s : Chan) : option Chan :=
  match l with [] => Some s | a :: l => s ← act_step timed a s; run timed l s end.
Lemma run_steps timed l s s' : run timed l s = Some s' -> rtc (Step timed) s s'.
Proof.
  revert s. induction l as [|a l IH]; intros s H; simpl in H; [injection H as ->; apply rtc_refl|].
  destruct (act_step timed a s) as [s1|] eqn:E; [|done]. eapply rtc_l; [|by apply IH]. destruct a as [t c|t i]; simpl in E.
  - destruct (threads s !! t) as [q|] eqn:Ht; [|done]. simpl in E. destruct (resting q && may_begin timed c)%bool eqn:Hb; [|done].
    apply andb_true_iff in Hb as [Hq Hb]. injection E as <-. eapply s_begin; [done|done|].
    destruct c; try done; constructor; by destruct dl, timed.
  - eapply s_step. by eapply list_elem_of_lookup_2.
Qed.
Definition steps (t n : nat) : list act := replicate n (Go t 0).


(** ** After [Close] *)

(** A push of a channel with a buffer that was under way when a waiting reader was closed out. *)
Definition harmless (q : pc (V:=Z)) : bool :=
  match q with Idle | Done _ _ | PStart _ _ _ | QLoad _ _ | QClosed _ _ _ | CTest => true | _ => false end.
Definition spinning (q : pc (V:=Z)) : bool := match q with PLoad _ _ _ | PNotify _ _ _ => true | _ => false end.
Record stale (t : nat) (s : Chan (V:=Z)) : Prop := {
  k_closed : closed_ s = true; k_wait : wait_ s = read1; k_rq : rq s = []; k_cap : capacity_ s <> 0;
  k_spin : exists q, threads s !! t = Some q /\ spinning q = true;
  k_others : forall u q, u <> t -> threads s !! u = Some q -> harmless q = true }.
Lemma stale_go t u q q' (s : Chan) : stale t s -> threads s !! u = Some q -> (if decide (u = t) then spinning q' else harmless q') = true -> stale t (go u q' s).
Proof.
  intros [H1 H2 H3 H4 (q0 & Ht & Hq0) H6] Hu Hq'. constructor; cbn [go closed_ wait_ rq capacity_ threads]; [done..| |].
  - destruct (decide (u = t)) as [->|Hn]; [exists q'; split; [by rewrite list_lookup_insert_eq by (by eapply lookup_lt_Some)|done]|].
    exists q0. by rewrite list_lookup_insert_ne.
  - intros v x Hv Hx. destruct (decide (u = v)) as [->|Hn].
    + rewrite list_lookup_insert_eq in Hx by (by eapply lookup_lt_Some). rewrite decide_False in Hq' by done. by simplify_eq.
    + rewrite list_lookup_insert_ne in Hx by done. by eapply H6.
Qed.
Lemma stale_step timed t s s' : stale t s -> Step timed s s' -> stale t s'.
Proof.
  intros Hs Hst. pose proof Hs as [H1 H2 H3 H4 (q0 & Ht & Hq0) H6]. destruct Hst as [u q c Hu Hq Hb|u s' Hin].
  - destruct (decide (u = t)) as [->|Hn]; [rewrite Ht in Hu; simplify_eq; by destruct q|].
    eapply stale_go; [done|done|]. rewrite decide_False by done. by destruct Hb.
  - unfold step in Hin. destruct (threads s !! u) as [q|] eqn:Hu; [|by apply elem_of_nil in Hin].
    assert ((if decide (u = t) then spinning q else harmless q) = true) as Hq.
    { destruct (decide (u = t)) as [->|Hn]; [rewrite Ht in Hu; by simplify_eq|by eapply H6]. }
    assert (set_rq [] s = s) as Hrq by (destruct s; simpl in *; by subst).
    unfold rq_notify_one in Hin. rewrite H1, H2, H3 in Hin. cbn [notify_reader] in Hin. rewrite ?Hrq in Hin.
    destruct (decide (u = t)) as [->|Hn].
    + destruct q; try done; simpl in Hin; rewrite ?(proj2 (Z.eqb_neq _ _) H4) in Hin;
        apply list_elem_of_singleton in Hin as ->; eapply stale_go; try done; by rewrite decide_True.
    + destruct q; try done; simpl in Hin; try (by apply elem_of_nil in Hin);
        apply list_elem_of_singleton in Hin as ->; eapply stale_go; try done; by rewrite decide_False.
Qed.

(** C36: [Close] wakes the waiting readers but leaves them in [wait_]; a push that has passed its test
    of [closed_] then believes for ever that a reader waits: it never returns, whatever happens. *)
Theorem cas_close_livelock : exists s : Chan (V:=Z),
  rtc (Step false) (Chan_new 1 3) s /\ threads s = [Done false None; PLoad 7 true false; Done true None] /\
  forall timed s', rtc (Step timed) s s' -> exists q, threads s' !! 1%nat = Some q /\ spinning q = true.
Proof.
  set (script := Begin 0 (QLoad true false) :: steps 0 2 ++ [Go 0 1] ++ steps 0 1 ++
    Begin 1 (PStart 7 true false) :: steps 1 1 ++ Begin 2 CTest :: steps 2 4 ++ steps 0 1).
  set (s := default (Chan_new 1 3) (run false script (Chan_new 1 3))).
  exists s. split; [apply (run_steps false script); vm_compute; reflexivity|]. split; [vm_compute; reflexivity|].
  intros timed s' Hr. assert (stale 1 s) as Hs.
  { constructor; [vm_compute; reflexivity..| | |].
    - intros H. vm_compute in H. discriminate H.
    - exists (PLoad 7 true false). split; vm_compute; reflexivity.
    - intros u q Hu Hq. assert (threads s = [Done false None; PLoad 7 true false; Done true None]) as E by (vm_compute; reflexivity).
      rewrite E in Hq. destruct u as [|[|[|u]]]; simpl in Hq; by simplify_eq/=. }
  clearbody s. induction Hr as [s|s s1 s' Hst _ IH]; [apply (k_spin _ _ Hs)|]. apply IH. by eapply stale_step.
Qed.

(** ** Writers whose time is over *)

(** A push up to its place in the queue. *)
Definition push_queued (t : nat) (v : Z) (dl : bool) : list act := Begin t (PStart v true dl) :: steps t 2 ++ [Go t 1] ++ steps t 1.
(** Popping the entry of a writer whose time is over lets one more waiting writer go on without
    freeing a place: the buffer then holds more values than the capacity. *)
Theorem cas_capacity_exceeded : exists s : Chan (V:=Z),
  rtc (Step true) (Chan_new 1 6) s /\ closed_ s = false /\ capacity_ s = 1 /\
  map st (wq s) = [EBuffered; EBuffered] /\ threads s !! 3%nat = Some (Done true None) /\ threads s !! 4%nat = Some (Done true None).
Proof.
  set (script := push_queued 0 10 false ++ steps 0 1 ++ push_queued 1 11 true ++ push_queued 2 12 false ++ push_queued 3 13 false ++ push_queued 4 14 false ++
    steps 1 2 ++ Begin 5 (QLoad true false) :: steps 5 3 ++ Begin 5 (QLoad true false) :: steps 5 3 ++ steps 3 1 ++ steps 4 1).
  exists (default (Chan_new 1 6) (run true script (Chan_new 1 6))).
  split; [apply (run_steps true script); vm_compute; reflexivity|]. vm_compute. done.
Qed.
