(* ===== verification/CoroutinePool.v ===== *)
(** [src/pool/AsyncCoroutinePool.cpp]: a pool of coroutines that run tasks and hand the callbacks of
    the tasks to callback points in turn.

    [AddCallbackPoint] and the part of [Go] that chooses a point go through their accesses one by one.
    Points and callbacks are numbers; a slot of [points_] that nobody has written is [None].  The
    channels are used by their specification, as queues of values. *)
From S2P Require Import Prelude.
Local Open Scope Z_scope.

(** ** Start *)

(** [maxCoroutineCount_] after [Start]; the arguments are [int]s. *)
Definition coroutine_count (maxCoroutineCount minThreadNumber maxThreadNumber : Z) : Z :=
  if maxCoroutineCount =? 0 then Z.min (u64 (Z.max (minThreadNumber * 128) maxThreadNumber)) 10240 else maxCoroutineCount.

(** ** Callback points *)

Definition point : Type := nat.
Definition callback : Type := nat.

(** A thread before its next access.  [AInc]: at the start of [AddCallbackPoint]; [ADec]: the pool is
    full; [GCount]: a coroutine with a callback to hand over; [GPost c i]: about to post to
    [points_[i]], having read [c] points; [GRun]: runs the callback itself. *)
Inductive pc :=
| Idle | AInc (p : point) | ADec | AStore (p : point) (writeIdx : nat) | AExchange (p : point) (writeIdx : nat) | ADone (ok : bool)
| GCount (cb : callback) | GRobin (cb : callback) (pointsCount : nat) | GPost (cb : callback) (pointsCount idx : nat)
| GRun (cb : callback) | GPosted (cb : callback) (p : option point).

Record Pool := mkPool {
  maxCallbackPoints_ : nat; pointsCount_ : nat; writePointsCount_ : nat; robin_ : Z;
  points_ : list (option point); threads : list pc }.
Definition Pool_new (maxCallbackPoints n : nat) : Pool :=
  mkPool maxCallbackPoints 0 0 0 (replicate maxCallbackPoints None) (replicate n Idle).

Definition go (t : nat) (q : pc) (p : Pool) : Pool :=
  mkPool (maxCallbackPoints_ p) (pointsCount_ p) (writePointsCount_ p) (robin_ p) (points_ p) (<[t := q]> (threads p)).
Definition set_count (c : nat) (p : Pool) : Pool :=
  mkPool (maxCallbackPoints_ p) c (writePointsCount_ p) (robin_ p) (points_ p) (threads p).
Definition set_write (w : nat) (p : Pool) : Pool :=
  mkPool (maxCallbackPoints_ p) (pointsCount_ p) w (robin_ p) (points_ p) (threads p).
Definition set_robin (r : Z) (p : Pool) : Pool :=
  mkPool (maxCallbackPoints_ p) (pointsCount_ p) (writePointsCount_ p) r (points_ p) (threads p).
Definition set_point (i : nat) (x : point) (p : Pool) : Pool :=
  mkPool (maxCallbackPoints_ p) (pointsCount_ p) (writePointsCount_ p) (robin_ p) (<[i := Some x]> (points_ p)) (threads p).

Definition step (t : nat) (s : Pool) : list Pool :=
  match threads s !! t with
  (* AddCallbackPoint *)
  | Some (AInc p) =>
      let w := writePointsCount_ s in
      [go t (if decide (maxCallbackPoints_ s <= w)%nat then ADec else AStore p w) (set_write (S w) s)]
  | Some ADec => [go t (ADone false) (set_write (pred (writePointsCount_ s)) s)]
  | Some (AStore p w) => [go t (AExchange p w) (set_point w p s)]
  | Some (AExchange p w) =>     (* a failed exchange loads the count into [writeIdx] *)
      go t (AExchange p (pointsCount_ s)) s ::
      (if decide (pointsCount_ s = w) then [go t (ADone true) (set_count (S w) s)] else [])
  (* Go *)
  | Some (GCount cb) =>
      let c := pointsCount_ s in
      [go t (if decide (c = 0%nat) then GRun cb else GRobin cb c) s]
  | Some (GRobin cb c) =>
      let r := u64 (robin_ s + 1) in
      [go t (GPost cb c (Z.to_nat (r mod Z.of_nat c))) (set_robin r s)]
  | Some (GPost cb c i) => match points_ s !! i with Some x => [go t (GPosted cb x) s] | None => [] end
  | _ => []
  end.
Inductive Step (s : Pool) : Pool -> Prop :=
| s_add t p : threads s !! t = Some Idle -> Step s (go t (AInc p) s)
| s_task t cb : threads s !! t = Some Idle -> Step s (go t (GCount cb) s)
| s_step t s' : s' ∈ step t s -> Step s s'.

(** [CallbackPoint::Run]: the callbacks it calls, and those left in the channel. *)
Fixpoint Run_loop (maxTrigger i : Z) (channel : list callback) : list callback * list callback * Z :=
  if ((i <? maxTrigger) || (maxTrigger =? 0))%bool then
    match channel with
    | [] => ([], [], i)
    | cb :: channel => let '(called, rest, n) := Run_loop maxTrigger (i + 1) channel in (cb :: called, rest, n)
    end
  else ([], channel, i).
Definition Run (maxTrigger : Z) (channel : list callback) : list callback * list callback * Z := Run_loop maxTrigger 0 channel.
