(* ===== verification/CoroutinePoolSpec.v ===== *)
(** The coroutine pool: each callback point gets a slot of its own that is never overwritten, a post
    stays within the array, and once no registration is under way within what is written; before
    that a coroutine can use a slot nobody has written. *)
From S2P Require Import Prelude CoroutinePool.
Local Open Scope Z_scope.
Implicit Types (s : Pool) (t i w c : nat) (q : pc).

(** ** The invariant *)

Definition failing q : Z := match q with ADec => 1 | _ => 0 end.
Definition adding q : Z := match q with AStore _ _ | AExchange _ _ => 1 | _ => 0 end.
(** The slots given out. *)
Definition given s : Z := Z.of_nat (writePointsCount_ s) - sumZ failing (threads s).

Record pool_ok s : Prop := {
  p_len : length (points_ s) = maxCallbackPoints_ s;
  p_given : 0 <= given s <= Z.of_nat (maxCallbackPoints_ s) /\ (0 < sumZ failing (threads s) -> given s = Z.of_nat (maxCallbackPoints_ s));
  p_count : Z.of_nat (pointsCount_ s) + sumZ adding (threads s) = given s;
  p_store : forall t p w, threads s !! t = Some (AStore p w) -> Z.of_nat w < given s /\ points_ s !! w = Some None;
  p_own : forall t u p x w, threads s !! t = Some (AStore p w) -> threads s !! u = Some (AStore x w) -> t = u;
  p_slots : forall i, Z.of_nat i < given s -> (exists x, points_ s !! i = Some (Some x)) \/ exists t p, threads s !! t = Some (AStore p i);
  p_rest : forall i x, points_ s !! i = Some (Some x) -> Z.of_nat i < given s;
  p_robin : forall t cb c, threads s !! t = Some (GRobin cb c) -> (0 < c <= maxCallbackPoints_ s)%nat;
  p_post : forall t cb c i, threads s !! t = Some (GPost cb c i) -> (i < c <= maxCallbackPoints_ s)%nat }.

Lemma co_failing_range q : 0 <= failing q <= 1.
Proof. destruct q; simpl; lia. Qed.
Lemma adding_range q : 0 <= adding q <= 1.
Proof. destruct q; simpl; lia. Qed.
Lemma count_max s : pool_ok s -> (pointsCount_ s <= maxCallbackPoints_ s)%nat.
Proof.
  intros Hs. pose proof (p_given _ Hs) as [Hg _]. pose proof (p_count _ Hs).
  assert (0 <= sumZ adding (threads s)) by (apply sumZ_nonneg, adding_range). lia.
Qed.

Definition storing q : Prop := match q with AStore _ _ => True | _ => False end.
Definition posting s q : Prop :=
  match q with GRobin _ c => (0 < c <= maxCallbackPoints_ s)%nat | GPost _ c i => (i < c <= maxCallbackPoints_ s)%nat | _ => True end.
(** A step of a thread that stores nothing before and after. *)
Lemma co_move_ok s t q q' w c : pool_ok s -> threads s !! t = Some q -> ~ storing q -> ~ storing q' -> posting s q' ->
  Z.of_nat w - failing q' = Z.of_nat (writePointsCount_ s) - failing q ->
  (failing q' <= failing q \/ given s = Z.of_nat (maxCallbackPoints_ s)) ->
  Z.of_nat c + adding q' = Z.of_nat (pointsCount_ s) + adding q ->
  pool_ok (go t q' (set_count c (set_write w s))).
Proof.
  intros [Hlen [Hg Hf] Hc Hst Hown Hsl Hre Hr Hp] Ht Hq Hq' Hpo Hw Hfail Hadd.
  assert (given (go t q' (set_count c (set_write w s))) = given s) as Hgiven.
  { unfold given. cbn [go set_count set_write threads writePointsCount_]. rewrite (sumZ_insert failing _ t q q' Ht). lia. }
  assert (forall u x, <[t := q']> (threads s) !! u = Some x -> x = q' \/ threads s !! u = Some x) as Hback.
  { intros u x. rewrite list_lookup_insert. destruct (decide _); [intros [= <-]; by left|by right]. }
  constructor; rewrite ?Hgiven; cbn [go set_count set_write threads writePointsCount_ pointsCount_ points_ maxCallbackPoints_].
  - done.
  - split; [done|]. rewrite (sumZ_insert failing _ t q q' Ht). intros Hpos. destruct Hfail as [Hle|]; [|done]. apply Hf. lia.
  - rewrite (sumZ_insert adding _ t q q' Ht). lia.
  - intros u p x Hu. destruct (Hback u _ Hu) as [<-|Hu']; [by destruct Hq'|by eapply Hst].
  - intros u v p x y Hu Hv. destruct (Hback u _ Hu) as [<-|Hu']; [by destruct Hq'|]. destruct (Hback v _ Hv) as [<-|Hv']; [by destruct Hq'|by eapply Hown].
  - intros i Hi. destruct (Hsl i Hi) as [?|(u & p & Hu)]; [by left|right]. exists u, p. rewrite list_lookup_insert_ne; [done|]. intros ->. rewrite Ht in Hu. simplify_eq. by apply Hq.
  - done.
  - intros u cb n Hu. destruct (Hback u _ Hu) as [<-|Hu']; [exact Hpo|by eapply Hr].
  - intros u cb n i Hu. destruct (Hback u _ Hu) as [<-|Hu']; [exact Hpo|by eapply Hp].
Qed.
Lemma go_ok s t q q' : pool_ok s -> threads s !! t = Some q -> ~ storing q -> ~ storing q' -> posting s q' ->
  failing q' = failing q -> adding q' = adding q -> pool_ok (go t q' s).
Proof.
  intros Hs Ht Hq Hq' Hp Hf Ha. pose proof (co_move_ok s t q q' (writePointsCount_ s) (pointsCount_ s) Hs Ht Hq Hq' Hp ltac:(lia) ltac:(lia) ltac:(lia)) as H.
  by destruct s.
Qed.
(** [robin_] is in no invariant. *)
Lemma robin_ok s r : pool_ok s -> pool_ok (set_robin r s).
Proof. by intros [? ? ? ? ? ? ? ? ?]. Qed.
Lemma take_ok s t p : pool_ok s -> threads s !! t = Some (AInc p) -> (writePointsCount_ s < maxCallbackPoints_ s)%nat ->
  pool_ok (go t (AStore p (writePointsCount_ s)) (set_write (S (writePointsCount_ s)) s)).
Proof.
  intros [Hlen [Hg Hf] Hc Hst Hown Hsl Hre Hr Hp] Ht Hlt.
  assert (0 <= sumZ failing (threads s)) as Hf0 by (apply sumZ_nonneg, co_failing_range).
  assert (sumZ failing (threads s) = 0) as Hz. { destruct (decide (0 < sumZ failing (threads s))) as [H|]; [|lia]. specialize (Hf H). unfold given in Hf. lia. }
  assert (given s = Z.of_nat (writePointsCount_ s)) as Hgs by (unfold given; lia).
  set (w := writePointsCount_ s) in *. set (s' := go t (AStore p w) (set_write (S w) s)).
  assert (given s' = given s + 1) as Hgiven.
  { unfold given. cbn [s' go set_write threads writePointsCount_]. rewrite (sumZ_insert failing _ t _ _ Ht). simpl. lia. }
  assert (points_ s !! w = Some None) as Hfree.
  { destruct (lookup_lt_is_Some_2 (points_ s) w ltac:(lia)) as [[x|] Hx]; [|done]. pose proof (Hre w x Hx). lia. }
  assert (forall u x, <[t := AStore p w]> (threads s) !! u = Some x -> (x = AStore p w /\ u = t) \/ (u <> t /\ threads s !! u = Some x)) as Hback.
  { intros u x. destruct (decide (t = u)) as [<-|Hn].
    - rewrite list_lookup_insert_eq by (by eapply lookup_lt_Some). intros [= <-]. by left.
    - rewrite list_lookup_insert_ne by done. by right. }
  constructor; rewrite ?Hgiven; cbn [s' go set_write threads writePointsCount_ pointsCount_ points_ maxCallbackPoints_].
  - done.
  - rewrite (sumZ_insert failing _ t _ _ Ht), Hz. simpl. lia.
  - rewrite (sumZ_insert adding _ t _ _ Ht). simpl. lia.
  - intros u x y Hu. destruct (Hback u _ Hu) as [[Hx _]|[_ Hu']]; [simplify_eq; split; [lia|done]|].
    destruct (Hst u x y Hu'). split; [lia|done].
  - intros u v x y k Hu Hv. destruct (Hback u _ Hu) as [[Hx ->]|[Hn Hu']], (Hback v _ Hv) as [[Hy ->]|[Hn' Hv']]; simplify_eq; [done|..].
    + destruct (Hst v y w Hv'). lia.
    + destruct (Hst u x w Hu'). lia.
    + by eapply Hown.
  - intros i Hi. destruct (decide (i = w)) as [->|Hn].
    + right. exists t, p. apply list_lookup_insert_eq. by eapply lookup_lt_Some.
    + destruct (Hsl i ltac:(lia)) as [?|(u & x & Hu)]; [by left|right]. exists u, x. rewrite list_lookup_insert_ne; [done|congruence].
  - intros i x Hx. pose proof (Hre i x Hx). lia.
  - intros u cb n Hu. destruct (Hback u _ Hu) as [[? _]|[_ Hu']]; [done|by eapply Hr].
  - intros u cb n i Hu. destruct (Hback u _ Hu) as [[? _]|[_ Hu']]; [done|by eapply Hp].
Qed.
Lemma store_ok s t p w : pool_ok s -> threads s !! t = Some (AStore p w) -> pool_ok (go t (AExchange p w) (set_point w p s)).
Proof.
  intros [Hlen [Hg Hf] Hc Hst Hown Hsl Hre Hr Hp] Ht. destruct (Hst t p w Ht) as [Hw Hfree].
  assert (given (go t (AExchange p w) (set_point w p s)) = given s) as Hgiven.
  { unfold given. cbn [go set_point threads writePointsCount_]. rewrite (sumZ_insert failing _ t _ _ Ht). simpl. lia. }
  assert (forall u x, <[t := AExchange p w]> (threads s) !! u = Some x -> x = AExchange p w \/ (u <> t /\ threads s !! u = Some x)) as Hback.
  { intros u x. destruct (decide (t = u)) as [<-|Hn].
    - rewrite list_lookup_insert_eq by (by eapply lookup_lt_Some). intros [= <-]. by left.
    - rewrite list_lookup_insert_ne by done. by right. }
  assert (<[w := Some p]> (points_ s) !! w = Some (Some p)) as Hset by (apply list_lookup_insert_eq; by eapply lookup_lt_Some).
  constructor; rewrite ?Hgiven; cbn [go set_point threads writePointsCount_ pointsCount_ points_ maxCallbackPoints_].
  - by rewrite length_insert.
  - rewrite (sumZ_insert failing _ t _ _ Ht). simpl. split; [done|]. intros ?. apply Hf. lia.
  - rewrite (sumZ_insert adding _ t _ _ Ht). simpl. lia.
  - intros u x y Hu. destruct (Hback u _ Hu) as [?|[Hn Hu']]; [done|]. destruct (Hst u x y Hu') as [Hy Hfr]. split; [done|].
    rewrite list_lookup_insert_ne; [done|]. intros <-. apply Hn. by eapply Hown.
  - intros u v x y k Hu Hv. destruct (Hback u _ Hu) as [?|[Hn Hu']]; [done|]. destruct (Hback v _ Hv) as [?|[Hn' Hv']]; [done|by eapply Hown].
  - intros i Hi. destruct (decide (i = w)) as [->|Hn]; [left; by exists p|]. rewrite list_lookup_insert_ne by done.
    destruct (Hsl i Hi) as [?|(u & x & Hu)]; [by left|right]. exists u, x. rewrite list_lookup_insert_ne; [done|congruence].
  - intros i x Hx. destruct (decide (i = w)) as [->|Hn]; [done|]. rewrite list_lookup_insert_ne in Hx by done. by eapply Hre.
  - intros u cb n Hu. destruct (Hback u _ Hu) as [?|[_ Hu']]; [done|by eapply Hr].
  - intros u cb n i Hu. destruct (Hback u _ Hu) as [?|[_ Hu']]; [done|by eapply Hp].
Qed.
Ltac plain_go := eapply go_ok; [eassumption|eassumption|by intros []|by intros []|try done|done|done].
Lemma co_step_ok s s' : pool_ok s -> Step s s' -> pool_ok s'.
Proof.
  intros Hs [t p Ht|t cb Ht|t s1 Hin]; [plain_go|plain_go|]. unfold step in Hin.
  pose proof (count_max s Hs) as Hmax. pose proof (p_given _ Hs) as [Hg Hgf].
  destruct (threads s !! t) as [q|] eqn:Ht; [|by apply elem_of_nil in Hin]. destruct q; try (by apply elem_of_nil in Hin).
  - apply list_elem_of_singleton in Hin as ->. destruct (decide (maxCallbackPoints_ s <= writePointsCount_ s)%nat) as [Hfull|Hfree]; [|apply take_ok; [done|done|lia]].
    assert (given s = Z.of_nat (maxCallbackPoints_ s)) as Hfl.
    { destruct (decide (0 < sumZ failing (threads s))) as [H|H]; [by apply Hgf|]. assert (0 <= sumZ failing (threads s)) by (apply sumZ_nonneg, co_failing_range). unfold given in *. lia. }
    pose proof (co_move_ok s t _ ADec (S (writePointsCount_ s)) (pointsCount_ s) Hs Ht ltac:(by intros []) ltac:(by intros []) ltac:(done) ltac:(simpl; lia) ltac:(by right) ltac:(simpl; lia)) as H.
    by destruct s.
  - apply list_elem_of_singleton in Hin as ->.
    assert (1 <= sumZ failing (threads s)) as H1 by exact (sumZ_lower failing _ t ADec (fun q => proj1 (co_failing_range q)) Ht).
    pose proof (co_move_ok s t _ (ADone false) (pred (writePointsCount_ s)) (pointsCount_ s) Hs Ht ltac:(by intros []) ltac:(by intros []) ltac:(done)) as H.
    assert (pool_ok (go t (ADone false) (set_count (pointsCount_ s) (set_write (pred (writePointsCount_ s)) s)))) as H'; [|by destruct s].
    apply H; simpl; [unfold given in Hg; lia|lia|lia].
  - apply list_elem_of_singleton in Hin as ->. by apply store_ok.
  - apply elem_of_cons in Hin as [->|Hin]; [plain_go|]. destruct (decide (pointsCount_ s = writeIdx)) as [<-|]; [|by apply elem_of_nil in Hin].
    apply list_elem_of_singleton in Hin as ->.
    pose proof (co_move_ok s t _ (ADone true) (writePointsCount_ s) (S (pointsCount_ s)) Hs Ht ltac:(by intros []) ltac:(by intros []) ltac:(done) ltac:(simpl; lia) ltac:(left; simpl; lia) ltac:(simpl; lia)) as H.
    by destruct s.
  - apply list_elem_of_singleton in Hin as ->. destruct (decide (pointsCount_ s = 0%nat)); plain_go. simpl. lia.
  - apply list_elem_of_singleton in Hin as ->. eapply go_ok; [by apply robin_ok|done|by intros []|by intros []| |done|done].
    pose proof (p_robin _ Hs t cb pointsCount Ht). simpl. pose proof (Z.mod_pos_bound (u64 (robin_ s + 1)) (Z.of_nat pointsCount) ltac:(lia)). lia.
  - destruct (points_ s !! idx); [|by apply elem_of_nil in Hin]. apply list_elem_of_singleton in Hin as ->. plain_go.
Qed.

Lemma co_new_ok max n : pool_ok (Pool_new max n).
Proof.
  assert (forall (f : pc -> Z), f Idle = 0 -> sumZ f (replicate n Idle) = 0) as Hz.
  { intros f Hf. apply sumZ_zero. intros q [-> _]%elem_of_replicate. done. }
  assert (forall t q, replicate n Idle !! t = Some q -> q = Idle) as Hi by (intros t q [-> _]%lookup_replicate; done).
  constructor; unfold Pool_new, given; simpl; rewrite ?Hz by done; try (intros; match goal with H : replicate n Idle !! _ = Some _ |- _ => by apply Hi in H end).
  - apply length_replicate.
  - lia.
  - lia.
  - lia.
  - intros i x [? _]%lookup_replicate. done.
Qed.
Lemma co_steps_ok max n s : rtc Step (Pool_new max n) s -> pool_ok s /\ maxCallbackPoints_ s = max.
Proof.
  intros Hr. pose proof (co_new_ok max n) as H. assert (maxCallbackPoints_ (Pool_new max n) = max) as Hm by done. revert H Hm.
  induction Hr as [s|s s1 s' Hst _ IH]; [done|]. intros Hs Hm. apply IH; [by eapply co_step_ok|].
  rewrite <- Hm. destruct Hst as [|t cb Ht|t s1 Hin]; [done|done|]. unfold step in Hin.
  destruct (threads s !! t) as [[]|]; try (by apply elem_of_nil in Hin);
    repeat (match type of Hin with
      | _ ∈ _ :: _ => apply elem_of_cons in Hin as [->|Hin]; [done|]
      | _ ∈ [] => by apply elem_of_nil in Hin
      | context [match ?x with _ => _ end] => destruct x
      end).
Qed.

(** ** The properties *)

(** However registrations and coroutines interleave, there are never more points than slots, a
    coroutine posts within the array, and a slot that is written keeps its point; when no
    registration is under way exactly the slots below [pointsCount_] are written. *)
Theorem pool_points (max n : nat) s : rtc Step (Pool_new max n) s ->
  (pointsCount_ s <= max)%nat /\
  (forall t cb c i, threads s !! t = Some (GPost cb c i) -> (i < c <= max)%nat) /\
  (forall s' i x, Step s s' -> points_ s !! i = Some (Some x) -> points_ s' !! i = Some (Some x)) /\
  ((forall t q, threads s !! t = Some q -> adding q = 0) ->
   forall i, (i < max)%nat -> (exists x, points_ s !! i = Some (Some x)) <-> (i < pointsCount_ s)%nat).
Proof.
  intros Hr. destruct (co_steps_ok max n s Hr) as [Hs <-]. split_and!; [by apply count_max|apply (p_post _ Hs)| |].
  - intros s' i x Hst Hx. destruct Hst as [|t cb Ht|t s1 Hin]; [done|done|]. unfold step in Hin.
    destruct (threads s !! t) as [q|] eqn:Ht; [|by apply elem_of_nil in Hin]. destruct q; try (by apply elem_of_nil in Hin).
    3: { apply list_elem_of_singleton in Hin as ->. simpl. rewrite list_lookup_insert_ne; [done|]. intros ->. destruct (p_store _ Hs t p i Ht). congruence. }
    all: repeat (match type of Hin with
      | _ ∈ _ :: _ => apply elem_of_cons in Hin as [->|Hin]; [done|]
      | _ ∈ [] => by apply elem_of_nil in Hin
      | context [match ?x with _ => _ end] => destruct x
      end).
  - intros Hidle i Hi. pose proof (p_count _ Hs) as Hc.
    assert (sumZ adding (threads s) = 0) as Hz by (apply sumZ_zero; intros q (t & Ht)%list_elem_of_lookup; by eapply Hidle). split.
    + intros (x & Hx). pose proof (p_rest _ Hs i x Hx). lia.
    + intros Hlt. destruct (p_slots _ Hs i ltac:(lia)) as [?|(t & p & Ht)]; [done|]. specialize (Hidle t _ Ht). done.
Qed.

(** A run given by the thread that steps and the step it takes. *)
Fixpoint run (l : list (nat * nat)) (s : Pool) : option Pool :=
  match l with [] => Some s | (t, i) :: l => s ← step t s !! i; run l s end.
Lemma co_run_steps l s s' : run l s = Some s' -> rtc Step s s'.
Proof.
  revert s. induction l as [|[t i] l IH]; intros s H; simpl in H; [injection H as ->; apply rtc_refl|].
  destruct (step t s !! i) as [s1|] eqn:E; [|done]. eapply rtc_l; [eapply s_step; by eapply list_elem_of_lookup_2|by apply IH].
Qed.
(** Two registrations and a coroutine with a callback. *)
Definition busy : Pool := go 2 (GCount 5%nat) (go 1 (AInc 11%nat) (go 0 (AInc 10%nat) (Pool_new 2 3))).
Lemma busy_steps : rtc Step (Pool_new 2 3) busy.
Proof.
  unfold busy. eapply rtc_l; [by apply (s_add _ 0 10%nat)|]. eapply rtc_l; [by apply (s_add _ 1 11%nat)|]. eapply rtc_l; [by apply (s_task _ 2 5%nat)|]. apply rtc_refl.
Qed.
Lemma pool_points_witness : let s := default busy (run [(1, 0); (1, 0); (1, 1); (0, 0); (0, 0)]%nat busy) in
  pointsCount_ s = 1%nat /\ points_ s = [Some 11%nat; Some 10%nat] /\ (pointsCount_ s <= 2)%nat.
Proof.
  intros s. split; [vm_compute; reflexivity|]. split; [vm_compute; reflexivity|]. refine (proj1 (pool_points 2 3 s _)). etrans; [exact busy_steps|].
  apply (co_run_steps [(1, 0); (1, 0); (1, 1); (0, 0); (0, 0)]%nat). vm_compute. reflexivity.
Defined.

(** But the failed exchange of a registration loads the count that it should wait for: it then
    publishes a slot whose registration has not written it, and a coroutine posts through it. *)
Theorem pool_reads_unwritten : exists s : Pool,
  rtc Step (Pool_new 2 3) s /\ threads s = [AStore 10%nat 0; ADone true; GPosted 5%nat None].
Proof.
  exists (default busy (run [(0, 0); (1, 0); (1, 0); (1, 0); (1, 1); (2, 0); (2, 0); (2, 0)]%nat busy)). split; [|vm_compute; reflexivity].
  etrans; [exact busy_steps|]. apply (co_run_steps [(0, 0); (1, 0); (1, 0); (1, 0); (1, 1); (2, 0); (2, 0); (2, 0)]%nat). vm_compute. reflexivity.
Qed.

(** [Run] calls the callbacks in order, as many as there are up to the limit, and says how many. *)
Theorem run_calls (maxTrigger : Z) (channel : list callback) : 0 <= maxTrigger ->
  let k := if maxTrigger =? 0 then length channel else Nat.min (Z.to_nat maxTrigger) (length channel) in
  Run maxTrigger channel = (take k channel, drop k channel, Z.of_nat k).
Proof.
  intros Hm k. unfold Run. assert (forall (l : list callback) (i : Z), 0 <= i -> (maxTrigger = 0 \/ i <= maxTrigger) ->
    let j := if maxTrigger =? 0 then length l else Nat.min (Z.to_nat (maxTrigger - i)) (length l) in
    Run_loop maxTrigger i l = (take j l, drop j l, i + Z.of_nat j)) as H.
  { intros l. induction l as [|cb l IH]; intros i Hi Hor j; subst j; cbn [Run_loop length].
    - destruct (Z.eqb_spec maxTrigger 0); rewrite ?Nat.min_0_r; simpl; rewrite ?orb_true_r, ?orb_false_r; [f_equal; lia|]. destruct (i <? maxTrigger); f_equal; lia.
    - specialize (IH (i + 1)). destruct (Z.eqb_spec maxTrigger 0) as [->|Hn]; rewrite ?orb_true_r, ?orb_false_r.
      + rewrite IH by lia. cbn [take drop]. f_equal. lia.
      + destruct (Z.ltb_spec i maxTrigger).
        * rewrite IH by lia. replace (Z.to_nat (maxTrigger - i)) with (S (Z.to_nat (maxTrigger - (i + 1)))) by lia.
          cbn [Nat.min take drop]. f_equal. lia.
        * replace (Z.to_nat (maxTrigger - i)) with 0%nat by lia. simpl. f_equal. lia. }
  rewrite H by lia. subst k. rewrite Z.sub_0_r. done.
Qed.
Lemma run_calls_witness : Run 2 [7; 8; 9]%nat = ([7; 8]%nat, [9]%nat, 2).
Proof. apply (run_calls 2 [7; 8; 9]%nat). lia. Defined.
