(* ===== verification/QueueIndex.v ===== *)
(** The indices and handles of queues: the index operations of [include/SoftQueue.h] with their
    memory orders, the handles of [include/core/IQueue.h], and [SharedQueuePool] of
    [src/core/IQueue.cpp], which is [SharedPool.v] for another type.

    Reservations are what producers use the write index for: by adding to it, or by an exchange that
    succeeds only when the index is the expected one. *)
From S2P Require Import Prelude Atomic SharedPool.
Local Open Scope Z_scope.

(** ** The index operations *)

(** The two words of [co_queue_] that the operations touch. *)
Record indices := mkIdx { read_dispatch_id : cell; write_dispatch_id : cell }.
Definition set_read (c : cell) (q : indices) : indices := mkIdx c (write_dispatch_id q).
Definition set_write (c : cell) (q : indices) : indices := mkIdx (read_dispatch_id q) c.
Definition on_write {A} (f : cell -> A * cell) (q : indices) : A * indices :=
  let '(a, c) := f (write_dispatch_id q) in (a, set_write c q).
Definition on_read {A} (f : cell -> A * cell) (q : indices) : A * indices :=
  let '(a, c) := f (read_dispatch_id q) in (a, set_read c q).

Definition LoadReadIndexAcquire := on_read (Load acquire).
Definition LoadReadIndexRelaxed := on_read (Load relaxed).
Definition LoadWriteIndexAcquire := on_write (Load acquire).
Definition LoadWriteIndexRelaxed := on_write (Load relaxed).
Definition StoreReadIndexRelaxed (value : Z) (q : indices) : indices := set_read (Store 64 value relaxed (read_dispatch_id q)) q.
Definition StoreReadIndexRelease (value : Z) (q : indices) : indices := set_read (Store 64 value release (read_dispatch_id q)) q.
Definition StoreWriteIndexRelaxed (value : Z) (q : indices) : indices := set_write (Store 64 value relaxed (write_dispatch_id q)) q.
Definition StoreWriteIndexRelease (value : Z) (q : indices) : indices := set_write (Store 64 value release (write_dispatch_id q)) q.
Definition CasWriteIndexAcqRel (expected value : Z) := on_write (Cas 64 value expected acq_rel).
Definition CasWriteIndexAcquire (expected value : Z) := on_write (Cas 64 value expected acquire).
Definition CasWriteIndexRelaxed (expected value : Z) := on_write (Cas 64 value expected relaxed).
Definition CasWriteIndexRelease (expected value : Z) := on_write (Cas 64 value expected release).
Definition AddWriteIndexAcqRel (value : Z) := on_write (Add 64 value acq_rel).
Definition AddWriteIndexAcquire (value : Z) := on_write (Add 64 value acquire).
Definition AddWriteIndexRelaxed (value : Z) := on_write (Add 64 value relaxed).
Definition AddWriteIndexRelease (value : Z) := on_write (Add 64 value release).

(** The operations of a producer that wants [n] packets: the write index for its first one. *)
Inductive producer :=
| PAddAcqRel | PAddAcquire | PAddRelaxed | PAddRelease
| PCasAcqRel (expected : Z) | PCasAcquire (expected : Z) | PCasRelaxed (expected : Z) | PCasRelease (expected : Z).
Definition expect (e : Z) (r : Z * indices) : option Z * indices := (if r.1 =? u64 e then Some r.1 else None, r.2).
Definition reserve (p : producer) (n : Z) (q : indices) : option Z * indices :=
  let all (r : Z * indices) := (Some r.1, r.2) in
  match p with
  | PAddAcqRel => all (AddWriteIndexAcqRel n q)
  | PAddAcquire => all (AddWriteIndexAcquire n q)
  | PAddRelaxed => all (AddWriteIndexRelaxed n q)
  | PAddRelease => all (AddWriteIndexRelease n q)
  | PCasAcqRel e => expect e (CasWriteIndexAcqRel e (e + n) q)
  | PCasAcquire e => expect e (CasWriteIndexAcquire e (e + n) q)
  | PCasRelaxed e => expect e (CasWriteIndexRelaxed e (e + n) q)
  | PCasRelease e => expect e (CasWriteIndexRelease e (e + n) q)
  end.
(** The ranges that producers get, in the order of their operations. *)
Fixpoint reservations (l : list (producer * Z)) (q : indices) : list (Z * Z) * indices :=
  match l with
  | [] => ([], q)
  | (p, n) :: l =>
      let '(o, q) := reserve p n q in
      let '(rs, q) := reservations l q in
      (match o with Some i => (i, n) :: rs | None => rs end, q)
  end.

(** ** Handles *)

Section handles.
(** The shared blocks: the queue that [core_queue_] names, by address; [off]: [offsetof(SharedQueue, co_queue_)]. *)
Context (off : Z).
Definition SharedQueue_Handle (shared : Z) : res Z := _ ← assert_ (negb (shared =? 0)); Ret (u64 (shared + off)).
Definition SharedQueue_Object (handle : Z) : Z := u64 (handle - off).
(** [IQueue::Handle] of a queue with its shared block, and [IQueue::Object]. *)
Definition IQueue_Handle (core_queue : option Z) : res Z :=
  match core_queue with None => AssertFail | Some shared => Ret (u64 (shared + off)) end.
Definition IQueue_Object (core_queue_ : gmap Z nat) (handle : Z) : res (option nat) :=
  if handle =? 0 then Ret None else q ← deref (core_queue_ !! u64 (handle - off)); Ret (Some q).
End handles.

(** ** [SharedQueuePool], for [sizeof(SharedQueue)] *)

Definition SharedQueuePool_alloc (bytes : Z) : M Z := alloc bytes.
Definition SharedQueuePool_free (bytes ptr : Z) : M unit := free bytes ptr.
Definition SharedQueuePool_clear : M unit := clear.

(** * Properties *)

Implicit Types (q : indices) (p : producer).
Definition now q : Z := val (write_dispatch_id q).

Lemma reserve_spec p n q o q' : 0 <= now q < 2 ^ 64 -> 0 <= n -> now q + n < 2 ^ 64 -> reserve p n q = (o, q') ->
  (o = Some (now q) /\ now q' = now q + n) \/ (o = None /\ now q' = now q).
Proof.
  intros Hq Hn Hf H.
  assert (forall order, (Add 64 n order (write_dispatch_id q)).1 = now q /\ val (Add 64 n order (write_dispatch_id q)).2 = now q + n) as Hadd.
  { intros order. split; [done|]. cbn [Add fetch access val snd]. unfold now in *. apply wrap_small. unfold fits. lia. }
  assert (forall e order, let r := Cas 64 (e + n) e order (write_dispatch_id q) in
    r.1 = now q /\ val r.2 = if now q =? u64 e then now q + n else now q) as Hcas.
  { intros e order. split; [done|]. cbn [Cas access val snd]. unfold now in *. unfold u64. destruct (Z.eqb_spec (val (write_dispatch_id q)) (wrap 64 e)) as [E|]; [|done].
    rewrite <- wrap_add_l, <- E. apply wrap_small. unfold fits. lia. }
  destruct p as [| | | |e|e|e|e]; unfold reserve, expect, AddWriteIndexAcqRel, AddWriteIndexAcquire, AddWriteIndexRelaxed, AddWriteIndexRelease,
    CasWriteIndexAcqRel, CasWriteIndexAcquire, CasWriteIndexRelaxed, CasWriteIndexRelease, on_write in H;
    match type of H with
    | context [Add 64 n ?o ?c] => destruct (Hadd o) as [H1 H2]; destruct (Add 64 n o c) as [a x]
    | context [Cas 64 ?v ?e ?o ?c] => destruct (Hcas e o) as [H1 H2]; destruct (Cas 64 v e o c) as [a x]
    end; cbn [fst snd] in H, H1, H2; injection H as <- <-; change (now (set_write x q)) with (val x); rewrite H2, H1;
    [by left..| | | |]; destruct (now q =? u64 e); auto.
Qed.
(** Ranges that follow each other from [i] to [j]. *)
Fixpoint consecutive (i : Z) (rs : list (Z * Z)) (j : Z) : Prop :=
  match rs with [] => i = j | r :: rs => r.1 = i /\ consecutive (i + r.2) rs j end.

(** Whatever mixture of additions and exchanges producers reserve their packets with, and
    whatever the memory orders, the ranges they get follow each other without gap or overlap from
    the old write index to the new one, as long as the index does not pass [2^64]. *)
Theorem reservations_consecutive q l : 0 <= now q < 2 ^ 64 -> Forall (fun x => 0 <= x.2) l -> now q + sumZ snd l < 2 ^ 64 ->
  let '(rs, q') := reservations l q in consecutive (now q) rs (now q').
Proof.
  revert q. induction l as [|[p n] l IH]; intros q Hq Hl Hs; simpl; [done|]. apply Forall_cons in Hl as [Hn Hl]. simpl in Hn.
  unfold sumZ in Hs. cbn [foldr snd] in Hs. fold (sumZ (A:=producer * Z) snd l) in Hs.
  assert (0 <= sumZ snd l) as H0.
  { clear -Hl. induction Hl as [|x l Hx _ IH]; unfold sumZ in *; cbn [foldr]; lia. }
  destruct (reserve p n q) as [o q1] eqn:Hr. destruct (reserve_spec p n q o q1 Hq Hn ltac:(lia) Hr) as [[-> H1]|[-> H1]].
  - specialize (IH q1 ltac:(lia) Hl ltac:(lia)). destruct (reservations l q1) as [rs q']. simpl. split; [done|]. by rewrite H1 in IH.
  - specialize (IH q1 ltac:(lia) Hl ltac:(lia)). destruct (reservations l q1) as [rs q']. by rewrite H1 in IH.
Qed.
Lemma reservations_consecutive_witness :
  let '(rs, q') := reservations [(PAddAcqRel, 2); (PCasRelaxed 5, 1); (PCasRelease 7, 4)] (mkIdx (mkCell 0 []) (mkCell 5 [])) in
  consecutive 5 rs (now q').
Proof.
  apply (reservations_consecutive (mkIdx (mkCell 0 []) (mkCell 5 [])) [(PAddAcqRel, 2); (PCasRelaxed 5, 1); (PCasRelease 7, 4)]);
    [unfold now; simpl; lia|repeat constructor; simpl; lia|vm_compute; reflexivity].
Defined.

(** A handle gives its queue back; the null handle gives null. *)
Theorem handle_roundtrip off heap shared core : 0 < shared -> 0 <= off -> shared + off < 2 ^ 64 -> heap !! shared = Some core ->
  (h ← IQueue_Handle off (Some shared); IQueue_Object off heap h) = Ret (Some core) /\ IQueue_Object off heap 0 = Ret None /\
  (h ← SharedQueue_Handle off shared; Ret (SharedQueue_Object off h)) = Ret shared.
Proof.
  intros Hs Ho Hf Hh. unfold IQueue_Handle, IQueue_Object, SharedQueue_Handle, SharedQueue_Object. cbn [mbind res_bind].
  rewrite (proj2 (Z.eqb_neq shared 0)) by lia. cbn [negb assert_ mbind res_bind]. unfold u64.
  rewrite (wrap_small 64 (shared + off)) by (unfold fits; lia). rewrite (proj2 (Z.eqb_neq _ _)) by lia.
  replace (shared + off - off) with shared by lia. rewrite wrap_small by (unfold fits; lia). by rewrite Hh.
Qed.
Lemma handle_roundtrip_witness : (h ← IQueue_Handle 0 (Some 4096); IQueue_Object 0 {[ 4096 := 7%nat ]} h) = Ret (Some 7%nat).
Proof. refine (proj1 (handle_roundtrip 0 {[ 4096 := 7%nat ]} 4096 7 _ _ _ _)); [lia|lia|lia|reflexivity]. Defined.
