(* ===== verification/Packed.v ===== *)
(** Packed words: the bit fields of [include/util/utils.h] with the properties of a queue
    ([include/core/IQueue.h]), and the headers of packets ([include/stream_api.h]).

    Words have 32 bits; a mask is the pattern of its [int] constant. *)
From S2P Require Import Prelude TaskRing.
Local Open Scope Z_scope.

(** ** Bit fields *)

(** [name_SHIFT] and [name_WIDTH]. *)
Record field := mkField { field_shift : Z; field_width : Z }.
(** [BITS_CREATE_ENUM_ENTRIES]: [name]. *)
Definition field_mask (f : field) : Z := u32 (Z.shiftl (Z.shiftl 1 (field_width f) - 1) (field_shift f)).
Definition not32 (x : Z) : Z := u32 (Z.lnot x).
Definition BITS_GET (src : Z) (f : field) : Z := Z.shiftr (Z.land src (field_mask f)) (field_shift f).
Definition BITS_SET (dst : Z) (f : field) (val : Z) : Z :=
  let dst := Z.land dst (Z.land (not32 (Z.shiftl 1 (field_shift f))) (not32 (field_mask f))) in
  Z.lor dst (Z.land (u32 (Z.shiftl val (field_shift f))) (field_mask f)).

(** [amd_queue_properties_t]. *)
Definition QUEUE_PROPERTIES_ENABLE_TRAP_HANDLER : field := mkField 0 1.
Definition QUEUE_PROPERTIES_IS_PTR64 : field := mkField 1 1.
Definition QUEUE_PROPERTIES_ENABLE_TRAP_HANDLER_DEBUG_SGPRS : field := mkField 2 1.
Definition QUEUE_PROPERTIES_ENABLE_PROFILING : field := mkField 3 1.
Definition QUEUE_PROPERTIES_RESERVED1 : field := mkField 4 28.
Definition queue_properties_t : list field :=
  [QUEUE_PROPERTIES_ENABLE_TRAP_HANDLER; QUEUE_PROPERTIES_IS_PTR64; QUEUE_PROPERTIES_ENABLE_TRAP_HANDLER_DEBUG_SGPRS;
   QUEUE_PROPERTIES_ENABLE_PROFILING; QUEUE_PROPERTIES_RESERVED1].

(** The constructors of the queues on [queue_properties], from what was there before. *)
Definition HardQueue_properties (dst : Z) : Z :=
  BITS_SET (BITS_SET dst QUEUE_PROPERTIES_ENABLE_PROFILING 0) QUEUE_PROPERTIES_IS_PTR64 1.
Definition SoftQueue_properties (dst : Z) : Z :=
  BITS_SET (BITS_SET dst QUEUE_PROPERTIES_IS_PTR64 0) QUEUE_PROPERTIES_ENABLE_PROFILING 0.

(** ** Packets *)

Inductive packet_type_t :=
| KERNEL_DISPATCH | BARRIER_AND | AGENT_DISPATCH | BARRIER_OR | DMA_COPY | TASK | STEAL_TASK | INVALID.
Definition packet_type_value (t : packet_type_t) : Z :=
  match t with
  | INVALID => PACKET_TYPE_INVALID | KERNEL_DISPATCH => 2 | BARRIER_AND => 3 | AGENT_DISPATCH => 4 | BARRIER_OR => 5
  | DMA_COPY => 6 | TASK => PACKET_TYPE_TASK | STEAL_TASK => 8
  end.
Definition PACKET_TYPE_MAX : Z := 5.

(** [packet_header_t] with [packet_header_width_t]. *)
Definition HEADER_TYPE : field := mkField PACKET_HEADER_TYPE 8.
Definition HEADER_BARRIER : field := mkField 8 1.
Definition HEADER_SCACQUIRE_FENCE_SCOPE : field := mkField 9 2.
Definition HEADER_SCRELEASE_FENCE_SCOPE : field := mkField 11 2.
Definition header_fields : list field := [HEADER_TYPE; HEADER_BARRIER; HEADER_SCACQUIRE_FENCE_SCOPE; HEADER_SCRELEASE_FENCE_SCOPE].
Inductive fence_scope_t := FENCE_SCOPE_NONE | FENCE_SCOPE_AGENT | FENCE_SCOPE_SYSTEM.
Definition fence_scope_value (s : fence_scope_t) : Z := match s with FENCE_SCOPE_NONE => 0 | FENCE_SCOPE_AGENT => 1 | FENCE_SCOPE_SYSTEM => 2 end.

(** [AqlPacket::type] and [IsValid], on the [header]. *)
Definition AqlPacket_type (header : Z) : Z :=
  wrap 8 (Z.land (Z.shiftr header PACKET_HEADER_TYPE) (Z.shiftl 1 (field_width HEADER_TYPE) - 1)).
Definition AqlPacket_IsValid (header : Z) : bool :=
  ((AqlPacket_type header <=? PACKET_TYPE_MAX) && negb (AqlPacket_type header =? PACKET_TYPE_INVALID))%bool.

(** ** What the fields are *)

Definition field_ok (f : field) : Prop := 0 <= field_shift f /\ 0 < field_width f < 32 /\ field_shift f + field_width f <= 32.
Definition apart (f g : field) : Prop := field_shift f + field_width f <= field_shift g \/ field_shift g + field_width g <= field_shift f.
(** Bit [i] is in the field. *)
Definition in_field (f : field) (i : Z) : bool := ((field_shift f <=? i) && (i <? field_shift f + field_width f))%bool.

Lemma testbit_u32 (x i : Z) : 0 <= i -> Z.testbit (u32 x) i = ((i <? 32) && Z.testbit x i)%bool.
Proof.
  intros Hi. unfold u32, wrap. destruct (Z.ltb_spec i 32); [by rewrite Z.mod_pow2_bits_low by lia|]. by rewrite Z.mod_pow2_bits_high by lia.
Qed.
Lemma mask_bit (f : field) (i : Z) : field_ok f -> 0 <= i -> Z.testbit (field_mask f) i = in_field f i.
Proof.
  intros (Hs & Hw & Hb) Hi. unfold field_mask, in_field. rewrite testbit_u32, Z.shiftl_spec, Z.shiftl_1_l by done.
  replace (2 ^ field_width f - 1) with (Z.ones (field_width f)) by (rewrite Z.ones_equiv; lia).
  destruct (Z.leb_spec (field_shift f) i); simpl; [|rewrite (Z.testbit_neg_r _ (i - _)) by lia; apply andb_false_r].
  rewrite Z.testbit_ones_nonneg by lia.
  destruct (Z.ltb_spec i 32), (Z.ltb_spec (i - field_shift f) (field_width f)), (Z.ltb_spec i (field_shift f + field_width f)); simpl; lia.
Qed.
Lemma get_bit (src : Z) (f : field) (i : Z) : field_ok f -> 0 <= i ->
  Z.testbit (BITS_GET src f) i = ((i <? field_width f) && Z.testbit src (i + field_shift f))%bool.
Proof.
  intros Hf Hi. pose proof Hf as (Hs & _). unfold BITS_GET. rewrite Z.shiftr_spec, Z.land_spec, mask_bit by (done || lia). unfold in_field.
  rewrite andb_comm. f_equal. destruct (Z.ltb_spec i (field_width f)), (Z.leb_spec (field_shift f) (i + field_shift f)),
    (Z.ltb_spec (i + field_shift f) (field_shift f + field_width f)); simpl; lia.
Qed.
Lemma set_bit (dst : Z) (f : field) (val i : Z) : field_ok f -> fits 32 dst -> 0 <= i ->
  Z.testbit (BITS_SET dst f val) i = if in_field f i then Z.testbit val (i - field_shift f) else Z.testbit dst i.
Proof.
  intros Hf Hd Hi. pose proof Hf as (Hs & Hw & Hb). unfold BITS_SET, not32.
  rewrite Z.lor_spec, !Z.land_spec, !testbit_u32, !Z.lnot_spec, mask_bit, Z.shiftl_1_l, Z.pow2_bits_eqb, Z.shiftl_spec by done.
  destruct (in_field f i) eqn:E; unfold in_field in E.
  - apply andb_true_iff in E as [E1%Z.leb_le E2%Z.ltb_lt]. rewrite (proj2 (Z.ltb_lt i 32)) by lia. simpl. by rewrite !andb_false_r, andb_true_r.
  - assert ((field_shift f =? i) = false) as -> by (apply Z.eqb_neq; intros <-; rewrite Z.leb_refl in E; simpl in E; apply Z.ltb_ge in E; lia).
    rewrite !andb_false_r, orb_false_r. simpl. rewrite !andb_true_r. destruct (Z.ltb_spec i 32); [by rewrite andb_true_r|]. rewrite andb_false_r.
    symmetry. destruct Hd as [H0 H32]. destruct (Z.eq_dec dst 0) as [->|Hn]; [by rewrite Z.testbit_0_l|].
    apply Z.bits_above_log2; [done|]. apply Z.lt_le_trans with 32; [|done]. apply Z.log2_lt_pow2; lia.
Qed.

(** What is set in a field is what is read from it, cut to the width; fields apart from it keep
    their value. *)
Theorem fields_roundtrip (dst : Z) (f g : field) (val : Z) : field_ok f -> field_ok g -> fits 32 dst ->
  BITS_GET (BITS_SET dst f val) f = wrap (field_width f) val /\
  (apart f g -> BITS_GET (BITS_SET dst f val) g = BITS_GET dst g) /\ fits 32 (BITS_SET dst f val).
Proof.
  intros Hf Hg Hd. pose proof Hf as (Hs & Hw & Hb). pose proof Hg as (Hs' & Hw' & Hb'). split_and!.
  - apply Z.bits_inj'. intros i Hi. rewrite get_bit, set_bit by (done || lia). unfold in_field, wrap.
    destruct (Z.ltb_spec i (field_width f)); simpl.
    + rewrite (proj2 (Z.leb_le _ _)), (proj2 (Z.ltb_lt _ _)) by lia. simpl. rewrite Z.mod_pow2_bits_low by lia. f_equal. lia.
    + by rewrite Z.mod_pow2_bits_high by lia.
  - intros Ha. apply Z.bits_inj'. intros i Hi. rewrite !get_bit, set_bit by (done || lia). unfold in_field.
    destruct (Z.ltb_spec i (field_width g)); simpl; [|done].
    replace ((field_shift f <=? i + field_shift g) && (i + field_shift g <? field_shift f + field_width f))%bool with false; [done|].
    symmetry. destruct Ha; destruct (Z.leb_spec (field_shift f) (i + field_shift g)), (Z.ltb_spec (i + field_shift g) (field_shift f + field_width f)); simpl; lia.
  - assert (BITS_SET dst f val = u32 (BITS_SET dst f val)) as ->; [|by apply wrap_range].
    apply Z.bits_inj'. intros i Hi. rewrite testbit_u32, set_bit by done. destruct (Z.ltb_spec i 32); [done|]. simpl.
    replace (in_field f i) with false by (symmetry; unfold in_field; destruct (Z.ltb_spec i (field_shift f + field_width f)); [lia|apply andb_false_r]).
    replace dst with (u32 dst) by (by apply wrap_small). rewrite testbit_u32 by done. by rewrite (proj2 (Z.ltb_ge i 32)).
Qed.

(** The properties of a queue and the fields of a header fit in their word, apart from each other. *)
Lemma tables_apart : Forall field_ok queue_properties_t /\ Forall field_ok header_fields /\
  ForallOrdPairs apart queue_properties_t /\ ForallOrdPairs apart header_fields.
Proof.
  assert (forall f g, field_shift f + field_width f <= field_shift g -> apart f g) as Ha by (intros; by left).
  assert (forall f, bool_decide (0 <= field_shift f) && bool_decide (0 < field_width f) && bool_decide (field_width f < 32) &&
    bool_decide (field_shift f + field_width f <= 32) = true -> field_ok f) as Hf.
  { intros f. rewrite !andb_true_iff, !bool_decide_eq_true. unfold field_ok. lia. }
  unfold queue_properties_t, header_fields. split; [|split; [|split]].
  - rewrite !Forall_cons. split_and!; try apply Hf; done.
  - rewrite !Forall_cons. split_and!; try apply Hf; done.
  - repeat (apply FOP_cons || apply FOP_nil); rewrite ?Forall_cons; split_and?; try apply Forall_nil; try done; by apply Ha.
  - repeat (apply FOP_cons || apply FOP_nil); rewrite ?Forall_cons; split_and?; try apply Forall_nil; try done; by apply Ha.
Qed.
(** The constructors set two properties and leave the others as they were. *)
Lemma properties_set dst : fits 32 dst ->
  BITS_GET (HardQueue_properties dst) QUEUE_PROPERTIES_IS_PTR64 = 1 /\ BITS_GET (HardQueue_properties dst) QUEUE_PROPERTIES_ENABLE_PROFILING = 0 /\
  BITS_GET (SoftQueue_properties dst) QUEUE_PROPERTIES_IS_PTR64 = 0 /\ BITS_GET (SoftQueue_properties dst) QUEUE_PROPERTIES_ENABLE_PROFILING = 0 /\
  BITS_GET (HardQueue_properties dst) QUEUE_PROPERTIES_RESERVED1 = BITS_GET dst QUEUE_PROPERTIES_RESERVED1.
Proof.
  intros Hd. unfold HardQueue_properties, SoftQueue_properties.
  assert (field_ok QUEUE_PROPERTIES_IS_PTR64 /\ field_ok QUEUE_PROPERTIES_ENABLE_PROFILING /\ field_ok QUEUE_PROPERTIES_RESERVED1) as (H1 & H2 & H3) by (unfold field_ok; simpl; lia).
  set (P := QUEUE_PROPERTIES_ENABLE_PROFILING) in *. set (B := QUEUE_PROPERTIES_IS_PTR64) in *. set (R := QUEUE_PROPERTIES_RESERVED1) in *.
  pose proof (fields_roundtrip dst P R 0 H2 H3 Hd) as (HP1 & HP2 & HP3). pose proof (fields_roundtrip dst B P 0 H1 H2 Hd) as (HB1 & HB2 & HB3).
  pose proof (fields_roundtrip (BITS_SET dst P 0) B P 1 H1 H2 HP3) as (HQ1 & HQ2 & HQ3).
  pose proof (fields_roundtrip (BITS_SET dst P 0) B R 1 H1 H3 HP3) as (_ & HQ5 & _).
  pose proof (fields_roundtrip (BITS_SET dst B 0) P B 0 H2 H1 HB3) as (HS1 & HS2 & _).
  split_and!; [done|rewrite HQ2 by (left; simpl; lia); done|rewrite HS2 by (right; simpl; lia); done|done|].
  rewrite HQ5 by (left; simpl; lia). apply HP2. left. simpl. lia.
Qed.

(** [IsValid] knows the types up to [PACKET_TYPE_MAX], also 0, which is none: the packets of copies
    and of tasks, which processors are sent, are not valid. *)
Theorem packet_valid (header : Z) : 0 <= header ->
  AqlPacket_IsValid header = true <-> BITS_GET header HEADER_TYPE = 0 \/
    exists t, BITS_GET header HEADER_TYPE = packet_type_value t /\ t <> INVALID /\ t <> DMA_COPY /\ t <> TASK /\ t <> STEAL_TASK.
Proof.
  intros Hh. assert (AqlPacket_type header = BITS_GET header HEADER_TYPE) as E.
  { unfold AqlPacket_type, BITS_GET. change (Z.shiftl 1 (field_width HEADER_TYPE) - 1) with (Z.ones 8). change (field_mask HEADER_TYPE) with (Z.ones 8).
    change (field_shift HEADER_TYPE) with 0. change PACKET_HEADER_TYPE with 0. rewrite !Z.shiftr_0_r, <- !wrap_land_ones by lia. apply wrap_wrap. }
  assert (0 <= AqlPacket_type header) as Hn by (apply (wrap_range 8); lia). unfold AqlPacket_IsValid. rewrite E in *. clear E. set (t := BITS_GET header HEADER_TYPE) in *.
  rewrite andb_true_iff, negb_true_iff, Z.leb_le, Z.eqb_neq. unfold PACKET_TYPE_MAX, PACKET_TYPE_INVALID. split.
  - intros [H5 H1]. assert (t = 0 \/ t = 2 \/ t = 3 \/ t = 4 \/ t = 5) as [|[|[|[|]]]] by lia; [by left|right..].
    + by exists KERNEL_DISPATCH.
    + by exists BARRIER_AND.
    + by exists AGENT_DISPATCH.
    + by exists BARRIER_OR.
  - intros [->|(p & -> & Hp)]; [lia|]. destruct p; naive_solver lia.
Qed.
