(* ===== verification/Options.v ===== *)
(** Text from outside: the options of [include/util/flag.h], read from the environment by the calls
    of [src/core/util/lnx/os_linux.cpp]; the choice of the clock by the version of the kernel there; the
    trimming of strings of [include/util/utils.h]; the file names and formatted lines of
    [src/common/OsSupport.cpp].

    A string is a list of characters.  [atoi] and [std::stoi] are those of the C and C++ libraries in
    the locale "C"; what [atoi] answers for a number that is not an [int] is not defined, and a
    parameter. *)
From S2P Require Import Prelude.
From Stdlib Require Import Ascii String.
Local Open Scope Z_scope.

Definition text : Type := list ascii.
Definition txt (s : string) : text := list_ascii_of_string s.

(** ** Numbers *)

Definition code (c : ascii) : Z := Z.of_N (N_of_ascii c).
(** [isspace] of the classic locale. *)
Definition is_space (c : ascii) : bool := ((code c =? 32) || ((9 <=? code c) && (code c <=? 13)))%bool.
Definition is_digit (c : ascii) : bool := ((48 <=? code c) && (code c <=? 57))%bool.
Definition digit_value (c : ascii) : Z := code c - 48.
Fixpoint skip (p : ascii -> bool) (s : text) : text := match s with c :: l => if p c then skip p l else s | [] => [] end.
(** The digits in front, their value after [acc], and the rest. *)
Fixpoint read_digits (acc : Z) (s : text) : Z * text :=
  match s with c :: l => if is_digit c then read_digits (acc * 10 + digit_value c) l else (acc, s) | [] => (acc, s) end.
(** Sign and digits: [None] when there is no digit. *)
Definition read_number (s : text) : option (Z * text) :=
  let '(neg, s) := match s with c :: l => if code c =? 45 then (true, l) else if code c =? 43 then (false, l) else (false, s) | [] => (false, s) end in
  match s with
  | c :: _ => if is_digit c then let '(n, rest) := read_digits 0 s in Some (if neg : bool then - n else n, rest) else None
  | [] => None
  end.
Definition is_int (n : Z) : bool := ((- 2 ^ 31 <=? n) && (n <? 2 ^ 31))%bool.
(** [None]: [std::stoi] throws.  Otherwise the number and the position after it. *)
Definition stoi (s : text) : option (Z * nat) :=
  match read_number (skip is_space s) with
  | Some (n, rest) => if is_int n then Some (n, (List.length s - List.length rest)%nat) else None
  | None => None
  end.

(** ** The environment *)

Definition environment : Type := string -> option text.
Definition IsEnvVarSet (env : environment) (name : string) : bool := match env name with Some _ => true | None => false end.
Definition GetEnvVar (env : environment) (name : string) : text := default [] (env name).
Definition SetEnvVar (env : environment) (name : string) (value : text) : environment :=
  fun n => if String.eqb n name then Some value else env n.

(** ** [Flag] *)

Inductive SDMA_OVERRIDE := SDMA_DISABLE | SDMA_ENABLE | SDMA_DEFAULT.
Record Flag := mkFlag {
  check_flat_scratch : bool; enable_vm_fault_message : bool; enable_queue_fault_message : bool; enable_interrupt : bool;
  enable_sdma : SDMA_OVERRIDE; visible_gpus : text; filter_visible_gpus : bool; running_valgrind : bool; sdma_wait_idle : bool;
  max_queues : Z; scratch_mem_size : Z; tools_lib_names : text; report_tool_load_failures : bool; disable_fragment_alloc : bool;
  enable_sdma_hdp_flush : bool; rev_copy_dir : bool; fine_grain_pcie : bool; no_scratch_reclaim : bool; no_scratch_thread_limiter : bool;
  disable_image : bool; loader_enable_mmap_uri : bool; force_sdma_size : Z; check_sramecc_validity : bool }.

Section flags.
Context (not_int : Z -> Z).
Definition atoi (s : text) : Z :=
  match read_number (skip is_space s) with Some (n, _) => if is_int n then n else not_int n | None => 0 end.

(** Options that are off unless 1, and on unless 0. *)
Definition is_one (var : text) : bool := bool_decide (var = txt "1").
Definition is_zero (var : text) : bool := bool_decide (var = txt "0").
(** [size_t] and [uint32_t] of an [int].  [debug]: whether it is a debug build. *)
Definition Refresh (debug : bool) (env : environment) : Flag :=
  let get := GetEnvVar env in
  {| check_flat_scratch := is_one (get "HSA_CHECK_FLAT_SCRATCH"%string);
     enable_vm_fault_message := negb (is_zero (get "HSA_ENABLE_VM_FAULT_MESSAGE"%string));
     enable_queue_fault_message := negb (is_zero (get "HSA_ENABLE_QUEUE_FAULT_MESSAGE"%string));
     enable_interrupt := negb (is_zero (get "HSA_ENABLE_INTERRUPT"%string));
     enable_sdma := let var := get "HSA_ENABLE_SDMA"%string in
       if is_zero var then SDMA_DISABLE else if is_one var then SDMA_ENABLE else SDMA_DEFAULT;
     visible_gpus := get "ROCR_VISIBLE_DEVICES"%string;
     filter_visible_gpus := IsEnvVarSet env "ROCR_VISIBLE_DEVICES"%string;
     running_valgrind := is_one (get "HSA_RUNNING_UNDER_VALGRIND"%string);
     sdma_wait_idle := is_one (get "HSA_SDMA_WAIT_IDLE"%string);
     max_queues := u32 (atoi (get "HSA_MAX_QUEUES"%string));
     scratch_mem_size := u64 (atoi (get "HSA_SCRATCH_MEM"%string));
     tools_lib_names := get "HSA_TOOLS_LIB"%string;
     report_tool_load_failures := let var := get "HSA_TOOLS_REPORT_LOAD_FAILURE"%string in if debug then is_one var else negb (is_zero var);
     disable_fragment_alloc := is_one (get "HSA_DISABLE_FRAGMENT_ALLOCATOR"%string);
     enable_sdma_hdp_flush := negb (is_zero (get "HSA_ENABLE_SDMA_HDP_FLUSH"%string));
     rev_copy_dir := is_one (get "HSA_REV_COPY_DIR"%string);
     fine_grain_pcie := is_one (get "HSA_FORCE_FINE_GRAIN_PCIE"%string);
     no_scratch_reclaim := is_one (get "HSA_NO_SCRATCH_RECLAIM"%string);
     no_scratch_thread_limiter := is_one (get "HSA_NO_SCRATCH_THREAD_LIMITER"%string);
     disable_image := is_one (get "HSA_DISABLE_IMAGE"%string);
     loader_enable_mmap_uri := is_one (get "HSA_LOADER_ENABLE_MMAP_URI"%string);
     force_sdma_size := let var := get "HSA_FORCE_SDMA_SIZE"%string in
       match var with [] => 1024 * 1024 | _ => u64 (atoi var) end;
     check_sramecc_validity := negb (is_one (get "HSA_IGNORE_SRAMECC_MISREPORT"%string)) |}.
End flags.

(** ** The clock *)

(** Whether [AccurateClockFrequency] takes [CLOCK_MONOTONIC_RAW], by the release of the kernel;
    every exception leaves the other clock. *)
Definition raw_clock (release : text) : bool :=
  match stoi release with
  | Some (major, idx) =>
      if (List.length release <? idx + 1)%nat then false   (* substr throws *)
      else match stoi (drop (idx + 1) release) with
      | Some (minor, _) => ((4 <=? major) && (4 <=? minor))%bool
      | None => false
      end
  | None => false
  end.
(** The answer of [AccurateClockFrequency] for a resolution of [tv_sec] and [tv_nsec]. *)
Definition clock_frequency (tv_sec tv_nsec : Z) : res Z :=
  assert_ (tv_sec =? 0);;
  assert_ (tv_nsec <? 0xFFFFFFFF);;
  if tv_nsec =? 0 then AssertFail else Ret (1000000000 / tv_nsec).

(** ** Strings *)

Definition strIsEmpty (s : text) : bool := match s with [] => true | _ => false end.
Definition ltrim (s : text) : text := skip is_space s.
Definition rtrim (s : text) : text := rev (skip is_space (rev s)).
Definition trim (s : text) : text := ltrim (rtrim s).

(** [strrchr(file, sep) + 1], when [sep] is there. *)
Fixpoint after_last (sep : ascii) (file : text) : option text :=
  match file with
  | [] => None
  | c :: l => match after_last sep l with Some r => Some r | None => if bool_decide (c = sep) then Some l else None end
  end.
Definition slash : ascii := "/"%char.
Definition backslash : ascii := "\"%char.
Definition BaseFile (file : text) : text :=
  match after_last slash file with
  | Some r => r
  | None => match after_last backslash file with Some r => r | None => file end
  end.

(** [s]: the text as formatted, whose length [vsnprintf] answers.  The buffers have 4096
    characters; to read or write beyond one is [AssertFail]. *)
Definition buffer : nat := 4096.
Definition Format (s : text) : res text :=
  if (List.length s <=? buffer)%nat then Ret (take (List.length s) (take (buffer - 1) s ++ [zero])) else AssertFail.
Definition newline : ascii := ascii_of_nat 10.
Definition P (s : text) : res text :=
  let len := List.length s in
  if (len + 1 <? buffer)%nat then Ret (take (buffer - 2) s ++ [newline]) else AssertFail.
Definition P_empty : text := [newline].

Example trim_example : trim (txt "  a b ") = txt "a b" /\ BaseFile (txt "src/core/x.cpp") = txt "x.cpp".
Proof. vm_compute. done. Qed.
Example raw_clock_example : raw_clock (txt "4.15.0-112-generic") = true /\ raw_clock (txt "5.3.0") = false /\ raw_clock (txt "3.10.0") = false.
Proof. vm_compute. done. Qed.
