(* ===== verification/OptionsSpec.v ===== *)
(** Text from outside: numbers are read as they are written, options are what their variables say,
    trimming takes exactly the spaces at both ends, and the buffers of formatted lines are too short
    for long texts. *)
From S2P Require Import Prelude Options.
From Stdlib Require Import Ascii String.
Local Open Scope Z_scope.

(** ** Numbers *)

(** The number that digits write. *)
Definition value (ds : text) : Z := fold_left (fun n c => n * 10 + digit_value c) ds 0.
Definition no_digit_first (s : text) : Prop := match s with c :: _ => is_digit c = false | [] => True end.
Definition sign (neg : bool) : text := if neg then txt "-" else [].
Definition signed (neg : bool) (n : Z) : Z := if neg then - n else n.

Lemma digit_code c : is_digit c = true -> 48 <= code c <= 57.
Proof. unfold is_digit. intros [?%Z.leb_le ?%Z.leb_le]%andb_true_iff. done. Qed.
Lemma digit_not_space c : is_digit c = true -> is_space c = false.
Proof.
  intros [H1 H2]%digit_code. unfold is_space. destruct (Z.eqb_spec (code c) 32), (Z.leb_spec 9 (code c)), (Z.leb_spec (code c) 13); simpl; lia.
Qed.
Lemma skip_app p (a s : text) : Forall (fun c => p c = true) a -> match s with c :: _ => p c = false | [] => True end -> skip p (a ++ s) = s.
Proof. induction 1 as [|c a Hc _ IH]; simpl; intros Hs; [destruct s; simpl; [done|by rewrite Hs]|rewrite Hc; by apply IH]. Qed.
Lemma read_digits_all acc ds rest : Forall (fun c => is_digit c = true) ds -> no_digit_first rest ->
  read_digits acc (ds ++ rest) = (fold_left (fun n c => n * 10 + digit_value c) ds acc, rest).
Proof.
  intros Hds Hr. revert acc. induction Hds as [|c ds Hc _ IH]; intros acc; simpl; [|by rewrite Hc].
  destruct rest; simpl; [done|]. by rewrite Hr.
Qed.
Lemma read_number_all neg ds rest : ds <> [] -> Forall (fun c => is_digit c = true) ds -> no_digit_first rest ->
  read_number (sign neg ++ ds ++ rest) = Some (signed neg (value ds), rest).
Proof.
  intros Hn Hds Hr. destruct ds as [|c ds]; [done|]. pose proof (Forall_inv Hds) as Hc. destruct (digit_code _ Hc).
  pose proof (read_digits_all 0 (c :: ds) rest Hds Hr) as E. change ((c :: ds) ++ rest) with (c :: ds ++ rest) in *. destruct neg; unfold read_number.
  - change (sign true ++ c :: ds ++ rest) with ("-"%char :: c :: ds ++ rest). cbn iota beta. change (code "-" =? 45) with true. cbn iota beta. by rewrite Hc, E.
  - change (sign false ++ c :: ds ++ rest) with (c :: ds ++ rest). cbn iota beta. rewrite (proj2 (Z.eqb_neq _ 45)), (proj2 (Z.eqb_neq _ 43)) by lia. cbn iota beta. by rewrite Hc, E.
Qed.
Lemma skip_number ws neg ds rest : ds <> [] -> Forall (fun c => is_space c = true) ws -> Forall (fun c => is_digit c = true) ds ->
  skip is_space (ws ++ sign neg ++ ds ++ rest) = sign neg ++ ds ++ rest.
Proof.
  intros Hn Hw Hd. apply skip_app; [done|]. destruct neg; [done|]. destruct ds; [done|]. exact (digit_not_space _ (Forall_inv Hd)).
Qed.

(** Spaces, a sign and digits are read as the number they write, whatever comes after them; text
    without digits in front is no number. *)
Theorem numbers_read not_int ws neg ds rest : ds <> [] -> Forall (fun c => is_space c = true) ws -> Forall (fun c => is_digit c = true) ds ->
  no_digit_first rest -> is_int (signed neg (value ds)) = true ->
  atoi not_int (ws ++ sign neg ++ ds ++ rest) = signed neg (value ds) /\
  stoi (ws ++ sign neg ++ ds ++ rest) = Some (signed neg (value ds), (List.length ws + List.length (sign neg) + List.length ds)%nat).
Proof.
  intros Hn Hw Hd Hr Hi. unfold atoi, stoi. rewrite skip_number, read_number_all, Hi by done. split; [done|]. do 2 f_equal. rewrite !length_app. lia.
Qed.

(** ** The clock *)

(** For a kernel of version [major.minor] the raw clock is taken when both numbers are at least 4:
    not for 5.0, for instance, though it is newer. *)
Theorem raw_clock_versions major minor rest : major <> [] -> minor <> [] -> Forall (fun c => is_digit c = true) major -> Forall (fun c => is_digit c = true) minor ->
  no_digit_first rest -> is_int (value major) = true -> is_int (value minor) = true ->
  raw_clock (major ++ txt "." ++ minor ++ rest) = ((4 <=? value major) && (4 <=? value minor))%bool.
Proof.
  intros H1 H2 Hd1 Hd2 Hr Hi1 Hi2. unfold raw_clock.
  destruct (numbers_read id [] false major (txt "." ++ minor ++ rest) H1 ltac:(by constructor) Hd1 eq_refl Hi1) as [_ E]. cbn [sign app List.length Nat.add] in E.
  rewrite E. rewrite (proj2 (Nat.ltb_ge _ _)) by (rewrite length_app; simpl; lia).
  rewrite drop_app_ge by lia. replace (List.length major + 1 - List.length major)%nat with 1%nat by lia.
  change (drop 1 (txt "." ++ minor ++ rest)) with (minor ++ rest).
  destruct (numbers_read id [] false minor rest H2 ltac:(by constructor) Hd2 Hr Hi2) as [_ E2]. cbn [sign app] in E2. by rewrite E2.
Qed.
Lemma raw_clock_versions_witness : raw_clock (txt "5.0.0-rc1") = false.
Proof.
  apply (raw_clock_versions (txt "5") (txt "0") (txt ".0-rc1")); try done; repeat constructor.
Defined.
(** Below one second the frequency is at least 1 and at most 10^9, and exact within one. *)
Theorem clock_frequency_bounds tv_nsec : 0 < tv_nsec <= 1000000000 -> exists f, clock_frequency 0 tv_nsec = Ret f /\ 1 <= f <= 1000000000 /\ f * tv_nsec <= 1000000000 < (f + 1) * tv_nsec.
Proof.
  intros H. exists (1000000000 / tv_nsec). unfold clock_frequency. rewrite (proj2 (Z.ltb_lt _ _)), (proj2 (Z.eqb_neq _ 0)) by lia.
  split; [done|]. pose proof (Z.div_mod 1000000000 tv_nsec ltac:(lia)). pose proof (Z.mod_pos_bound 1000000000 tv_nsec ltac:(lia)). nia.
Qed.

(** ** Options *)

Definition flag_names : list string :=
  ["HSA_CHECK_FLAT_SCRATCH"; "HSA_ENABLE_VM_FAULT_MESSAGE"; "HSA_ENABLE_QUEUE_FAULT_MESSAGE"; "HSA_ENABLE_INTERRUPT"; "HSA_ENABLE_SDMA";
   "ROCR_VISIBLE_DEVICES"; "HSA_RUNNING_UNDER_VALGRIND"; "HSA_SDMA_WAIT_IDLE"; "HSA_MAX_QUEUES"; "HSA_SCRATCH_MEM"; "HSA_TOOLS_LIB";
   "HSA_TOOLS_REPORT_LOAD_FAILURE"; "HSA_DISABLE_FRAGMENT_ALLOCATOR"; "HSA_ENABLE_SDMA_HDP_FLUSH"; "HSA_REV_COPY_DIR";
   "HSA_FORCE_FINE_GRAIN_PCIE"; "HSA_NO_SCRATCH_RECLAIM"; "HSA_NO_SCRATCH_THREAD_LIMITER"; "HSA_DISABLE_IMAGE"; "HSA_LOADER_ENABLE_MMAP_URI";
   "HSA_FORCE_SDMA_SIZE"; "HSA_IGNORE_SRAMECC_MISREPORT"]%string.
(** The options are a function of these variables alone. *)
Theorem flags_read_names not_int debug env env' : (forall n, n ∈ flag_names -> env n = env' n) -> Refresh not_int debug env = Refresh not_int debug env'.
Proof.
  intros H. assert (forall n, existsb (String.eqb n) flag_names = true -> env n = env' n) as Hb.
  { intros n (m & Hm%list_elem_of_In & ->%String.eqb_eq)%existsb_exists. by apply H. }
  unfold Refresh, GetEnvVar, IsEnvVarSet. by rewrite !Hb.
Qed.
(** With none of them set. *)
Theorem flags_default not_int debug env : (forall n, n ∈ flag_names -> env n = None) ->
  Refresh not_int debug env =
    mkFlag false true true true SDMA_DEFAULT [] false false false 0 0 [] (negb debug) false true false false false false false false (1024 * 1024) true.
Proof. intros H. rewrite (flags_read_names not_int debug env (fun _ => None)) by done. by destruct debug. Qed.
(** A negative number of queues or size is a huge one. *)
Theorem flags_negative not_int debug env n : 0 < n <= 2 ^ 31 -> atoi not_int (GetEnvVar env "HSA_MAX_QUEUES") = - n ->
  max_queues (Refresh not_int debug env) = 2 ^ 32 - n.
Proof. intros Hn E. unfold Refresh. cbn [max_queues]. rewrite E. unfold u32, wrap. rewrite <- (Z_mod_plus_full _ 1), Z.mod_small by lia. lia. Qed.
Lemma flags_negative_witness : max_queues (Refresh id false (SetEnvVar (fun _ => None) "HSA_MAX_QUEUES" (txt "-1"))) = 2 ^ 32 - 1.
Proof. apply (flags_negative id false (SetEnvVar (fun _ => None) "HSA_MAX_QUEUES" (txt "-1")) 1); [lia|reflexivity]. Defined.

(** ** Strings *)

Definition spaces (s : text) : Prop := Forall (fun c => is_space c = true) s.
Definition no_space_first (s : text) : Prop := match s with c :: _ => is_space c = false | [] => True end.
Lemma skip_split (s : text) : exists a, s = a ++ skip is_space s /\ spaces a /\ no_space_first (skip is_space s).
Proof.
  induction s as [|c s (a & E & Ha & Hn)]; [exists []; split_and!; [done|constructor|done]|]. simpl. destruct (is_space c) eqn:Ec; [|exists []; split_and!; [done|constructor|done]].
  exists (c :: a). simpl. rewrite <- E. split; [done|]. split; [by constructor|done].
Qed.

(** [trim] takes the spaces at both ends and nothing else. *)
Theorem trim_exact s : exists a b, s = a ++ trim s ++ b /\ spaces a /\ spaces b /\ no_space_first (trim s) /\ no_space_first (rev (trim s)) /\ trim (trim s) = trim s.
Proof.
  destruct (skip_split (rev s)) as (b & Eb & Hb & Hnb). destruct (skip_split (rtrim s)) as (a & Ea & Ha & Hna).
  assert (s = rtrim s ++ rev b) as Es by (unfold rtrim; rewrite <- rev_app_distr, <- Eb; by rewrite rev_involutive).
  assert (no_space_first (rev (trim s))) as Hl.
  { unfold trim, ltrim. unfold rtrim in Ea at 1. apply (f_equal (@rev _)) in Ea. rewrite rev_involutive, rev_app_distr in Ea. rewrite Ea in Hnb.
    destruct (rev (skip is_space (rtrim s))); simpl in *; done. }
  assert (forall t, no_space_first t -> skip is_space t = t) as Hid by (intros [|c t] H; simpl; [done|by rewrite H]).
  exists a, (rev b). split_and!; [|done|by apply Forall_rev|done|done|].
  - unfold trim, ltrim. rewrite app_assoc, <- Ea. done.
  - unfold trim at 1, ltrim, rtrim. rewrite (Hid (rev (trim s))) by done. rewrite rev_involutive. by apply Hid.
Qed.

Lemma after_last_some sep file r : after_last sep file = Some r -> (exists d, file = d ++ sep :: r) /\ sep ∉ r.
Proof.
  revert r. induction file as [|c l IH]; intros r H; [done|]. simpl in H. destruct (after_last sep l) as [x|] eqn:E.
  - injection H as <-. destruct (IH x eq_refl) as [[d ->] Hn]. split; [by exists (c :: d)|done].
  - case_bool_decide as Hc; [|done]. injection H as <-. subst c. split; [by exists []|].
    clear IH. induction l as [|c l IHl]; [by apply not_elem_of_nil|]. simpl in E. destruct (after_last sep l); [done|]. case_bool_decide; [done|].
    apply not_elem_of_cons. split; [congruence|by apply IHl].
Qed.
Lemma after_last_none sep file : after_last sep file = None -> sep ∉ file.
Proof.
  induction file as [|c l IH]; intros E; [by apply not_elem_of_nil|]. simpl in E. destruct (after_last sep l); [done|]. case_bool_decide; [done|].
  apply not_elem_of_cons. split; [congruence|by apply IH].
Qed.
(** [BaseFile]: what follows the last slash; without a slash, what follows the last backslash;
    without either, the whole path. *)
Theorem base_file file : slash ∉ BaseFile file /\
  ((exists d, file = d ++ slash :: BaseFile file) \/
   (slash ∉ file /\ backslash ∉ BaseFile file /\ ((exists d, file = d ++ backslash :: BaseFile file) \/ file = BaseFile file))).
Proof.
  unfold BaseFile. destruct (after_last slash file) as [r|] eqn:E.
  - destruct (after_last_some _ _ _ E). split; [done|by left].
  - apply after_last_none in E. destruct (after_last backslash file) as [r|] eqn:E2.
    + destruct (after_last_some _ _ _ E2) as [[d Hd] Hn]. split; [|right; split_and!; [done|done|left; by exists d]]. intros H. apply E. rewrite Hd.
      apply elem_of_app. right. by right.
    + apply after_last_none in E2. split; [done|]. right. split_and!; [done|done|by right].
Qed.

(** Formatted text comes out whole while it fits its buffer; a longer one is read or ended beyond
    the buffer. *)
Theorem format_bounds s :
  ((List.length s < buffer)%nat -> Format s = Ret s) /\ ((buffer < List.length s)%nat -> Format s = AssertFail) /\
  ((List.length s + 1 < buffer)%nat -> P s = Ret (s ++ [newline])) /\ ((buffer <= List.length s + 1)%nat -> P s = AssertFail).
Proof.
  unfold Format, P. split_and!; intros H.
  - rewrite (proj2 (Nat.leb_le _ _)) by lia. rewrite (take_ge s) by lia. by rewrite take_app_length.
  - by rewrite (proj2 (Nat.leb_gt _ _)) by lia.
  - rewrite (proj2 (Nat.ltb_lt _ _)) by lia. by rewrite take_ge by lia.
  - by rewrite (proj2 (Nat.ltb_ge _ _)) by lia.
Qed.
